(* ===== verification/_CoqProject ===== *)
-Q . S2P
Prelude.v
Bytes.v
Sni.v
Stream.v
Protocol.v
Config.v
Routes.v
Lookups.v
Limits.v
Backend.v
Control.v
Events.v
Server.v
Revocation.v
LocalPool.v
H2proxy.v
Public.v
Pipe.v
System.v
Dynamic.v
Availability.v
Timing.v
Upgrade.v
Cert.v
HostCerts.v
Start.v
Client.v
Connecting.v
Listener.v
Cli.v
Launch.v
Lifecycle.v
Embedding.v
ServerTests.v
ClientTests.v
Scenarios.v
