(* ===== verification/Prelude.v ===== *)
(** * Tuyau: a verification development for the hostname-routed QUIC tunnel

    Tuyau exposes services behind NAT: clients keep a QUIC tunnel to the server,
    and the server forwards public TLS connections to them by host name (SNI), or
    to local upstreams.  This library models the Rust crates under [src/crates]
    and proves what makes them correct.

    ** The program and its model

    A public connection is accepted under two limits, its ClientHello is read and
    its SNI parsed; the routing table says whether the host is terminated here and
    where it goes; a terminated HTTP connection is reverse-proxied request by
    request, anything else is piped.  A tunnel connection authenticates with a
    token, is granted hosts by a backend, gets them installed in the table and is
    registered until it ends.  The client pins the certificate of the server,
    reads a header per stream and forwards to a local service.

    - [Prelude], [Bytes]: results, code that may panic, bytes, UTF-8 and strings.
    - [Sni]: [tuyau-server/src/sni.rs], [parse_sni] on a byte buffer with [usize]
      positions; every index and addition that could panic can do so in the model.
    - [Stream]: the interface of tokio's streams as classes with their contracts,
      [meter.rs] ([Metered]) and the [PrefixedStream] of [public.rs].
    - [Protocol]: the crate [tuyau-protocol], frames, codec and token visitor.
    - [Config]: [config.rs], the configuration and both validations.
    - [Routes]: [routes.rs], every operation of [RoutingTable] as a function on the
      table; an operation holds the lock throughout, so it is one atomic step.
    - [Lookups]: [lookup] again, one step per shared access, interleaved with other
      lookups and the writers of the table; [Server] and [System] use these steps.
    - [Limits]: the global and per-address limits of [public.rs].
    - [Backend]: [backend.rs], the policy interface as a class (a relation, since a
      dynamic backend may change its mind) and its static instance.
    - [Control]: [control.rs], the registry of tunnels and the event log; [Events]:
      the same one lock at a time, with the broadcast channel and its subscribers.
    - [Server]: [server.rs], [handle_incoming] as a state machine whose phases are
      its await points and the points between two shared operations; a step
      relation interleaves all handlers, [kick], [set_terminated_domains], the
      shared accesses of lookups, closes and cancellation in any order.  [Revocation]: its [kick] when
      the backend no longer admits the client.
    - [LocalPool]: [local_pool.rs], the pooled clients, the URI that names a target and
      the connector that reads it back.
    - [H2proxy]: [h2proxy.rs], one request of a terminated connection.
    - [Public]: [public.rs], [read_client_hello] and the decision of
      [handle_public]; each use of the shared table may see another table.
    - [Pipe]: [pipe_bytes] and [splice_local] of [public.rs] and the copies of the
      client's [forward_stream]: channels, pumps between them, and their schedules.
    - [System]: the task of a public connection ([accept_loop], [handle_public],
      [dispatch_local], [serve_h1], [serve_h2]) as a state machine, and the system
      of all such tasks, the upgraded connections that outlive theirs, the tunnel
      sessions of [Server] and the limits; [Dynamic]:
      that system with any backend, provisioning and revocation; [Availability]: a
      visitor of a served host in it; [Timing]: the clock and the timeouts of tunnel
      handlers and public connections.
    - [Upgrade]: the calls of [h2proxy.rs] to a backend at their await points, and the
      WebSocket bridges they spawn, which are splices of [Pipe].
    - [Cert]: [cert.rs], certificates on disk over an abstract file system.
    - [HostCerts]: [host_certs.rs] and the resolvers and ACME controller of
      [server.rs].
    - [Start]: [TunnelServer::start], [start_with], the accept loops, [healthy] and
      [shutdown] of [server.rs], in a monad of files, tasks and errors.
    - [Client]: the crate [tuyau-client]; [Connecting]: its [connect] as a task with
      deadlines; [Listener]: its [listener.rs] and [tls.rs];
      [Cli]: the configuration of [tuyau-cli/src/main.rs]; [Launch]: its
      [run_server] and [run_client]; [Lifecycle]: the process of a connected client,
      from its streams to its end, and [main]; [Embedding]: the example applications
      of [tuyau-client/examples].
    - [ServerTests], [ClientTests]: the unit tests of the crates, run on the model;
      [Scenarios]: integration tests as scripts over the whole server.

    ** What is shown

    - Security of routing ([Server], [Routes], [Backend], [System], [Dynamic],
      [Revocation]): in every
      reachable state a host leads only to a connection that authenticated with a
      token granted that host; a tunnel nobody closes keeps all its routes; with a
      valid static configuration this holds end to end, up to the visitor: whatever
      a public connection is connected to is what the configuration names for its
      host, in any interleaving; with any backend it is the tunnel of a client that was
      granted that host, or a configured upstream; a client that is kicked and no
      longer admitted is out (its tunnels that were granted a host are closed); the
      table's precedence is the documented one, installs and kicks displace exactly
      what they must, and configured hosts can not be taken away.
    - Availability ([Availability]): while a tunnel is served and the connections its
      host is routed to are open, a visitor of the host gets to an open tunnel or the
      configured upstream in a bounded number of steps, whatever happens in between.
      (A lookup that races others may miss the one open connection among closed
      ones: [Lookups.concurrent_lookup_misses_live].)
    - Concurrency of lookups ([Lookups]): in any interleaving a lookup is sound and
      wait-free, probes are shared fairly, and alone it is the atomic [lookup].
    - Security of the edge ([Public], [System], [H2proxy], [Limits], [Sni]): no input
      makes the ClientHello path panic or loop; traffic is decrypted only for
      terminated hosts and after the client-certificate check; the backend is told
      the true client address on every path, and a request in origin form reaches
      the pool's right target without a panic; failures are 502 pages; the limits
      bound the connections that have a task (not the upgraded ones,
      [System.splices_unbounded]) and no single address starves the others; a
      connection makes progress.
    - Faithful bytes ([Stream], [Protocol], [Pipe], [Client], [Listener],
      [LocalPool]): framing is independent of packet boundaries, the header the
      server writes is the one the client reads and nothing after it is lost, the
      pipes deliver what was sent, in order and completely, with half-closes, in any
      schedule, and terminate; meters count exactly, and a pooled request reaches the
      socket it was routed to.
    - Upgrades ([Upgrade]): a client is told it was upgraded only if the backend was,
      and a request that asked for it is bridged exactly then; the tasks send and
      return what the request-level model says.
    - Identity and certificates ([Cert], [HostCerts], [Start], [Launch], [Client]):
      the pinned certificate survives restarts of the whole program, the token goes
      only to a server that has the pinned certificate and its key, and each configured
      name is served the certificate of its entry, or the server-wide one, whatever is
      provisioned.
    - Start and stop ([Start]): a server that starts is the configured one, a failed
      start leaves no listener, the watchdog is truthful and shutdown ends.
    - Configuration ([Config], [Cli]): validation accepts the documented configurations
      and, but for three things it does not look at, no other; the client's
      configuration is what flags and environment say.
    - Observability ([Control], [Events]): the events account for the registry in any
      interleaving, and a subscriber receives each or is told how many it missed.
    - Termination and time ([Server], [Timing], [Lifecycle], [Connecting]): the rank of a
      handler decreases, and it has a next event of its own except where the code waits
      without a timeout; a peer that has not authenticated, and a
      visitor that is not connected, are gone within the sum of their timeouts (and
      of the awaits that have none), and so is the client's [connect]; a client process ends when it is told to, or when
      its tunnel is gone.
    - Applications ([Embedding]): an embedding application is handed exactly the visitors
      whose streams arrive, with their bytes, address and host.

    Theorems with hypotheses have a [_witness] that applies them to concrete data;
    examples show the behaviours that differ from the documentation.

    ** Bounds and fuel

    Integers that may wrap are kept at their width ([Bytes.uadd], [u64_add], the
    round-robin cursor).  Loops that are not structural take fuel: [parse_sni]
    uses the buffer's length plus one for each of its loops (each turn consumes a
    byte, and [parse_sni_total] shows the fuel never runs out), [drain] the
    buffer's length (a frame takes at least its four-byte prefix), trimming a text
    or a path its length, an uninterrupted lookup the number of its connections and
    four (shown enough by [lookup_uninterrupted]), the accept loops of the
    listeners the number of arrivals, [run_connect] its six waits (shown enough by
    [connect_runs]), a script of [Scenarios] the phases of a handler.  Runs of
    pipes and systems are sequences of events or step relations; [pipes_complete]
    bounds the actions of pumps by [weight].  Time is in milliseconds, in [N].

    ** What is not modelled

    QUIC, TLS, HTTP, CBOR, TOML, PEM, X.509, ACME and the broadcast channel are
    libraries: they are parameters or classes with their documented laws, or oracles
    for an outcome.  What hyper does with the limits it is given (concurrent streams,
    header sizes, keep-alives) and the reuse of pooled connections are its own; logging,
    the parser of command lines and the parts of the integration tests that look at
    sockets and presented certificates are left out.  The locks of the table do not
    poison (parking_lot), and nothing that runs under the lock of the registry
    (inserting, removing and cloning entries) is modelled as panicking, so that the
    [expect] on it does not fire; a task that panics is an event of the accept loops
    ([Start]).  Copies are tokio's: a pump of [Pipe] moves bytes as they are documented
    to, and flow control is not modelled.  The crate roots declare modules and re-export
    names.  Time is in [Timing] and [Connecting] for one task at a time: a timed model of
    all tasks together would need scheduling assumptions the program does not make. *)

From Stdlib Require Export ZArith Lia.
From stdpp Require Export base tactics gmap sets strings option list.

(** ** Fallible code

    A Rust [Result<A, E>] is [result E A]; it is a monad for stdpp's
    [x ← m; k] notation, which plays the part of the [?] operator. *)

Inductive result (E A : Type) : Type :=
| Ok (a : A)
| Err (e : E).
Arguments Ok {E A} a.
Arguments Err {E A} e.

#[export] Instance result_ret {E} : MRet (result E) := fun _ a => Ok a.
#[export] Instance result_bind {E} : MBind (result E) :=
  fun _ _ f m => match m with Ok a => f a | Err e => Err e end.
#[export] Instance result_fmap {E} : FMap (result E) :=
  fun _ _ f m => match m with Ok a => Ok (f a) | Err e => Err e end.

(** [r.map_err(f)] *)
Definition map_err {E F A} (f : E → F) (r : result E A) : result F A :=
  match r with Ok a => Ok a | Err e => Err (f e) end.

Lemma map_err_Ok {E F A} (f : E → F) (r : result E A) a : map_err f r = Ok a ↔ r = Ok a.
Proof. destruct r; simpl; split; intros; simplify_eq; done. Qed.

(** [o.ok_or_else(|| e)] *)
Definition ok_or {E A} (e : E) (o : option A) : result E A :=
  match o with Some a => Ok a | None => Err e end.

(** [o.is_some()] and [v.is_empty()] *)
Definition is_some {A} (o : option A) : bool :=
  match o with Some _ => true | None => false end.
Definition is_nil {A} (l : list A) : bool :=
  match l with [] => true | _ :: _ => false end.

(** ** Code that may panic

    [partial A] is the outcome of a Rust function of type [Option<A>] run on a
    machine: it yields [Some a] ([PSome]), yields [None] ([PNone]), panics
    ([PPanic]: an index out of range, an arithmetic overflow in a build with
    overflow checks), or has not finished within the fuel given to a loop
    ([PFuel]).  The [?] operator is the bind. *)

Inductive partial (A : Type) : Type :=
| PSome (a : A)
| PNone
| PPanic
| PFuel.
Arguments PSome {A} a.
Arguments PNone {A}.
Arguments PPanic {A}.
Arguments PFuel {A}.

#[export] Instance partial_ret : MRet partial := fun _ a => PSome a.
#[export] Instance partial_bind : MBind partial :=
  fun _ _ f m =>
    match m with
    | PSome a => f a
    | PNone => PNone
    | PPanic => PPanic
    | PFuel => PFuel
    end.

(** The outcome is a value of the Rust type [Option<A>]: the code returned. *)
Definition returns {A} (m : partial A) : Prop :=
  match m with PSome _ | PNone => True | PPanic | PFuel => False end.

(** The code returned, and [Q] holds of the value if it is a [Some]. *)
Definition ensures {A} (m : partial A) (Q : A → Prop) : Prop :=
  match m with PSome a => Q a | PNone => True | PPanic | PFuel => False end.

(** The value of an outcome that returned. *)
Definition value {A} (m : partial A) : option A :=
  match m with PSome a => Some a | _ => None end.

(** ** Machine integers *)

(** One more than [usize::MAX], on the 64-bit targets the server runs on. *)
Definition usize_modulus : Z := 2 ^ 64.

(** No Rust allocation is longer than [isize::MAX] bytes. *)
Definition isize_max : Z := 2 ^ 63 - 1.

(** [Duration::from_secs], in milliseconds. *)
Definition from_secs (n : N) : N := (n * 1000)%N.

(** ** Collections

    [iter.collect::<HashMap<_, _>>()] inserts in order, so the last of two
    equal keys wins; [collect::<HashSet<_>>()] is order-insensitive. *)

Definition collect_map `{Countable K} {V} (l : list (K * V)) : gmap K V :=
  foldl (λ m kv, <[kv.1 := kv.2]> m) ∅ l.

Definition collect_set `{Countable K} (l : list K) : gset K := list_to_set l.

(** [iter.find_map(f)] *)
Fixpoint find_map {A B} (f : A → option B) (l : list A) : option B :=
  match l with
  | [] => None
  | x :: l => match f x with Some y => Some y | None => find_map f l end
  end.

(** ** Hint database and tactics of the development *)

Create HintDb tuyau.

(** Case analysis on the scrutinee of a [match] in the goal or a hypothesis. *)
Ltac case_step :=
  match goal with
  | |- context [match ?x with _ => _ end] => destruct x eqn:?
  | H : context [match ?x with _ => _ end] |- _ => destruct x eqn:?
  end; simplify_eq/=.

Ltac case_all := repeat case_step.

(** Unfold the monads of this file and simplify. *)
Ltac monad_simp :=
  unfold mbind, mret, fmap, result_bind, result_ret, result_fmap,
    partial_bind, partial_ret in *; simpl in *.

(** ** Lemmas on the monads *)

Lemma result_bind_Ok {E A B} (m : result E A) (f : A → result E B) b :
  (a ← m; f a) = Ok b ↔ ∃ a, m = Ok a ∧ f a = Ok b.
Proof. destruct m; monad_simp; naive_solver. Qed.

Lemma result_bind_Err {E A B} (m : result E A) (f : A → result E B) e :
  (a ← m; f a) = Err e ↔ m = Err e ∨ ∃ a, m = Ok a ∧ f a = Err e.
Proof. destruct m; monad_simp; naive_solver. Qed.

Lemma partial_bind_PSome {A B} (m : partial A) (f : A → partial B) b :
  (a ← m; f a) = PSome b ↔ ∃ a, m = PSome a ∧ f a = PSome b.
Proof. destruct m; monad_simp; naive_solver. Qed.

Lemma bind_PSome {A B} (m : partial A) (f : A → partial B) a :
  m = PSome a → (x ← m; f x) = f a.
Proof. by intros ->. Qed.

Lemma ensures_bind {A B} (m : partial A) (f : A → partial B) P Q :
  ensures m P → (∀ a, P a → ensures (f a) Q) → ensures (a ← m; f a) Q.
Proof. destruct m; monad_simp; naive_solver. Qed.

Lemma ensures_mono {A} (m : partial A) (P Q : A → Prop) :
  ensures m P → (∀ a, P a → Q a) → ensures m Q.
Proof. destruct m; simpl; naive_solver. Qed.

Lemma ensures_returns {A} (m : partial A) P : ensures m P → returns m.
Proof. by destruct m. Qed.

Lemma ensures_PSome {A} (m : partial A) P a : ensures m P → m = PSome a → P a.
Proof. intros H ->. exact H. Qed.

Lemma value_Some {A} (m : partial A) a : value m = Some a ↔ m = PSome a.
Proof. destruct m; simpl; naive_solver. Qed.

Lemma returns_inv {A} (m : partial A) :
  returns m → m = PNone ∨ ∃ a, m = PSome a.
Proof. destruct m; simpl; naive_solver. Qed.

#[export] Hint Resolve ensures_returns : tuyau.

(** ** Lemmas on collections *)

Section collect.
Context `{Countable K} {V : Type}.
Implicit Types (l : list (K * V)) (m : gmap K V).

Lemma foldl_insert_lookup l m k :
  foldl (λ m kv, <[kv.1 := kv.2]> m) m l !! k =
  match collect_map l !! k with Some v => Some v | None => m !! k end.
Proof.
  unfold collect_map. revert m.
  induction l as [|[k' v'] l IH] using rev_ind; intros m; simpl.
  - by rewrite lookup_empty.
  - rewrite !foldl_app; simpl. destruct (decide (k' = k)) as [->|].
    + by rewrite !lookup_insert_eq.
    + by rewrite !lookup_insert_ne.
Qed.

Lemma collect_map_cons k v l k' :
  collect_map ((k, v) :: l) !! k' =
  match collect_map l !! k' with
  | Some w => Some w
  | None => if decide (k = k') then Some v else None
  end.
Proof.
  unfold collect_map at 1; simpl. rewrite foldl_insert_lookup.
  case_match; [done|]. rewrite lookup_insert. case_decide; [done|].
  by rewrite lookup_empty.
Qed.

Lemma collect_map_None l k : collect_map l !! k = None ↔ k ∉ l.*1.
Proof.
  induction l as [|[k' v'] l IH]; simpl.
  - set_solver.
  - rewrite collect_map_cons, elem_of_cons. case_match; [|case_decide]; naive_solver.
Qed.

Lemma collect_map_elem l k v : collect_map l !! k = Some v → (k, v) ∈ l.
Proof.
  induction l as [|[k' v'] l IH]; simpl; [done|].
  rewrite collect_map_cons, elem_of_cons. case_match; [|case_decide]; naive_solver.
Qed.

Lemma collect_map_is_Some l k : is_Some (collect_map l !! k) ↔ k ∈ l.*1.
Proof.
  rewrite <- not_eq_None_Some. pose proof (collect_map_None l k) as Hn.
  destruct (decide (k ∈ l.*1)); naive_solver.
Qed.

Lemma collect_map_NoDup l k v :
  NoDup l.*1 → (k, v) ∈ l → collect_map l !! k = Some v.
Proof.
  induction l as [|[k' v'] l IH]; simpl; [set_solver|].
  intros [Hnot Hnd]%NoDup_cons Hin. rewrite collect_map_cons.
  apply elem_of_cons in Hin as [[= -> ->]|Hin].
  - apply collect_map_None in Hnot. by rewrite Hnot, decide_True.
  - by rewrite (IH Hnd Hin).
Qed.
End collect.

Lemma elem_of_collect_set `{Countable K} (l : list K) k :
  k ∈ collect_set l ↔ k ∈ l.
Proof. unfold collect_set. by rewrite elem_of_list_to_set. Qed.

Lemma find_map_Some {A B} (f : A → option B) l y :
  find_map f l = Some y →
  ∃ l1 x l2, l = l1 ++ x :: l2 ∧ f x = Some y ∧ ∀ z, z ∈ l1 → f z = None.
Proof.
  induction l as [|x l IH]; simpl; [done|]. destruct (f x) eqn:E.
  - intros [= ->]. exists [], x, l. set_solver.
  - intros (l1 & x' & l2 & -> & Hx' & Hl1)%IH.
    exists (x :: l1), x', l2. set_solver.
Qed.

Lemma find_map_elem {A B} (f : A → option B) l y :
  find_map f l = Some y → ∃ x, x ∈ l ∧ f x = Some y.
Proof.
  intros (l1 & x & l2 & -> & Hx & _)%find_map_Some. exists x. split; [|done].
  apply elem_of_app. right. left.
Qed.

Lemma find_map_None {A B} (f : A → option B) l :
  find_map f l = None ↔ ∀ x, x ∈ l → f x = None.
Proof.
  induction l as [|x l IH]; simpl; [set_solver|].
  destruct (f x) eqn:E; set_solver.
Qed.
