(* ===== verification/Bytes.v ===== *)
(** * Bytes and strings

    The parts of the Rust standard library the sources lean on: bytes and
    big-endian integers, UTF-8 validity ([std::str::from_utf8]), and the string
    operations of [str] used by routing and configuration.  A Rust [String] is
    modelled by its bytes, as a Stdlib [string] of 8-bit characters: every
    operation the sources apply searches for or changes ASCII characters only,
    which on UTF-8 text is the same as working on the bytes. *)

From Stdlib Require Export Strings.Byte Strings.Ascii.
From Stdlib Require String.
From S2P Require Export Prelude.

Local Open Scope Z_scope.

(** ** Bytes and big-endian integers *)

Abbreviation byte := Init.Byte.byte.

#[export] Instance byte_eq_dec : EqDecision byte := Byte.byte_eq_dec.

(** [b as u8] seen as an integer. *)
Definition u8 (b : byte) : Z := Z.of_N (Byte.to_N b).

(** [z as u8]: truncation. *)
Definition to_u8 (z : Z) : byte :=
  match Byte.of_N (Z.to_N (z mod 256)) with Some b => b | None => x00 end.

(** [u16::to_be_bytes], [u32::to_be_bytes] (the argument is first truncated, as
    by [as u16] / [as u32]). *)
Definition u16_to_be_bytes (z : Z) : list byte :=
  [to_u8 (Z.shiftr z 8); to_u8 z].
Definition u32_to_be_bytes (z : Z) : list byte :=
  [to_u8 (Z.shiftr z 24); to_u8 (Z.shiftr z 16); to_u8 (Z.shiftr z 8); to_u8 z].

#[global] Arguments u16_to_be_bytes : simpl never.
#[global] Arguments u32_to_be_bytes : simpl never.

(** [u16::from_be_bytes], [u32::from_be_bytes] *)
Definition u16_from_be_bytes (b0 b1 : byte) : Z :=
  Z.lor (Z.shiftl (u8 b0) 8) (u8 b1).
Definition u32_from_be_bytes (b0 b1 b2 b3 : byte) : Z :=
  Z.lor (Z.lor (Z.lor (Z.shiftl (u8 b0) 24) (Z.shiftl (u8 b1) 16))
               (Z.shiftl (u8 b2) 8)) (u8 b3).

(** [bytes.len()] as a [usize]. *)
Definition blen {A} (l : list A) : Z := Z.of_nat (length l).

(** ** UTF-8

    [utf8_valid] follows the byte-range table of the Unicode standard that
    [std::str::from_utf8] implements: no overlong encodings, no surrogates,
    nothing above U+10FFFF. *)

Definition in_range (lo hi : Z) (b : byte) : bool := (lo <=? u8 b) && (u8 b <=? hi).
Definition is_cont (b : byte) : bool := in_range 0x80 0xBF b.

Fixpoint utf8_valid (l : list byte) : bool :=
  match l with
  | [] => true
  | b0 :: l0 =>
    if u8 b0 <? 0x80 then utf8_valid l0
    else match l0 with
    | [] => false
    | b1 :: l1 =>
      if in_range 0xC2 0xDF b0 then is_cont b1 && utf8_valid l1
      else match l1 with
      | [] => false
      | b2 :: l2 =>
        if in_range 0xE0 0xEF b0 then
          (if u8 b0 =? 0xE0 then in_range 0xA0 0xBF b1
           else if u8 b0 =? 0xED then in_range 0x80 0x9F b1
           else is_cont b1) && is_cont b2 && utf8_valid l2
        else match l2 with
        | [] => false
        | b3 :: l3 =>
          in_range 0xF0 0xF4 b0 &&
          (if u8 b0 =? 0xF0 then in_range 0x90 0xBF b1
           else if u8 b0 =? 0xF4 then in_range 0x80 0x8F b1
           else is_cont b1) && is_cont b2 && is_cont b3 && utf8_valid l3
        end
      end
    end
  end.

(** [std::str::from_utf8(bytes).ok().map(String::from)] *)
Definition from_utf8 (l : list byte) : option string :=
  if utf8_valid l then Some (String.string_of_list_byte l) else None.

(** [s.as_bytes()] *)
Definition as_bytes (s : string) : list byte := String.list_byte_of_string s.

(** ** ASCII case *)

(** [u8::to_ascii_lowercase] on one character. *)
Definition ascii_lower (c : ascii) : ascii :=
  let n := Ascii.N_of_ascii c in
  if (65 <=? n)%N && (n <=? 90)%N then Ascii.ascii_of_N (n + 32) else c.

(** [str::to_ascii_lowercase] *)
Fixpoint to_ascii_lowercase (s : string) : string :=
  match s with
  | String.EmptyString => String.EmptyString
  | String.String c s => String.String (ascii_lower c) (to_ascii_lowercase s)
  end.

(** [a.eq_ignore_ascii_case(b)] *)
Definition eq_ignore_ascii_case (a b : string) : bool :=
  bool_decide (to_ascii_lowercase a = to_ascii_lowercase b).

(** ** Searching and splitting *)

(** [s.contains(c)] for an ASCII character [c]. *)
Fixpoint contains (c : ascii) (s : string) : bool :=
  match s with
  | String.EmptyString => false
  | String.String d s => bool_decide (d = c) || contains c s
  end.

(** [s.split_once(c)]: at the first [c]. *)
Fixpoint split_once (c : ascii) (s : string) : option (string * string) :=
  match s with
  | String.EmptyString => None
  | String.String d s =>
      if bool_decide (d = c) then Some (String.EmptyString, s)
      else match split_once c s with
           | Some (a, b) => Some (String.String d a, b)
           | None => None
           end
  end.

(** [s.rsplit_once(c)]: at the last [c]. *)
Fixpoint rsplit_once (c : ascii) (s : string) : option (string * string) :=
  match s with
  | String.EmptyString => None
  | String.String d s =>
      match rsplit_once c s with
      | Some (a, b) => Some (String.String d a, b)
      | None => if bool_decide (d = c) then Some (String.EmptyString, s) else None
      end
  end.

(** [s.strip_prefix(p)] *)
Fixpoint strip_prefix (p s : string) : option string :=
  match p, s with
  | String.EmptyString, _ => Some s
  | String.String c p, String.String d s =>
      if bool_decide (c = d) then strip_prefix p s else None
  | String.String _ _, String.EmptyString => None
  end.

(** [s.starts_with(p)] *)
Definition starts_with (p s : string) : bool :=
  match strip_prefix p s with Some _ => true | None => false end.

(** [s.starts_with(c)], [s.ends_with(c)] for an ASCII character. *)
Definition starts_with_char (c : ascii) (s : string) : bool :=
  match s with String.String d _ => bool_decide (d = c) | String.EmptyString => false end.
Fixpoint ends_with_char (c : ascii) (s : string) : bool :=
  match s with
  | String.EmptyString => false
  | String.String d String.EmptyString => bool_decide (d = c)
  | String.String _ s => ends_with_char c s
  end.

(** [s.is_empty()] *)
Definition is_empty (s : string) : bool :=
  match s with String.EmptyString => true | _ => false end.

(** [s.trim_end_matches(c)] *)
Fixpoint trim_end_matches (c : ascii) (s : string) : string :=
  match s with
  | String.EmptyString => String.EmptyString
  | String.String d s =>
      let t := trim_end_matches c s in
      if bool_decide (d = c) && is_empty t then String.EmptyString
      else String.String d t
  end.

(** ** Slices and [usize] arithmetic

    Positions are [usize] values; [a + b] panics on overflow in a build with
    overflow checks, [checked_add] yields [None], [buf.get(i)] is bounds-checked
    and [buf[i]], [&buf[a..b]] panic out of range. *)

Definition uadd (a b : Z) : partial Z :=
  if a + b <? usize_modulus then PSome (a + b) else PPanic.

Definition checked_add (a b : Z) : partial Z :=
  if a + b <? usize_modulus then PSome (a + b) else PNone.

Definition slice_get (buf : list byte) (i : Z) : partial byte :=
  match buf !! Z.to_nat i with Some b => PSome b | None => PNone end.

Definition slice_index (buf : list byte) (i : Z) : partial byte :=
  match buf !! Z.to_nat i with Some b => PSome b | None => PPanic end.

Definition slice_range (buf : list byte) (a b : Z) : partial (list byte) :=
  if (a <=? b) && (b <=? blen buf)
  then PSome (take (Z.to_nat (b - a)) (drop (Z.to_nat a) buf))
  else PPanic.

(** ** Lemmas *)

Create Rewrite HintDb append.
Create Rewrite HintDb blen.

Lemma u8_range b : 0 <= u8 b < 256.
Proof.
  unfold u8. pose proof (Byte.to_N_bounded b). lia.
Qed.

Lemma u8_to_u8 z : u8 (to_u8 z) = z mod 256.
Proof.
  unfold u8, to_u8. pose proof (Z.mod_pos_bound z 256 eq_refl).
  destruct (Byte.of_N (Z.to_N (z mod 256))) as [b|] eqn:E.
  - apply Byte.to_of_N in E. rewrite E. lia.
  - apply Byte.of_N_None_iff in E. lia.
Qed.

Lemma u8_inj a b : u8 a = u8 b → a = b.
Proof.
  unfold u8. intros H%N2Z.inj. apply (f_equal Byte.of_N) in H.
  rewrite !Byte.of_to_N in H. congruence.
Qed.

Lemma to_u8_u8 b : to_u8 (u8 b) = b.
Proof.
  apply u8_inj. rewrite u8_to_u8. pose proof (u8_range b). by apply Z.mod_small.
Qed.

(** [lor] of a shifted value and a smaller one is their sum. *)
Lemma lor_shiftl_add a b n :
  0 <= a → 0 <= n → 0 <= b < 2 ^ n → Z.lor (Z.shiftl a n) b = a * 2 ^ n + b.
Proof.
  intros Ha Hn Hb. assert (Z.land (Z.shiftl a n) b = 0) as Hland.
  { apply Z.bits_inj'. intros i Hi. rewrite Z.land_spec, Z.bits_0.
    destruct (Z.lt_ge_cases i n); [by rewrite Z.shiftl_spec_low|].
    rewrite <- (Z.mod_small b (2 ^ n)) by done.
    rewrite Z.mod_pow2_bits_high by lia. apply andb_false_r. }
  by rewrite <- Z.lxor_lor, <- Z.add_nocarry_lxor, Z.shiftl_mul_pow2.
Qed.

Lemma u16_from_be_bytes_eq b0 b1 :
  u16_from_be_bytes b0 b1 = u8 b0 * 256 + u8 b1.
Proof.
  unfold u16_from_be_bytes. pose proof (u8_range b0). pose proof (u8_range b1).
  rewrite lor_shiftl_add by lia. lia.
Qed.

Lemma u32_from_be_bytes_eq b0 b1 b2 b3 :
  u32_from_be_bytes b0 b1 b2 b3 =
  ((u8 b0 * 256 + u8 b1) * 256 + u8 b2) * 256 + u8 b3.
Proof.
  unfold u32_from_be_bytes.
  pose proof (u8_range b0). pose proof (u8_range b1).
  pose proof (u8_range b2). pose proof (u8_range b3).
  rewrite (lor_shiftl_add (u8 b0)) by (rewrite ?Z.shiftl_mul_pow2; lia).
  rewrite (Z.shiftl_mul_pow2 (u8 b1)) by lia.
  replace (u8 b0 * 2 ^ 24 + u8 b1 * 2 ^ 16)
    with (Z.shiftl (u8 b0 * 256 + u8 b1) 16) by (rewrite Z.shiftl_mul_pow2; lia).
  rewrite (lor_shiftl_add (u8 b0 * 256 + u8 b1)) by (rewrite ?Z.shiftl_mul_pow2; lia).
  rewrite (Z.shiftl_mul_pow2 (u8 b2)) by lia.
  replace ((u8 b0 * 256 + u8 b1) * 2 ^ 16 + u8 b2 * 2 ^ 8)
    with (Z.shiftl ((u8 b0 * 256 + u8 b1) * 256 + u8 b2) 8)
    by (rewrite Z.shiftl_mul_pow2; lia).
  rewrite lor_shiftl_add by lia. lia.
Qed.

Lemma u16_range b0 b1 : 0 <= u16_from_be_bytes b0 b1 < 65536.
Proof.
  rewrite u16_from_be_bytes_eq. pose proof (u8_range b0). pose proof (u8_range b1). lia.
Qed.

Lemma u16_roundtrip z :
  0 <= z < 65536 → u16_from_be_bytes (to_u8 (Z.shiftr z 8)) (to_u8 z) = z.
Proof.
  intros Hz. rewrite u16_from_be_bytes_eq, !u8_to_u8, Z.shiftr_div_pow2 by lia.
  change (2 ^ 8) with 256. pose proof (Z.div_mod z 256).
  rewrite (Z.mod_small (z / 256)); [lia|]. split; [apply Z.div_pos; lia|].
  apply Z.div_lt_upper_bound; lia.
Qed.

Lemma u32_roundtrip z :
  0 <= z < 2 ^ 32 →
  u32_from_be_bytes (to_u8 (Z.shiftr z 24)) (to_u8 (Z.shiftr z 16))
                    (to_u8 (Z.shiftr z 8)) (to_u8 z) = z.
Proof.
  intros Hz. rewrite u32_from_be_bytes_eq, !u8_to_u8, !Z.shiftr_div_pow2 by lia.
  change (2 ^ 8) with 256. change (2 ^ 16) with (256 * 256).
  change (2 ^ 24) with (256 * 256 * 256).
  rewrite <- !Z.div_div by lia.
  assert (z / 256 / 256 / 256 < 256) by (repeat apply Z.div_lt_upper_bound; lia).
  assert (0 <= z / 256 / 256 / 256) by (repeat apply Z.div_pos; lia).
  pose proof (Z.div_mod z 256). pose proof (Z.div_mod (z / 256) 256).
  pose proof (Z.div_mod (z / 256 / 256) 256).
  rewrite (Z.mod_small (z / 256 / 256 / 256)) by lia. lia.
Qed.

Lemma ascii_lower_idem c : ascii_lower (ascii_lower c) = ascii_lower c.
Proof. by destruct c as [[] [] [] [] [] [] [] []]. Qed.

Lemma to_ascii_lowercase_idem s :
  to_ascii_lowercase (to_ascii_lowercase s) = to_ascii_lowercase s.
Proof. induction s; simpl; [done|]. by rewrite ascii_lower_idem, IHs. Qed.

Lemma append_nil_l (s : string) : ("" +:+ s) = s.
Proof. done. Qed.

Lemma append_cons c (a b : string) :
  (String.String c a +:+ b) = String.String c (a +:+ b).
Proof. done. Qed.

#[export] Hint Rewrite append_nil_l append_cons : append.

Lemma split_once_Some c s a b :
  split_once c s = Some (a, b) →
  s = (a +:+ String.String c b) ∧ contains c a = false.
Proof.
  revert a b. induction s as [|d s IH]; intros a b; simpl; [done|].
  case_bool_decide; [by intros [= <- <-]; subst|].
  destruct (split_once c s) as [[a' b']|]; [|done]. intros [= <- <-].
  destruct (IH a' b' eq_refl) as [-> Hc]. simpl.
  by rewrite bool_decide_eq_false_2, Hc.
Qed.

Lemma split_once_None c s : split_once c s = None ↔ contains c s = false.
Proof.
  induction s as [|d s IH]; simpl; [done|].
  case_bool_decide; simpl; [done|]. rewrite <- IH.
  by destruct (split_once c s) as [[]|].
Qed.

Lemma rsplit_once_None c s : rsplit_once c s = None ↔ contains c s = false.
Proof.
  induction s as [|d s IH]; simpl; [done|].
  rewrite orb_false_iff, <- IH, bool_decide_eq_false.
  destruct (rsplit_once c s) as [[]|]; [naive_solver|].
  case_bool_decide; naive_solver.
Qed.

Lemma rsplit_once_Some c s a b :
  rsplit_once c s = Some (a, b) →
  s = (a +:+ String.String c b) ∧ contains c b = false.
Proof.
  revert a b. induction s as [|d s IH]; intros a b; simpl; [done|].
  destruct (rsplit_once c s) as [[a' b']|] eqn:E.
  - intros [= <- <-]. destruct (IH a' b' eq_refl) as [-> ?]. done.
  - case_bool_decide; [|done]. intros [= <- <-]. subst.
    by apply rsplit_once_None in E.
Qed.

Lemma strip_prefix_Some p s t : strip_prefix p s = Some t ↔ s = (p +:+ t).
Proof.
  revert s. induction p as [|c p IH]; intros s; simpl.
  { rewrite append_nil_l. split; congruence. }
  destruct s as [|d s]; [done|]. rewrite append_cons.
  case_bool_decide; [subst|split; congruence]. rewrite IH. split; congruence.
Qed.

Lemma from_utf8_Some l s :
  from_utf8 l = Some s → utf8_valid l = true ∧ as_bytes s = l.
Proof.
  unfold from_utf8, as_bytes. destruct (utf8_valid l); [|done].
  intros [= <-]. by rewrite String.list_byte_of_string_of_list_byte.
Qed.

Lemma from_utf8_as_bytes s :
  utf8_valid (as_bytes s) = true → from_utf8 (as_bytes s) = Some s.
Proof.
  unfold from_utf8, as_bytes. intros ->. by rewrite String.string_of_list_byte_of_string.
Qed.

(** ASCII text is valid UTF-8. *)
Lemma utf8_valid_ascii l : Forall (λ b, u8 b < 0x80) l → utf8_valid l = true.
Proof.
  induction 1 as [|b l Hb _ IH]; [done|]. simpl.
  apply Z.ltb_lt in Hb. by rewrite Hb.
Qed.

Lemma blen_app {A} (l k : list A) : blen (l ++ k) = blen l + blen k.
Proof. unfold blen. rewrite length_app. lia. Qed.

Lemma blen_cons {A} (x : A) l : blen (x :: l) = 1 + blen l.
Proof. unfold blen. simpl. lia. Qed.

Lemma blen_nil {A} : blen (@nil A) = 0.
Proof. done. Qed.

Lemma blen_nonneg {A} (l : list A) : 0 <= blen l.
Proof. unfold blen. lia. Qed.

#[export] Hint Rewrite @blen_app @blen_cons @blen_nil : blen.
#[export] Hint Resolve u8_range u16_range : tuyau.
