(* ===== verification/Sni.v ===== *)
(** * SNI extraction ([crates/tuyau-server/src/sni.rs])

    [parse_sni] reads the [server_name] extension out of the bytes of one TLS
    record, before the server decides whether to terminate TLS.  The parser is
    translated with its positions as [usize] values and every operation that
    could panic kept partial, so that "never panics on arbitrary input" is a
    theorem.  [encode_client_hello] is the reference encoder of RFC 8446 / 6066
    the round-trip theorem is stated against; [craft_client_hello_with_sni] is
    the builder of the source's own tests. *)

From S2P Require Import Prelude Bytes.

Local Open Scope Z_scope.

(** ** The parser *)

Definition MAX_SNI_LEN : Z := 253.

Definition read_u8 (buf : list byte) (p : Z) : partial (Z * Z) :=
  v ← slice_get buf p;
  p' ← uadd p 1;
  PSome (u8 v, p').

Definition read_u16 (buf : list byte) (p : Z) : partial (Z * Z) :=
  e ← uadd p 2;
  if blen buf <? e then PNone else
  b0 ← slice_index buf p;
  p1 ← uadd p 1;
  b1 ← slice_index buf p1;
  p' ← uadd p 2;
  PSome (u16_from_be_bytes b0 b1, p').

Definition read_u24 (buf : list byte) (p : Z) : partial (Z * Z) :=
  e ← uadd p 3;
  if blen buf <? e then PNone else
  b0 ← slice_index buf p;
  p1 ← uadd p 1;
  b1 ← slice_index buf p1;
  p2 ← uadd p 2;
  b2 ← slice_index buf p2;
  p' ← uadd p 3;
  PSome (Z.lor (Z.lor (Z.shiftl (u8 b0) 16) (Z.shiftl (u8 b1) 8)) (u8 b2), p').

(** The loop over the entries of a [server_name] extension, from [q] to
    [ext_end_inner]: [PSome (Some h)] when the function returns [Some(h)],
    [PNone] when it returns [None], [PSome None] when the loop falls through. *)
Fixpoint server_names (fuel : nat) (buf : list byte) (q ext_end_inner : Z)
  : partial (option string) :=
  match fuel with
  | O => PFuel
  | S fuel =>
    if q <? ext_end_inner then
      '(name_type, q) ← read_u8 buf q;
      '(name_len, q) ← read_u16 buf q;
      name_end ← checked_add q name_len;
      if ext_end_inner <? name_end then PNone else
      if name_type =? 0x00 then
        if MAX_SNI_LEN <? name_len then PNone else
        name ← slice_range buf q name_end;
        match from_utf8 name with
        | Some h => PSome (Some h)
        | None => PNone
        end
      else server_names fuel buf name_end ext_end_inner
    else PSome None
  end.

(** The loop over the extensions, from [p] to [ext_end]. *)
Fixpoint extensions (fuel : nat) (buf : list byte) (p ext_end : Z)
  : partial string :=
  match fuel with
  | O => PFuel
  | S fuel =>
    if p <? ext_end then
      '(ext_type, p) ← read_u16 buf p;
      '(ext_data_len, p) ← read_u16 buf p;
      ext_end_inner ← checked_add p ext_data_len;
      if ext_end <? ext_end_inner then PNone else
      found ←
        (if ext_type =? 0x0000 then
           '(_list_len, q) ← read_u16 buf p;
           server_names (S (length buf)) buf q ext_end_inner
         else PSome None);
      match found with
      | Some h => PSome h
      | None => extensions fuel buf ext_end_inner ext_end
      end
    else PNone
  end.

Definition parse_sni (buf : list byte) : partial string :=
  '(record_type, p) ← read_u8 buf 0;
  if negb (record_type =? 0x16) then PNone else
  p ← uadd p 2;
  '(_rec_len, p) ← read_u16 buf p;
  '(msg_type, p) ← read_u8 buf p;
  if negb (msg_type =? 0x01) then PNone else
  '(_hs_len, p) ← read_u24 buf p;
  p ← checked_add p 2;
  p ← checked_add p 32;
  if blen buf <? p then PNone else
  '(session_id_len, p) ← read_u8 buf p;
  p ← checked_add p session_id_len;
  '(cs_len, p) ← read_u16 buf p;
  p ← checked_add p cs_len;
  '(cm_len, p) ← read_u8 buf p;
  p ← checked_add p cm_len;
  '(ext_total, p) ← read_u16 buf p;
  ext_end ← checked_add p ext_total;
  if blen buf <? ext_end then PNone else
  extensions (S (length buf)) buf p ext_end.

(** ** Reference encoder *)

(** One entry of a [server_name] list, and one extension. *)
Definition encode_name (e : Z * list byte) : list byte :=
  to_u8 e.1 :: u16_to_be_bytes (blen e.2) ++ e.2.
Definition encode_ext (e : Z * list byte) : list byte :=
  u16_to_be_bytes e.1 ++ u16_to_be_bytes (blen e.2) ++ e.2.
Definition encode_list {A} (f : A → list byte) (l : list A) : list byte :=
  mjoin (f <$> l).
Definition encode_names (names : list (Z * list byte)) : list byte :=
  let entries := encode_list encode_name names in
  u16_to_be_bytes (blen entries) ++ entries.

Record ClientHello := {
  ch_record_version : list byte;
  ch_client_version : list byte;
  ch_random : list byte;
  ch_session_id : list byte;
  ch_cipher_suites : list byte;
  ch_compression_methods : list byte;
  ch_extensions : list (Z * list byte)
}.

Definition client_hello_body (ch : ClientHello) : list byte :=
  let exts := encode_list encode_ext (ch_extensions ch) in
  ch_client_version ch ++ ch_random ch ++
  (to_u8 (blen (ch_session_id ch)) :: ch_session_id ch) ++
  u16_to_be_bytes (blen (ch_cipher_suites ch)) ++ ch_cipher_suites ch ++
  (to_u8 (blen (ch_compression_methods ch)) :: ch_compression_methods ch) ++
  u16_to_be_bytes (blen exts) ++ exts.

Definition encode_client_hello (ch : ClientHello) : list byte :=
  let body := client_hello_body ch in
  let n := blen body in
  let hs := [x01; to_u8 (Z.shiftr n 16); to_u8 (Z.shiftr n 8); to_u8 n] ++ body in
  x16 :: ch_record_version ch ++ u16_to_be_bytes (blen hs) ++ hs.

(** What the parser answers for a [host_name] entry holding [name]. *)
Definition host_name_answer (name : list byte) : option string :=
  if MAX_SNI_LEN <? blen name then None else from_utf8 name.

(** The field widths of the wire format. *)
Definition name_ok (e : Z * list byte) : Prop := 0 <= e.1 < 256 ∧ blen e.2 < 65536.
Definition ext_ok (e : Z * list byte) : Prop := 0 <= e.1 < 65536 ∧ blen e.2 < 65536.
Record client_hello_ok (ch : ClientHello) : Prop := {
  ok_record_version : blen (ch_record_version ch) = 2;
  ok_client_version : blen (ch_client_version ch) = 2;
  ok_random : blen (ch_random ch) = 32;
  ok_session_id : blen (ch_session_id ch) < 256;
  ok_cipher_suites : blen (ch_cipher_suites ch) < 65536;
  ok_compression : blen (ch_compression_methods ch) < 256;
  ok_extensions : Forall ext_ok (ch_extensions ch);
  ok_extensions_len : blen (encode_list encode_ext (ch_extensions ch)) < 65536
}.

(** The ClientHello the source's tests build: TLS 1.2 versions, a zero random,
    one cipher, null compression and the SNI extension. *)
Definition craft_client_hello_with_sni (host : string) : list byte :=
  let server_name := x00 :: u16_to_be_bytes (blen (as_bytes host)) ++ as_bytes host in
  let sni_list := u16_to_be_bytes (blen server_name) ++ server_name in
  let sni_ext := u16_to_be_bytes 0x0000 ++ u16_to_be_bytes (blen sni_list) ++ sni_list in
  let exts := u16_to_be_bytes (blen sni_ext) ++ sni_ext in
  let body :=
    u16_to_be_bytes 0x0303 ++ replicate 32 x00 ++ [x00] ++
    u16_to_be_bytes 0x0002 ++ [x00; x35] ++ [x01] ++ [x00] ++ exts in
  let body_len := blen body in
  let hs :=
    [x01] ++
    [to_u8 (Z.land (Z.shiftr body_len 16) 0xff);
     to_u8 (Z.land (Z.shiftr body_len 8) 0xff);
     to_u8 (Z.land body_len 0xff)] ++ body in
  [x16] ++ u16_to_be_bytes 0x0301 ++ u16_to_be_bytes (blen hs) ++ hs.

(** ** Totality: the parser returns on every input *)

Section total.
Variable buf : list byte.
Hypothesis buf_len : blen buf <= isize_max.

(** Positions stay far from [usize::MAX]: at most one length field past the end. *)
Definition pos_ok (p : Z) : Prop := 0 <= p <= blen buf + 2 * 65536.

Lemma pos_add_small p n : pos_ok p → 0 <= n <= 65536 → p + n < usize_modulus.
Proof. unfold pos_ok, usize_modulus, isize_max in *. lia. Qed.

Lemma uadd_small p n : pos_ok p → 0 <= n <= 65536 → uadd p n = PSome (p + n).
Proof.
  intros Hp Hn. pose proof (pos_add_small p n Hp Hn).
  unfold uadd. by rewrite (proj2 (Z.ltb_lt _ _)).
Qed.

Lemma checked_add_small p n :
  pos_ok p → 0 <= n <= 65536 → checked_add p n = PSome (p + n).
Proof.
  intros Hp Hn. pose proof (pos_add_small p n Hp Hn).
  unfold checked_add. by rewrite (proj2 (Z.ltb_lt _ _)).
Qed.

Lemma slice_index_ok p : 0 <= p < blen buf → ∃ b, slice_index buf p = PSome b.
Proof.
  unfold slice_index, blen. intros Hp.
  destruct (lookup_lt_is_Some_2 buf (Z.to_nat p)) as [b Hb]; [lia|].
  rewrite Hb. eauto.
Qed.

Lemma read_u8_ensures p :
  pos_ok p →
  ensures (read_u8 buf p) (λ '(v, p'), 0 <= v < 256 ∧ p' = p + 1 ∧ p' <= blen buf).
Proof.
  intros Hp. unfold read_u8, slice_get.
  destruct (buf !! Z.to_nat p) as [b|] eqn:Hb; [|done].
  apply lookup_lt_Some in Hb. monad_simp. rewrite uadd_small by (done || lia). simpl.
  pose proof (u8_range b). unfold blen, pos_ok in *. lia.
Qed.

Lemma read_u16_ensures p :
  pos_ok p →
  ensures (read_u16 buf p) (λ '(v, p'), 0 <= v < 65536 ∧ p' = p + 2 ∧ p' <= blen buf).
Proof.
  intros Hp. unfold read_u16. rewrite !uadd_small by (done || lia). monad_simp.
  destruct (Z.ltb_spec (blen buf) (p + 2)); [done|]. unfold pos_ok in Hp.
  destruct (slice_index_ok p) as [b0 ->]; [lia|].
  destruct (slice_index_ok (p + 1)) as [b1 ->]; [lia|]. simpl.
  pose proof (u16_range b0 b1). lia.
Qed.

Lemma read_u24_ensures p :
  pos_ok p → ensures (read_u24 buf p) (λ '(v, p'), p' = p + 3 ∧ p' <= blen buf).
Proof.
  intros Hp. unfold read_u24. rewrite !uadd_small by (done || lia). monad_simp.
  destruct (Z.ltb_spec (blen buf) (p + 3)); [done|]. unfold pos_ok in Hp.
  destruct (slice_index_ok p) as [b0 ->]; [lia|].
  destruct (slice_index_ok (p + 1)) as [b1 ->]; [lia|].
  destruct (slice_index_ok (p + 2)) as [b2 ->]; [lia|]. simpl. lia.
Qed.

Lemma slice_range_ensures a b :
  0 <= a <= b → b <= blen buf →
  ensures (slice_range buf a b) (λ s, s = take (Z.to_nat (b - a)) (drop (Z.to_nat a) buf)).
Proof.
  intros Ha Hb. unfold slice_range.
  destruct (Z.leb_spec a b), (Z.leb_spec b (blen buf)); simpl; lia || done.
Qed.
End total.

(** A name the parser may return: a slice of the buffer that is valid UTF-8 and
    no longer than a DNS name. *)
Definition sni_ok (buf : list byte) (h : string) : Prop :=
  utf8_valid (as_bytes h) = true ∧ blen (as_bytes h) <= MAX_SNI_LEN ∧
  ∃ i, take (length (as_bytes h)) (drop i buf) = as_bytes h.

(** Run one read of the parser under [ensures]. *)
Ltac read_step lem :=
  eapply ensures_bind; [apply lem; [done|unfold pos_ok in *; lia]|];
  intros [? ?]; simpl; intros ?; destruct_and?.
Ltac add_step :=
  erewrite checked_add_small; [|eassumption|unfold pos_ok in *; lia|lia]; monad_simp.

Lemma server_names_ensures fuel buf q e :
  blen buf <= isize_max → 0 <= q <= blen buf → e <= blen buf →
  (Z.to_nat (e - q) < fuel)%nat →
  ensures (server_names fuel buf q e)
    (λ o, match o with Some h => sni_ok buf h | None => True end).
Proof.
  intros Hlen. revert q. induction fuel as [|fuel IH]; intros q Hq He Hf; [lia|].
  simpl. destruct (Z.ltb_spec q e); [|done].
  read_step read_u8_ensures. read_step read_u16_ensures. add_step.
  case_match eqn:Hend; [done|]. apply Z.ltb_ge in Hend.
  case_match; [|apply IH; lia]. case_match eqn:Hmax; [done|]. apply Z.ltb_ge in Hmax.
  eapply ensures_bind; [apply slice_range_ensures; lia|]. intros name ->.
  destruct (from_utf8 _) as [h|] eqn:Hutf; [|done].
  apply from_utf8_Some in Hutf as [Hvalid Hbytes]. simpl. unfold sni_ok.
  rewrite Hbytes. split_and!; [done| |].
  - unfold blen, MAX_SNI_LEN in *. rewrite length_take, length_drop. lia.
  - eexists. f_equal. unfold blen in *. rewrite length_take, length_drop. lia.
Qed.

#[local] Arguments server_names : simpl never.

Lemma extensions_ensures fuel buf p e :
  blen buf <= isize_max → 0 <= p <= blen buf → e <= blen buf →
  (Z.to_nat (e - p) < fuel)%nat →
  ensures (extensions fuel buf p e) (sni_ok buf).
Proof.
  intros Hlen. revert p. induction fuel as [|fuel IH]; intros p Hp He Hf; [lia|].
  simpl. destruct (Z.ltb_spec p e); [|done].
  read_step read_u16_ensures. read_step read_u16_ensures. add_step.
  case_match eqn:Hend; [done|]. apply Z.ltb_ge in Hend.
  eapply (ensures_bind _ _ (λ o, match o with Some h => sni_ok buf h | None => True end)).
  - case_match; [|done]. read_step read_u16_ensures.
    apply server_names_ensures; unfold blen in *; lia.
  - intros [h|] Hh; [done|]. apply IH; lia.
Qed.

#[local] Arguments extensions : simpl never.

Lemma parse_sni_ensures buf :
  blen buf <= isize_max → ensures (parse_sni buf) (sni_ok buf).
Proof.
  intros Hlen. pose proof (blen_nonneg buf). unfold parse_sni.
  read_step read_u8_ensures. case_match; [done|].
  erewrite uadd_small; [|eassumption|unfold pos_ok; lia|lia]. monad_simp.
  read_step read_u16_ensures. read_step read_u8_ensures. case_match; [done|].
  read_step read_u24_ensures. add_step. add_step.
  case_match eqn:Hp; [done|]. apply Z.ltb_ge in Hp.
  read_step read_u8_ensures. add_step. read_step read_u16_ensures. add_step.
  read_step read_u8_ensures. add_step. read_step read_u16_ensures. add_step.
  case_match eqn:He; [done|]. apply Z.ltb_ge in He.
  apply extensions_ensures; unfold blen in *; lia.
Qed.

(** ** Reading back encoded fields *)

(** [suf] is what is left of [buf] at position [p]. *)
Definition at_pos (buf : list byte) (p : Z) (suf : list byte) : Prop :=
  ∃ pre, buf = pre ++ suf ∧ p = blen pre.

Section at_pos.
Variable buf : list byte.

Lemma at_pos_app p l suf : at_pos buf p (l ++ suf) → at_pos buf (p + blen l) suf.
Proof.
  intros (pre & -> & ->). exists (pre ++ l). by rewrite <- app_assoc, blen_app.
Qed.

Lemma at_pos_bounds p suf : at_pos buf p suf → 0 <= p ∧ p + blen suf = blen buf.
Proof. intros (pre & -> & ->). rewrite blen_app. pose proof (blen_nonneg pre). lia. Qed.

Lemma at_pos_lookup p b suf : at_pos buf p (b :: suf) → buf !! Z.to_nat p = Some b.
Proof.
  intros (pre & -> & ->). unfold blen. rewrite Nat2Z.id. by apply list_lookup_middle.
Qed.

Lemma at_pos_pos_ok p suf : at_pos buf p suf → pos_ok buf p.
Proof.
  intros H%at_pos_bounds. unfold pos_ok. pose proof (blen_nonneg suf). lia.
Qed.

Lemma at_pos_cons p b suf : at_pos buf p (b :: suf) → at_pos buf (p + 1) suf.
Proof. intros H. by apply (at_pos_app p [b]). Qed.

Lemma at_pos_cons3 p a b c suf : at_pos buf p (a :: b :: c :: suf) → at_pos buf (p + 3) suf.
Proof. intros H. by apply (at_pos_app p [a; b; c]). Qed.

Lemma slice_index_at p b suf : at_pos buf p (b :: suf) → slice_index buf p = PSome b.
Proof. intros H. unfold slice_index. by rewrite (at_pos_lookup _ _ _ H). Qed.

Lemma slice_range_at p l suf :
  at_pos buf p (l ++ suf) → slice_range buf p (p + blen l) = PSome l.
Proof.
  intros H. pose proof (at_pos_bounds _ _ H) as [Hp Hlen]. rewrite blen_app in Hlen.
  pose proof (blen_nonneg l). pose proof (blen_nonneg suf). unfold slice_range.
  rewrite (proj2 (Z.leb_le _ _)), (proj2 (Z.leb_le _ _)) by lia. simpl.
  destruct H as (pre & -> & ->). f_equal. replace (blen pre + blen l - blen pre) with (blen l) by lia.
  unfold blen. rewrite !Nat2Z.id, drop_app_length. apply take_app_length.
Qed.
Hypothesis buf_len : blen buf <= isize_max.

Lemma read_u8_at p b suf :
  at_pos buf p (b :: suf) → read_u8 buf p = PSome (u8 b, p + 1).
Proof.
  intros H. unfold read_u8, slice_get. rewrite (at_pos_lookup _ _ _ H). monad_simp.
  rewrite (uadd_small buf); [done|done|by eapply at_pos_pos_ok|lia].
Qed.

Lemma read_u16_at p z suf :
  at_pos buf p (u16_to_be_bytes z ++ suf) → 0 <= z < 65536 →
  read_u16 buf p = PSome (z, p + 2).
Proof.
  intros H Hz. pose proof (at_pos_bounds _ _ H) as [Hp Hlen].
  unfold u16_to_be_bytes in *. simpl in *. autorewrite with blen in Hlen.
  pose proof (blen_nonneg suf). pose proof (at_pos_pos_ok _ _ H).
  unfold read_u16. rewrite !(uadd_small buf) by (done || lia). monad_simp.
  rewrite (proj2 (Z.ltb_ge _ _)) by lia.
  rewrite (slice_index_at _ _ _ H), (slice_index_at _ _ _ (at_pos_cons _ _ _ H)).
  by rewrite u16_roundtrip.
Qed.

Lemma read_u16_any_at p z suf :
  at_pos buf p (u16_to_be_bytes z ++ suf) → ∃ v, read_u16 buf p = PSome (v, p + 2).
Proof.
  intros H. pose proof (at_pos_bounds _ _ H) as [Hp Hlen].
  unfold u16_to_be_bytes in *. simpl in *. autorewrite with blen in Hlen.
  pose proof (blen_nonneg suf). pose proof (at_pos_pos_ok _ _ H).
  unfold read_u16. rewrite !(uadd_small buf) by (done || lia). monad_simp.
  rewrite (proj2 (Z.ltb_ge _ _)) by lia.
  rewrite (slice_index_at _ _ _ H), (slice_index_at _ _ _ (at_pos_cons _ _ _ H)). eauto.
Qed.

Lemma read_u24_at p b0 b1 b2 suf :
  at_pos buf p (b0 :: b1 :: b2 :: suf) → ∃ v, read_u24 buf p = PSome (v, p + 3).
Proof.
  intros H. pose proof (at_pos_bounds _ _ H) as [Hp Hlen].
  autorewrite with blen in Hlen. pose proof (blen_nonneg suf).
  pose proof (at_pos_pos_ok _ _ H). unfold read_u24.
  rewrite !(uadd_small buf) by (done || lia). monad_simp.
  rewrite (proj2 (Z.ltb_ge _ _)) by lia.
  destruct (slice_index_ok buf p) as [? ->]; [lia|].
  destruct (slice_index_ok buf (p + 1)) as [? ->]; [lia|].
  destruct (slice_index_ok buf (p + 2)) as [? ->]; [lia|]. eauto.
Qed.

End at_pos.

Lemma blen_u16 z : blen (u16_to_be_bytes z) = 2.
Proof. done. Qed.
#[export] Hint Rewrite blen_u16 : blen.

Lemma blen_encode_name e : blen (encode_name e) = 3 + blen e.2.
Proof. unfold encode_name. autorewrite with blen. lia. Qed.

Lemma blen_encode_ext e : blen (encode_ext e) = 4 + blen e.2.
Proof. unfold encode_ext. autorewrite with blen. lia. Qed.
#[export] Hint Rewrite blen_encode_name blen_encode_ext : blen.

Lemma encode_list_nil {A} (f : A → list byte) : encode_list f [] = [].
Proof. done. Qed.

Lemma encode_list_cons {A} (f : A → list byte) x l :
  encode_list f (x :: l) = f x ++ encode_list f l.
Proof. done. Qed.

Lemma encode_list_app {A} (f : A → list byte) l k :
  encode_list f (l ++ k) = encode_list f l ++ encode_list f k.
Proof. unfold encode_list. by rewrite fmap_app, join_app. Qed.

Lemma length_encode_list {A} (f : A → list byte) l :
  (∀ x, 0 < length (f x))%nat → (length l <= length (encode_list f l))%nat.
Proof.
  intros Hf. induction l as [|x l IH]; [done|].
  rewrite encode_list_cons, length_app. specialize (Hf x). simpl. lia.
Qed.

Lemma encode_name_nonempty n : (0 < length (encode_name n))%nat.
Proof. simpl. lia. Qed.

Lemma encode_ext_nonempty x : (0 < length (encode_ext x))%nat.
Proof. simpl. lia. Qed.

Lemma encode_name_eq ty name suf :
  encode_name (ty, name) ++ suf =
  to_u8 ty :: (u16_to_be_bytes (blen name) ++ name) ++ suf.
Proof. done. Qed.

Lemma encode_ext_eq ty data suf :
  encode_ext (ty, data) ++ suf =
  u16_to_be_bytes ty ++ u16_to_be_bytes (blen data) ++ data ++ suf.
Proof. unfold encode_ext. by rewrite <- !app_assoc. Qed.

#[local] Opaque u16_to_be_bytes encode_name encode_ext encode_list to_u8 u8.

Lemma u8_to_u8_small z : 0 <= z < 256 → u8 (to_u8 z) = z.
Proof. intros. by rewrite u8_to_u8, Z.mod_small. Qed.

#[local] Arguments server_names !fuel buf q ext_end_inner /.

(** One entry of the loop. *)
Lemma server_names_entry_at fuel buf q ty name suf e :
  blen buf <= isize_max → at_pos buf q (encode_name (ty, name) ++ suf) →
  0 <= ty < 256 → blen name < 65536 → q + 3 + blen name <= e →
  server_names (S fuel) buf q e =
  if ty =? 0 then
    match host_name_answer name with Some h => PSome (Some h) | None => PNone end
  else server_names fuel buf (q + 3 + blen name) e.
Proof.
  intros Hlen Hat Hty Hname He. pose proof (blen_nonneg name).
  rewrite encode_name_eq in Hat. cbn [server_names].
  rewrite (proj2 (Z.ltb_lt _ _)) by lia.
  rewrite (read_u8_at _ Hlen _ _ _ Hat). monad_simp. apply at_pos_cons in Hat.
  rewrite <- app_assoc in Hat. rewrite (read_u16_at _ Hlen _ _ _ Hat) by lia.
  apply at_pos_app in Hat. rewrite blen_u16 in Hat.
  rewrite (checked_add_small buf); [|done|by eapply at_pos_pos_ok|lia].
  rewrite (slice_range_at _ _ _ _ Hat), u8_to_u8_small by lia.
  replace (q + 1 + 2) with (q + 3) by lia.
  rewrite (proj2 (Z.ltb_ge _ _)) by lia. unfold host_name_answer.
  by destruct (ty =? 0), (MAX_SNI_LEN <? blen name).
Qed.

(** The entry loop skips entries of other types and returns the host name. *)
Lemma server_names_at fuel buf q pre name suf e :
  blen buf <= isize_max →
  at_pos buf q (encode_list encode_name pre ++ encode_name (0, name) ++ suf) →
  Forall name_ok pre → Forall (λ n, n.1 ≠ 0) pre → blen name < 65536 →
  q + blen (encode_list encode_name pre ++ encode_name (0, name)) <= e →
  (length pre < fuel)%nat →
  server_names fuel buf q e =
  match host_name_answer name with Some h => PSome (Some h) | None => PNone end.
Proof.
  intros Hlen. revert q fuel.
  induction pre as [|[ty n] pre IH]; intros q fuel Hat Hok Hty Hname He Hfuel;
    (destruct fuel as [|fuel]; simpl in Hfuel; [lia|]);
    rewrite ?encode_list_cons, <- ?app_assoc in Hat, He; autorewrite with blen in He;
    pose proof (blen_nonneg name).
  - by rewrite (server_names_entry_at _ _ _ _ _ _ _ Hlen Hat) by (simpl in He; lia).
  - apply Forall_cons in Hok as [[Hty1 Hn] Hok]. apply Forall_cons in Hty as [Hty2 Hty].
    simpl in Hty1, Hn, Hty2, He. pose proof (blen_nonneg (encode_list encode_name pre)).
    rewrite (server_names_entry_at _ _ _ _ _ _ _ Hlen Hat) by lia.
    rewrite (proj2 (Z.eqb_neq _ _)) by done. apply at_pos_app in Hat.
    autorewrite with blen in Hat. simpl in Hat. rewrite Z.add_assoc in Hat.
    apply IH; try done; autorewrite with blen; simpl; lia.
Qed.

#[local] Arguments server_names : simpl never.
#[local] Arguments extensions !fuel buf p ext_end /.

(** The extension loop skips extensions of other types and returns the host name
    of the first [server_name] extension. *)
Lemma extensions_skip_at fuel buf p ty data suf e :
  blen buf <= isize_max → at_pos buf p (encode_ext (ty, data) ++ suf) →
  ext_ok (ty, data) → ty ≠ 0 → p + 4 + blen data <= e →
  extensions (S fuel) buf p e = extensions fuel buf (p + 4 + blen data) e.
Proof.
  intros Hlen Hat [Hty Hdata] Hne He. simpl in *. pose proof (blen_nonneg data).
  rewrite encode_ext_eq in Hat. cbn [extensions].
  rewrite (proj2 (Z.ltb_lt _ _)) by lia.
  rewrite (read_u16_at _ Hlen _ _ _ Hat) by lia. monad_simp.
  apply at_pos_app in Hat. rewrite blen_u16 in Hat.
  rewrite (read_u16_at _ Hlen _ _ _ Hat) by lia.
  apply at_pos_app in Hat. rewrite blen_u16 in Hat.
  rewrite (checked_add_small buf); [|done|by eapply at_pos_pos_ok|lia].
  rewrite (proj2 (Z.ltb_ge _ _)), (proj2 (Z.eqb_neq _ _)) by (done || lia).
  f_equal. lia.
Qed.

Lemma extensions_sni_at fuel buf p npre npost name suf e :
  let data := encode_names (npre ++ (0, name) :: npost) in
  blen buf <= isize_max → at_pos buf p (encode_ext (0, data) ++ suf) →
  blen data < 65536 → Forall name_ok npre → Forall (λ n, n.1 ≠ 0) npre →
  p + 4 + blen data <= e →
  extensions (S fuel) buf p e =
  match host_name_answer name with Some h => PSome h | None => PNone end.
Proof.
  intros data Hlen Hat Hdata Hok Hty He. pose proof (blen_nonneg data).
  rewrite encode_ext_eq in Hat. cbn [extensions].
  rewrite (proj2 (Z.ltb_lt _ _)) by lia.
  rewrite (read_u16_at _ Hlen _ _ _ Hat) by lia. monad_simp.
  apply at_pos_app in Hat. rewrite blen_u16 in Hat.
  rewrite (read_u16_at _ Hlen _ _ _ Hat) by lia.
  apply at_pos_app in Hat. rewrite blen_u16 in Hat.
  rewrite (checked_add_small buf); [|done|by eapply at_pos_pos_ok|lia].
  rewrite (proj2 (Z.ltb_ge _ _)) by lia.
  assert (data = u16_to_be_bytes (blen data - 2) ++
    encode_list encode_name npre ++ encode_name (0, name) ++
    encode_list encode_name npost) as Hdata_eq.
  { subst data. unfold encode_names.
    rewrite encode_list_app, encode_list_cons. f_equal. autorewrite with blen. f_equal. lia. }
  pose proof (f_equal blen Hdata_eq) as Hdata_len. autorewrite with blen in Hdata_len.
  simpl in Hdata_len. pose proof (blen_nonneg (encode_list encode_name npre)).
  pose proof (blen_nonneg (encode_list encode_name npost)).
  pose proof (blen_nonneg (name)).
  rewrite Hdata_eq, <- app_assoc in Hat.
  rewrite (read_u16_at _ Hlen _ _ _ Hat) by lia.
  pose proof (at_pos_bounds _ _ _ Hat) as [Hp0 Hpos].
  apply at_pos_app in Hat. rewrite blen_u16, <- !app_assoc in Hat.
  pose proof (length_encode_list encode_name npre encode_name_nonempty) as Hnpre.
  rewrite (server_names_at _ _ _ _ _ _ _ Hlen Hat); try done.
  - by destruct (host_name_answer name).
  - lia.
  - autorewrite with blen. simpl. lia.
  - autorewrite with blen in Hpos. unfold blen in *. lia.
Qed.

Lemma extensions_at fuel buf p pre npre npost name suf e :
  let data := encode_names (npre ++ (0, name) :: npost) in
  blen buf <= isize_max →
  at_pos buf p (encode_list encode_ext pre ++ encode_ext (0, data) ++ suf) →
  Forall ext_ok pre → Forall (λ x, x.1 ≠ 0) pre →
  blen data < 65536 → Forall name_ok npre → Forall (λ n, n.1 ≠ 0) npre →
  p + blen (encode_list encode_ext pre) + 4 + blen data <= e →
  (length pre < fuel)%nat →
  extensions fuel buf p e =
  match host_name_answer name with Some h => PSome h | None => PNone end.
Proof.
  intros data Hlen. revert p fuel. pose proof (blen_nonneg data).
  induction pre as [|[ty d] pre IH];
    intros p fuel Hat Hok Hty Hdata Hnok Hnty He Hfuel;
    (destruct fuel as [|fuel]; simpl in Hfuel; [lia|]).
  - rewrite encode_list_nil in Hat, He. rewrite blen_nil in He. simpl in Hat.
    eapply extensions_sni_at; try done. fold data. lia.
  - rewrite encode_list_cons, <- app_assoc in Hat. rewrite encode_list_cons in He.
    autorewrite with blen in He. simpl in He.
    apply Forall_cons in Hok as [Hok1 Hok]. apply Forall_cons in Hty as [Hty1 Hty].
    pose proof (blen_nonneg (encode_list encode_ext pre)).
    erewrite extensions_skip_at; [|done|exact Hat|done|done|lia].
    apply at_pos_app in Hat. autorewrite with blen in Hat. simpl in Hat.
    rewrite Z.add_assoc in Hat. apply IH; try done; lia.
Qed.

(** ** Round trip *)

(** Skip a field of length [n] with [uadd] or [checked_add]. *)
Ltac add_at lem n :=
  match goal with
  | Hat : at_pos ?buf ?p _, Hlen : blen ?buf <= isize_max |- _ =>
      rewrite (bind_PSome _ _ _
        (lem buf Hlen p n (at_pos_pos_ok _ _ _ Hat) ltac:(lia)));
      apply at_pos_app in Hat
  end.

(** Read the one-byte length of a field. *)
Ltac len8_at :=
  match goal with
  | Hat : at_pos ?buf _ _, Hlen : blen ?buf <= isize_max |- _ =>
      rewrite (bind_PSome _ _ _ (read_u8_at _ Hlen _ _ _ Hat)), u8_to_u8_small by lia;
      apply at_pos_cons in Hat
  end.

(** Read the two-byte length of a field. *)
Ltac len16_at :=
  match goal with
  | Hat : at_pos ?buf _ _, Hlen : blen ?buf <= isize_max |- _ =>
      rewrite (bind_PSome _ _ _ (read_u16_at _ Hlen _ _ _ Hat ltac:(lia)));
      apply at_pos_app in Hat; rewrite blen_u16 in Hat
  end.

(** The fields before the extensions: the loop is entered at their encoding. *)
Lemma parse_sni_header ch :
  client_hello_ok ch → blen (encode_client_hello ch) <= isize_max →
  let exts := encode_list encode_ext (ch_extensions ch) in
  ∃ p, at_pos (encode_client_hello ch) p exts ∧
    parse_sni (encode_client_hello ch) =
    extensions (S (length (encode_client_hello ch))) (encode_client_hello ch) p (p + blen exts).
Proof.
  intros [Hrv Hcv Hrand Hsid Hcs Hcm _ Hextlen] Hlen exts. fold exts in Hextlen.
  set (buf := encode_client_hello ch) in *.
  assert (at_pos buf 0 buf) as Hat by (exists []; done).
  unfold buf at 2, encode_client_hello, client_hello_body in Hat. fold exts in Hat.
  pose proof (blen_nonneg (ch_session_id ch)). pose proof (blen_nonneg (ch_cipher_suites ch)).
  pose proof (blen_nonneg (ch_compression_methods ch)). pose proof (blen_nonneg exts).
  unfold parse_sni.
  rewrite (bind_PSome _ _ _ (read_u8_at _ Hlen _ _ _ Hat)). apply at_pos_cons in Hat.
  change (negb (u8 x16 =? 22)) with false. cbv beta iota.
  add_at uadd_small 2. rewrite Hrv in Hat.
  destruct (read_u16_any_at _ Hlen _ _ _ Hat) as [rec_len Hrec].
  rewrite (bind_PSome _ _ _ Hrec). apply at_pos_app in Hat. rewrite blen_u16 in Hat.
  rewrite (bind_PSome _ _ _ (read_u8_at _ Hlen _ _ _ Hat)). apply at_pos_cons in Hat.
  change (negb (u8 x01 =? 1)) with false. cbv beta iota.
  destruct (read_u24_at _ Hlen _ _ _ _ _ Hat) as [hs_len Hhs].
  rewrite (bind_PSome _ _ _ Hhs). apply at_pos_cons3 in Hat.
  add_at checked_add_small 2. rewrite Hcv in Hat.
  add_at checked_add_small 32. rewrite Hrand in Hat.
  pose proof (at_pos_bounds _ _ _ Hat) as [_ Hp].
  rewrite (proj2 (Z.ltb_ge _ _)) by (pose proof (blen_nonneg
    ((to_u8 (blen (ch_session_id ch)) :: ch_session_id ch) ++
     u16_to_be_bytes (blen (ch_cipher_suites ch)) ++ ch_cipher_suites ch ++
     (to_u8 (blen (ch_compression_methods ch)) :: ch_compression_methods ch) ++
     u16_to_be_bytes (blen exts) ++ exts)); lia). clear Hp.
  len8_at. add_at checked_add_small (blen (ch_session_id ch)).
  len16_at. add_at checked_add_small (blen (ch_cipher_suites ch)).
  len8_at. add_at checked_add_small (blen (ch_compression_methods ch)).
  len16_at. pose proof (at_pos_bounds _ _ _ Hat) as [_ Hp].
  rewrite (bind_PSome _ _ _
    (checked_add_small buf Hlen _ (blen exts) (at_pos_pos_ok _ _ _ Hat) ltac:(lia))).
  rewrite (proj2 (Z.ltb_ge _ _)) by lia. eauto.
Qed.

(** No [server_name] extension: the loop runs to the end. *)
Lemma extensions_absent_at fuel buf p exts e :
  blen buf <= isize_max → at_pos buf p exts →
  ∀ l, exts = encode_list encode_ext l → Forall ext_ok l → Forall (λ x, x.1 ≠ 0) l →
  e = p + blen exts → (length l < fuel)%nat → extensions fuel buf p e = PNone.
Proof.
  intros Hlen Hat l. revert p exts fuel Hat. induction l as [|[ty d] l IH];
    intros p exts fuel Hat -> Hok Hty -> Hfuel;
    (destruct fuel as [|fuel]; simpl in Hfuel; [lia|]).
  - cbn [extensions]. rewrite encode_list_nil, blen_nil, Z.add_0_r. by rewrite Z.ltb_irrefl.
  - apply Forall_cons in Hok as [Hok1 Hok]. apply Forall_cons in Hty as [Hty1 Hty].
    rewrite encode_list_cons in *. pose proof (blen_nonneg (encode_list encode_ext l)).
    erewrite extensions_skip_at; [|done|exact Hat|done|done|autorewrite with blen; simpl; lia].
    apply at_pos_app in Hat. autorewrite with blen in *. simpl in Hat.
    rewrite Z.add_assoc in Hat. eapply IH; try done; [|lia]. simpl. lia.
Qed.

(** The test builder is the reference encoder at one ClientHello. *)
Definition crafted (host : string) : ClientHello := {|
  ch_record_version := u16_to_be_bytes 0x0301;
  ch_client_version := u16_to_be_bytes 0x0303;
  ch_random := replicate 32 x00;
  ch_session_id := [];
  ch_cipher_suites := [x00; x35];
  ch_compression_methods := [x00];
  ch_extensions := [(0, encode_names [(0, as_bytes host)])]
|}.

Lemma to_u8_land z : to_u8 (Z.land z 0xff) = to_u8 z.
Proof.
  apply u8_inj. rewrite !u8_to_u8. change 0xff with (Z.ones 8).
  rewrite Z.land_ones by lia. by rewrite Z.mod_mod.
Qed.

#[local] Transparent u16_to_be_bytes encode_name encode_ext encode_list.

Lemma craft_is_encode host :
  craft_client_hello_with_sni host = encode_client_hello (crafted host).
Proof.
  unfold craft_client_hello_with_sni, encode_client_hello, client_hello_body, crafted,
    encode_names, encode_list, encode_ext, encode_name. simpl.
  rewrite !to_u8_land, !app_nil_r. done.
Qed.

Lemma length_encode_hello_exts ch pre post p :
  at_pos (encode_client_hello ch) p (encode_list encode_ext (ch_extensions ch)) →
  ch_extensions ch = pre ++ post →
  (length pre < S (length (encode_client_hello ch)))%nat.
Proof.
  intros Hat Hexts. pose proof (at_pos_bounds _ _ _ Hat) as [Hp0 Hp].
  pose proof (length_encode_list encode_ext (ch_extensions ch) encode_ext_nonempty).
  rewrite Hexts, length_app in *. unfold blen in *. lia.
Qed.

(** C20: [parse_sni] is total on arbitrary bytes: it never indexes out of range,
    never overflows and its loops terminate; and a host name it returns is a
    slice of the input, valid UTF-8 and at most 253 bytes long. *)
Theorem parse_sni_total (buf : list byte) (Hlen : blen buf <= isize_max) :
  returns (parse_sni buf) ∧ ∀ h, parse_sni buf = PSome h → sni_ok buf h.
Proof.
  pose proof (parse_sni_ensures buf Hlen) as H.
  split; [by eapply ensures_returns|]. intros h. by apply ensures_PSome.
Qed.

Lemma parse_sni_total_witness :
  returns (parse_sni (craft_client_hello_with_sni "alpha.example.com")) ∧
  sni_ok (craft_client_hello_with_sni "alpha.example.com") "alpha.example.com".
Proof.
  destruct (parse_sni_total (craft_client_hello_with_sni "alpha.example.com")) as [H1 H2].
  - vm_compute. discriminate.
  - split; [exact H1|]. apply H2. vm_compute. reflexivity.
Defined.

(** C31: on every ClientHello that respects the wire format, with any versions,
    random, session id, cipher suites, compression methods and any extensions
    around it, [parse_sni] answers with the first [host_name] entry of the first
    [server_name] extension: the name itself when it is at most 253 bytes of
    UTF-8, nothing otherwise. *)
Theorem parse_sni_client_hello ch pre npre name npost post :
  client_hello_ok ch → blen (encode_client_hello ch) <= isize_max →
  ch_extensions ch = pre ++ (0, encode_names (npre ++ (0, name) :: npost)) :: post →
  Forall (λ x, x.1 ≠ 0) pre → Forall name_ok npre → Forall (λ n, n.1 ≠ 0) npre →
  parse_sni (encode_client_hello ch) =
  match host_name_answer name with Some h => PSome h | None => PNone end.
Proof.
  intros Hch Hlen Hexts Hpre Hnok Hnty.
  destruct (parse_sni_header ch Hch Hlen) as (p & Hat & ->).
  pose proof (length_encode_hello_exts _ _ _ _ Hat Hexts).
  pose proof (ok_extensions _ Hch) as Hok. rewrite Hexts in *.
  apply Forall_app in Hok as [Hok1 [[_ Hdata] _]%Forall_cons]. simpl in Hdata.
  rewrite encode_list_app, encode_list_cons in *. autorewrite with blen. cbn [snd].
  pose proof (blen_nonneg (encode_list encode_ext post)).
  eapply extensions_at; try done; lia.
Qed.

Lemma parse_sni_client_hello_witness :
  parse_sni (encode_client_hello (crafted "a.example.com")) = PSome "a.example.com" ∧
  parse_sni (encode_client_hello {|
    ch_record_version := [x03; x01]; ch_client_version := [x03; x03];
    ch_random := replicate 32 x07; ch_session_id := [x01; x02];
    ch_cipher_suites := [x13; x01]; ch_compression_methods := [x00];
    ch_extensions := [(10, [x00; x01]);
      (0, encode_names [(1, [x61]); (0, as_bytes "b.org"); (0, as_bytes "c.org")])]
  |}) = PSome "b.org".
Proof.
  split.
  - rewrite (parse_sni_client_hello _ [] [] (as_bytes "a.example.com") [] []); try done.
    constructor; try done. repeat constructor; vm_compute; congruence.
  - rewrite (parse_sni_client_hello _ [(10, [x00; x01])] [(1, [x61])]
      (as_bytes "b.org") [(0, as_bytes "c.org")] []); try done.
    + constructor; try done. repeat constructor; vm_compute; congruence.
    + repeat constructor; done.
    + repeat constructor; vm_compute; congruence.
    + repeat constructor; done.
Defined.

(** A well-formed ClientHello without a [server_name] extension has no SNI. *)
Theorem parse_sni_absent ch :
  client_hello_ok ch → blen (encode_client_hello ch) <= isize_max →
  Forall (λ x, x.1 ≠ 0) (ch_extensions ch) →
  parse_sni (encode_client_hello ch) = PNone.
Proof.
  intros Hch Hlen Hno. destruct (parse_sni_header ch Hch Hlen) as (p & Hat & ->).
  pose proof (length_encode_hello_exts _ _ [] _ Hat (eq_sym (app_nil_r _))).
  eapply extensions_absent_at; try done. by apply ok_extensions.
Qed.

Lemma parse_sni_absent_witness :
  parse_sni (encode_client_hello {|
    ch_record_version := [x03; x01]; ch_client_version := [x03; x03];
    ch_random := replicate 32 x00; ch_session_id := [];
    ch_cipher_suites := [x00; x35]; ch_compression_methods := [x00];
    ch_extensions := [(43, [x02; x03; x04])]
  |}) = PNone.
Proof.
  apply parse_sni_absent.
  - constructor; try done. repeat constructor; vm_compute; congruence.
  - vm_compute. discriminate.
  - repeat constructor; done.
Defined.
