(* ===== verification/Stream.v ===== *)
(** * Byte streams

    The interface between the components that read and write connections, and
    the two stream wrappers of the server: [Metered] ([meter.rs]) counts the
    bytes of a public connection, [PrefixedStream] ([public.rs]) replays the
    ClientHello that was read before routing.

    [AsyncRead] / [AsyncWrite] are the traits the wrappers implement and call;
    [ReadLaws] / [WriteLaws] state what an implementation promises its caller
    (the documented contract of the traits), so that the theorems about a
    wrapper are proved against the interface of the stream it wraps, and the
    wrapper discharges the same interface for its own callers. *)

From S2P Require Import Prelude Bytes.

(** ** Polling *)

Inductive poll (A : Type) : Type :=
| Ready (a : A)
| Pending.
Arguments Ready {A} a.
Arguments Pending {A}.

(** [std::io::Error], by its kind's description. *)
Definition io_error : Type := string.

(** [tokio::io::ReadBuf]: the bytes put so far and the capacity. *)
Record ReadBuf := {
  filled : list byte;
  capacity : nat
}.

(** [buf.remaining()] and [buf.put_slice(s)]. *)
Definition remaining (b : ReadBuf) : nat := capacity b - length (filled b).
Definition put_slice (s : list byte) (b : ReadBuf) : ReadBuf :=
  {| filled := filled b ++ s; capacity := capacity b |}.

Class AsyncRead (S : Type) :=
  poll_read : S → ReadBuf → S * ReadBuf * poll (result io_error ()).

Class AsyncWrite (S : Type) := {
  poll_write : S → list byte → S * poll (result io_error nat);
  poll_flush : S → S * poll (result io_error ());
  poll_shutdown : S → S * poll (result io_error ())
}.

(** The vectored entry points, which only some streams override. *)
Class AsyncWriteVectored (S : Type) := {
  poll_write_vectored : S → list (list byte) → S * poll (result io_error nat);
  is_write_vectored : S → bool
}.

(** ** The contract of the traits *)

(** [incoming s]: the bytes [s] still delivers before its end (of file, or an
    error).  A poll appends a prefix of them to the buffer; it appends nothing
    unless it is [Ready(Ok)]; and it appends nothing to a buffer with room only
    at the end. *)
Class ReadLaws (S : Type) `{AsyncRead S} := {
  incoming : S → list byte;
  poll_read_prefix s b s' b' r :
    poll_read s b = (s', b', r) →
    ∃ bs, b' = put_slice bs b ∧ length bs ≤ remaining b ∧
      incoming s = bs ++ incoming s' ∧
      (r ≠ Ready (Ok ()) → bs = []) ∧
      (r = Ready (Ok ()) → bs = [] → 0 < remaining b → incoming s = [])
}.

(** [outgoing s]: the bytes [s] has accepted.  A write accepts a prefix of the
    buffer, of the length it reports; the other calls accept nothing. *)
Class WriteLaws (S : Type) `{AsyncWrite S} := {
  outgoing : S → list byte;
  poll_write_prefix s buf s' r :
    poll_write s buf = (s', r) →
    match r with
    | Ready (Ok n) => n ≤ length buf ∧ outgoing s' = outgoing s ++ take n buf
    | _ => outgoing s' = outgoing s
    end;
  poll_flush_keeps s s' r : poll_flush s = (s', r) → outgoing s' = outgoing s;
  poll_shutdown_keeps s s' r : poll_shutdown s = (s', r) → outgoing s' = outgoing s
}.

Class WriteVectoredLaws (S : Type) `{WriteLaws S} `{!AsyncWriteVectored S} :=
  poll_write_vectored_prefix : ∀ s bufs s' r,
    poll_write_vectored s bufs = (s', r) →
    match r with
    | Ready (Ok n) =>
        n ≤ length (mjoin bufs) ∧ outgoing s' = outgoing s ++ take n (mjoin bufs)
    | _ => outgoing s' = outgoing s
    end.

(** The two directions of a stream are independent: reading does not change
    what was accepted, writing does not change what is still to be read. *)
Class DuplexLaws (S : Type) `{ReadLaws S} `{WriteVectoredLaws S} := {
  poll_read_outgoing (s : S) b : outgoing (poll_read s b).1.1 = outgoing s;
  poll_write_incoming (s : S) buf : incoming (poll_write s buf).1 = incoming s;
  poll_write_vectored_incoming (s : S) bufs :
    incoming (poll_write_vectored s bufs).1 = incoming s;
  poll_flush_incoming (s : S) : incoming (poll_flush s).1 = incoming s;
  poll_shutdown_incoming (s : S) : incoming (poll_shutdown s).1 = incoming s
}.

(** [AsyncReadExt::read_exact], a method of the runtime: it polls until [n]
    bytes are there.  Its documented contract, on a stream that delivers
    [incoming s]: the first [n] of those bytes, and nothing read past them; an
    error if there are fewer. *)
Class ReadExact (S : Type) :=
  read_exact : S → nat → S * result io_error (list byte).

Class ReadExactLaws (S : Type) `{ReadLaws S} `{!ReadExact S} := {
  read_exact_enough (s : S) n :
    n ≤ length (incoming s) →
    ∃ s', read_exact s n = (s', Ok (take n (incoming s))) ∧ incoming s' = drop n (incoming s);
  read_exact_short (s : S) n :
    length (incoming s) < n → ∃ s' e, read_exact s n = (s', Err e)
}.

(** ** A scripted stream

    A concrete stream for the executable checks: what each read poll does, and
    the bytes written so far (each write accepts at most [wire_mtu] bytes). *)

Inductive wire_event :=
| Chunk (bs : list byte)
| Wait
| Broken (e : io_error).

Record Wire := {
  wire_in : list wire_event;
  wire_out : list byte;
  wire_mtu : nat
}.

#[export] Instance Wire_read : AsyncRead Wire := λ w b,
  let upd evs := {| wire_in := evs; wire_out := wire_out w; wire_mtu := wire_mtu w |} in
  match wire_in w with
  | [] => (w, b, Ready (Ok ()))
  | Wait :: evs => (upd evs, b, Pending)
  | Broken e :: evs => (w, b, Ready (Err e))
  | Chunk bs :: evs =>
      let n := remaining b in
      let evs' := if decide (length bs ≤ n) then evs else Chunk (drop n bs) :: evs in
      (* an empty read would be end of file: it goes to the next event *)
      match bs with
      | [] => (upd evs, b, Pending)
      | _ => (upd evs', put_slice (take n bs) b, Ready (Ok ()))
      end
  end.

#[export] Instance Wire_write : AsyncWrite Wire := {
  poll_write w buf :=
    let n := min (wire_mtu w) (length buf) in
    ({| wire_in := wire_in w; wire_out := wire_out w ++ take n buf; wire_mtu := wire_mtu w |},
     Ready (Ok n));
  poll_flush w := (w, Ready (Ok ()));
  poll_shutdown w := (w, Ready (Ok ()))
}.

Fixpoint wire_incoming (evs : list wire_event) : list byte :=
  match evs with
  | [] | Broken _ :: _ => []
  | Wait :: evs => wire_incoming evs
  | Chunk bs :: evs => bs ++ wire_incoming evs
  end.

#[export] Program Instance Wire_read_laws : ReadLaws Wire := {
  incoming w := wire_incoming (wire_in w)
}.
Next Obligation.
  intros w b w' b' r. unfold poll_read, Wire_read, put_slice.
  destruct (wire_in w) as [|[[|x bs]| |e] evs] eqn:E; intros; simplify_eq/=;
    try (exists []; rewrite ?E, ?app_nil_r; destruct b'; simpl; split_and!; done || lia).
  set (bs' := x :: bs) in *. exists (take (remaining b) bs').
  split_and!; [done|rewrite length_take; lia| |done|].
  - case_decide.
    + by rewrite take_ge by done.
    + simpl. by rewrite app_assoc, take_drop.
  - intros _ Hnil ?. destruct (remaining b); [lia|done].
Qed.

(** Reading [n] bytes from the script, whatever the pauses. *)
Fixpoint wire_read_exact (evs : list wire_event) (n : nat) :
    list wire_event * result io_error (list byte) :=
  match n with
  | 0 => (evs, Ok [])
  | _ =>
      match evs with
      | [] => ([], Err "unexpected end of file"%string)
      | Wait :: evs => wire_read_exact evs n
      | Broken e :: evs => (Broken e :: evs, Err e)
      | Chunk bs :: evs =>
          if decide (length bs ≤ n) then
            let '(evs', r) := wire_read_exact evs (n - length bs) in
            (evs', app bs <$> r)
          else (Chunk (drop n bs) :: evs, Ok (take n bs))
      end
  end.

#[export] Instance Wire_read_exact : ReadExact Wire := λ w n,
  let '(evs, r) := wire_read_exact (wire_in w) n in
  ({| wire_in := evs; wire_out := wire_out w; wire_mtu := wire_mtu w |}, r).

Lemma wire_read_exact_enough evs n :
  n ≤ length (wire_incoming evs) →
  ∃ evs', wire_read_exact evs n = (evs', Ok (take n (wire_incoming evs))) ∧
    wire_incoming evs' = drop n (wire_incoming evs).
Proof.
  revert n. induction evs as [|[bs| |e] evs IH]; intros [|n] Hn; simpl in *;
    try lia; try (eexists; done).
  - rewrite length_app in Hn. case_decide as Hd.
    + destruct (IH (S n - length bs)) as (evs' & -> & Hrest); [lia|].
      exists evs'. rewrite Hrest, take_app, drop_app, (take_ge bs), (drop_ge bs) by done. done.
    + eexists. split; [by rewrite take_app_le by lia|]. by rewrite drop_app_le by lia.
  - by apply IH.
Qed.

Lemma wire_read_exact_short evs n :
  length (wire_incoming evs) < n → ∃ evs' e, wire_read_exact evs n = (evs', Err e).
Proof.
  revert n. induction evs as [|[bs| |e] evs IH]; intros [|n] Hn; simpl in *; try lia; eauto.
  rewrite length_app in Hn. rewrite decide_True by lia.
  destruct (IH (S n - length bs)) as (evs' & e & ->); [lia|]. by eexists _, _.
Qed.

#[export] Instance Wire_read_exact_laws : ReadExactLaws Wire.
Proof.
  split; intros w n Hn; unfold read_exact, Wire_read_exact.
  - destruct (wire_read_exact_enough _ _ Hn) as (evs' & -> & Hrest). by eexists.
  - destruct (wire_read_exact_short _ _ Hn) as (evs' & e & ->). by eexists _, _.
Qed.

#[export] Program Instance Wire_write_laws : WriteLaws Wire := { outgoing := wire_out }.
Next Obligation. intros w buf w' r [= <- <-]. simpl. split; [lia|done]. Qed.
Next Obligation. by intros w w' r [= <- <-]. Qed.
Next Obligation. by intros w w' r [= <- <-]. Qed.

#[export] Instance Wire_write_vectored : AsyncWriteVectored Wire := {
  poll_write_vectored w bufs := poll_write w (mjoin bufs);
  is_write_vectored _ := true
}.

#[export] Instance Wire_write_vectored_laws : WriteVectoredLaws Wire.
Proof. intros w bufs w' r H. exact (poll_write_prefix w (mjoin bufs) w' r H). Qed.

#[export] Instance Wire_duplex_laws : DuplexLaws Wire.
Proof.
  split; try done. intros w b. unfold poll_read, Wire_read.
  by destruct (wire_in w) as [|[[|x bs]| |e] evs].
Qed.

(** ** [Metered] *)

(** The counters are [AtomicU64]s: [fetch_add] wraps around. *)
Record Meter := {
  meter_read : Z;
  meter_written : Z
}.

Definition u64_add (a b : Z) : Z := (a + b) mod 2 ^ 64.

(** [Meter::default()] *)
Definition Meter_default : Meter := {| meter_read := 0; meter_written := 0 |}.

(** [meter.read.fetch_add(n)] and [meter.written.fetch_add(n)] *)
Definition add_read (n : Z) (m : Meter) : Meter :=
  {| meter_read := u64_add (meter_read m) n; meter_written := meter_written m |}.
Definition add_written (n : Z) (m : Meter) : Meter :=
  {| meter_read := meter_read m; meter_written := u64_add (meter_written m) n |}.

Record Metered (S : Type) := {
  metered_inner : S;
  metered_meter : Meter
}.
Arguments metered_inner {S}.
Arguments metered_meter {S}.

Definition Metered_new {S : Type} (inner : S) (meter : Meter) : Metered S :=
  {| metered_inner := inner; metered_meter := meter |}.

Definition Metered_poll_read {S : Type} `{AsyncRead S} (m : Metered S) (buf : ReadBuf) :
    Metered S * ReadBuf * poll (result io_error ()) :=
  let before := length (filled buf) in
  let '(inner, buf, p) := poll_read (metered_inner m) buf in
  let meter :=
    match p with
    | Ready (Ok _) =>
        let count := Z.of_nat (length (filled buf) - before) in
        add_read count (metered_meter m)
    | _ => metered_meter m
    end in
  (Metered_new inner meter, buf, p).

Definition Metered_poll_write {S : Type} `{AsyncWrite S} (m : Metered S) (buf : list byte) :
    Metered S * poll (result io_error nat) :=
  let '(inner, p) := poll_write (metered_inner m) buf in
  let meter :=
    match p with
    | Ready (Ok count) => add_written (Z.of_nat count) (metered_meter m)
    | _ => metered_meter m
    end in
  (Metered_new inner meter, p).

Definition Metered_poll_write_vectored {S : Type} `{AsyncWriteVectored S}
    (m : Metered S) (bufs : list (list byte)) : Metered S * poll (result io_error nat) :=
  let '(inner, p) := poll_write_vectored (metered_inner m) bufs in
  let meter :=
    match p with
    | Ready (Ok count) => add_written (Z.of_nat count) (metered_meter m)
    | _ => metered_meter m
    end in
  (Metered_new inner meter, p).

Definition Metered_is_write_vectored {S : Type} `{AsyncWriteVectored S} (m : Metered S) : bool :=
  is_write_vectored (metered_inner m).

Definition Metered_poll_flush {S : Type} `{AsyncWrite S} (m : Metered S) :
    Metered S * poll (result io_error ()) :=
  let '(inner, p) := poll_flush (metered_inner m) in
  (Metered_new inner (metered_meter m), p).

Definition Metered_poll_shutdown {S : Type} `{AsyncWrite S} (m : Metered S) :
    Metered S * poll (result io_error ()) :=
  let '(inner, p) := poll_shutdown (metered_inner m) in
  (Metered_new inner (metered_meter m), p).

#[export] Instance Metered_read {S : Type} `{AsyncRead S} : AsyncRead (Metered S) :=
  Metered_poll_read.

#[export] Instance Metered_write {S : Type} `{AsyncWrite S} : AsyncWrite (Metered S) := {
  poll_write := Metered_poll_write;
  poll_flush := Metered_poll_flush;
  poll_shutdown := Metered_poll_shutdown
}.

#[export] Instance Metered_write_vectored {S : Type} `{AsyncWriteVectored S} :
  AsyncWriteVectored (Metered S) := {
  poll_write_vectored := Metered_poll_write_vectored;
  is_write_vectored := Metered_is_write_vectored
}.

(** ** [PrefixedStream] *)

Record PrefixedStream (S : Type) := {
  prefix : list byte;
  consumed : nat;
  prefixed_inner : S
}.
Arguments prefix {S}.
Arguments consumed {S}.
Arguments prefixed_inner {S}.

Definition PrefixedStream_new {S : Type} (prefix : list byte) (inner : S) : PrefixedStream S :=
  {| prefix := prefix; consumed := 0; prefixed_inner := inner |}.

(** The stream with its inner stream replaced. *)
Definition with_inner {S : Type} (s : PrefixedStream S) (inner : S) : PrefixedStream S :=
  {| prefix := prefix s; consumed := consumed s; prefixed_inner := inner |}.

Definition PrefixedStream_poll_read {S : Type} `{AsyncRead S}
    (s : PrefixedStream S) (buf : ReadBuf) :
    PrefixedStream S * ReadBuf * poll (result io_error ()) :=
  if decide (consumed s < length (prefix s)) then
    let rest := drop (consumed s) (prefix s) in
    let n := length rest `min` remaining buf in
    ({| prefix := prefix s; consumed := consumed s + n; prefixed_inner := prefixed_inner s |},
     put_slice (take n rest) buf, Ready (Ok ()))
  else
    let '(inner, buf, p) := poll_read (prefixed_inner s) buf in
    (with_inner s inner, buf, p).

Definition PrefixedStream_poll_write {S : Type} `{AsyncWrite S}
    (s : PrefixedStream S) (buf : list byte) : PrefixedStream S * poll (result io_error nat) :=
  let '(inner, p) := poll_write (prefixed_inner s) buf in (with_inner s inner, p).

Definition PrefixedStream_poll_flush {S : Type} `{AsyncWrite S} (s : PrefixedStream S) :
    PrefixedStream S * poll (result io_error ()) :=
  let '(inner, p) := poll_flush (prefixed_inner s) in (with_inner s inner, p).

Definition PrefixedStream_poll_shutdown {S : Type} `{AsyncWrite S} (s : PrefixedStream S) :
    PrefixedStream S * poll (result io_error ()) :=
  let '(inner, p) := poll_shutdown (prefixed_inner s) in (with_inner s inner, p).

#[export] Instance PrefixedStream_read {S : Type} `{AsyncRead S} :
  AsyncRead (PrefixedStream S) := PrefixedStream_poll_read.

#[export] Instance PrefixedStream_write {S : Type} `{AsyncWrite S} :
  AsyncWrite (PrefixedStream S) := {
  poll_write := PrefixedStream_poll_write;
  poll_flush := PrefixedStream_poll_flush;
  poll_shutdown := PrefixedStream_poll_shutdown
}.

(** [PrefixedStream] does not override the vectored entry points: the trait's
    default writes the first non-empty buffer. *)
Definition first_nonempty (bufs : list (list byte)) : list byte :=
  match list_find (λ b, b ≠ []) bufs with Some (_, b) => b | None => [] end.

#[export] Instance PrefixedStream_write_vectored {S : Type} `{AsyncWrite S} :
  AsyncWriteVectored (PrefixedStream S) := {
  poll_write_vectored s bufs := poll_write s (first_nonempty bufs);
  is_write_vectored _ := false
}.

(** ** Runs of a stream

    What a task does with the stream it owns: a sequence of polls, each read
    into a fresh buffer of the given capacity.  [run] collects the bytes the
    reads delivered. *)

Inductive io_op :=
| OpRead (cap : nat)
| OpWrite (buf : list byte)
| OpWriteVectored (bufs : list (list byte))
| OpFlush
| OpShutdown.

Section run.
Context {S : Type} `{AsyncRead S, AsyncWrite S, AsyncWriteVectored S}.

Definition run_op (op : io_op) (s : S) : S * list byte :=
  match op with
  | OpRead cap =>
      let '(s, b, _) := poll_read s {| filled := []; capacity := cap |} in (s, filled b)
  | OpWrite buf => ((poll_write s buf).1, [])
  | OpWriteVectored bufs => ((poll_write_vectored s bufs).1, [])
  | OpFlush => ((poll_flush s).1, [])
  | OpShutdown => ((poll_shutdown s).1, [])
  end.

Fixpoint run (ops : list io_op) (s : S) : S * list byte :=
  match ops with
  | [] => (s, [])
  | op :: ops =>
      let '(s, got) := run_op op s in
      let '(s, got') := run ops s in
      (s, got ++ got')
  end.
End run.

(** ** The wrappers keep the contract *)

Section laws.
Context {S : Type} `{DuplexLaws S}.

#[export] Program Instance Metered_read_laws : ReadLaws (Metered S) := {
  incoming m := incoming (metered_inner m)
}.
Next Obligation.
  intros m b m' b' r. unfold poll_read at 1, Metered_read, Metered_poll_read.
  destruct (poll_read (metered_inner m) b) as [[s' b''] r'] eqn:E.
  intros [= <- <- <-]. simpl. by apply poll_read_prefix.
Qed.

#[export] Program Instance Metered_write_laws : WriteLaws (Metered S) := {
  outgoing m := outgoing (metered_inner m)
}.
Next Obligation.
  intros m buf m' r. unfold poll_write at 1; simpl. unfold Metered_poll_write.
  destruct (poll_write (metered_inner m) buf) as [s' r'] eqn:E.
  intros [= <- <-]. simpl. by apply poll_write_prefix.
Qed.
Next Obligation.
  intros m m' r. unfold poll_flush at 1; simpl. unfold Metered_poll_flush.
  destruct (poll_flush (metered_inner m)) as [s' r'] eqn:E.
  intros [= <- <-]. by eapply poll_flush_keeps.
Qed.
Next Obligation.
  intros m m' r. unfold poll_shutdown at 1; simpl. unfold Metered_poll_shutdown.
  destruct (poll_shutdown (metered_inner m)) as [s' r'] eqn:E.
  intros [= <- <-]. by eapply poll_shutdown_keeps.
Qed.

#[export] Program Instance PrefixedStream_read_laws : ReadLaws (PrefixedStream S) := {
  incoming s := drop (consumed s) (prefix s) ++ incoming (prefixed_inner s)
}.
Next Obligation.
  intros s b s' b' r. unfold poll_read at 1, PrefixedStream_read, PrefixedStream_poll_read.
  case_decide as Hc.
  - intros [= <- <- <-]. simpl. set (rest := drop (consumed s) (prefix s)).
    eexists. split_and!; [done|rewrite length_take; lia| |done|].
    + by rewrite <- drop_drop, app_assoc, take_drop.
    + intros _ Hnil Hrem. apply (f_equal length) in Hnil.
      unfold rest in Hnil. rewrite length_take, length_drop in Hnil. simpl in Hnil. lia.
  - destruct (poll_read (prefixed_inner s) b) as [[i' b''] r'] eqn:E.
    intros [= <- <- <-]. simpl. rewrite drop_ge by lia. by apply poll_read_prefix.
Qed.

#[export] Program Instance PrefixedStream_write_laws : WriteLaws (PrefixedStream S) := {
  outgoing s := outgoing (prefixed_inner s)
}.
Next Obligation.
  intros s buf s' r. unfold poll_write at 1; simpl. unfold PrefixedStream_poll_write.
  destruct (poll_write (prefixed_inner s) buf) as [i' r'] eqn:E.
  intros [= <- <-]. simpl. by apply poll_write_prefix.
Qed.
Next Obligation.
  intros s s' r. unfold poll_flush at 1; simpl. unfold PrefixedStream_poll_flush.
  destruct (poll_flush (prefixed_inner s)) as [i' r'] eqn:E.
  intros [= <- <-]. by eapply poll_flush_keeps.
Qed.
Next Obligation.
  intros s s' r. unfold poll_shutdown at 1; simpl. unfold PrefixedStream_poll_shutdown.
  destruct (poll_shutdown (prefixed_inner s)) as [i' r'] eqn:E.
  intros [= <- <-]. by eapply poll_shutdown_keeps.
Qed.

#[export] Instance Metered_write_vectored_laws : WriteVectoredLaws (Metered S).
Proof.
  intros m bufs m' r. unfold poll_write_vectored at 1; simpl.
  unfold Metered_poll_write_vectored.
  destruct (poll_write_vectored (metered_inner m) bufs) as [s' r'] eqn:E.
  intros [= <- <-]. simpl. by apply poll_write_vectored_prefix.
Qed.

Lemma first_nonempty_prefix bufs : ∃ rest, mjoin bufs = first_nonempty bufs ++ rest.
Proof.
  unfold first_nonempty. induction bufs as [|[|x b] bufs [rest IH]]; simpl.
  - by exists [].
  - exists rest. rewrite IH. by destruct (list_find _ bufs) as [[]|].
  - by exists (mjoin bufs).
Qed.

#[export] Instance PrefixedStream_write_vectored_laws : WriteVectoredLaws (PrefixedStream S).
Proof.
  intros s bufs s' r Hw. apply poll_write_prefix in Hw.
  destruct (first_nonempty_prefix bufs) as [rest ->].
  destruct r as [[n|]|]; [|done..]. destruct Hw as [? ->].
  rewrite length_app, take_app_le by done. split; [lia|done].
Qed.

#[export] Instance Metered_duplex_laws : DuplexLaws (Metered S).
Proof.
  split; intros m *; simpl.
  - unfold poll_read, Metered_read, Metered_poll_read.
    pose proof (poll_read_outgoing (metered_inner m) b) as Hp.
    by destruct (poll_read _ _) as [[] ?].
  - unfold Metered_poll_write. pose proof (poll_write_incoming (metered_inner m) buf) as Hp.
    by destruct (poll_write _ _).
  - unfold Metered_poll_write_vectored.
    pose proof (poll_write_vectored_incoming (metered_inner m) bufs) as Hp.
    by destruct (poll_write_vectored _ _).
  - unfold Metered_poll_flush. pose proof (poll_flush_incoming (metered_inner m)) as Hp.
    by destruct (poll_flush _).
  - unfold Metered_poll_shutdown. pose proof (poll_shutdown_incoming (metered_inner m)) as Hp.
    by destruct (poll_shutdown _).
Qed.

Lemma PrefixedStream_write_incoming (s : PrefixedStream S) buf :
  incoming (poll_write s buf).1 = incoming s.
Proof.
  simpl. unfold PrefixedStream_poll_write.
  pose proof (poll_write_incoming (prefixed_inner s) buf) as Hp.
  destruct (poll_write _ _). simpl in *. by rewrite Hp.
Qed.

#[export] Instance PrefixedStream_duplex_laws : DuplexLaws (PrefixedStream S).
Proof.
  split; intros s *; try apply PrefixedStream_write_incoming; simpl.
  - unfold poll_read, PrefixedStream_read, PrefixedStream_poll_read. case_decide; [done|].
    pose proof (poll_read_outgoing (prefixed_inner s) b) as Hp.
    by destruct (poll_read _ _) as [[] ?].
  - unfold PrefixedStream_poll_flush. pose proof (poll_flush_incoming (prefixed_inner s)) as Hp.
    destruct (poll_flush _). simpl in *. by rewrite Hp.
  - unfold PrefixedStream_poll_shutdown.
    pose proof (poll_shutdown_incoming (prefixed_inner s)) as Hp.
    destruct (poll_shutdown _). simpl in *. by rewrite Hp.
Qed.

(** A run delivers, in order, a prefix of what the stream had to deliver. *)
Lemma run_op_incoming op (s s' : S) got :
  run_op op s = (s', got) → incoming s = got ++ incoming s'.
Proof.
  destruct op; simpl; intros Hop; simplify_eq/=.
  - destruct (poll_read _ _) as [[s1 b] r] eqn:E; simplify_eq.
    by apply poll_read_prefix in E as (bs & -> & _ & -> & _).
  - by rewrite poll_write_incoming.
  - by rewrite poll_write_vectored_incoming.
  - by rewrite poll_flush_incoming.
  - by rewrite poll_shutdown_incoming.
Qed.

Lemma run_incoming ops (s s' : S) got :
  run ops s = (s', got) → incoming s = got ++ incoming s'.
Proof.
  revert s got. induction ops as [|op ops IH]; intros s got; simpl; [by intros [= -> <-]|].
  destruct (run_op op s) as [s1 got1] eqn:E1, (run ops s1) as [s2 got2] eqn:E2.
  intros [= <- <-]. apply run_op_incoming in E1. apply IH in E2.
  by rewrite E1, E2, app_assoc.
Qed.
End laws.

(** ** What a wrapper adds to a run *)

(** [m'] is [m] with [n] more bytes read and [w] more bytes written. *)
Definition meter_adds (m m' : Meter) (n w : nat) : Prop :=
  (meter_read m' = (meter_read m + Z.of_nat n) mod 2 ^ 64)%Z ∧
  (meter_written m' = (meter_written m + Z.of_nat w) mod 2 ^ 64)%Z.

(** The counters are 64-bit values. *)
Definition meter_wf (m : Meter) : Prop :=
  (0 <= meter_read m < 2 ^ 64 ∧ 0 <= meter_written m < 2 ^ 64)%Z.

Lemma meter_adds_0 m : meter_wf m → meter_adds m m 0 0.
Proof. intros [??]. split; rewrite Z.add_0_r, Z.mod_small; done. Qed.

Lemma meter_adds_wf m m' n w : meter_adds m m' n w → meter_wf m'.
Proof. intros [H1 H2]. split; rewrite ?H1, ?H2; by apply Z.mod_pos_bound. Qed.

Lemma meter_adds_trans m m' m'' n w n' w' :
  meter_adds m m' n w → meter_adds m' m'' n' w' → meter_adds m m'' (n + n') (w + w').
Proof.
  intros [H1 H2] [H3 H4]. split.
  - rewrite H3, H1, Zplus_mod_idemp_l. f_equal. lia.
  - rewrite H4, H2, Zplus_mod_idemp_l. f_equal. lia.
Qed.

Lemma add_read_adds m n : meter_wf m → meter_adds m (add_read (Z.of_nat n) m) n 0.
Proof. intros [??]. split; simpl; [done|]. rewrite Z.add_0_r, Z.mod_small; done. Qed.

Lemma add_written_adds m n : meter_wf m → meter_adds m (add_written (Z.of_nat n) m) 0 n.
Proof. intros [??]. split; simpl; [|done]. rewrite Z.add_0_r, Z.mod_small; done. Qed.

Section wrapped.
Context {S : Type} `{DuplexLaws S}.

Lemma run_op_metered op (s s' : S) m got :
  meter_wf m →
  run_op op s = (s', got) →
  ∃ m' sent, run_op op (Metered_new s m) = (Metered_new s' m', got) ∧
    outgoing s' = outgoing s ++ sent ∧ meter_adds m m' (length got) (length sent).
Proof.
  intros Hm. destruct op as [cap|buf|bufs| |]; simpl.
  - change (poll_read (Metered_new s m)) with (Metered_poll_read (Metered_new s m)).
    unfold Metered_poll_read; simpl.
    pose proof (poll_read_outgoing s {| filled := []; capacity := cap |}) as Hout.
    destruct (poll_read s _) as [[s1 b] r] eqn:E. intros [= <- <-]. simpl in *.
    apply poll_read_prefix in E as (bs & -> & _ & _ & Hno & _). simpl in *.
    destruct r as [[[]|]|];
      [|rewrite (Hno ltac:(done)); eexists _, []; rewrite app_nil_r; eauto using meter_adds_0..].
    eexists _, []. rewrite app_nil_r, Nat.sub_0_r. eauto using add_read_adds.
  - unfold Metered_poll_write; simpl. destruct (poll_write s buf) as [s1 r] eqn:E.
    intros [= <- <-]. apply poll_write_prefix in E.
    destruct r as [[n|]|]; [|eexists _, []; rewrite app_nil_r; eauto using meter_adds_0..].
    destruct E as [Hle ->]. eexists _, (take n buf).
    rewrite length_take, Nat.min_l by done. eauto using add_written_adds.
  - unfold Metered_poll_write_vectored; simpl.
    destruct (poll_write_vectored s bufs) as [s1 r] eqn:E.
    intros [= <- <-]. apply poll_write_vectored_prefix in E.
    destruct r as [[n|]|]; [|eexists _, []; rewrite app_nil_r; eauto using meter_adds_0..].
    destruct E as [Hle ->]. eexists _, (take n (mjoin bufs)).
    rewrite length_take, Nat.min_l by done. eauto using add_written_adds.
  - unfold Metered_poll_flush; simpl. destruct (poll_flush s) as [s1 r] eqn:E. intros [= <- <-].
    eexists _, []. rewrite (poll_flush_keeps _ _ _ E), app_nil_r. eauto using meter_adds_0.
  - unfold Metered_poll_shutdown; simpl. destruct (poll_shutdown s) as [s1 r] eqn:E. intros [= <- <-].
    eexists _, []. rewrite (poll_shutdown_keeps _ _ _ E), app_nil_r. eauto using meter_adds_0.
Qed.

(** While the prefix lasts, reads take its bytes and leave the inner stream
    alone. *)
Lemma run_prefix caps (s : PrefixedStream S) :
  Forall (λ cap, 0 < cap) caps →
  sum_list caps ≤ length (prefix s) - consumed s →
  run (OpRead <$> caps) s =
  ({| prefix := prefix s; consumed := consumed s + sum_list caps;
      prefixed_inner := prefixed_inner s |},
   take (sum_list caps) (drop (consumed s) (prefix s))).
Proof.
  intros Hpos. revert s.
  induction Hpos as [|cap caps Hcap _ IH]; intros s Hsum; simpl in *.
  { rewrite Nat.add_0_r. by destruct s. }
  unfold poll_read, PrefixedStream_read, PrefixedStream_poll_read, remaining. simpl.
  rewrite decide_True, length_drop, Nat.min_r by lia.
  rewrite Nat.sub_0_r, IH; simpl; [|lia]. rewrite <- Nat.add_assoc, <- drop_drop.
  by rewrite take_take_drop.
Qed.

(** The meter is exact and transparent.  Whatever sequence of reads, plain
    and vectored writes, flushes and shutdowns is run on a metered stream, the
    stream underneath goes through the states it would go through without the
    meter and the reader receives the same bytes; and the counters grow by
    exactly the bytes delivered to the reader and accepted by the stream
    (modulo 2^64, the width of the atomics). *)
Theorem metered_exact ops (s : S) (m : Meter) :
  meter_wf m →
  ∃ s' m' got sent,
    run ops s = (s', got) ∧
    run ops (Metered_new s m) = (Metered_new s' m', got) ∧
    incoming s = got ++ incoming s' ∧
    outgoing s' = outgoing s ++ sent ∧
    meter_adds m m' (length got) (length sent).
Proof.
  revert s m. induction ops as [|op ops IH]; intros s m Hm; simpl.
  { exists s, m, [], []. rewrite app_nil_r. split_and!; auto using meter_adds_0. }
  destruct (run_op op s) as [s1 got1] eqn:E1.
  destruct (run_op_metered _ _ _ _ _ Hm E1) as (m1 & sent1 & -> & Hout1 & Hadd1).
  destruct (IH s1 m1) as (s2 & m2 & got2 & sent2 & -> & -> & Hin2 & Hout2 & Hadd2);
    [by eapply meter_adds_wf|].
  exists s2, m2, (got1 ++ got2), (sent1 ++ sent2). apply run_op_incoming in E1.
  rewrite Hout2, Hout1, E1, Hin2, !length_app, !app_assoc.
  split_and!; eauto using meter_adds_trans.
Qed.

(** C37: the ClientHello is given back byte for byte.  Whatever is done with the
    [PrefixedStream] built from the bytes [hello] already read and the stream
    they were read from, its reader receives exactly the beginning of [hello]
    followed by what the stream still delivers: no byte is lost, duplicated or
    reordered, what is left is what the wrapper still delivers, and a reader that
    polls with room until it has [length hello] bytes has exactly [hello], with
    the stream underneath untouched. *)
Theorem prefixed_replay (hello : list byte) (inner : S) :
  (∀ ops s' got,
    run ops (PrefixedStream_new hello inner) = (s', got) →
    hello ++ incoming inner = got ++ incoming s') ∧
  (∀ caps,
    Forall (λ cap, 0 < cap) caps →
    sum_list caps = length hello →
    run (OpRead <$> caps) (PrefixedStream_new hello inner) =
    ({| prefix := hello; consumed := length hello; prefixed_inner := inner |}, hello)).
Proof.
  split.
  - intros ops s' got Hrun. by apply run_incoming in Hrun.
  - intros caps Hpos Hsum. rewrite run_prefix by (simpl; lia || done). simpl.
    by rewrite Hsum, firstn_all.
Qed.
End wrapped.

(** ** Witnesses *)

Definition demo_wire : Wire :=
  {| wire_in := [Chunk [x61; x62; x63]; Wait; Chunk [x64]]; wire_out := []; wire_mtu := 2 |}.

Definition demo_ops : list io_op :=
  [OpRead 2; OpWrite [x41; x42; x43]; OpRead 2; OpRead 1; OpFlush; OpRead 9;
   OpWriteVectored [[]; [x44]; [x45]]; OpShutdown].

Example demo_metered :
  (run demo_ops (Metered_new demo_wire Meter_default)) =
  (Metered_new {| wire_in := []; wire_out := [x41; x42; x44; x45]; wire_mtu := 2 |}
     {| meter_read := 4; meter_written := 4 |}, [x61; x62; x63; x64]).
Proof. reflexivity. Qed.

Lemma metered_exact_witness :
  meter_wf Meter_default ∧
  ∃ s' m' got sent,
    run demo_ops demo_wire = (s', got) ∧
    run demo_ops (Metered_new demo_wire Meter_default) = (Metered_new s' m', got) ∧
    incoming demo_wire = got ++ incoming s' ∧
    outgoing s' = outgoing demo_wire ++ sent ∧
    meter_adds Meter_default m' (length got) (length sent).
Proof.
  assert (meter_wf Meter_default) as Hwf by (split; simpl; lia).
  split; [exact Hwf|]. exact (metered_exact demo_ops demo_wire Meter_default Hwf).
Defined.

Lemma prefixed_replay_witness :
  run (OpRead <$> [2; 1]) (PrefixedStream_new [x16; x03; x01] demo_wire) =
  ({| prefix := [x16; x03; x01]; consumed := 3; prefixed_inner := demo_wire |},
   [x16; x03; x01]).
Proof.
  apply (proj2 (prefixed_replay [x16; x03; x01] demo_wire)); [|reflexivity].
  repeat constructor; lia.
Defined.
