(* ===== verification/Protocol.v ===== *)
(** * The wire protocol

    [crates/tuyau-protocol]: the handshake and data-stream frames ([frame.rs]),
    the length-delimited codec ([codec.rs]: [FrameCodec::encode],
    [FrameCodec::decode], [read_frame]) and the token visitor of
    [frame.rs::token_serde].

    CBOR itself ([ciborium]) is a parameter, the class [Cbor]; [CborLaws] is
    its documented round trip, the only thing the codec relies on. *)

From S2P Require Import Prelude Bytes Stream.

Local Open Scope Z_scope.

(** ** Frames *)

(** The token is a [[u8; 32]]: see [token_wf]. *)
Record Hello := {
  token : list byte;
  client_name : string
}.

Inductive HelloResponse :=
| Welcome
| Reject (reason : string).

Inductive TlsMode :=
| Terminated
| TlsOffload
| Passthrough.

#[export] Instance TlsMode_eq_dec : EqDecision TlsMode.
Proof. solve_decision. Defined.

Record DataStreamHeader := {
  hostname : string;
  peer_addr : string;
  mode : TlsMode
}.

Inductive ProtocolError :=
| Io (e : io_error)
| CborError (msg : string)
| OversizedFrame (len max : Z).

(** ** CBOR, a parameter *)

(** [ciborium::into_writer(&item, &mut vec)] and
    [ciborium::from_reader(slice)], the error by its display string. *)
Class Cbor (F : Type) := {
  into_writer : F → result string (list byte);
  from_reader : list byte → result string F
}.

Class CborLaws (F : Type) `{Cbor F} :=
  cbor_roundtrip : ∀ x bs, into_writer x = Ok bs → from_reader bs = Ok x.

(** ** The codec *)

Definition LEN_PREFIX_SIZE : nat := 4.
Definition MAX_FRAME_SIZE : Z := 64 * 1024.

(** The application protocol both sides of a tunnel negotiate. *)
Definition ALPN : list byte := as_bytes "tuyau/1".

(** [u32::from_be_bytes(len_buf) as usize], on a four-byte buffer. *)
Definition frame_len (len_buf : list byte) : Z :=
  match len_buf with
  | [b0; b1; b2; b3] => u32_from_be_bytes b0 b1 b2 b3
  | _ => 0
  end.

Section codec.
Context {F : Type} `{Cbor F}.

(** [FrameCodec::encode(item, dst)]: the new contents of [dst] and the result.
    Reserving capacity has no effect on the contents. *)
Definition encode (item : F) (dst : list byte) : list byte * result ProtocolError () :=
  match map_err CborError (into_writer item) with
  | Err e => (dst, Err e)
  | Ok payload =>
      if blen payload >? MAX_FRAME_SIZE
      then (dst, Err (OversizedFrame (blen payload) MAX_FRAME_SIZE))
      else (dst ++ u32_to_be_bytes (blen payload) ++ payload, Ok ())
  end.

(** [FrameCodec::decode(src)]: what is left of [src] and the result. *)
Definition decode (src : list byte) : list byte * result ProtocolError (option F) :=
  if decide (length src < LEN_PREFIX_SIZE)%nat then (src, Ok None)
  else
    let len := frame_len (take LEN_PREFIX_SIZE src) in
    if len >? MAX_FRAME_SIZE then (src, Err (OversizedFrame len MAX_FRAME_SIZE))
    else if blen src <? Z.of_nat LEN_PREFIX_SIZE + len then (src, Ok None)
    else
      let src := drop LEN_PREFIX_SIZE src in
      let payload := take (Z.to_nat len) src in
      let src := drop (Z.to_nat len) src in
      (src, item ← map_err CborError (from_reader payload); Ok (Some item)).

(** [read_frame(r)] *)
Definition read_frame {R : Type} `{ReadExact R} (r : R) : R * result ProtocolError F :=
  match read_exact r LEN_PREFIX_SIZE with
  | (r, Err e) => (r, Err (Io e))
  | (r, Ok len_buf) =>
      let len := frame_len len_buf in
      if len >? MAX_FRAME_SIZE then (r, Err (OversizedFrame len MAX_FRAME_SIZE))
      else
        match read_exact r (Z.to_nat len) with
        | (r, Err e) => (r, Err (Io e))
        | (r, Ok payload) => (r, map_err CborError (from_reader payload))
        end
  end.

(** ** Driving the decoder

    A framed reader appends what arrives to its buffer and decodes until the
    decoder asks for more ([drain]); [feed] does so for a sequence of chunks.
    A frame takes at least the prefix, so [length src] rounds are enough. *)

Fixpoint drain (fuel : nat) (src : list byte) : list byte * result ProtocolError (list F) :=
  match fuel with
  | O => (src, Ok [])
  | S fuel =>
      match decode src with
      | (src, Ok None) => (src, Ok [])
      | (src, Err e) => (src, Err e)
      | (src, Ok (Some x)) =>
          let '(src, r) := drain fuel src in (src, cons x <$> r)
      end
  end.

Fixpoint feed (buf : list byte) (chunks : list (list byte)) :
    list byte * result ProtocolError (list F) :=
  match chunks with
  | [] => (buf, Ok [])
  | c :: chunks =>
      let src := buf ++ c in
      match drain (length src) src with
      | (buf, Err e) => (buf, Err e)
      | (buf, Ok xs) => let '(buf, r) := feed buf chunks in (buf, app xs <$> r)
      end
  end.

(** Encoding a sequence of frames into one buffer. *)
Fixpoint encode_all (items : list F) (dst : list byte) : list byte * result ProtocolError () :=
  match items with
  | [] => (dst, Ok ())
  | x :: items =>
      match encode x dst with
      | (dst, Ok _) => encode_all items dst
      | (dst, Err e) => (dst, Err e)
      end
  end.
End codec.

#[global] Arguments encode : simpl never.
#[global] Arguments decode : simpl never.

(** ** The token visitor *)

(** [[u8; 32]] *)
Definition token_wf (t : list byte) : Prop := length t = 32%nat.

Inductive visit_error :=
| invalid_length (n : nat)
| element_error (msg : string).

(** [visit_bytes(v)]: [<[u8; 32]>::try_from(v)]. *)
Definition visit_bytes (v : list byte) : result visit_error (list byte) :=
  if decide (length v = 32%nat) then Ok v else Err (invalid_length (length v)).

(** [visit_seq(seq)]: the loop over the 32 slots, from slot [i]; an element of
    the sequence is a [u8] or the error its decoding raises. *)
Fixpoint visit_seq_from (slots i : nat) (seq : list (result string byte)) :
    result visit_error (list byte) :=
  match slots with
  | O => Ok []
  | S slots =>
      match seq with
      | [] => Err (invalid_length i)
      | Err msg :: _ => Err (element_error msg)
      | Ok b :: seq => cons b <$> visit_seq_from slots (S i) seq
      end
  end.

Definition visit_seq (seq : list (result string byte)) : result visit_error (list byte) :=
  visit_seq_from 32 0 seq.

(** What a deserializer finds and calls the visitor with. *)
Inductive visitor_call :=
| CallBytes (v : list byte)
| CallByteBuf (v : list byte)
| CallSeq (seq : list (result string byte)).

(** [token_serde::serialize]: the call of the serializer; [deserialize]: the method of
    the visitor that is called. *)
Definition token_serialize (bytes : list byte) : visitor_call := CallBytes bytes.

Definition token_deserialize (call : visitor_call) : result visit_error (list byte) :=
  match call with
  | CallBytes v => visit_bytes v
  | CallByteBuf v => visit_bytes v
  | CallSeq seq => visit_seq seq
  end.

(** ** Lemmas *)

(** The bytes of one frame. *)
Definition frame (payload : list byte) : list byte :=
  u32_to_be_bytes (blen payload) ++ payload.

Lemma length_u32_to_be_bytes z : length (u32_to_be_bytes z) = LEN_PREFIX_SIZE.
Proof. done. Qed.

Lemma length_frame payload : length (frame payload) = (LEN_PREFIX_SIZE + length payload)%nat.
Proof. done. Qed.

Lemma frame_len_prefix z rest :
  0 <= z < 2 ^ 32 → frame_len (take LEN_PREFIX_SIZE (u32_to_be_bytes z ++ rest)) = z.
Proof. intros Hz. simpl. by apply u32_roundtrip. Qed.

Lemma frame_len_nonneg l : 0 <= frame_len l.
Proof.
  unfold frame_len. case_all; try done. rewrite u32_from_be_bytes_eq.
  repeat match goal with |- context [u8 ?b] => pose proof (u8_range b); generalize dependent (u8 b) end.
  lia.
Qed.

Section lemmas.
Context {F : Type} `{CborLaws F}.
Implicit Types (x : F) (items xs ys : list F) (src dst payload : list byte).

Lemma decode_frame payload rest :
  blen payload <= MAX_FRAME_SIZE →
  decode (frame payload ++ rest) =
  (rest, item ← map_err CborError (from_reader payload); Ok (Some (item : F))).
Proof.
  intros Hmax. unfold decode, frame. rewrite <- !app_assoc, decide_False.
  2:{ rewrite length_app, length_u32_to_be_bytes. lia. }
  rewrite frame_len_prefix by (unfold blen, MAX_FRAME_SIZE in *; lia).
  rewrite Z.gtb_ltb, (proj2 (Z.ltb_ge _ _)) by done.
  rewrite (proj2 (Z.ltb_ge _ _)).
  2:{ unfold blen. rewrite !length_app, length_u32_to_be_bytes. lia. }
  rewrite (drop_app_length' (u32_to_be_bytes _)) by done.
  unfold blen. by rewrite Nat2Z.id, take_app_length, drop_app_length.
Qed.

Lemma decode_strict_prefix payload src rest :
  blen payload <= MAX_FRAME_SIZE →
  frame payload = src ++ rest → rest ≠ [] →
  decode src = (src, Ok (None : option F)).
Proof.
  intros Hmax Hf Hrest. unfold decode. case_decide as Hd; [done|].
  assert (take LEN_PREFIX_SIZE src = take LEN_PREFIX_SIZE (frame payload)) as ->.
  { rewrite Hf, take_app_le by lia. done. }
  unfold frame. rewrite frame_len_prefix by (unfold blen, MAX_FRAME_SIZE in *; lia).
  rewrite Z.gtb_ltb, (proj2 (Z.ltb_ge _ _)) by done.
  rewrite (proj2 (Z.ltb_lt _ _)); [done|].
  apply (f_equal length) in Hf. rewrite length_app, length_frame in Hf.
  destruct rest; [done|]. rewrite length_cons in Hf. unfold blen. lia.
Qed.

Lemma encode_Ok x dst dst' :
  encode x dst = (dst', Ok ()) →
  ∃ payload, into_writer x = Ok payload ∧ from_reader payload = Ok x ∧
    blen payload <= MAX_FRAME_SIZE ∧ dst' = dst ++ frame payload.
Proof.
  unfold encode. destruct (into_writer x) as [payload|] eqn:E; simpl; [|done].
  destruct (blen payload >? MAX_FRAME_SIZE) eqn:Hgt; [done|]. intros [= <-].
  exists payload. split_and!; [done|by apply cbor_roundtrip| |done].
  rewrite Z.gtb_ltb in Hgt. by apply Z.ltb_ge in Hgt.
Qed.

(** [wire items w]: [w] is the frames of [items], in order. *)
Inductive wire : list F → list byte → Prop :=
| wire_nil : wire [] []
| wire_cons x items payload w :
    from_reader payload = Ok x → blen payload <= MAX_FRAME_SIZE →
    wire items w → wire (x :: items) (frame payload ++ w).

Lemma encode_all_wire items dst dst' :
  encode_all items dst = (dst', Ok ()) → ∃ w, dst' = dst ++ w ∧ wire items w.
Proof.
  revert dst dst'. induction items as [|x items IH]; intros dst dst'; simpl.
  { intros [= <-]. exists []. rewrite app_nil_r. eauto using wire. }
  destruct (encode x dst) as [d [[]|]] eqn:E; [|done].
  intros (w & -> & Hw)%IH. apply encode_Ok in E as (payload & _ & E & Hmax & ->).
  exists (frame payload ++ w). rewrite app_assoc. eauto using wire.
Qed.

(** Decoding a prefix of a wire: some frames come out, and the decoder waits
    with a strict prefix of the next one. *)
Lemma drain_prefix fuel items w src rest :
  wire items w → w = src ++ rest → (length src ≤ fuel)%nat →
  ∃ xs ys w' src', items = xs ++ ys ∧ drain fuel src = (src', Ok xs) ∧
    wire ys w' ∧ w' = src' ++ rest ∧ (rest = [] → ys = []).
Proof.
  intros Hw. revert fuel src rest.
  induction Hw as [|x items payload w Hx Hmax Hw IH]; intros fuel src rest Heq Hfuel.
  { symmetry in Heq. apply app_nil in Heq as [-> ->].
    exists [], [], [], []. split_and!; try done; [by destruct fuel|constructor]. }
  assert (Hl := length_frame payload).
  destruct (decide (length (frame payload) ≤ length src)%nat) as [Hle|Hgt].
  - assert (src = frame payload ++ drop (length (frame payload)) src) as Hsrc.
    { apply (f_equal (take (length (frame payload)))) in Heq.
      rewrite take_app_length, take_app_le in Heq by done. by rewrite Heq at 1; rewrite take_drop. }
    set (src1 := drop _ src) in Hsrc. clearbody src1. subst src.
    rewrite <- app_assoc in Heq. apply app_inv_head in Heq.
    rewrite length_app in Hfuel. destruct fuel as [|fuel]; [unfold LEN_PREFIX_SIZE in *; lia|].
    destruct (IH fuel src1 rest) as (xs & ys & w' & src' & -> & Hd & ?); [done|unfold LEN_PREFIX_SIZE in *; lia|].
    exists (x :: xs), ys, w', src'. split; [done|]. split; [|done].
    cbn [drain]. rewrite decode_frame, Hx by done. simpl. by rewrite Hd.
  - destruct (app_eq_inv _ _ _ _ Heq) as [[k [Hk1 Hk2]]|[k [Hk1 Hk2]]].
    + assert (k ≠ []) as Hk. { intros ->. rewrite app_nil_r in Hk1. rewrite Hk1 in Hgt. lia. }
      exists [], (x :: items), (frame payload ++ w), src. split_and!; [done| |by constructor|done|].
      * destruct fuel; cbn [drain]; [done|]. by rewrite (decode_strict_prefix payload src k).
      * intros ->. destruct k; [done|]. by apply (f_equal length) in Hk2.
    + rewrite Hk1, length_app in Hgt. lia.
Qed.

Lemma feed_wire chunks items w buf :
  wire items w → w = buf ++ mjoin chunks → chunks ≠ [] →
  feed buf chunks = ([], Ok items).
Proof.
  revert items w buf. induction chunks as [|c chunks IH]; intros items w buf Hw Heq Hne; [done|].
  simpl in Heq. rewrite app_assoc in Heq. simpl.
  destruct (drain_prefix (length (buf ++ c)) _ _ _ _ Hw Heq)
    as (xs & ys & w' & src' & -> & -> & Hw' & Heq' & Hend); [done|].
  destruct chunks as [|c' chunks].
  - simpl in *. rewrite app_nil_r in Heq'. rewrite (Hend eq_refl) in *. subst.
    inversion Hw'; subst. simpl. by rewrite !app_nil_r.
  - by rewrite (IH _ _ _ Hw' Heq').
Qed.

Lemma encode_error x dst dst' e :
  encode x dst = (dst', Err e) →
  dst' = dst ∧
  ((∃ msg, e = CborError msg ∧ into_writer x = Err msg) ∨
   (∃ payload, into_writer x = Ok payload ∧ MAX_FRAME_SIZE < blen payload ∧
      e = OversizedFrame (blen payload) MAX_FRAME_SIZE)).
Proof.
  unfold encode. destruct (into_writer x) as [payload|msg] eqn:E; simpl.
  - destruct (blen payload >? MAX_FRAME_SIZE) eqn:Hgt; [|done]. intros [= <- <-].
    rewrite Z.gtb_ltb in Hgt. apply Z.ltb_lt in Hgt. eauto 6.
  - intros [= <- <-]. eauto.
Qed.

(** What [decode] does with its buffer in each outcome. *)
Definition decode_outcome src (out : list byte * result ProtocolError (option F)) : Prop :=
  match out with
  | (src', Ok None) => src' = src ∧ blen src < Z.of_nat LEN_PREFIX_SIZE + MAX_FRAME_SIZE
  | (src', Ok (Some _)) | (src', Err (CborError _)) =>
      ∃ f, src = f ++ src' ∧ (LEN_PREFIX_SIZE ≤ length f)%nat ∧
        blen f <= Z.of_nat LEN_PREFIX_SIZE + MAX_FRAME_SIZE
  | (src', Err (OversizedFrame len max)) => src' = src ∧ max = MAX_FRAME_SIZE ∧ max < len
  | (_, Err (Io _)) => False
  end.

Lemma decode_consumes src len :
  0 <= len → ¬ (length src < LEN_PREFIX_SIZE)%nat →
  ¬ blen src < Z.of_nat LEN_PREFIX_SIZE + len → ¬ MAX_FRAME_SIZE < len →
  ∃ f, src = f ++ drop (Z.to_nat len) (drop LEN_PREFIX_SIZE src) ∧
    (LEN_PREFIX_SIZE ≤ length f)%nat ∧ blen f <= Z.of_nat LEN_PREFIX_SIZE + MAX_FRAME_SIZE.
Proof.
  intros ????. exists (take (LEN_PREFIX_SIZE + Z.to_nat len) src).
  rewrite drop_drop, take_drop. unfold blen in *. rewrite length_take.
  split; [done|]. lia.
Qed.

(** Reading a frame leaves the stream exactly after it. *)
Lemma read_frame_frame {R : Type} `{ReadExactLaws R} (r : R) payload rest x :
  incoming r = frame payload ++ rest → from_reader payload = Ok x → blen payload <= MAX_FRAME_SIZE →
  ∃ r', read_frame r = (r', Ok x) ∧ incoming r' = rest.
Proof.
  intros Hin Hx Hmax. unfold read_frame.
  destruct (read_exact_enough r LEN_PREFIX_SIZE) as (r1 & -> & Hr1).
  { rewrite Hin, length_app, length_frame. lia. }
  rewrite Hin in *. unfold frame. rewrite <- app_assoc.
  rewrite frame_len_prefix by (unfold blen, MAX_FRAME_SIZE in *; lia).
  rewrite Z.gtb_ltb, (proj2 (Z.ltb_ge _ _)) by done.
  unfold frame in Hr1. rewrite <- app_assoc, (drop_app_length' (u32_to_be_bytes _)) in Hr1 by done.
  unfold blen. rewrite Nat2Z.id.
  destruct (read_exact_enough r1 (length payload)) as (r2 & -> & Hr2).
  { rewrite Hr1, length_app. lia. }
  rewrite Hr1 in *. rewrite take_app_length, drop_app_length in *. exists r2. by rewrite Hx.
Qed.

(** ** Theorems *)

(** A frame that encodes decodes to itself, whatever follows it on the
    stream, and leaves exactly what follows; encoding only appends, at most
    [4 + MAX_FRAME_SIZE] bytes. *)
Theorem codec_roundtrip x dst dst' rest :
  encode x dst = (dst', Ok ()) →
  ∃ f, dst' = dst ++ f ∧
    blen f <= Z.of_nat LEN_PREFIX_SIZE + MAX_FRAME_SIZE ∧
    decode (f ++ rest) = (rest, Ok (Some x)).
Proof.
  intros (payload & _ & Hx & Hmax & ->)%encode_Ok. exists (frame payload).
  split_and!; [done| |by rewrite decode_frame, Hx].
  unfold blen in *. rewrite length_frame. lia.
Qed.

(** C28: framing is independent of packet boundaries.  Cut the encoding of any
    sequence of frames into chunks anywhere (empty chunks included): a reader
    that decodes as the chunks arrive obtains exactly those frames, in order,
    with no error and nothing left in its buffer. *)
Theorem chunked_decode items w chunks :
  encode_all items [] = (w, Ok ()) →
  mjoin chunks = w → chunks ≠ [] →
  feed [] chunks = ([], Ok items).
Proof.
  intros (w' & -> & Hw)%encode_all_wire Hj Hne. apply (feed_wire _ _ w'); auto.
Qed.

(** The decoder is bounded and resumable: it asks for more bytes only
    while it holds less than one maximal frame, and then keeps all it has; a
    length prefix over the maximum is refused without consuming anything, before
    any payload is awaited; otherwise one frame, of at most the maximal size,
    leaves the buffer, whether or not its CBOR is valid. *)
Theorem decode_bounded src : decode_outcome src (decode src).
Proof.
  unfold decode. case_decide as Hd.
  { simpl. unfold blen, LEN_PREFIX_SIZE, MAX_FRAME_SIZE in *. split; [done|lia]. }
  set (len := frame_len _).
  assert (0 <= len) as Hlen by apply frame_len_nonneg. clearbody len.
  rewrite Z.gtb_ltb. destruct (Z.ltb_spec MAX_FRAME_SIZE len); [done|].
  destruct (Z.ltb_spec (blen src) (Z.of_nat LEN_PREFIX_SIZE + len)).
  { simpl. split; [done|lia]. }
  destruct (from_reader _); simpl; apply decode_consumes; lia.
Qed.

(** C36: [read_frame] is [decode] on the bytes of the stream, for every input:
    it returns the same frame and leaves the stream exactly after it (nothing
    past the frame is consumed, so a raw byte stream may follow), fails with the
    same error on an oversized prefix or invalid CBOR, and fails with an I/O
    error exactly where [decode] would wait for bytes that never come. *)
Theorem read_frame_decode {R : Type} `{ReadExactLaws R} (r : R) :
  match decode (incoming r) with
  | (rest, Ok (Some x)) => ∃ r', read_frame r = (r', Ok x) ∧ incoming r' = rest
  | (_, Ok None) => ∃ r' e, read_frame (F := F) r = (r', Err (Io e))
  | (_, Err e) => ∃ r', read_frame (F := F) r = (r', Err e)
  end.
Proof.
  unfold decode, read_frame. case_decide as Hd.
  { destruct (read_exact_short r LEN_PREFIX_SIZE Hd) as (r' & e & ->). eauto. }
  destruct (read_exact_enough r LEN_PREFIX_SIZE) as (r1 & -> & Hr1); [lia|].
  set (len := frame_len _).
  assert (0 <= len) as Hlen by apply frame_len_nonneg. clearbody len.
  rewrite Z.gtb_ltb. destruct (Z.ltb_spec MAX_FRAME_SIZE len); [by eauto|].
  rewrite <- Hr1. destruct (Z.ltb_spec (blen (incoming r)) (Z.of_nat LEN_PREFIX_SIZE + len)).
  - destruct (read_exact_short r1 (Z.to_nat len)) as (r' & e & ->); [|by eauto].
    rewrite Hr1, length_drop. unfold blen in *. lia.
  - destruct (read_exact_enough r1 (Z.to_nat len)) as (r' & -> & Hr').
    { rewrite Hr1, length_drop. unfold blen in *. lia. }
    destruct (from_reader _); simpl; eauto.
Qed.
End lemmas.

Lemma visit_seq_from_Ok slots i t extra :
  length t = slots → visit_seq_from slots i ((Ok <$> t) ++ extra) = Ok t.
Proof.
  revert i t. induction slots as [|slots IH]; intros i [|b t] [=]; simpl; [done|].
  by rewrite IH.
Qed.

Lemma visit_seq_from_short slots i t :
  (length t < slots)%nat →
  visit_seq_from slots i (Ok <$> t) = Err (invalid_length (i + length t)).
Proof.
  revert i t. induction slots as [|slots IH]; intros i [|b t]; simpl; try lia.
  - intros _. by rewrite Nat.add_0_r.
  - intros ?. rewrite IH by lia. simpl. do 2 f_equal. lia.
Qed.

Lemma visit_seq_from_length slots i seq t :
  visit_seq_from slots i seq = Ok t → length t = slots.
Proof.
  revert i seq t. induction slots as [|slots IH]; intros i seq t; simpl; [by intros [= <-]|].
  destruct seq as [|[b|msg] seq]; try done.
  destruct (visit_seq_from slots (S i) seq) eqn:E; simpl; [|done].
  intros [= <-]. simpl. f_equal. by eapply IH.
Qed.

(** The token visitor accepts a 32-byte token in both of its encodings, a
    byte string and an array of integers, with the same value; a byte string or
    array that is too short is refused with its length; and whatever it accepts
    is a 32-byte token. *)
Theorem token_visitor t :
  (token_wf t → token_deserialize (token_serialize t) = Ok t ∧ token_deserialize (CallSeq (Ok <$> t)) = Ok t) ∧
  ((length t < 32)%nat →
     token_deserialize (CallBytes t) = Err (invalid_length (length t)) ∧
     token_deserialize (CallSeq (Ok <$> t)) = Err (invalid_length (length t))) ∧
  (∀ call, token_deserialize call = Ok t → token_wf t).
Proof.
  unfold token_serialize, token_deserialize, visit_bytes, visit_seq, token_wf. split_and!.
  - intros Ht. rewrite decide_True by done. split; [done|].
    rewrite <- (app_nil_r (Ok <$> t)). by apply visit_seq_from_Ok.
  - intros Ht. rewrite decide_False by lia. split; [done|].
    by rewrite visit_seq_from_short.
  - intros [v|v|seq]; [case_decide; [|done]; by intros [= <-]..|]. apply visit_seq_from_length.
Qed.

(** ** Witnesses

    [TlsMode] in CBOR: a unit variant is the text string of its snake-case
    name (major type 3, length in the low five bits). *)

Definition tls_mode_cbor (m : TlsMode) : list byte :=
  match m with
  | Terminated => x6a :: as_bytes "terminated"
  | TlsOffload => x6b :: as_bytes "tls_offload"
  | Passthrough => x6b :: as_bytes "passthrough"
  end.

#[export] Instance TlsMode_cbor : Cbor TlsMode := {
  into_writer m := Ok (tls_mode_cbor m);
  from_reader bs :=
    ok_or "unknown variant"%string
      (snd <$> list_find (λ m, tls_mode_cbor m = bs) [Terminated; TlsOffload; Passthrough])
}.

#[export] Instance TlsMode_cbor_laws : CborLaws TlsMode.
Proof. intros [] bs [= <-]; reflexivity. Qed.

Definition demo_frames : list byte :=
  (encode_all [Passthrough; Terminated] []).1.

Lemma codec_roundtrip_witness :
  ∃ f, (encode Passthrough [x01]).1 = [x01] ++ f ∧
    blen f <= Z.of_nat LEN_PREFIX_SIZE + MAX_FRAME_SIZE ∧
    decode (f ++ [xff]) = ([xff], Ok (Some Passthrough)).
Proof. apply (codec_roundtrip Passthrough [x01]). vm_compute. reflexivity. Defined.

Lemma chunked_decode_witness :
  feed [] [take 3 demo_frames; []; take 20 (drop 3 demo_frames); drop 23 demo_frames] =
  ([], Ok [Passthrough; Terminated]).
Proof.
  apply (chunked_decode [Passthrough; Terminated] demo_frames);
    [vm_compute; reflexivity|vm_compute; reflexivity|discriminate].
Defined.

Lemma read_frame_decode_witness :
  ∃ r', read_frame {| wire_in := [Chunk (take 7 demo_frames); Wait; Chunk (drop 7 demo_frames)];
                      wire_out := []; wire_mtu := 0 |} = (r', Ok Passthrough) ∧
    incoming r' = drop 16 demo_frames.
Proof.
  exact (read_frame_decode (F := TlsMode)
    {| wire_in := [Chunk (take 7 demo_frames); Wait; Chunk (drop 7 demo_frames)];
       wire_out := []; wire_mtu := 0 |}).
Defined.

Lemma token_visitor_witness :
  visit_bytes (replicate 32 x07) = Ok (replicate 32 x07) ∧
  visit_seq (Ok <$> replicate 32 x07) = Ok (replicate 32 x07).
Proof. apply (proj1 (token_visitor (replicate 32 x07))). reflexivity. Defined.
