(* ===== verification/Config.v ===== *)
(** * Server configuration

    [crates/tuyau-server/src/config.rs]: the configuration records and their
    validation, in static and in dynamic mode, and [error.rs::ConfigError].

    [validate] is the code, a sequence of loops that return at the first problem;
    [checked_config] is what it checks, and [documented_config] what the
    documentation of the configuration asks for.  The theorems relate the two, and
    show that each error names a real problem of the configuration. *)

From stdpp Require Import pretty.
From S2P Require Import Prelude Bytes Protocol.

Local Open Scope string_scope.
Local Open Scope list_scope.

(** ** Data *)

(** [std::net::SocketAddr] and [std::path::PathBuf], by their text. *)
Definition SocketAddr : Type := string.
Definition PathBuf : Type := string.

Record AcmeSection := {
  contact : string;
  cache_dir : PathBuf;
  production : bool
}.

Inductive Balance :=
| LastWriteWins
| RoundRobin.

#[export] Instance Balance_eq_dec : EqDecision Balance.
Proof. solve_decision. Defined.

Record ClientEntry := {
  ce_name : string;
  ce_token : list byte;
  ce_balance : Balance
}.

Record HostnameEntry := {
  he_host : string;
  he_client : string;
  he_tls_mode : TlsMode;
  he_tls_cert_file : option PathBuf;
  he_tls_key_file : option PathBuf
}.

Record UpstreamEntry := {
  ue_host : string;
  ue_local_addr : option SocketAddr;
  ue_local_socket : option PathBuf;
  ue_tls_mode : TlsMode;
  ue_tls_cert_file : option PathBuf;
  ue_tls_key_file : option PathBuf
}.

Record ServerConfig := {
  listen_addr : SocketAddr;
  public_listen_addr : option SocketAddr;
  tunnel_cert_dir : option PathBuf;
  clients : list ClientEntry;
  hostnames : list HostnameEntry;
  acme : option AcmeSection;
  tls_cert_file : option PathBuf;
  tls_key_file : option PathBuf;
  upstreams : list UpstreamEntry;
  max_public_connections : option Z;
  error_502_file : option PathBuf;
  client_ca_file : option PathBuf
}.

Inductive ConfigError :=
| NoClients
| Parse (msg : string)
| DuplicateClient (name : string)
| DuplicateHost (host : string)
| UnknownClient (host client : string)
| AcmeContact (contact : string)
| UpstreamTargetError (host : string)
| HostCertPair (host : string)
| HostCertPassthrough (host : string)
| HostPattern (host : string).

(** ** Validation *)

(** [for x in l { check(x)?; }] *)
Fixpoint for_each {A E} (check : A → result E ()) (l : list A) : result E () :=
  match l with
  | [] => Ok ()
  | x :: l => _ ← check x; for_each check l
  end.

(** [for x in l { if !seen.insert(key(x)) { return Err(dup(key(x))); } }], with
    the set as it is after the loop. *)
Fixpoint insert_all {A} (key : A → string) (dup : string → ConfigError)
    (seen : gset string) (l : list A) : result ConfigError (gset string) :=
  match l with
  | [] => Ok seen
  | x :: l =>
      if decide (key x ∈ seen) then Err (dup (key x))
      else insert_all key dup ({[key x]} ∪ seen) l
  end.

Definition validate_upstream_targets (c : ServerConfig) : result ConfigError () :=
  for_each (λ u,
    if Bool.eqb (is_some (ue_local_addr u)) (is_some (ue_local_socket u))
    then Err (UpstreamTargetError (ue_host u)) else Ok ()) (upstreams c).

(** One hostname, one upstream, of [validate_host_patterns]. *)
Definition check_hostname_pattern (h : HostnameEntry) : result ConfigError () :=
  if contains "*"%char (he_host h) then Err (HostPattern (he_host h)) else Ok ().

Definition check_upstream_pattern (u : UpstreamEntry) : result ConfigError () :=
  if bool_decide (ue_host u = "*") then Ok ()
  else
    let name := default (ue_host u) (strip_prefix "*." (ue_host u)) in
    if is_empty name || contains "*"%char name then Err (HostPattern (ue_host u)) else Ok ().

Definition validate_host_patterns (c : ServerConfig) : result ConfigError () :=
  _ ← for_each check_hostname_pattern (hostnames c);
  for_each check_upstream_pattern (upstreams c).

(** [host_certs()]: the hostname entries, then the upstream entries. *)
Definition host_certs (c : ServerConfig) :
    list (string * TlsMode * option PathBuf * option PathBuf) :=
  ((λ h, (he_host h, he_tls_mode h, he_tls_cert_file h, he_tls_key_file h)) <$> hostnames c) ++
  ((λ u, (ue_host u, ue_tls_mode u, ue_tls_cert_file u, ue_tls_key_file u)) <$> upstreams c).

Definition check_host_cert (e : string * TlsMode * option PathBuf * option PathBuf) :
    result ConfigError () :=
  let '(host, mode, cert, key) := e in
  if negb (Bool.eqb (is_some cert) (is_some key))
  then Err (HostCertPair host)
  else if is_some cert && bool_decide (mode = Passthrough)
  then Err (HostCertPassthrough host)
  else Ok ().

Definition validate_host_certs (c : ServerConfig) : result ConfigError () :=
  for_each check_host_cert (host_certs c).

Definition validate_acme (c : ServerConfig) : result ConfigError () :=
  match acme c with
  | Some a => if starts_with "mailto:" (contact a) then Ok () else Err (AcmeContact (contact a))
  | None => Ok ()
  end.

Definition validate (c : ServerConfig) : result ConfigError () :=
  if is_nil (clients c) && is_nil (upstreams c) then Err NoClients
  else
    _ ← insert_all ce_name DuplicateClient ∅ (clients c);
    seen_hosts ← insert_all he_host DuplicateHost ∅ (hostnames c);
    _ ← insert_all ue_host DuplicateHost seen_hosts (upstreams c);
    _ ← validate_upstream_targets c;
    _ ← validate_host_patterns c;
    _ ← validate_host_certs c;
    let known_clients := collect_set (ce_name <$> clients c) in
    _ ← for_each (λ h,
          if decide (he_client h ∈ known_clients) then Ok ()
          else Err (UnknownClient (he_host h) (he_client h))) (hostnames c);
    validate_acme c.

Definition validate_dynamic (c : ServerConfig) : result ConfigError () :=
  _ ← insert_all ue_host DuplicateHost ∅ (upstreams c);
  _ ← validate_upstream_targets c;
  _ ← validate_host_patterns c;
  _ ← validate_host_certs c;
  validate_acme c.

(** [deserialize_token_hex] after the string is read; [hex::decode] is the
    library's, with its error by its display string. *)
Definition deserialize_token_hex (hex_decode : string → result string (list byte))
    (s : string) : result string (list byte) :=
  bytes ← map_err (λ e, "token: invalid hex: " +:+ e) (hex_decode s);
  if decide (length bytes = 32)%nat then Ok bytes
  else Err ("token: expected 32 bytes (64 hex chars), got " +:+
            pretty (length bytes) +:+ " bytes").

(** ** What a valid configuration is, and what is checked *)

(** A name: not empty, no wildcard. *)
Definition plain_name (s : string) : Prop := s ≠ "" ∧ contains "*"%char s = false.

(** An upstream host: a name, [*.name] or [*]. *)
Definition upstream_pattern (s : string) : Prop :=
  s = "*" ∨ plain_name s ∨ ∃ name, s = "*." +:+ name ∧ plain_name name.

(** Exactly one of [local_addr] and [local_socket]. *)
Definition one_target (u : UpstreamEntry) : Prop :=
  (∃ a, ue_local_addr u = Some a ∧ ue_local_socket u = None) ∨
  (∃ p, ue_local_addr u = None ∧ ue_local_socket u = Some p).

(** A certificate comes with its key, and never in passthrough mode. *)
Definition cert_ok (e : string * TlsMode * option PathBuf * option PathBuf) : Prop :=
  let '(_, mode, cert, key) := e in
  (cert = None ∧ key = None) ∨ (∃ cf kf, cert = Some cf ∧ key = Some kf ∧ mode ≠ Passthrough).

(** What both modes check. *)
Record valid_static_parts (c : ServerConfig) : Prop := {
  vs_targets : Forall one_target (upstreams c);
  vs_hostnames : Forall (λ h, contains "*"%char (he_host h) = false) (hostnames c);
  vs_upstreams : Forall (λ u, upstream_pattern (ue_host u)) (upstreams c);
  vs_certs : Forall cert_ok (host_certs c);
  vs_acme : ∀ a, acme c = Some a → ∃ addr, contact a = "mailto:" +:+ addr
}.

(** What [validate] checks. *)
Record checked_config (c : ServerConfig) : Prop := {
  vc_routes : clients c ≠ [] ∨ upstreams c ≠ [];
  vc_clients : NoDup (ce_name <$> clients c);
  vc_hosts : NoDup ((he_host <$> hostnames c) ++ (ue_host <$> upstreams c));
  vc_parts : valid_static_parts c;
  vc_known : ∀ h, h ∈ hostnames c → he_client h ∈ (ce_name <$> clients c)
}.

Record valid_dynamic (c : ServerConfig) : Prop := {
  vd_hosts : NoDup (ue_host <$> upstreams c);
  vd_parts : valid_static_parts c
}.

(** What the documentation of the fields and of the checks asks for: there is
    something to route; client names are unique; a host, which is a DNS name and so
    has no letter case, is in one entry only; a tunnel hostname is a name, an
    upstream host a name, [*.name] or [*], with exactly one target; an entry's
    certificate comes with its key and in a terminating mode, and the server-wide
    certificate with its key; a hostname is bound to a known client; the ACME
    contact is a [mailto:]. *)
Record documented_config (c : ServerConfig) : Prop := {
  dc_routes : clients c ≠ [] ∨ upstreams c ≠ [];
  dc_clients : NoDup (ce_name <$> clients c);
  dc_hosts : NoDup (to_ascii_lowercase <$> ((he_host <$> hostnames c) ++ (ue_host <$> upstreams c)));
  dc_hostnames : Forall (λ h, plain_name (he_host h)) (hostnames c);
  dc_upstreams : Forall (λ u, upstream_pattern (ue_host u)) (upstreams c);
  dc_targets : Forall one_target (upstreams c);
  dc_certs : Forall cert_ok (host_certs c);
  dc_server_cert : is_Some (tls_cert_file c) ↔ is_Some (tls_key_file c);
  dc_known : ∀ h, h ∈ hostnames c → he_client h ∈ (ce_name <$> clients c);
  dc_acme : ∀ a, acme c = Some a → ∃ addr, contact a = "mailto:" +:+ addr
}.

(** The three things [validate] does not look at are in order. *)
Record unchecked_parts_ok (c : ServerConfig) : Prop := {
  uc_case : Forall (λ h, to_ascii_lowercase h = h) ((he_host <$> hostnames c) ++ (ue_host <$> upstreams c));
  uc_empty : Forall (λ h, he_host h ≠ "") (hostnames c);
  uc_server_cert : is_Some (tls_cert_file c) ↔ is_Some (tls_key_file c)
}.

(** What an error says of the configuration. *)
Definition error_reason (c : ServerConfig) (e : ConfigError) : Prop :=
  match e with
  | NoClients => clients c = [] ∧ upstreams c = []
  | Parse _ => False
  | DuplicateClient n => ∃ l1 l2, (ce_name <$> clients c) = l1 ++ n :: l2 ∧ n ∈ l1
  | DuplicateHost h =>
      ∃ l1 l2, (he_host <$> hostnames c) ++ (ue_host <$> upstreams c) = l1 ++ h :: l2 ∧ h ∈ l1
  | UnknownClient h n =>
      (n ∉ (ce_name <$> clients c)) ∧ (∃ e, e ∈ hostnames c ∧ he_host e = h ∧ he_client e = n)
  | AcmeContact s =>
      (∃ a, acme c = Some a ∧ contact a = s) ∧ ¬ ∃ addr, s = "mailto:" +:+ addr
  | UpstreamTargetError h => ∃ u, u ∈ upstreams c ∧ ue_host u = h ∧ ¬ one_target u
  | HostCertPair h =>
      ∃ m cf kf, (h, m, cf, kf) ∈ host_certs c ∧ is_some cf ≠ is_some kf
  | HostCertPassthrough h =>
      ∃ cf kf, (h, Passthrough, Some cf, kf) ∈ host_certs c
  | HostPattern h =>
      (∃ e, e ∈ hostnames c ∧ he_host e = h ∧ contains "*"%char h = true) ∨
      (∃ u, u ∈ upstreams c ∧ ue_host u = h ∧ ¬ upstream_pattern h)
  end.

(** ** Lemmas on the loops *)

Lemma for_each_Ok {A E} (check : A → result E ()) l :
  for_each check l = Ok () ↔ Forall (λ x, check x = Ok ()) l.
Proof.
  induction l as [|x l IH]; simpl; [done|].
  rewrite Forall_cons, <- IH, result_bind_Ok. split; [|naive_solver].
  intros ([] & ? & ?). done.
Qed.

Lemma for_each_Err {A E} (check : A → result E ()) l e :
  for_each check l = Err e → ∃ x, x ∈ l ∧ check x = Err e.
Proof.
  induction l as [|x l IH]; simpl; [done|].
  rewrite result_bind_Err. intros [Hx|([] & _ & Hl)].
  - exists x. split; [left|done].
  - destruct (IH Hl) as (y & ? & ?). exists y. split; [by right|done].
Qed.

Section insert_all.
Context {A : Type} (key : A → string) (dup : string → ConfigError).

Lemma insert_all_Ok seen l s :
  insert_all key dup seen l = Ok s ↔
  NoDup (key <$> l) ∧ (∀ k, k ∈ (key <$> l) → k ∉ seen) ∧ s = list_to_set (key <$> l) ∪ seen.
Proof.
  revert seen. induction l as [|x l IH]; intros seen; simpl.
  - rewrite union_empty_l_L. split; [|by intros (_ & _ & ->)].
    intros [= <-]. split_and!; [constructor|set_solver|done].
  - case_decide as Hin; simpl.
    + split; [done|]. intros (_ & Hk & _). destruct (Hk (key x)); [left|done].
    + rewrite IH, NoDup_cons. split.
      * intros (? & Hk & ->). split_and!; set_solver.
      * intros ([? ?] & Hk & ->). split_and!; set_solver.
Qed.

Lemma insert_all_Err seen l e :
  insert_all key dup seen l = Err e →
  ∃ k l1 l2, e = dup k ∧ (key <$> l) = l1 ++ k :: l2 ∧ (k ∈ seen ∨ k ∈ l1).
Proof.
  revert seen. induction l as [|x l IH]; intros seen; csimpl; [done|].
  case_decide as Hin.
  - intros [= <-]. exists (key x), [], (key <$> l). auto.
  - intros (k & l1 & l2 & -> & Hl & Hk)%IH. exists k, (key x :: l1), l2.
    rewrite Hl. split_and!; [done..|]. set_solver.
Qed.
End insert_all.

(** ** Lemmas on the single checks *)

Lemma check_target_Ok u :
  (if Bool.eqb (is_some (ue_local_addr u)) (is_some (ue_local_socket u))
   then Err (UpstreamTargetError (ue_host u)) else Ok ()) = Ok () ↔ one_target u.
Proof.
  unfold one_target.
  destruct (ue_local_addr u), (ue_local_socket u); simpl; naive_solver.
Qed.

Lemma is_empty_spec s : is_empty s = true ↔ s = "".
Proof. by destruct s. Qed.

Lemma plain_name_spec s :
  is_empty s || contains "*"%char s = false ↔ plain_name s.
Proof.
  unfold plain_name. rewrite orb_false_iff, <- is_empty_spec.
  destruct (is_empty s); intuition congruence.
Qed.

Lemma check_upstream_pattern_Ok u :
  check_upstream_pattern u = Ok () ↔ upstream_pattern (ue_host u).
Proof.
  unfold check_upstream_pattern, upstream_pattern.
  case_bool_decide as Hstar; [naive_solver|].
  destruct (strip_prefix "*." (ue_host u)) as [name|] eqn:E; simpl.
  - apply strip_prefix_Some in E. rewrite E.
    transitivity (plain_name name);
      [rewrite <- plain_name_spec; by destruct (is_empty name || contains "*"%char name)|].
    split; [by eauto|]. intros [H|[[_ H]|(name' & H & ?)]]; [done|done|].
    rewrite !append_cons, !append_nil_l in H. by simplify_eq.
  - transitivity (plain_name (ue_host u)).
    { rewrite <- plain_name_spec.
      by destruct (is_empty (ue_host u) || contains "*"%char (ue_host u)). }
    split; [by eauto|]. intros [H|[H|(name & H & ?)]]; [done|done|].
    apply strip_prefix_Some in H. congruence.
Qed.

Lemma check_host_cert_Ok e : check_host_cert e = Ok () ↔ cert_ok e.
Proof.
  destruct e as [[[host mode] cert] key]. unfold check_host_cert, cert_ok.
  destruct cert, key; simpl; try case_bool_decide; naive_solver.
Qed.

Lemma validate_acme_Ok c :
  validate_acme c = Ok () ↔ ∀ a, acme c = Some a → ∃ addr, contact a = "mailto:" +:+ addr.
Proof.
  unfold validate_acme, starts_with. destruct (acme c) as [a|]; [|naive_solver].
  destruct (strip_prefix "mailto:" (contact a)) as [t|] eqn:E.
  - apply strip_prefix_Some in E. naive_solver.
  - split; [done|]. intros H. destruct (H a eq_refl) as [t Ht].
    apply strip_prefix_Some in Ht. congruence.
Qed.

(** The checks the two modes share. *)
Lemma static_parts_Ok c :
  (validate_upstream_targets c = Ok () ∧ validate_host_patterns c = Ok () ∧
   validate_host_certs c = Ok () ∧ validate_acme c = Ok ()) ↔ valid_static_parts c.
Proof.
  unfold validate_upstream_targets, validate_host_patterns, validate_host_certs.
  rewrite result_bind_Ok, validate_acme_Ok. setoid_rewrite for_each_Ok.
  setoid_rewrite check_target_Ok. setoid_rewrite check_upstream_pattern_Ok.
  setoid_rewrite check_host_cert_Ok.
  assert (Forall (λ h, check_hostname_pattern h = Ok ()) (hostnames c) ↔
          Forall (λ h, contains "*"%char (he_host h) = false) (hostnames c)) as Hh.
  { apply Forall_iff. intros h. unfold check_hostname_pattern. by destruct (contains _ _). }
  split.
  - intros (? & ([] & H1%for_each_Ok%Hh & ?) & ? & ?). by constructor.
  - intros []. split_and!; try done. exists (). by rewrite for_each_Ok, Hh.
Qed.

Lemma known_clients_Ok c :
  for_each (λ h, if decide (he_client h ∈ collect_set (ce_name <$> clients c)) then Ok ()
                 else Err (UnknownClient (he_host h) (he_client h))) (hostnames c) = Ok () ↔
  ∀ h, h ∈ hostnames c → he_client h ∈ (ce_name <$> clients c).
Proof.
  rewrite for_each_Ok, Forall_forall.
  split; intros H h Hh; specialize (H h Hh); case_decide as Hd;
    rewrite elem_of_collect_set in Hd; done.
Qed.

Lemma duplicate_hosts c seen e :
  insert_all he_host DuplicateHost ∅ (hostnames c) = Ok seen →
  insert_all ue_host DuplicateHost seen (upstreams c) = Err e →
  error_reason c e.
Proof.
  intros (_ & _ & ->)%insert_all_Ok (k & l1 & l2 & -> & Hl & Hk)%insert_all_Err.
  exists ((he_host <$> hostnames c) ++ l1), l2. rewrite Hl, app_assoc. split; [done|].
  set_solver.
Qed.

Lemma static_parts_Err c e :
  validate_upstream_targets c = Err e ∨ validate_host_patterns c = Err e ∨
  validate_host_certs c = Err e ∨ validate_acme c = Err e → error_reason c e.
Proof.
  unfold validate_upstream_targets, validate_host_patterns, validate_host_certs.
  rewrite result_bind_Err. intros [H|[[H|([] & _ & H)]|[H|H]]].
  - apply for_each_Err in H as (u & Hu & H).
    assert (¬ one_target u) as Hnot by (rewrite <- check_target_Ok; congruence).
    destruct (Bool.eqb _ _); simplify_eq. by exists u.
  - apply for_each_Err in H as (h & Hh & H). unfold check_hostname_pattern in H.
    destruct (contains _ _) eqn:E; simplify_eq. left. by exists h.
  - apply for_each_Err in H as (u & Hu & H).
    assert (¬ upstream_pattern (ue_host u)) as Hnot
      by (rewrite <- check_upstream_pattern_Ok; congruence).
    assert (e = HostPattern (ue_host u)) as ->
      by (unfold check_upstream_pattern in H; case_bool_decide; [done|]; by case_match; simplify_eq).
    right. by exists u.
  - apply for_each_Err in H as ([[[host mode] cert] key] & Hin & H).
    unfold check_host_cert in H. destruct (negb _) eqn:E; simplify_eq.
    + exists mode, cert, key. split; [done|]. by destruct cert, key.
    + destruct cert as [cf|]; [|done]. simpl in H. case_bool_decide; simplify_eq. by exists cf, key.
  - unfold validate_acme, starts_with in H. destruct (acme c) as [a|] eqn:Ea; [|done].
    destruct (strip_prefix _ _) eqn:E; simplify_eq. split; [by exists a|].
    intros [addr Haddr%strip_prefix_Some]. congruence.
Qed.

Lemma validate_Ok c : validate c = Ok () ↔ checked_config c.
Proof.
  assert (is_nil (clients c) && is_nil (upstreams c) = false ↔
          clients c ≠ [] ∨ upstreams c ≠ []) as Hnil.
  { destruct (clients c), (upstreams c); simpl; naive_solver. }
  unfold validate; cbv zeta. destruct (is_nil _ && _).
  { split; [done|]. intros [Hr]. by apply Hnil in Hr. }
  destruct Hnil as [Hr _]. specialize (Hr eq_refl).
  split.
  - intros (s1 & (? & _ & _)%insert_all_Ok & (s2 & (? & _ & ->)%insert_all_Ok &
      (s3 & (? & Hd & _)%insert_all_Ok & ([] & ? & ([] & ? & ([] & ? &
      ([] & Hk & ?)%result_bind_Ok)%result_bind_Ok)%result_bind_Ok)%result_bind_Ok
      )%result_bind_Ok)%result_bind_Ok)%result_bind_Ok.
    split; [done|done| |by apply static_parts_Ok|by apply known_clients_Ok].
    apply NoDup_app. set_solver.
  - intros [_ ? [? [Hd ?]]%NoDup_app (? & ? & ? & ?)%static_parts_Ok ?].
    apply result_bind_Ok; eexists; split; [apply insert_all_Ok; by split_and!; [|set_solver|]|].
    apply result_bind_Ok; eexists; split; [apply insert_all_Ok; by split_and!; [|set_solver|]|].
    apply result_bind_Ok; eexists; split; [apply insert_all_Ok; split_and!; [done|set_solver|done]|].
    do 3 (apply result_bind_Ok; exists (); split; [done|]).
    apply result_bind_Ok; exists (); split; [by apply known_clients_Ok|done].
Qed.

Lemma validate_Err c e : validate c = Err e → error_reason c e.
Proof.
  unfold validate. destruct (is_nil (clients c) && is_nil (upstreams c)) eqn:Hnil.
  { intros [= <-]. simpl. by destruct (clients c), (upstreams c). }
  rewrite result_bind_Err. intros [H|(s1 & _ & H)].
  { apply insert_all_Err in H as (k & l1 & l2 & -> & Hl & [?|?]); [set_solver|]. by exists l1, l2. }
  rewrite result_bind_Err in H. destruct H as [H|(seen & Hseen & H)].
  { apply insert_all_Err in H as (k & l1 & l2 & -> & Hl & [?|?]); [set_solver|].
    exists l1, (l2 ++ (ue_host <$> upstreams c)). by rewrite Hl, <- app_assoc. }
  rewrite result_bind_Err in H. destruct H as [H|(s2 & _ & H)].
  { by eapply duplicate_hosts. }
  do 3 (rewrite result_bind_Err in H; destruct H as [H|(_ & _ & H)];
        [by apply static_parts_Err; auto|]).
  cbv zeta in H. rewrite result_bind_Err in H.
  destruct H as [H|(_ & _ & H)]; [|by apply static_parts_Err; auto].
  apply for_each_Err in H as (h & Hh & H). case_decide as Hd; simplify_eq.
  rewrite elem_of_collect_set in Hd. split; [done|]. by exists h.
Qed.

Lemma validate_dynamic_Ok c : validate_dynamic c = Ok () ↔ valid_dynamic c.
Proof.
  unfold validate_dynamic. split.
  - intros (s1 & (? & _ & _)%insert_all_Ok & ([] & ? & ([] & ? & ([] & ? &
      ?)%result_bind_Ok)%result_bind_Ok)%result_bind_Ok)%result_bind_Ok.
    split; [done|by apply static_parts_Ok].
  - intros [? (? & ? & ? & ?)%static_parts_Ok].
    apply result_bind_Ok; eexists; split; [apply insert_all_Ok; by split_and!; [|set_solver|]|].
    do 3 (apply result_bind_Ok; exists (); split; [done|]). done.
Qed.

Lemma validate_dynamic_Err c e : validate_dynamic c = Err e → error_reason c e.
Proof.
  unfold validate_dynamic. rewrite result_bind_Err. intros [H|(_ & _ & H)].
  { apply insert_all_Err in H as (k & l1 & l2 & -> & Hl & [?|?]); [set_solver|].
    exists ((he_host <$> hostnames c) ++ l1), l2. rewrite Hl, app_assoc. set_solver. }
  do 3 (rewrite result_bind_Err in H; destruct H as [H|(_ & _ & H)];
        [by apply static_parts_Err; auto|]).
  by apply static_parts_Err; auto.
Qed.

(** ** Theorems *)

Lemma documented_checked c : documented_config c → checked_config c.
Proof.
  intros [? ? Hh Hn ? ? ? ? ? ?]. split; try done; [by eapply NoDup_fmap_1|]. split; try done.
  eapply Forall_impl; [exact Hn|]. by intros h [_ ?].
Qed.

Lemma checked_documented c : checked_config c → unchecked_parts_ok c → documented_config c.
Proof.
  intros [? ? Hh [] ?] [Hcase Hempty ?]. split; try done.
  - replace (to_ascii_lowercase <$> _) with ((he_host <$> hostnames c) ++ (ue_host <$> upstreams c)); [done|].
    rewrite <- (list_fmap_id ((he_host <$> hostnames c) ++ (ue_host <$> upstreams c))) at 1.
    apply list_fmap_ext. intros i h Hi. rewrite Forall_lookup in Hcase. by rewrite (Hcase i h Hi).
  - rewrite Forall_forall in *. intros h Hin. by split; [apply Hempty|apply vs_hostnames0].
Qed.


(** Dynamic validation accepts exactly the configurations whose static
    parts are valid, its errors are true of the configuration, and what static
    validation accepts it accepts. *)
Theorem validate_dynamic_correct c :
  (validate_dynamic c = Ok () ↔ valid_dynamic c) ∧
  (∀ e, validate_dynamic c = Err e → error_reason c e) ∧
  (validate c = Ok () → validate_dynamic c = Ok ()).
Proof.
  split_and!; [apply validate_dynamic_Ok|apply validate_dynamic_Err|].
  intros [_ _ [_ [_ ?]]%NoDup_app ? _]%validate_Ok. apply validate_dynamic_Ok. by split.
Qed.

(** ** Witnesses *)

Definition demo_config : ServerConfig := {|
  listen_addr := "0.0.0.0:7835";
  public_listen_addr := Some "0.0.0.0:443";
  tunnel_cert_dir := None;
  clients := [{| ce_name := "alice"; ce_token := replicate 32 x07; ce_balance := LastWriteWins |};
              {| ce_name := "bob"; ce_token := replicate 32 x08; ce_balance := RoundRobin |}];
  hostnames := [{| he_host := "a.example.com"; he_client := "alice"; he_tls_mode := Terminated;
                   he_tls_cert_file := None; he_tls_key_file := None |};
                {| he_host := "b.example.com"; he_client := "bob"; he_tls_mode := Passthrough;
                   he_tls_cert_file := None; he_tls_key_file := None |}];
  acme := None;
  tls_cert_file := None;
  tls_key_file := None;
  upstreams := [{| ue_host := "*.example.com"; ue_local_addr := Some "127.0.0.1:8443";
                   ue_local_socket := None; ue_tls_mode := Terminated;
                   ue_tls_cert_file := None; ue_tls_key_file := None |}];
  max_public_connections := None;
  error_502_file := None;
  client_ca_file := None
|}.

Example demo_config_valid : validate demo_config = Ok ().
Proof. vm_compute. reflexivity. Qed.


(** What [validate] does not look at: an empty tunnel hostname, a server-wide
    certificate without its key, and a host that is a tunnel route and an upstream
    in another letter case. *)
Definition demo_unchecked (host uhost : string) (cert : option PathBuf) : ServerConfig := {|
  listen_addr := "0.0.0.0:7835"; public_listen_addr := None; tunnel_cert_dir := None;
  clients := clients demo_config;
  hostnames := [{| he_host := host; he_client := "alice"; he_tls_mode := Terminated;
                   he_tls_cert_file := None; he_tls_key_file := None |}];
  acme := None; tls_cert_file := cert; tls_key_file := None;
  upstreams := [{| ue_host := uhost; ue_local_addr := Some "127.0.0.1:8443"; ue_local_socket := None;
                   ue_tls_mode := Terminated; ue_tls_cert_file := None; ue_tls_key_file := None |}];
  max_public_connections := None; error_502_file := None; client_ca_file := None
|}.

Example validate_unchecked :
  validate (demo_unchecked "" "b.test" None) = Ok () ∧
  validate (demo_unchecked "a.test" "b.test" (Some "cert.pem")) = Ok () ∧
  validate (demo_unchecked "A.test" "a.test" None) = Ok ().
Proof. vm_compute. split_and!; reflexivity. Qed.

Example unchecked_not_documented :
  ¬ documented_config (demo_unchecked "" "b.test" None) ∧
  ¬ documented_config (demo_unchecked "a.test" "b.test" (Some "cert.pem")) ∧
  ¬ documented_config (demo_unchecked "A.test" "a.test" None).
Proof.
  split_and!; intros [? ? Hh Hn ? ? ? Hc ? ?].
  - by apply Forall_cons in Hn as [[Hn _] _].
  - destruct (proj1 Hc (ex_intro _ _ eq_refl)) as [? [=]].
  - vm_compute in Hh. apply NoDup_cons in Hh as [Hh _]. destruct Hh. left.
Qed.

Lemma validate_dynamic_correct_witness : validate_dynamic demo_config = Ok ().
Proof.
  apply (proj2 (proj2 (validate_dynamic_correct demo_config))). vm_compute. reflexivity.
Defined.
