(* ===== verification/Routes.v ===== *)
(** * The routing table

    [crates/tuyau-server/src/routes.rs]: which tunnel, or which local upstream,
    serves a hostname.

    The table is one record, [RoutingTable]; the operations that take [&self]
    and lock are functions from a table to a table (each holds the lock for its
    whole body, so it is one atomic step).  [lookup] is the exception: it holds
    only the read lock and moves an atomic cursor, so two lookups may interleave;
    it is one step here, and [Lookups] takes it apart, access by access, and
    relates the two. *)

From stdpp Require Import sorting.
From S2P Require Import Prelude Bytes Protocol Config.

Local Open Scope string_scope.
Local Open Scope list_scope.
Local Open Scope nat_scope.

(** ** Data *)

(** [quinn::Connection]: a handle.  Two handles are the same connection exactly
    when their [stable_id]s are equal, so a handle is its id. *)
Abbreviation Connection := nat.
Definition stable_id (c : Connection) : nat := c.

Record RouteEntry := {
  re_client_name : string;
  re_tls_mode : TlsMode;
  re_conn : Connection
}.

Inductive UpstreamTarget :=
| Tcp (addr : SocketAddr)
| Unix (path : PathBuf).

Inductive Route :=
| Tunnel (e : RouteEntry)
| Local_ (target : UpstreamTarget).

Record LocalUpstream := {
  lu_target : UpstreamTarget;
  lu_tls_mode : TlsMode
}.

(** [cursor] is an [AtomicUsize]. *)
Record HostRoutes := {
  hr_client_name : string;
  hr_tls_mode : TlsMode;
  hr_conns : list Connection;
  hr_cursor : Z
}.

Record RoutingTable := {
  inner : gmap string HostRoutes;
  local : gmap string LocalUpstream;
  tunnel_hosts : gset string;
  terminated : gset string;
  offload : gset string
}.

Definition set_inner (m : gmap string HostRoutes) (t : RoutingTable) : RoutingTable :=
  {| inner := m; local := local t; tunnel_hosts := tunnel_hosts t;
     terminated := terminated t; offload := offload t |}.

(** ** Patterns and construction *)

Definition host_patterns (host : string) : list string :=
  let patterns := [host] in
  let patterns :=
    match split_once "."%char host with
    | Some (_, parent) => patterns ++ ["*." +:+ parent]
    | None => patterns
    end in
  patterns ++ ["*"].

(** [matches!(m, TlsMode::Terminated | TlsMode::TlsOffload)] *)
Definition terminates (m : TlsMode) : bool :=
  match m with Terminated | TlsOffload => true | Passthrough => false end.

(** The closure of [from_config] that resolves one upstream entry. *)
Definition upstream_of (u : UpstreamEntry) : option (string * LocalUpstream) :=
  target ← match ue_local_socket u, ue_local_addr u with
           | Some path, _ => Some (Unix path)
           | None, Some addr => Some (Tcp addr)
           | None, None => None
           end;
  Some (to_ascii_lowercase (ue_host u),
        {| lu_target := target; lu_tls_mode := ue_tls_mode u |}).

(** The lowercase hosts, of hostnames then upstreams, whose mode satisfies [p]. *)
Definition hosts_where (p : TlsMode → bool) (hs : list HostnameEntry) (us : list UpstreamEntry) :
    gset string :=
  collect_set
    (((λ h, to_ascii_lowercase (he_host h)) <$> filter (λ h, p (he_tls_mode h) = true) hs) ++
     ((λ u, to_ascii_lowercase (ue_host u)) <$> filter (λ u, p (ue_tls_mode u) = true) us)).

Definition from_config (hs : list HostnameEntry) (us : list UpstreamEntry) : RoutingTable :=
  {| inner := ∅;
     local := collect_map (omap upstream_of us);
     tunnel_hosts := collect_set ((λ h, to_ascii_lowercase (he_host h)) <$> hs);
     terminated := hosts_where terminates hs us;
     offload := hosts_where (λ m, bool_decide (m = TlsOffload)) hs us |}.

(** ** Queries *)

(** [wildcard_upstream], of a lowercase host. *)
Definition wildcard_upstream (t : RoutingTable) (host : string) : option LocalUpstream :=
  let exact :=
    is_some (local t !! host) || bool_decide (host ∈ tunnel_hosts t) ||
    bool_decide (host ∈ terminated t) || is_some (inner t !! host) in
  if exact then None
  else find_map (λ pattern, local t !! pattern) (drop 1 (host_patterns host)).

Definition is_terminated (t : RoutingTable) (host : string) : bool :=
  let host := to_ascii_lowercase host in
  if bool_decide (host ∈ terminated t) then true
  else match wildcard_upstream t host with
       | Some up => terminates (lu_tls_mode up)
       | None => false
       end.

Definition is_offload (t : RoutingTable) (host : string) : bool :=
  let host := to_ascii_lowercase host in
  if bool_decide (host ∈ offload t) then true
  else match wildcard_upstream t host with
       | Some up => bool_decide (lu_tls_mode up = TlsOffload)
       | None => false
       end.

Definition routes_to_upstream (t : RoutingTable) (host : string) : bool :=
  let host := to_ascii_lowercase host in
  is_some (local t !! host) || is_some (wildcard_upstream t host).

(** [set_terminated(full)] *)
Definition set_terminated (full : list string) (t : RoutingTable) : RoutingTable :=
  {| inner := inner t; local := local t; tunnel_hosts := tunnel_hosts t;
     terminated := collect_set (to_ascii_lowercase <$> full); offload := offload t |}.

(** ** Installing and removing tunnels *)

(** The body of the loop of [install]: one granted host, with the map and the
    connections displaced so far. *)
Definition install_host (client_name : string) (balance : Balance) (conn : Connection)
    (st : gmap string HostRoutes * list Connection) (grant : string * TlsMode) :
    gmap string HostRoutes * list Connection :=
  let '(guard, displaced) := st in
  let '(host, tls_mode) := grant in
  let entry := default {| hr_client_name := client_name; hr_tls_mode := tls_mode;
                          hr_conns := []; hr_cursor := 0 |} (guard !! host) in
  let '(conns, displaced) :=
    if bool_decide (hr_client_name entry ≠ client_name)
    then ([], displaced ++ hr_conns entry)
    else (hr_conns entry, displaced) in
  let '(conns, displaced) :=
    match balance with
    | LastWriteWins =>
        ([conn], displaced ++ filter (λ c, stable_id c ≠ stable_id conn) conns)
    | RoundRobin =>
        (if existsb (λ c, bool_decide (stable_id c = stable_id conn)) conns
         then conns else conns ++ [conn], displaced)
    end in
  (<[host := {| hr_client_name := client_name; hr_tls_mode := tls_mode;
                hr_conns := conns; hr_cursor := hr_cursor entry |}]> guard, displaced).

Definition install (hosts : list (string * TlsMode)) (client_name : string) (balance : Balance)
    (conn : Connection) (t : RoutingTable) : RoutingTable * list Connection :=
  if is_nil hosts then (t, [])
  else
    let '(guard, displaced) :=
      foldl (install_host client_name balance conn) (inner t, []) hosts in
    (set_inner guard t, displaced).

(** The entry after [entry.conns.retain(..)], if it is retained. *)
Definition retain_conns (id : nat) (e : HostRoutes) : option HostRoutes :=
  let conns := filter (λ c, stable_id c ≠ id) (hr_conns e) in
  if is_nil conns then None
  else Some {| hr_client_name := hr_client_name e; hr_tls_mode := hr_tls_mode e;
               hr_conns := conns; hr_cursor := hr_cursor e |}.

Definition remove_conn (id : nat) (t : RoutingTable) : RoutingTable :=
  set_inner (omap (retain_conns id) (inner t)) t.

(** [for c in conns { if seen.insert(c.stable_id()) { out.push(c) } }] *)
Fixpoint push_unseen (conns : list Connection) (st : list Connection * gset nat) :
    list Connection * gset nat :=
  match conns with
  | [] => st
  | c :: conns =>
      let '(out, seen) := st in
      push_unseen conns
        (if decide (stable_id c ∈ seen) then (out, seen)
         else (out ++ [c], {[stable_id c]} ∪ seen))
  end.

(** [kick(client_name)]: the iteration order of the map is arbitrary; the order
    of [map_to_list] stands for it, and no claim depends on it. *)
Definition kick (client_name : string) (t : RoutingTable) : RoutingTable * list Connection :=
  let gone := filter (λ kv, hr_client_name kv.2 = client_name) (map_to_list (inner t)) in
  let '(conns, _) := foldl (λ st kv, push_unseen (hr_conns kv.2) st) ([], ∅) gone in
  (set_inner (filter (λ kv, hr_client_name kv.2 ≠ client_name) (inner t)) t, conns).

(** ** Lookup *)

(** The round-robin loop of [lookup], [k] rounds to go: the connection found
    and the cursor.  [closed c] is [c.close_reason().is_some()] at the time of
    the call. *)
Fixpoint next_live (closed : Connection → bool) (conns : list Connection) (k : nat) (cursor : Z) :
    partial Connection * Z :=
  match k with
  | O => (PNone, cursor)
  | S k =>
      let idx := (cursor mod Z.of_nat (length conns))%Z in
      let cursor := ((cursor + 1) mod usize_modulus)%Z in
      match conns !! Z.to_nat idx with
      | None => (PPanic, cursor)
      | Some conn => if closed conn then next_live closed conns k cursor else (PSome conn, cursor)
      end
  end.

Definition set_cursor (cursor : Z) (e : HostRoutes) : HostRoutes :=
  {| hr_client_name := hr_client_name e; hr_tls_mode := hr_tls_mode e;
     hr_conns := hr_conns e; hr_cursor := cursor |}.

Definition lookup (closed : Connection → bool) (host : string) (t : RoutingTable) :
    partial Route * RoutingTable :=
  let lowercase := to_ascii_lowercase host in
  let upstream :=
    match local t !! lowercase with
    | Some up => Some up
    | None => wildcard_upstream t lowercase
    end in
  match upstream with
  | Some up => (PSome (Local_ (lu_target up)), t)
  | None =>
      match inner t !! host with
      | None => (PNone, t)
      | Some entry =>
          let n := length (hr_conns entry) in
          if decide (n = 0) then (PNone, t)
          else
            let '(found, cursor) := next_live closed (hr_conns entry) n (hr_cursor entry) in
            (conn ← found;
             PSome (Tunnel {| re_client_name := hr_client_name entry;
                              re_tls_mode := hr_tls_mode entry;
                              re_conn := conn |}),
             set_inner (<[host := set_cursor cursor entry]> (inner t)) t)
      end
  end.

(** ** The active hostnames *)

(** [Vec::dedup]: drops consecutive repetitions. *)
Fixpoint dedup (l : list string) : list string :=
  match l with
  | x :: ((y :: _) as l') => if decide (x = y) then dedup l' else x :: dedup l'
  | l => l
  end.

Definition active_hostnames (t : RoutingTable) : list string :=
  let hosts := (map_to_list (inner t)).*1 ++ (map_to_list (local t)).*1 in
  dedup (merge_sort String.le hosts).

(** ** The invariant *)

(** [owner c]: the client that authenticated on connection [c].  A host's
    connections are distinct, all of the client that owns the host, and there is
    at least one; the cursor is a [usize]. *)
Definition host_wf (owner : Connection → string) (e : HostRoutes) : Prop :=
  hr_conns e ≠ [] ∧ NoDup (hr_conns e) ∧
  (∀ c, c ∈ hr_conns e → owner c = hr_client_name e) ∧
  (0 <= hr_cursor e < usize_modulus)%Z.

Definition table_wf (owner : Connection → string) (t : RoutingTable) : Prop :=
  map_Forall (λ _ e, host_wf owner e) (inner t).

(** The operations, in any order and number. *)
Inductive op_step (owner : Connection → string) : RoutingTable → RoutingTable → Prop :=
| step_install hosts balance conn t :
    op_step owner t (install hosts (owner conn) balance conn t).1
| step_remove_conn id t : op_step owner t (remove_conn id t)
| step_kick client t : op_step owner t (kick client t).1
| step_set_terminated full t : op_step owner t (set_terminated full t)
| step_lookup closed host t : op_step owner t (lookup closed host t).2.

(** The tables a server can have, from its configuration on. *)
Definition reachable (owner : Connection → string) (hs : list HostnameEntry)
    (us : list UpstreamEntry) (t : RoutingTable) : Prop :=
  rtc (op_step owner) (from_config hs us) t.

(** Two tables with the same configuration parts. *)
Definition same_config (t t' : RoutingTable) : Prop :=
  local t' = local t ∧ tunnel_hosts t' = tunnel_hosts t ∧ offload t' = offload t.

(** ** Lemmas on [install] *)

(** The new entry of a host, and what it displaces, from the old one. *)
Definition kept (client_name : string) (old : option HostRoutes) : list Connection :=
  match old with
  | Some e => if bool_decide (hr_client_name e = client_name) then hr_conns e else []
  | None => []
  end.

Definition installed (client_name : string) (balance : Balance) (conn : Connection)
    (mode : TlsMode) (old : option HostRoutes) : HostRoutes :=
  {| hr_client_name := client_name; hr_tls_mode := mode;
     hr_conns :=
       match balance with
       | LastWriteWins => [conn]
       | RoundRobin =>
           if decide (conn ∈ kept client_name old) then kept client_name old
           else kept client_name old ++ [conn]
       end;
     hr_cursor := default 0%Z (hr_cursor <$> old) |}.

Definition displaced_by (client_name : string) (balance : Balance) (conn : Connection)
    (old : option HostRoutes) : list Connection :=
  match old with
  | None => []
  | Some e =>
      if bool_decide (hr_client_name e = client_name) then
        match balance with
        | LastWriteWins => filter (λ c, c ≠ conn) (hr_conns e)
        | RoundRobin => []
        end
      else hr_conns e
  end.

Lemma existsb_conn conn conns :
  existsb (λ c, bool_decide (stable_id c = stable_id conn)) conns = true ↔ conn ∈ conns.
Proof.
  rewrite existsb_exists. setoid_rewrite bool_decide_eq_true. unfold stable_id.
  setoid_rewrite <- list_elem_of_In. naive_solver.
Qed.

Lemma install_host_eq client balance conn m d host mode :
  install_host client balance conn (m, d) (host, mode) =
  (<[host := installed client balance conn mode (m !! host)]> m,
   d ++ displaced_by client balance conn (m !! host)).
Proof.
  unfold install_host, installed, displaced_by, kept, stable_id.
  pose proof (existsb_conn conn) as Hex. unfold stable_id in Hex.
  destruct (m !! host) as [e|]; simpl.
  - repeat case_bool_decide; try done; destruct balance; rewrite ?app_nil_r; try done.
    + do 3 f_equal. specialize (Hex (hr_conns e)).
      destruct (existsb _ _), (decide _); naive_solver.
  - rewrite bool_decide_eq_false_2 by naive_solver. by destruct balance; rewrite ?app_nil_r.
Qed.

Section install.
Context (client : string) (balance : Balance) (conn : Connection).

Lemma installed_idem mode mode' old :
  installed client balance conn mode (Some (installed client balance conn mode' old)) =
  installed client balance conn mode old.
Proof.
  unfold installed at 1 3. f_equal. destruct balance; [done|].
  unfold kept at 1 2 3; simpl. rewrite bool_decide_eq_true_2 by done.
  repeat case_decide; set_solver.
Qed.

Lemma displaced_by_installed mode old :
  displaced_by client balance conn (Some (installed client balance conn mode old)) = [].
Proof.
  unfold displaced_by. simpl. rewrite bool_decide_eq_true_2 by done.
  destruct balance; [|done]. simpl. by rewrite filter_cons_False by naive_solver.
Qed.

(** The whole loop, in terms of the map it started from. *)
Lemma install_loop hosts m :
  let '(m', d') := foldl (install_host client balance conn) (m, []) hosts in
  (∀ h, h ∉ hosts.*1 → m' !! h = m !! h) ∧
  (∀ h, h ∈ hosts.*1 → ∃ mode, (h, mode) ∈ hosts ∧
     m' !! h = Some (installed client balance conn mode (m !! h))) ∧
  (∀ c, c ∈ d' ↔ ∃ h, h ∈ hosts.*1 ∧ c ∈ displaced_by client balance conn (m !! h)).
Proof.
  induction hosts as [|[h mode] hosts IH] using rev_ind; simpl; [set_solver|].
  rewrite foldl_app. destruct (foldl _ _ hosts) as [m1 d1]. cbn [foldl].
  rewrite install_host_eq. destruct IH as (Hout & Hin & Hd). rewrite fmap_app. csimpl.
  split_and!.
  - intros h' [Hh' Hne]%not_elem_of_app. rewrite list_elem_of_singleton in Hne.
    rewrite lookup_insert_ne by done. by apply Hout.
  - intros h' Hh'. destruct (decide (h = h')) as [<-|Hne].
    + exists mode. rewrite lookup_insert_eq, elem_of_app, list_elem_of_singleton.
      split; [by right|].
      destruct (decide (h ∈ hosts.*1)) as [Hh|Hh]; [|by rewrite Hout].
      destruct (Hin h Hh) as (mode' & _ & ->). by rewrite installed_idem.
    + rewrite lookup_insert_ne by done.
      apply elem_of_app in Hh' as [Hh'|Hh'%list_elem_of_singleton]; [|done].
      destruct (Hin h' Hh') as (mode' & ? & ?). exists mode'. rewrite elem_of_app. eauto.
  - intros c. rewrite elem_of_app, Hd. setoid_rewrite elem_of_app.
    setoid_rewrite list_elem_of_singleton.
    destruct (decide (h ∈ hosts.*1)) as [Hh|Hh].
    + destruct (Hin h Hh) as (mode' & _ & ->). rewrite displaced_by_installed.
      split; [intros [(h' & ? & ?)|[]%not_elem_of_nil]; eauto|].
      intros (h' & [?| ->] & ?); eauto.
    + rewrite Hout by done. split; [intros [(h' & ? & ?)|?]; eauto|].
      intros (h' & [?| ->] & ?); eauto.
Qed.
End install.

(** ** Every operation keeps the invariant *)

Lemma elem_of_kept owner client (t : RoutingTable) h c :
  table_wf owner t →
  c ∈ kept client (inner t !! h) ↔
  ∃ e, inner t !! h = Some e ∧ hr_client_name e = client ∧ c ∈ hr_conns e.
Proof.
  intros _. unfold kept. destruct (inner t !! h) as [e|]; [case_bool_decide|]; set_solver.
Qed.

Lemma elem_of_installed client balance conn mode old c :
  c ∈ hr_conns (installed client balance conn mode old) ↔
  c = conn ∨ (balance = RoundRobin ∧ c ∈ kept client old).
Proof.
  unfold installed; simpl. destruct balance; [set_solver|].
  case_decide; set_solver.
Qed.

Lemma kept_wf owner client old :
  (∀ e, old = Some e → host_wf owner e) →
  NoDup (kept client old) ∧ (∀ c, c ∈ kept client old → owner c = client).
Proof.
  intros Hold. unfold kept.
  assert (NoDup (@nil Connection) ∧ ∀ c, c ∈ @nil Connection → owner c = client) as Hnil.
  { split; [constructor|]. by intros c []%not_elem_of_nil. }
  destruct old as [e|]; [|done]. destruct (Hold e eq_refl) as (_ & ? & Hown & _).
  case_bool_decide; [|done]. subst. auto.
Qed.

Lemma installed_wf owner balance conn mode old :
  (∀ e, old = Some e → host_wf owner e) →
  host_wf owner (installed (owner conn) balance conn mode old).
Proof.
  intros Hold. destruct (kept_wf owner (owner conn) old Hold) as [Hnd Hown].
  split; [|split; [|split]].
  - simpl. destruct balance; [done|]. case_decide as Hd; [|by destruct (kept _ _)].
    intros E. rewrite E in Hd. by apply not_elem_of_nil in Hd.
  - simpl. destruct balance; [apply NoDup_singleton|]. case_decide; [done|].
    apply NoDup_app. split_and!; [done| |apply NoDup_singleton].
    by intros c ? ->%list_elem_of_singleton.
  - intros c [->|[_ Hc]]%elem_of_installed; auto.
  - destruct old as [e|]; simpl; [apply (Hold e eq_refl)|done].
Qed.

Lemma install_wf owner hosts balance conn t :
  table_wf owner t → table_wf owner (install hosts (owner conn) balance conn t).1.
Proof.
  intros Hwf. unfold install. destruct (is_nil hosts); [done|].
  pose proof (install_loop (owner conn) balance conn hosts (inner t)) as Hl.
  destruct (foldl _ _ hosts) as [m' d']. destruct Hl as (Hout & Hin & _).
  intros h e He. simpl in He. destruct (decide (h ∈ hosts.*1)) as [Hh|Hh].
  - destruct (Hin h Hh) as (mode & _ & Hm). rewrite Hm in He. simplify_eq.
    apply installed_wf. intros e. apply Hwf.
  - rewrite Hout in He by done. by apply (Hwf h).
Qed.

Lemma retain_conns_Some id e e' :
  retain_conns id e = Some e' ↔
  e' = {| hr_client_name := hr_client_name e; hr_tls_mode := hr_tls_mode e;
          hr_conns := filter (λ c, c ≠ id) (hr_conns e); hr_cursor := hr_cursor e |} ∧
  hr_conns e' ≠ [].
Proof.
  unfold retain_conns, stable_id. destruct (filter _ (hr_conns e)) eqn:E; simpl.
  - split; [done|]. intros [-> H]. by simpl in H.
  - split; [intros [= <-]; done|]. by intros [-> _].
Qed.

Lemma remove_conn_wf owner id t : table_wf owner t → table_wf owner (remove_conn id t).
Proof.
  intros Hwf h e He. simpl in He. rewrite lookup_omap in He.
  destruct (inner t !! h) as [e0|] eqn:E0; [|done]. simpl in He.
  apply retain_conns_Some in He as [-> Hne]. destruct (Hwf h e0 E0) as (_ & ? & Hown & ?).
  split; [done|]. split; [by apply NoDup_filter|]. split; [|done].
  intros c [_ Hc]%list_elem_of_filter. by apply Hown.
Qed.

Lemma kick_inner client t :
  inner (kick client t).1 = filter (λ kv, hr_client_name kv.2 ≠ client) (inner t).
Proof. unfold kick. by destruct (foldl _ _ _). Qed.

Lemma kick_wf owner client t : table_wf owner t → table_wf owner (kick client t).1.
Proof.
  intros Hwf h e He. rewrite kick_inner in He. apply map_lookup_filter_Some in He as [He _].
  by apply (Hwf h).
Qed.

Lemma next_live_cursor closed conns k cursor :
  (0 <= cursor < usize_modulus)%Z →
  (0 <= (next_live closed conns k cursor).2 < usize_modulus)%Z.
Proof.
  assert (∀ z, 0 <= z mod usize_modulus < usize_modulus)%Z as Hm
    by (intros z; by apply Z.mod_pos_bound).
  revert cursor. induction k as [|k IH]; intros cursor Hc; cbn [next_live]; [done|].
  destruct (conns !! _) as [c|]; [|apply Hm]. destruct (closed c); [|apply Hm].
  apply IH, Hm.
Qed.

Lemma lookup_inner closed host t :
  (lookup closed host t).2 = t ∨
  ∃ e cursor, inner t !! host = Some e ∧
    cursor = (next_live closed (hr_conns e) (length (hr_conns e)) (hr_cursor e)).2 ∧
    (lookup closed host t).2 = set_inner (<[host := set_cursor cursor e]> (inner t)) t.
Proof.
  unfold lookup. destruct (match local t !! _ with Some up => _ | None => _ end); [by left|].
  destruct (inner t !! host) as [e|]; [|by left]. case_decide; [by left|]. right.
  destruct (next_live _ _ _ _) as [found cursor] eqn:E. exists e, cursor. by rewrite E.
Qed.

Lemma lookup_wf owner closed host t :
  table_wf owner t → table_wf owner (lookup closed host t).2.
Proof.
  intros Hwf. destruct (lookup_inner closed host t) as [->|(e & cursor & He & -> & ->)]; [done|].
  apply map_Forall_insert_2; [|done]. destruct (Hwf host e He) as (? & ? & ? & ?).
  split; [done|]. split; [done|]. split; [done|]. by apply next_live_cursor.
Qed.

Lemma op_step_wf owner t t' : op_step owner t t' → table_wf owner t → table_wf owner t'.
Proof.
  destruct 1; [apply install_wf|apply remove_conn_wf|apply kick_wf|done|apply lookup_wf].
Qed.

Lemma op_step_same_config owner t t' : op_step owner t t' → same_config t t'.
Proof.
  destruct 1; try done.
  - unfold install. destruct (is_nil hosts); [done|]. by destruct (foldl _ _ _).
  - unfold kick. by destruct (foldl _ _ _).
  - by destruct (lookup_inner closed host t) as [->|(? & ? & _ & _ & ->)].
Qed.

Lemma reachable_wf owner hs us t : reachable owner hs us t → table_wf owner t.
Proof.
  intros Hr. assert (table_wf owner (from_config hs us)) as Hwf by apply map_Forall_empty.
  induction Hr as [|t1 t2 t3 Hstep _ IH]; [done|]. eauto using op_step_wf.
Qed.

Lemma reachable_same_config owner hs us t :
  reachable owner hs us t → same_config (from_config hs us) t.
Proof.
  unfold reachable. generalize (from_config hs us) as t0. intros t0 Hr.
  induction Hr as [|t1 t2 t3 Hstep _ IH]; [done|].
  destruct (op_step_same_config _ _ _ Hstep) as (? & ? & ?), IH as (? & ? & ?).
  split_and!; congruence.
Qed.

(** ** Lemmas on [lookup] *)

Section next_live.
Context (closed : Connection → bool) (conns : list Connection) (cursor : Z).
Context (Hcursor : (0 <= cursor)%Z)
        (Hwrap : (cursor + Z.of_nat (length conns) <= usize_modulus)%Z).

(** While the cursor does not wrap around, the loop searches the rotation of
    the connections that starts at the cursor. *)
Lemma next_live_rotate k :
  k ≤ length conns →
  next_live closed conns k ((cursor + Z.of_nat (length conns - k)) mod usize_modulus) =
  match list_find (λ c, closed c = false)
          (drop (length conns - k) (rotate (Z.to_nat cursor) conns)) with
  | Some (j, c) =>
      (PSome c, (cursor + Z.of_nat (length conns - k + j) + 1) mod usize_modulus)%Z
  | None => (PNone, (cursor + Z.of_nat (length conns)) mod usize_modulus)%Z
  end.
Proof.
  induction k as [|k IH]; intros Hk; cbn [next_live].
  { rewrite Nat.sub_0_r, drop_ge by (rewrite length_rotate; lia). done. }
  set (i := length conns - S k) in *.
  assert (length conns - k = S i) as Hi by lia. rewrite Hi in IH.
  rewrite (Z.mod_small (cursor + Z.of_nat i)) by lia.
  assert (∃ c, conns !! Z.to_nat ((cursor + Z.of_nat i) mod Z.of_nat (length conns)) = Some c ∧
    rotate (Z.to_nat cursor) conns !! i = Some c) as (c & Hc & Hrot).
  { rewrite lookup_rotate_r by lia. unfold rotate_nat_add.
    rewrite Z2Nat.id by lia.
    destruct (lookup_lt_is_Some_2 conns
      (Z.to_nat ((cursor + Z.of_nat i) mod Z.of_nat (length conns)))) as [c Hc]; [|eauto].
    pose proof (Z.mod_pos_bound (cursor + Z.of_nat i) (Z.of_nat (length conns))). lia. }
  rewrite Hc, (drop_S _ c i) by done. cbn [list_find].
  replace ((cursor + Z.of_nat i + 1))%Z with (cursor + Z.of_nat (S i))%Z by lia.
  destruct (closed c); simpl.
  - rewrite IH by lia. destruct (list_find _ _) as [[j c']|]; simpl; [|done].
    do 3 f_equal. lia.
  - do 2 f_equal. lia.
Qed.
End next_live.

(** Every connection of the list is in the rotation. *)
Lemma rotate_closed (closed : Connection → bool) conns n :
  list_find (λ c, closed c = false) (rotate n conns) = None ↔
  ∀ c, c ∈ conns → closed c = true.
Proof.
  rewrite list_find_None, Forall_forall. setoid_rewrite elem_of_rotate.
  split; intros H c Hc; specialize (H c Hc); by destruct (closed c).
Qed.

(** [next_live] never indexes out of range and only returns live members. *)
Lemma next_live_member closed conns k cursor :
  (0 <= cursor)%Z → conns ≠ [] →
  match (next_live closed conns k cursor).1 with
  | PSome c => c ∈ conns ∧ closed c = false
  | PNone => True
  | PPanic | PFuel => False
  end.
Proof.
  intros Hc Hne. revert cursor Hc. induction k as [|k IH]; intros cursor Hc; cbn [next_live]; [done|].
  assert (0 < Z.of_nat (length conns))%Z by (destruct conns; simpl; [done|lia]).
  pose proof (Z.mod_pos_bound cursor (Z.of_nat (length conns))).
  destruct (conns !! _) as [c|] eqn:E; [|apply lookup_ge_None in E; lia].
  destruct (closed c) eqn:Ec; simpl.
  - apply IH. by apply Z.mod_pos_bound.
  - split; [by eapply list_elem_of_lookup_2|done].
Qed.

(** ** Which upstream serves a host *)

(** Some exact entry names the (lowercase) host: an upstream, a configured
    tunnel hostname, a terminated hostname, or a host a tunnel serves. *)
Definition named (t : RoutingTable) (host : string) : Prop :=
  is_Some (local t !! host) ∨ host ∈ tunnel_hosts t ∨ host ∈ terminated t ∨
  is_Some (inner t !! host).

(** [parent_of host parent]: [host] is one label under [parent]. *)
Definition parent_of (host parent : string) : Prop :=
  ∃ label, host = label +:+ "." +:+ parent ∧ contains "."%char label = false.

(** The upstream that serves a lowercase host, most specific first. *)
Inductive serves (t : RoutingTable) (host : string) : LocalUpstream → Prop :=
| serves_exact up :
    local t !! host = Some up → serves t host up
| serves_wildcard up parent :
    ¬ named t host → parent_of host parent →
    local t !! ("*." +:+ parent) = Some up → serves t host up
| serves_catch_all up :
    ¬ named t host →
    (∀ parent, parent_of host parent → local t !! ("*." +:+ parent) = None) →
    local t !! "*" = Some up → serves t host up.

Lemma is_some_spec {A} (o : option A) : is_some o = true ↔ is_Some o.
Proof. by destruct o; simpl; split; try done; intros []. Qed.

Lemma named_dec (t : RoutingTable) host :
  is_some (local t !! host) || bool_decide (host ∈ tunnel_hosts t) ||
  bool_decide (host ∈ terminated t) || is_some (inner t !! host) = true ↔ named t host.
Proof.
  unfold named. rewrite !orb_true_iff, !is_some_spec, !bool_decide_eq_true. tauto.
Qed.

(** The upstream [lookup] finds, and its absence. *)
Definition find_upstream (t : RoutingTable) (host : string) : option LocalUpstream :=
  match local t !! host with
  | Some up => Some up
  | None => wildcard_upstream t host
  end.

Lemma split_once_parent host a parent :
  split_once "."%char host = Some (a, parent) → parent_of host parent.
Proof. intros [-> ?]%split_once_Some. by exists a. Qed.

Lemma parent_of_split host parent :
  parent_of host parent → ∃ a, split_once "."%char host = Some (a, parent).
Proof.
  intros (label & -> & Hl). exists label.
  induction label as [|c label IH]; [done|]. simpl in *.
  apply orb_false_iff in Hl as [Hc Hl]. by rewrite Hc, IH.
Qed.

Lemma wildcard_upstream_spec t host up :
  wildcard_upstream t host = Some up ↔
  ¬ named t host ∧
  match split_once "."%char host with
  | Some (_, parent) =>
      local t !! ("*." +:+ parent) = Some up ∨
      (local t !! ("*." +:+ parent) = None ∧ local t !! "*" = Some up)
  | None => local t !! "*" = Some up
  end.
Proof.
  unfold wildcard_upstream. pose proof (named_dec t host) as Hn.
  destruct (_ || _ || _ || _).
  { split; [done|]. intros [Hnot _]. destruct Hnot. by apply Hn. }
  assert (¬ named t host) as Hnot by (intros ?%Hn; done).
  unfold host_patterns. destruct (split_once _ host) as [[a parent]|]; simpl.
  - destruct (local t !! ("*." +:+ parent)), (local t !! "*"); intuition congruence.
  - destruct (local t !! "*"); intuition congruence.
Qed.

Lemma find_upstream_serves t host up : find_upstream t host = Some up ↔ serves t host up.
Proof.
  unfold find_upstream. destruct (local t !! host) as [up'|] eqn:E.
  - split; [intros [= ->]; by apply serves_exact|].
    destruct 1 as [up E'|up parent Hn|up Hn]; [congruence|destruct Hn; left; by eexists..].
  - rewrite wildcard_upstream_spec. destruct (split_once _ host) as [[a parent]|] eqn:Es.
    + apply split_once_parent in Es as Hp.
      assert (∀ p, parent_of host p → p = parent) as Huniq.
      { intros p [a' Hp']%parent_of_split. congruence. }
      split.
      * intros [Hn [H|[H1 H2]]]; [by eapply serves_wildcard|].
        apply serves_catch_all; [done| |done]. by intros p ->%Huniq.
      * destruct 1 as [up E'|up p Hn Hp' H|up Hn Hnone H]; [congruence|..]; split; auto.
        apply Huniq in Hp' as ->. auto.
    + split.
      * intros [Hn H]. apply serves_catch_all; [done| |done].
        intros p [a' Hp]%parent_of_split. congruence.
      * destruct 1 as [up E'|up p Hn Hp' H|up Hn Hnone H]; [congruence| |done].
        apply parent_of_split in Hp' as [a' ?]. congruence.
Qed.

Lemma routes_to_upstream_spec t host :
  routes_to_upstream t host = is_some (find_upstream t (to_ascii_lowercase host)).
Proof.
  unfold routes_to_upstream, find_upstream. by destruct (local t !! _).
Qed.

Lemma lookup_unfold closed host t :
  lookup closed host t =
  match find_upstream t (to_ascii_lowercase host) with
  | Some up => (PSome (Local_ (lu_target up)), t)
  | None =>
      match inner t !! host with
      | None => (PNone, t)
      | Some entry =>
          if decide (length (hr_conns entry) = 0) then (PNone, t)
          else
            let '(found, cursor) :=
              next_live closed (hr_conns entry) (length (hr_conns entry)) (hr_cursor entry) in
            (conn ← found;
             PSome (Tunnel {| re_client_name := hr_client_name entry;
                              re_tls_mode := hr_tls_mode entry; re_conn := conn |}),
             set_inner (<[host := set_cursor cursor entry]> (inner t)) t)
      end
  end.
Proof. done. Qed.

(** What a tunnel route says of the table. *)
Lemma lookup_tunnel owner closed host t r :
  table_wf owner t →
  (lookup closed host t).1 = PSome (Tunnel r) →
  find_upstream t (to_ascii_lowercase host) = None ∧
  ∃ e, inner t !! host = Some e ∧
    re_client_name r = hr_client_name e ∧ re_tls_mode r = hr_tls_mode e ∧
    re_conn r ∈ hr_conns e ∧ closed (re_conn r) = false ∧
    owner (re_conn r) = re_client_name r.
Proof.
  intros Hwf. rewrite lookup_unfold.
  destruct (find_upstream t (to_ascii_lowercase host)) as [up|]; [done|].
  destruct (inner t !! host) as [e|] eqn:He; [|done].
  destruct (Hwf host e He) as (Hne & _ & Hown & Hcur).
  rewrite decide_False by (by destruct (hr_conns e)).
  pose proof (next_live_member closed (hr_conns e) (length (hr_conns e)) (hr_cursor e)) as Hm.
  specialize (Hm ltac:(lia) Hne).
  destruct (next_live _ _ _ _) as [[c| | |] cursor]; simpl in *; try done.
  destruct Hm as [Hc Hopen]. intros [= <-]. split; [done|]. exists e. split_and!; auto.
Qed.

Lemma lookup_returns owner closed host t :
  table_wf owner t → returns (lookup closed host t).1.
Proof.
  intros Hwf. rewrite lookup_unfold. destruct (find_upstream _ _); [done|].
  destruct (inner t !! host) as [e|] eqn:He; [|done]. destruct (Hwf host e He) as (Hne & _ & _ & ?).
  case_decide; [done|].
  pose proof (next_live_member closed (hr_conns e) (length (hr_conns e)) (hr_cursor e)
    ltac:(lia) Hne) as Hm.
  by destruct (next_live _ _ _ _) as [[] ?].
Qed.

(** ** Lemmas on [kick] *)

Lemma push_unseen_spec conns out (seen : gset nat) :
  NoDup out → seen = list_to_set out →
  let '(out', seen') := push_unseen conns (out, seen) in
  NoDup out' ∧ seen' = list_to_set out' ∧ ∀ c, c ∈ out' ↔ c ∈ out ∨ c ∈ conns.
Proof.
  revert out seen. induction conns as [|c conns IH]; intros out seen Hnd Hseen; cbn [push_unseen].
  { split_and!; [done..|]. intros c. rewrite elem_of_nil. tauto. }
  unfold stable_id. case_decide as Hc.
  - specialize (IH out seen Hnd Hseen). destruct (push_unseen _ _) as [out' seen'].
    destruct IH as (? & ? & Hin). split_and!; [done..|]. intros c'.
    rewrite Hin, elem_of_cons. subst seen. apply elem_of_list_to_set in Hc.
    split; [tauto|]. intros [?|[->|?]]; auto.
  - assert (c ∉ out) as Hout by (intros H; apply Hc; subst; by apply elem_of_list_to_set).
    specialize (IH (out ++ [c]) ({[c]} ∪ seen)).
    destruct (push_unseen _ _) as [out' seen']. destruct IH as (? & ? & Hin).
    + apply NoDup_app. split_and!; [done| |apply NoDup_singleton].
      by intros c' ? ->%list_elem_of_singleton.
    + subst seen. set_solver.
    + split_and!; [done..|]. intros c'. rewrite Hin, elem_of_app, list_elem_of_singleton, elem_of_cons.
      tauto.
Qed.

Lemma kick_conns client t :
  NoDup (kick client t).2 ∧
  ∀ c, c ∈ (kick client t).2 ↔
    ∃ h e, inner t !! h = Some e ∧ hr_client_name e = client ∧ c ∈ hr_conns e.
Proof.
  unfold kick. set (gone := filter _ _).
  assert (∀ c, (∃ kv, kv ∈ gone ∧ c ∈ hr_conns kv.2) ↔
    ∃ h e, inner t !! h = Some e ∧ hr_client_name e = client ∧ c ∈ hr_conns e) as Hgone.
  { intros c. unfold gone. split.
    - intros ([h e] & [? Hin%elem_of_map_to_list]%list_elem_of_filter & ?). eauto.
    - intros (h & e & ? & ? & ?). exists (h, e). split; [|done].
      apply list_elem_of_filter. split; [done|]. by apply elem_of_map_to_list. }
  clearbody gone.
  assert (let '(out, seen) := foldl (λ st kv, push_unseen (hr_conns kv.2) st) ([], ∅) gone in
    NoDup out ∧ seen = list_to_set out ∧
    ∀ c, c ∈ out ↔ ∃ kv : string * HostRoutes, kv ∈ gone ∧ c ∈ hr_conns kv.2) as Hfold.
  { clear Hgone. induction gone as [|kv gone IH] using rev_ind; simpl.
    - split_and!; [constructor|done|]. intros c. setoid_rewrite elem_of_nil. split; [done|].
      by intros (? & ? & _).
    - rewrite foldl_app. destruct (foldl _ _ gone) as [out seen]. destruct IH as (? & ? & Hin).
      cbn [foldl]. pose proof (push_unseen_spec (hr_conns kv.2) out seen) as Hp.
      destruct (push_unseen _ _) as [out' seen']. destruct Hp as (? & ? & Hin'); [done..|].
      split_and!; [done..|]. intros c. rewrite Hin', Hin.
      setoid_rewrite elem_of_app. setoid_rewrite list_elem_of_singleton.
      split; [intros [(kv' & ? & ?)|?]; eauto|]. intros (kv' & [?| ->] & ?); eauto. }
  destruct (foldl _ _ gone) as [out seen]. destruct Hfold as (? & _ & Hin). simpl.
  split; [done|]. intros c. by rewrite Hin, Hgone.
Qed.

Lemma install_eq hosts client balance conn t :
  install hosts client balance conn t =
  let '(guard, displaced) := foldl (install_host client balance conn) (inner t, []) hosts in
  (set_inner guard t, displaced).
Proof. unfold install. destruct hosts; [|done]. by destruct t. Qed.

(** A connection is displaced from a host when the new entry drops it. *)
Lemma elem_of_displaced_by owner balance conn mode old c :
  (∀ e, old = Some e → host_wf owner e) →
  c ∈ displaced_by (owner conn) balance conn old ↔
  ∃ e, old = Some e ∧ c ∈ hr_conns e ∧
    c ∉ hr_conns (installed (owner conn) balance conn mode old).
Proof.
  intros Hold. setoid_rewrite elem_of_installed. unfold displaced_by, kept.
  destruct old as [e|]; [|rewrite elem_of_nil; split; [done|by intros (? & ? & _)]].
  destruct (Hold e eq_refl) as (_ & _ & Hown & _). case_bool_decide as Hcl.
  - destruct balance.
    + rewrite list_elem_of_filter. split.
      * intros [? ?]. exists e. split_and!; [done..|]. intros [?|[? _]]; done.
      * intros (e' & [= <-] & ? & ?). split; [|done]. intros ->. auto.
    + rewrite elem_of_nil. split; [done|]. intros (e' & [= <-] & ? & Hn). auto.
  - split.
    + intros Hc. exists e. split_and!; [done..|]. rewrite elem_of_nil.
      intros [->|[_ []]]. by rewrite Hown in Hcl.
    + by intros (e' & [= <-] & ? & _).
Qed.

(** ** Theorems *)

(** C19: in every table a server can reach, from its configuration and by any
    sequence of the table's operations, each routed host has at least one
    connection, no connection twice, and only connections authenticated by the
    client that owns the host: two clients never share a host.  The local
    upstreams, the configured tunnel hosts and the offload set never change. *)
Theorem routes_invariant owner hs us t :
  reachable owner hs us t →
  table_wf owner t ∧ same_config (from_config hs us) t.
Proof. intros Hr. split; [by eapply reachable_wf|by eapply reachable_same_config]. Qed.

(** What [install] does to the table. *)
Definition install_post (hosts : list (string * TlsMode)) (client : string) (balance : Balance)
    (conn : Connection) (t t' : RoutingTable) (displaced : list Connection) : Prop :=
  (∀ h, h ∈ hosts.*1 → ∃ mode e', (h, mode) ∈ hosts ∧ inner t' !! h = Some e' ∧
     hr_client_name e' = client ∧ hr_tls_mode e' = mode ∧
     match balance with
     | LastWriteWins => hr_conns e' = [conn]
     | RoundRobin => ∀ c, c ∈ hr_conns e' ↔ c = conn ∨
         ∃ e, inner t !! h = Some e ∧ hr_client_name e = client ∧ c ∈ hr_conns e
     end) ∧
  (∀ h, h ∉ hosts.*1 → inner t' !! h = inner t !! h) ∧
  (∀ c, c ∈ displaced ↔ ∃ h e e', h ∈ hosts.*1 ∧ inner t !! h = Some e ∧ c ∈ hr_conns e ∧
     inner t' !! h = Some e' ∧ c ∉ hr_conns e') ∧
  same_config t t' ∧ terminated t' = terminated t.

(** [install] on any table, the takeover of a host of another client included:
    under last-write-wins the new connection is alone on each host; under
    round-robin it joins the client's own connections, and another client's are
    evicted.  The connections returned for closing are exactly those that lost a
    host; every other host and the rest of the table are untouched. *)
Lemma install_spec owner hosts balance conn t t' displaced :
  table_wf owner t →
  install hosts (owner conn) balance conn t = (t', displaced) →
  install_post hosts (owner conn) balance conn t t' displaced.
Proof.
  intros Hwf. rewrite install_eq.
  pose proof (install_loop (owner conn) balance conn hosts (inner t)) as Hl.
  destruct (foldl _ _ hosts) as [m' d']. destruct Hl as (Hout & Hin & Hd).
  intros [= <- <-]. split_and!; simpl; try done.
  - intros h Hh. destruct (Hin h Hh) as (mode & ? & Hm). eexists mode, _.
    split_and!; [done..|]. destruct balance; [done|]. intros c.
    rewrite elem_of_installed, (elem_of_kept owner) by done. intuition congruence.
  - intros c. rewrite Hd. split.
    + intros (h & Hh & Hc). destruct (Hin h Hh) as (mode & _ & Hm).
      rewrite (elem_of_displaced_by owner _ _ mode) in Hc by (intros e; apply Hwf).
      destruct Hc as (e & He & ? & ?).
      exists h, e. eexists. by split_and!.
    + intros (h & e & e' & Hh & He & Hc & He' & Hnc). exists h. split; [done|].
      destruct (Hin h Hh) as (mode & _ & Hm). rewrite Hm in He'. simplify_eq.
      rewrite (elem_of_displaced_by owner _ _ mode) by (intros e1; apply Hwf). eauto.
Qed.

(** C18: [install] gives exactly the granted hosts to the client, by its policy.
    Last-write-wins: the new connection is alone on each of them, and the
    connections returned for closing are exactly the others that held one.
    Round-robin, on hosts that nobody or the client itself holds: the new
    connection is added to those of each host, and nothing is displaced.  Each
    granted host is the client's, under a mode granted for it; every other host
    and the rest of the table are untouched. *)
Theorem install_correct owner hosts balance conn t t' displaced :
  table_wf owner t →
  (balance = RoundRobin → ∀ h e, h ∈ hosts.*1 → inner t !! h = Some e → hr_client_name e = owner conn) →
  install hosts (owner conn) balance conn t = (t', displaced) →
  (∀ h, h ∈ hosts.*1 → ∃ mode e', (h, mode) ∈ hosts ∧ inner t' !! h = Some e' ∧
     hr_client_name e' = owner conn ∧ hr_tls_mode e' = mode ∧
     match balance with
     | LastWriteWins => hr_conns e' = [conn]
     | RoundRobin => ∀ c, c ∈ hr_conns e' ↔ c = conn ∨ ∃ e, inner t !! h = Some e ∧ c ∈ hr_conns e
     end) ∧
  (∀ h, h ∉ hosts.*1 → inner t' !! h = inner t !! h) ∧
  match balance with
  | LastWriteWins => ∀ c, c ∈ displaced ↔
      c ≠ conn ∧ ∃ h e, h ∈ hosts.*1 ∧ inner t !! h = Some e ∧ c ∈ hr_conns e
  | RoundRobin => displaced = []
  end ∧
  same_config t t' ∧ terminated t' = terminated t.
Proof.
  intros Hwf Hown Hi. pose proof (install_spec owner hosts balance conn t t' displaced Hwf Hi)
    as (Hin & Hout & Hd & Hs & Ht).
  split_and!; try done.
  - intros h Hh. destruct (Hin h Hh) as (mode & e' & ? & ? & ? & ? & Hc). exists mode, e'.
    split_and!; try done. destruct balance; [done|]. intros c. rewrite Hc.
    split; (intros [->|(e & He & Hrest)]; [by left|right; exists e]); [tauto|].
    split_and!; [done| |done]. by apply (Hown eq_refl h).
  - destruct balance.
    + intros c. rewrite Hd. split.
      * intros (h & e & e' & Hh & He & Hce & He' & Hn). split; [|by eauto]. intros ->.
        destruct (Hin h Hh) as (mode & e'' & _ & He'' & _ & _ & Hc). simplify_eq. rewrite Hc in Hn. by destruct Hn; left.
      * intros (Hne & h & e & Hh & He & Hce). destruct (Hin h Hh) as (mode & e' & _ & He' & _ & _ & Hc).
        exists h, e, e'. split_and!; try done. rewrite Hc. by intros ?%list_elem_of_singleton.
    + apply elem_of_nil_inv. intros c (h & e & e' & Hh & He & Hce & He' & Hn)%Hd.
      destruct (Hin h Hh) as (mode & e'' & _ & He'' & _ & _ & Hc). simplify_eq. destruct Hn. apply Hc.
      right. exists e. split_and!; [done| |done]. by apply (Hown eq_refl h).
Qed.

(** Closing a tunnel leaves no trace of it: after [remove_conn] no host is
    routed to the connection; a host keeps its other connections, in their
    order, with its owner and mode; and it disappears exactly when the connection
    was its only one. *)
Theorem remove_conn_correct owner id t h :
  table_wf owner t →
  (∀ e', inner (remove_conn id t) !! h = Some e' → id ∉ hr_conns e') ∧
  match inner t !! h with
  | None => inner (remove_conn id t) !! h = None
  | Some e =>
      (hr_conns e = [id] ∧ inner (remove_conn id t) !! h = None) ∨
      ∃ e', inner (remove_conn id t) !! h = Some e' ∧
        hr_client_name e' = hr_client_name e ∧ hr_tls_mode e' = hr_tls_mode e ∧
        hr_conns e' = filter (λ c, c ≠ id) (hr_conns e)
  end.
Proof.
  intros Hwf. simpl. rewrite lookup_omap. destruct (inner t !! h) as [e|] eqn:He; simpl; [|done].
  destruct (retain_conns id e) as [e'|] eqn:Er; split; try done.
  - intros ? [= <-]. apply retain_conns_Some in Er as [-> _]. simpl.
    by intros [? _]%list_elem_of_filter.
  - right. exists e'. apply retain_conns_Some in Er as [-> _]. done.
  - left. split; [|done]. destruct (Hwf h e He) as (Hne & Hnd & _).
    assert (filter (λ c, c ≠ id) (hr_conns e) = []) as Hf.
    { unfold retain_conns, stable_id in Er. by destruct (filter _ _). }
    assert (∀ c, c ∈ hr_conns e → c = id) as Hall.
    { intros c Hc. destruct (decide (c = id)); [done|].
      assert (c ∈ filter (λ c, c ≠ id) (hr_conns e)) as Hin by (by apply list_elem_of_filter).
      rewrite Hf in Hin. by apply not_elem_of_nil in Hin. }
    destruct (hr_conns e) as [|a [|b l]]; [done|..].
    + by rewrite (Hall a) by left.
    + apply NoDup_cons in Hnd as [Hn _]. destruct Hn.
      rewrite (Hall a), (Hall b) by (repeat constructor). left.
Qed.

(** C35: revoking a client removes every host it owns and no other, and returns
    each of its routed connections exactly once. *)
Theorem kick_correct client t t' conns :
  kick client t = (t', conns) →
  (∀ h e, inner t' !! h = Some e ↔ inner t !! h = Some e ∧ hr_client_name e ≠ client) ∧
  NoDup conns ∧
  (∀ c, c ∈ conns ↔
     ∃ h e, inner t !! h = Some e ∧ hr_client_name e = client ∧ c ∈ hr_conns e) ∧
  same_config t t' ∧ terminated t' = terminated t.
Proof.
  intros Hk. pose proof (kick_inner client t) as Hi. pose proof (kick_conns client t) as [Hnd Hin].
  rewrite Hk in Hi, Hnd, Hin. simpl in *. split_and!; try done.
  - intros h e. rewrite Hi, map_lookup_filter_Some. done.
  - unfold kick in Hk. destruct (foldl _ _ _). by simplify_eq.
  - unfold kick in Hk. destruct (foldl _ _ _). by simplify_eq.
Qed.

(** A lookup finds a live tunnel whenever there is one.  For a host that no
    upstream serves, and while the cursor does not pass [usize::MAX], [lookup]
    returns the first connection that is not closed in round-robin order from the
    cursor, and nothing exactly when all of the host's connections are closed. *)
Theorem lookup_finds_live owner closed host t e :
  table_wf owner t →
  routes_to_upstream t host = false →
  inner t !! host = Some e →
  (hr_cursor e + Z.of_nat (length (hr_conns e)) <= usize_modulus)%Z →
  (lookup closed host t).1 =
    match list_find (λ c, closed c = false) (rotate (Z.to_nat (hr_cursor e)) (hr_conns e)) with
    | Some (_, c) => PSome (Tunnel {| re_client_name := hr_client_name e;
                                      re_tls_mode := hr_tls_mode e; re_conn := c |})
    | None => PNone
    end ∧
  ((lookup closed host t).1 = PNone ↔ ∀ c, c ∈ hr_conns e → closed c = true).
Proof.
  intros Hwf Hup He Hwrap. destruct (Hwf host e He) as (Hne & _ & _ & Hcur).
  rewrite routes_to_upstream_spec in Hup.
  rewrite lookup_unfold. destruct (find_upstream _ _); [done|]. rewrite He.
  rewrite decide_False by (by destruct (hr_conns e)).
  pose proof (next_live_rotate closed (hr_conns e) (hr_cursor e) (proj1 Hcur) Hwrap
    (length (hr_conns e)) (le_n _)) as Hrot.
  rewrite Nat.sub_diag, Z.add_0_r, Z.mod_small in Hrot by done. rewrite Hrot, drop_0.
  rewrite <- (rotate_closed closed (hr_conns e) (Z.to_nat (hr_cursor e))).
  destruct (list_find _ _) as [[j c]|]; by simpl.
Qed.

(** C17: a lookup resolves a host by the documented precedence.  A hostname goes
    to a local upstream exactly when one serves it: the upstream of that name,
    else, if no exact entry names it, the wildcard of its parent domain, else the
    catch-all.  [routes_to_upstream] answers the same question.  A host that no
    upstream serves goes to a tunnel on an open connection of the client that owns
    it, in the mode of its entry: the first connection that is not closed in
    round-robin order from the cursor, so that nothing is found exactly when every
    connection of the host is closed (while the cursor does not pass
    [usize::MAX]); a host without an entry, which is searched as spelled, goes nowhere.
    [lookup] never panics. *)
Theorem lookup_precedence owner closed host t :
  table_wf owner t →
  (∀ target, (lookup closed host t).1 = PSome (Local_ target) ↔
     ∃ up, serves t (to_ascii_lowercase host) up ∧ lu_target up = target) ∧
  (routes_to_upstream t host = true ↔ ∃ up, serves t (to_ascii_lowercase host) up) ∧
  (∀ r, (lookup closed host t).1 = PSome (Tunnel r) →
     routes_to_upstream t host = false ∧
     ∃ e, inner t !! host = Some e ∧
       re_client_name r = hr_client_name e ∧ re_tls_mode r = hr_tls_mode e ∧
       re_conn r ∈ hr_conns e ∧ closed (re_conn r) = false ∧
       owner (re_conn r) = re_client_name r) ∧
  (routes_to_upstream t host = false →
     match inner t !! host with
     | None => (lookup closed host t).1 = PNone
     | Some e => (hr_cursor e + Z.of_nat (length (hr_conns e)) <= usize_modulus)%Z →
         (lookup closed host t).1 =
           match list_find (λ c, closed c = false) (rotate (Z.to_nat (hr_cursor e)) (hr_conns e)) with
           | Some (_, c) => PSome (Tunnel {| re_client_name := hr_client_name e;
                                             re_tls_mode := hr_tls_mode e; re_conn := c |})
           | None => PNone
           end ∧
         ((lookup closed host t).1 = PNone ↔ ∀ c, c ∈ hr_conns e → closed c = true)
     end) ∧
  returns (lookup closed host t).1.
Proof.
  intros Hwf.
  assert (∀ e, routes_to_upstream t host = false → inner t !! host = Some e → _) as Hlive
    by (intros e Hup He; exact (lookup_finds_live owner closed host t e Hwf Hup He)).
  rewrite routes_to_upstream_spec in *. setoid_rewrite <- find_upstream_serves.
  assert (∀ r, (lookup closed host t).1 = PSome (Tunnel r) → _) as Ht
    by (intros r; exact (lookup_tunnel owner closed host t r Hwf)).
  split_and!.
  - intros target. split.
    + rewrite lookup_unfold. destruct (find_upstream _ _) as [up|]; [intros [= <-]; eauto|].
      destruct (inner t !! host) as [e|]; [|done]. case_decide; [done|].
      by destruct (next_live _ _ _ _) as [[] ?].
    + intros (up & Hup & <-). by rewrite lookup_unfold, Hup.
  - rewrite is_some_spec. done.
  - intros r [Hnone He]%Ht. by rewrite Hnone.
  - intros Hup. destruct (inner t !! host) as [e|] eqn:He; [by apply Hlive|].
    rewrite lookup_unfold, He. by destruct (find_upstream _ _).
  - by eapply lookup_returns.
Qed.

(** ** Round-robin *)

(** [k] lookups of the same host, one after the other. *)
Fixpoint lookups (closed : Connection → bool) (host : string) (k : nat) (t : RoutingTable) :
    list (partial Route) :=
  match k with
  | O => []
  | S k => let '(r, t) := lookup closed host t in r :: lookups closed host k t
  end.

Definition tunnel_route (e : HostRoutes) (c : Connection) : partial Route :=
  PSome (Tunnel {| re_client_name := hr_client_name e; re_tls_mode := hr_tls_mode e;
                   re_conn := c |}).

Lemma find_upstream_set_cursor t host e cursor h :
  inner t !! host = Some e →
  find_upstream (set_inner (<[host := set_cursor cursor e]> (inner t)) t) h = find_upstream t h.
Proof.
  intros He. unfold find_upstream, wildcard_upstream. simpl.
  destruct (decide (host = h)) as [<-|Hne].
  - rewrite lookup_insert_eq, He. done.
  - by rewrite lookup_insert_ne by done.
Qed.

Lemma lookup_all_live closed host t e c :
  find_upstream t (to_ascii_lowercase host) = None →
  inner t !! host = Some e →
  (∀ c, c ∈ hr_conns e → closed c = false) →
  hr_conns e !! Z.to_nat (hr_cursor e mod Z.of_nat (length (hr_conns e))) = Some c →
  lookup closed host t =
  (tunnel_route e c,
   set_inner (<[host := set_cursor ((hr_cursor e + 1) mod usize_modulus) e]> (inner t)) t).
Proof.
  intros Hup He Hopen Hc. rewrite lookup_unfold, Hup, He.
  assert (∃ k, length (hr_conns e) = S k) as [k Hk].
  { destruct (hr_conns e) as [|c0 l]; [done|]. by exists (length l). }
  rewrite decide_False by lia.
  assert (next_live closed (hr_conns e) (length (hr_conns e)) (hr_cursor e) =
          (PSome c, (hr_cursor e + 1) mod usize_modulus)%Z) as ->; [|done].
  rewrite Hk at 1. cbn [next_live].
  rewrite Hc, (Hopen c); [done|]. by eapply list_elem_of_lookup_2.
Qed.

Lemma lookups_all_live closed host k t e :
  find_upstream t (to_ascii_lowercase host) = None →
  inner t !! host = Some e → hr_conns e ≠ [] →
  (∀ c, c ∈ hr_conns e → closed c = false) →
  (0 <= hr_cursor e)%Z → (hr_cursor e + Z.of_nat k <= usize_modulus)%Z → k ≤ length (hr_conns e) →
  Some <$> lookups closed host k t =
  (λ i, tunnel_route e <$>
     hr_conns e !! Z.to_nat ((hr_cursor e + Z.of_nat i) mod Z.of_nat (length (hr_conns e))))
    <$> seq 0 k.
Proof.
  intros Hup He Hne Hopen. revert t e Hup He Hne Hopen.
  induction k as [|k IH]; intros t e Hup He Hne Hopen Hc Hwrap Hk; [done|].
  cbn [lookups seq].
  assert (0 < Z.of_nat (length (hr_conns e)))%Z by (destruct (hr_conns e); simpl; [done|lia]).
  pose proof (Z.mod_pos_bound (hr_cursor e) (Z.of_nat (length (hr_conns e)))).
  destruct (lookup_lt_is_Some_2 (hr_conns e)
    (Z.to_nat (hr_cursor e mod Z.of_nat (length (hr_conns e))))) as [c Hc0]; [lia|].
  rewrite (lookup_all_live _ _ _ _ _ Hup He Hopen Hc0). rewrite !fmap_cons, Z.add_0_r, Hc0.
  f_equal. destruct (decide (k = 0)) as [->|]; [done|].
  rewrite (Z.mod_small (hr_cursor e + 1)) by lia.
  rewrite (IH _ (set_cursor (hr_cursor e + 1) e)); try done; simpl; try lia.
  - rewrite <- (fmap_S_seq 0), <- list_fmap_compose. apply list_fmap_ext. intros _ i _. simpl.
    unfold tunnel_route; simpl. do 4 f_equal. lia.
  - by rewrite (find_upstream_set_cursor t host e).
  - by rewrite lookup_insert_eq.
Qed.

(** Round-robin is fair.  For a host served by tunnels, all of them live,
    as many successive lookups as the host has connections return each
    connection exactly once, in order from the cursor (while the cursor does not
    pass [usize::MAX]). *)
Theorem round_robin_fair owner closed host t e :
  table_wf owner t →
  routes_to_upstream t host = false →
  inner t !! host = Some e →
  (∀ c, c ∈ hr_conns e → closed c = false) →
  (hr_cursor e + Z.of_nat (length (hr_conns e)) <= usize_modulus)%Z →
  lookups closed host (length (hr_conns e)) t =
    tunnel_route e <$> rotate (Z.to_nat (hr_cursor e)) (hr_conns e) ∧
  rotate (Z.to_nat (hr_cursor e)) (hr_conns e) ≡ₚ hr_conns e.
Proof.
  intros Hwf Hup He Hopen Hwrap. destruct (Hwf host e He) as (Hne & _ & _ & Hcur). split.
  - apply (inj (fmap Some)). rewrite (lookups_all_live _ _ _ _ e); try done; try lia.
    + apply list_eq. intros i. rewrite !list_lookup_fmap.
      destruct (decide (i < length (hr_conns e))) as [Hi|Hi].
      * rewrite lookup_seq_lt by done. simpl. rewrite lookup_rotate_r by done.
        unfold rotate_nat_add. rewrite Z2Nat.id by lia.
        destruct (lookup_lt_is_Some_2 (hr_conns e)
          (Z.to_nat ((hr_cursor e + Z.of_nat i) mod Z.of_nat (length (hr_conns e)))))
          as [c ->]; [|done].
        pose proof (Z.mod_pos_bound (hr_cursor e + Z.of_nat i) (Z.of_nat (length (hr_conns e)))).
        lia.
      * rewrite lookup_seq_ge, lookup_ge_None_2 by (rewrite ?length_rotate; lia). done.
    + rewrite routes_to_upstream_spec in Hup. by destruct (find_upstream _ _).
  - unfold rotate. rewrite Permutation_app_comm. by rewrite take_drop.
Qed.

(** ** Configured hosts *)

Lemma omap_upstream_keys us k :
  k ∈ (omap upstream_of us).*1 → ∃ u, u ∈ us ∧ k = to_ascii_lowercase (ue_host u).
Proof.
  intros ([k' up] & -> & Hin)%list_elem_of_fmap.
  apply list_elem_of_omap in Hin as (u & Hu & Hup). exists u. split; [done|].
  unfold upstream_of in Hup. destruct (ue_local_socket u), (ue_local_addr u); by simplify_eq/=.
Qed.

Lemma omap_upstream_NoDup us :
  NoDup ((λ u, to_ascii_lowercase (ue_host u)) <$> us) → NoDup (omap upstream_of us).*1.
Proof.
  induction us as [|u us IH]; csimpl; [constructor|]. intros [Hnot Hnd]%NoDup_cons.
  destruct (upstream_of u) as [[k up]|] eqn:E; [|by auto]. csimpl. apply NoDup_cons. split; [|by auto].
  intros (u' & Hu' & ->)%omap_upstream_keys. destruct Hnot.
  assert (to_ascii_lowercase (ue_host u') = to_ascii_lowercase (ue_host u)) as <-.
  { unfold upstream_of in E. destruct (ue_local_socket u), (ue_local_addr u); by simplify_eq/=. }
  by apply list_elem_of_fmap; exists u'.
Qed.

(** A configured host cannot be taken away.  Whatever tunnels connect,
    whatever hosts a backend grants them and whatever set of names the control
    plane provisions: a host with a local upstream always resolves to that
    upstream, in any letter case, and a configured tunnel hostname never falls
    through to a wildcard or catch-all upstream.  (The lowercase upstream hosts
    are assumed distinct; validation checks it up to case.) *)
Theorem configured_hosts_kept owner hs us t closed host :
  reachable owner hs us t →
  NoDup ((λ u, to_ascii_lowercase (ue_host u)) <$> us) →
  (∀ u k up, u ∈ us → upstream_of u = Some (k, up) →
     eq_ignore_ascii_case host (ue_host u) = true →
     (lookup closed host t).1 = PSome (Local_ (lu_target up))) ∧
  (∀ h, h ∈ hs → eq_ignore_ascii_case host (he_host h) = true →
     to_ascii_lowercase host ∉ ((λ u, to_ascii_lowercase (ue_host u)) <$> us) →
     routes_to_upstream t host = false).
Proof.
  intros Hr Hnd. apply reachable_same_config in Hr as (Hlocal & Htun & _).
  unfold eq_ignore_ascii_case. setoid_rewrite bool_decide_eq_true. split.
  - intros u k up Hu Hup Hcase. rewrite lookup_unfold. unfold find_upstream. rewrite Hlocal, Hcase.
    simpl. rewrite (collect_map_NoDup _ (to_ascii_lowercase (ue_host u)) up); [done| |].
    + by apply omap_upstream_NoDup.
    + apply list_elem_of_omap. exists u. split; [done|].
      rewrite Hup. unfold upstream_of in Hup.
      destruct (ue_local_socket u), (ue_local_addr u); by simplify_eq/=.
  - intros h Hh Hcase Hnot. rewrite routes_to_upstream_spec. unfold find_upstream.
    rewrite Hlocal. simpl. rewrite (proj2 (collect_map_None _ _)).
    2:{ intros (u & Hu & Hk)%omap_upstream_keys. destruct Hnot. rewrite Hk.
        by apply list_elem_of_fmap; exists u. }
    destruct (wildcard_upstream t _) as [up|] eqn:Hw; [|done].
    apply wildcard_upstream_spec in Hw as [Hn _]. destruct Hn. right; left.
    rewrite Htun, Hcase. simpl. apply elem_of_collect_set, list_elem_of_fmap. eauto.
Qed.

(** ** The terminated and offload sets *)

Lemma hosts_where_mono p q hs us :
  (∀ m, p m = true → q m = true) → hosts_where p hs us ⊆ hosts_where q hs us.
Proof.
  intros Hpq k. unfold hosts_where. rewrite !elem_of_collect_set, !elem_of_app, !list_elem_of_fmap.
  setoid_rewrite list_elem_of_filter.
  intros [(h & ? & ? & ?)|(u & ? & ? & ?)]; [left|right]; eauto 6.
Qed.

(** The steps of a server whose terminated set is not replaced. *)
Definition static_step (owner : Connection → string) (t t' : RoutingTable) : Prop :=
  op_step owner t t' ∧ terminated t' = terminated t.

(** With a static terminated set, the offload hosts are terminated hosts in
    every reachable table ([is_offload] implies [is_terminated]), so the server
    never byte-pipes still-encrypted traffic of a host it is configured to
    decrypt; and the three host predicates ignore letter case. *)
Theorem offload_terminated owner hs us t host :
  rtc (static_step owner) (from_config hs us) t →
  (is_offload t host = true → is_terminated t host = true) ∧
  (∀ host', eq_ignore_ascii_case host host' = true →
     is_terminated t host = is_terminated t host' ∧
     is_offload t host = is_offload t host' ∧
     routes_to_upstream t host = routes_to_upstream t host').
Proof.
  intros Hr. split.
  - assert (offload t ⊆ terminated t) as Hsub.
    { remember (from_config hs us) as t0 eqn:Ht0.
      assert (offload t0 ⊆ terminated t0) as H0.
      { subst. apply hosts_where_mono. by intros []. }
      clear Ht0. induction Hr as [|t1 t2 t3 [Hs Ht] _ IH]; [done|]. apply IH.
      apply op_step_same_config in Hs as (_ & _ & ->). by rewrite Ht. }
    unfold is_offload, is_terminated. case_bool_decide as Ho.
    + by rewrite bool_decide_eq_true_2 by auto.
    + destruct (wildcard_upstream t _) as [up|]; [|done]. rewrite bool_decide_eq_true.
      intros ->. simpl. by destruct (bool_decide _).
  - intros host' Hcase%bool_decide_eq_true.
    unfold is_offload, is_terminated, routes_to_upstream. by rewrite Hcase.
Qed.

(** ** The active hostnames *)

Lemma elem_of_dedup l x : x ∈ dedup l ↔ x ∈ l.
Proof.
  induction l as [|a [|b l] IH]; [done..|]. cbn [dedup] in *.
  case_decide as Hd; [subst|]; rewrite ?elem_of_cons, IH, ?elem_of_cons; tauto.
Qed.

Lemma dedup_sorted l : StronglySorted String.le l → NoDup (dedup l) ∧ StronglySorted String.le (dedup l).
Proof.
  induction l as [|a [|b l] IH]; intros Hs.
  - split; constructor.
  - split; [apply NoDup_singleton|done].
  - apply StronglySorted_cons in Hs as [Ha Hs]. destruct (IH Hs) as [Hnd Hst].
    cbn [dedup] in *. case_decide as Hd; [done|]. split.
    + apply NoDup_cons. split; [|done]. rewrite (elem_of_dedup (b :: l)). intros Hin.
      apply StronglySorted_cons in Hs as [Hb _]. apply Forall_cons in Ha as [Hab Ha].
      apply elem_of_cons in Hin as [?|Hin]; [done|].
      rewrite Forall_forall in Hb. specialize (Hb a Hin). destruct Hd. by apply (anti_symm String.le).
    + apply StronglySorted_cons. split; [|done]. rewrite Forall_forall in Ha |- *.
      intros x Hx. apply Ha. by apply (elem_of_dedup (b :: l)).
Qed.

(** The active hostnames are, sorted and without repetition, exactly the
    hosts with a tunnel and the (lowercase) hosts of the local upstreams. *)
Theorem active_hostnames_correct t :
  StronglySorted String.le (active_hostnames t) ∧ NoDup (active_hostnames t) ∧
  ∀ h, h ∈ active_hostnames t ↔ is_Some (inner t !! h) ∨ is_Some (local t !! h).
Proof.
  unfold active_hostnames. set (hosts := _ ++ _).
  destruct (dedup_sorted (merge_sort String.le hosts)) as [Hnd Hs].
  { apply StronglySorted_merge_sort; apply _. }
  split_and!; [done..|]. intros h. rewrite elem_of_dedup, merge_sort_Permutation.
  unfold hosts. rewrite elem_of_app, !list_elem_of_fmap.
  split.
  - intros [([k v] & -> & Hin%elem_of_map_to_list)|([k v] & -> & Hin%elem_of_map_to_list)]; eauto.
  - intros [[v Hv]|[v Hv]]; [left|right]; exists (h, v); by rewrite elem_of_map_to_list.
Qed.

(** ** Witnesses *)

Definition demo_owner (c : Connection) : string := if decide (c = 1) then "alice" else "bob".

Definition demo_table0 : RoutingTable :=
  from_config (hostnames demo_config) (upstreams demo_config).

Definition demo_table : RoutingTable :=
  (install [("b.example.com", Passthrough)] "bob" RoundRobin 3
    (install [("b.example.com", Passthrough)] "bob" RoundRobin 2
      (install [("a.example.com", Terminated)] "alice" LastWriteWins 1 demo_table0).1).1).1.

Definition demo_open (c : Connection) : bool := false.

Lemma demo_table_reachable :
  reachable demo_owner (hostnames demo_config) (upstreams demo_config) demo_table.
Proof.
  eapply rtc_l; [exact (step_install demo_owner [("a.example.com", Terminated)] LastWriteWins 1 _)|].
  eapply rtc_l; [exact (step_install demo_owner [("b.example.com", Passthrough)] RoundRobin 2 _)|].
  eapply rtc_l; [exact (step_install demo_owner [("b.example.com", Passthrough)] RoundRobin 3 _)|].
  apply rtc_refl.
Defined.

Lemma demo_wf : table_wf demo_owner demo_table.
Proof. exact (reachable_wf _ _ _ _ demo_table_reachable). Defined.

Lemma routes_invariant_witness :
  table_wf demo_owner demo_table ∧ same_config demo_table0 demo_table.
Proof. exact (routes_invariant _ _ _ _ demo_table_reachable). Defined.

Lemma install_correct_witness :
  2 ∈ (install [("b.example.com", Passthrough)] "alice" LastWriteWins 1 demo_table).2 ↔
    2 ≠ 1 ∧ ∃ h e, h ∈ ["b.example.com"] ∧ inner demo_table !! h = Some e ∧ 2 ∈ hr_conns e.
Proof.
  apply (install_correct demo_owner [("b.example.com", Passthrough)] LastWriteWins 1 demo_table
    (install [("b.example.com", Passthrough)] "alice" LastWriteWins 1 demo_table).1).
  - exact demo_wf.
  - discriminate.
  - vm_compute. reflexivity.
Defined.

Lemma remove_conn_correct_witness :
  2 ∉ hr_conns {| hr_client_name := "bob"; hr_tls_mode := Passthrough;
                  hr_conns := [3]; hr_cursor := 0 |}.
Proof.
  apply (proj1 (remove_conn_correct demo_owner 2 demo_table "b.example.com" demo_wf)).
  vm_compute. reflexivity.
Defined.

Lemma kick_correct_witness : NoDup (kick "bob" demo_table).2.
Proof.
  apply (kick_correct "bob" demo_table (kick "bob" demo_table).1). vm_compute. reflexivity.
Defined.

Lemma lookup_precedence_witness :
  routes_to_upstream demo_table "New.Example.com" = true ↔
  ∃ up, serves demo_table "new.example.com" up.
Proof.
  exact (proj1 (proj2 (lookup_precedence demo_owner demo_open "New.Example.com" demo_table demo_wf))).
Defined.

Definition demo_entry : HostRoutes :=
  {| hr_client_name := "bob"; hr_tls_mode := Passthrough; hr_conns := [2; 3]; hr_cursor := 0 |}.

Lemma lookup_finds_live_witness :
  (lookup (λ c, bool_decide (c = 2)) "b.example.com" demo_table).1 = tunnel_route demo_entry 3.
Proof.
  assert (routes_to_upstream demo_table "b.example.com" = false) as Hup by (vm_compute; reflexivity).
  assert (inner demo_table !! "b.example.com" = Some demo_entry) as He by (vm_compute; reflexivity).
  exact (proj1 (lookup_finds_live demo_owner (λ c, bool_decide (c = 2)) "b.example.com" demo_table
    demo_entry demo_wf Hup He ltac:(vm_compute; discriminate))).
Defined.

Lemma round_robin_fair_witness :
  lookups demo_open "b.example.com" 2 demo_table = tunnel_route demo_entry <$> [2; 3].
Proof.
  assert (routes_to_upstream demo_table "b.example.com" = false) as Hup by (vm_compute; reflexivity).
  assert (inner demo_table !! "b.example.com" = Some demo_entry) as He by (vm_compute; reflexivity).
  exact (proj1 (round_robin_fair demo_owner demo_open "b.example.com" demo_table demo_entry
    demo_wf Hup He ltac:(done) ltac:(vm_compute; discriminate))).
Defined.

Lemma configured_hosts_kept_witness :
  routes_to_upstream demo_table "A.example.com" = false.
Proof.
  apply (proj2 (configured_hosts_kept demo_owner (hostnames demo_config) (upstreams demo_config)
    demo_table demo_open "A.example.com" demo_table_reachable
    ltac:(apply (bool_decide_unpack _); vm_compute; exact I)) (Build_HostnameEntry
      "a.example.com" "alice" Terminated None None)).
  - left.
  - vm_compute. reflexivity.
  - apply (bool_decide_unpack _). vm_compute. exact I.
Defined.

Definition demo_offload : UpstreamEntry :=
  {| ue_host := "db.example.com"; ue_local_addr := Some "127.0.0.1:5432"; ue_local_socket := None;
     ue_tls_mode := TlsOffload; ue_tls_cert_file := None; ue_tls_key_file := None |}.

Lemma offload_terminated_witness :
  is_terminated (from_config [] [demo_offload]) "DB.example.com" = true.
Proof.
  apply (proj1 (offload_terminated demo_owner [] [demo_offload]
    (from_config [] [demo_offload]) "DB.example.com" (rtc_refl _ _))).
  vm_compute. reflexivity.
Defined.

(** ** What the claims above leave out *)

(** The tunnel map is searched with the hostname as the client spelled it, while
    the host predicates lowercase it: a mixed-case SNI for a tunnel host is
    terminated, or known, and yet finds no route. *)
Example tunnel_lookup_case_sensitive :
  (lookup demo_open "a.example.com" demo_table).1 ≠ PNone ∧
  is_terminated demo_table "A.example.com" = true ∧
  (lookup demo_open "A.example.com" demo_table).1 = PNone.
Proof. split_and!; vm_compute; [discriminate|reflexivity..]. Qed.

(** Replacing the terminated set by one that omits a configured offload host
    leaves the host in the offload set but no longer terminated. *)
Example set_terminated_drops_offload :
  let t := from_config [] [demo_offload] in
  is_terminated t "db.example.com" = true ∧
  is_offload (set_terminated [] t) "db.example.com" = true ∧
  is_terminated (set_terminated [] t) "db.example.com" = false.
Proof. split_and!; vm_compute; reflexivity. Qed.

(** Under round-robin a takeover by another client does return connections. *)
Example round_robin_takeover_displaces :
  (install [("a.example.com", Terminated)] "bob" RoundRobin 2 demo_table).2 = [1].
Proof. vm_compute. reflexivity. Qed.
