(* ===== verification/Lookups.v ===== *)
(** * Concurrent lookups

    [crates/tuyau-server/src/routes.rs], [RoutingTable::lookup] again, at the
    granularity at which it runs.  [Routes.lookup] is one step; in the code a
    lookup takes three short read locks (the terminated set and the tunnel map in
    [wildcard_upstream], the tunnel map again for its entry) and then moves an
    atomic cursor once per probe, holding the last read lock.  So lookups
    interleave with each other at every probe, and with the writers ([install],
    [remove_conn], [kick]) everywhere but while a probing lookup keeps them out.

    A call is a state machine with one phase per shared access; the system is a
    table, the closed connections and the calls in flight. *)

From stdpp Require Import sorting.
From S2P Require Import Prelude Bytes Protocol Config Routes.

Local Open Scope string_scope.
Local Open Scope list_scope.
Local Open Scope nat_scope.

(** ** One call *)

(** The next shared access of a call: [self.terminated.read()],
    [self.inner.read().contains_key(..)], [self.inner.read()] with [guard.get(host)],
    the [k] probes left under that guard. *)
Inductive lookup_phase :=
| ReadTerminated
| ReadInner
| FetchEntry
| Probing (k : nat)
| Returned (r : partial Route).

Definition tunnel_to (e : HostRoutes) (conn : Connection) : Route :=
  Tunnel {| re_client_name := hr_client_name e; re_tls_mode := hr_tls_mode e; re_conn := conn |}.

(** One shared access of a lookup of [host]: the next phase, the table (its cursor
    may move), and the connection probed. *)
Definition lookup_step (closed : Connection → bool) (host : string) (t : RoutingTable)
    (ph : lookup_phase) : lookup_phase * RoutingTable * option Connection :=
  let lowercase := to_ascii_lowercase host in
  match ph with
  | ReadTerminated =>
      match local t !! lowercase with
      | Some up => (Returned (PSome (Local_ (lu_target up))), t, None)
      | None =>
          if bool_decide (lowercase ∈ tunnel_hosts t) || bool_decide (lowercase ∈ terminated t)
          then (FetchEntry, t, None) else (ReadInner, t, None)
      end
  | ReadInner =>
      if is_some (inner t !! lowercase) then (FetchEntry, t, None)
      else
        match find_map (λ pattern, local t !! pattern) (drop 1 (host_patterns lowercase)) with
        | Some up => (Returned (PSome (Local_ (lu_target up))), t, None)
        | None => (FetchEntry, t, None)
        end
  | FetchEntry =>
      match inner t !! host with
      | None => (Returned PNone, t, None)
      | Some entry =>
          let n := length (hr_conns entry) in
          if decide (n = 0) then (Returned PNone, t, None) else (Probing n, t, None)
      end
  | Probing 0 => (Returned PNone, t, None)
  | Probing (S k) =>
      match inner t !! host with
      | None => (Returned PPanic, t, None)
      | Some entry =>
          let idx := (hr_cursor entry mod Z.of_nat (length (hr_conns entry)))%Z in
          let t := set_inner (<[host := set_cursor ((hr_cursor entry + 1) mod usize_modulus)%Z entry]>
                                (inner t)) t in
          match hr_conns entry !! Z.to_nat idx with
          | None => (Returned PPanic, t, None)
          | Some conn =>
              (if closed conn then Probing k else Returned (PSome (tunnel_to entry conn)), t, Some conn)
          end
      end
  | Returned r => (Returned r, t, None)
  end.

(** ** The system *)

Record call := {
  call_host : string;
  call_phase : lookup_phase
}.

(** [probes] is a history: the connections probed, by host, oldest first. *)
Record lookups_state := {
  ls_table : RoutingTable;
  ls_closed : gset Connection;
  ls_calls : gmap nat call;
  ls_probes : list (string * Connection)
}.

Definition is_closed (s : lookups_state) (c : Connection) : bool := bool_decide (c ∈ ls_closed s).

Definition returned (ph : lookup_phase) : bool := match ph with Returned _ => true | _ => false end.
Definition probing (ph : lookup_phase) : bool := match ph with Probing _ => true | _ => false end.

Definition begin_call (id : nat) (host : string) (s : lookups_state) : lookups_state :=
  {| ls_table := ls_table s; ls_closed := ls_closed s;
     ls_calls := <[id := {| call_host := host; call_phase := ReadTerminated |}]> (ls_calls s);
     ls_probes := ls_probes s |}.

Definition advance (id : nat) (c : call) (s : lookups_state) : lookups_state :=
  let '(ph, t, probed) := lookup_step (is_closed s) (call_host c) (ls_table s) (call_phase c) in
  {| ls_table := t; ls_closed := ls_closed s;
     ls_calls := <[id := {| call_host := call_host c; call_phase := ph |}]> (ls_calls s);
     ls_probes := ls_probes s ++ match probed with Some conn => [(call_host c, conn)] | None => [] end |}.

Definition with_table (t : RoutingTable) (s : lookups_state) : lookups_state :=
  {| ls_table := t; ls_closed := ls_closed s; ls_calls := ls_calls s; ls_probes := ls_probes s |}.

Definition close_conn (c : Connection) (s : lookups_state) : lookups_state :=
  {| ls_table := ls_table s; ls_closed := {[c]} ∪ ls_closed s; ls_calls := ls_calls s;
     ls_probes := ls_probes s |}.

(** What lookups do, to each other. *)
Inductive reader_step : lookups_state → lookups_state → Prop :=
| BeginCall id host s : ls_calls s !! id = None → reader_step s (begin_call id host s)
| Advance id c s :
    ls_calls s !! id = Some c → returned (call_phase c) = false → reader_step s (advance id c s).

(** The writers of the tunnel map. *)
Inductive write_step (owner : Connection → string) : RoutingTable → RoutingTable → Prop :=
| WInstall hosts balance conn t : write_step owner t (install hosts (owner conn) balance conn t).1
| WRemove id t : write_step owner t (remove_conn id t)
| WKick client t : write_step owner t (kick client t).1.

(** Everything together; a probing call holds the read lock. *)
Inductive lookups_step (owner : Connection → string) : lookups_state → lookups_state → Prop :=
| Reader s s' : reader_step s s' → lookups_step owner s s'
| Writer t s :
    map_Forall (λ _ c, probing (call_phase c) = false) (ls_calls s) →
    write_step owner (ls_table s) t → lookups_step owner s (with_table t s)
| SetTerm full s : lookups_step owner s (with_table (set_terminated full (ls_table s)) s)
| ConnCloses c s : lookups_step owner s (close_conn c s).

Definition lookups_init (hs : list HostnameEntry) (us : list UpstreamEntry) : lookups_state :=
  {| ls_table := from_config hs us; ls_closed := ∅; ls_calls := ∅; ls_probes := [] |}.

Definition lookups_reachable (owner : Connection → string) (hs : list HostnameEntry)
    (us : list UpstreamEntry) (s : lookups_state) : Prop :=
  rtc (lookups_step owner) (lookups_init hs us) s.

(** ** Lemmas *)

(** A probing call has its entry, with as many connections as its probes at
    least. *)
Definition call_ok (t : RoutingTable) (c : call) : Prop :=
  ∀ k, call_phase c = Probing k → ∃ e, inner t !! call_host c = Some e ∧ k ≤ length (hr_conns e).

Definition lookups_wf (owner : Connection → string) (s : lookups_state) : Prop :=
  table_wf owner (ls_table s) ∧ map_Forall (λ _ c, call_ok (ls_table s) c) (ls_calls s).

(** The tunnel map of two tables is the same up to cursors. *)
Definition same_entries (t t' : RoutingTable) : Prop :=
  ∀ host, option_Forall2 (λ e e', set_cursor (hr_cursor e') e = e') (inner t !! host) (inner t' !! host).

Lemma same_entries_refl t : same_entries t t.
Proof. intros host. destruct (inner t !! host) as [[]|]; by constructor. Qed.

Lemma set_cursor_entries host e cursor t :
  inner t !! host = Some e → same_entries t (set_inner (<[host := set_cursor cursor e]> (inner t)) t).
Proof.
  intros He host'. simpl. destruct (decide (host = host')) as [<-|Hne].
  - rewrite lookup_insert_eq, He. by constructor.
  - rewrite lookup_insert_ne by done. apply (same_entries_refl t).
Qed.

Lemma call_ok_same t t' c : same_entries t t' → call_ok t c → call_ok t' c.
Proof.
  intros Hs Hok k Hk. destruct (Hok k Hk) as (e & He & Hlen). specialize (Hs (call_host c)).
  rewrite He in Hs. inversion Hs as [? e' Heq Heq'|]; subst. exists e'. split; [done|].
  rewrite <- Heq. done.
Qed.

(** A shared access moves the cursor of the host, or changes nothing. *)
Lemma lookup_step_inner closed host t ph :
  (lookup_step closed host t ph).1.2 = t ∨
  ∃ e cursor, inner t !! host = Some e ∧ (0 <= cursor < usize_modulus)%Z ∧
    (lookup_step closed host t ph).1.2 = set_inner (<[host := set_cursor cursor e]> (inner t)) t.
Proof.
  destruct ph as [| | |[|k]|r]; cbn [lookup_step]; try (by left); try (left; by repeat case_match).
  destruct (inner t !! host) as [e|]; [|by left]. right. exists e, ((hr_cursor e + 1) mod usize_modulus)%Z.
  split_and!; [done|by apply Z.mod_pos_bound..|]. by destruct (hr_conns e !! _).
Qed.

Lemma lookup_step_wf owner closed host t ph :
  table_wf owner t → table_wf owner (lookup_step closed host t ph).1.2.
Proof.
  intros Hwf. destruct (lookup_step_inner closed host t ph) as [->|(e & cursor & He & Hc & ->)]; [done|].
  apply map_Forall_insert_2; [|done]. by destruct (Hwf host e He) as (? & ? & ? & _).
Qed.

(** What a probe does. *)
Lemma probe_step owner closed host t k e :
  table_wf owner t → inner t !! host = Some e →
  ∃ conn, hr_conns e !! Z.to_nat (hr_cursor e mod Z.of_nat (length (hr_conns e))) = Some conn ∧
    lookup_step closed host t (Probing (S k)) =
      (if closed conn then Probing k else Returned (PSome (tunnel_to e conn)),
       set_inner (<[host := set_cursor ((hr_cursor e + 1) mod usize_modulus)%Z e]> (inner t)) t,
       Some conn).
Proof.
  intros Hwf He. destruct (Hwf host e He) as (Hne & _ & _ & Hcur).
  destruct (lookup_lt_is_Some_2 (hr_conns e)
    (Z.to_nat (hr_cursor e mod Z.of_nat (length (hr_conns e))))) as [conn Hconn].
  { assert (0 < Z.of_nat (length (hr_conns e)))%Z by (destruct (hr_conns e); simpl; [done|lia]).
    pose proof (Z.mod_pos_bound (hr_cursor e) (Z.of_nat (length (hr_conns e)))). lia. }
  exists conn. split; [done|]. cbn [lookup_step]. by rewrite He, Hconn.
Qed.

Lemma set_cursor_wf owner t host e cursor :
  table_wf owner t → inner t !! host = Some e → (0 <= cursor < usize_modulus)%Z →
  table_wf owner (set_inner (<[host := set_cursor cursor e]> (inner t)) t).
Proof.
  intros Hwf He Hc. apply map_Forall_insert_2; [|done].
  by destruct (Hwf host e He) as (? & ? & ? & _).
Qed.

(** A lookup keeps the table well-formed and changes cursors only. *)
Lemma lookup_step_ok owner closed host t ph ph' t' p :
  table_wf owner t → call_ok t {| call_host := host; call_phase := ph |} →
  lookup_step closed host t ph = (ph', t', p) →
  table_wf owner t' ∧ same_entries t t' ∧ call_ok t' {| call_host := host; call_phase := ph' |}.
Proof.
  intros Hwf Hok Hs.
  assert (∀ ph0, (∀ k, ph0 ≠ Probing k) → call_ok t {| call_host := host; call_phase := ph0 |}) as Hother
    by (intros ph0 Hno k Hk; by destruct (Hno k)).
  assert (t' = t ∧ call_ok t {| call_host := host; call_phase := ph' |} ∨ ∃ k, ph = Probing (S k)) as [[-> ?]|[k ->]].
  { destruct ph as [| | |[|k]|r]; [..|by right; eexists|]; left; cbn [lookup_step] in Hs.
    - destruct (local t !! _); [|destruct (_ || _)]; injection Hs as <- <- <-; by auto.
    - destruct (is_some _); [|destruct (find_map _ _)]; injection Hs as <- <- <-; by auto.
    - destruct (inner t !! host) as [e|] eqn:He; [case_decide|]; injection Hs as <- <- <-; [by auto| |by auto].
      split; [done|]. intros k [= <-]. by exists e.
    - injection Hs as <- <- <-. by auto.
    - injection Hs as <- <- <-. by auto. }
  - split_and!; [done|apply same_entries_refl|done].
  - destruct (Hok (S k) eq_refl) as (e & He & Hlen). simpl in He.
    destruct (probe_step owner closed host t k e Hwf He) as (conn & Hconn & Hstep).
    rewrite Hstep in Hs. simplify_eq. split_and!.
    + apply set_cursor_wf; [done..|]. apply Z.mod_pos_bound. by compute.
    + by apply set_cursor_entries.
    + destruct (closed conn); [|by intros k' [=]]. intros k' [= <-]. eexists. simpl.
      rewrite lookup_insert_eq. split; [done|]. simpl. lia.
Qed.

Lemma write_step_wf owner t t' : write_step owner t t' → table_wf owner t → table_wf owner t'.
Proof. destruct 1; [apply install_wf|apply remove_conn_wf|apply kick_wf]. Qed.

Lemma advance_wf owner id c s :
  ls_calls s !! id = Some c → lookups_wf owner s → lookups_wf owner (advance id c s).
Proof.
  intros Hc [Hwf Hok]. unfold advance.
  destruct (lookup_step _ _ _ _) as [[ph t] p] eqn:Hs. destruct c as [host ph0]; simpl in *.
  destruct (lookup_step_ok _ _ _ _ _ _ _ _ Hwf (Hok id _ Hc) Hs) as (? & Hsame & ?).
  split; [done|]. simpl. apply map_Forall_insert_2; [done|]. intros id' c' Hc'.
  by eapply call_ok_same, Hok.
Qed.

Lemma lookups_step_wf owner s s' : lookups_step owner s s' → lookups_wf owner s → lookups_wf owner s'.
Proof.
  destruct 1 as [s s' [id host ? Hno|id c ? Hc Hr]|t s Hno Hw|full s|c s]; intros Hwf.
  - destruct Hwf as [? ?]. split; [done|]. by apply map_Forall_insert_2.
  - by apply advance_wf.
  - destruct Hwf as [? ?]. split; [by eapply write_step_wf|]. intros id c Hc k Hk.
    specialize (Hno id c Hc). simpl in Hno. by rewrite Hk in Hno.
  - done.
  - done.
Qed.

Lemma lookups_reachable_wf owner hs us s : lookups_reachable owner hs us s → lookups_wf owner s.
Proof.
  intros Hr. assert (lookups_wf owner (lookups_init hs us)) as Hwf
    by (split; [apply map_Forall_empty|apply map_Forall_empty]).
  induction Hr as [|s1 s2 s3 Hs _ IH]; [done|]. eauto using lookups_step_wf.
Qed.

(** ** Soundness *)

(** What a call may return, judged in the state in which it returns. *)
Definition sound_result (owner : Connection → string) (s : lookups_state) (host : string)
    (r : partial Route) : Prop :=
  match r with
  | PSome (Tunnel re) =>
      ∃ e, inner (ls_table s) !! host = Some e ∧ re_conn re ∈ hr_conns e ∧ (re_conn re ∉ ls_closed s) ∧
        re_client_name re = hr_client_name e ∧ re_tls_mode re = hr_tls_mode e ∧
        owner (re_conn re) = hr_client_name e
  | PSome (Local_ target) =>
      ∃ pattern up, pattern ∈ host_patterns (to_ascii_lowercase host) ∧
        local (ls_table s) !! pattern = Some up ∧ target = lu_target up
  | PNone => True
  | PPanic | PFuel => False
  end.

Lemma lookup_step_sound owner s host ph r t' p :
  table_wf owner (ls_table s) → call_ok (ls_table s) {| call_host := host; call_phase := ph |} →
  returned ph = false →
  lookup_step (is_closed s) host (ls_table s) ph = (Returned r, t', p) →
  sound_result owner s host r.
Proof.
  intros Hwf Hok Hret. destruct ph as [| | |[|k]|]; cbn [lookup_step]; [..|done].
  - destruct (local _ !! _) as [up|] eqn:Hup; [|by case_match].
    intros [= <- _ _]. exists (to_ascii_lowercase host), up. split_and!; [|done|done].
    unfold host_patterns. apply elem_of_app. left. destruct (split_once _ _) as [[]|]; left.
  - destruct (is_some _); [done|]. destruct (find_map _ _) as [up|] eqn:Hup; [|done].
    intros [= <- _ _]. apply find_map_elem in Hup as (x & Hx & Hl). exists x, up. split_and!; [|done|done].
    rewrite <- (take_drop 1 (host_patterns _)). apply elem_of_app. by right.
  - destruct (inner _ !! _) as [e|]; [case_decide; by intros [= <- _ _]|by intros [= <- _ _]].
  - by intros [= <- _ _].
  - destruct (Hok (S k) eq_refl) as (e & He & _). simpl in He.
    destruct (probe_step owner (is_closed s) host _ k e Hwf He) as (conn & Hconn & Hstep).
    cbn [lookup_step] in Hstep. rewrite Hstep. destruct (is_closed s conn) eqn:Hcl; [done|].
    intros [= <- _ _]. simpl. apply list_elem_of_lookup_2 in Hconn.
    apply bool_decide_eq_false in Hcl. exists e. split_and!; try done.
    by apply (Hwf host e He).
Qed.

(** C13: concurrent lookups are sound.  Whatever other lookups, installs, removals,
    revocations, terminated sets and closes happen between its shared accesses, a
    lookup never panics; when it returns a tunnel, that connection is, at that
    moment, routed for the host, not closed, and of the client that owns the host;
    when it returns an upstream, that is the target configured for the host or for
    a pattern of it. *)
Theorem concurrent_lookup_sound owner hs us s id c r t' p :
  lookups_reachable owner hs us s →
  ls_calls s !! id = Some c → returned (call_phase c) = false →
  lookup_step (is_closed s) (call_host c) (ls_table s) (call_phase c) = (Returned r, t', p) →
  sound_result owner s (call_host c) r.
Proof.
  intros [Hwf Hok]%lookups_reachable_wf Hc Hret Hs. destruct c as [host ph].
  by eapply lookup_step_sound; [|apply (Hok id)| |].
Qed.

(** ** A lookup that is not interrupted *)

Fixpoint run_lookup (closed : Connection → bool) (host : string) (fuel : nat) (t : RoutingTable)
    (ph : lookup_phase) : partial Route * RoutingTable :=
  match fuel with
  | O => (match ph with Returned r => r | _ => PFuel end, t)
  | S fuel =>
      match ph with
      | Returned r => (r, t)
      | _ =>
          let '(ph, t, _) := lookup_step closed host t ph in
          run_lookup closed host fuel t ph
      end
  end.

Definition conns_of (t : RoutingTable) (host : string) : list Connection :=
  default [] (hr_conns <$> inner t !! host).

Lemma run_returned closed host fuel t r : run_lookup closed host fuel t (Returned r) = (r, t).
Proof. by destruct fuel. Qed.

Lemma set_inner_id t host e :
  inner t !! host = Some e → set_inner (<[host := set_cursor (hr_cursor e) e]> (inner t)) t = t.
Proof. intros He. destruct t, e; simpl in *. by rewrite (insert_id _ _ _ He). Qed.

Lemma run_probing closed host t e k fuel :
  inner t !! host = Some e → k < fuel →
  run_lookup closed host fuel t (Probing k) =
  let '(found, cursor) := next_live closed (hr_conns e) k (hr_cursor e) in
  (conn ← found; PSome (tunnel_to e conn),
   set_inner (<[host := set_cursor cursor e]> (inner t)) t).
Proof.
  revert t e fuel. induction k as [|k IH]; intros t e [|fuel] He Hf; [lia| |lia|].
  - cbn. by rewrite run_returned, set_inner_id.
  - cbn [run_lookup lookup_step next_live]. rewrite He.
    destruct (hr_conns e !! _) as [conn|]; [|by rewrite run_returned].
    destruct (closed conn); [|by rewrite run_returned].
    rewrite (IH _ (set_cursor ((hr_cursor e + 1) mod usize_modulus)%Z e)); [|apply lookup_insert_eq|lia].
    simpl. destruct (next_live _ _ _ _) as [found cursor]. by rewrite insert_insert_eq.
Qed.

Lemma run_fetch closed host t fuel :
  length (conns_of t host) + 2 ≤ fuel →
  run_lookup closed host fuel t FetchEntry =
  match inner t !! host with
  | None => (PNone, t)
  | Some e =>
      if decide (length (hr_conns e) = 0) then (PNone, t)
      else
        let '(found, cursor) := next_live closed (hr_conns e) (length (hr_conns e)) (hr_cursor e) in
        (conn ← found; PSome (tunnel_to e conn),
         set_inner (<[host := set_cursor cursor e]> (inner t)) t)
  end.
Proof.
  unfold conns_of. destruct fuel as [|fuel]; [lia|]. intros Hf. cbn [run_lookup lookup_step].
  destruct (inner t !! host) as [e|] eqn:He; [|by rewrite run_returned].
  case_decide; [by rewrite run_returned|]. apply run_probing; [done|]. simpl in Hf. lia.
Qed.

(** The atomic [lookup] of the routing table is the lookup of the code run
    without interruption: the four shared accesses and the probes, one after the
    other, return what [Routes.lookup] returns and leave the table it leaves; as
    many steps as the host has connections, and four more, are enough. *)
Theorem lookup_uninterrupted closed host t :
  run_lookup closed host (length (conns_of t host) + 4) t ReadTerminated = lookup closed host t.
Proof.
  replace (length (conns_of t host) + 4) with (S (S (length (conns_of t host) + 2))) by lia.
  unfold lookup, wildcard_upstream. cbn [run_lookup lookup_step].
  destruct (local t !! to_ascii_lowercase host) as [up|] eqn:Hl; [done|]. simpl.
  destruct (_ || _) eqn:Hn; [apply (run_fetch _ _ _ (S _)); lia|]. simpl. cbn [run_lookup lookup_step].
  destruct (is_some _); [apply run_fetch; lia|].
  destruct (find_map _ _); [by rewrite run_returned|]. apply run_fetch. lia.
Qed.

(** ** Wait-freedom *)

(** The steps of one call, each in the table and among the closed connections it
    finds: whatever happened in between. *)
Fixpoint own_steps (host : string) (envs : list ((Connection → bool) * RoutingTable))
    (ph : lookup_phase) : lookup_phase :=
  match envs with
  | [] => ph
  | (closed, t) :: envs => own_steps host envs (lookup_step closed host t ph).1.1
  end.

(** The steps left, for a host with at most [N] connections. *)
Definition steps_left (N : nat) (ph : lookup_phase) : nat :=
  match ph with
  | ReadTerminated => N + 4
  | ReadInner => N + 3
  | FetchEntry => N + 2
  | Probing k => k + 1
  | Returned _ => 0
  end.

Lemma lookup_step_decreases N closed host t ph :
  length (conns_of t host) ≤ N → steps_left N (lookup_step closed host t ph).1.1 ≤ steps_left N ph - 1.
Proof.
  unfold conns_of. intros HN. destruct ph as [| | |[|k]|r]; cbn [lookup_step]; simpl; try lia.
  - destruct (local t !! _); [|destruct (_ || _)]; simpl; lia.
  - destruct (is_some _); [|destruct (find_map _ _)]; simpl; lia.
  - destruct (inner t !! host); simpl in HN; [case_decide|]; simpl; lia.
  - destruct (inner t !! host); simpl; [|lia]. destruct (hr_conns _ !! _); simpl; [|lia].
    destruct (closed _); simpl; lia.
Qed.

Lemma own_steps_decrease N host envs ph :
  Forall (λ env, length (conns_of env.2 host) ≤ N) envs →
  steps_left N (own_steps host envs ph) ≤ steps_left N ph - length envs.
Proof.
  revert ph. induction envs as [|[closed t] envs IH]; intros ph Henvs; simpl; [lia|].
  apply Forall_cons in Henvs as [Ht Henvs]. simpl in Ht.
  pose proof (lookup_step_decreases N closed host t ph Ht). specialize (IH (lookup_step closed host t ph).1.1 Henvs).
  lia.
Qed.

(** Lookups are wait-free.  However the table and the closed connections
    change between the steps of a call (other lookups, installs, removals,
    revocations, terminated sets), the call returns after at most [N + 4] steps of
    its own, [N] a bound on the connections of its host in the tables it sees. *)
Theorem lookup_wait_free N host envs :
  Forall (λ env, length (conns_of env.2 host) ≤ N) envs → N + 4 ≤ length envs →
  ∃ r, own_steps host envs ReadTerminated = Returned r.
Proof.
  intros Henvs Hlen. pose proof (own_steps_decrease N host envs ReadTerminated Henvs) as Hd.
  destruct (own_steps _ _ _) as [| | | |r]; simpl in Hd; try lia. by exists r.
Qed.

(** ** Fairness *)

(** The connections probed for [host], oldest first. *)
Definition probes_of (host : string) (s : lookups_state) : list Connection :=
  (filter (λ p, p.1 = host) (ls_probes s)).*2.

(** The connection at which a host's cursor points after [i] more moves. *)
Definition nth_probe (e : HostRoutes) (i : nat) : option Connection :=
  hr_conns e !! Z.to_nat (((hr_cursor e + Z.of_nat i) mod usize_modulus) mod Z.of_nat (length (hr_conns e))).

Lemma lookup_step_frame closed host t ph host' :
  host ≠ host' → inner (lookup_step closed host t ph).1.2 !! host' = inner t !! host'.
Proof.
  intros Hne. destruct ph as [| | |[|k]|r]; cbn [lookup_step]; try done.
  - destruct (local t !! _); [|destruct (_ || _)]; done.
  - destruct (is_some _); [|destruct (find_map _ _)]; done.
  - destruct (inner t !! host); [case_decide|]; done.
  - destruct (inner t !! host) as [e|]; [|done].
    destruct (hr_conns e !! _); simpl; by rewrite lookup_insert_ne.
Qed.

Lemma lookup_step_no_probe closed host t ph :
  probing ph = false → (lookup_step closed host t ph).1.2 = t ∧ (lookup_step closed host t ph).2 = None.
Proof.
  destruct ph as [| | |k|r]; cbn [lookup_step probing]; [| | |done|done]; intros _.
  - destruct (local t !! _); [|destruct (_ || _)]; done.
  - destruct (is_some _); [|destruct (find_map _ _)]; done.
  - destruct (inner t !! host); [case_decide|]; done.
Qed.

(** One step of a call, seen from [host]: nothing, or one probe where the cursor
    points. *)
Lemma advance_probe owner id c s host e :
  lookups_wf owner s → ls_calls s !! id = Some c → inner (ls_table s) !! host = Some e →
  (inner (ls_table (advance id c s)) !! host = Some e ∧ probes_of host (advance id c s) = probes_of host s) ∨
  ∃ conn, nth_probe e 0 = Some conn ∧
    inner (ls_table (advance id c s)) !! host = Some (set_cursor ((hr_cursor e + 1) mod usize_modulus)%Z e) ∧
    probes_of host (advance id c s) = probes_of host s ++ [conn].
Proof.
  intros [Hwf Hok] Hc He. unfold advance, probes_of. destruct c as [h ph]; simpl.
  pose proof (lookup_step_frame (is_closed s) h (ls_table s) ph host) as Hframe.
  destruct (lookup_step _ _ _ _) as [[ph' t'] p] eqn:Hs. simpl in Hframe |- *.
  rewrite filter_app, fmap_app.
  destruct (decide (h = host)) as [->|Hne].
  2:{ left. rewrite Hframe by done. split; [done|]. destruct p; simpl; [|by rewrite app_nil_r].
      rewrite filter_cons_False by done. by rewrite filter_nil, app_nil_r. }
  destruct (decide (probing ph = false)) as [Hp|Hp].
  { pose proof (lookup_step_no_probe (is_closed s) host (ls_table s) ph Hp) as [Ht Hn].
    rewrite Hs in Ht, Hn. simpl in Ht, Hn. subst. left. by rewrite app_nil_r. }
  destruct ph as [| | |[|k]|r]; try done.
  { injection Hs as <- <- <-. left. by rewrite app_nil_r. }
  destruct (probe_step owner (is_closed s) host (ls_table s) k e Hwf He) as (conn & Hconn & Hstep).
  rewrite Hstep in Hs. injection Hs as <- <- <-. right. exists conn. split_and!.
  - unfold nth_probe. rewrite Z.add_0_r. destruct (Hwf host e He) as (_ & _ & _ & Hcur).
    by rewrite (Z.mod_small (hr_cursor e)).
  - simpl. by rewrite lookup_insert_eq.
  - rewrite filter_cons_True by done. done.
Qed.

(** Lookups alone: the probes of a host are the connections from its cursor on,
    in order. *)
Lemma reader_probes owner s s' host e :
  lookups_wf owner s → inner (ls_table s) !! host = Some e → rtc reader_step s s' →
  ∃ new, probes_of host s' = probes_of host s ++ new ∧
    inner (ls_table s') !! host =
      Some (set_cursor ((hr_cursor e + Z.of_nat (length new)) mod usize_modulus)%Z e) ∧
    (∀ i, i < length new → new !! i = nth_probe e i) ∧ lookups_wf owner s'.
Proof.
  intros Hwf He. revert s'. apply rtc_ind_r; [|intros s2 s3 _ Hs IH].
  - exists []. rewrite app_nil_r, Z.add_0_r. destruct (proj1 Hwf host e He) as (_ & _ & _ & Hcur).
    rewrite Z.mod_small by done. split_and!; [done| |simpl; lia|done]. by destruct e.
  - destruct IH as (new & Hp & Hin & Hnth & Hwf2).
    assert (lookups_wf owner s3) as Hwf3 by (eapply lookups_step_wf; [by apply Reader|done]).
    destruct Hs as [id h s2 Hno|id c s2 Hc Hret]; [by exists new|].
    destruct (advance_probe _ id c _ host _ Hwf2 Hc Hin) as [[Hin3 Hp3]|(conn & Hconn & Hin3 & Hp3)].
    + exists new. rewrite Hp3, Hin3. done.
    + exists (new ++ [conn]). rewrite Hp3, Hp, Hin3, length_app. simpl. split_and!.
      * by rewrite (assoc (++)).
      * unfold set_cursor; simpl. do 2 f_equal. rewrite Zplus_mod_idemp_l. f_equal. lia.
      * unfold nth_probe in Hconn. simpl in Hconn. rewrite Z.add_0_r, Zmod_mod in Hconn.
        intros i Hi. destruct (decide (i = length new)) as [->|].
        { rewrite lookup_app_r, Nat.sub_diag by lia. exact (eq_sym Hconn). }
        rewrite lookup_app_l by lia. apply Hnth. lia.
      * done.
Qed.

(** Any [n] consecutive probes of [n] connections, before the cursor wraps. *)
Lemma probes_window e new i :
  hr_conns e ≠ [] → (0 <= hr_cursor e)%Z →
  (hr_cursor e + Z.of_nat (length new) <= usize_modulus)%Z →
  (∀ j, j < length new → new !! j = nth_probe e j) → i + length (hr_conns e) ≤ length new →
  take (length (hr_conns e)) (drop i new) = rotate (Z.to_nat (hr_cursor e) + i) (hr_conns e).
Proof.
  intros Hne Hc Hwrap Hnth Hi. apply list_eq. intros j.
  assert (length (hr_conns e) ≠ 0) by (by destruct (hr_conns e)).
  destruct (decide (j < length (hr_conns e))) as [Hj|Hj].
  - rewrite lookup_take_lt, lookup_drop by done. rewrite Hnth by lia.
    rewrite lookup_rotate_r by done. unfold nth_probe, rotate_nat_add.
    rewrite (Z.mod_small _ usize_modulus) by lia. do 3 f_equal. lia.
  - rewrite lookup_take_ge by lia. symmetry. apply lookup_ge_None_2. rewrite length_rotate. lia.
Qed.

(** C30: round-robin is fair under concurrency.  However the steps of any number
    of lookups interleave, while the host's routes are not rewritten (and its
    cursor has not passed [usize::MAX]): any [n] consecutive probes of a host with
    [n] connections probe each of them exactly once, in order, so no lookup moves
    the cursor past a connection without probing it and no connection is preferred;
    and the cursor has moved once per probe. *)
Theorem concurrent_round_robin owner s s' host e :
  lookups_wf owner s → inner (ls_table s) !! host = Some e → rtc reader_step s s' →
  ∃ new, probes_of host s' = probes_of host s ++ new ∧
    ((hr_cursor e + Z.of_nat (length new) < usize_modulus)%Z →
     inner (ls_table s') !! host = Some (set_cursor (hr_cursor e + Z.of_nat (length new)) e) ∧
     ∀ i, i + length (hr_conns e) ≤ length new →
       take (length (hr_conns e)) (drop i new) = rotate (Z.to_nat (hr_cursor e) + i) (hr_conns e) ∧
       take (length (hr_conns e)) (drop i new) ≡ₚ hr_conns e).
Proof.
  intros Hwf He Hr. destruct (reader_probes owner s s' host e Hwf He Hr) as (new & Hp & Hin & Hnth & _).
  destruct (proj1 Hwf host e He) as (Hne & _ & _ & Hcur).
  exists new. split; [done|]. intros Hwrap. split.
  - by rewrite Z.mod_small in Hin by lia.
  - intros i Hi. rewrite (probes_window e new i); [|done|lia|lia|done|done]. split; [done|].
    unfold rotate. rewrite Permutation_app_comm. by rewrite take_drop.
Qed.

(** ** Witnesses *)

Definition demo_lookups : lookups_state :=
  {| ls_table := demo_table; ls_closed := {[2]}; ls_calls := ∅; ls_probes := [] |}.

(** The calls [ids] advance in turn. *)
Definition schedule (ids : list nat) (s : lookups_state) : lookups_state :=
  foldl (λ s id, match ls_calls s !! id with
                 | Some c => if returned (call_phase c) then s else advance id c s
                 | None => s
                 end) s ids.

Definition result_of (id : nat) (s : lookups_state) : option lookup_phase :=
  call_phase <$> ls_calls s !! id.

(** Two lookups of a host with a live and a closed connection, one after the
    other, both find the live one; interleaved, the second one's first probe falls
    between the two probes of the first and takes the live connection from it: the
    first lookup probes the closed connection twice and returns [None], although a
    live tunnel is routed for the whole time. *)
Example concurrent_lookup_misses_live :
  let s := begin_call 1 "b.example.com" (begin_call 0 "b.example.com" demo_lookups) in
  let alone := schedule [0; 0; 0; 0; 1; 1; 1; 1] s in
  let both := schedule [0; 0; 0; 1; 1; 1; 0; 0] s in
  result_of 0 alone = Some (Returned (PSome (tunnel_to demo_entry 3))) ∧
  result_of 1 alone = Some (Returned (PSome (tunnel_to demo_entry 3))) ∧
  probes_of "b.example.com" both = [2; 3; 2] ∧
  result_of 1 both = Some (Returned (PSome (tunnel_to demo_entry 3))) ∧
  result_of 0 both = Some (Returned PNone).
Proof. split_and!; vm_compute; reflexivity. Qed.

(** The calls of [schedule] are reader steps. *)
Lemma schedule_steps ids s : rtc reader_step s (schedule ids s).
Proof.
  revert s. induction ids as [|id ids IH]; intros s; [apply rtc_refl|]. simpl.
  destruct (ls_calls s !! id) as [c|] eqn:Hc; [|apply IH].
  destruct (returned (call_phase c)) eqn:Hr; [apply IH|].
  eapply rtc_l; [by apply (Advance id c)|apply IH].
Qed.

Lemma demo_lookups_wf : lookups_wf demo_owner demo_lookups.
Proof. split; [exact demo_wf|apply map_Forall_empty]. Qed.

Definition demo_two_calls : lookups_state :=
  begin_call 1 "b.example.com" (begin_call 0 "b.example.com" demo_lookups).

Lemma demo_two_calls_steps : rtc reader_step demo_lookups demo_two_calls.
Proof.
  eapply rtc_l; [by apply (BeginCall 0 "b.example.com")|].
  eapply rtc_l; [by apply (BeginCall 1 "b.example.com")|]. apply rtc_refl.
Qed.

Lemma concurrent_round_robin_witness :
  ∃ new, probes_of "b.example.com" (schedule [0; 0; 0; 1; 1; 1; 0; 0] demo_two_calls) = new ∧
    take 2 (drop 1 new) ≡ₚ [2; 3].
Proof.
  assert (inner (ls_table demo_lookups) !! "b.example.com" = Some demo_entry) as He
    by (vm_compute; reflexivity).
  destruct (concurrent_round_robin demo_owner demo_lookups _ "b.example.com" demo_entry demo_lookups_wf He
    (rtc_trans _ _ _ demo_two_calls_steps (schedule_steps [0; 0; 0; 1; 1; 1; 0; 0] _)))
    as (new & Hnew & Hfair).
  exists new. split; [exact Hnew|].
  assert (new = [2; 3; 2]) as -> by (rewrite <- (app_nil_l new); change [] with (probes_of "b.example.com" demo_lookups);
    rewrite <- Hnew; vm_compute; reflexivity).
  apply (proj2 (Hfair ltac:(vm_compute; reflexivity)) 1). simpl. lia.
Defined.

Lemma lookup_wait_free_witness :
  ∃ r, own_steps "b.example.com"
    (replicate 3 (demo_open, demo_table) ++ replicate 3 (demo_open, demo_table0)) ReadTerminated = Returned r.
Proof.
  apply (lookup_wait_free 2); [|simpl; lia].
  apply Forall_app. split; apply Forall_replicate; vm_compute; lia.
Defined.

(** A reachable state with a call about to return. *)
Definition demo_installed : lookups_state :=
  with_table (install [("b.example.com", Passthrough)] (demo_owner 2) RoundRobin 2 demo_table0).1
    (lookups_init (hostnames demo_config) (upstreams demo_config)).

Definition demo_returning : lookups_state :=
  schedule [0; 0] (begin_call 0 "b.example.com" demo_installed).

Lemma demo_returning_reachable :
  lookups_reachable demo_owner (hostnames demo_config) (upstreams demo_config) demo_returning.
Proof.
  eapply rtc_l; [apply (Writer demo_owner); [apply map_Forall_empty|apply (WInstall _ [("b.example.com", Passthrough)] RoundRobin 2)]|].
  fold demo_installed. eapply rtc_l; [apply Reader, (BeginCall 0 "b.example.com"); done|].
  apply (rtc_subrel reader_step); [intros; by apply Reader|apply schedule_steps].
Qed.

Lemma concurrent_lookup_sound_witness :
  sound_result demo_owner demo_returning "b.example.com"
    (PSome (Tunnel {| re_client_name := "bob"; re_tls_mode := Passthrough; re_conn := 2 |})).
Proof.
  apply (concurrent_lookup_sound demo_owner _ _ demo_returning 0
    {| call_host := "b.example.com"; call_phase := Probing 1 |} _
    (lookup_step (is_closed demo_returning) "b.example.com" (ls_table demo_returning) (Probing 1)).1.2
    (Some 2) demo_returning_reachable); vm_compute; reflexivity.
Defined.
