(* ===== verification/Limits.v ===== *)
(** * Connection limits of the public listener

    [crates/tuyau-server/src/public.rs]: [max_conns_per_ip], [PerIpLimiter],
    [IpPermit] and the admission part of [accept_loop].

    The state is the global semaphore (its free permits), the per-IP counts and
    the connections being handled, each of which holds one permit of each kind
    until its task ends.  A machine step is one turn of the accept loop or the
    end of one connection. *)

From S2P Require Import Prelude.

(** ** Data *)

(** [std::net::IpAddr], by its text. *)
Definition IpAddr : Type := string.

Record PerIpLimiter := {
  max_per_ip : nat;
  counts : gmap IpAddr nat
}.

(** The permit a connection holds: dropping it releases the slot. *)
Abbreviation IpPermit := IpAddr.

Definition DEFAULT_MAX_PUBLIC_CONNECTIONS : nat := 1024.

Definition max_conns_per_ip (global : nat) : nat := (global / 8) `max` 16.

Definition PerIpLimiter_new (max_per_ip : nat) : PerIpLimiter :=
  {| max_per_ip := max_per_ip; counts := ∅ |}.

Definition set_counts (m : gmap IpAddr nat) (l : PerIpLimiter) : PerIpLimiter :=
  {| max_per_ip := max_per_ip l; counts := m |}.

(** [try_acquire(ip)]: the entry is created at 0 when absent, and stays. *)
Definition try_acquire (ip : IpAddr) (l : PerIpLimiter) : PerIpLimiter * option IpPermit :=
  let c := default 0 (counts l !! ip) in
  if decide (max_per_ip l ≤ c) then (set_counts (<[ip := c]> (counts l)) l, None)
  else (set_counts (<[ip := c + 1]> (counts l)) l, Some ip).

(** [IpPermit::drop]; [None] is the panic of the subtraction on a zero count. *)
Definition drop_permit (p : IpPermit) (l : PerIpLimiter) : option PerIpLimiter :=
  match counts l !! p with
  | None => Some l
  | Some O => None
  | Some (S c) =>
      Some (set_counts (if decide (c = 0) then delete p (counts l) else <[p := c]> (counts l)) l)
  end.

(** ** The accept loop *)

(** [permits] are the free permits of the global semaphore; [live] the
    connections being handled, by their source address. *)
Record AcceptState := {
  permits : nat;
  per_ip : PerIpLimiter;
  live : list IpAddr
}.

Definition accept_init (max_conns : nat) : AcceptState :=
  {| permits := max_conns; per_ip := PerIpLimiter_new (max_conns_per_ip max_conns); live := [] |}.

Inductive verdict :=
| Handled
| ShedGlobal
| ShedPerIp.

#[export] Instance verdict_eq_dec : EqDecision verdict.
Proof. solve_decision. Defined.

(** One accepted socket: [try_acquire_owned], then the per-IP slot (the global
    permit is dropped when that is refused), then the spawned task. *)
Definition on_accept (peer : IpAddr) (st : AcceptState) : AcceptState * verdict :=
  match permits st with
  | O => (st, ShedGlobal)
  | S p =>
      match try_acquire peer (per_ip st) with
      | (l, None) => ({| permits := S p; per_ip := l; live := live st |}, ShedPerIp)
      | (l, Some _) => ({| permits := p; per_ip := l; live := peer :: live st |}, Handled)
      end
  end.

(** The end of the [i]-th connection: its task drops both permits. *)
Definition on_close (i : nat) (st : AcceptState) : option AcceptState :=
  match live st !! i with
  | None => Some st
  | Some ip =>
      l ← drop_permit ip (per_ip st);
      Some {| permits := S (permits st); per_ip := l; live := delete i (live st) |}
  end.

Inductive accept_step : AcceptState → AcceptState → Prop :=
| step_accept peer st : accept_step st (on_accept peer st).1
| step_close i st st' : on_close i st = Some st' → accept_step st st'.

(** ** The invariant *)

(** How many of the connections come from [ip]. *)
Definition held (ip : IpAddr) (l : list IpAddr) : nat := length (filter (λ x, x = ip) l).

(** The counts are exact, no entry is 0, and the permits add up. *)
Record limits_wf (max_conns : nat) (st : AcceptState) : Prop := {
  lw_permits : permits st + length (live st) = max_conns;
  lw_cap : max_per_ip (per_ip st) = max_conns_per_ip max_conns;
  lw_counts : ∀ ip, counts (per_ip st) !! ip =
    (if decide (held ip (live st) = 0) then None else Some (held ip (live st)));
  lw_bound : ∀ ip, held ip (live st) ≤ max_conns_per_ip max_conns
}.

Lemma max_conns_per_ip_pos n : 16 ≤ max_conns_per_ip n.
Proof. unfold max_conns_per_ip. lia. Qed.

Lemma held_cons ip x l : held ip (x :: l) = (if decide (x = ip) then 1 else 0) + held ip l.
Proof.
  unfold held. case_decide; [by rewrite filter_cons_True|by rewrite filter_cons_False].
Qed.

Lemma held_delete ip i l x :
  l !! i = Some x → held ip l = (if decide (x = ip) then 1 else 0) + held ip (delete i l).
Proof.
  intros Hi. rewrite <- held_cons. unfold held.
  apply Permutation_length. by rewrite (delete_Permutation _ _ _ Hi) at 1.
Qed.

Lemma lw_count_default n st ip :
  limits_wf n st → default 0 (counts (per_ip st) !! ip) = held ip (live st).
Proof. intros []. rewrite lw_counts0. case_decide; simpl; lia. Qed.

Lemma on_accept_cases n peer st :
  limits_wf n st →
  on_accept peer st =
  if decide (length (live st) = n) then (st, ShedGlobal)
  else if decide (held peer (live st) = max_conns_per_ip n)
  then ({| permits := permits st;
           per_ip := set_counts (<[peer := held peer (live st)]> (counts (per_ip st))) (per_ip st);
           live := live st |}, ShedPerIp)
  else ({| permits := pred (permits st);
           per_ip := set_counts (<[peer := S (held peer (live st))]> (counts (per_ip st))) (per_ip st);
           live := peer :: live st |}, Handled).
Proof.
  intros Hwf. pose proof (lw_count_default n st peer Hwf) as Hd. destruct Hwf as [Hp Hcap _ Hb].
  specialize (Hb peer). unfold on_accept, try_acquire. rewrite Hd, Hcap.
  destruct (permits st) as [|p]; [by rewrite decide_True by lia|].
  repeat case_decide; try lia; [done|]. by rewrite Nat.add_1_r.
Qed.

Lemma on_accept_wf n peer st : limits_wf n st → limits_wf n (on_accept peer st).1.
Proof.
  intros Hwf. rewrite (on_accept_cases n) by done. pose proof Hwf as [Hp Hcap Hc Hb].
  pose proof (max_conns_per_ip_pos n). case_decide; [done|]. case_decide; simpl.
  - split; simpl; [done..| |done]. intros ip. destruct (decide (peer = ip)) as [<-|].
    + rewrite lookup_insert_eq, decide_False by lia. done.
    + by rewrite lookup_insert_ne, Hc.
  - split; simpl; [lia|done| |].
    + intros ip. rewrite held_cons. destruct (decide (peer = ip)) as [<-|].
      * rewrite lookup_insert_eq, decide_False by lia. done.
      * by rewrite lookup_insert_ne, Hc.
    + intros ip. rewrite held_cons. specialize (Hb ip). case_decide; [subst|]; lia.
Qed.

(** Dropping a permit never underflows, and keeps the invariant. *)
Lemma on_close_wf n i st :
  limits_wf n st → ∃ st', on_close i st = Some st' ∧ limits_wf n st' ∧
    live st' = match live st !! i with Some _ => delete i (live st) | None => live st end.
Proof.
  intros Hwf. pose proof Hwf as [Hp Hcap Hc Hb]. unfold on_close.
  destruct (live st !! i) as [ip|] eqn:Hi; [|by eexists].
  pose proof (held_delete ip i _ _ Hi) as Hh. rewrite decide_True in Hh by done.
  unfold drop_permit. rewrite Hc, decide_False by lia. rewrite Hh. simpl.
  eexists. split_and!; [done| |done]. split; simpl.
  - rewrite length_delete by (by eexists).
    assert (0 < length (live st)) by (apply lookup_lt_Some in Hi; lia). lia.
  - done.
  - intros ip'. pose proof (held_delete ip' i _ _ Hi) as Hh'.
    destruct (decide (ip = ip')) as [<-|Hne].
    + case_decide; [by rewrite lookup_delete_eq|by rewrite lookup_insert_eq].
    + simpl in Hh'. rewrite <- Hh'.
      case_decide; rewrite ?lookup_delete_ne, ?lookup_insert_ne by done; apply Hc.
  - intros ip'. pose proof (held_delete ip' i _ _ Hi). specialize (Hb ip'). lia.
Qed.

Lemma accept_init_wf n : limits_wf n (accept_init n).
Proof. split; simpl; [lia|done|done|]. intros ip. unfold held. simpl. lia. Qed.

Lemma accept_reachable_wf n st : rtc accept_step (accept_init n) st → limits_wf n st.
Proof.
  intros Hr. pose proof (accept_init_wf n) as Hwf. induction Hr as [|st1 st2 st3 Hs _ IH]; [done|].
  apply IH. destruct Hs as [peer st|i st st' Hc]; [by apply on_accept_wf|].
  destruct (on_close_wf n i st Hwf) as (st'' & Hc' & ? & _). congruence.
Qed.

(** ** Theorems *)

(** The limits hold and never leak.  Whatever sequence of connections
    arrives and ends: at most [max_conns] are handled at once and at most
    [max_conns_per_ip max_conns] of one address; the table of counts has an entry
    exactly for the addresses with a live connection, with their exact number;
    and the end of a connection never underflows a count. *)
Theorem limits_invariant n st :
  rtc accept_step (accept_init n) st →
  length (live st) ≤ n ∧
  (∀ ip, held ip (live st) ≤ max_conns_per_ip n) ∧
  (∀ ip c, counts (per_ip st) !! ip = Some c ↔ c = held ip (live st) ∧ 0 < c) ∧
  (∀ i, is_Some (on_close i st)).
Proof.
  intros Hwf%accept_reachable_wf. pose proof Hwf as [Hp Hcap Hc Hb]. split_and!; [lia|done| |].
  - intros ip c. rewrite Hc. case_decide; [intuition (done || lia)|].
    split; [intros [= <-]; lia|by intros [-> _]].
  - intros i. destruct (on_close_wf n i st Hwf) as (st' & ? & _). by exists st'.
Qed.

(** Admission is exactly the two caps: a new connection is shed for the
    global cap when [max_conns] are live, shed for its address when that address
    holds its share, and handled otherwise; a shed connection changes neither the
    live connections nor any count. *)
Theorem admission_policy n st peer st' v :
  rtc accept_step (accept_init n) st →
  on_accept peer st = (st', v) →
  (v = ShedGlobal ↔ length (live st) = n) ∧
  (v = ShedPerIp ↔ length (live st) < n ∧ held peer (live st) = max_conns_per_ip n) ∧
  (v = Handled ↔ length (live st) < n ∧ held peer (live st) < max_conns_per_ip n) ∧
  (v = Handled → live st' = peer :: live st) ∧
  (v ≠ Handled → live st' = live st ∧ permits st' = permits st ∧
     ∀ ip, counts (per_ip st') !! ip = counts (per_ip st) !! ip).
Proof.
  intros Hwf%accept_reachable_wf. rewrite (on_accept_cases n) by done.
  pose proof Hwf as [Hp Hcap Hc Hb]. specialize (Hb peer). pose proof (max_conns_per_ip_pos n).
  case_decide; [|case_decide as Hh]; intros [= <- <-]; simpl; split_and!;
    try done; try (split; [done|lia]); try (split; [lia|done]).
  intros _. split_and!; [done..|]. intros ip. destruct (decide (peer = ip)) as [<-|].
  - rewrite lookup_insert_eq, Hc, decide_False by lia. done.
  - by rewrite lookup_insert_ne.
Qed.

(** One address cannot starve the others: as long as the share of one
    address is below the global cap, then while every live connection comes from
    a single other address, a connection of a new address is handled. *)
Theorem no_starvation n st attacker peer :
  rtc accept_step (accept_init n) st →
  max_conns_per_ip n < n →
  (∀ ip, ip ∈ live st → ip = attacker) → peer ≠ attacker →
  (on_accept peer st).2 = Handled.
Proof.
  intros Hwf%accept_reachable_wf Hshare Hall Hne. rewrite (on_accept_cases n) by done.
  pose proof Hwf as [Hp Hcap Hc Hb]. specialize (Hb attacker). pose proof (max_conns_per_ip_pos n).
  assert (held attacker (live st) = length (live st)) as Hlen.
  { unfold held. f_equal. clear -Hall. induction (live st) as [|x l IH]; [done|].
    rewrite filter_cons_True by (apply Hall; left). f_equal. apply IH. intros ip ?. apply Hall. by right. }
  assert (held peer (live st) = 0) as Hzero.
  { unfold held. clear -Hall Hne. induction (live st) as [|x l IH]; [done|].
    rewrite filter_cons_False; [apply IH; intros ip ?; apply Hall; by right|].
    intros ->. apply Hne. apply Hall. left. }
  rewrite decide_False by lia. rewrite decide_False by lia. done.
Qed.

(** ** Witnesses *)

Definition demo_accepts (n : nat) : AcceptState :=
  Nat.iter n (λ st, (on_accept "10.0.0.1"%string st).1) (accept_init 20).

Lemma demo_accepts_reachable n : rtc accept_step (accept_init 20) (demo_accepts n).
Proof.
  induction n as [|n IH]; [apply rtc_refl|].
  eapply rtc_r; [exact IH|]. exact (step_accept "10.0.0.1"%string (demo_accepts n)).
Defined.

Lemma limits_invariant_witness : length (live (demo_accepts 17)) ≤ 20.
Proof. exact (proj1 (limits_invariant 20 (demo_accepts 17) (demo_accepts_reachable 17))). Defined.

Lemma admission_policy_witness :
  (on_accept "10.0.0.1"%string (demo_accepts 16)).2 = ShedPerIp.
Proof.
  destruct (admission_policy 20 (demo_accepts 16) "10.0.0.1"%string _ _ (demo_accepts_reachable 16)
    (surjective_pairing _)) as (_ & H & _).
  apply H. vm_compute. split; [lia|reflexivity].
Defined.

Lemma no_starvation_witness : (on_accept "10.0.0.2"%string (demo_accepts 18)).2 = Handled.
Proof.
  apply (no_starvation 20 (demo_accepts 18) "10.0.0.1"%string "10.0.0.2"%string
    (demo_accepts_reachable 18)).
  - vm_compute. lia.
  - apply Forall_forall. vm_compute. repeat constructor.
  - discriminate.
Defined.
