(* ===== verification/Backend.v ===== *)
(** * Admission policy

    [crates/tuyau-server/src/backend.rs]: the [RoutingBackend] trait, the
    server's only policy input, and its configuration-backed implementation.

    The trait is the class [RoutingBackend]: [admits b token answer] when the
    backend may answer [answer] (a dynamic backend may answer differently at
    different times).  [StaticBackend] implements it with a function. *)

From S2P Require Import Prelude Bytes Protocol Config.

Local Open Scope string_scope.
Local Open Scope list_scope.

Record ClientGrant := {
  cg_client_name : string;
  cg_balance : Balance;
  cg_hostnames : list (string * TlsMode)
}.

Class RoutingBackend (B : Type) :=
  admits : B → list byte → option ClientGrant → Prop.

(** ** The static backend *)

Record StaticBackend := {
  sb_clients : list ClientEntry;
  sb_hostnames : list HostnameEntry
}.

Definition StaticBackend_new (cfg : ServerConfig) : StaticBackend :=
  {| sb_clients := clients cfg; sb_hostnames := hostnames cfg |}.

(** The loop over the clients: every entry is compared, the last match wins. *)
Fixpoint match_token (token : list byte) (matched : option ClientEntry) (l : list ClientEntry) :
    option ClientEntry :=
  match l with
  | [] => matched
  | c :: l => match_token token (if decide (token = ce_token c) then Some c else matched) l
  end.

Definition StaticBackend_admit (b : StaticBackend) (token : list byte) : option ClientGrant :=
  client ← match_token token None (sb_clients b);
  let hostnames :=
    (λ h, (he_host h, he_tls_mode h)) <$>
      filter (λ h, he_client h = ce_name client) (sb_hostnames b) in
  Some {| cg_client_name := ce_name client; cg_balance := ce_balance client;
          cg_hostnames := hostnames |}.

#[export] Instance StaticBackend_backend : RoutingBackend StaticBackend :=
  λ b token answer, answer = StaticBackend_admit b token.

(** ** Lemmas *)

Lemma match_token_spec token matched l :
  match_token token matched l =
  match last (filter (λ c, token = ce_token c) l) with Some c => Some c | None => matched end.
Proof.
  revert matched. induction l as [|c l IH]; intros matched; [done|]. cbn [match_token].
  rewrite IH. case_decide as Hd.
  - rewrite filter_cons_True, last_cons by done. by destruct (last _).
  - by rewrite filter_cons_False by done.
Qed.

Lemma admit_Some b token g :
  StaticBackend_admit b token = Some g ↔
  ∃ c, last (filter (λ c, token = ce_token c) (sb_clients b)) = Some c ∧
    g = {| cg_client_name := ce_name c; cg_balance := ce_balance c;
           cg_hostnames := (λ h, (he_host h, he_tls_mode h)) <$>
             filter (λ h, he_client h = ce_name c) (sb_hostnames b) |}.
Proof.
  unfold StaticBackend_admit. rewrite match_token_spec. destruct (last _) as [c|]; simpl.
  - split; [intros [= <-]; eauto|]. by intros (? & [= <-] & ->).
  - split; [done|]. by intros (? & ? & _).
Qed.

Lemma granted_host b token g h m :
  StaticBackend_admit b token = Some g →
  (h, m) ∈ cg_hostnames g ↔
  ∃ e, e ∈ sb_hostnames b ∧ he_client e = cg_client_name g ∧ he_host e = h ∧ he_tls_mode e = m.
Proof.
  intros (c & _ & ->)%admit_Some. simpl. rewrite list_elem_of_fmap.
  setoid_rewrite list_elem_of_filter. split.
  - intros (e & [= -> ->] & ? & ?). eauto 6.
  - intros (e & ? & ? & <- & <-). eauto 6.
Qed.

(** Two entries of a list whose keys are distinct are the same when their keys
    are. *)
Lemma NoDup_fmap_inj {A B} (f : A → B) l x y :
  NoDup (f <$> l) → x ∈ l → y ∈ l → f x = f y → x = y.
Proof.
  intros Hnd [i Hi]%list_elem_of_lookup [j Hj]%list_elem_of_lookup Heq.
  assert (i = j) as ->; [|congruence]. eapply NoDup_lookup; [done|..].
  - by rewrite list_lookup_fmap, Hi.
  - rewrite list_lookup_fmap, Hj. simpl. by rewrite Heq.
Qed.

(** ** Theorems *)

(** A token is admitted exactly when some configured client has it; the
    grant is that client's (the last of several with the same token), with its
    balance policy and exactly the hostnames the configuration binds to its
    name, each with its mode. *)
Theorem static_admit_correct b token :
  (StaticBackend_admit b token = None ↔ ∀ c, c ∈ sb_clients b → ce_token c ≠ token) ∧
  (∀ g, StaticBackend_admit b token = Some g →
     (∃ c l1 l2, sb_clients b = l1 ++ c :: l2 ∧ ce_token c = token ∧
        (∀ c', c' ∈ l2 → ce_token c' ≠ token) ∧
        cg_client_name g = ce_name c ∧ cg_balance g = ce_balance c) ∧
     (∀ h m, (h, m) ∈ cg_hostnames g ↔
        ∃ e, e ∈ sb_hostnames b ∧ he_client e = cg_client_name g ∧
          he_host e = h ∧ he_tls_mode e = m)).
Proof.
  split.
  - unfold StaticBackend_admit. rewrite match_token_spec. destruct (last _) as [c|] eqn:E; simpl.
    + split; [done|]. intros Hno. apply last_Some_elem_of, list_elem_of_filter in E as [-> Hc].
      by destruct (Hno c Hc).
    + apply last_None in E. split; [|done]. intros _ c Hc <-.
      eapply (not_elem_of_nil c). rewrite <- E. by apply list_elem_of_filter.
  - intros g Hg. split; [|by intros h m; apply (granted_host b token)].
    apply admit_Some in Hg as (c & Hlast & ->). simpl.
    induction (sb_clients b) as [|c' l IH] using rev_ind; [done|].
    rewrite filter_app in Hlast. destruct (decide (token = ce_token c')) as [Heq|Hne].
    + rewrite filter_cons_True, filter_nil, last_snoc in Hlast by done. simplify_eq.
      exists c, l, []. split_and!; try done. by intros ? []%not_elem_of_nil.
    + rewrite filter_cons_False, filter_nil, app_nil_r in Hlast by done.
      destruct (IH Hlast) as (c0 & l1 & l2 & -> & ? & Hl2 & ? & ?). exists c0, l1, (l2 ++ [c']).
      rewrite <- app_assoc. split_and!; try done.
      intros x [Hx| ->%list_elem_of_singleton]%elem_of_app; auto.
Qed.

(** With a valid configuration the grants are consistent: no host is granted
    twice, or to two different clients, a host that a local upstream has is never
    granted, and equal client names come with the same grant. *)
Theorem static_grants_disjoint cfg t1 t2 g1 g2 :
  validate cfg = Ok () →
  StaticBackend_admit (StaticBackend_new cfg) t1 = Some g1 →
  StaticBackend_admit (StaticBackend_new cfg) t2 = Some g2 →
  NoDup (cg_hostnames g1).*1 ∧
  (∀ h, h ∈ (cg_hostnames g1).*1 → h ∈ (cg_hostnames g2).*1 →
     cg_client_name g1 = cg_client_name g2) ∧
  (∀ h, h ∈ (cg_hostnames g1).*1 → h ∉ (ue_host <$> upstreams cfg)) ∧
  (cg_client_name g1 = cg_client_name g2 → g1 = g2).
Proof.
  intros [_ Hcl [Hnd [Hdisj _]]%NoDup_app _ _]%validate_Ok Hg1 Hg2.
  assert (∀ t g h, StaticBackend_admit (StaticBackend_new cfg) t = Some g → h ∈ (cg_hostnames g).*1 →
    ∃ e, e ∈ hostnames cfg ∧ he_client e = cg_client_name g ∧ he_host e = h) as Hent.
  { intros t g h Hg ([h' m] & -> & Hin)%list_elem_of_fmap.
    apply (granted_host _ t g _ _ Hg) in Hin as (e & ? & ? & ? & _). eauto. }
  split_and!.
  - apply admit_Some in Hg1 as (c & _ & ->). simpl. rewrite <- list_fmap_compose.
    change (fst ∘ _) with he_host. clear -Hnd. induction (hostnames cfg) as [|e l IH]; [constructor|].
    csimpl in Hnd. apply NoDup_cons in Hnd as [Hn Hnd].
    rewrite filter_cons. case_decide; [|by auto]. csimpl. apply NoDup_cons. split; [|by auto].
    intros (e' & He & [_ Hin]%list_elem_of_filter)%list_elem_of_fmap. apply Hn. rewrite He.
    by apply list_elem_of_fmap_2.
  - intros h H1 H2. destruct (Hent _ _ _ Hg1 H1) as (e1 & ? & <- & He1).
    destruct (Hent _ _ _ Hg2 H2) as (e2 & ? & <- & He2). f_equal.
    apply (NoDup_fmap_inj he_host (hostnames cfg)); congruence.
  - intros h H1. destruct (Hent _ _ _ Hg1 H1) as (e1 & ? & _ & <-). apply Hdisj.
    by apply list_elem_of_fmap_2.
  - apply admit_Some in Hg1 as (c1 & Hc1%last_Some_elem_of & ->).
    apply admit_Some in Hg2 as (c2 & Hc2%last_Some_elem_of & ->). simpl. intros Hname.
    apply list_elem_of_filter in Hc1 as [_ Hc1], Hc2 as [_ Hc2]. simpl in *.
    by rewrite (NoDup_fmap_inj ce_name (clients cfg) c1 c2 Hcl Hc1 Hc2 Hname).
Qed.

(** ** Witnesses *)

Definition demo_grant : ClientGrant :=
  {| cg_client_name := "alice"; cg_balance := LastWriteWins;
     cg_hostnames := [("a.example.com", Terminated)] |}.

Lemma static_admit_correct_witness :
  ("a.example.com", Terminated) ∈ cg_hostnames demo_grant.
Proof.
  apply (proj2 (proj2 (static_admit_correct (StaticBackend_new demo_config) (replicate 32 x07))
    demo_grant ltac:(vm_compute; reflexivity))).
  exists {| he_host := "a.example.com"; he_client := "alice"; he_tls_mode := Terminated;
            he_tls_cert_file := None; he_tls_key_file := None |}.
  repeat split. left.
Defined.

Lemma static_grants_disjoint_witness : NoDup (cg_hostnames demo_grant).*1.
Proof.
  apply (static_grants_disjoint demo_config (replicate 32 x07) (replicate 32 x08) demo_grant
    {| cg_client_name := "bob"; cg_balance := RoundRobin;
       cg_hostnames := [("b.example.com", Passthrough)] |}); vm_compute; reflexivity.
Defined.
