(* ===== verification/Control.v ===== *)
(** * Tunnel observability

    [crates/tuyau-server/src/control.rs] (the [dynamic] build): the registry of
    live tunnels and the event stream, each operation in one step.  The broadcast
    channel is the log of the events sent, in order; [Events] has its subscribers. *)

From S2P Require Import Prelude Config.

Record TunnelInfo := {
  ti_client_name : string;
  ti_peer : SocketAddr;
  ti_hostnames : list string
}.

Inductive ControlEvent :=
| TunnelUp (client_name : string) (peer : SocketAddr) (hostnames : list string)
| TunnelDown (client_name : string) (peer : SocketAddr).

Record Control := {
  ctl_tunnels : gmap nat TunnelInfo;
  ctl_events : list ControlEvent
}.

Definition Control_new : Control := {| ctl_tunnels := ∅; ctl_events := [] |}.

Definition register (id : nat) (info : TunnelInfo) (c : Control) : Control :=
  let event := TunnelUp (ti_client_name info) (ti_peer info) (ti_hostnames info) in
  {| ctl_tunnels := <[id := info]> (ctl_tunnels c); ctl_events := ctl_events c ++ [event] |}.

Definition unregister (id : nat) (c : Control) : Control :=
  let tunnels := delete id (ctl_tunnels c) in
  match ctl_tunnels c !! id with
  | Some info =>
      {| ctl_tunnels := tunnels;
         ctl_events := ctl_events c ++ [TunnelDown (ti_client_name info) (ti_peer info)] |}
  | None => {| ctl_tunnels := tunnels; ctl_events := ctl_events c |}
  end.

(** [tunnels()]: the values of the registry, in the map's order. *)
Definition tunnels (c : Control) : list TunnelInfo := (map_to_list (ctl_tunnels c)).*2.

(** ** The events account for the registry *)

(** Who is meant by an event, if it is an up, or a down. *)
Definition up_of (e : ControlEvent) : option (string * SocketAddr) :=
  match e with TunnelUp n p _ => Some (n, p) | TunnelDown _ _ => None end.
Definition down_of (e : ControlEvent) : option (string * SocketAddr) :=
  match e with TunnelUp _ _ _ => None | TunnelDown n p => Some (n, p) end.
Definition info_key (i : TunnelInfo) : string * SocketAddr := (ti_client_name i, ti_peer i).

(** The ups are the downs and the live tunnels. *)
Definition accounted (c : Control) : Prop :=
  omap up_of (ctl_events c) ≡ₚ omap down_of (ctl_events c) ++ (info_key <$> tunnels c).

Inductive control_step : Control → Control → Prop :=
| control_register id info c :
    ctl_tunnels c !! id = None → control_step c (register id info c)
| control_unregister id c : control_step c (unregister id c).

Lemma register_accounted id info c :
  ctl_tunnels c !! id = None → accounted c → accounted (register id info c).
Proof.
  unfold accounted, tunnels. intros Hid Hacc. simpl. rewrite !omap_app. simpl. rewrite app_nil_r.
  rewrite map_to_list_insert by done. csimpl. rewrite Hacc. solve_Permutation.
Qed.

Lemma unregister_accounted id c : accounted c → accounted (unregister id c).
Proof.
  unfold accounted, tunnels, unregister. intros Hacc.
  destruct (ctl_tunnels c !! id) as [info|] eqn:E; simpl.
  - rewrite !omap_app. simpl. rewrite app_nil_r, Hacc.
    rewrite <- (map_to_list_delete _ _ _ E). csimpl. solve_Permutation.
  - by rewrite delete_id.
Qed.

(** The event stream accounts exactly for the registry: after any sequence
    of registrations (of connections not yet registered) and unregistrations,
    the tunnels announced up are, as a multiset of client and address, those
    announced down together with those in the registry.  No tunnel goes down
    that did not come up, none twice, and none disappears silently. *)
Theorem control_accounted c : rtc control_step Control_new c → accounted c.
Proof.
  intros Hr. assert (accounted Control_new) as Hacc
    by (unfold accounted, tunnels; simpl; by rewrite map_to_list_empty).
  induction Hr as [|c1 c2 c3 Hs _ IH]; [done|]. apply IH.
  destruct Hs; [by apply register_accounted|by apply unregister_accounted].
Qed.

Lemma control_accounted_witness :
  accounted (unregister 7 (register 7 {| ti_client_name := "alice"; ti_peer := "10.0.0.1:999";
    ti_hostnames := ["a.example.com"%string] |} Control_new)).
Proof.
  apply control_accounted. eapply rtc_l; [apply control_register; reflexivity|].
  eapply rtc_l; [apply control_unregister|apply rtc_refl].
Defined.
