(* ===== verification/Events.v ===== *)
(** * The event stream and its subscribers

    [crates/tuyau-server/src/control.rs] at the granularity of its locks:
    [register] and [unregister] change the registry under the write lock and send
    their event after they have released it, so the events of two handlers may
    be sent in another order than the changes were made, and a snapshot may show
    a change whose event is still to come.  The broadcast channel is tokio's, a
    parameter with the behaviour its documentation states.  [Control] is the same
    component with each operation in one step. *)

From S2P Require Import Prelude Config Control.

(** ** The broadcast channel *)

(** What [recv] has for a receiver: the next value, the number of values that
    it missed, or nothing yet. *)
Inductive received (A : Type) :=
| Value (a : A)
| Lagged (missed : nat)
| Empty.
Arguments Value {A} _.
Arguments Lagged {A} _.
Arguments Empty {A}.

Class Broadcast (A : Type) := {
  sender : Type;
  receiver : Type;
  channel : nat → sender;
  send : A → sender → sender;
  subscribe : sender → receiver;
  recv : sender → receiver → receiver * received A
}.
Arguments sender A {_}.
Arguments receiver A {_}.

(** [tokio::sync::broadcast]: every receiver has the values sent after it
    subscribed, in order; the channel keeps the last [capacity] of them, and a
    receiver that is further behind is told how many it missed and goes on with
    the oldest value kept. *)
Class BroadcastLaws (A : Type) `{Broadcast A} := {
  sent : sender A → list A;
  capacity : sender A → nat;
  next : receiver A → nat;
  sent_channel n : sent (channel n) = [];
  capacity_channel n : capacity (channel n) = n;
  sent_send a s : sent (send a s) = sent s ++ [a];
  capacity_send a s : capacity (send a s) = capacity s;
  next_subscribe s : next (subscribe s) = length (sent s);
  recv_empty s r : next r = length (sent s) → recv s r = (r, Empty);
  recv_value s r a :
    sent s !! next r = Some a → length (sent s) ≤ next r + capacity s →
    ∃ r', recv s r = (r', Value a) ∧ next r' = S (next r);
  recv_lagged s r :
    next r + capacity s < length (sent s) →
    ∃ r', next r' = length (sent s) - capacity s ∧
      recv s r = (r', Lagged (next r' - next r))
}.

(** The channel as a log with absolute positions: an instance of the laws. *)
#[export] Instance log_broadcast A : Broadcast A := {
  sender := list A * nat;
  receiver := nat;
  channel n := ([], n);
  send a s := (s.1 ++ [a], s.2);
  subscribe s := length s.1;
  recv s r :=
    if decide (r + s.2 < length s.1) then (length s.1 - s.2, Lagged (length s.1 - s.2 - r))
    else match s.1 !! r with Some a => (S r, Value a) | None => (r, Empty) end
}.

#[export] Instance log_broadcast_laws A : BroadcastLaws A.
Proof.
  refine {| sent s := s.1; capacity s := s.2; next r := r |}; try done; cbn.
  - intros s r ->. case_decide; [lia|]. by rewrite lookup_ge_None_2.
  - intros s r a Ha Hl. case_decide; [lia|]. rewrite Ha. by eexists.
  - intros s r Hl. case_decide; [|lia]. by eexists.
Defined.

(** ** What a subscriber receives *)

Section subscriber.
Context {A : Type} `{BroadcastLaws A}.

(** [sub_step]: the senders send, the subscriber receives. *)
Inductive sub_step : sender A * receiver A * list (received A) →
                     sender A * receiver A * list (received A) → Prop :=
| sub_send a s r out : sub_step (s, r, out) (send a s, r, out)
| sub_recv s r r' x out : recv s r = (r', x) → sub_step (s, r, out) (s, r', out ++ [x]).

(** What was received tells of the values: each is received or counted as
    missed, in order. *)
Inductive tells : list (received A) → list A → Prop :=
| tells_nil : tells [] []
| tells_value out l a : tells out l → tells (out ++ [Value a]) (l ++ [a])
| tells_lagged out l missed : tells out l → tells (out ++ [Lagged (length missed)]) (l ++ missed)
| tells_empty out l : tells out l → tells (out ++ [Empty]) l.

Definition values : list (received A) → list A :=
  omap (λ x, match x with Value a => Some a | _ => None end).

Definition no_lag (out : list (received A)) : Prop := ∀ n, Lagged n ∉ out.

(** The three cases of [recv] in one. *)
Lemma recv_cases s r r' x :
  recv s r = (r', x) → next r ≤ length (sent s) →
  (x = Empty ∧ r' = r ∧ next r = length (sent s)) ∨
  (∃ a, x = Value a ∧ sent s !! next r = Some a ∧ next r' = S (next r) ∧
    length (sent s) ≤ next r + capacity s) ∨
  (next r + capacity s < length (sent s) ∧ x = Lagged (next r' - next r) ∧
    next r' = length (sent s) - capacity s).
Proof.
  intros Hr Hle. destruct (decide (next r = length (sent s))) as [He|He].
  - rewrite (recv_empty s r He) in Hr. simplify_eq. by left.
  - destruct (lookup_lt_is_Some_2 (sent s) (next r)) as [a Ha]; [lia|].
    destruct (decide (next r + capacity s < length (sent s))) as [Hl|Hl].
    + destruct (recv_lagged s r Hl) as (r1 & Hn & E). rewrite E in Hr. simplify_eq. auto.
    + destruct (recv_value s r a Ha) as (r1 & E & Hn); [lia|]. rewrite E in Hr. simplify_eq. right; left.
      exists a. repeat split; [done..|lia].
Qed.

Lemma recv_next s r r' x :
  recv s r = (r', x) → next r ≤ length (sent s) → next r ≤ next r' ≤ length (sent s).
Proof.
  intros Hr Hle. destruct (recv_cases _ _ _ _ Hr Hle) as [(_ & -> & _)|[(a & _ & Ha & -> & _)|(? & _ & ->)]];
    [lia|apply lookup_lt_Some in Ha; lia|lia].
Qed.

Lemma tells_no_lag out l : tells out l → no_lag out → values out = l.
Proof.
  induction 1 as [|out l a _ IH|out l m _ IH|out l _ IH]; intros Hn; [done|..];
    unfold values; rewrite omap_app; cbn.
  - f_equal. apply IH. intros n ?. apply (Hn n), elem_of_app. by left.
  - destruct (Hn (length m)). apply elem_of_app. right. by left.
  - rewrite app_nil_r. apply IH. intros n ?. apply (Hn n), elem_of_app. by left.
Qed.

(** The part of the log a subscriber has gone through since position [p]. *)
Definition passed (p : nat) (s : sender A) (r : receiver A) : list A :=
  take (next r - p) (drop p (sent s)).

Lemma passed_send p a s r : next r ≤ length (sent s) → passed p (send a s) r = passed p s r.
Proof.
  intros Hle. unfold passed. rewrite sent_send. destruct (decide (p ≤ length (sent s))).
  - rewrite drop_app_le by done. apply take_app_le. rewrite length_drop. lia.
  - by replace (next r - p) with 0 by lia.
Qed.

Lemma passed_recv p s r r' :
  p ≤ next r → next r ≤ next r' →
  passed p s r' = passed p s r ++ take (next r' - next r) (drop (next r) (sent s)).
Proof.
  intros Hp Hr. unfold passed.
  replace (next r' - p) with ((next r - p) + (next r' - next r)) by lia.
  rewrite <- take_take_drop, drop_drop. by replace (p + (next r - p)) with (next r) by lia.
Qed.

Lemma passed_rest p s r : p ≤ next r → passed p s r ++ drop (next r) (sent s) = drop p (sent s).
Proof.
  intros Hp. unfold passed. rewrite <- (take_drop (next r - p) (drop p (sent s))) at 2.
  rewrite drop_drop. by replace (p + (next r - p)) with (next r) by lia.
Qed.

(** A subscriber that started after the values [l0]. *)
Definition stream_inv (l0 : list A) (c : nat) (t : sender A * receiver A * list (received A)) : Prop :=
  let '(s, r, out) := t in
  take (length l0) (sent s) = l0 ∧ length l0 ≤ next r ≤ length (sent s) ∧ capacity s = c ∧
  tells out (passed (length l0) s r).

Lemma sub_step_inv l0 c t t' : sub_step t t' → stream_inv l0 c t → stream_inv l0 c t'.
Proof.
  intros [a s r out|s r r' x out Hr]; intros (Hpre & [Hp Hle] & Hc & Ht).
  - repeat split; [|done| |by rewrite capacity_send|by rewrite passed_send].
    + rewrite sent_send, take_app_le; [done|lia].
    + rewrite sent_send, length_app. lia.
  - destruct (recv_next _ _ _ _ Hr Hle) as [Hn Hn']. repeat split; [done|lia|done|done|].
    rewrite (passed_recv (length l0) s r r') by done.
    destruct (recv_cases _ _ _ _ Hr Hle) as [(-> & -> & _)|[(a & -> & Ha & Hs & _)|(Hl & -> & Hs)]].
    + rewrite Nat.sub_diag. cbn. rewrite app_nil_r. by constructor.
    + rewrite Hs. replace (S (next r) - next r) with 1 by lia.
      rewrite (drop_S _ _ _ Ha). cbn. by constructor.
    + set (m := take _ _). assert (length m = next r' - next r) as <-; [|by constructor].
      unfold m. rewrite length_take, length_drop. lia.
Qed.

Lemma subscribed_inv s : stream_inv (sent s) (capacity s) (s, subscribe s, []).
Proof.
  unfold stream_inv, passed. rewrite next_subscribe, Nat.sub_diag. repeat split; [by rewrite firstn_all|lia..|constructor].
Qed.

Lemma sub_steps_inv s t :
  rtc sub_step (s, subscribe s, []) t → stream_inv (sent s) (capacity s) t.
Proof.
  intros Hr. generalize (subscribed_inv s). induction Hr as [|t1 t2 t3 Hs _ IH]; [done|].
  intros Hi. eapply IH, sub_step_inv; done.
Qed.
End subscriber.

(** ** The registry and its events, one lock at a time *)

Definition EVENT_CAPACITY : nat := 256.

Section control.
Context `{BroadcastLaws ControlEvent}.

(** [Inner], and the events of the calls that are between their two halves: any
    number of calls may be, in any order.  The bodies under the lock are one map
    operation and cannot panic, so the lock is never poisoned. *)
Record Inner := {
  in_tunnels : gmap nat TunnelInfo;
  in_events : sender ControlEvent;
  in_held : list ControlEvent
}.

Definition Inner_new : Inner :=
  {| in_tunnels := ∅; in_events := channel EVENT_CAPACITY; in_held := [] |}.

(** The first half of [register]: the event is made, and the entry inserted
    under the lock. *)
Definition register_insert (stable_id : nat) (info : TunnelInfo) (i : Inner) : Inner :=
  let event := TunnelUp (ti_client_name info) (ti_peer info) (ti_hostnames info) in
  {| in_tunnels := <[stable_id := info]> (in_tunnels i);
     in_events := in_events i;
     in_held := event :: in_held i |}.

(** The first half of [unregister]: the entry is removed under the lock. *)
Definition unregister_remove (stable_id : nat) (i : Inner) : Inner :=
  let removed := in_tunnels i !! stable_id in
  {| in_tunnels := delete stable_id (in_tunnels i);
     in_events := in_events i;
     in_held :=
       match removed with
       | Some info => TunnelDown (ti_client_name info) (ti_peer info) :: in_held i
       | None => in_held i
       end |}.

(** The second half of both: one of the calls sends the event it holds. *)
Definition send_held (n : nat) (i : Inner) : Inner :=
  match in_held i !! n with
  | Some event =>
      {| in_tunnels := in_tunnels i;
         in_events := send event (in_events i);
         in_held := delete n (in_held i) |}
  | None => i
  end.

Definition inner_subscribe (i : Inner) : receiver ControlEvent := subscribe (in_events i).

Definition inner_tunnels (i : Inner) : list TunnelInfo := (map_to_list (in_tunnels i)).*2.

(** The halves, and any sequence of them. *)
Inductive inner_op :=
| Insert (stable_id : nat) (info : TunnelInfo)
| Remove (stable_id : nat)
| Send (n : nat).

Definition inner_step (i : Inner) (op : inner_op) : Inner :=
  match op with
  | Insert id info => register_insert id info i
  | Remove id => unregister_remove id i
  | Send n => send_held n i
  end.

Definition inner_run (i : Inner) (ops : list inner_op) : Inner := foldl inner_step i ops.

(** The entries that registrations replaced: those of an identifier that was
    registered already. *)
Fixpoint replaced (i : Inner) (ops : list inner_op) : list TunnelInfo :=
  match ops with
  | [] => []
  | op :: ops =>
      match op with Insert id _ => option_list (in_tunnels i !! id) | _ => [] end
      ++ replaced (inner_step i op) ops
  end.

(** ** The events account for the registry *)

(** The events sent, and those that are about to be. *)
Definition announced (i : Inner) : list ControlEvent := sent (in_events i) ++ in_held i.

Definition balanced (i : Inner) (lost : list TunnelInfo) : Prop :=
  omap up_of (announced i) ≡ₚ
  omap down_of (announced i) ++ (info_key <$> inner_tunnels i) ++ (info_key <$> lost).

#[local] Instance omap_Permutation {A B} (f : A → option B) :
  Proper (Permutation ==> Permutation) (omap (M := list) f).
Proof.
  induction 1 as [|x l l' _ IH|x y l|l1 l2 l3 _ IH1 _ IH2]; simpl; [done| | |by etrans].
  - destruct (f x); by rewrite IH.
  - destruct (f x), (f y); try done. apply Permutation_swap.
Qed.

Lemma send_held_announced n i : announced (send_held n i) ≡ₚ announced i.
Proof.
  unfold announced, send_held. destruct (in_held i !! n) as [e|] eqn:E; [|done]. cbn.
  rewrite sent_send. rewrite (delete_Permutation _ _ _ E) at 2. solve_Permutation.
Qed.

Lemma inner_step_balanced op i lost :
  balanced i lost →
  balanced (inner_step i op) (lost ++ match op with Insert id _ => option_list (in_tunnels i !! id) | _ => [] end).
Proof.
  unfold balanced, inner_tunnels. intros Hb. destruct op as [id info|id|n]; simpl.
  - unfold announced in *. cbn. rewrite !omap_app in *. cbn.
    rewrite <- insert_delete_eq, map_to_list_insert by apply lookup_delete_eq. csimpl.
    destruct (in_tunnels i !! id) as [old|] eqn:E; cbn [option_list from_option].
    + rewrite <- (map_to_list_delete _ _ _ E) in Hb. csimpl in *. rewrite fmap_app. csimpl.
      rewrite <- Permutation_middle, Hb. solve_Permutation.
    + rewrite delete_id by done. rewrite app_nil_r, <- Permutation_middle, Hb. solve_Permutation.
  - rewrite app_nil_r. unfold announced in *. cbn.
    destruct (in_tunnels i !! id) as [old|] eqn:E.
    + rewrite <- (map_to_list_delete _ _ _ E) in Hb. csimpl in *. rewrite !omap_app in *. csimpl.
      rewrite Hb. solve_Permutation.
    + by rewrite delete_id.
  - rewrite app_nil_r, !send_held_announced, Hb. unfold send_held. by destruct (in_held i !! n).
Qed.

Lemma inner_run_balanced ops i lost : balanced i lost → balanced (inner_run i ops) (lost ++ replaced i ops).
Proof.
  revert i lost. induction ops as [|op ops IH]; intros i lost Hb; simpl; [by rewrite app_nil_r|].
  rewrite app_assoc. by apply IH, inner_step_balanced.
Qed.

Lemma replaced_fresh ops i :
  (∀ n id info, ops !! n = Some (Insert id info) → in_tunnels (inner_run i (take n ops)) !! id = None) →
  replaced i ops = [].
Proof.
  revert i. induction ops as [|op ops IH]; intros i Hf; simpl; [done|].
  rewrite (IH (inner_step i op)); [|intros n id info Hn; by apply (Hf (S n) id info)].
  rewrite app_nil_r. destruct op as [id info| |]; [|done..].
  pose proof (Hf 0 id info eq_refl) as E. simpl in E. by rewrite E.
Qed.


Lemma inner_run_capacity ops i : capacity (in_events (inner_run i ops)) = capacity (in_events i).
Proof.
  revert i. induction ops as [|op ops IH]; intros i; simpl; [done|]. rewrite IH.
  destruct op as [| |n]; simpl; [done..|]. unfold send_held. destruct (in_held i !! n); [apply capacity_send|done].
Qed.

(** A subscriber's stream: what it has received tells of the events sent
    since it subscribed, in order, each received or counted as missed, up to
    the rest that it has not come to; without a count of missed events it has
    received them all; it is told that there is nothing more only when there is
    not, and that it missed events exactly when more than [EVENT_CAPACITY] were
    waiting, and then how many. *)
Theorem subscriber_stream ops s rx out :
  let i := inner_run Inner_new ops in
  rtc sub_step (in_events i, inner_subscribe i, []) (s, rx, out) →
  ∃ l rest, sent s = sent (in_events i) ++ l ++ rest ∧ tells out l ∧
    (no_lag out → values out = l) ∧
    ((recv s rx).2 = Empty ↔ rest = []) ∧
    (∀ n, (recv s rx).2 = Lagged n ↔ EVENT_CAPACITY < length rest ∧ n = length rest - EVENT_CAPACITY).
Proof.
  intros i Hr. assert (capacity (in_events i) = EVENT_CAPACITY) as Hcap.
  { unfold i. rewrite inner_run_capacity. apply capacity_channel. }
  destruct (sub_steps_inv _ _ Hr) as (Hpre & [Hp Hle] & Hc & Ht). rewrite Hcap in Hc.
  exists (passed (length (sent (in_events i))) s rx), (drop (next rx) (sent s)).
  split; [|split; [done|split; [by apply tells_no_lag|]]].
  - rewrite <- Hpre at 1. rewrite passed_rest by lia. symmetry. apply take_drop.
  - rewrite length_drop. destruct (recv s rx) as [rx' x] eqn:E. cbn.
    destruct (recv_cases _ _ _ _ E Hle) as [(-> & _ & He)|[(a & -> & Ha & Hn & Hcap')|(Hl & -> & Hn)]].
    + rewrite He, drop_all. split; [done|]. intros n. split; [done|lia].
    + rewrite (drop_S _ _ _ Ha). split; [done|]. intros n. split; [done|].
      intros [Hl _]. exfalso. lia.
    + split; [split; [done|]; intros Hd; apply (f_equal length) in Hd; rewrite length_drop in Hd; cbn in Hd; lia|].
      intros n. split; [intros [= <-]; lia|intros [_ ->]; f_equal; lia].
Qed.
(** ** The operations without interruption *)

Definition inner_control (i : Inner) : Control :=
  {| ctl_tunnels := in_tunnels i; ctl_events := sent (in_events i) |}.

(** Both halves in a row are the operations of [Control]. *)
Lemma register_halves id info i :
  inner_control (send_held 0 (register_insert id info i)) = register id info (inner_control i).
Proof. unfold inner_control, send_held, register_insert, register. cbn. by rewrite sent_send. Qed.

Lemma unregister_halves id i info :
  in_tunnels i !! id = Some info →
  inner_control (send_held 0 (unregister_remove id i)) = unregister id (inner_control i).
Proof.
  intros Hi. unfold inner_control, send_held, unregister_remove, unregister. cbn. rewrite Hi. cbn.
  by rewrite sent_send.
Qed.
End control.

(** ** The build without [dynamic] *)

Definition noop_Control : Type := unit.
Definition noop_new : noop_Control := tt.
Definition noop_register (c : noop_Control) (stable_id : nat) (info : TunnelInfo) : noop_Control := c.
Definition noop_unregister (c : noop_Control) (stable_id : nat) : noop_Control := c.

(** ** Witnesses *)

(** Alice's tunnel comes up, and down before bob's event is sent. *)
Definition alice_info : TunnelInfo :=
  {| ti_client_name := "alice"; ti_peer := "10.0.0.1:999"; ti_hostnames := ["a.example.com"%string] |}.
Definition bob_info : TunnelInfo :=
  {| ti_client_name := "bob"; ti_peer := "10.0.0.2:999"; ti_hostnames := ["b.example.com"%string] |}.
Definition alice_ops : list inner_op := [Insert 7 alice_info; Insert 8 bob_info; Send 1; Remove 7; Send 0; Send 0].
Definition alice_sent : Inner := inner_run Inner_new [Insert 7 alice_info; Send 0].
Definition alice_read : receiver ControlEvent := (recv (in_events alice_sent) (inner_subscribe Inner_new)).1.


Lemma subscriber_stream_witness :
  ∃ l rest, sent (in_events alice_sent) = sent (in_events Inner_new) ++ l ++ rest ∧
    tells [Value (TunnelUp "alice" "10.0.0.1:999" ["a.example.com"%string])] l ∧
    (no_lag [Value (TunnelUp "alice" "10.0.0.1:999" ["a.example.com"%string])] →
      values [Value (TunnelUp "alice" "10.0.0.1:999" ["a.example.com"%string])] = l) ∧
    ((recv (in_events alice_sent) alice_read).2 = Empty ↔ rest = []) ∧
    (∀ n, (recv (in_events alice_sent) alice_read).2 = Lagged n ↔
      EVENT_CAPACITY < length rest ∧ n = length rest - EVENT_CAPACITY).
Proof.
  apply (subscriber_stream [] (in_events alice_sent) alice_read
    [Value (TunnelUp "alice" "10.0.0.1:999" ["a.example.com"%string])]).
  eapply rtc_l; [apply sub_send|]. eapply rtc_l; [apply sub_recv; vm_compute; reflexivity|].
  apply rtc_refl.
Defined.
