(* ===== verification/Server.v ===== *)
(** * Tunnel sessions

    [crates/tuyau-server/src/server.rs]: [handle_incoming], one task per tunnel
    connection, and the operations of [TunnelServer] that act on the shared
    state ([kick], [set_terminated_domains], the cancellation of [shutdown]).

    Many handlers run at once and share the routing table and the registry; each
    of their operations is atomic, anything may happen between two of them.  So
    a handler is a state machine whose phases are its await points and the points
    between two shared operations, and the system is a step relation on a
    [World]: the shared state, the phase of every handler, and which connections
    are closed. *)

From S2P Require Import Prelude Bytes Protocol Config Backend Routes Lookups Control.

Local Open Scope string_scope.
Local Open Scope list_scope.

(** ** Data *)

(** The token a client presented and the grant the backend answered with. *)
Record Session := {
  s_token : list byte;
  s_grant : ClientGrant
}.

(** Where a handler is in [handle_incoming]. *)
Inductive phase :=
| AwaitStream                                     (* timeout(accept_bi) *)
| AwaitHello                                      (* timeout(reader.next) *)
| AwaitAdmit (token : list byte)                  (* timeout(backend.admit) *)
| Granted (s : Session)                           (* before routes.install *)
| Displacing (s : Session) (prev : list Connection)  (* closing the displaced *)
| Welcoming (s : Session)                         (* writer.send(Welcome) *)
| Registering (s : Session)                       (* before control.register *)
| WelcomeFailed (s : Session)                     (* before remove_conn, not served *)
| Rejecting (reason : string)                     (* writer.send(Reject) *)
| Linger                                          (* timeout(connection.closed) *)
| Serving (s : Session)                           (* select! *)
| Removing (s : Session)                          (* before routes.remove_conn *)
| Unregistering (s : Session)                     (* before control.unregister *)
| Finished.

Record Handler := {
  h_peer : SocketAddr;
  h_phase : phase
}.

Record World := {
  routes : RoutingTable;
  control : Control;
  handlers : gmap Connection Handler;
  closed : gset Connection;      (* connections with a close reason *)
  kicked : gset Connection;      (* returned by routes.kick, not yet closed *)
  cancel : bool
}.

Definition set_routes (t : RoutingTable) (w : World) : World :=
  {| routes := t; control := control w; handlers := handlers w; closed := closed w;
     kicked := kicked w; cancel := cancel w |}.
Definition set_control (c : Control) (w : World) : World :=
  {| routes := routes w; control := c; handlers := handlers w; closed := closed w;
     kicked := kicked w; cancel := cancel w |}.
Definition set_closed (s : gset Connection) (w : World) : World :=
  {| routes := routes w; control := control w; handlers := handlers w; closed := s;
     kicked := kicked w; cancel := cancel w |}.
Definition set_kicked (s : gset Connection) (w : World) : World :=
  {| routes := routes w; control := control w; handlers := handlers w; closed := closed w;
     kicked := s; cancel := cancel w |}.
Definition set_cancel (w : World) : World :=
  {| routes := routes w; control := control w; handlers := handlers w; closed := closed w;
     kicked := kicked w; cancel := true |}.
Definition set_phase (c : Connection) (peer : SocketAddr) (ph : phase) (w : World) : World :=
  {| routes := routes w; control := control w;
     handlers := <[c := {| h_peer := peer; h_phase := ph |}]> (handlers w);
     closed := closed w; kicked := kicked w; cancel := cancel w |}.

(** [conn.close(..)] *)
Definition close (c : Connection) (w : World) : World := set_closed ({[c]} ∪ closed w) w.

(** ** One handler *)

(** What ends the wait a handler is in; [Tick] runs it to its next stop. *)
Inductive event :=
| StreamOpened | StreamFailed | StreamTimeout
| HelloFrame (token : list byte) | HelloInvalid | HelloTimeout | HelloEof
| AdmitAnswer (answer : option ClientGrant) | AdmitTimeout
| Sent | SendFailed
| LingerOver
| PeerClosed | Cancelled
| Tick.

(** [handle_incoming] on connection [c]: the effect of an event in a phase;
    [None] when the event cannot happen there. *)
Definition handle (c : Connection) (ev : event) (w : World) : option World :=
  h ← handlers w !! c;
  let peer := h_peer h in
  let goto ph w := Some (set_phase c peer ph w) in
  match h_phase h, ev with
  (* let streams = timeout(HELLO_TIMEOUT, connection.accept_bi()).await *)
  | AwaitStream, StreamOpened => goto AwaitHello w
  | AwaitStream, StreamFailed => goto Finished w
  | AwaitStream, StreamTimeout => goto Finished (close c w)
  (* let hello_result = timeout(HELLO_TIMEOUT, reader.next()).await *)
  | AwaitHello, HelloFrame token => goto (AwaitAdmit token) w
  | AwaitHello, HelloInvalid => goto (Rejecting "protocol error") w
  | AwaitHello, HelloTimeout => goto (Rejecting "protocol error") w
  | AwaitHello, HelloEof => goto Finished w
  (* timeout(ADMIT_TIMEOUT, backend.admit(&hello.token)).await *)
  | AwaitAdmit token, AdmitAnswer (Some grant) =>
      if decide (c ∈ closed w) then goto Finished w
      else goto (Granted {| s_token := token; s_grant := grant |}) w
  | AwaitAdmit _, AdmitAnswer None => goto (Rejecting "invalid token") w
  | AwaitAdmit _, AdmitTimeout => goto (Rejecting "authorization timeout") w
  (* for prev in routes.install(..) { prev.close(..) } *)
  | Granted s, Tick =>
      let g := s_grant s in
      let '(t, displaced) :=
        install (cg_hostnames g) (cg_client_name g) (cg_balance g) c (routes w) in
      goto (Displacing s displaced) (set_routes t w)
  | Displacing s (prev :: rest), Tick => goto (Displacing s rest) (close prev w)
  | Displacing s [], Tick => goto (Welcoming s) w
  (* match writer.send(Welcome).await *)
  | Welcoming s, Sent => goto (Registering s) w
  | Welcoming s, SendFailed => goto (WelcomeFailed s) w
  | Registering s, Tick =>
      let g := s_grant s in
      let info := {| ti_client_name := cg_client_name g; ti_peer := peer;
                     ti_hostnames := (cg_hostnames g).*1 |} in
      goto (Serving s) (set_control (register (stable_id c) info (control w)) w)
  | WelcomeFailed s, Tick =>
      goto Finished (set_routes (remove_conn (stable_id c) (routes w)) w)
  (* let _ = writer.send(Reject).await; timeout(REJECT_LINGER, connection.closed()).await *)
  | Rejecting _, Sent | Rejecting _, SendFailed => goto Linger w
  | Linger, LingerOver => goto Finished (close c w)
  (* select! { cancelled => close, closed => {} } *)
  | Serving s, Cancelled => if cancel w then goto (Removing s) (close c w) else None
  | Serving s, PeerClosed => if decide (c ∈ closed w) then goto (Removing s) w else None
  (* routes.remove_conn(stable_id); control.unregister(stable_id) *)
  | Removing s, Tick =>
      goto (Unregistering s) (set_routes (remove_conn (stable_id c) (routes w)) w)
  | Unregistering s, Tick =>
      goto Finished (set_control (unregister (stable_id c) (control w)) w)
  | _, _ => None
  end.

(** ** The server's own operations *)

(** [TunnelServer::kick]: the routes go at once, the connections are closed one
    after the other ([CloseKicked] below). *)
Definition server_kick (client_name : string) (w : World) : World :=
  let '(t, conns) := kick client_name (routes w) in
  set_kicked (list_to_set conns ∪ kicked w) (set_routes t w).

(** [accept_loop] spawns the handler of a connection whose handshake completed. *)
Definition spawn (c : Connection) (peer : SocketAddr) (w : World) : World :=
  set_phase c peer AwaitStream w.

(** [conn.close_reason().is_some()] *)
Definition is_closed (w : World) (c : Connection) : bool := bool_decide (c ∈ closed w).

(** One shared access of a [routes.lookup(host)] of the public listener: lookups
    interleave with everything else between any two of them. *)
Definition world_access (host : string) (ph : lookup_phase) (w : World) : lookup_phase * World :=
  let '(ph, t, _) := lookup_step (is_closed w) host (routes w) ph in
  (ph, set_routes t w).

(** A whole lookup that nothing interrupts. *)
Definition world_lookup (host : string) (w : World) : partial Route * World :=
  let '(r, t) := lookup (is_closed w) host (routes w) in
  (r, set_routes t w).

Definition start_world (cfg : ServerConfig) : World :=
  {| routes := from_config (hostnames cfg) (upstreams cfg); control := Control_new;
     handlers := ∅; closed := ∅; kicked := ∅; cancel := false |}.

Section world.
Context {B : Type} `{RoutingBackend B} (b : B).

(** A backend's answer is one it may give for the token that was presented. *)
Definition event_ok (c : Connection) (ev : event) (w : World) : Prop :=
  match ev with
  | AdmitAnswer answer =>
      ∀ h token, handlers w !! c = Some h → h_phase h = AwaitAdmit token → admits b token answer
  | _ => True
  end.

Inductive step : World → World → Prop :=
| Spawn c peer w : handlers w !! c = None → step w (spawn c peer w)
| Handle c ev w w' : event_ok c ev w → handle c ev w = Some w' → step w w'
| ConnClosed c w : step w (close c w)
| Cancel w : step w (set_cancel w)
| Kick client w : step w (server_kick client w)
| CloseKicked c w : c ∈ kicked w → step w (set_kicked (kicked w ∖ {[c]}) (close c w))
| SetTerminated full w : step w (set_routes (set_terminated full (routes w)) w)
| LookupAccess host ph w : step w (world_access host ph w).2.

Definition reachable_world (cfg : ServerConfig) (w : World) : Prop :=
  rtc step (start_world cfg) w.

(** ** The invariant *)

(** The session of a handler that was granted one. *)
Definition session_of (ph : phase) : option Session :=
  match ph with
  | Granted s | Displacing s _ | Welcoming s | Registering s | WelcomeFailed s
  | Serving s | Removing s | Unregistering s => Some s
  | _ => None
  end.

(** The session whose routes may be in the table. *)
Definition may_route (ph : phase) : option Session :=
  match ph with
  | Displacing s _ | Welcoming s | Registering s | WelcomeFailed s | Serving s | Removing s => Some s
  | _ => None
  end.

(** The session that is in the registry. *)
Definition registered (ph : phase) : option Session :=
  match ph with Serving s | Removing s | Unregistering s => Some s | _ => None end.

Definition session_info (peer : SocketAddr) (s : Session) : TunnelInfo :=
  {| ti_client_name := cg_client_name (s_grant s); ti_peer := peer;
     ti_hostnames := (cg_hostnames (s_grant s)).*1 |}.

Definition registry_entry (h : Handler) : option TunnelInfo :=
  session_info (h_peer h) <$> registered (h_phase h).

(** The client that authenticated on a connection. *)
Definition conn_owner (hs : gmap Connection Handler) (c : Connection) : string :=
  default "" (s ← (h ← hs !! c; session_of (h_phase h)); Some (cg_client_name (s_grant s))).

(** [c] is routed for [host], by entry [e]. *)
Definition routed (t : RoutingTable) (host : string) (e : HostRoutes) (c : Connection) : Prop :=
  inner t !! host = Some e ∧ c ∈ hr_conns e.

(** It speaks of the shared state and the phases only. *)
Record world_inv (t : RoutingTable) (ctl : Control) (hs : gmap Connection Handler) : Prop := {
  wi_table : table_wf (conn_owner hs) t;
  wi_routed : ∀ host e c, routed t host e c →
    ∃ h s, hs !! c = Some h ∧ may_route (h_phase h) = Some s ∧
      host ∈ (cg_hostnames (s_grant s)).*1;
  wi_mode : ∀ host e, inner t !! host = Some e →
    ∃ token g, admits b token (Some g) ∧ cg_client_name g = hr_client_name e ∧
      (host, hr_tls_mode e) ∈ cg_hostnames g;
  wi_admitted : ∀ c h s, hs !! c = Some h → session_of (h_phase h) = Some s →
    admits b (s_token s) (Some (s_grant s));
  wi_registry : ∀ c, ctl_tunnels ctl !! c = (hs !! c ≫= registry_entry);
  wi_accounted : accounted ctl
}.

Lemma may_route_session ph s : may_route ph = Some s → session_of ph = Some s.
Proof. by destruct ph. Qed.

Lemma table_wf_owner (owner owner' : Connection → string) t :
  table_wf owner t → (∀ host e c, routed t host e c → owner' c = owner c) → table_wf owner' t.
Proof.
  intros Hwf Heq host e He. destruct (Hwf host e He) as (? & ? & Hown & ?).
  split_and!; try lia; try done. intros c Hc. rewrite (Heq host e c); [by apply Hown|done].
Qed.

(** A handler moves to another phase, the registry with it. *)
Lemma inv_phase t ctl ctl' hs c peer ph :
  world_inv t ctl hs →
  (∀ s, session_of ph = Some s → admits b (s_token s) (Some (s_grant s))) →
  (∀ h s, hs !! c = Some h → may_route (h_phase h) = Some s →
     may_route ph = Some s ∨ ∀ host e, ¬ routed t host e c) →
  (∀ c', c' ≠ c → ctl_tunnels ctl' !! c' = ctl_tunnels ctl !! c') →
  ctl_tunnels ctl' !! c = registry_entry {| h_peer := peer; h_phase := ph |} →
  accounted ctl' →
  world_inv t ctl' (<[c := {| h_peer := peer; h_phase := ph |}]> hs).
Proof.
  intros [Ht Hr Hm Ha Hreg Hacc] Hadm Hroute Hother Hctl Hacc'.
  assert (∀ host e, routed t host e c → ∃ s h, hs !! c = Some h ∧
    session_of (h_phase h) = Some s ∧ may_route ph = Some s ∧
    host ∈ (cg_hostnames (s_grant s)).*1) as Hc.
  { intros host e Hrt. destruct (Hr host e c Hrt) as (h & s & Hh & Hs & Hin).
    destruct (Hroute h s Hh Hs) as [Hs'|Hno]; [|by destruct (Hno host e)].
    exists s, h. eauto using may_route_session. }
  split; try done.
  - apply (table_wf_owner _ _ _ Ht). intros host e c' Hrt. unfold conn_owner.
    destruct (decide (c = c')) as [<-|Hne]; [|by rewrite lookup_insert_ne].
    destruct (Hc host e Hrt) as (s & h & Hh & Hs & Hs' & _).
    apply may_route_session in Hs'. rewrite lookup_insert_eq, Hh. simpl. by rewrite Hs, Hs'.
  - intros host e c' Hrt. destruct (decide (c = c')) as [<-|Hne].
    + destruct (Hc host e Hrt) as (s & h & _ & _ & Hs' & Hin).
      rewrite lookup_insert_eq. by eexists _, s.
    + rewrite lookup_insert_ne by done. by apply (Hr host e).
  - intros c' h s. destruct (decide (c = c')) as [<-|Hne].
    + rewrite lookup_insert_eq. intros [= <-]. apply Hadm.
    + rewrite lookup_insert_ne by done. apply Ha.
  - intros c'. destruct (decide (c = c')) as [<-|Hne].
    + by rewrite lookup_insert_eq.
    + rewrite lookup_insert_ne, Hother by done. apply Hreg.
Qed.

(** The table loses connections or changes what the invariant does not read. *)
Definition shrinks (t t' : RoutingTable) : Prop :=
  ∀ host e', inner t' !! host = Some e' → ∃ e, inner t !! host = Some e ∧
    hr_client_name e' = hr_client_name e ∧ hr_tls_mode e' = hr_tls_mode e ∧
    hr_conns e' ⊆ hr_conns e.

Lemma inv_shrinks t t' ctl hs :
  world_inv t ctl hs → table_wf (conn_owner hs) t' → shrinks t t' → world_inv t' ctl hs.
Proof.
  intros [Ht Hr Hm Ha Hreg Hacc] Ht' Hs. split; try done.
  - intros host e' c [He' Hc]. destruct (Hs host e' He') as (e & He & _ & _ & Hsub).
    apply (Hr host e c). split; [done|]. by apply Hsub.
  - intros host e' He'. destruct (Hs host e' He') as (e & He & -> & -> & _). by apply Hm.
Qed.

Lemma remove_conn_shrinks c t :
  shrinks t (remove_conn c t) ∧ ∀ host e, ¬ routed (remove_conn c t) host e c.
Proof.
  split.
  - intros host e' He'. simpl in He'. rewrite lookup_omap in He'.
    destruct (inner t !! host) as [e|]; [|done]. simpl in He'. exists e.
    apply retain_conns_Some in He' as [-> _]. split_and!; try done. simpl.
    intros x [_ ?]%list_elem_of_filter. done.
  - intros host e' [He' Hc]. simpl in He'. rewrite lookup_omap in He'.
    destruct (inner t !! host) as [e|]; [|done]. simpl in He'.
    apply retain_conns_Some in He' as [-> _]. by apply list_elem_of_filter in Hc as [? _].
Qed.

Lemma kick_shrinks client t : shrinks t (kick client t).1.
Proof.
  intros host e' He'. rewrite kick_inner in He'. apply map_lookup_filter_Some in He' as [He' _].
  by exists e'.
Qed.

Lemma access_shrinks cl host ph t : shrinks t (lookup_step cl host t ph).1.2.
Proof.
  intros host' e' He'.
  destruct (lookup_step_inner cl host t ph) as [Heq|(e & cursor & He & _ & Heq)]; rewrite Heq in He'.
  - by exists e'.
  - simpl in He'. apply lookup_insert_Some in He' as [[<- <-]|[_ He']]; [by exists e|by exists e'].
Qed.

Lemma world_access_routes host ph w :
  routes (world_access host ph w).2 = (lookup_step (is_closed w) host (routes w) ph).1.2 ∧
  handlers (world_access host ph w).2 = handlers w ∧ closed (world_access host ph w).2 = closed w ∧
  kicked (world_access host ph w).2 = kicked w ∧ control (world_access host ph w).2 = control w.
Proof. unfold world_access. by destruct (lookup_step _ _ _ _) as [[ph' t] p]. Qed.

(** A handler past its grant installs its routes. *)
Lemma inv_install t ctl hs c h s :
  world_inv t ctl hs → hs !! c = Some h → may_route (h_phase h) = Some s →
  let g := s_grant s in
  world_inv (install (cg_hostnames g) (cg_client_name g) (cg_balance g) c t).1 ctl hs.
Proof.
  intros Hinv Hh Hs g. pose proof Hinv as [Ht Hr Hm Ha Hreg Hacc].
  assert (cg_client_name g = conn_owner hs c) as Howner.
  { unfold conn_owner. rewrite Hh. simpl. by rewrite (may_route_session _ _ Hs). }
  assert (admits b (s_token s) (Some g)) as Hg by eauto using may_route_session.
  split; try done.
  - rewrite Howner. by apply install_wf.
  - rewrite install_eq.
    pose proof (install_loop (cg_client_name g) (cg_balance g) c (cg_hostnames g) (inner t)) as Hl.
    destruct (foldl _ _ _) as [m' d']. destruct Hl as (Hout & Hin & _).
    intros host e c' [He Hc']. simpl in He. destruct (decide (host ∈ (cg_hostnames g).*1)) as [Hd|Hd].
    + destruct (Hin host Hd) as (m & _ & He'). rewrite He' in He. simplify_eq.
      apply elem_of_installed in Hc' as [->|[_ Hc']]; [by exists h, s|].
      rewrite (elem_of_kept (conn_owner hs)) in Hc' by done.
      destruct Hc' as (e & He & _ & Hc'). by apply (Hr host e c').
    + rewrite Hout in He by done. by apply (Hr host e c').
  - rewrite install_eq.
    pose proof (install_loop (cg_client_name g) (cg_balance g) c (cg_hostnames g) (inner t)) as Hl.
    destruct (foldl _ _ _) as [m' d']. destruct Hl as (Hout & Hin & _).
    intros host e He. simpl in He. destruct (decide (host ∈ (cg_hostnames g).*1)) as [Hd|Hd].
    + destruct (Hin host Hd) as (m & Hm' & He'). rewrite He' in He. simplify_eq. simpl.
      by exists (s_token s), g.
    + rewrite Hout in He by done. by apply Hm.
Qed.

(** A move that changes neither what is routed nor what is registered. *)
Lemma inv_goto t ctl hs c peer ph0 ph :
  world_inv t ctl hs → hs !! c = Some {| h_peer := peer; h_phase := ph0 |} →
  (∀ s, session_of ph = Some s → session_of ph0 = Some s ∨ admits b (s_token s) (Some (s_grant s))) →
  (∀ s, may_route ph0 = Some s → may_route ph = Some s) →
  registered ph = registered ph0 →
  world_inv t ctl (<[c := {| h_peer := peer; h_phase := ph |}]> hs).
Proof.
  intros Hinv Hh Hses Hroute Hreg. apply (inv_phase t ctl); try done.
  - intros s Hs. destruct (Hses s Hs) as [Hs0|]; [|done]. by eapply (wi_admitted _ _ _ Hinv).
  - intros h s Hh' Hs. left. simplify_eq. by apply Hroute.
  - rewrite (wi_registry _ _ _ Hinv), Hh. unfold registry_entry; simpl. by rewrite Hreg.
  - by destruct Hinv.
Qed.

Lemma registry_absent t ctl hs c peer ph :
  world_inv t ctl hs → hs !! c = Some {| h_peer := peer; h_phase := ph |} →
  registered ph = None → ctl_tunnels ctl !! c = None.
Proof.
  intros Hinv Hh Hreg. rewrite (wi_registry _ _ _ Hinv), Hh.
  unfold registry_entry; simpl. by rewrite Hreg.
Qed.

Lemma unregister_tunnels c ctl : ctl_tunnels (unregister c ctl) = delete c (ctl_tunnels ctl).
Proof. unfold unregister. by destruct (ctl_tunnels ctl !! c). Qed.

(** After [remove_conn] a handler may drop its routes. *)
Lemma inv_remove t ctl hs c peer ph0 ph :
  world_inv t ctl hs → hs !! c = Some {| h_peer := peer; h_phase := ph0 |} →
  (∀ s, session_of ph = Some s → session_of ph0 = Some s) →
  registered ph = registered ph0 →
  world_inv (remove_conn c t) ctl (<[c := {| h_peer := peer; h_phase := ph |}]> hs).
Proof.
  intros Hinv Hh Hses Hreg. destruct (remove_conn_shrinks c t) as [Hsh Hno].
  assert (world_inv (remove_conn c t) ctl hs) as Hinv'
    by (eapply inv_shrinks; [done|apply remove_conn_wf; by destruct Hinv|done]).
  apply (inv_phase _ ctl); try done.
  - intros s Hs%Hses. by apply (wi_admitted _ _ _ Hinv _ _ _ Hh).
  - intros h s _ _. right. apply Hno.
  - rewrite (wi_registry _ _ _ Hinv), Hh. unfold registry_entry; simpl. by rewrite Hreg.
  - by destruct Hinv.
Qed.

Definition inv (w : World) : Prop := world_inv (routes w) (control w) (handlers w).

Lemma inv_handle c ev w w' : inv w → event_ok c ev w → handle c ev w = Some w' → inv w'.
Proof.
  intros Hinv Hok. unfold handle.
  destruct (handlers w !! c) as [[peer ph]|] eqn:Hh; [|done]. cbn [mbind option_bind h_peer h_phase].
  destruct ph; destruct ev; try done; intros Hstep;
    try (case_match; try done); simplify_eq/=;
    try (by eapply inv_goto; [exact Hinv|exact Hh|..]; naive_solver).
  - case_decide; simplify_eq; [by eapply inv_goto|].
    eapply inv_goto; [exact Hinv|exact Hh|..]; try done.
    intros s [= <-]. right. by apply (Hok _ token Hh).
  - match goal with E : install _ _ _ _ _ = _ |- _ => rename E into Hi end.
    unfold inv; simpl.
    assert (world_inv (routes w) (control w)
      (<[c := {| h_peer := peer; h_phase := Displacing s l |}]> (handlers w))) as Hinv1
      by (eapply inv_goto; [exact Hinv|exact Hh|..]; naive_solver).
    apply (inv_install _ _ _ c {| h_peer := peer; h_phase := Displacing s l |} s) in Hinv1;
      [|by rewrite lookup_insert_eq|done].
    simpl in Hinv1. by rewrite Hi in Hinv1.
  - unfold inv; simpl. apply (inv_phase _ (control w)); try done.
    + intros s' [= <-]. by apply (wi_admitted _ _ _ Hinv _ _ _ Hh).
    + intros h s' Hh' Hs'. left. by simplify_eq.
    + intros c' Hne. simpl. by rewrite lookup_insert_ne by done.
    + simpl. by rewrite lookup_insert_eq.
    + apply register_accounted; [|by destruct Hinv]. by eapply registry_absent.
  - by eapply inv_remove; [exact Hinv|exact Hh|..].
  - eapply inv_remove; [exact Hinv|exact Hh|..]; naive_solver.
  - unfold inv; simpl. apply (inv_phase _ (control w)); try done.
    + intros h s' Hh' Hs'. by simplify_eq.
    + intros c' Hne. by rewrite unregister_tunnels, lookup_delete_ne by done.
    + by rewrite unregister_tunnels, lookup_delete_eq.
    + apply unregister_accounted. by destruct Hinv.
Qed.

Lemma inv_start cfg : inv (start_world cfg).
Proof.
  split; simpl; try done.
  - by intros host e c [He _].
  - unfold accounted, tunnels; simpl. by rewrite map_to_list_empty.
Qed.

Lemma inv_step w w' : step w w' → inv w → inv w'.
Proof.
  destruct 1 as [c peer w Hfresh|c ev w w' Hok Hh|c w|w|client w|c w Hc|full w|host ph w]; intros Hinv.
  - unfold inv; simpl. apply (inv_phase _ (control w)); try done.
    + intros h s Hh. simplify_eq.
    + rewrite (wi_registry _ _ _ Hinv), Hfresh. done.
    + by destruct Hinv.
  - by eapply inv_handle.
  - done.
  - done.
  - unfold inv, server_kick. pose proof (kick_shrinks client (routes w)) as Hs.
    pose proof (kick_wf (conn_owner (handlers w)) client (routes w)) as Hwf.
    destruct (kick client (routes w)) as [t conns]. simpl in *.
    eapply inv_shrinks; [exact Hinv| |done]. apply Hwf. by destruct Hinv.
  - done.
  - unfold inv; simpl. eapply inv_shrinks; [exact Hinv|by destruct Hinv|].
    intros h e He. by exists e.
  - unfold inv. destruct (world_access_routes host ph w) as (-> & -> & _ & _ & ->).
    eapply inv_shrinks; [exact Hinv|apply lookup_step_wf; by destruct Hinv|apply access_shrinks].
Qed.

Lemma inv_reachable cfg w : reachable_world cfg w → inv w.
Proof.
  intros Hr. pose proof (inv_start cfg) as Hinv.
  induction Hr as [|w1 w2 w3 Hs _ IH]; [done|]. eauto using inv_step.
Qed.

(** ** Open tunnels stay routed *)

(** The session of a handler between its install and its removal. *)
Definition holding (ph : phase) : option Session :=
  match ph with
  | Displacing s _ | Welcoming s | Registering s | Serving s => Some s
  | _ => None
  end.

(** [c] is closed, or somebody is about to close it. *)
Definition closing (w : World) (c : Connection) : Prop :=
  c ∈ closed w ∨ c ∈ kicked w ∨
  ∃ c' peer s l, handlers w !! c' = Some {| h_peer := peer; h_phase := Displacing s l |} ∧ c ∈ l.

Definition is_routed (t : RoutingTable) (host : string) (c : Connection) : Prop :=
  ∃ e, routed t host e c.

Definition open_routed (w : World) : Prop :=
  ∀ c h s host, handlers w !! c = Some h → holding (h_phase h) = Some s →
    host ∈ (cg_hostnames (s_grant s)).*1 → is_routed (routes w) host c ∨ closing w c.

(** The connections a phase is about to close. *)
Definition to_close (ph : phase) : list Connection :=
  match ph with Displacing _ l => l | _ => [] end.

(** Handler [c] moves on: others lose a route only if they are then closing,
    and [c] keeps what it holds. *)
Lemma open_routed_move w w' c peer ph0 ph :
  open_routed w →
  handlers w !! c = Some {| h_peer := peer; h_phase := ph0 |} →
  handlers w' = <[c := {| h_peer := peer; h_phase := ph |}]> (handlers w) →
  closed w ⊆ closed w' → kicked w ⊆ kicked w' →
  (∀ x, x ∈ to_close ph0 → x ∈ closed w' ∨ x ∈ to_close ph) →
  (∀ host c', c' ≠ c → is_routed (routes w) host c' →
     is_routed (routes w') host c' ∨ closing w' c') →
  (∀ s host, holding ph = Some s → host ∈ (cg_hostnames (s_grant s)).*1 →
     is_routed (routes w') host c ∨
     (holding ph0 = Some s ∧ (is_routed (routes w) host c → is_routed (routes w') host c))) →
  open_routed w'.
Proof.
  intros Hor Hc Hhs Hcl Hk Hclose Hothers Hown c' h s host Hh Hs Hhost.
  assert (∀ x, closing w x → closing w' x) as Hmono.
  { intros x [?|[?|(c1 & peer1 & s1 & l1 & Hc1 & Hx)]]; [left; set_solver|right; left; set_solver|].
    destruct (decide (c1 = c)) as [->|Hne].
    - assert (x ∈ to_close ph0) as Hx0 by (by simplify_eq).
      destruct (Hclose x Hx0) as [?|Hx1]; [by left|]. right; right.
      destruct ph; simpl in Hx1; try by apply not_elem_of_nil in Hx1.
      exists c, peer, s0, prev. by rewrite Hhs, lookup_insert_eq.
    - right; right. exists c1, peer1, s1, l1. by rewrite Hhs, lookup_insert_ne. }
  rewrite Hhs in Hh. destruct (decide (c = c')) as [<-|Hne].
  - rewrite lookup_insert_eq in Hh. simplify_eq. simpl in Hs.
    destruct (Hown s host Hs Hhost) as [?|[Hs0 Hkeep]]; [by left|].
    destruct (Hor c _ s host Hc Hs0 Hhost) as [?|?]; [left; auto|right; auto].
  - rewrite lookup_insert_ne in Hh by done.
    destruct (Hor c' h s host Hh Hs Hhost) as [Hr|?]; [|right; auto]. by apply Hothers.
Qed.

(** A move that leaves the table alone. *)
Lemma open_routed_goto w w' c peer ph0 ph :
  open_routed w →
  handlers w !! c = Some {| h_peer := peer; h_phase := ph0 |} →
  handlers w' = <[c := {| h_peer := peer; h_phase := ph |}]> (handlers w) →
  routes w' = routes w → closed w ⊆ closed w' → kicked w ⊆ kicked w' →
  (∀ x, x ∈ to_close ph0 → x ∈ closed w' ∨ x ∈ to_close ph) →
  (∀ s, holding ph = Some s → holding ph0 = Some s) →
  open_routed w'.
Proof.
  intros Hor Hc Hhs Hrt Hcl Hk Hclose Hhold.
  eapply open_routed_move; eauto; rewrite Hrt; auto.
Qed.

Lemma remove_conn_keeps t host c c' :
  c' ≠ c → is_routed t host c' → is_routed (remove_conn c t) host c'.
Proof.
  intros Hne (e & He & Hc').
  assert (c' ∈ filter (λ x, x ≠ c) (hr_conns e)) as Hin by (by apply list_elem_of_filter).
  exists {| hr_client_name := hr_client_name e; hr_tls_mode := hr_tls_mode e;
            hr_conns := filter (λ x, x ≠ c) (hr_conns e); hr_cursor := hr_cursor e |}.
  split; [|exact Hin]. simpl. rewrite lookup_omap, He. simpl.
  apply retain_conns_Some. split; [reflexivity|]. simpl. intros Hnil. rewrite Hnil in Hin.
  by apply not_elem_of_nil in Hin.
Qed.

(** A connection that loses a host to an install is in the displaced list. *)
Lemma install_keeps owner hosts balance conn t t' displaced host c :
  table_wf owner t →
  install hosts (owner conn) balance conn t = (t', displaced) →
  is_routed t host c → is_routed t' host c ∨ c ∈ displaced.
Proof.
  intros Hwf. rewrite install_eq.
  pose proof (install_loop (owner conn) balance conn hosts (inner t)) as Hl.
  destruct (foldl _ _ _) as [m' d']. destruct Hl as (Hout & Hin & Hd).
  intros [= <- <-] (e & He & Hc). destruct (decide (host ∈ hosts.*1)) as [Hh|Hh].
  - destruct (Hin host Hh) as (m & _ & Hm).
    destruct (decide (c ∈ hr_conns (installed (owner conn) balance conn m (inner t !! host)))) as [Hc'|Hc'].
    + left. eexists. split; [exact Hm|exact Hc'].
    + right. apply Hd. exists host. split; [done|].
      rewrite (elem_of_displaced_by owner _ _ m) by (intros e'; apply Hwf). eauto.
  - left. exists e. split; [|done]. simpl. by rewrite Hout.
Qed.

Lemma install_routes hosts client balance conn t t' displaced host :
  install hosts client balance conn t = (t', displaced) →
  host ∈ hosts.*1 → is_routed t' host conn.
Proof.
  rewrite install_eq.
  pose proof (install_loop client balance conn hosts (inner t)) as Hl.
  destruct (foldl _ _ _) as [m' d']. destruct Hl as (_ & Hin & _).
  intros [= <- <-] Hh. destruct (Hin host Hh) as (m & _ & Hm). eexists. split; [exact Hm|].
  apply elem_of_installed. by left.
Qed.

Lemma open_routed_handle c ev w w' :
  inv w → open_routed w → event_ok c ev w → handle c ev w = Some w' → open_routed w'.
Proof.
  intros Hinv Hor Hok. unfold handle.
  destruct (handlers w !! c) as [[peer ph]|] eqn:Hh; [|done]. cbn [mbind option_bind h_peer h_phase].
  destruct ph; destruct ev; try done; intros Hstep;
    try (case_match; try done); simplify_eq/=;
    try (by eapply open_routed_goto; [exact Hor|exact Hh|reflexivity|reflexivity|simpl; set_solver..|];
         simpl; set_solver).
  - case_decide; simplify_eq;
      (eapply open_routed_goto; [exact Hor|exact Hh|reflexivity|reflexivity|..]; simpl; set_solver).
  - match goal with E : install _ _ _ _ _ = _ |- _ => rename E into Hi end.
    assert (cg_client_name (s_grant s) = conn_owner (handlers w) c) as Howner.
    { unfold conn_owner. by rewrite Hh. }
    eapply (open_routed_move w _ c peer (Granted s)); [exact Hor|exact Hh|reflexivity|..]; simpl;
      [set_solver..| |].
    + intros host c' Hne Hr. rewrite Howner in Hi.
      destruct (install_keeps _ _ _ _ _ _ _ host c' (wi_table _ _ _ Hinv) Hi Hr) as [?|Hd]; [by left|].
      right; right; right. exists c, peer, s, l. simpl. by rewrite lookup_insert_eq.
    + intros s' host [= <-] Hhost. left. by eapply install_routes.
  - eapply (open_routed_move w _ c peer (WelcomeFailed s)); [exact Hor|exact Hh|reflexivity|..]; simpl;
      [set_solver..| |done].
    intros host c' Hne Hr. left. by apply remove_conn_keeps.
  - eapply (open_routed_move w _ c peer (Removing s)); [exact Hor|exact Hh|reflexivity|..]; simpl;
      [set_solver..| |done].
    intros host c' Hne Hr. left. by apply remove_conn_keeps.
Qed.

Lemma kick_keeps client t host c :
  is_routed t host c → is_routed (kick client t).1 host c ∨ c ∈ (kick client t).2.
Proof.
  intros (e & He & Hc). destruct (decide (hr_client_name e = client)) as [Heq|Hne].
  - right. apply kick_conns. eauto.
  - left. exists e. split; [|done]. rewrite kick_inner. by apply map_lookup_filter_Some.
Qed.

Lemma access_keeps cl host0 ph t host c :
  is_routed t host c → is_routed (lookup_step cl host0 t ph).1.2 host c.
Proof.
  intros (e & He & Hc). destruct (lookup_step_inner cl host0 t ph) as [->|(e0 & cursor & He0 & _ & ->)].
  - by exists e.
  - destruct (decide (host0 = host)) as [->|Hne].
    + exists (set_cursor cursor e0). simplify_eq. split; [|done]. by simpl; rewrite lookup_insert_eq.
    + exists e. split; [|done]. by simpl; rewrite lookup_insert_ne.
Qed.

(** A step that changes no phase. *)
Lemma open_routed_frame w w' :
  open_routed w → handlers w' = handlers w →
  (∀ x, x ∈ closed w ∨ x ∈ kicked w → x ∈ closed w' ∨ x ∈ kicked w') →
  (∀ host c, is_routed (routes w) host c → is_routed (routes w') host c ∨ c ∈ kicked w') →
  open_routed w'.
Proof.
  intros Hor Hhs Hcl Hrt c h s host Hh Hs Hhost. rewrite Hhs in Hh. unfold closing. rewrite Hhs.
  destruct (Hor c h s host Hh Hs Hhost) as [Hr|[Hx|[Hx|Hx]]].
  - destruct (Hrt host c Hr); auto.
  - destruct (Hcl c); auto.
  - destruct (Hcl c); auto.
  - auto.
Qed.

Lemma open_routed_step w w' : step w w' → inv w → open_routed w → open_routed w'.
Proof.
  destruct 1 as [c peer w Hfresh|c ev w w' Hok Hh|c w|w|client w|c w Hc|full w|host ph w]; intros Hinv Hor.
  - intros c' h s host Hh Hs Hhost. simpl in Hh. destruct (decide (c = c')) as [<-|Hne].
    + rewrite lookup_insert_eq in Hh. by simplify_eq.
    + rewrite lookup_insert_ne in Hh by done.
      destruct (Hor c' h s host Hh Hs Hhost) as [?|[?|[?|(c1 & peer1 & s1 & l1 & Hc1 & ?)]]];
        [by left|by right; left|by right; right; left|].
      right; right; right. exists c1, peer1, s1, l1. simpl.
      rewrite lookup_insert_ne; [done|]. intros <-. congruence.
  - by eapply open_routed_handle.
  - eapply open_routed_frame; [done|done| |by auto]. simpl. set_solver.
  - eapply open_routed_frame; [done|done|by auto..].
  - unfold server_kick. pose proof (λ host c, kick_keeps client (routes w) host c) as Hk.
    destruct (kick client (routes w)) as [t conns]. simpl in Hk.
    eapply open_routed_frame; [done|done|simpl; set_solver|]. simpl. intros host c Hr.
    destruct (Hk host c Hr); [by left|right]. apply elem_of_union_l. by apply elem_of_list_to_set.
  - eapply open_routed_frame; [done|done| |by auto]. simpl. intros x [?|?]; [set_solver|].
    destruct (decide (x = c)); set_solver.
  - eapply open_routed_frame; [done|done|by auto|by auto].
  - destruct (world_access_routes host ph w) as (Hr & Hh & Hc & Hk & _).
    eapply open_routed_frame; [done|done|by rewrite Hc, Hk|]. rewrite Hr. intros host' c Hrt. left.
    by apply access_keeps.
Qed.

Lemma open_routed_reachable cfg w : reachable_world cfg w → open_routed w.
Proof.
  intros Hr. pose proof (inv_start cfg) as Hinv.
  assert (open_routed (start_world cfg)) as Hor by (by intros c h s host Hh).
  induction Hr as [|w1 w2 w3 Hs _ IH]; [done|]. eauto using inv_step, open_routed_step.
Qed.

(** ** Theorems *)

(** The backend never answers one client with two modes for [host]. *)
Definition one_mode (host client : string) : Prop :=
  ∀ token token' g g' m m', admits b token (Some g) → admits b token' (Some g') →
    cg_client_name g = client → cg_client_name g' = client →
    (host, m) ∈ cg_hostnames g → (host, m') ∈ cg_hostnames g' → m = m'.

(** C1: public traffic only reaches authorised tunnels.  In every state the
    server can reach, with any number of handlers interleaved in any way: a
    connection routed for a host has a handler that was admitted by the backend,
    for a token the client presented, with a grant that names the host and the
    client that owns it, and that has not cleaned up yet.  The mode of the host is
    one the backend granted that client for it, not necessarily on this
    connection: the last tunnel installed gives the mode.  It is the mode of the
    connection's own grant when the backend gives the client one mode for the
    host.  In particular a connection that is not authenticated, was rejected or
    has finished is never routed. *)
Theorem routes_authorized cfg w host e c :
  reachable_world cfg w →
  routed (routes w) host e c →
  (∃ h s, handlers w !! c = Some h ∧ may_route (h_phase h) = Some s ∧
     admits b (s_token s) (Some (s_grant s)) ∧
     cg_client_name (s_grant s) = hr_client_name e ∧
     host ∈ (cg_hostnames (s_grant s)).*1 ∧
     (one_mode host (hr_client_name e) → (host, hr_tls_mode e) ∈ cg_hostnames (s_grant s))) ∧
  (∃ token g, admits b token (Some g) ∧ cg_client_name g = hr_client_name e ∧
     (host, hr_tls_mode e) ∈ cg_hostnames g).
Proof.
  intros Hinv%inv_reachable Hr.
  pose proof (wi_mode _ _ _ Hinv host e (proj1 Hr)) as Hmode. split; [|done].
  destruct (wi_routed _ _ _ Hinv host e c Hr) as (h & s & Hh & Hs & Hin).
  assert (admits b (s_token s) (Some (s_grant s))) as Hadm.
  { by eapply wi_admitted; [exact Hinv|exact Hh|apply may_route_session]. }
  assert (cg_client_name (s_grant s) = hr_client_name e) as Hname.
  { destruct Hr as [He Hc]. destruct (wi_table _ _ _ Hinv host e He) as (_ & _ & Hown & _).
    rewrite <- (Hown c Hc). unfold conn_owner. rewrite Hh. simpl.
    by rewrite (may_route_session _ _ Hs). }
  exists h, s. split_and!; try done. intros Hone. destruct Hmode as (token & g & Hg & Hcl & Hm).
  apply list_elem_of_fmap in Hin as ([host' m] & -> & Hin).
  by rewrite (Hone _ _ _ _ _ _ Hg Hadm Hcl Hname Hm Hin).
Qed.

(** C9: no tunnel is silently unrouted.  Under any interleaving, a tunnel that
    is being served is routed for every host it was granted, unless its connection
    is closed or somebody is about to close it (a newer tunnel that displaced it,
    or a revocation). *)
Theorem open_tunnels_routed cfg w c peer s host :
  reachable_world cfg w →
  handlers w !! c = Some {| h_peer := peer; h_phase := Serving s |} →
  host ∈ (cg_hostnames (s_grant s)).*1 →
  is_routed (routes w) host c ∨ closing w c.
Proof.
  intros Hor%open_routed_reachable Hc Hhost. by apply (Hor c _ s host Hc).
Qed.

(** C32: the registry is exact.  In every reachable state the tunnels it lists are
    those of the handlers between the registration and the unregistration, with
    their client, address and hosts; and the events sent account for it. *)
Theorem registry_exact cfg w c info :
  reachable_world cfg w →
  (ctl_tunnels (control w) !! c = Some info ↔
   ∃ h s, handlers w !! c = Some h ∧ registered (h_phase h) = Some s ∧
     info = session_info (h_peer h) s) ∧
  accounted (control w).
Proof.
  intros Hinv%inv_reachable. split; [|by destruct Hinv].
  rewrite (wi_registry _ _ _ Hinv). unfold registry_entry. destruct (handlers w !! c) as [h|]; simpl.
  - destruct (registered (h_phase h)) as [s|] eqn:E; simpl.
    + split; [intros [= <-]; eauto|]. intros (? & ? & [= <-] & ? & ->). by simplify_eq.
    + split; [done|]. intros (? & ? & [= <-] & ? & _). congruence.
  - split; [done|]. by intros (? & ? & ? & _).
Qed.

(** ** Handlers end *)

(** How far a phase is from the end, and the closes left in it. *)
Definition phase_rank (ph : phase) : nat * nat :=
  match ph with
  | AwaitStream => (9, 0) | AwaitHello => (8, 0) | AwaitAdmit _ => (7, 0) | Granted _ => (6, 0)
  | Displacing _ l => (5, length l) | Welcoming _ => (4, 0)
  | Registering _ => (3, 0) | Rejecting _ => (3, 0) | WelcomeFailed _ => (2, 0) | Linger => (2, 0)
  | Serving _ => (2, 1) | Removing _ => (2, 0) | Unregistering _ => (1, 0) | Finished => (0, 0)
  end%nat.

Definition rank_lt (a b : nat * nat) : Prop := (a.1 < b.1 ∨ a.1 = b.1 ∧ a.2 < b.2)%nat.

(** The events that need neither the peer nor the backend: steps of the server
    itself, and timeouts ([LingerOver] is the end of one). *)
Definition own_event (ev : event) : bool :=
  match ev with
  | StreamTimeout | HelloTimeout | AdmitTimeout | LingerOver | Tick => true
  | _ => false
  end.

(** The waits without a timeout: a frame being sent, and the tunnel itself. *)
Definition unbounded_phase (ph : phase) : bool :=
  match ph with Welcoming _ | Rejecting _ | Serving _ => true | _ => false end.

(** C33: handlers make progress.  Each step of a handler strictly decreases its
    (lexicographic) rank, so it takes finitely many.  A handler that has not
    finished always has a step of its own or a timeout to take, whatever the
    backend and the peer do, except while it sends the welcome or the reject,
    which no timeout bounds, and while it serves the tunnel; in these it has
    none.  A tunnel is left exactly when its connection is closed or the server is
    shutting down. *)
Theorem handler_progress c w h :
  handlers w !! c = Some h →
  (∀ ev w', handle c ev w = Some w' →
     ∃ h', handlers w' !! c = Some h' ∧ rank_lt (phase_rank (h_phase h')) (phase_rank (h_phase h))) ∧
  (h_phase h ≠ Finished →
   (unbounded_phase (h_phase h) = false ↔ ∃ ev, own_event ev = true ∧ is_Some (handle c ev w))) ∧
  (∀ s, h_phase h = Serving s →
   ((∃ ev, is_Some (handle c ev w)) ↔ c ∈ closed w ∨ cancel w = true)).
Proof.
  intros Hh. split_and!.
  - intros ev w'. unfold handle. rewrite Hh. cbn [mbind option_bind].
    destruct (h_phase h) eqn:Ep; destruct ev; try done; intros Hstep;
      repeat (case_match; try done); simplify_eq/=;
      (eexists; split; [by simpl; rewrite lookup_insert_eq|]); unfold rank_lt; simpl; lia.
  - intros Hne. unfold handle. rewrite Hh. cbn [mbind option_bind]. split.
    + intros Hw. destruct (h_phase h) eqn:Ep; try done;
        [exists StreamTimeout|exists HelloTimeout|exists AdmitTimeout|exists Tick|exists Tick|exists Tick
        |exists Tick|exists LingerOver|exists Tick|exists Tick]; (split; [done|]); try by eexists.
      * destruct (install _ _ _ _ _). by eexists.
      * destruct prev; by eexists.
    + intros (ev & Hev & [w' Hw']). destruct (h_phase h); try done; by destruct ev.
  - intros s Hs. unfold handle. rewrite Hh. cbn [mbind option_bind]. rewrite Hs. split.
    + intros (ev & w' & Hw'). destruct ev; try done; [left; by case_decide|right; by destruct (cancel w)].
    + intros [Hc|Hc]; [exists PeerClosed|exists Cancelled]; [rewrite decide_True by done|rewrite Hc]; by eexists.
Qed.
End world.

(** ** The static server, end to end *)

(** C2: with a valid configuration and the static backend, whatever happens on
    the network: a hostname that resolves to a tunnel is a hostname of the
    configuration (and not one of an upstream), resolved with its configured mode
    to the client it is bound to, on an open connection whose client presented
    that client's token. *)
Theorem static_end_to_end cfg w host r :
  validate cfg = Ok () →
  reachable_world (StaticBackend_new cfg) cfg w →
  (world_lookup host w).1 = PSome (Tunnel r) →
  (∃ e, e ∈ hostnames cfg ∧ he_host e = host ∧ he_client e = re_client_name r ∧
     he_tls_mode e = re_tls_mode r) ∧
  (host ∉ (ue_host <$> upstreams cfg)) ∧
  (re_conn r ∉ closed w) ∧
  ∃ ce h s, ce ∈ clients cfg ∧ ce_name ce = re_client_name r ∧
    handlers w !! re_conn r = Some h ∧ may_route (h_phase h) = Some s ∧ s_token s = ce_token ce.
Proof.
  intros Hvalid Hinv%inv_reachable Hl. unfold world_lookup in Hl.
  pose proof (lookup_tunnel (conn_owner (handlers w)) (is_closed w) host
    (routes w) r (wi_table _ _ _ _ Hinv)) as Ht.
  destruct (lookup _ _ _) as [res t]. simpl in *.
  destruct (Ht Hl) as (_ & e & He & -> & -> & Hc & Hopen & _). unfold is_closed in Hopen. apply bool_decide_eq_false in Hopen.
  destruct (wi_mode _ _ _ _ Hinv host e He) as (token & g & Hg & Hcn & Hin).
  unfold admits, StaticBackend_backend in Hg. symmetry in Hg. apply (granted_host _ _ _ _ _ Hg) in Hin as (en & Hen & Hcl & Hhost & Hmode).
  destruct (wi_routed _ _ _ _ Hinv host e (re_conn r)) as (h & s & Hh & Hs & _); [by split|].
  split; [exists en; split_and!; done || congruence|]. split; [|split; [done|]].
  - apply validate_Ok in Hvalid as [_ _ [_ [Hdisj _]]%NoDup_app _ _]. apply Hdisj.
    rewrite <- Hhost. by apply list_elem_of_fmap_2.
  - pose proof (wi_admitted _ _ _ _ Hinv _ _ _ Hh (may_route_session _ _ Hs)) as Hadm.
    unfold admits, StaticBackend_backend in Hadm. symmetry in Hadm. apply admit_Some in Hadm as (ce & Hlast & Hgr).
    apply last_Some_elem_of, list_elem_of_filter in Hlast as [Htok Hce].
    exists ce, h, s. split_and!; try done.
    destruct (wi_table _ _ _ _ Hinv host e He) as (_ & _ & Hown & _).
    specialize (Hown _ Hc). unfold conn_owner in Hown. rewrite Hh in Hown. simpl in Hown.
    rewrite (may_route_session _ _ Hs) in Hown. simpl in Hown. rewrite Hgr in Hown. simpl in Hown.
    congruence.
Qed.

(** ** Witnesses *)

Definition demo_backend : StaticBackend := StaticBackend_new demo_config.

(** The events of a session of alice's tunnel, connection 1. *)
Definition demo_events : list event :=
  [StreamOpened; HelloFrame (replicate 32 x07); AdmitAnswer (StaticBackend_admit demo_backend (replicate 32 x07));
   Tick; Tick; Sent; Tick].

Definition demo_spawned : World := spawn 1 "10.0.0.9:4433" (start_world demo_config).

(** The world after the first [n] of them. *)
Definition demo_world (n : nat) : World :=
  foldl (λ w ev, default w (handle 1 ev w)) demo_spawned (take n demo_events).

Definition demo_session : Session :=
  {| s_token := replicate 32 x07; s_grant := demo_grant |}.

Definition demo_handler : Handler := {| h_peer := "10.0.0.9:4433"; h_phase := Serving demo_session |}.

Lemma demo_step n ev :
  event_ok demo_backend 1 ev (demo_world n) →
  take (S n) demo_events = take n demo_events ++ [ev] →
  is_Some (handle 1 ev (demo_world n)) → step demo_backend (demo_world n) (demo_world (S n)).
Proof.
  intros Hok Htake [w' Hw']. apply (Handle _ 1 ev); [done|].
  unfold demo_world at 2. rewrite Htake, foldl_app. simpl. fold (demo_world n). by rewrite Hw'.
Qed.

Lemma demo_reachable : reachable_world demo_backend demo_config (demo_world 7).
Proof.
  eapply rtc_l; [exact (Spawn demo_backend 1 "10.0.0.9:4433" (start_world demo_config) eq_refl)|].
  change (spawn 1 "10.0.0.9:4433" (start_world demo_config)) with (demo_world 0).
  assert (∀ h token, handlers (demo_world 2) !! 1 = Some h → h_phase h = AwaitAdmit token →
    token = replicate 32 x07) as Htok.
  { assert (handlers (demo_world 2) !! 1 = Some {| h_peer := "10.0.0.9:4433";
      h_phase := AwaitAdmit (replicate 32 x07) |}) as Heq by (vm_compute; reflexivity).
    intros h token Hh Hp. rewrite Heq in Hh. by simplify_eq/=. }
  do 7 (eapply rtc_l;
    [eapply demo_step; [|vm_compute; reflexivity|vm_compute; eexists; reflexivity];
     try exact I; intros h token Hh Hp; by rewrite (Htok h token Hh Hp)|]).
  apply rtc_refl.
Qed.

Lemma demo_serving : handlers (demo_world 7) !! 1 = Some demo_handler.
Proof. vm_compute. reflexivity. Qed.

Definition demo_route : HostRoutes :=
  {| hr_client_name := "alice"; hr_tls_mode := Terminated; hr_conns := [1]; hr_cursor := 0 |}.

Lemma demo_routed : routed (routes (demo_world 7)) "a.example.com" demo_route 1.
Proof. split; [vm_compute; reflexivity|left]. Qed.

Lemma routes_authorized_witness :
  ∃ token g, admits demo_backend token (Some g) ∧ cg_client_name g = "alice" ∧
    ("a.example.com", Terminated) ∈ cg_hostnames g.
Proof.
  exact (proj2 (routes_authorized demo_backend demo_config (demo_world 7) "a.example.com" demo_route 1
    demo_reachable demo_routed)).
Defined.

Lemma open_tunnels_routed_witness :
  is_routed (routes (demo_world 7)) "a.example.com" 1 ∨ closing (demo_world 7) 1.
Proof.
  apply (open_tunnels_routed demo_backend demo_config (demo_world 7) 1 "10.0.0.9:4433" demo_session
    "a.example.com" demo_reachable demo_serving).
  left.
Defined.

Lemma registry_exact_witness :
  ctl_tunnels (control (demo_world 7)) !! 1 = Some (session_info "10.0.0.9:4433" demo_session).
Proof.
  apply (registry_exact demo_backend demo_config (demo_world 7) 1 _ demo_reachable).
  exists demo_handler, demo_session. split; [exact demo_serving|split; reflexivity].
Defined.

Lemma handler_progress_witness :
  ∃ ev, is_Some (handle 1 ev (set_cancel (demo_world 7))).
Proof.
  apply (handler_progress 1 (set_cancel (demo_world 7)) demo_handler demo_serving) with (s := demo_session);
    [reflexivity|right; reflexivity].
Defined.

Lemma static_end_to_end_witness :
  "a.example.com" ∉ (ue_host <$> upstreams demo_config).
Proof.
  apply (static_end_to_end demo_config (demo_world 7) "a.example.com"
    {| re_client_name := "alice"; re_tls_mode := Terminated; re_conn := 1 |}).
  - vm_compute. reflexivity.
  - exact demo_reachable.
  - vm_compute. reflexivity.
Defined.
