(* ===== verification/Revocation.v ===== *)
(** * Revoking a client

    [TunnelServer::kick] of [crates/tuyau-server/src/server.rs], next to the
    handlers of [handle_incoming].  Its documentation asks the caller to have the
    [RoutingBackend] stop admitting the client; here is what the two together
    achieve, and the window they leave: a handler whose grant was answered before
    the revocation and is installed after it. *)

From S2P Require Import Prelude Bytes Protocol Config Backend Routes Lookups Control Server.

Local Open Scope string_scope.
Local Open Scope list_scope.

Section revocation.
Context {B : Type} `{RoutingBackend B} (b : B).
Context (client : string).

(** A step in which the backend grants nothing to [client]: whoever has a grant of
    it to install had it before. *)
Definition revoked_step (w w' : World) : Prop :=
  step b w w' ∧
  ∀ c h s, handlers w' !! c = Some h → h_phase h = Granted s → cg_client_name (s_grant s) = client →
    handlers w !! c = Some h.

(** A grant of [client] that is not installed yet. *)
Definition pending_grant (w : World) : Prop :=
  ∃ c h s, handlers w !! c = Some h ∧ h_phase h = Granted s ∧ cg_client_name (s_grant s) = client.

(** No host is the client's. *)
Definition unrouted (t : RoutingTable) : Prop :=
  ∀ host e, inner t !! host = Some e → hr_client_name e ≠ client.

Definition revoked (w : World) : Prop := unrouted (routes w) ∧ ¬ pending_grant w.

(** ** Lemmas *)

Lemma unrouted_shrinks t t' : shrinks t t' → unrouted t → unrouted t'.
Proof. intros Hs Hu host e' (e & He & -> & _)%Hs. by eapply Hu. Qed.

Lemma kick_unrouted t : unrouted (kick client t).1.
Proof. intros host e. rewrite kick_inner. by intros [_ ?]%map_lookup_filter_Some. Qed.

Lemma install_unrouted hosts name balance conn t :
  name ≠ client → unrouted t → unrouted (install hosts name balance conn t).1.
Proof.
  intros Hne Hu. rewrite install_eq.
  pose proof (install_loop name balance conn hosts (inner t)) as Hl.
  destruct (foldl _ _ _) as [m' d']. destruct Hl as (Hout & Hin & _). intros host e He. simpl in He.
  destruct (decide (host ∈ hosts.*1)) as [Hd|Hd].
  - destruct (Hin host Hd) as (m & _ & He'). rewrite He' in He. by simplify_eq.
  - rewrite Hout in He by done. by eapply Hu.
Qed.

Lemma handle_unrouted c ev w w' :
  handle c ev w = Some w' → ¬ pending_grant w → unrouted (routes w) → unrouted (routes w').
Proof.
  intros Hs Hp Hu. unfold handle in Hs.
  destruct (handlers w !! c) as [[peer ph]|] eqn:Hh; [|done]. cbn [mbind option_bind h_peer h_phase] in Hs.
  destruct ph, ev; try done; repeat (case_match; try done); simplify_eq/=; try exact Hu;
    try (eapply unrouted_shrinks; [apply remove_conn_shrinks|exact Hu]).
  match goal with E : install _ _ _ _ _ = _ |- _ => rename E into Hi end.
  eapply (f_equal (unrouted ∘ fst)) in Hi. simpl in Hi. rewrite <- Hi.
  apply install_unrouted; [|exact Hu]. intros Hc. apply Hp. by eexists c, _, s.
Qed.

Lemma step_unrouted w w' : step b w w' → ¬ pending_grant w → unrouted (routes w) → unrouted (routes w').
Proof.
  destruct 1 as [c peer w Hfresh|c ev w w' Hok Hh|c w|w|name w|c w Hc|full w|host ph w]; intros Hp Hu;
    try exact Hu.
  - by eapply handle_unrouted.
  - unfold server_kick. pose proof (kick_shrinks name (routes w)) as Hs.
    destruct (kick name (routes w)) as [t conns]. by eapply unrouted_shrinks.
  - destruct (world_access_routes host ph w) as (-> & _).
    eapply unrouted_shrinks; [apply access_shrinks|done].
Qed.

Lemma revoked_step_revoked w w' : revoked_step w w' → revoked w → revoked w'.
Proof.
  intros [Hs Hno] [Hu Hp]. split; [by eapply step_unrouted|].
  intros (c & h & s & Hh & Hg & Hc). apply Hp. exists c, h, s. split_and!; [by eapply Hno|done..].
Qed.

Lemma revoked_steps w w' : rtc revoked_step w w' → rtc (step b) w w' ∧ (revoked w → revoked w').
Proof.
  induction 1 as [|w1 w2 w3 Hs _ [IHr IH]]; [split; [apply rtc_refl|done]|]. split.
  - eapply rtc_l; [apply Hs|done].
  - intros Hw. apply IH. by eapply revoked_step_revoked.
Qed.

Lemma server_kick_revoked w : ¬ pending_grant w → revoked (server_kick client w).
Proof.
  intros Hp. unfold server_kick. pose proof (kick_unrouted (routes w)) as Hu.
  destruct (kick client (routes w)) as [t conns]. split; [exact Hu|].
  intros (c & h & s & Hh & ?). apply Hp. by exists c, h, s.
Qed.

(** No lookup under way finds the client any more. *)
Lemma access_unrouted w :
  unrouted (routes w) →
  ∀ host ph r, returned ph = false → (world_access host ph w).1 = Returned (PSome (Tunnel r)) → re_client_name r ≠ client.
Proof.
  intros Hu host ph r Hret. unfold world_access. destruct ph as [| | |[|k]|]; cbn [lookup_step]; try done;
    try (repeat case_match; intros; simplify_eq; done).
  destruct (inner (routes w) !! host) as [e|] eqn:He; [|done]. destruct (hr_conns e !! _) as [conn|]; [|done].
  destruct (is_closed w conn); [done|]. intros [= <-]. by apply (Hu host e).
Qed.

(** ** Revocation *)

(** C6: a revoked client is out.  Once [kick] has run and the backend grants it
    nothing more, and unless a grant of it was answered but not yet installed at
    that moment, then whatever the server does next: no host is routed to the
    client, no lookup, also one that was under way, yields one of its tunnels, and
    every tunnel of it whose grant names at least one host is closed or about to be
    (a tunnel granted no host is not in the table, and [kick] does not see it). *)
Theorem kick_revokes cfg w w' :
  reachable_world b cfg w → ¬ pending_grant w → rtc revoked_step (server_kick client w) w' →
  unrouted (routes w') ∧
  (∀ host r, (world_lookup host w').1 = PSome (Tunnel r) → re_client_name r ≠ client) ∧
  (∀ host ph r, returned ph = false → (world_access host ph w').1 = Returned (PSome (Tunnel r)) →
     re_client_name r ≠ client) ∧
  (∀ c h s host, handlers w' !! c = Some h → holding (h_phase h) = Some s →
     cg_client_name (s_grant s) = client → host ∈ (cg_hostnames (s_grant s)).*1 → closing w' c).
Proof.
  intros Hr Hp Hs. apply revoked_steps in Hs as [Hrt Hrev].
  destruct (Hrev (server_kick_revoked w Hp)) as [Hu _]. clear Hrev.
  assert (reachable_world b cfg w') as Hr'.
  { unfold reachable_world in *. etrans; [exact Hr|]. eapply rtc_l; [apply Kick|exact Hrt]. }
  pose proof (inv_reachable b cfg w' Hr') as Hinv. split_and!; [done| |by apply access_unrouted|].
  - intros host r. unfold world_lookup.
    pose proof (lookup_tunnel (conn_owner (handlers w')) (is_closed w') host
      (routes w') r (wi_table _ _ _ _ Hinv)) as Ht.
    destruct (lookup _ _ _) as [res t]. simpl in *. intros (_ & e & He & -> & _)%Ht. by eapply Hu.
  - intros c h s host Hh Hs' Hc Hhost.
    destruct (open_routed_reachable b cfg w' Hr' c h s host Hh Hs' Hhost) as [(e & He & Hin)|]; [|done].
    destruct (Hu host e He). destruct (wi_table _ _ _ _ Hinv host e He) as (_ & _ & Hown & _).
    rewrite <- (Hown c Hin), <- Hc. unfold conn_owner. rewrite Hh. simpl.
    by destruct (h_phase h); simplify_eq/=.
Qed.
End revocation.

(** ** Witnesses *)

(** Alice's tunnel is served when she is revoked. *)
Definition demo_kicked : World := server_kick "alice" (demo_world 7).

Lemma demo_no_pending : ¬ pending_grant "alice" (demo_world 7).
Proof.
  intros (c & h & s & Hh & Hg & _).
  assert (handlers (demo_world 7) = {[1 := demo_handler]}) as Heq by (vm_compute; reflexivity).
  rewrite Heq in Hh. apply lookup_singleton_Some in Hh as [_ <-]. done.
Qed.

Lemma kick_revokes_witness : closing demo_kicked 1 ∧ unrouted "alice" (routes demo_kicked).
Proof.
  destruct (kick_revokes demo_backend "alice" demo_config (demo_world 7) demo_kicked demo_reachable
    demo_no_pending (rtc_refl _ _)) as (Hu & _ & _ & Hc).
  split; [|exact Hu].
  apply (Hc 1 demo_handler demo_session "a.example.com"); [|reflexivity|reflexivity|left].
  vm_compute. reflexivity.
Defined.

(** A grant answered just before the revocation survives it: the backend no longer
    admits alice, [kick] finds nothing to close (it returns 0), and her handler goes
    on to install the routes, welcome her and serve. *)
Example kick_misses_granted :
  let kicked := server_kick "alice" (demo_world 3) in
  let later := foldl (λ w ev, default w (handle 1 ev w)) kicked [Tick; Tick; Sent; Tick] in
  (kick "alice" (routes (demo_world 3))).2 = [] ∧
  handlers later !! 1 = Some demo_handler ∧
  inner (routes later) !! "a.example.com" = Some demo_route ∧
  (world_lookup "a.example.com" later).1 =
    PSome (Tunnel {| re_client_name := "alice"; re_tls_mode := Terminated; re_conn := 1 |}).
Proof. vm_compute. split_and!; reflexivity. Qed.

(** A client without hosts is admitted, and its tunnel is not in the table: [kick]
    closes nothing, and the tunnel is served as before, registered. *)
Definition hostless_config : ServerConfig := {|
  listen_addr := "0.0.0.0:7835"; public_listen_addr := Some "0.0.0.0:443"; tunnel_cert_dir := None;
  clients := [{| ce_name := "carol"; ce_token := replicate 32 x09; ce_balance := LastWriteWins |}];
  hostnames := []; acme := None; tls_cert_file := None; tls_key_file := None; upstreams := [];
  max_public_connections := None; error_502_file := None; client_ca_file := None
|}.

Definition hostless_grant : ClientGrant :=
  {| cg_client_name := "carol"; cg_hostnames := []; cg_balance := LastWriteWins |}.

Example kick_misses_hostless :
  let served := foldl (λ w ev, default w (handle 1 ev w))
    (spawn 1 "10.0.0.9:4433" (start_world hostless_config))
    [StreamOpened; HelloFrame (replicate 32 x09);
     AdmitAnswer (StaticBackend_admit (StaticBackend_new hostless_config) (replicate 32 x09));
     Tick; Tick; Sent; Tick] in
  let kicked_world := server_kick "carol" served in
  validate hostless_config = Ok () ∧
  (kick "carol" (routes served)).2 = [] ∧
  h_phase <$> handlers kicked_world !! 1
    = Some (Serving {| s_token := replicate 32 x09; s_grant := hostless_grant |}) ∧
  is_Some (ctl_tunnels (control kicked_world) !! 1) ∧
  elements (closed kicked_world) = [] ∧ elements (kicked kicked_world) = [].
Proof. vm_compute. split_and!; try reflexivity. by eexists. Qed.
