(* ===== verification/LocalPool.v ===== *)
(** * The pool of local connections

    [crates/tuyau-server/src/local_pool.rs]: the URI [LocalPool::send] gives to
    the pooled HTTP client, whose authority names the target, and the
    [UnixConnector] that reads the socket path back from it and connects.  Pooling
    itself is hyper's, here a record of what [LocalPool::new] sets; the parser of
    [http::Uri] is a parameter with the syntax it documents, connecting a function
    with the outcome of the attempt. *)

From S2P Require Import Prelude Bytes Protocol Config Routes.

Local Open Scope Z_scope.
Local Open Scope list_scope.

(** ** Hexadecimal *)

(** A digit of [{:02x}]. *)
Definition hex_digit (n : Z) : ascii :=
  Ascii.ascii_of_N (Z.to_N (if n <? 10 then 48 + n else 87 + n)).

Definition format_02x (b : byte) (rest : string) : string :=
  String.String (hex_digit (u8 b / 16)) (String.String (hex_digit (u8 b mod 16)) rest).

Fixpoint hex_encode (bytes : list byte) : string :=
  match bytes with
  | [] => ""
  | b :: bytes => format_02x b (hex_encode bytes)
  end.

(** [char::to_digit(16)] *)
Definition to_digit (c : ascii) : option Z :=
  let n := Z.of_N (Ascii.N_of_ascii c) in
  if (48 <=? n) && (n <=? 57) then Some (n - 48)
  else if (97 <=? n) && (n <=? 102) then Some (n - 87)
  else if (65 <=? n) && (n <=? 70) then Some (n - 55)
  else None.

(** [u8::from_str_radix(s, 16)] on two characters: a leading ['+'] is allowed. *)
Definition from_str_radix_16 (a b : ascii) : option byte :=
  if bool_decide (a = "+"%char) then to_u8 <$> to_digit b
  else x ← to_digit a; y ← to_digit b; Some (to_u8 (16 * x + y)).

(** The iterator of [hex_decode], on a text of even length. *)
Fixpoint hex_pairs (text : string) : option (list byte) :=
  match text with
  | String.EmptyString => Some []
  | String.String a (String.String b rest) =>
      x ← from_str_radix_16 a b; l ← hex_pairs rest; Some (x :: l)
  | String.String _ String.EmptyString => None
  end.

Definition hex_decode (text : string) : option (list byte) :=
  if Nat.odd (String.length text) then None else hex_pairs text.

(** ** [String::from_utf8_lossy]

    Each maximal part of an ill-formed sequence becomes U+FFFD. *)

Definition replacement : list byte := [xef; xbf; xbd].

(** The second byte a three- or four-byte sequence may have after [b0]. *)
Definition second_of_three (b0 b1 : byte) : bool :=
  if u8 b0 =? 0xE0 then in_range 0xA0 0xBF b1
  else if u8 b0 =? 0xED then in_range 0x80 0x9F b1
  else is_cont b1.
Definition second_of_four (b0 b1 : byte) : bool :=
  if u8 b0 =? 0xF0 then in_range 0x90 0xBF b1
  else if u8 b0 =? 0xF4 then in_range 0x80 0x8F b1
  else is_cont b1.

Fixpoint utf8_lossy (l : list byte) : list byte :=
  match l with
  | [] => []
  | b0 :: l0 =>
    if u8 b0 <? 0x80 then b0 :: utf8_lossy l0
    else if in_range 0xC2 0xDF b0 then
      match l0 with
      | b1 :: l1 => if is_cont b1 then b0 :: b1 :: utf8_lossy l1 else replacement ++ utf8_lossy l0
      | [] => replacement
      end
    else if in_range 0xE0 0xEF b0 then
      match l0 with
      | b1 :: l1 =>
          if second_of_three b0 b1 then
            match l1 with
            | b2 :: l2 => if is_cont b2 then b0 :: b1 :: b2 :: utf8_lossy l2
                          else replacement ++ utf8_lossy l1
            | [] => replacement
            end
          else replacement ++ utf8_lossy l0
      | [] => replacement
      end
    else if in_range 0xF0 0xF4 b0 then
      match l0 with
      | b1 :: l1 =>
          if second_of_four b0 b1 then
            match l1 with
            | b2 :: l2 =>
                if is_cont b2 then
                  match l2 with
                  | b3 :: l3 => if is_cont b3 then b0 :: b1 :: b2 :: b3 :: utf8_lossy l3
                                else replacement ++ utf8_lossy l2
                  | [] => replacement
                  end
                else replacement ++ utf8_lossy l1
            | [] => replacement
            end
          else replacement ++ utf8_lossy l0
      | [] => replacement
      end
    else replacement ++ utf8_lossy l0
  end.

Definition from_utf8_lossy (l : list byte) : string := String.string_of_list_byte (utf8_lossy l).

(** ** URIs *)

(** The parts of an [http::Uri] the code reads. *)
Record Uri := {
  authority : option string;
  path_and_query : option string
}.

(** A label: letters and digits, the characters of [hex_encode] among them. *)
Definition is_alnum (c : ascii) : bool :=
  let n := Ascii.N_of_ascii c in
  ((48 <=? n)%N && (n <=? 57)%N) || ((97 <=? n)%N && (n <=? 122)%N) || ((65 <=? n)%N && (n <=? 90)%N).
Fixpoint is_label (s : string) : bool :=
  match s with
  | String.EmptyString => false
  | String.String c String.EmptyString => is_alnum c
  | String.String c s => is_alnum c && is_label s
  end.

(** [http::Uri], as documented: a path in origin form (it begins with a slash)
    parses to itself; after [http://] and an authority, it is the path of a URI
    with that authority; a label is an authority, and its own host. *)
Class UriLaws (parse_uri : string → option Uri) (host_part : string → string) := {
  origin_form : string → Prop;
  authority_text : string → Prop;
  origin_form_root : origin_form "/";
  origin_form_slash path : origin_form path → starts_with "/" path = true;
  parse_origin path :
    origin_form path → parse_uri path = Some {| authority := None; path_and_query := Some path |};
  parse_absolute a path :
    authority_text a → origin_form path →
    parse_uri ("http://" +:+ a +:+ path) = Some {| authority := Some a; path_and_query := Some path |};
  label_authority label : is_label label = true → authority_text label;
  label_host label : is_label label = true → host_part label = label
}.

(** ** The pooled clients *)

Definition UPSTREAM_CONNECT_TIMEOUT : N := from_secs 10.
Definition IDLE_TIMEOUT : N := from_secs 4.
Definition MAX_IDLE_PER_BACKEND : nat := 64.

(** The builder of the pooled clients, and the connector of one. *)
Record pool_builder := {
  pb_idle_timeout : N;
  pb_max_idle_per_host : nat;
  pb_set_host : bool
}.

Inductive connector :=
| HttpConnector (nodelay : bool) (connect_timeout : option N)
| UnixConnector.

Record pool_client := {
  pc_builder : pool_builder;
  pc_connector : connector
}.

Record LocalPool := {
  lp_tcp : pool_client;
  lp_unix : pool_client
}.

Definition LocalPool_new : LocalPool :=
  let builder := {| pb_idle_timeout := IDLE_TIMEOUT; pb_max_idle_per_host := MAX_IDLE_PER_BACKEND;
                    pb_set_host := false |} in
  {| lp_tcp := {| pc_builder := builder;
                  pc_connector := HttpConnector true (Some UPSTREAM_CONNECT_TIMEOUT) |};
     lp_unix := {| pc_builder := builder; pc_connector := UnixConnector |} |}.

Section pool.
(* the parser of URIs, and the host in the text of an authority ([Uri::host]) *)
Context (parse_uri : string → option Uri) (host_part : string → string).

(** The authority that stands for a target. *)
Definition pool_authority (target : UpstreamTarget) : string :=
  match target with
  | Tcp addr => addr
  | Unix path => hex_encode (as_bytes path)
  end.

(** The URI of [LocalPool::send]; [PPanic] is the [expect]. *)
Definition send_uri (target : UpstreamTarget) (path_and_query : option string) : partial Uri :=
  let authority := pool_authority target in
  let path := default "/"%string path_and_query in
  match parse_uri ("http://" +:+ authority +:+ path) with
  | Some u => PSome u
  | None => PPanic
  end.

(** [LocalPool::send]: the client that gets the request, and its URI. *)
Definition pool_send (pool : LocalPool) (target : UpstreamTarget) (path_and_query : option string) :
    partial (pool_client * Uri) :=
  u ← send_uri target path_and_query;
  PSome (match target with Tcp _ => lp_tcp pool | Unix _ => lp_unix pool end, u).

(** [UnixConnector::call]: the socket path it connects to. *)
Definition connector_path (u : Uri) : result string PathBuf :=
  match (a ← authority u; hex_decode (host_part a)) with
  | Some bytes => Ok (from_utf8_lossy bytes)
  | None => Err "not a socket URI"%string
  end.

(** [UnixConnector::call]; the attempt has no outcome when it times out. *)
Definition unix_call {C : Type} (unix_connect : PathBuf → option (result string C)) (u : Uri) :
    result string C :=
  path ← connector_path u;
  match unix_connect path with
  | Some r => r
  | None => Err ("connect timeout: " +:+ path)
  end.

(** Where the client that [send] chose connects for a request with this URI: the
    TCP connector dials the authority, the Unix connector its path. *)
Definition pool_connects (target : UpstreamTarget) (u : Uri) : option UpstreamTarget :=
  match target with
  | Tcp _ => Tcp <$> authority u
  | Unix _ => match connector_path u with Ok path => Some (Unix path) | Err _ => None end
  end.
End pool.

(** ** Lemmas *)

Lemma from_str_radix_format b : from_str_radix_16 (hex_digit (u8 b / 16)) (hex_digit (u8 b mod 16)) = Some b.
Proof. destruct b; vm_compute; reflexivity. Qed.

Lemma hex_digit_alnum b :
  is_alnum (hex_digit (u8 b / 16)) = true ∧ is_alnum (hex_digit (u8 b mod 16)) = true.
Proof. destruct b; vm_compute; done. Qed.

Lemma hex_encode_even bytes : Nat.odd (String.length (hex_encode bytes)) = false.
Proof. by induction bytes as [|b bytes IH]. Qed.

Lemma hex_decode_encode bytes : hex_decode (hex_encode bytes) = Some bytes.
Proof.
  unfold hex_decode. rewrite hex_encode_even. induction bytes as [|b bytes IH]; [done|].
  cbn [hex_encode format_02x hex_pairs]. rewrite from_str_radix_format. cbn [mbind option_bind].
  by rewrite IH.
Qed.

Lemma is_label_cons c s : is_alnum c = true → (s = ""%string ∨ is_label s = true) →
  is_label (String.String c s) = true.
Proof. intros Hc [->|Hs]; simpl; [done|]. destruct s; [done|]. by rewrite Hc. Qed.

Lemma hex_encode_label bytes : bytes ≠ [] → is_label (hex_encode bytes) = true.
Proof.
  induction bytes as [|b bytes IH]; [done|]. intros _. destruct (hex_digit_alnum b) as [H1 H2].
  cbn [hex_encode]. unfold format_02x. apply is_label_cons; [done|]. right. apply is_label_cons; [done|].
  destruct bytes; [by left|]. right. by apply IH.
Qed.

(** Valid text is left alone. *)
Lemma utf8_lossy_valid l : utf8_valid l = true → utf8_lossy l = l.
Proof.
  remember (length l) as n eqn:Hn. revert l Hn.
  induction n as [n IH] using lt_wf_ind; intros l -> Hv.
  assert (∀ k, utf8_valid k = true → (length k < length l)%nat → utf8_lossy k = k) as IHk
    by (intros; by eapply IH). clear IH.
  destruct l as [|b0 l0]; [done|]. simpl in *.
  destruct (u8 b0 <? 0x80) eqn:E0; [by rewrite IHk by (done || lia)|].
  destruct l0 as [|b1 l1]; [done|].
  destruct (in_range 0xC2 0xDF b0) eqn:E2.
  { apply andb_prop in Hv as [-> Hv]. simpl in *. by rewrite IHk by (done || lia). }
  destruct l1 as [|b2 l2]; [done|]. fold (second_of_three b0 b1) in Hv.
  destruct (in_range 0xE0 0xEF b0) eqn:E3.
  { apply andb_prop in Hv as [Hb Hv]. apply andb_prop in Hb as [H1 H2].
    rewrite H1, H2. simpl in *. by rewrite IHk by (done || lia). }
  destruct l2 as [|b3 l3]; [done|]. fold (second_of_four b0 b1) in Hv.
  do 4 (apply andb_prop in Hv as [Hv ?]).
  repeat match goal with H : _ = true |- _ => rewrite H end. simpl in *.
  by rewrite IHk by (done || lia).
Qed.

Lemma from_utf8_lossy_valid s : utf8_valid (as_bytes s) = true → from_utf8_lossy (as_bytes s) = s.
Proof.
  intros Hv. unfold from_utf8_lossy. rewrite utf8_lossy_valid by done.
  apply String.string_of_list_byte_of_string.
Qed.

(** ** Theorems *)

Section pool_theorems.
Context (parse_uri : string → option Uri) (host_part : string → string) `{!UriLaws parse_uri host_part}.

(** A target that has an authority: an address, or a socket path (text, not
    empty). *)
Definition target_ok (target : UpstreamTarget) : Prop :=
  match target with
  | Tcp addr => authority_text addr
  | Unix p => p ≠ ""%string ∧ utf8_valid (as_bytes p) = true
  end.

Lemma target_authority target : target_ok target → authority_text (pool_authority target).
Proof.
  destruct target as [addr|p]; [done|]. intros [Hne _]. apply label_authority, hex_encode_label.
  by destruct p.
Qed.

(** For a request in origin form [send] does not panic, and the client connects to
    the target. *)
Lemma send_reaches target path :
  target_ok target → (∀ q, path = Some q → origin_form q) →
  ∃ u, send_uri parse_uri target path = PSome u ∧ authority u = Some (pool_authority target) ∧
    pool_connects host_part target u = Some target.
Proof.
  intros Ht Hp. unfold send_uri.
  rewrite parse_absolute; [|by apply target_authority|destruct path; [by apply Hp|apply origin_form_root]].
  eexists. split_and!; [done..|]. destruct target as [addr|p]; [done|]. destruct Ht as [Hne Hv].
  unfold pool_connects, connector_path. cbn [authority pool_authority mbind option_bind].
  rewrite label_host by (apply hex_encode_label; by destruct p).
  by rewrite hex_decode_encode, from_utf8_lossy_valid.
Qed.

End pool_theorems.
Arguments target_ok {parse_uri host_part _} _.

(** ** Witnesses *)

(** A parser for the executable checks: [http://authority/path] (the authority ends
    at the first slash), and everything else as a path. *)
Definition demo_parse_uri (s : string) : option Uri :=
  match strip_prefix "http://" s with
  | None => Some {| authority := None; path_and_query := Some s |}
  | Some rest =>
      match split_once "/"%char rest with
      | Some (a, path) =>
          if is_empty a then None
          else Some {| authority := Some a; path_and_query := Some (String.String "/" path) |}
      | None => if is_empty rest then None
                else Some {| authority := Some rest; path_and_query := Some "/"%string |}
      end
  end.

Definition demo_host_part (a : string) : string := default a (fst <$> split_once ":"%char a).

Lemma label_free c s : is_alnum c = false → is_label s = true → contains c s = false.
Proof.
  intros Hc. induction s as [|d s IH]; [done|]. intros Hl.
  assert (is_alnum d = true ∧ (s = ""%string ∨ is_label s = true)) as [Hd Hrest].
  { simpl in Hl. destruct s; [tauto|]. apply andb_prop in Hl. tauto. }
  simpl. rewrite bool_decide_eq_false_2 by (intros ->; congruence).
  destruct Hrest as [->|Hrest]; [done|]. by apply IH.
Qed.

Lemma split_once_free c a b : contains c a = false → split_once c (a +:+ String.String c b) = Some (a, b).
Proof.
  induction a as [|d a IH].
  - intros _. rewrite append_nil_l. cbn [split_once]. by rewrite bool_decide_eq_true_2.
  - cbn [contains]. intros [Hd Ha]%orb_false_iff. rewrite append_cons. cbn [split_once]. by rewrite Hd, IH.
Qed.

#[export] Instance demo_uri_laws : UriLaws demo_parse_uri demo_host_part.
Proof.
  refine {| origin_form path := starts_with "/" path = true;
            authority_text a := a ≠ ""%string ∧ contains "/"%char a = false |}.
  - done.
  - done.
  - intros path Hp. unfold demo_parse_uri. destruct (strip_prefix "http://" path) as [rest|] eqn:E; [|done].
    apply strip_prefix_Some in E. by rewrite E in Hp.
  - intros a path [Hne Ha] Hp. unfold demo_parse_uri.
    assert (strip_prefix "http://" ("http://" +:+ a +:+ path) = Some (a +:+ path)) as -> by (by apply strip_prefix_Some).
    unfold starts_with in Hp. destruct (strip_prefix "/" path) as [rest|] eqn:E; [|done].
    apply strip_prefix_Some in E as ->. change ("/" +:+ rest) with (String.String "/" rest).
    rewrite split_once_free by done. by destruct a.
  - intros label Hl. split; [by intros ->|]. by apply label_free.
  - intros label Hl. unfold demo_host_part.
    by rewrite (proj2 (split_once_None ":"%char label) (label_free ":"%char label eq_refl Hl)).
Defined.


(** The checks of the source's own test. *)
Example hex_decode_rejects : hex_decode "abc" = None ∧ hex_decode "zz" = None.
Proof. done. Qed.
