(* ===== verification/H2proxy.v ===== *)
(** * The HTTP reverse proxy

    [crates/tuyau-server/src/h2proxy.rs]: what happens to one request of a
    terminated connection.  [set_client_address] rewrites the address headers,
    [proxy] routes the request, and [h1_roundtrip], [ws_bridge], [h1_upgrade] and
    [pooled_roundtrip] rewrite it for an HTTP/1.1 backend and turn the backend's
    answer into a response; a pooled request goes through [LocalPool::send].

    The HTTP library (hyper) is a parameter: [HeaderMap] is the interface of its
    header maps, [parse_uri] and [parse_value] its parsers.  The network is an
    oracle, [backend_env]: whether the backend could be reached and what it
    answered.  A request that reaches a backend is in the [sent] field of the
    [Exchange]. *)

From S2P Require Import Prelude Bytes Protocol Config Routes LocalPool.

Local Open Scope string_scope.
Local Open Scope list_scope.

(** ** Header maps *)

(** A map from (lowercase) names to the values of the header, in order. *)
Class HeaderMap (H : Type) := {
  empty_headers : H;
  get_all : H → string → list string;
  insert_header : string → string → H → H;
  remove_header : string → H → H
}.

Class HeaderMapLaws (H : Type) `{HeaderMap H} := {
  get_all_empty n : get_all empty_headers n = [];
  get_all_insert_eq n v (h : H) : get_all (insert_header n v h) n = [v];
  get_all_insert_ne n n' v (h : H) : n ≠ n' → get_all (insert_header n v h) n' = get_all h n';
  get_all_remove_eq n (h : H) : get_all (remove_header n h) n = [];
  get_all_remove_ne n n' (h : H) : n ≠ n' → get_all (remove_header n h) n' = get_all h n'
}.

(** [headers.get(name)]: the first value; [headers.contains_key(name)]. *)
Definition get {H} `{HeaderMap H} (h : H) (n : string) : option string := head (get_all h n).
Definition contains_key {H} `{HeaderMap H} (h : H) (n : string) : bool := negb (is_nil (get_all h n)).

(** A header map for the executable checks. *)
#[export] Instance gmap_headers : HeaderMap (gmap string (list string)) := {
  empty_headers := ∅;
  get_all h n := default [] (h !! n);
  insert_header n v h := <[n := [v]]> h;
  remove_header n h := delete n h
}.

#[export] Instance gmap_headers_laws : HeaderMapLaws (gmap string (list string)).
Proof.
  split; intros; simpl; rewrite ?lookup_insert_eq, ?lookup_insert_ne, ?lookup_delete_eq,
    ?lookup_delete_ne by done; done.
Qed.

Definition X_REAL_IP := "x-real-ip".
Definition X_FORWARDED_FOR := "x-forwarded-for".
Definition CF_CONNECTING_IP := "cf-connecting-ip".
Definition HOST := "host".
Definition UPGRADE := "upgrade".
Definition CONNECTION := "connection".
Definition SEC_WEBSOCKET_KEY := "sec-websocket-key".
Definition SEC_WEBSOCKET_VERSION := "sec-websocket-version".
Definition SEC_WEBSOCKET_PROTOCOL := "sec-websocket-protocol".
Definition WS_KEY := "AAAAAAAAAAAAAAAAAAAAAA==".

(** ** Addresses *)

(** [std::net::IpAddr]: the 32 or 128 bits of the address. *)
Inductive IpAddr :=
| V4 (bits : Z)
| V6 (bits : Z).

(** [to_canonical]: an IPv4-mapped IPv6 address ([::ffff:a.b.c.d]) is its IPv4. *)
Definition to_canonical (ip : IpAddr) : IpAddr :=
  match ip with
  | V4 b => V4 b
  | V6 b => if (Z.shiftr b 32 =? 0xffff)%Z then V4 (Z.land b 0xffffffff) else V6 b
  end.

(** [str::trim] on the visible ASCII that [to_str] yields. *)
Definition is_space (c : ascii) : bool := bool_decide (c = " "%char ∨ c = "009"%char).
Fixpoint trim_start (s : string) : string :=
  match s with
  | String.EmptyString => ""
  | String.String c s' => if is_space c then trim_start s' else s
  end.
Fixpoint trim_end (s : string) : string :=
  match s with
  | String.EmptyString => ""
  | String.String c s' =>
      let t := trim_end s' in if is_space c && is_empty t then "" else String.String c t
  end.
Definition trim (s : string) : string := trim_end (trim_start s).

(** [value.to_str().ok()]: [None] unless every byte is visible ASCII or a tab. *)
Definition is_visible (c : ascii) : bool :=
  let n := Ascii.N_of_ascii c in ((32 <=? n)%N && (n <? 127)%N) || (n =? 9)%N.
Fixpoint all_visible (s : string) : bool :=
  match s with String.EmptyString => true | String.String c s => is_visible c && all_visible s end.
Definition to_str (v : string) : option string := if all_visible v then Some v else None.

Inductive Client :=
| Proxy
| Direct.

#[export] Instance Client_eq_dec : EqDecision Client.
Proof. solve_decision. Defined.

(** ** Requests and responses *)

Inductive Method := GET | CONNECT | OtherMethod (name : string).

#[export] Instance Method_eq_dec : EqDecision Method.
Proof. solve_decision. Defined.

Inductive Version := HTTP_11 | HTTP_2.

(** [protocol] is the RFC 8441 [:protocol] of an extended CONNECT; [has_body]
    whether the body of the client's request goes with it. *)
Record Request (H : Type) := {
  method : Method;
  uri : Uri;
  version : Version;
  req_headers : H;
  protocol : option string;
  has_body : bool
}.
Arguments method {H}.
Arguments uri {H}.
Arguments version {H}.
Arguments req_headers {H}.
Arguments protocol {H}.
Arguments has_body {H}.

Inductive Body := BackendBody | Page (html : string) | EmptyBody.

Record Response (H : Type) := {
  status : Z;
  resp_headers : H;
  body : Body
}.
Arguments status {H}.
Arguments resp_headers {H}.
Arguments body {H}.

(** Where a request was sent. *)
Inductive Destination :=
| ToTunnel (entry : RouteEntry)
| ToPool (target : UpstreamTarget)
| ToLocal (target : UpstreamTarget).

Record Exchange (H : Type) := {
  sent : option (Destination * Request H);
  response : Response H
}.
Arguments sent {H}.
Arguments response {H}.

(** What the network does with a request: the stream or connection to the
    backend opens, the h1 handshake completes in time, the backend answers, its
    upgrade completes. *)
Record backend_env (H : Type) := {
  opens : bool;
  handshakes : bool;
  answer : option (Response H);
  upgrades : bool
}.
Arguments opens {H}.
Arguments handshakes {H}.
Arguments answer {H}.
Arguments upgrades {H}.

Section proxy.
Context {H : Type} `{HeaderMap H}.
Context (parse_ip : string → option IpAddr) (show_ip : IpAddr → string).
Context (parse_uri : string → option Uri) (parse_value : string → option string).

(** ** [set_client_address] *)

Definition set_client_address (peer : IpAddr) (client : Client) (headers : H) : H :=
  let forwarded :=
    match client with
    | Proxy => value ← get headers CF_CONNECTING_IP;
               value ← to_str value;
               parse_ip (trim value)
    | Direct => None
    end in
  let headers :=
    match forwarded with
    | None => remove_header CF_CONNECTING_IP headers
    | Some _ => headers
    end in
  let address := show_ip (to_canonical (default peer forwarded)) in
  insert_header X_REAL_IP address (insert_header X_FORWARDED_FOR address headers).

(** ** Rewriting a request *)

Definition with_headers (h : H) (r : Request H) : Request H :=
  {| method := method r; uri := uri r; version := version r; req_headers := h;
     protocol := protocol r; has_body := has_body r |}.

(** The [Host] of the backend request: the authority of the URI, else the [Host]
    header, else the SNI. *)
Definition host_of (r : Request H) (sni : string) : string :=
  match authority (uri r) with
  | Some a => a
  | None => default sni (h ← get (req_headers r) HOST; to_str h)
  end.

Definition origin_of (r : Request H) : string := default "/" (path_and_query (uri r)).

Definition downgrade_to_h1 (r : Request H) (sni : string) : Request H :=
  let host := host_of r sni in
  let origin := origin_of r in
  {| method := method r;
     uri := default (uri r) (parse_uri origin);
     version := HTTP_11;
     req_headers :=
       match parse_value host with
       | Some v => insert_header HOST v (req_headers r)
       | None => req_headers r
       end;
     protocol := protocol r;
     has_body := has_body r |}.

Definition is_websocket_connect (r : Request H) : bool :=
  bool_decide (method r = CONNECT) &&
  match protocol r with Some p => eq_ignore_ascii_case p "websocket" | None => false end.

Definition needs_own_connection (r : Request H) : bool :=
  is_websocket_connect r || contains_key (req_headers r) UPGRADE ||
  bool_decide (method r = CONNECT).

Definition bad_gateway (html : string) : Response H :=
  {| status := 502;
     resp_headers := insert_header "content-type" "text/html; charset=utf-8" empty_headers;
     body := Page html |}.

Definition failed (html : string) : Exchange H := {| sent := None; response := bad_gateway html |}.

(** ** The round trips *)

(** Send [r] on a fresh h1 connection; [k] makes the response. *)
Definition exchange (env : backend_env H) (dest : Destination) (r : Request H) (html : string)
    (k : Response H → Response H) : Exchange H :=
  if negb (handshakes env) then failed html
  else {| sent := Some (dest, r);
          response := match answer env with Some resp => k resp | None => bad_gateway html end |}.

Definition h1_roundtrip (env : backend_env H) (dest : Destination) (r : Request H)
    (sni html : string) : Exchange H :=
  exchange env dest (downgrade_to_h1 r sni) html (λ resp, resp).

Definition with_uri (u : Uri) (r : Request H) : Request H :=
  {| method := method r; uri := u; version := version r; req_headers := req_headers r;
     protocol := protocol r; has_body := has_body r |}.

(** [pool.send(target, downgrade_to_h1(req, sni))]: the request goes to the pool with
    the absolute URI [send] makes, [PPanic] when that does not parse.  [opens] tells
    whether the client of the pool could send it. *)
Definition pooled_roundtrip (env : backend_env H) (target : UpstreamTarget) (r : Request H)
    (sni html : string) : partial (Exchange H) :=
  let r := downgrade_to_h1 r sni in
  u ← send_uri parse_uri target (path_and_query (uri r));
  PSome (if negb (opens env) then failed html
         else {| sent := Some (ToPool target, with_uri u r);
                 response := match answer env with Some resp => resp | None => bad_gateway html end |}).

(** The request [h1_upgrade] forwards, without its body, and what the client gets
    for the backend's answer. *)
Definition upgrade_request (r : Request H) : Request H :=
  {| method := method r; uri := uri r; version := HTTP_11;
     req_headers := req_headers r; protocol := None; has_body := false |}.

(** [empty_body] *)
Definition empty_body : Body := EmptyBody.

Definition upgrade_reply (resp : Response H) : Response H :=
  if (status resp =? 101)%Z
  then {| status := status resp; resp_headers := resp_headers resp; body := empty_body |}
  else resp.

Definition h1_upgrade (env : backend_env H) (dest : Destination) (r : Request H)
    (html : string) : Exchange H :=
  exchange env dest (upgrade_request r) html upgrade_reply.

(** The request [ws_bridge] makes of an extended CONNECT: [PPanic] is the panic of
    indexing an absent header, [None] a request the builder refuses. *)
Definition ws_request (r : Request H) (sni : string) : partial (option (Request H)) :=
  let host := host_of r sni in
  let path := origin_of r in
  real_ip ← match get (req_headers r) X_REAL_IP with Some v => PSome v | None => PPanic end;
  forwarded ← match get (req_headers r) X_FORWARDED_FOR with Some v => PSome v | None => PPanic end;
  match parse_uri path, parse_value host with
  | Some u, Some hv =>
      let hs := insert_header HOST hv empty_headers in
      let hs := insert_header X_REAL_IP real_ip hs in
      let hs := insert_header X_FORWARDED_FOR forwarded hs in
      let hs := insert_header CONNECTION "Upgrade" hs in
      let hs := insert_header UPGRADE "websocket" hs in
      let hs := insert_header SEC_WEBSOCKET_VERSION "13" hs in
      let hs := insert_header SEC_WEBSOCKET_KEY WS_KEY hs in
      let hs := match get (req_headers r) SEC_WEBSOCKET_PROTOCOL with
                | Some v => insert_header SEC_WEBSOCKET_PROTOCOL v hs
                | None => hs
                end in
      PSome (Some {| method := GET; uri := u; version := HTTP_11; req_headers := hs;
                     protocol := None; has_body := false |})
  | _, _ => PSome None
  end.

(** The [200] of [ws_bridge], with the subprotocol the backend chose. *)
Definition ws_reply (resp : Response H) : Response H :=
  {| status := 200;
     resp_headers :=
       match get (resp_headers resp) SEC_WEBSOCKET_PROTOCOL with
       | Some sp => insert_header SEC_WEBSOCKET_PROTOCOL sp empty_headers
       | None => empty_headers
       end;
     body := empty_body |}.

Definition ws_bridge (env : backend_env H) (dest : Destination) (r : Request H)
    (sni html : string) : partial (Exchange H) :=
  breq ← ws_request r sni;
  match breq with
  | Some breq =>
      PSome (exchange env dest breq html (λ resp,
        if negb (status resp =? 101)%Z then bad_gateway html
        else if negb (upgrades env) then bad_gateway html
        else ws_reply resp))
  | None => PSome (failed html)
  end.

Definition serve_request (env : backend_env H) (dest : Destination) (r : Request H)
    (sni html : string) : partial (Exchange H) :=
  if is_websocket_connect r then ws_bridge env dest r sni html
  else if contains_key (req_headers r) UPGRADE then PSome (h1_upgrade env dest r html)
  else if bool_decide (method r = CONNECT) then PSome (failed html)
  else PSome (h1_roundtrip env dest r sni html).

(** ** [proxy] *)

(** What becomes of a request for which the lookup found [route]. *)
Definition proxy_route (env : backend_env H) (route : partial Route) (r : Request H) (sni : string)
    (peer : IpAddr) (client : Client) (html : string) : partial (Exchange H) :=
  let r := with_headers (set_client_address peer client (req_headers r)) r in
  match route with
  | PSome (Tunnel entry) =>
      if opens env then serve_request env (ToTunnel entry) r sni html else PSome (failed html)
  | PSome (Local_ target) =>
      if negb (needs_own_connection r) then pooled_roundtrip env target r sni html
      else if opens env then serve_request env (ToLocal target) r sni html
      else PSome (failed html)
  | PNone => PSome (failed html)
  | PPanic => PPanic
  | PFuel => PFuel
  end.

(** One request: the exchange, and the table with its cursor moved.  [closed] is
    the state of the tunnels at the time of the lookup. *)
Definition proxy (env : backend_env H) (closed : Connection → bool) (r : Request H)
    (t : RoutingTable) (sni : string) (peer : IpAddr) (client : Client) (html : string) :
    partial (Exchange H) * RoutingTable :=
  let '(route, t) := lookup closed sni t in
  (proxy_route env route r sni peer client html, t).

(** ** Lemmas *)

Context `{!HeaderMapLaws H}.

(** The address of the client, as the backend is told. *)
Definition forwarded_address (client : Client) (headers : H) : option IpAddr :=
  match client with
  | Proxy => value ← get headers CF_CONNECTING_IP; value ← to_str value; parse_ip (trim value)
  | Direct => None
  end.

Definition client_address (peer : IpAddr) (client : Client) (headers : H) : string :=
  show_ip (to_canonical (default peer (forwarded_address client headers))).

(** [headers] names the client: both headers have that value and no other. *)
Definition names_client (addr : string) (headers : H) : Prop :=
  get_all headers X_REAL_IP = [addr] ∧ get_all headers X_FORWARDED_FOR = [addr].

Lemma set_client_address_names peer client h :
  names_client (client_address peer client h) (set_client_address peer client h).
Proof.
  unfold set_client_address. fold (forwarded_address client h). split.
  - by rewrite get_all_insert_eq.
  - by rewrite get_all_insert_ne, get_all_insert_eq.
Qed.

Lemma set_client_address_cf peer client h :
  get_all (set_client_address peer client h) CF_CONNECTING_IP =
  match forwarded_address client h with Some _ => get_all h CF_CONNECTING_IP | None => [] end.
Proof.
  unfold set_client_address. fold (forwarded_address client h).
  rewrite !get_all_insert_ne by done.
  destruct (forwarded_address client h); [done|]. by rewrite get_all_remove_eq.
Qed.

Lemma set_client_address_other peer client h n :
  n ≠ X_REAL_IP → n ≠ X_FORWARDED_FOR → n ≠ CF_CONNECTING_IP →
  get_all (set_client_address peer client h) n = get_all h n.
Proof.
  intros ???. unfold set_client_address. fold (forwarded_address client h).
  rewrite !get_all_insert_ne by done.
  destruct (forwarded_address client h); [done|]. by rewrite get_all_remove_ne.
Qed.

Lemma downgrade_headers r sni n :
  n ≠ HOST → get_all (req_headers (downgrade_to_h1 r sni)) n = get_all (req_headers r) n.
Proof.
  intros Hn. unfold downgrade_to_h1; simpl. destruct (parse_value _); [|done].
  by rewrite get_all_insert_ne.
Qed.

(** What every request sent by [serve_request] carries. *)
Definition carries (addr : string) (cf : list string) (q : Request H) : Prop :=
  names_client addr (req_headers q) ∧
  (get_all (req_headers q) CF_CONNECTING_IP = cf ∨ get_all (req_headers q) CF_CONNECTING_IP = []).

Lemma downgrade_carries addr cf r sni :
  carries addr cf r → carries addr cf (downgrade_to_h1 r sni).
Proof.
  intros [[? ?] ?]. split; [split|]; by rewrite downgrade_headers.
Qed.

Lemma exchange_sent env dest r html k dest' q :
  sent (exchange env dest r html k) = Some (dest', q) → dest' = dest ∧ q = r.
Proof. unfold exchange. destruct (handshakes env); [|done]. by intros [= <- <-]. Qed.

Lemma ws_bridge_carries env dest r sni html addr cf :
  carries addr cf r →
  ∃ ex, ws_bridge env dest r sni html = PSome ex ∧
    ∀ dest' q, sent ex = Some (dest', q) → dest' = dest ∧ carries addr cf q.
Proof.
  intros [[Hreal Hfor] _]. unfold ws_bridge, ws_request.
  assert (get (req_headers r) X_REAL_IP = Some addr) as -> by (unfold get; by rewrite Hreal).
  assert (get (req_headers r) X_FORWARDED_FOR = Some addr) as -> by (unfold get; by rewrite Hfor).
  cbn [mbind partial_bind].
  destruct (parse_uri _) as [u|]; [|by eexists]. destruct (parse_value _) as [hv|]; [|by eexists].
  eexists. split; [done|]. intros dest' q [-> ->]%exchange_sent. split; [done|].
  unfold carries, names_client; simpl.
  destruct (get (req_headers r) SEC_WEBSOCKET_PROTOCOL); (split; [split|right]);
    repeat (rewrite get_all_insert_eq || rewrite get_all_insert_ne by done);
    done || apply get_all_empty.
Qed.

Lemma serve_request_carries env dest r sni html addr cf :
  carries addr cf r →
  ∃ ex, serve_request env dest r sni html = PSome ex ∧
    ∀ dest' q, sent ex = Some (dest', q) → dest' = dest ∧ carries addr cf q.
Proof.
  intros Hc. unfold serve_request. destruct (is_websocket_connect r); [by apply ws_bridge_carries|].
  destruct (contains_key _ _).
  { eexists. split; [done|]. by intros dest' q [-> ->]%exchange_sent. }
  destruct (bool_decide _); [by eexists|].
  eexists. split; [done|]. intros dest' q [-> ->]%exchange_sent.
  split; [done|]. by apply downgrade_carries.
Qed.

(** The route a destination was reached by. *)
Definition route_to (dest : Destination) : Route :=
  match dest with ToTunnel e => Tunnel e | ToPool target | ToLocal target => Local_ target end.

Lemma proxy_route_carries env route r sni peer client html ex dest q :
  let addr := client_address peer client (req_headers r) in
  let cf := match forwarded_address client (req_headers r) with
            | Some _ => get_all (req_headers r) CF_CONNECTING_IP | None => [] end in
  proxy_route env route r sni peer client html = PSome ex → sent ex = Some (dest, q) →
  carries addr cf q ∧ route = PSome (route_to dest).
Proof.
  intros addr cf. unfold proxy_route. set (r' := with_headers _ r).
  assert (carries addr cf r') as Hc.
  { split; [apply set_client_address_names|left; apply set_client_address_cf]. }
  assert (∀ dest0, serve_request env dest0 r' sni html = PSome ex → sent ex = Some (dest, q) →
    dest = dest0 ∧ carries addr cf q) as Hserve.
  { intros dest0 Hex Hq. destruct (serve_request_carries env dest0 r' sni html _ _ Hc) as (ex' & Hex' & Hs).
    rewrite Hex in Hex'. injection Hex' as <-. by apply Hs. }
  destruct route as [[entry|target]| | |]; try done.
  - destruct (opens env); [|by intros [= <-]]. intros Hex Hq. by destruct (Hserve _ Hex Hq) as [-> ?].
  - destruct (needs_own_connection r'); simpl.
    + destruct (opens env); [|by intros [= <-]]. intros Hex Hq. by destruct (Hserve _ Hex Hq) as [-> ?].
    + unfold pooled_roundtrip. destruct (send_uri _ _ _) as [u| | |]; try done. cbn [mbind partial_bind].
      intros [= <-]. destruct (opens env); [|done]. intros [= <- <-]. split; [|done].
      destruct (downgrade_carries addr cf r' sni Hc) as [[? ?] ?]. by split.
  - by intros [= <-].
Qed.

(** The request goes to the pool under a URI that names its target. *)
Lemma proxy_route_pool host_part `{!UriLaws parse_uri host_part} env target r sni peer client html :
  target_ok target → origin_form (origin_of r) →
  is_Some (value (proxy_route env (PSome (Local_ target)) r sni peer client html)) ∧
  ∀ ex target' q, proxy_route env (PSome (Local_ target)) r sni peer client html = PSome ex →
    sent ex = Some (ToPool target', q) → pool_connects host_part target' (uri q) = Some target'.
Proof.
  intros Ht Ho. unfold proxy_route. set (r' := with_headers _ r).
  assert (names_client (client_address peer client (req_headers r)) (req_headers r')) as Hn
    by apply set_client_address_names.
  assert (∀ dest, ∃ ex, serve_request env dest r' sni html = PSome ex ∧
    ∀ dest' q, sent ex = Some (dest', q) → dest' = dest) as Hserve.
  { intros dest. destruct (serve_request_carries env dest r' sni html _ (get_all (req_headers r') CF_CONNECTING_IP)
      (conj Hn (or_introl eq_refl))) as (ex & Hex & Hs).
    exists ex. split; [done|]. intros dest' q Hq. by destruct (Hs dest' q Hq). }
  destruct (needs_own_connection r'); simpl.
  - destruct (opens env); [|split; [by eexists|by intros ex ? ? [= <-]]].
    destruct (Hserve (ToLocal target)) as (ex & -> & Hs). split; [by eexists|].
    intros ? target' q [= <-] Hq. by apply Hs in Hq.
  - assert (∃ u, send_uri parse_uri target (path_and_query (uri (downgrade_to_h1 r' sni))) = PSome u ∧
      pool_connects host_part target u = Some target) as (u & Hu & Hc).
    { destruct (send_reaches parse_uri host_part target (path_and_query (uri (downgrade_to_h1 r' sni)))) as (u & ? & _ & ?);
        [done| |by exists u]. unfold downgrade_to_h1. simpl. unfold origin_of in *. simpl in Ho |- *.
      rewrite (parse_origin _ Ho). by intros q [= <-]. }
    unfold pooled_roundtrip. rewrite Hu. cbn [mbind partial_bind]. split; [by eexists|].
    intros ex target' q [= <-]. destruct (opens env); [|done]. by intros [= <- <-].
Qed.

(** The 502 page stands for every failure. *)
Definition honest (env : backend_env H) (html : string) (ex : Exchange H) : Prop :=
  answer env = None ∨ sent ex = None → response ex = bad_gateway html.

Lemma exchange_honest env dest r html k : honest env html (exchange env dest r html k).
Proof.
  unfold honest, exchange. destruct (handshakes env); simpl; [|done]. by intros [->|].
Qed.

Lemma serve_request_honest env dest r sni html ex :
  serve_request env dest r sni html = PSome ex → honest env html ex.
Proof.
  unfold serve_request. destruct (is_websocket_connect r).
  - unfold ws_bridge, ws_request. destruct (get _ X_REAL_IP); [|done]. destruct (get _ X_FORWARDED_FOR); [|done].
    cbn [mbind partial_bind].
    destruct (parse_uri _); [destruct (parse_value _)|]; intros [= <-]; [apply exchange_honest|done..].
  - destruct (contains_key _ _); [intros [= <-]; apply exchange_honest|].
    destruct (bool_decide _); [by intros [= <-]|]. intros [= <-]. apply exchange_honest.
Qed.

Lemma contains_key_with peer client h :
  contains_key (set_client_address peer client h) UPGRADE = contains_key h UPGRADE.
Proof. unfold contains_key. by rewrite set_client_address_other. Qed.

Lemma needs_own_connection_with peer client r :
  needs_own_connection (with_headers (set_client_address peer client (req_headers r)) r) =
  needs_own_connection r.
Proof.
  unfold needs_own_connection, is_websocket_connect; simpl. by rewrite contains_key_with.
Qed.

(** ** Theorems *)


(** The other headers are the client's.  [set_client_address] touches no
    header but the three address headers, and two requests that differ only in
    those three are told apart in nothing when the client is direct. *)
Theorem client_cannot_spoof peer h1 h2 :
  (∀ n, n ≠ X_REAL_IP → n ≠ X_FORWARDED_FOR → n ≠ CF_CONNECTING_IP → get_all h1 n = get_all h2 n) →
  (∀ n, get_all (set_client_address peer Direct h1) n = get_all (set_client_address peer Direct h2) n) ∧
  (∀ client n, n ≠ X_REAL_IP → n ≠ X_FORWARDED_FOR → n ≠ CF_CONNECTING_IP →
     get_all (set_client_address peer client h1) n = get_all h1 n).
Proof.
  intros Heq. split; [|intros; by apply set_client_address_other].
  intros n. destruct (set_client_address_names peer Direct h1) as [E1 E2].
  destruct (set_client_address_names peer Direct h2) as [E3 E4].
  destruct (decide (n = X_REAL_IP)) as [->|]; [by rewrite E1, E3|].
  destruct (decide (n = X_FORWARDED_FOR)) as [->|]; [by rewrite E2, E4|].
  destruct (decide (n = CF_CONNECTING_IP)) as [->|]; [by rewrite !set_client_address_cf|].
  rewrite !set_client_address_other by done. by apply Heq.
Qed.

(** C38: a failure is a 502 and nothing else.  When no backend is routed, when it
    cannot be reached or when its answer fails, the visitor gets the 502 page;
    when the request was not sent, it is the 502 page; and a plain CONNECT (not a
    WebSocket, not an upgrade) is never sent to a backend. *)
Theorem failures_are_502 env closed r t sni peer client html ex :
  (proxy env closed r t sni peer client html).1 = PSome ex →
  (answer env = None ∨ sent ex = None → response ex = bad_gateway html) ∧
  (opens env = false → response ex = bad_gateway html) ∧
  (method r = CONNECT → is_websocket_connect r = false → contains_key (req_headers r) UPGRADE = false →
     sent ex = None).
Proof.
  unfold proxy. destruct (lookup closed sni t) as [route t']. unfold proxy_route.
  pose proof (needs_own_connection_with peer client r) as Hown.
  assert (is_websocket_connect r = false → contains_key (req_headers r) UPGRADE = false →
    method r = CONNECT →
    ∀ dest ex', serve_request env dest (with_headers (set_client_address peer client (req_headers r)) r)
      sni html = PSome ex' → sent ex' = None) as Hconnect.
  { intros Hws Hup Hm dest ex'. unfold serve_request, is_websocket_connect in *; simpl.
    rewrite Hws, contains_key_with, Hup, bool_decide_eq_true_2 by done. by intros [= <-]. }
  set (r' := with_headers _ r) in *.
  assert (∀ dest, serve_request env dest r' sni html = PSome ex → honest env html ex) as Hserve
    by (intros dest; apply serve_request_honest).
  assert (method r = CONNECT → needs_own_connection r = true) as Hm
    by (intros Hm; unfold needs_own_connection; rewrite Hm; simpl; by rewrite orb_true_r).
  destruct route as [[entry|target]| | |]; simpl; try done.
  - destruct (opens env).
    + intros Hex. split; [by apply (Hserve _ Hex)|]. split; [done|]. eauto.
    + intros [= <-]. by split_and!.
  - rewrite Hown. destruct (needs_own_connection r); simpl.
    + destruct (opens env).
      * intros Hex. split; [by apply (Hserve _ Hex)|]. split; [done|]. eauto.
      * intros [= <-]. by split_and!.
    + unfold pooled_roundtrip. destruct (send_uri _ _ _); try done. cbn [mbind partial_bind]. intros [= <-].
      destruct (opens env); simpl; [|by split_and!].
      split_and!; [by intros [->|?]|done|]. intros ?%Hm. done.
  - intros [= <-]. by split_and!.
Qed.
End proxy.

(** ** Witnesses *)

Definition demo_parse_ip (s : string) : option IpAddr :=
  if decide (s = "203.0.113.7") then Some (V4 0xCB007107) else None.
Definition demo_show_ip (ip : IpAddr) : string :=
  match ip with V4 b => if (b =? 0xCB007107)%Z then "203.0.113.7" else "192.0.2.1" | V6 _ => "::1" end.
Definition demo_headers : gmap string (list string) :=
  {[CF_CONNECTING_IP := ["203.0.113.7"]; X_REAL_IP := ["198.51.100.9"]; "accept" := ["*/*"]]}.

Definition demo_request : Request (gmap string (list string)) :=
  {| method := GET; uri := {| authority := Some "a.example.com"; path_and_query := Some "/x?y" |};
     version := HTTP_2; req_headers := demo_headers; protocol := None; has_body := false |}.

Definition demo_env : backend_env (gmap string (list string)) :=
  {| opens := true; handshakes := true; answer := None; upgrades := false |}.

Definition demo_proxy (client : Client) :=
  proxy demo_parse_ip demo_show_ip demo_parse_uri Some demo_env demo_open demo_request demo_table
    "a.example.com" (V6 0xffffc0000201) client "oops".

Example demo_direct :
  (λ ex, (λ dq, (get_all (req_headers dq.2) X_REAL_IP, get_all (req_headers dq.2) CF_CONNECTING_IP,
                 get_all (req_headers dq.2) HOST)) <$> sent ex) <$> value (demo_proxy Direct).1 =
  Some (Some (["192.0.2.1"], [], ["a.example.com"])).
Proof. vm_compute. reflexivity. Qed.

(** A pooled request: [new.example.com] is served by a local upstream. *)
Definition demo_pooled (req : Request (gmap string (list string))) : partial (Exchange (gmap string (list string))) :=
  (proxy demo_parse_ip demo_show_ip demo_parse_uri Some demo_env demo_open req demo_table
    "new.example.com" (V6 0xffffc0000201) Proxy "oops").1.

Definition pooled_at (ex : Exchange (gmap string (list string))) : option UpstreamTarget :=
  '(dest, q) ← sent ex;
  match dest with ToPool target => pool_connects demo_host_part target (uri q) | _ => None end.


Example demo_pooled_at : pooled_at <$> value (demo_pooled demo_request) = Some (Some (Tcp "127.0.0.1:8443")).
Proof. vm_compute. reflexivity. Qed.

(** [OPTIONS *] is not in origin form: the URI [send] makes of it has another
    authority, and the pool is told to connect there. *)
Example asterisk_misaddressed :
  let req := {| method := OtherMethod "OPTIONS"; uri := {| authority := None; path_and_query := Some "*" |};
                version := HTTP_11; req_headers := demo_headers; protocol := None; has_body := false |} in
  pooled_at <$> value (demo_pooled req) = Some (Some (Tcp "127.0.0.1:8443*")).
Proof. vm_compute. reflexivity. Qed.

Lemma client_cannot_spoof_witness :
  get_all (set_client_address demo_parse_ip demo_show_ip (V4 1) Direct demo_headers) X_REAL_IP =
  get_all (set_client_address demo_parse_ip demo_show_ip (V4 1) Direct (delete X_REAL_IP demo_headers))
    X_REAL_IP.
Proof.
  apply (client_cannot_spoof demo_parse_ip demo_show_ip (V4 1) demo_headers
    (delete X_REAL_IP demo_headers)).
  intros n Hn _ _. simpl. by rewrite lookup_delete_ne.
Defined.

Definition demo_exchange : Exchange (gmap string (list string)) :=
  default (failed "") (value (demo_proxy Direct).1).

Lemma failures_are_502_witness : response demo_exchange = bad_gateway "oops".
Proof.
  assert ((demo_proxy Direct).1 = PSome demo_exchange) as E by (vm_compute; reflexivity).
  exact (proj1 (failures_are_502 demo_parse_ip demo_show_ip demo_parse_uri Some demo_env demo_open
    demo_request demo_table "a.example.com" (V6 0xffffc0000201) Direct "oops" demo_exchange E)
    (or_introl eq_refl)).
Defined.
