(* ===== verification/Public.v ===== *)
(** * The public listener

    [crates/tuyau-server/src/public.rs]: what happens to one public connection:
    [read_client_hello], the routing decision of [handle_public] on the parsed
    SNI, and the header [open_tunnel_stream] sends ahead of the bytes.  The
    streams are in [Stream], the limits in [Limits], the requests of a
    reverse-proxied connection in [H2proxy].

    The routing table is shared: each of its four uses in [handle_public] may
    see a different table, so the decision takes one table per use ([tables]).
    The TLS handshake (rustls) is an oracle: its outcome. *)

From stdpp Require Import pretty.
From S2P Require Import Prelude Bytes Sni Stream Protocol Config Routes H2proxy.

Local Open Scope Z_scope.

(** ** Reading the ClientHello *)

Definition MAX_RECORD_SIZE : Z := 16 * 1024.

(** [read_client_hello(stream)]: one TLS record, header and body. *)
Definition read_client_hello {S : Type} `{ReadExact S} (stream : S) :
    S * result io_error (list byte) :=
  match read_exact stream 5 with
  | (stream, Err e) => (stream, Err e)
  | (stream, Ok buf) =>
      match buf with
      | [b0; _; _; b3; b4] =>
          if negb (u8 b0 =? 0x16) then (stream, Err "not a TLS Handshake record"%string)
          else
            let rec_len := u16_from_be_bytes b3 b4 in
            if rec_len >? MAX_RECORD_SIZE
            then (stream, Err "ClientHello record too large"%string)
            else
              match read_exact stream (Z.to_nat rec_len) with
              | (stream, Err e) => (stream, Err e)
              | (stream, Ok body) => (stream, Ok (buf ++ body))
              end
      | _ => (stream, Err "unreachable: read_exact returned another length"%string)
      end
  end.

(** ** The TLS handshake *)

Inductive ClientCert :=
| Any
| SignedBy (roots : PathBuf).

Record PublicTls := {
  acme_active : bool;
  needs_client_cert : bool
}.

Definition PublicTls_new (acme_active : bool) (client_cert : ClientCert) : PublicTls :=
  {| acme_active := acme_active;
     needs_client_cert := match client_cert with SignedBy _ => true | Any => false end |}.

Definition ALPN_H2 : list byte := as_bytes "h2".
Definition ALPN_H1 : list byte := as_bytes "http/1.1".
Definition ACME_TLS_ALPN_NAME : list byte := as_bytes "acme-tls/1".

(** The protocols [build_rustls_config] advertises, in order of preference. *)
Definition alpn_protocols (tls : PublicTls) : list (list byte) :=
  [ALPN_H2; ALPN_H1] ++ (if acme_active tls then [ACME_TLS_ALPN_NAME] else []).

(** What becomes of the handshake of a terminated connection. *)
Inductive handshake :=
| AcceptFailed
| AcceptTimeout
| HandshakeFailed
| Established (alpn : option (list byte)) (client_has_cert : bool).

(** rustls negotiates an advertised protocol or none. *)
Definition handshake_ok (tls : PublicTls) (h : handshake) : Prop :=
  match h with
  | Established (Some p) _ => p ∈ alpn_protocols tls
  | _ => True
  end.

(** ** The decision *)

(** The tables seen by [is_terminated], [is_offload], [routes_to_upstream] and
    [lookup]. *)
Record tables := {
  at_terminated : RoutingTable;
  at_offload : RoutingTable;
  at_upstream : RoutingTable;
  at_lookup : RoutingTable
}.

(** What is done with the connection; [plain] tells whether the bytes piped are
    the decrypted ones. *)
Inductive action :=
| HelloError
| Drop
| AcmeChallenge
| ServeHttp2 (client : Client)
| ServeHttp1 (client : Client)
| Pipe (plain : bool) (route : Route)
| Page502.

Definition h1_client (tls : PublicTls) : Client :=
  if needs_client_cert tls then Proxy else Direct.

(** The end of [handle_public] for a terminated connection. *)
Definition terminated_fallback (closed : Connection → bool) (sni : string) (offload : bool)
    (t : RoutingTable) : partial action :=
  match (lookup closed sni t).1 with
  | PSome route => PSome (Pipe true route)
  | PNone => PSome (if offload then Drop else Page502)
  | PPanic => PPanic
  | PFuel => PFuel
  end.

(** [handle_public] once the ClientHello is read. *)
Definition handle_hello (closed : Connection → bool) (tls : PublicTls) (ts : tables)
    (hs : handshake) (client_hello : list byte) : partial action :=
  match parse_sni client_hello with
  | PPanic => PPanic
  | PFuel => PFuel
  | PNone => PSome Drop
  | PSome sni =>
      if is_terminated (at_terminated ts) sni then
        match hs with
        | AcceptFailed | AcceptTimeout | HandshakeFailed => PSome Drop
        | Established alpn client_has_cert =>
            if bool_decide (alpn = Some ACME_TLS_ALPN_NAME) then PSome AcmeChallenge
            else if needs_client_cert tls && negb client_has_cert then PSome Drop
            else
              let offload := is_offload (at_offload ts) sni in
              let client := h1_client tls in
              if negb offload && bool_decide (alpn = Some ALPN_H2) then PSome (ServeHttp2 client)
              else
                let h1 := bool_decide (alpn = Some ALPN_H1) ||
                  (negb (is_some alpn) && routes_to_upstream (at_upstream ts) sni) in
                if negb offload && h1 then PSome (ServeHttp1 client)
                else terminated_fallback closed sni offload (at_lookup ts)
        end
      else
        match (lookup closed sni (at_lookup ts)).1 with
        | PSome route => PSome (Pipe false route)
        | PNone => PSome Drop
        | PPanic => PPanic
        | PFuel => PFuel
        end
  end.

(** [handle_public]: the timeout of the first read is an outcome of it. *)
Definition handle_public {S : Type} `{ReadExact S} (closed : Connection → bool) (tls : PublicTls)
    (ts : tables) (hs : handshake) (timed_out : bool) (stream : S) :
    partial (action * PrefixedStream S) :=
  match read_client_hello stream with
  | (stream, Err _) => PSome (HelloError, PrefixedStream_new [] stream)
  | (stream, Ok client_hello) =>
      if timed_out then PSome (HelloError, PrefixedStream_new [] stream)
      else
        a ← handle_hello closed tls ts hs client_hello;
        PSome (a, PrefixedStream_new client_hello stream)
  end.

(** [open_tunnel_stream(route, sni, peer)]: the header of the stream. *)
Definition tunnel_header (route : RouteEntry) (sni peer : string) : DataStreamHeader :=
  {| hostname := sni; peer_addr := peer; mode := re_tls_mode route |}.

(** [write_502(stream, body)]: the bytes written before the shutdown. *)
Definition crlf : string := String.String "013" (String.String "010" "").
Definition write_502 (body : string) : string :=
  "HTTP/1.1 502 Bad Gateway" +:+ crlf +:+
  "content-type: text/html; charset=utf-8" +:+ crlf +:+
  "content-length: " +:+ pretty (Z.to_N (blen (as_bytes body))) +:+ crlf +:+
  "connection: close" +:+ crlf +:+ crlf +:+ body.

(** ** Lemmas *)

Section hello.
Context {S : Type} `{ReadExactLaws S}.

(** A record of type handshake and of an allowed length. *)
Definition is_record (hdr body : list byte) : Prop :=
  ∃ v1 v2 b3 b4, hdr = [x16; v1; v2; b3; b4] ∧
    blen body = u16_from_be_bytes b3 b4 ∧ u16_from_be_bytes b3 b4 <= MAX_RECORD_SIZE.

Lemma read_client_hello_Ok (s s' : S) hello :
  read_client_hello s = (s', Ok hello) →
  incoming s = hello ++ incoming s' ∧ ∃ hdr body, hello = hdr ++ body ∧ is_record hdr body.
Proof.
  unfold read_client_hello.
  destruct (decide (length (incoming s) < 5)%nat) as [Hs|Hs].
  { destruct (read_exact_short s 5 Hs) as (s1 & e & ->). done. }
  destruct (read_exact_enough s 5) as (s1 & -> & Hs1); [lia|].
  destruct (take 5 (incoming s)) as [|b0 [|b1 [|b2 [|b3 [|b4 [|]]]]]] eqn:Et; try done.
  destruct (u8 b0 =? 0x16) eqn:Hb0; simpl; [|done]. apply Z.eqb_eq in Hb0.
  destruct (u16_from_be_bytes b3 b4 >? MAX_RECORD_SIZE) eqn:Hmax; [done|].
  rewrite Z.gtb_ltb in Hmax. apply Z.ltb_ge in Hmax.
  set (n := Z.to_nat (u16_from_be_bytes b3 b4)).
  destruct (decide (length (incoming s1) < n)%nat) as [Hs2|Hs2].
  { destruct (read_exact_short s1 n Hs2) as (s2 & e & ->). done. }
  destruct (read_exact_enough s1 n) as (s2 & -> & Hs2'); [lia|].
  intros [= <- <-]. split.
  - rewrite Hs2', Hs1. change (b0 :: b1 :: b2 :: b3 :: b4 :: take n (drop 5 (incoming s)))
      with ([b0; b1; b2; b3; b4] ++ take n (drop 5 (incoming s))).
    by rewrite <- Et, <- app_assoc, take_drop, take_drop.
  - exists [b0; b1; b2; b3; b4], (take n (incoming s1)). split; [done|].
    exists b1, b2, b3, b4. split_and!; [|unfold blen|done].
    + f_equal. apply u8_inj. by rewrite Hb0.
    + rewrite length_take. pose proof (u16_range b3 b4). lia.
Qed.

Lemma read_client_hello_complete (s : S) hdr body rest :
  is_record hdr body → incoming s = hdr ++ body ++ rest →
  ∃ s', read_client_hello s = (s', Ok (hdr ++ body)) ∧ incoming s' = rest.
Proof.
  intros (v1 & v2 & b3 & b4 & -> & Hlen & Hmax) Hin. unfold read_client_hello.
  destruct (read_exact_enough s 5) as (s1 & -> & Hs1); [rewrite Hin; simpl; lia|].
  rewrite Hin. cbn [app take].
  change (u8 x16 =? 0x16) with true. cbn [negb].
  rewrite Z.gtb_ltb, (proj2 (Z.ltb_ge _ _)) by done.
  assert (Z.to_nat (u16_from_be_bytes b3 b4) = length body) as Hn by (unfold blen in Hlen; lia).
  assert (incoming s1 = body ++ rest) as Hs1' by (by rewrite Hs1, Hin). clear Hs1.
  destruct (read_exact_enough s1 (Z.to_nat (u16_from_be_bytes b3 b4))) as (s2 & -> & Hs2).
  { rewrite Hn, Hs1', length_app. lia. }
  exists s2. rewrite Hs2, Hs1', Hn, take_app_length, drop_app_length. done.
Qed.
End hello.

Lemma lookup_local_upstream closed sni t target :
  (lookup closed sni t).1 = PSome (Local_ target) → routes_to_upstream t sni = true.
Proof.
  rewrite lookup_unfold, routes_to_upstream_spec. destruct (find_upstream _ _); [done|].
  destruct (inner t !! sni) as [e|]; [|done]. case_decide; [done|].
  by destruct (next_live _ _ _ _) as [[] ?].
Qed.

Lemma handle_hello_returns owner closed tls ts hs client_hello :
  blen client_hello <= isize_max → table_wf owner (at_lookup ts) →
  ∃ a, handle_hello closed tls ts hs client_hello = PSome a.
Proof.
  intros Hlen Hwf. unfold handle_hello, terminated_fallback.
  pose proof (ensures_returns _ _ (parse_sni_ensures client_hello Hlen)) as Hsni.
  destruct (parse_sni client_hello) as [sni| | |]; try done; [|by eauto].
  pose proof (lookup_returns owner closed sni (at_lookup ts) Hwf) as Hl.
  destruct (lookup closed sni (at_lookup ts)) as [[route| | |] t']; simpl in Hl; try done; simpl;
    repeat case_match; eauto.
Qed.

(** The actions that hand the plaintext of the connection to somebody. *)
Definition uses_plaintext (a : action) : bool :=
  match a with
  | ServeHttp2 _ | ServeHttp1 _ | Pipe true _ | Page502 => true
  | _ => false
  end.

Definition is_http (a : action) : bool :=
  match a with ServeHttp2 _ | ServeHttp1 _ | Page502 => true | _ => false end.

(** ** Theorems *)

(** Every public connection is decided, on its own bytes.  On any stream
    that keeps its contract, [handle_public] returns an action without panicking;
    reading the ClientHello takes one record of at most 16 KiB, and the stream
    passed on to the handshake or the pipe then delivers exactly what the client
    sent from its first byte on. *)
Theorem public_connection_decided {S : Type} `{ReadExactLaws S} owner closed tls ts hs timed_out (s : S) :
  table_wf owner (at_lookup ts) →
  ∃ a ps, handle_public closed tls ts hs timed_out s = PSome (a, ps) ∧
    (a ≠ HelloError → incoming ps = incoming s ∧ blen (prefix ps) <= 5 + MAX_RECORD_SIZE).
Proof.
  intros Hwf. unfold handle_public.
  destruct (read_client_hello s) as [s' [hello|e]] eqn:Er; [|by eexists _, _].
  destruct timed_out; [by eexists _, _|].
  apply read_client_hello_Ok in Er as (Hin & hdr & body & -> & v1 & v2 & b3 & b4 & -> & Hb & Hmax).
  assert (blen ([x16; v1; v2; b3; b4] ++ body) <= 5 + MAX_RECORD_SIZE) as Hlen
    by (rewrite blen_app; unfold blen at 1; simpl; lia).
  destruct (handle_hello_returns owner closed tls ts hs ([x16; v1; v2; b3; b4] ++ body)) as [a Ha];
    [unfold MAX_RECORD_SIZE, isize_max in *; lia|done|].
  rewrite Ha. eexists _, _. split; [done|]. intros _. split; [|done]. simpl. by rewrite Hin.
Qed.

(** The ClientHello is found whenever it is there: a stream that starts with
    one handshake record of an allowed size, delivered in whatever pieces, is
    read exactly to the end of that record, and no error is reported. *)
Theorem client_hello_read {S : Type} `{ReadExactLaws S} (s : S) hdr body rest :
  is_record hdr body → incoming s = hdr ++ body ++ rest →
  ∃ s', read_client_hello s = (s', Ok (hdr ++ body)) ∧ incoming s' = rest.
Proof. apply read_client_hello_complete. Qed.

(** C11: the server decrypts exactly the hosts it terminates, and only for
    clients it accepts.  Whatever the tables do during the decision: the
    plaintext of a connection is used only for a host in the terminated set and,
    when a client CA is configured, only if the client showed a certificate; a
    host outside the set is piped as it arrived or dropped; and an ACME
    challenge reaches no backend. *)
Theorem plaintext_only_when_terminated closed tls ts hs hello sni a :
  parse_sni hello = PSome sni →
  handle_hello closed tls ts hs hello = PSome a →
  (uses_plaintext a = true →
     is_terminated (at_terminated ts) sni = true ∧
     ∃ alpn has_cert, hs = Established alpn has_cert ∧ alpn ≠ Some ACME_TLS_ALPN_NAME ∧
       (needs_client_cert tls = true → has_cert = true)) ∧
  (is_terminated (at_terminated ts) sni = false →
     a = Drop ∨ ∃ route, a = Pipe false route ∧ (lookup closed sni (at_lookup ts)).1 = PSome route).
Proof.
  intros Hsni. unfold handle_hello, terminated_fallback. rewrite Hsni.
  destruct (is_terminated (at_terminated ts) sni).
  - intros Ha. split; [|done]. intros Hu. split; [done|].
    destruct hs as [| | |alpn has_cert]; simplify_eq/=; try done.
    case_bool_decide as Hacme; [by simplify_eq/=|].
    destruct (needs_client_cert tls && negb has_cert) eqn:Hcert; [by simplify_eq/=|].
    exists alpn, has_cert. split_and!; try done. intros Hn. rewrite Hn in Hcert.
    by destruct has_cert.
  - destruct (lookup _ _ _) as [[route| | |] t']; simpl; try done; intros [= <-]; split; try done; eauto.
Qed.

(** The protocol of a host is respected.  A host in offload mode is never
    handled as HTTP, whatever was negotiated, not even with a 502 page.  A
    terminated host that is not, and that a local upstream serves, is never
    byte-piped to it (so its clients cannot forge the address headers): it is
    reverse-proxied, provided the tables agree on the upstream. *)
Theorem protocol_respected closed tls ts hs hello sni a :
  parse_sni hello = PSome sni → handshake_ok tls hs →
  handle_hello closed tls ts hs hello = PSome a →
  (is_offload (at_offload ts) sni = true → is_http a = false) ∧
  (is_offload (at_offload ts) sni = false → at_upstream ts = at_lookup ts →
     ∀ target, a ≠ Pipe true (Local_ target)).
Proof.
  intros Hsni Hok. unfold handle_hello, terminated_fallback. rewrite Hsni.
  destruct (is_terminated (at_terminated ts) sni).
  2:{ destruct (lookup _ _ _) as [[route| | |] t']; simpl; try done; by intros [= <-]. }
  destruct hs as [| | |alpn has_cert]; [by intros [= <-]..|].
  case_bool_decide as Hacme; [by intros [= <-]|].
  destruct (needs_client_cert tls && negb has_cert); [by intros [= <-]|].
  destruct (is_offload (at_offload ts) sni); simpl.
  - destruct (lookup _ _ _) as [[route| | |] t']; simpl; try done; by intros [= <-].
  - case_bool_decide as Hh2; [by intros [= <-]|].
    case_bool_decide as Hh1; simpl; [by intros [= <-]|].
    destruct alpn as [p|]; simpl.
    + exfalso. simpl in Hok. unfold alpn_protocols in Hok.
      destruct (acme_active tls); simpl in Hok; rewrite ?elem_of_cons, ?elem_of_nil in Hok;
        naive_solver congruence.
    + destruct (routes_to_upstream (at_upstream ts) sni) eqn:Hup; [by intros [= <-]|].
      intros Ha. split; [done|]. intros _ Heq target ->. rewrite Heq in Hup.
      destruct (lookup closed sni (at_lookup ts)) as [route t'] eqn:El.
      destruct route; simplify_eq/=.
      assert (routes_to_upstream (at_lookup ts) sni = true); [|congruence].
      apply (lookup_local_upstream closed sni _ target). by rewrite El.
Qed.

(** ** Witnesses *)

Local Open Scope string_scope.

Definition demo_tables (t : RoutingTable) : tables :=
  {| at_terminated := t; at_offload := t; at_upstream := t; at_lookup := t |}.

Definition demo_hello (host : string) : list byte := craft_client_hello_with_sni host.

(** The ClientHello arrives in two pieces, with application bytes behind it. *)
Definition demo_public (host : string) : Wire :=
  {| wire_in := [Chunk (take 3 (demo_hello host)); Wait;
                 Chunk (drop 3 (demo_hello host)%list ++ [x17; x03; x03])%list];
     wire_out := []; wire_mtu := 1 |}.

Definition demo_tls : PublicTls := PublicTls_new false (SignedBy "ca.pem").

Lemma public_connection_decided_witness :
  ∃ a ps, handle_public demo_open demo_tls (demo_tables demo_table) (Established (Some ALPN_H1) true)
      false (demo_public "a.example.com") = PSome (a, ps) ∧
    (a ≠ HelloError → incoming ps = incoming (demo_public "a.example.com") ∧
       blen (prefix ps) <= 5 + MAX_RECORD_SIZE).
Proof.
  exact (public_connection_decided demo_owner demo_open demo_tls (demo_tables demo_table)
    (Established (Some ALPN_H1) true) false (demo_public "a.example.com") demo_wf).
Defined.

Lemma client_hello_read_witness :
  ∃ s', read_client_hello (demo_public "a.example.com") = (s', Ok (demo_hello "a.example.com")) ∧
    incoming s' = [x17; x03; x03].
Proof.
  apply (client_hello_read (demo_public "a.example.com") (take 5 (demo_hello "a.example.com"))
    (drop 5 (demo_hello "a.example.com"))).
  - exists x03, x01, x00, x45. split_and!; vm_compute; congruence.
  - vm_compute. reflexivity.
Defined.

Lemma plaintext_only_when_terminated_witness :
  is_terminated demo_table "a.example.com" = true.
Proof.
  apply (proj1 (proj1 (plaintext_only_when_terminated demo_open demo_tls (demo_tables demo_table)
    (Established (Some ALPN_H1) true) (demo_hello "a.example.com") "a.example.com" (ServeHttp1 Proxy)
    ltac:(vm_compute; reflexivity) ltac:(vm_compute; reflexivity)) eq_refl)).
Defined.

Lemma protocol_respected_witness : is_http (Pipe true (Local_ (Tcp "127.0.0.1:5432"))) = false.
Proof.
  apply (proj1 (protocol_respected demo_open (PublicTls_new false Any)
    (demo_tables (from_config [] [demo_offload])) (Established None false) (demo_hello "db.example.com")
    "db.example.com" (Pipe true (Local_ (Tcp "127.0.0.1:5432"))) ltac:(vm_compute; reflexivity) I
    ltac:(vm_compute; reflexivity))).
  vm_compute. reflexivity.
Defined.

(** ** What the claims above leave out *)

(** The tables of [routes_to_upstream] and [lookup] may differ: when the last
    tunnel of a host goes away between the two, a connection without ALPN is
    byte-piped to the wildcard upstream that then serves the host, and its client
    can send its own [X-Real-IP]. *)
Example upstream_piped_on_race :
  let t := set_terminated ["new.example.com"] demo_table0 in
  let ts := {| at_terminated := t; at_offload := t; at_upstream := t; at_lookup := demo_table0 |} in
  handle_hello demo_open (PublicTls_new false Any) ts (Established None false)
    (demo_hello "new.example.com") = PSome (Pipe true (Local_ (Tcp "127.0.0.1:8443"))).
Proof. vm_compute. reflexivity. Qed.
