(* ===== verification/Pipe.v ===== *)
(** * Pipes

    The byte plumbing of a routed connection: [pipe_bytes] and [splice_local] of
    [crates/tuyau-server/src/public.rs], the two copy tasks at the end of
    [forward_stream] of [crates/tuyau-client/src/client.rs].  A visitor's bytes go
    through the server's pipe, a QUIC stream and the client's pipe; the answer
    takes the same way back.

    A [chan] is one direction of a byte stream (a socket, a QUIC stream), as its
    writer and its reader see it.  A [pump] is one of the async blocks
    [{ let res = copy(&mut r, &mut w).await; let _ = w.finish(); res }]: a state
    machine whose actions are what the documentation of [tokio::io::copy] lets it
    do (read what is there, write what it holds, return at the end of its source or
    on an error of either side), then the [finish] or [shutdown].  A [chain] is
    pumps in a row.  The scheduler, the network and the two ends are events, in any
    order. *)

From S2P Require Import Prelude Bytes Stream.

Local Open Scope nat_scope.

(** ** Channels *)

(** How the writing end was left: still open, finished, or lost. *)
Inductive stream_end :=
| Live
| Eof
| Failed (e : io_error).

(** The bytes written so far, how many of them were read, how the writer left it,
    and whether the reader went away ([STOP_SENDING], a reset). *)
Record chan := {
  ch_sent : list byte;
  ch_read : nat;
  ch_end : stream_end;
  ch_stopped : option io_error
}.

Definition pending (c : chan) : list byte := drop (ch_read c) (ch_sent c).

Definition push (bs : list byte) (c : chan) : chan :=
  {| ch_sent := ch_sent c ++ bs; ch_read := ch_read c; ch_end := ch_end c; ch_stopped := ch_stopped c |}.

Definition consume (n : nat) (c : chan) : chan :=
  {| ch_sent := ch_sent c; ch_read := ch_read c + n; ch_end := ch_end c; ch_stopped := ch_stopped c |}.

(** [send.finish()], [shutdown()], or the loss of the writer; nothing on a channel
    that has ended. *)
Definition end_with (e : stream_end) (c : chan) : chan :=
  match ch_end c with
  | Live => {| ch_sent := ch_sent c; ch_read := ch_read c; ch_end := e; ch_stopped := ch_stopped c |}
  | _ => c
  end.

Definition stop (e : io_error) (c : chan) : chan :=
  {| ch_sent := ch_sent c; ch_read := ch_read c; ch_end := ch_end c;
     ch_stopped := Some (default e (ch_stopped c)) |}.

Definition writable (c : chan) : bool :=
  match ch_end c, ch_stopped c with Live, None => true | _, _ => false end.

(** The error a reader, or a writer, of the channel meets. *)
Definition read_error (c : chan) : option io_error :=
  match ch_end c with Failed e => Some e | _ => None end.

Definition write_error (c : chan) : option io_error :=
  match ch_stopped c with Some e => Some e | None => read_error c end.

(** ** One pump *)

Inductive pump_phase :=
| Copying
| Finishing (res : result io_error ())
| PumpDone (res : result io_error ()).

(** The bytes read and not yet written, and where the block stands. *)
Record pump := {
  p_held : list byte;
  p_phase : pump_phase
}.

Inductive pump_act :=
| ReadSome (n : nat)
| WriteSome (n : nat)
| SeeEof
| SeeReadError
| SeeWriteError
| FinishDst.

(** One action of the block that copies [src] to [dst]; [None] when it is not
    enabled. *)
Definition pump_step (src : chan) (p : pump) (dst : chan) (a : pump_act) :
    option (chan * pump * chan) :=
  match p_phase p, a with
  | Copying, ReadSome n =>
      if decide (0 < n ≤ length (pending src)) then
        Some (consume n src, {| p_held := p_held p ++ take n (pending src); p_phase := Copying |}, dst)
      else None
  | Copying, WriteSome n =>
      if decide (0 < n ≤ length (p_held p)) then
        if writable dst then
          Some (src, {| p_held := drop n (p_held p); p_phase := Copying |}, push (take n (p_held p)) dst)
        else None
      else None
  | Copying, SeeEof =>
      match ch_end src, pending src, p_held p with
      | Eof, [], [] => Some (src, {| p_held := []; p_phase := Finishing (Ok ()) |}, dst)
      | _, _, _ => None
      end
  | Copying, SeeReadError =>
      e ← read_error src;
      Some (src, {| p_held := []; p_phase := Finishing (Err e) |}, dst)
  | Copying, SeeWriteError =>
      e ← write_error dst;
      Some (src, {| p_held := []; p_phase := Finishing (Err e) |}, dst)
  | Finishing res, FinishDst => Some (src, {| p_held := p_held p; p_phase := PumpDone res |}, end_with Eof dst)
  | _, _ => None
  end.

(** ** Pumps in a row *)

(** A pump and the channel it writes.  [h_skip] bytes of its source were read
    before it started (the frame of the [DataStreamHeader], read by the client),
    [h_before] were written to its destination (the same frame, sent by the
    server). *)
Record hop := {
  h_skip : nat;
  h_before : list byte;
  h_pump : pump;
  h_out : chan
}.

Definition new_chan (bs : list byte) (skip : nat) : chan :=
  {| ch_sent := bs; ch_read := skip; ch_end := Live; ch_stopped := None |}.

Definition new_pump : pump := {| p_held := []; p_phase := Copying |}.

(** A channel of the path, from the source: event [Source] is the writer of the
    first one, [Sink] the reader of the last, [At i] the pump [i] or what happens to
    channel [i]. *)
Inductive chan_ev :=
| Writes (bs : list byte)
| Ends
| Loses (e : io_error)
| Stops (e : io_error).

Inductive pipe_event :=
| Source (ev : chan_ev)
| Sink (n : nat)
| Pump (i : nat) (a : pump_act)
| Break (i : nat) (e : io_error)
| StopAt (i : nat) (e : io_error).

(** The reader of the last channel takes [n] bytes. *)
Definition take_some (n : nat) (c : chan) : option chan :=
  if decide (0 < n ≤ length (pending c)) then Some (consume n c) else None.

Definition source_ev (ev : chan_ev) (c : chan) : option chan :=
  match ev with
  | Writes bs => if writable c then Some (push bs c) else None
  | Ends => Some (end_with Eof c)
  | Loses e => Some (end_with (Failed e) c)
  | Stops e => Some (stop e c)
  end.

Definition set_out (h : hop) (c : chan) : hop :=
  {| h_skip := h_skip h; h_before := h_before h; h_pump := h_pump h; h_out := c |}.

Definition chain : Type := chan * list hop.

Fixpoint chain_pump (c : chan) (hs : list hop) (i : nat) (a : pump_act) : option chain :=
  match hs, i with
  | [], _ => None
  | h :: hs, O =>
      '(c, p, out) ← pump_step c (h_pump h) (h_out h) a;
      Some (c, {| h_skip := h_skip h; h_before := h_before h; h_pump := p; h_out := out |} :: hs)
  | h :: hs, S i =>
      '(out, hs) ← chain_pump (h_out h) hs i a;
      Some (c, set_out h out :: hs)
  end.

(** Something else happens to the channel pump [i] writes. *)
Fixpoint chain_chan (f : chan → chan) (hs : list hop) (i : nat) : list hop :=
  match hs, i with
  | [], _ => []
  | h :: hs, O => set_out h (f (h_out h)) :: hs
  | h :: hs, S i => h :: chain_chan f hs i
  end.

Fixpoint chain_sink (n : nat) (c : chan) (hs : list hop) : option chain :=
  match hs with
  | [] => c ← take_some n c; Some (c, [])
  | h :: hs => '(out, hs) ← chain_sink n (h_out h) hs; Some (c, set_out h out :: hs)
  end.

Definition chain_step (st : chain) (ev : pipe_event) : option chain :=
  let '(c, hs) := st in
  match ev with
  | Source ev => c ← source_ev ev c; Some (c, hs)
  | Sink n => chain_sink n c hs
  | Pump i a => chain_pump c hs i a
  | Break i e => Some (c, chain_chan (end_with (Failed e)) hs i)
  | StopAt i e => Some (c, chain_chan (stop e) hs i)
  end.

Definition chain_run (evs : list pipe_event) (st : chain) : option chain :=
  foldl (λ st ev, st ← st; chain_step st ev) (Some st) evs.

(** ** The paths of the program *)

(** [pipe_bytes(public_stream, send, recv)] to the tunnel, then the copy of
    [forward_stream]: the server has sent [frame], the client has read it. *)
Definition tunnel_up (frame : list byte) : chain :=
  (new_chan [] 0,
   [{| h_skip := 0; h_before := frame; h_pump := new_pump; h_out := new_chan frame (length frame) |};
    {| h_skip := length frame; h_before := []; h_pump := new_pump; h_out := new_chan [] 0 |}]).

(** The way back: no frame. *)
Definition tunnel_down : chain :=
  (new_chan [] 0,
   [{| h_skip := 0; h_before := []; h_pump := new_pump; h_out := new_chan [] 0 |};
    {| h_skip := 0; h_before := []; h_pump := new_pump; h_out := new_chan [] 0 |}]).

(** ** The invariant of a path *)

Definition phase_failed (ph : pump_phase) : bool :=
  match ph with Finishing (Err _) | PumpDone (Err _) => true | _ => false end.

Definition chan_ok (c : chan) : Prop := ch_read c ≤ length (ch_sent c).

(** What the block can say of its source and destination at each point. *)
Definition phase_ok (src : chan) (p : pump) (dst : chan) : Prop :=
  match p_phase p with
  | Copying => ch_end dst ≠ Eof
  | Finishing res => ch_end dst ≠ Eof ∧ p_held p = [] ∧
      (res = Ok () → ch_end src = Eof ∧ ch_read src = length (ch_sent src))
  | PumpDone res => ch_end dst ≠ Live ∧ p_held p = [] ∧
      (res = Ok () → ch_end src = Eof ∧ ch_read src = length (ch_sent src))
  end.

(** What the pump has read is what it has written, what it holds and, only if it
    failed, what it has dropped. *)
Definition hop_ok (src : chan) (h : hop) : Prop :=
  h_skip h ≤ ch_read src ∧ chan_ok src ∧
  (∃ written dropped,
     ch_sent (h_out h) = h_before h ++ written ∧
     take (ch_read src - h_skip h) (drop (h_skip h) (ch_sent src)) = written ++ p_held (h_pump h) ++ dropped ∧
     (phase_failed (p_phase (h_pump h)) = false → dropped = [])) ∧
  phase_ok src (h_pump h) (h_out h).

Fixpoint chain_ok (src : chan) (hs : list hop) : Prop :=
  match hs with
  | [] => chan_ok src
  | h :: hs =>
      hop_ok src h ∧ match hs with h' :: _ => h_skip h' = length (h_before h) | [] => True end ∧
      chain_ok (h_out h) hs
  end.

(** What a writer, and what a reader, does to a channel. *)
Definition chan_ext (c c' : chan) : Prop :=
  ch_read c' = ch_read c ∧
  ∃ bs, ch_sent c' = ch_sent c ++ bs ∧ (ch_end c ≠ Live → bs = [] ∧ ch_end c' = ch_end c).

Definition chan_same (c c' : chan) : Prop :=
  ch_sent c' = ch_sent c ∧ (ch_end c' = ch_end c ∨ ch_end c = Live ∧ ∃ e, ch_end c' = Failed e).

Lemma chan_ext_refl c : chan_ext c c.
Proof. split; [done|]. exists []. by rewrite app_nil_r. Qed.

Lemma chan_same_refl c : chan_same c c.
Proof. split; [done|by left]. Qed.

Lemma end_with_ext e c : chan_ext c (end_with e c).
Proof.
  unfold end_with. destruct (ch_end c) eqn:E; [|apply chan_ext_refl..].
  split; [done|]. exists []. rewrite app_nil_r. split; [done|]. by rewrite E.
Qed.

Lemma end_with_same e c : chan_same c (end_with (Failed e) c).
Proof.
  unfold end_with. destruct (ch_end c) eqn:E; [|apply chan_same_refl..].
  split; [done|]. right. by eauto.
Qed.

Lemma stop_ext e c : chan_ext c (stop e c).
Proof. split; [done|]. exists []. by rewrite app_nil_r. Qed.

Lemma stop_same e c : chan_same c (stop e c).
Proof. split; [done|by left]. Qed.

Lemma push_ext bs c : writable c = true → chan_ext c (push bs c).
Proof.
  unfold writable. intros Hw. split; [done|]. exists bs. split; [done|]. by destruct (ch_end c).
Qed.

#[local] Create HintDb pipe.
#[local] Hint Resolve chan_ext_refl chan_same_refl end_with_ext end_with_same stop_ext stop_same push_ext : pipe.

Lemma hop_ok_ext c c' h : chan_ext c c' → hop_ok c h → hop_ok c' h.
Proof.
  intros (Hr & bs & Hs & Hend) (Hskip & Hok & (w & d & Hout & Hmoved & Hd) & Hph).
  unfold hop_ok, chan_ok in *. rewrite Hr, Hs, length_app. split_and!; [lia|lia| |].
  - exists w, d. split_and!; [done| |done]. rewrite drop_app_le by lia.
    rewrite take_app_le; [done|]. rewrite length_drop. lia.
  - unfold phase_ok in *. rewrite Hr, Hs, length_app.
    assert (ch_end c = Eof ∧ ch_read c = length (ch_sent c) →
            ch_end c' = Eof ∧ ch_read c = length (ch_sent c) + length bs) as Hdone.
    { intros [He Hl]. destruct Hend as [-> ->]; [by rewrite He|]. simpl. split; [done|lia]. }
    destruct (p_phase (h_pump h)); naive_solver.
Qed.

Lemma hop_ok_same c h out :
  chan_same (h_out h) out → hop_ok c h → hop_ok c (set_out h out).
Proof.
  intros (Hs & Hend) (Hskip & Hok & (w & d & Hout & Hmoved & Hd) & Hph).
  unfold hop_ok. simpl. rewrite Hs. split_and!; [done|done|by eauto|].
  unfold phase_ok in *. destruct Hend as [->|[Hl [e ->]]]; [done|].
  rewrite Hl in Hph. destruct (p_phase (h_pump h)); naive_solver.
Qed.

Lemma chain_ok_ext c c' hs : chan_ext c c' → chain_ok c hs → chain_ok c' hs.
Proof.
  destruct hs as [|h hs]; simpl.
  - intros (Hr & bs & Hs & _). unfold chan_ok. rewrite Hr, Hs, length_app. lia.
  - intros He (? & ? & ?). split; [by eapply hop_ok_ext|done].
Qed.

Lemma moved_more (l : list byte) (skip read n : nat) :
  skip ≤ read →
  take (read + n - skip) (drop skip l) = take (read - skip) (drop skip l) ++ take n (drop read l).
Proof.
  intros Hle. replace (read + n - skip) with ((read - skip) + n) by lia.
  rewrite <- take_take_drop, drop_drop. do 3 f_equal. lia.
Qed.

(** A pump moves bytes and keeps the invariant: its source is only read, its
    destination only extended. *)
Lemma pump_step_ok src h a src' p' out' :
  hop_ok src h → pump_step src (h_pump h) (h_out h) a = Some (src', p', out') →
  hop_ok src' {| h_skip := h_skip h; h_before := h_before h; h_pump := p'; h_out := out' |} ∧
  chan_same src src' ∧ chan_ext (h_out h) out'.
Proof.
  intros (Hskip & Hok & (w & d & Hout & Hmoved & Hd) & Hph) Hs.
  destruct h as [skip before [held ph] out]; simpl in *. unfold phase_ok in Hph; simpl in Hph.
  unfold hop_ok, phase_ok, chan_ok in *.
  destruct ph as [|res|res], a; cbn in Hs; try done.
  - case_decide as Hn; [|done]. injection Hs as <- <- <-. unfold pending in Hn. rewrite length_drop in Hn.
    split_and!; simpl; auto with pipe; [lia..| |by split; [done|left]].
    exists w, []. split_and!; [done| |done]. rewrite moved_more by done.
    rewrite Hmoved, Hd by done. unfold pending. by rewrite !app_nil_r, <- (assoc (++)).
  - case_decide as Hn; [|done]. destruct (writable out) eqn:Hw; [|done]. injection Hs as <- <- <-.
    split_and!; simpl; auto with pipe. exists (w ++ take n held), d. split_and!; [|..|done].
    + by rewrite Hout, (assoc (++)).
    + rewrite Hmoved, <- (assoc (++) w), (assoc (++) (take _ _)). by rewrite take_drop.
  - destruct (ch_end src) eqn:He; [done| |done]. destruct (pending src) eqn:Hp; [|done].
    destruct held; [|done]. injection Hs as <- <- <-. split_and!; simpl; auto with pipe; [by eauto|].
    split_and!; [done..|]. intros _. split; [done|]. unfold pending in Hp. apply (f_equal length) in Hp.
    rewrite length_drop in Hp. simpl in Hp. lia.
  - destruct (read_error src) as [e|]; [|done]. injection Hs as <- <- <-.
    split_and!; simpl; auto with pipe; [|done]. exists w, (held ++ d). by split_and!.
  - destruct (write_error out) as [e|]; [|done]. injection Hs as <- <- <-.
    split_and!; simpl; auto with pipe; [|done]. exists w, (held ++ d). by split_and!.
  - injection Hs as <- <- <-. destruct Hph as (Hne & -> & Hres).
    split_and!; simpl; auto with pipe.
    + exists w, d. unfold end_with. by destruct (ch_end out).
    + unfold end_with. by destruct (ch_end out) eqn:E; simpl; rewrite ?E.
Qed.

Lemma chain_pump_ok src hs i a src' hs' :
  chain_ok src hs → chain_pump src hs i a = Some (src', hs') →
  chain_ok src' hs' ∧ chan_same src src' ∧ (h_skip <$> hs') = (h_skip <$> hs) ∧ (h_before <$> hs') = (h_before <$> hs).
Proof.
  revert src i src' hs'. induction hs as [|h hs IH]; intros src i src' hs' Hok Hs; [by destruct i|].
  destruct Hok as (Hh & Hal & Hok). destruct i as [|i]; cbn [chain_pump] in Hs.
  - destruct (pump_step _ _ _ _) as [[[c p] out]|] eqn:Hp; [|done]. injection Hs as <- <-.
    destruct (pump_step_ok _ _ _ _ _ _ Hh Hp) as (? & ? & ?).
    split_and!; try done. split_and!; [done|done|]. by eapply chain_ok_ext.
  - destruct (chain_pump _ _ _ _) as [[out hs1]|] eqn:Hp; [|done]. injection Hs as <- <-.
    destruct (IH _ _ _ _ Hok Hp) as (Hok' & Hsame & Hsk & Hbf). csimpl. rewrite Hsk, Hbf.
    split; [|by auto with pipe]. split_and!; [by apply hop_ok_same| |done].
    destruct hs as [|h2 hs], hs1 as [|h3 hs1]; try done. by injection Hsk as ->.
Qed.

Lemma take_some_ok n c c' : chan_ok c → take_some n c = Some c' → chan_ok c' ∧ chan_same c c'.
Proof.
  unfold take_some, chan_ok, pending. intros Hok. case_decide as Hn; [|done]. intros [= <-].
  rewrite length_drop in Hn. simpl. split; [lia|]. split; [done|by left].
Qed.

Lemma aligned_same (h : hop) hs hs' :
  (h_skip <$> hs') = (h_skip <$> hs) →
  match hs with h' :: _ => h_skip h' = length (h_before h) | [] => True end →
  match hs' with h' :: _ => h_skip h' = length (h_before h) | [] => True end.
Proof. destruct hs as [|h2 hs], hs' as [|h3 hs']; try done. by intros [= ->]. Qed.

Lemma chain_sink_ok n src hs src' hs' :
  chain_ok src hs → chain_sink n src hs = Some (src', hs') →
  chain_ok src' hs' ∧ chan_same src src' ∧ (h_skip <$> hs') = (h_skip <$> hs) ∧ (h_before <$> hs') = (h_before <$> hs).
Proof.
  revert src src' hs'. induction hs as [|h hs IH]; intros src src' hs' Hok Hs; cbn [chain_sink] in Hs.
  - destruct (take_some n src) as [c|] eqn:Ht; [|done]. injection Hs as <- <-.
    destruct (take_some_ok _ _ _ Hok Ht). done.
  - destruct Hok as (Hh & Hal & Hok). destruct (chain_sink _ _ _) as [[out hs1]|] eqn:Hp; [|done].
    injection Hs as <- <-. destruct (IH _ _ _ Hok Hp) as (Hok' & Hsame & Hsk & Hbf). csimpl.
    rewrite Hsk, Hbf. split; [|by auto with pipe]. split_and!; [by apply hop_ok_same| |done].
    by eapply (aligned_same h).
Qed.

Lemma chain_chan_ok f src hs i :
  (∀ c, chan_ext c (f c)) → (∀ c, chan_same c (f c)) →
  chain_ok src hs →
  chain_ok src (chain_chan f hs i) ∧ (h_skip <$> chain_chan f hs i) = (h_skip <$> hs) ∧
  (h_before <$> chain_chan f hs i) = (h_before <$> hs).
Proof.
  intros Hext Hsame. revert src i. induction hs as [|h hs IH]; intros src i Hok; [by destruct i|].
  destruct Hok as (Hh & Hal & Hok). destruct i as [|i]; cbn [chain_chan]; csimpl.
  - split; [|done]. split_and!; [by apply hop_ok_same|done|]. by eapply chain_ok_ext.
  - destruct (IH (h_out h) i Hok) as (? & Hsk & Hbf). rewrite Hsk, Hbf. split; [|done].
    split_and!; [done| |done]. by eapply (aligned_same h).
Qed.

Lemma source_ev_ext ev c c' : source_ev ev c = Some c' → chan_ext c c'.
Proof.
  destruct ev; simpl; [|intros [= <-]; by auto with pipe..].
  destruct (writable c) eqn:Hw; [|done]. intros [= <-]. by auto with pipe.
Qed.

(** The shape of a path: what was skipped and sent before each pump. *)
Definition shape (hs : list hop) : list nat * list (list byte) := (h_skip <$> hs, h_before <$> hs).

Lemma chain_step_ok c hs ev c' hs' :
  chain_ok c hs → chain_step (c, hs) ev = Some (c', hs') → chain_ok c' hs' ∧ shape hs' = shape hs.
Proof.
  intros Hok Hs. unfold shape. destruct ev as [ev|n|i a|i e|i e]; cbn [chain_step] in Hs.
  - destruct (source_ev ev c) as [c1|] eqn:He; [|done]. injection Hs as <- <-.
    split; [|done]. by eapply chain_ok_ext; [eapply source_ev_ext|].
  - destruct (chain_sink_ok _ _ _ _ _ Hok Hs) as (? & _ & -> & ->). done.
  - destruct (chain_pump_ok _ _ _ _ _ _ Hok Hs) as (? & _ & -> & ->). done.
  - injection Hs as <- <-.
    destruct (chain_chan_ok (end_with (Failed e)) c hs i) as (? & -> & ->); auto with pipe.
  - injection Hs as <- <-. destruct (chain_chan_ok (stop e) c hs i) as (? & -> & ->); auto with pipe.
Qed.

Lemma chain_run_None evs : foldl (λ st ev, st ← st; chain_step st ev) None evs = None.
Proof. by induction evs. Qed.

Lemma chain_run_cons ev evs st :
  chain_run (ev :: evs) st = st ← chain_step st ev; chain_run evs st.
Proof. unfold chain_run. simpl. destruct (chain_step st ev); [done|]. apply chain_run_None. Qed.

Lemma chain_run_ok evs c hs c' hs' :
  chain_ok c hs → chain_run evs (c, hs) = Some (c', hs') → chain_ok c' hs' ∧ shape hs' = shape hs.
Proof.
  revert c hs. induction evs as [|ev evs IH]; intros c hs Hok; [by intros [= <- <-]|].
  rewrite chain_run_cons. destruct (chain_step (c, hs) ev) as [[c1 hs1]|] eqn:Hs; [|done].
  destruct (chain_step_ok _ _ _ _ _ Hok Hs) as [Hok1 Hsh]. simpl. intros Hr.
  destruct (IH _ _ Hok1 Hr) as [? Hsh']. split; [done|]. congruence.
Qed.

Lemma new_hop_ok before skip src :
  ch_read src = skip → chan_ok src →
  hop_ok src {| h_skip := skip; h_before := before; h_pump := new_pump;
                h_out := new_chan before (length before) |}.
Proof.
  intros <- Hok. unfold hop_ok, phase_ok; simpl. split_and!; [lia|done| |done].
  exists [], []. by rewrite app_nil_r, Nat.sub_diag.
Qed.

Lemma tunnel_up_ok frame : chain_ok (tunnel_up frame).1 (tunnel_up frame).2.
Proof.
  unfold tunnel_up; simpl. split; [|split; [done|split; [|split; [done|]]]];
    [apply new_hop_ok|apply (new_hop_ok [])|]; unfold chan_ok; simpl; done || lia.
Qed.

Lemma tunnel_down_ok : chain_ok tunnel_down.1 tunnel_down.2.
Proof. exact (tunnel_up_ok []). Qed.

(** ** What arrives *)

(** The last channel of a path, and what was sent on it before the payload. *)
Fixpoint last_chan (c : chan) (hs : list hop) : chan :=
  match hs with [] => c | h :: hs => last_chan (h_out h) hs end.

Definition last_before (skip : nat) (hs : list hop) : nat :=
  match last hs with Some h => length (h_before h) | None => skip end.

Definition any_failed (hs : list hop) : bool :=
  existsb (λ h, phase_failed (p_phase (h_pump h))) hs.

Lemma hop_payload src h :
  hop_ok src h → drop (length (h_before h)) (ch_sent (h_out h)) `prefix_of` drop (h_skip h) (ch_sent src).
Proof.
  intros (Hskip & Hok & (w & d & Hout & Hmoved & Hd) & Hph). rewrite Hout, drop_app_length.
  etrans; [|apply (prefix_take _ (ch_read src - h_skip h))]. rewrite Hmoved. by apply prefix_app_r.
Qed.

(** A pump that ended its destination copied everything, or failed. *)
Lemma hop_eof src h :
  hop_ok src h → ch_end (h_out h) = Eof → phase_failed (p_phase (h_pump h)) = false →
  ch_end src = Eof ∧ ch_read src = length (ch_sent src) ∧
  drop (length (h_before h)) (ch_sent (h_out h)) = drop (h_skip h) (ch_sent src).
Proof.
  intros (Hskip & Hok & (w & d & Hout & Hmoved & Hd) & Hph) Heof Hf.
  unfold phase_ok in Hph. destruct (p_phase (h_pump h)) as [|res|[[]|e]] eqn:Ep; [naive_solver..| |done].
  destruct Hph as (_ & Hheld & Hend). destruct Hend as [He Hl]; [done|]. split_and!; [done..|].
  rewrite Hout, drop_app_length. rewrite Hheld, Hd, !app_nil_r in Hmoved by done.
  rewrite <- Hmoved. apply take_ge. rewrite length_drop. lia.
Qed.

Lemma chain_payload src hs skip :
  chain_ok src hs → match hs with h :: _ => h_skip h = skip | [] => True end →
  drop (last_before skip hs) (ch_sent (last_chan src hs)) `prefix_of` drop skip (ch_sent src) ∧
  (ch_end (last_chan src hs) = Eof → any_failed hs = false →
   ch_end src = Eof ∧ drop (last_before skip hs) (ch_sent (last_chan src hs)) = drop skip (ch_sent src)).
Proof.
  revert src skip. induction hs as [|h hs IH]; intros src skip Hok Hskip; [by split|].
  destruct Hok as (Hh & Hal & Hok). destruct (IH (h_out h) (length (h_before h)) Hok) as [IH1 IH2].
  { by destruct hs. }
  assert (last_before skip (h :: hs) = last_before (length (h_before h)) hs) as ->.
  { unfold last_before. rewrite last_cons. by destruct (last hs). }
  cbn [last_chan any_failed existsb]. subst skip. split.
  - etrans; [exact IH1|by apply hop_payload].
  - intros Heof [Hf Hfs]%orb_false_iff. destruct (IH2 Heof Hfs) as [Hout ->].
    by destruct (hop_eof _ _ Hh Hout Hf) as (? & _ & ?).
Qed.

(** ** Termination and progress *)

(** The pump actions left, at most: a byte costs one to read and one to write at
    each hop ahead of it. *)
Fixpoint weight (c : chan) (hs : list hop) : nat :=
  match hs with
  | [] => 0
  | h :: hs =>
      2 * S (length hs) * length (pending c) + (2 * length hs + 1) * length (p_held (h_pump h)) +
      match p_phase (h_pump h) with Copying => 2 | Finishing _ => 1 | PumpDone _ => 0 end +
      weight (h_out h) hs
  end.

Lemma weight_pending c c' hs : length (pending c') = length (pending c) → weight c' hs = weight c hs.
Proof. destruct hs as [|h hs]; [done|]. simpl. by intros ->. Qed.

Lemma length_pending_push bs c :
  chan_ok c → length (pending (push bs c)) = length (pending c) + length bs.
Proof. unfold pending, chan_ok, push; simpl. rewrite !length_drop, length_app. lia. Qed.

Lemma weight_push bs c hs :
  chan_ok c → weight (push bs c) hs = weight c hs + 2 * length hs * length bs.
Proof.
  intros Hok. destruct hs as [|h hs]; [simpl; lia|].
  cbn [weight length]. rewrite length_pending_push by done. lia.
Qed.

Lemma chain_ok_chan c hs : chain_ok c hs → chan_ok c.
Proof. destruct hs; [done|]. by intros ((_ & ? & _) & _). Qed.

Lemma end_with_pending e c : pending (end_with e c) = pending c.
Proof. unfold end_with. by destruct (ch_end c). Qed.

Lemma pump_step_weight c h hs a c' p out :
  chain_ok (h_out h) hs →
  pump_step c (h_pump h) (h_out h) a = Some (c', p, out) →
  weight c' ({| h_skip := h_skip h; h_before := h_before h; h_pump := p; h_out := out |} :: hs) <
  weight c (h :: hs).
Proof.
  intros Hok%chain_ok_chan Hs. destruct h as [skip before [held ph] dst]. simpl in Hok, Hs.
  destruct ph as [|res|res], a; cbn in Hs; try done; cbn [weight p_held p_phase h_pump h_out].
  - case_decide as Hn; [|done]. injection Hs as <- <- <-. cbn [p_held p_phase].
    rewrite length_app, length_take, Nat.min_l by lia.
    assert (length (pending c) = length (pending (consume n c)) + n) as ->; [|lia].
    unfold pending, consume in *; simpl. rewrite !length_drop in *. lia.
  - case_decide as Hn; [|done]. destruct (writable dst) eqn:Hw; [|done]. injection Hs as <- <- <-.
    cbn [p_held p_phase]. rewrite weight_push, length_drop, length_take, Nat.min_l by done || lia.
    assert (length held = (length held - n) + n) as Hsplit by (simpl in Hn; lia).
    rewrite Hsplit at 2. lia.
  - destruct (ch_end c); try done. destruct (pending c) eqn:Hp; [|done]. destruct held; [|done].
    injection Hs as <- <- <-. rewrite Hp. cbn [p_held p_phase length]. lia.
  - destruct (read_error c) as [e|]; [|done]. injection Hs as <- <- <-. cbn [p_held p_phase length]. lia.
  - destruct (write_error dst) as [e|]; [|done]. injection Hs as <- <- <-. cbn [p_held p_phase length]. lia.
  - injection Hs as <- <- <-. cbn [p_held p_phase].
    rewrite (weight_pending dst (end_with Eof dst)) by (by rewrite end_with_pending). lia.
Qed.

Lemma chain_pump_weight c hs i a c' hs' :
  chain_ok c hs → chain_pump c hs i a = Some (c', hs') → weight c' hs' < weight c hs.
Proof.
  revert c i c' hs'. induction hs as [|h hs IH]; intros c i c' hs' Hok Hs; [by destruct i|].
  destruct Hok as (_ & _ & Hok). destruct i as [|i]; cbn [chain_pump] in Hs.
  - destruct (pump_step _ _ _ _) as [[[c1 p] out]|] eqn:Hp; [|done]. injection Hs as <- <-.
    by eapply pump_step_weight.
  - destruct (chain_pump _ _ _ _) as [[out hs1]|] eqn:Hp; [|done]. injection Hs as <- <-.
    pose proof (IH _ _ _ _ Hok Hp). apply chain_pump_ok in Hp as (_ & _ & Hlen & _); [|done].
    apply (f_equal length) in Hlen. rewrite !length_fmap in Hlen. cbn [weight set_out h_pump h_out].
    rewrite Hlen. lia.
Qed.

Definition pump_done (h : hop) : bool :=
  match p_phase (h_pump h) with PumpDone _ => true | _ => false end.

(** A pump whose source has ended is done, or can act. *)
Lemma pump_progress src h :
  hop_ok src h → ch_end src ≠ Live → (∀ a, pump_step src (h_pump h) (h_out h) a = None) →
  pump_done h = true ∧ ch_end (h_out h) ≠ Live.
Proof.
  intros (_ & _ & _ & Hph) Hend Hno. unfold pump_done, phase_ok in *.
  unfold pump_step in Hno. destruct (h_pump h) as [held ph]; simpl in *.
  destruct ph as [|res|res]; [exfalso|exfalso; by specialize (Hno FinishDst)|by split; [|apply Hph]].
  destruct held as [|b held].
  - destruct (pending src) as [|b bs] eqn:Hp.
    + destruct (ch_end src) eqn:He; [done|by specialize (Hno SeeEof)|].
      specialize (Hno SeeReadError). unfold read_error in Hno. by rewrite He in Hno.
    + specialize (Hno (ReadSome 1)). cbv beta iota in Hno. by rewrite decide_True in Hno by (simpl; lia).
  - specialize (Hno (WriteSome 1)) as Hw. cbv beta iota in Hw. rewrite decide_True in Hw by (simpl; lia).
    specialize (Hno SeeWriteError). unfold writable in Hw. unfold write_error, read_error in Hno.
    by destruct (ch_end (h_out h)), (ch_stopped (h_out h)).
Qed.

Lemma chain_progress c hs :
  chain_ok c hs → ch_end c ≠ Live → (∀ i a, chain_pump c hs i a = None) →
  Forall (λ h, pump_done h = true) hs ∧ ch_end (last_chan c hs) ≠ Live.
Proof.
  revert c. induction hs as [|h hs IH]; intros c Hok Hend Hno; [by split|].
  destruct Hok as (Hh & _ & Hok). destruct (pump_progress c h Hh Hend) as [Hdone Hout].
  { intros a. specialize (Hno 0 a). cbn [chain_pump] in Hno.
    by destruct (pump_step _ _ _ _) as [[[]]|]. }
  destruct (IH (h_out h) Hok Hout) as [? ?].
  { intros i a. specialize (Hno (S i) a). cbn [chain_pump] in Hno.
    by destruct (chain_pump _ _ _ _) as [[]|]. }
  split; [by constructor|done].
Qed.

(** ** A path on which nothing breaks *)

Definition chan_healthy (c : chan) : Prop := read_error c = None ∧ ch_stopped c = None.

Definition hop_healthy (h : hop) : Prop :=
  phase_failed (p_phase (h_pump h)) = false ∧ chan_healthy (h_out h).

Lemma pump_step_healthy src h a src' p out :
  chan_healthy src → hop_healthy h →
  pump_step src (h_pump h) (h_out h) a = Some (src', p, out) →
  chan_healthy src' ∧ phase_failed (p_phase p) = false ∧ chan_healthy out ∧ ch_end src' = ch_end src.
Proof.
  intros [Hr Hst] [Hf [Ho Hos]] Hs. destruct h as [skip before [held ph] dst]; simpl in *.
  destruct ph as [|res|res], a; cbn in Hs; try done.
  - case_decide; [|done]. by injection Hs as <- <- <-.
  - case_decide; [|done]. destruct (writable dst); [|done]. by injection Hs as <- <- <-.
  - destruct (ch_end src) eqn:E; try done. destruct (pending src); [|done]. destruct held; [|done].
    injection Hs as <- <- <-. unfold chan_healthy, read_error. by rewrite E.
  - by rewrite Hr in Hs.
  - unfold write_error in Hs. by rewrite Hos, Ho in Hs.
  - injection Hs as <- <- <-. split; [done|]. split; [done|]. split; [|done]. unfold chan_healthy, read_error, end_with in *.
    by destruct (ch_end dst) eqn:E; simpl; rewrite ?E.
Qed.

Lemma chain_pump_healthy c hs i a c' hs' :
  chan_healthy c → Forall hop_healthy hs → chain_pump c hs i a = Some (c', hs') →
  chan_healthy c' ∧ Forall hop_healthy hs' ∧ ch_end c' = ch_end c.
Proof.
  intros Hc Hhs. revert c i c' hs' Hc. induction Hhs as [|h hs Hh Hhs IH]; intros c i c' hs' Hc Hs; [by destruct i|].
  destruct i as [|i]; cbn [chain_pump] in Hs.
  - destruct (pump_step _ _ _ _) as [[[c1 p] out]|] eqn:Hp; [|done]. injection Hs as <- <-.
    destruct (pump_step_healthy _ _ _ _ _ _ Hc Hh Hp) as (? & ? & ? & ?). by split_and!; [|constructor|].
  - destruct (chain_pump _ _ _ _) as [[out hs1]|] eqn:Hp; [|done]. injection Hs as <- <-.
    destruct (IH _ _ _ _ (proj2 Hh) Hp) as (? & ? & _). split_and!; [done| |done].
    constructor; [|done]. split; [apply Hh|done].
Qed.

(** The pump actions alone: at most [weight] of them, and they leave the source's
    bytes, the shape and the health of the path. *)
Lemma pump_run acts c hs c' hs' :
  chain_ok c hs →
  chain_run ((λ ia : nat * pump_act, Pump ia.1 ia.2) <$> acts) (c, hs) = Some (c', hs') →
  length acts + weight c' hs' ≤ weight c hs ∧ chain_ok c' hs' ∧ shape hs' = shape hs ∧
  (ch_sent c' = ch_sent c ∧ (ch_end c ≠ Live → ch_end c' = ch_end c)) ∧
  (chan_healthy c → Forall hop_healthy hs → Forall hop_healthy hs').
Proof.
  revert c hs. induction acts as [|[i a] acts IH]; intros c hs Hok; [by intros [= <- <-]|].
  rewrite fmap_cons, chain_run_cons. cbn [chain_step fst snd].
  destruct (chain_pump c hs i a) as [[c1 hs1]|] eqn:Hs; [|done]. cbn [mbind option_bind]. intros Hr.
  destruct (chain_pump_ok _ _ _ _ _ _ Hok Hs) as (Hok1 & [Hsent Hend] & Hsk & Hbf).
  pose proof (chain_pump_weight _ _ _ _ _ _ Hok Hs). destruct (IH _ _ Hok1 Hr) as (? & ? & Hsh & [Hsent' Hend'] & Hh).
  split_and!; [simpl; lia|done| |congruence| |].
  - rewrite Hsh. unfold shape. by rewrite Hsk, Hbf.
  - intros HL. destruct Hend as [He|[? _]]; [|done]. rewrite Hend' by congruence. done.
  - intros Hc Hhs. destruct (chain_pump_healthy _ _ _ _ _ _ Hc Hhs Hs) as (? & ? & _). by auto.
Qed.

(** ** Theorems on a path *)

(** The bytes the reader of the last channel has, or will find. *)
Definition arrived (st : chain) : list byte :=
  drop (last_before 0 st.2) (ch_sent (last_chan st.1 st.2)).

Lemma last_before_shape skip hs hs' : shape hs' = shape hs → last_before skip hs' = last_before skip hs.
Proof.
  unfold shape, last_before. intros [= _ Hbf]. apply (f_equal last) in Hbf.
  rewrite !fmap_last in Hbf. destruct (last hs), (last hs'); naive_solver congruence.
Qed.

Lemma tunnel_run_payload frame evs st :
  chain_run evs (tunnel_up frame) = Some st →
  arrived st `prefix_of` ch_sent st.1 ∧
  (ch_end (last_chan st.1 st.2) = Eof → any_failed st.2 = false →
   ch_end st.1 = Eof ∧ arrived st = ch_sent st.1).
Proof.
  destruct st as [c hs]. intros Hr. destruct (chain_run_ok _ _ _ _ _ (tunnel_up_ok frame) Hr) as [Hok Hsh].
  apply (chain_payload c hs 0); [done|]. injection Hsh as Hsk _.
  destruct hs as [|h hs]; [done|]. by injection Hsk.
Qed.

(** C7: the tunnel is transparent.  Through the server's pipe, the tunnel's stream
    (behind its header frame) and the client's pipe, in any order of reads, writes,
    breaks and stops: what the local service receives is always a prefix of what
    the visitor sent, with nothing lost in between, reordered, repeated or made up;
    and if the service sees the end of the stream then it has received every byte
    and the visitor has finished sending, unless a copy failed on the way. *)
Theorem tunnel_transparent frame evs st :
  chain_run evs (tunnel_up frame) = Some st →
  arrived st `prefix_of` ch_sent st.1 ∧
  (ch_end (last_chan st.1 st.2) = Eof →
   (ch_end st.1 = Eof ∧ arrived st = ch_sent st.1) ∨ any_failed st.2 = true).
Proof.
  intros [Hp He]%tunnel_run_payload. split; [done|]. intros Heof.
  destruct (any_failed st.2); [by right|]. left. by apply He.
Qed.

Lemma healthy_last c hs : read_error c = None → Forall hop_healthy hs → read_error (last_chan c hs) = None.
Proof. intros Hc Hhs. revert c Hc. induction Hhs as [|h hs [_ [? _]] _ IH]; intros c Hc; simpl; auto. Qed.

Lemma healthy_not_failed hs : Forall hop_healthy hs → any_failed hs = false.
Proof. induction 1 as [|h hs [Hf _] _ IH]; [done|]. simpl. by rewrite Hf. Qed.

Lemma tunnel_run_ok frame evs c hs :
  chain_run evs (tunnel_up frame) = Some (c, hs) → chain_ok c hs ∧ shape hs = shape (tunnel_up frame).2.
Proof. intros Hr. exact (chain_run_ok _ _ _ _ _ (tunnel_up_ok frame) Hr). Qed.

(** C14: the pipes terminate and deliver.  Once the visitor has finished sending,
    from any state of the path the pumps take at most [weight] actions, whatever
    they are; when none is enabled any more, all have finished and the last channel
    has ended; and if nothing broke, the local service has every byte and a clean
    end of stream. *)
Theorem pipes_complete frame evs c hs acts c' hs' :
  chain_run evs (tunnel_up frame) = Some (c, hs) → ch_end c = Eof →
  chain_run ((λ ia : nat * pump_act, Pump ia.1 ia.2) <$> acts) (c, hs) = Some (c', hs') →
  length acts ≤ weight c hs ∧
  ((∀ i a, chain_pump c' hs' i a = None) →
   Forall (λ h, pump_done h = true) hs' ∧ ch_end (last_chan c' hs') ≠ Live ∧
   (ch_stopped c = None → Forall hop_healthy hs →
    ch_end (last_chan c' hs') = Eof ∧ arrived (c', hs') = ch_sent c)).
Proof.
  intros [Hok Hsh0]%tunnel_run_ok Hend Hr.
  destruct (pump_run _ _ _ _ _ Hok Hr) as (Hw & Hok' & Hsh & [Hsent Hend'] & Hh).
  split; [lia|]. intros Hno. rewrite Hend in Hend'. specialize (Hend' ltac:(done)).
  destruct (chain_progress c' hs' Hok') as [Hdone Hlast]; [by rewrite Hend'|done|]. split_and!; [done..|].
  intros Hst Hhs. assert (chan_healthy c) as Hc by (split; [unfold read_error; by rewrite Hend|done]).
  specialize (Hh Hc Hhs).
  assert (ch_end (last_chan c' hs') = Eof) as Heof.
  { assert (read_error (last_chan c' hs') = None) as Hre
      by (apply healthy_last; [unfold read_error; by rewrite Hend'|done]).
    unfold read_error in Hre. by destruct (ch_end (last_chan c' hs')). }
  split; [done|]. rewrite <- Hsent. rewrite Hsh0 in Hsh. injection Hsh as Hsk _.
  apply (chain_payload c' hs' 0); [done| |done|by apply healthy_not_failed].
  destruct hs' as [|h' hs']; [done|]. by injection Hsk.
Qed.

(** ** Both directions *)

(** [tokio::join!(up, down)]: two paths that share nothing. *)
Record duplex := {
  dx_up : chain;
  dx_down : chain
}.

Inductive duplex_ev :=
| Up (ev : pipe_event)
| Down (ev : pipe_event).

Definition duplex_step (d : duplex) (ev : duplex_ev) : option duplex :=
  match ev with
  | Up ev => st ← chain_step (dx_up d) ev; Some {| dx_up := st; dx_down := dx_down d |}
  | Down ev => st ← chain_step (dx_down d) ev; Some {| dx_up := dx_up d; dx_down := st |}
  end.

Fixpoint duplex_run (evs : list duplex_ev) (d : duplex) : option duplex :=
  match evs with
  | [] => Some d
  | ev :: evs => d ← duplex_step d ev; duplex_run evs d
  end.

Definition ups (evs : list duplex_ev) : list pipe_event :=
  omap (λ ev, match ev with Up ev => Some ev | Down _ => None end) evs.
Definition downs (evs : list duplex_ev) : list pipe_event :=
  omap (λ ev, match ev with Down ev => Some ev | Up _ => None end) evs.

(** [pipe_bytes] has returned: both pumps of the server's end are done. *)
Definition pipe_returned (d : duplex) : bool :=
  match head (dx_up d).2, last (dx_down d).2 with
  | Some up, Some down => pump_done up && pump_done down
  | _, _ => false
  end.

Definition pipe_bytes (frame : list byte) : duplex :=
  {| dx_up := tunnel_up frame; dx_down := tunnel_down |}.

Lemma duplex_run_split evs d :
  duplex_run evs d =
  u ← chain_run (ups evs) (dx_up d); w ← chain_run (downs evs) (dx_down d);
  Some {| dx_up := u; dx_down := w |}.
Proof.
  revert d. induction evs as [|[ev|ev] evs IH]; intros [u w]; cbn [duplex_run duplex_step dx_up dx_down].
  - done.
  - change (ups (Up ev :: evs)) with (ev :: ups evs). change (downs (Up ev :: evs)) with (downs evs).
    rewrite chain_run_cons. destruct (chain_step u ev) as [u'|]; [|done]. simpl. by rewrite IH.
  - change (downs (Down ev :: evs)) with (ev :: downs evs). change (ups (Down ev :: evs)) with (ups evs).
    rewrite chain_run_cons. destruct (chain_step w ev) as [w'|]; simpl; [by rewrite IH|].
    by destruct (chain_run (ups evs) u).
Qed.

(** The two directions are independent.  Any interleaving of events on the two
    directions of [pipe_bytes] leaves each direction as its own events alone would:
    a direction that has finished (half-close), failed or stalled never disturbs the
    other; and both are transparent, the answer as well as the request. *)
Theorem directions_independent frame evs d :
  duplex_run evs (pipe_bytes frame) = Some d →
  chain_run (ups evs) (tunnel_up frame) = Some (dx_up d) ∧
  chain_run (downs evs) tunnel_down = Some (dx_down d) ∧
  arrived (dx_up d) `prefix_of` ch_sent (dx_up d).1 ∧
  arrived (dx_down d) `prefix_of` ch_sent (dx_down d).1.
Proof.
  rewrite duplex_run_split. cbn [pipe_bytes dx_up dx_down].
  destruct (chain_run (ups evs) _) as [u|] eqn:Hu; [|done].
  destruct (chain_run (downs evs) _) as [w|] eqn:Hw; [|done]. intros [= <-]. split_and!; [done..| |].
  - by apply (tunnel_run_payload frame (ups evs)).
  - by apply (tunnel_run_payload [] (downs evs)).
Qed.

(** ** Local upstreams *)

(** [splice_local]: [copy_bidirectional] between the public stream and the
    upstream.  Its documentation: both directions are copied concurrently; at the
    end of one stream the other is shut down and the other direction goes on; it
    returns once both directions have been shut down, and at once on any error. *)
Record splice := {
  sp_up : chan * hop;
  sp_down : chan * hop;
  sp_res : option (result io_error ())
}.

Definition one_hop : chan * hop :=
  (new_chan [] 0, {| h_skip := 0; h_before := []; h_pump := new_pump; h_out := new_chan [] 0 |}).

Definition splice_local : splice := {| sp_up := one_hop; sp_down := one_hop; sp_res := None |}.

Inductive splice_ev :=
| SUp (a : pump_act)
| SDown (a : pump_act)
| SUpSource (ev : chan_ev)
| SDownSource (ev : chan_ev)
| SUpSink (ev : chan_ev)
| SDownSink (ev : chan_ev).

Definition failed_with (p : pump) : option io_error :=
  match p_phase p with Finishing (Err e) | PumpDone (Err e) => Some e | _ => None end.

(** Whether the call returns after a step. *)
Definition splice_result (up down : hop) : option (result io_error ()) :=
  match failed_with (h_pump up), failed_with (h_pump down) with
  | Some e, _ => Some (Err e)
  | None, Some e => Some (Err e)
  | None, None => if pump_done up && pump_done down then Some (Ok ()) else None
  end.

Definition hop_act (st : chan * hop) (a : pump_act) : option (chan * hop) :=
  '(c, p, out) ← pump_step st.1 (h_pump st.2) (h_out st.2) a;
  Some (c, {| h_skip := h_skip st.2; h_before := h_before st.2; h_pump := p; h_out := out |}).

(** The reader's side of a destination: it may stop, or be lost. *)
Definition hop_sink (ev : chan_ev) (st : chan * hop) : chan * hop :=
  match ev with
  | Stops e => (st.1, set_out st.2 (stop e (h_out st.2)))
  | Loses e => (st.1, set_out st.2 (end_with (Failed e) (h_out st.2)))
  | _ => st
  end.

Definition splice_step (s : splice) (ev : splice_ev) : option splice :=
  match ev with
  | SUp a =>
      match sp_res s with
      | Some _ => None
      | None =>
          st ← hop_act (sp_up s) a;
          Some {| sp_up := st; sp_down := sp_down s; sp_res := splice_result st.2 (sp_down s).2 |}
      end
  | SDown a =>
      match sp_res s with
      | Some _ => None
      | None =>
          st ← hop_act (sp_down s) a;
          Some {| sp_up := sp_up s; sp_down := st; sp_res := splice_result (sp_up s).2 st.2 |}
      end
  | SUpSource ev =>
      c ← source_ev ev (sp_up s).1;
      Some {| sp_up := (c, (sp_up s).2); sp_down := sp_down s; sp_res := sp_res s |}
  | SDownSource ev =>
      c ← source_ev ev (sp_down s).1;
      Some {| sp_up := sp_up s; sp_down := (c, (sp_down s).2); sp_res := sp_res s |}
  | SUpSink ev => Some {| sp_up := hop_sink ev (sp_up s); sp_down := sp_down s; sp_res := sp_res s |}
  | SDownSink ev => Some {| sp_up := sp_up s; sp_down := hop_sink ev (sp_down s); sp_res := sp_res s |}
  end.

Fixpoint splice_run (evs : list splice_ev) (s : splice) : option splice :=
  match evs with
  | [] => Some s
  | ev :: evs => s ← splice_step s ev; splice_run evs s
  end.

Definition hop_state_ok (st : chan * hop) : Prop :=
  hop_ok st.1 st.2 ∧ h_skip st.2 = 0 ∧ h_before st.2 = [].

Definition splice_ok (s : splice) : Prop :=
  hop_state_ok (sp_up s) ∧ hop_state_ok (sp_down s) ∧
  sp_res s = splice_result (sp_up s).2 (sp_down s).2.

Lemma hop_act_ok st a st' : hop_state_ok st → hop_act st a = Some st' → hop_state_ok st'.
Proof.
  intros (Hok & Hsk & Hbf). unfold hop_act.
  destruct (pump_step _ _ _ _) as [[[c p] out]|] eqn:Hp; [|done]. intros [= <-].
  destruct (pump_step_ok _ _ _ _ _ _ Hok Hp) as [? _]. by split_and!.
Qed.

Lemma hop_source_ok st ev c : hop_state_ok st → source_ev ev st.1 = Some c → hop_state_ok (c, st.2).
Proof. intros (Hok & ? & ?) He%source_ev_ext. split; [|done]. by eapply hop_ok_ext. Qed.

Lemma hop_sink_ok st ev : hop_state_ok st → hop_state_ok (hop_sink ev st) ∧ h_pump (hop_sink ev st).2 = h_pump st.2.
Proof.
  intros (Hok & ? & ?). destruct ev; simpl; [done..| |].
  - split; [|done]. split; [|done]. by apply hop_ok_same; [auto with pipe|].
  - split; [|done]. split; [|done]. by apply hop_ok_same; [auto with pipe|].
Qed.

Lemma splice_result_pumps up down up' down' :
  h_pump up' = h_pump up → h_pump down' = h_pump down → splice_result up' down' = splice_result up down.
Proof. unfold splice_result, pump_done. by intros -> ->. Qed.

Lemma splice_step_ok s ev s' : splice_ok s → splice_step s ev = Some s' → splice_ok s'.
Proof.
  intros (Hu & Hd & Hres). destruct ev; cbn [splice_step].
  - destruct (sp_res s); [done|]. destruct (hop_act _ _) as [st|] eqn:Ha; [|done]. intros [= <-].
    split; [exact (hop_act_ok _ _ _ Hu Ha)|done].
  - destruct (sp_res s); [done|]. destruct (hop_act _ _) as [st|] eqn:Ha; [|done]. intros [= <-].
    split; [done|split; [exact (hop_act_ok _ _ _ Hd Ha)|done]].
  - destruct (source_ev _ _) as [c|] eqn:He; [|done]. intros [= <-].
    split; [exact (hop_source_ok _ _ _ Hu He)|done].
  - destruct (source_ev _ _) as [c|] eqn:He; [|done]. intros [= <-].
    split; [done|split; [exact (hop_source_ok _ _ _ Hd He)|done]].
  - intros [= <-]. destruct (hop_sink_ok _ ev Hu) as [? Hp]. split; [done|split; [done|]]. simpl.
    rewrite Hres. by apply splice_result_pumps.
  - intros [= <-]. destruct (hop_sink_ok _ ev Hd) as [? Hp]. split; [done|split; [done|]]. simpl.
    rewrite Hres. by apply splice_result_pumps.
Qed.

Lemma splice_run_ok evs s s' : splice_ok s → splice_run evs s = Some s' → splice_ok s'.
Proof.
  revert s. induction evs as [|ev evs IH]; intros s Hok; simpl; [by intros [= <-]|].
  destruct (splice_step s ev) as [s1|] eqn:Hs; [|done]. simpl. apply IH. by eapply splice_step_ok.
Qed.

Lemma splice_local_ok : splice_ok splice_local.
Proof.
  assert (hop_state_ok one_hop) as Hok; [|by split_and!].
  split; [|done]. apply (new_hop_ok [] 0); [done|]. unfold chan_ok; simpl; lia.
Qed.

(** What one direction of a splice has done when its pump is done without error. *)
Lemma hop_done st :
  hop_state_ok st → pump_done st.2 = true → failed_with (h_pump st.2) = None →
  ch_end st.1 = Eof ∧ ch_end (h_out st.2) ≠ Live ∧ ch_sent (h_out st.2) = ch_sent st.1.
Proof.
  intros ((Hskip & Hok & (w & d & Hout & Hmoved & Hd) & Hph) & Hsk & Hbf).
  unfold pump_done, failed_with, phase_ok in *.
  destruct (p_phase (h_pump st.2)) as [| |[[]|e]]; try done. intros _ _.
  destruct Hph as (Hne & Hheld & Hend). destruct Hend as [He Hl]; [done|]. split_and!; [done..|].
  rewrite Hheld, Hd, !app_nil_r in Hmoved by done. rewrite Hsk, Nat.sub_0_r, drop_0 in Hmoved.
  rewrite Hout, Hbf, <- Hmoved. simpl. apply take_ge. lia.
Qed.

(** A local upstream is spliced faithfully.  Through [splice_local], in any
    order of events: in both directions what was written is a prefix of what was
    sent; the call returns [Ok] only when both ends have finished sending and both
    have been passed every byte of the other; and it returns an error only if a
    read or a write of that direction failed. *)
Theorem splice_faithful evs s :
  splice_run evs splice_local = Some s →
  ch_sent (h_out (sp_up s).2) `prefix_of` ch_sent (sp_up s).1 ∧
  ch_sent (h_out (sp_down s).2) `prefix_of` ch_sent (sp_down s).1 ∧
  (sp_res s = Some (Ok ()) →
     ch_end (sp_up s).1 = Eof ∧ ch_sent (h_out (sp_up s).2) = ch_sent (sp_up s).1 ∧
     ch_end (sp_down s).1 = Eof ∧ ch_sent (h_out (sp_down s).2) = ch_sent (sp_down s).1) ∧
  (∀ e, sp_res s = Some (Err e) →
     failed_with (h_pump (sp_up s).2) = Some e ∨ failed_with (h_pump (sp_down s).2) = Some e).
Proof.
  intros (Hu & Hd & Hres)%(splice_run_ok _ _ _ splice_local_ok).
  pose proof (hop_payload _ _ (proj1 Hu)) as Pu. pose proof (hop_payload _ _ (proj1 Hd)) as Pd.
  rewrite (proj1 (proj2 Hu)), (proj2 (proj2 Hu)) in Pu.
  rewrite (proj1 (proj2 Hd)), (proj2 (proj2 Hd)) in Pd. split_and!; [done..| |].
  - rewrite Hres. unfold splice_result. destruct (failed_with _) eqn:Fu; [done|].
    destruct (failed_with (h_pump (sp_down s).2)) eqn:Fd; [done|].
    destruct (pump_done (sp_up s).2) eqn:Du; [|done]. destruct (pump_done (sp_down s).2) eqn:Dd; [|done].
    intros _. destruct (hop_done _ Hu Du Fu) as (? & _ & ?). by destruct (hop_done _ Hd Dd Fd) as (? & _ & ?).
  - intros e. rewrite Hres. unfold splice_result. destruct (failed_with _); [naive_solver|].
    destruct (failed_with _); [naive_solver|]. by destruct (_ && _).
Qed.

(** ** Witnesses *)

Definition demo_frame : list byte := as_bytes "HDR".

(** A request passes, the visitor finishes; the tunnel carries it on. *)
Definition demo_pipe_events : list pipe_event :=
  [Source (Writes (as_bytes "GET ")); Pump 0 (ReadSome 4); Pump 0 (WriteSome 2); Pump 1 (ReadSome 1);
   Source (Writes (as_bytes "/")); Source Ends; Pump 1 (WriteSome 1)].

Definition demo_path : chain := default (tunnel_up demo_frame) (chain_run demo_pipe_events (tunnel_up demo_frame)).

Definition demo_drain : list (nat * pump_act) :=
  [(0, WriteSome 2); (0, ReadSome 1); (0, WriteSome 1); (0, SeeEof); (0, FinishDst);
   (1, ReadSome 4); (1, WriteSome 4); (1, SeeEof); (1, FinishDst)].

Lemma tunnel_transparent_witness : arrived demo_path `prefix_of` ch_sent demo_path.1.
Proof. apply (tunnel_transparent demo_frame demo_pipe_events demo_path). vm_compute. reflexivity. Defined.

Definition demo_drained : chain :=
  default demo_path (chain_run ((λ ia, Pump ia.1 ia.2) <$> demo_drain) demo_path).

Lemma pipes_complete_witness :
  length demo_drain ≤ weight demo_path.1 demo_path.2 ∧ arrived demo_drained = as_bytes "GET /".
Proof.
  destruct (pipes_complete demo_frame demo_pipe_events demo_path.1 demo_path.2 demo_drain
    demo_drained.1 demo_drained.2) as [Hlen Hend]; [vm_compute; reflexivity..|].
  split; [exact Hlen|]. apply Hend.
  - intros i a. destruct i as [|[|i]]; [destruct a; vm_compute; reflexivity..|vm_compute; reflexivity].
  - vm_compute. reflexivity.
  - repeat constructor.
Defined.


(** The visitor has finished sending (half-close); the answer passes. *)
Definition demo_answer : list duplex_ev :=
  ((Up <$> demo_pipe_events) ++
   (Down <$> [Source (Writes (as_bytes "200")); Pump 0 (ReadSome 3); Pump 0 (WriteSome 3);
              Pump 1 (ReadSome 3); Pump 1 (WriteSome 3)]))%list.

Definition demo_answered : duplex :=
  default (pipe_bytes demo_frame) (duplex_run demo_answer (pipe_bytes demo_frame)).

Lemma directions_independent_witness :
  arrived (dx_down demo_answered) = as_bytes "200" ∧
  arrived (dx_down demo_answered) `prefix_of` ch_sent (dx_down demo_answered).1.
Proof.
  split; [vm_compute; reflexivity|].
  apply (directions_independent demo_frame demo_answer demo_answered). vm_compute. reflexivity.
Defined.

(** The visitor finishes first; the upstream answers afterwards. *)
Definition demo_splice_events : list splice_ev :=
  [SUpSource (Writes (as_bytes "q")); SUpSource Ends; SUp (ReadSome 1); SUp (WriteSome 1); SUp SeeEof;
   SUp FinishDst; SDownSource (Writes (as_bytes "answer")); SDown (ReadSome 6); SDown (WriteSome 6);
   SDownSource Ends; SDown SeeEof; SDown FinishDst].

Definition demo_spliced : splice :=
  default splice_local (splice_run demo_splice_events splice_local).

Lemma splice_faithful_witness :
  ch_sent (h_out (sp_down demo_spliced).2) = ch_sent (sp_down demo_spliced).1.
Proof.
  apply (splice_faithful demo_splice_events demo_spliced); vm_compute; reflexivity.
Defined.

(** ** What the claims above leave out *)

(** A splice outlives the end of one side: when the visitor has finished, the
    upstream's bytes are still passed (the call returns when both ends have
    closed, or on an error, not when either end closes). *)
Example splice_outlives_one_end :
  (sp_res <$> splice_run (take 6 demo_splice_events) splice_local) = Some None ∧
  sp_res demo_spliced = Some (Ok ()).
Proof. split; vm_compute; reflexivity. Qed.

(** A visitor that is lost in the middle of its request: [copy] returns an error,
    and the destination is finished all the same.  The client's copy, and the local
    service, see a clean end of stream after "GET": a truncated request cannot be
    told from a complete one. *)
Example lost_visitor_looks_finished :
  let evs := [Source (Writes (as_bytes "GET /long")); Pump 0 (ReadSome 3); Pump 0 (WriteSome 3);
              Source (Loses "connection reset"); Pump 0 SeeReadError; Pump 0 FinishDst;
              Pump 1 (ReadSome 3); Pump 1 (WriteSome 3); Pump 1 SeeEof; Pump 1 FinishDst] in
  ∃ st, chain_run evs (tunnel_up demo_frame) = Some st ∧
    arrived st = as_bytes "GET" ∧ ch_end (last_chan st.1 st.2) = Eof ∧
    (p_phase ∘ h_pump) <$> last st.2 = Some (PumpDone (Ok ())).
Proof. eexists. split_and!; vm_compute; reflexivity. Qed.
