(* ===== verification/System.v ===== *)
(** * The server as a whole

    The public side ([crates/tuyau-server/src/public.rs], [accept_loop] and
    [handle_public]; [h2proxy.rs], [serve_h1], [serve_h2]) running next to the
    tunnel side of [Server], on the same routing table.

    [Public.handle_hello] decides a connection from the tables it is given; here a
    connection is a task whose steps read the table of the moment, while tunnels
    come and go and other connections are served; a lookup is as many steps as it
    has shared accesses ([Lookups]).  The system is the world of [Server], the
    limits of [Limits], the connections being handled and the upgraded HTTP/1.1
    connections, which outlive their tasks; its steps interleave in any order.  The
    theorems are about the static server: a valid configuration, [StaticBackend],
    and a terminated set nobody replaces. *)

From S2P Require Import Prelude Bytes Sni Stream Protocol Config Routes Lookups Limits Backend Control.
From S2P Require Import Server LocalPool H2proxy Public.

Local Open Scope string_scope.
Local Open Scope list_scope.
Local Open Scope nat_scope.

(** ** One public connection *)

(** Where the task of a connection is: its await points, and the points before a
    use of the routing table. *)
Inductive visit :=
| Reading                                        (* timeout(read_client_hello) *)
| Parsed (sni : string)                          (* before is_terminated *)
| Accepting (sni : string)                       (* timeout(LazyConfigAcceptor) *)
| Handshaking (sni : string)                     (* start_handshake.into_stream *)
| Accepted (sni : string) (alpn : option (list byte)) (cert : bool)  (* before is_offload *)
| Negotiated (sni : string) (alpn : option (list byte)) (offload : bool)  (* before routes_to_upstream *)
| Routing (sni : string) (plain offload : bool) (ph : lookup_phase)  (* in lookup *)
| Opening (sni : string) (plain : bool) (route : Route)  (* open_tunnel_stream, connect_* *)
| Piping (sni : string) (plain : bool) (route : Route)   (* pipe_bytes, splice_local *)
| Http (sni : string) (h2 : bool) (client : Client) (calls : list lookup_phase)
    (* serve_connection, and where the lookup of each request under way is *)
| Writing502
| Ended.

(** [timeout(UPSTREAM_CONNECT_TIMEOUT, connect(..))] *)
Inductive dial :=
| Dialed
| DialError
| DialTimeout.

(** What ends the wait of a task; [Go] runs it over a use of the table (one shared
    access of a lookup).  A request of an HTTP connection arrives ([Incoming]), its
    lookup goes on ([Access]), and it is served with what the lookup found
    ([Answer]). *)
Inductive visit_ev (H : Type) :=
| HelloRead (client_hello : list byte) | HelloFailed | HelloTimedOut
| Go
| AcceptDone | AcceptErr | AcceptTimedOut
| HandshakeDone (alpn : option (list byte)) (cert : bool) | HandshakeErr
| StreamOpen | StreamErr
| Connect (d : dial)
| Incoming | Access (call : nat) | Answer (call : nat) (env : backend_env H) (req : Request H)
| Over.
Arguments HelloRead {H}. Arguments HelloFailed {H}. Arguments HelloTimedOut {H}. Arguments Go {H}.
Arguments AcceptDone {H}. Arguments AcceptErr {H}. Arguments AcceptTimedOut {H}.
Arguments HandshakeDone {H}. Arguments HandshakeErr {H}. Arguments StreamOpen {H}.
Arguments StreamErr {H}. Arguments Connect {H}. Arguments Incoming {H}. Arguments Access {H}.
Arguments Answer {H}. Arguments Over {H}.

Definition dest_of (route : Route) : Destination :=
  match route with Tunnel e => ToTunnel e | Local_ target => ToLocal target end.

(** [connect_tcp] and [connect_unix]: a stream, or a logged failure. *)
Definition connect_upstream (d : dial) : option () :=
  match d with Dialed => Some () | DialError | DialTimeout => None end.

(** [dispatch_local]: spliced, or dropped. *)
Definition dispatch_local (sni : string) (plain : bool) (target : UpstreamTarget) (d : dial) : visit :=
  match connect_upstream d with
  | Some _ => Piping sni plain (Local_ target)
  | None => Ended
  end.

Lemma fmap_delete {A B} (f : A → B) (l : list A) (i : nat) : f <$> delete i l = delete i (f <$> l).
Proof. revert i. induction l as [|x l IH]; intros [|i]; [done..|]. csimpl. by rewrite <- IH. Qed.

Section system.
Context {H : Type} `{HeaderMapLaws H}.
Context (parse_ip : string → option IpAddr) (show_ip : IpAddr → string).
Context (parse_uri : string → option Uri) (parse_value : string → option string).
Context (tls : PublicTls) (html : string).

(** The end of [handle_public]: what the lookup found (a panic would end the
    task). *)
Definition on_route (sni : string) (plain offload : bool) (r : partial Route) : visit :=
  match r with
  | PSome route => Opening sni plain route
  | PNone => if plain then if offload then Ended else Writing502 else Ended
  | PPanic | PFuel => Ended
  end.

(** [serve_h2], [serve_h1]: the service each request of a terminated connection goes
    to, once its lookup has returned. *)
Definition serve_h2 (peer : IpAddr) (sni : string) (client : Client) (route : partial Route) env req :=
  proxy_route parse_ip show_ip parse_uri parse_value env route req sni peer client html.

Definition serve_h1 (peer : IpAddr) (sni : string) (client : Client) (route : partial Route) env req :=
  proxy_route parse_ip show_ip parse_uri parse_value env route req sni peer client html.

(** [h1_upgrade] answered 101: hyper hands the connection to the spawned splice. *)
Definition handed_over (req : Request H) (ex : Exchange H) : bool :=
  negb (is_websocket_connect req) && contains_key (req_headers req) UPGRADE &&
  is_some (sent ex) && (status (response ex) =? 101)%Z.

(** A connection after one of its requests: an HTTP/1.1 connection that was
    upgraded is no longer the task's ([with_upgrades] resolves), and a panic of the
    service ends its task; over h2 a request has a task of its own. *)
Definition after_answer (sni : string) (h2 : bool) (client : Client) (calls : list lookup_phase)
    (req : Request H) (ex : partial (Exchange H)) : visit :=
  match ex with
  | PSome ex => if negb h2 && handed_over req ex then Ended else Http sni h2 client calls
  | _ => if h2 then Http sni h2 client calls else Ended
  end.

Definition sent_to (ex : partial (Exchange H)) : option Destination :=
  match ex with PSome ex => fst <$> sent ex | _ => None end.

(** One step of the task of a connection from [peer]: the next phase, the world
    (a lookup moves a cursor), and where bytes or a request were sent. *)
Definition visit_step (peer : IpAddr) (w : World) (v : visit) (ev : visit_ev H) :
    option (visit * World * option Destination) :=
  match v, ev with
  | Reading, HelloRead client_hello =>
      match parse_sni client_hello with
      | PSome sni => Some (Parsed sni, w, None)
      | _ => Some (Ended, w, None)
      end
  | Reading, HelloFailed | Reading, HelloTimedOut => Some (Ended, w, None)
  | Parsed sni, Go =>
      Some (if is_terminated (routes w) sni then Accepting sni else Routing sni false false ReadTerminated, w, None)
  | Accepting sni, AcceptDone => Some (Handshaking sni, w, None)
  | Accepting _, AcceptErr | Accepting _, AcceptTimedOut => Some (Ended, w, None)
  | Handshaking sni, HandshakeDone alpn cert => Some (Accepted sni alpn cert, w, None)
  | Handshaking _, HandshakeErr => Some (Ended, w, None)
  | Accepted sni alpn cert, Go =>
      Some
        (if bool_decide (alpn = Some ACME_TLS_ALPN_NAME) then Ended
         else if needs_client_cert tls && negb cert then Ended
         else
           let offload := is_offload (routes w) sni in
           if negb offload && bool_decide (alpn = Some ALPN_H2) then Http sni true (h1_client tls) []
           else Negotiated sni alpn offload, w, None)
  | Negotiated sni alpn offload, Go =>
      let h1 := bool_decide (alpn = Some ALPN_H1) ||
                (negb (is_some alpn) && routes_to_upstream (routes w) sni) in
      Some (if negb offload && h1 then Http sni false (h1_client tls) []
            else Routing sni true offload ReadTerminated, w, None)
  | Routing sni plain offload ph, Go =>
      let '(ph, w) := world_access sni ph w in
      Some (match ph with
            | Returned r => on_route sni plain offload r
            | _ => Routing sni plain offload ph
            end, w, None)
  | Opening sni plain (Tunnel e), StreamOpen => Some (Piping sni plain (Tunnel e), w, Some (ToTunnel e))
  | Opening _ _ (Tunnel _), StreamErr => Some (Ended, w, None)
  | Opening sni plain (Local_ target), Connect d =>
      Some (dispatch_local sni plain target d, w,
            match connect_upstream d with Some _ => Some (ToLocal target) | None => None end)
  | Http sni h2 client calls, Incoming =>
      if h2 || is_nil calls then Some (Http sni h2 client (calls ++ [ReadTerminated]), w, None) else None
  | Http sni h2 client calls, Access i =>
      match calls !! i with
      | Some ph =>
          if returned ph then None
          else let '(ph, w) := world_access sni ph w in
               Some (Http sni h2 client (<[i := ph]> calls), w, None)
      | None => None
      end
  | Http sni h2 client calls, Answer i env req =>
      match calls !! i with
      | Some (Returned r) =>
          let ex := (if h2 then serve_h2 else serve_h1) peer sni client r env req in
          Some (after_answer sni h2 client (delete i calls) req ex, w, sent_to ex)
      | _ => None
      end
  (* a lookup has no await: it is not left halfway *)
  | Http _ _ _ calls, Over => if forallb returned calls then Some (Ended, w, None) else None
  | Piping _ _ _, Over | Writing502, Over => Some (Ended, w, None)
  | _, _ => None
  end.

(** ** The system *)

(** A connection being handled, with the history of where it was sent. *)
Record visitor := {
  v_peer : IpAddr;
  v_phase : visit;
  v_log : list (string * Destination)
}.

(** An upgraded HTTP/1.1 connection, spliced to its backend by a task of its own,
    without a permit. *)
Record spliced := {
  sp_peer : IpAddr;
  sp_sni : string;
  sp_dest : Destination
}.

Record System := {
  sys_world : World;
  sys_limits : AcceptState;
  sys_visitors : list visitor;
  sys_spliced : list spliced;
  sys_accepting : bool
}.

(** The server name a connection asked for. *)
Definition sni_of (v : visit) : string :=
  match v with
  | Parsed sni | Accepting sni | Handshaking sni | Accepted sni _ _ | Negotiated sni _ _
  | Routing sni _ _ _ | Opening sni _ _ | Piping sni _ _ | Http sni _ _ _ => sni
  | Reading | Writing502 | Ended => ""
  end.

Definition start_system (cfg : ServerConfig) (max_conns : nat) : System :=
  {| sys_world := start_world cfg; sys_limits := accept_init max_conns; sys_visitors := [];
     sys_spliced := []; sys_accepting := true |}.

Definition new_visitor (peer : IpAddr) : visitor := {| v_peer := peer; v_phase := Reading; v_log := [] |}.

(** [accept_loop]: an accepted socket. *)
Definition sys_accept (peer : IpAddr) (s : System) : System :=
  let '(l, verdict) := on_accept (show_ip peer) (sys_limits s) in
  {| sys_world := sys_world s; sys_limits := l;
     sys_visitors := match verdict with
                     | Handled => new_visitor peer :: sys_visitors s
                     | _ => sys_visitors s
                     end;
     sys_spliced := sys_spliced s; sys_accepting := sys_accepting s |}.

(** The connection a step hands over, and where it goes on. *)
Definition handed (v : visitor) (ev : visit_ev H) (ph : visit) (dest : option Destination) : list spliced :=
  match v_phase v, ev, ph, dest with
  | Http sni false _ _, Answer _ _ _, Ended, Some d => [{| sp_peer := v_peer v; sp_sni := sni; sp_dest := d |}]
  | _, _, _, _ => []
  end.

Definition sys_visit (i : nat) (ev : visit_ev H) (s : System) : option System :=
  v ← sys_visitors s !! i;
  '(ph, w, dest) ← visit_step (v_peer v) (sys_world s) (v_phase v) ev;
  Some {| sys_world := w; sys_limits := sys_limits s;
          sys_visitors := <[i := {| v_peer := v_peer v; v_phase := ph;
                                    v_log := v_log v ++ match dest with
                                                        | Some d => [(sni_of (v_phase v), d)]
                                                        | None => []
                                                        end |}]> (sys_visitors s);
          sys_spliced := handed v ev ph dest ++ sys_spliced s;
          sys_accepting := sys_accepting s |}.

(** A task returns: its permits are dropped. *)
Definition sys_close (i : nat) (s : System) : option System :=
  v ← sys_visitors s !! i;
  match v_phase v with
  | Ended =>
      l ← on_close i (sys_limits s);
      Some {| sys_world := sys_world s; sys_limits := l; sys_visitors := delete i (sys_visitors s);
              sys_spliced := sys_spliced s; sys_accepting := sys_accepting s |}
  | _ => None
  end.

(** rustls negotiates an advertised protocol or none. *)
Definition visit_ev_ok (ev : visit_ev H) : Prop :=
  match ev with HandshakeDone (Some p) _ => p ∈ alpn_protocols tls | _ => True end.

Definition set_world (w : World) (s : System) : System :=
  {| sys_world := w; sys_limits := sys_limits s; sys_visitors := sys_visitors s;
     sys_spliced := sys_spliced s; sys_accepting := sys_accepting s |}.

(** A splice is over. *)
Definition sys_unsplice (i : nat) (s : System) : System :=
  {| sys_world := sys_world s; sys_limits := sys_limits s; sys_visitors := sys_visitors s;
     sys_spliced := delete i (sys_spliced s); sys_accepting := sys_accepting s |}.

(** A probing lookup holds the read lock of the tunnel map: whoever changes the map,
    and not just a cursor, waits for it. *)
Definition holds_lock (v : visit) : bool :=
  match v with
  | Routing _ _ _ ph => probing ph
  | Http _ _ _ calls => existsb probing calls
  | _ => false
  end.

Definition lock_respected (s : System) (w' : World) : Prop :=
  existsb (λ v, holds_lock (v_phase v)) (sys_visitors s) = true →
  same_entries (routes (sys_world s)) (routes w').

(** A step of the public listener: an accepted socket, the end of the accept loop, a
    step of a task, the end of one, the end of a splice. *)
Inductive public_step : System → System → Prop :=
| SysAccept peer s : sys_accepting s = true → public_step s (sys_accept peer s)
| SysStop s :
    cancel (sys_world s) = true →
    public_step s {| sys_world := sys_world s; sys_limits := sys_limits s; sys_visitors := sys_visitors s;
                     sys_spliced := sys_spliced s; sys_accepting := false |}
| SysVisit i ev s s' : visit_ev_ok ev → sys_visit i ev s = Some s' → public_step s s'
| SysClose i s s' : sys_close i s = Some s' → public_step s s'
| SysUnsplice i s : public_step s (sys_unsplice i s).

Section steps.
Context (cfg : ServerConfig).

Definition static_world_step (w w' : World) : Prop :=
  step (StaticBackend_new cfg) w w' ∧ terminated (routes w') = terminated (routes w).

Inductive sys_step : System → System → Prop :=
| SysWorld s w' : static_world_step (sys_world s) w' → lock_respected s w' → sys_step s (set_world w' s)
| SysPublic s s' : public_step s s' → sys_step s s'.

Definition sys_reachable (max_conns : nat) (s : System) : Prop :=
  rtc sys_step (start_system cfg max_conns) s.

(** ** What the configuration says *)

Definition config_table : RoutingTable := from_config (hostnames cfg) (upstreams cfg).

(** A destination the configuration gives for a server name: a tunnel of the
    client it is bound to, in its mode; or the upstream that serves it. *)
Definition configured (sni : string) (d : Destination) : Prop :=
  match d with
  | ToTunnel re =>
      (∃ h, h ∈ hostnames cfg ∧ he_host h = sni ∧ he_client h = re_client_name re ∧
         he_tls_mode h = re_tls_mode re) ∧
      find_upstream config_table (to_ascii_lowercase sni) = None
  | ToPool target | ToLocal target =>
      ∃ up, find_upstream config_table (to_ascii_lowercase sni) = Some up ∧ lu_target up = target
  end.

(** ** The static table *)

Abbreviation backend := (StaticBackend_new cfg).

Definition static_ok (w : World) : Prop :=
  inv backend w ∧ same_config config_table (routes w) ∧ terminated (routes w) = terminated config_table.

Lemma same_config_trans t1 t2 t3 : same_config t1 t2 → same_config t2 t3 → same_config t1 t3.
Proof. unfold same_config. intros (-> & -> & ->) (-> & -> & ->). done. Qed.

Lemma handle_same_config c ev w w' : handle c ev w = Some w' → same_config (routes w) (routes w').
Proof.
  unfold handle. destruct (handlers w !! c) as [[peer ph]|]; [|done]. cbn [mbind option_bind h_peer h_phase].
  destruct ph, ev; try done; intros Hs; try (case_match; try done); simplify_eq/=; try done.
  - case_decide; by simplify_eq.
  - match goal with E : install _ _ _ _ _ = _ |- _ => rename E into Hi end.
    pose proof (op_step_same_config (λ _, cg_client_name (s_grant s)) _ _
      (step_install (λ _, cg_client_name (s_grant s)) (cg_hostnames (s_grant s)) (cg_balance (s_grant s)) c (routes w))) as Hc.
    cbv beta in Hc. by rewrite Hi in Hc.
Qed.

Lemma access_config cl host ph t :
  same_config t (lookup_step cl host t ph).1.2 ∧ terminated (lookup_step cl host t ph).1.2 = terminated t.
Proof. by destruct (lookup_step_inner cl host t ph) as [->|(e & cursor & _ & _ & ->)]. Qed.

Lemma step_same_config {B} `{RoutingBackend B} (b : B) w w' :
  step b w w' → same_config (routes w) (routes w').
Proof.
  destruct 1 as [c peer w Hfresh|c ev w w' Hok Hh|c w|w|client w|c w Hc|full w|host ph w]; try done.
  - by eapply handle_same_config.
  - unfold server_kick. pose proof (op_step_same_config (λ _, client) _ _ (step_kick _ client (routes w))) as Hs.
    by destruct (kick client (routes w)).
  - destruct (world_access_routes host ph w) as (-> & _). apply access_config.
Qed.

Lemma static_ok_step w w' : static_world_step w w' → static_ok w → static_ok w'.
Proof.
  intros [Hs Ht] (Hinv & Hc & Hterm). split; [by eapply inv_step|]. split; [|congruence].
  eapply same_config_trans; [exact Hc|by eapply step_same_config].
Qed.

Lemma static_ok_access sni ph w : static_ok w → static_ok (world_access sni ph w).2.
Proof.
  apply static_ok_step. split; [apply LookupAccess|].
  destruct (world_access_routes sni ph w) as (-> & _). apply access_config.
Qed.

(** A host with a tunnel is a hostname of the configuration. *)
Lemma static_inner w host e :
  static_ok w → inner (routes w) !! host = Some e →
  ∃ h, h ∈ hostnames cfg ∧ he_host h = host ∧ he_client h = hr_client_name e ∧ he_tls_mode h = hr_tls_mode e.
Proof.
  intros (Hinv & _) He. destruct (wi_mode _ _ _ _ Hinv host e He) as (token & g & Hg & Hcn & Hin).
  unfold admits, StaticBackend_backend in Hg. symmetry in Hg.
  apply (granted_host _ _ _ _ _ Hg) in Hin as (h & Hh & Hcl & Hhost & Hmode).
  exists h. split_and!; done || congruence.
Qed.

(** So no tunnel changes what a lowercase name matches. *)
Lemma static_wildcard w host :
  static_ok w → to_ascii_lowercase host = host →
  wildcard_upstream (routes w) host = wildcard_upstream config_table host.
Proof.
  intros Hok Hlow. pose proof Hok as (_ & (Hl & Ht & _) & Hterm). unfold wildcard_upstream.
  rewrite Hl, Ht, Hterm. destruct (inner (routes w) !! host) as [e|] eqn:He; [|done].
  destruct (static_inner w host e Hok He) as (h & Hh & Hhost & _).
  assert (host ∈ tunnel_hosts config_table) as Hin.
  { apply elem_of_collect_set, list_elem_of_fmap. exists h. by rewrite Hhost, Hlow. }
  rewrite (bool_decide_eq_true_2 _ Hin). simpl. by rewrite !orb_true_r.
Qed.

Lemma static_find w sni :
  static_ok w →
  find_upstream (routes w) (to_ascii_lowercase sni) = find_upstream config_table (to_ascii_lowercase sni).
Proof.
  intros Hok. unfold find_upstream. rewrite static_wildcard by (done || apply to_ascii_lowercase_idem).
  by destruct Hok as (_ & (-> & _) & _).
Qed.

Lemma static_predicates w sni :
  static_ok w →
  is_terminated (routes w) sni = is_terminated config_table sni ∧
  is_offload (routes w) sni = is_offload config_table sni ∧
  routes_to_upstream (routes w) sni = routes_to_upstream config_table sni.
Proof.
  intros Hok. pose proof Hok as (_ & (Hl & _ & Ho) & Hterm). split_and!.
  - unfold is_terminated. rewrite Hterm, static_wildcard by (done || apply to_ascii_lowercase_idem). done.
  - unfold is_offload. rewrite Ho, static_wildcard by (done || apply to_ascii_lowercase_idem). done.
  - rewrite !routes_to_upstream_spec. by rewrite static_find.
Qed.

(** What a lookup under way has found out. *)
Definition look_ok (sni : string) (ph : lookup_phase) : Prop :=
  let lowercase := to_ascii_lowercase sni in
  match ph with
  | ReadTerminated => True
  | ReadInner =>
      local config_table !! lowercase = None ∧
      bool_decide (lowercase ∈ tunnel_hosts config_table) || bool_decide (lowercase ∈ terminated config_table) = false
  | FetchEntry | Probing _ => find_upstream config_table lowercase = None
  | Returned r => ∀ route, r = PSome route → configured sni (dest_of route)
  end.

Lemma find_config host :
  local config_table !! host = None →
  find_upstream config_table host =
    if bool_decide (host ∈ tunnel_hosts config_table) || bool_decide (host ∈ terminated config_table) then None
    else find_map (λ pattern, local config_table !! pattern) (drop 1 (host_patterns host)).
Proof.
  intros Hl. unfold find_upstream, wildcard_upstream. rewrite Hl. cbn [is_some orb].
  assert (inner config_table !! host = None) as -> by apply lookup_empty. by rewrite orb_false_r.
Qed.

Lemma look_ok_step sni ph w :
  static_ok w → look_ok sni ph → look_ok sni (world_access sni ph w).1.
Proof.
  intros Hok Hl. pose proof Hok as (_ & (Hloc & Htun & _) & Hterm).
  unfold world_access. destruct ph as [| | |[|k]|r]; cbn [lookup_step look_ok] in *.
  - rewrite Hterm, Hloc, Htun. destruct (local config_table !! _) as [up|] eqn:Hup.
    { intros route [= <-]. exists up. unfold find_upstream. by rewrite Hup. }
    destruct (_ || _) eqn:Hnamed; cbn [fst look_ok]; [|done]. by rewrite find_config, Hnamed.
  - destruct Hl as [Hup Hnamed]. pose proof (find_config _ Hup) as Hf. rewrite Hnamed in Hf.
    destruct (is_some (inner (routes w) !! _)) eqn:Hin; cbn [fst look_ok].
    + unfold find_upstream. rewrite Hup. rewrite <- (static_wildcard w _ Hok) by apply to_ascii_lowercase_idem.
      unfold wildcard_upstream. by rewrite Hin, orb_true_r.
    + rewrite Hloc, <- Hf. destruct (find_upstream _ _) as [up|] eqn:Hm; cbn [fst look_ok]; [|done].
      intros route [= <-]. by exists up.
  - destruct (inner _ !! sni) as [e|]; [case_decide|]; done.
  - done.
  - destruct (inner _ !! sni) as [e|] eqn:He; [|done]. destruct (hr_conns e !! _) as [conn|]; [|done].
    destruct (is_closed w conn); cbn [fst look_ok]; [done|]. intros route [= <-]. split; [|done].
    by apply (static_inner w).
  - done.
Qed.

(** ** The invariant *)

Definition alpn_ok (alpn : option (list byte)) : Prop :=
  match alpn with Some p => p ∈ alpn_protocols tls | None => True end.

(** A pipe goes where the configuration says, decrypted exactly for a terminated
    host, and never in the clear to an upstream that is not an offload host. *)
Definition pipe_ok (sni : string) (plain : bool) (route : Route) : Prop :=
  plain = is_terminated config_table sni ∧ configured sni (dest_of route) ∧
  (∀ target, route = Local_ target → plain = true → is_offload config_table sni = true).

Definition visit_ok (v : visit) : Prop :=
  match v with
  | Accepting sni | Handshaking sni => is_terminated config_table sni = true
  | Accepted sni alpn _ => is_terminated config_table sni = true ∧ alpn_ok alpn
  | Negotiated sni alpn offload =>
      is_terminated config_table sni = true ∧ offload = is_offload config_table sni ∧ alpn_ok alpn ∧
      alpn ≠ Some ACME_TLS_ALPN_NAME ∧ (offload = false → alpn ≠ Some ALPN_H2)
  | Routing sni plain offload ph =>
      plain = is_terminated config_table sni ∧
      (plain = true → offload = is_offload config_table sni ∧
         (offload = false → routes_to_upstream config_table sni = false)) ∧
      look_ok sni ph
  | Opening sni plain route | Piping sni plain route => pipe_ok sni plain route
  | Http sni _ client calls =>
      is_terminated config_table sni = true ∧ is_offload config_table sni = false ∧ client = h1_client tls ∧
      Forall (look_ok sni) calls
  | Reading | Parsed _ | Writing502 | Ended => True
  end.

Definition log_ok (log : list (string * Destination)) : Prop := Forall (λ p, configured p.1 p.2) log.

Lemma alpn_h1 alpn :
  alpn_ok alpn → alpn ≠ Some ACME_TLS_ALPN_NAME → alpn ≠ Some ALPN_H2 → alpn = None ∨ alpn = Some ALPN_H1.
Proof.
  destruct alpn as [p|]; [|by left]. unfold alpn_ok, alpn_protocols. intros Hp.
  destruct (acme_active tls); simpl in Hp; rewrite ?elem_of_cons, ?elem_of_nil in Hp;
    intros; right; intuition congruence.
Qed.

Lemma configured_local sni target :
  configured sni (ToLocal target) → routes_to_upstream config_table sni = true.
Proof. intros (up & Hup & _). rewrite routes_to_upstream_spec. by rewrite Hup. Qed.

Lemma routing_step sni plain offload ph r :
  visit_ok (Routing sni plain offload ph) → look_ok sni (Returned r) →
  visit_ok (on_route sni plain offload r).
Proof.
  intros (Hp & Hoff & _) Hl. destruct r as [route| | |]; simpl in *; [|by destruct plain, offload|done..].
  specialize (Hl route eq_refl). split_and!; [done..|]. intros target -> Hplain.
  destruct (Hoff Hplain) as [Ho Hup]. destruct offload; [done|].
  rewrite (configured_local sni target) in Hup by done. by specialize (Hup eq_refl).
Qed.

(** Requests are sent where their lookup said. *)
Lemma proxy_configured env route req sni peer client d :
  look_ok sni (Returned route) →
  sent_to (proxy_route parse_ip show_ip parse_uri parse_value env route req sni peer client html) = Some d →
  configured sni d.
Proof.
  intros Hl Hd. destruct (proxy_route _ _ _ _ _ _ _ _ _ _ _) as [ex| | |] eqn:Hex; try done. simpl in Hd.
  destruct (sent ex) as [[d' q]|] eqn:Hs; [|done]. injection Hd as <-.
  destruct (proxy_route_carries _ _ _ _ _ _ _ _ _ _ _ _ _ _ Hex Hs) as [_ ->].
  specialize (Hl _ eq_refl). by destruct d'.
Qed.

Lemma after_answer_cases sni h2 client calls req ex :
  after_answer sni h2 client calls req ex = Ended ∨
  after_answer sni h2 client calls req ex = Http sni h2 client calls.
Proof. unfold after_answer. destruct ex as [ex| | |]; [destruct (_ && _)|destruct h2..]; auto. Qed.

Lemma after_answer_ok sni h2 client calls req ex :
  visit_ok (Http sni h2 client calls) → visit_ok (after_answer sni h2 client calls req ex).
Proof. intros Hv. by destruct (after_answer_cases sni h2 client calls req ex) as [->| ->]. Qed.

(** One step of a connection keeps the invariants, and goes where the
    configuration says. *)
Lemma visit_step_ok peer w v ev v' w' d :
  static_ok w → visit_ok v → visit_ev_ok ev → visit_step peer w v ev = Some (v', w', d) →
  static_ok w' ∧ visit_ok v' ∧ (∀ x, d = Some x → configured (sni_of v) x).
Proof.
  intros Hok Hv Hev Hs. pose proof (λ sni, static_predicates w sni Hok) as Hpred.
  destruct v; destruct ev; cbn [visit_step] in Hs; try done;
    try (injection Hs as <- <- <-; done); try (by destruct route).
  - destruct (parse_sni _); by injection Hs as <- <- <-.
  - injection Hs as <- <- <-. destruct (Hpred sni) as (Ht & _). rewrite Ht.
    destruct (is_terminated config_table sni) eqn:E; split_and!; try done; simpl; by rewrite E.
  - injection Hs as <- <- <-. destruct (Hpred sni) as (_ & Ho & _). rewrite Ho. destruct Hv as [Ht Ha].
    case_bool_decide as Hacme; [done|]. destruct (_ && _); [done|]. split_and!; try done.
    destruct (is_offload config_table sni) eqn:E; simpl; [by split_and!|].
    case_bool_decide; simpl; by split_and!.
  - injection Hs as <- <- <-. destruct (Hpred sni) as (_ & _ & Hu). rewrite Hu.
    destruct Hv as (Ht & Ho & Ha & Hacme & Hh2). split_and!; [done| |done].
    destruct offload; simpl; [by rewrite Ht|].
    destruct (alpn_h1 alpn Ha Hacme (Hh2 eq_refl)) as [->| ->]; [|by rewrite bool_decide_eq_true_2].
    simpl. destruct (routes_to_upstream config_table sni) eqn:E; [done|]. simpl. by rewrite Ht.
  - pose proof (static_ok_access sni ph w Hok) as Hok'. pose proof Hv as (Hp & Hoff & Hl).
    pose proof (look_ok_step sni ph w Hok Hl) as Hl'.
    destruct (world_access sni ph w) as [ph' w1]. injection Hs as <- <- <-. split_and!; [done| |done].
    destruct ph'; [done..|]. by eapply routing_step.
  - destruct route; [|done]. injection Hs as <- <- <-. split_and!; [done..|]. intros x [= <-]. apply Hv.
  - destruct route; [|done]. by injection Hs as <- <- <-.
  - destruct route as [|target]; [done|]. injection Hs as <- <- <-. unfold dispatch_local.
    destruct (connect_upstream d0); split_and!; try done. intros x [= <-]. apply Hv.
  - destruct (_ || _); [|done]. injection Hs as <- <- <-. destruct Hv as (? & ? & ? & Hcalls).
    cbn [visit_ok]. split_and!; try done. apply Forall_app. by repeat constructor.
  - destruct (calls !! call) as [ph|] eqn:Hi; [|done]. destruct (returned ph); [done|].
    destruct Hv as (? & ? & ? & Hcalls).
    pose proof (static_ok_access sni ph w Hok) as Hok'.
    pose proof (look_ok_step sni ph w Hok (proj1 (Forall_lookup _ _) Hcalls _ _ Hi)) as Hl'.
    destruct (world_access sni ph w) as [ph' w1]. injection Hs as <- <- <-. cbn [visit_ok]. split_and!; try done.
    by apply Forall_insert.
  - destruct (calls !! call) as [[| | | |r]|] eqn:Hi; try done. injection Hs as <- <- <-.
    destruct Hv as (? & ? & ? & Hcalls). split_and!; [done| |].
    + apply after_answer_ok. cbn [visit_ok]. split_and!; try done. by apply Forall_delete.
    + intros x Hx. eapply proxy_configured; [exact (proj1 (Forall_lookup _ _) Hcalls _ _ Hi)|].
      destruct h2; exact Hx.
  - destruct (forallb _ _); [|done]. by injection Hs as <- <- <-.
Qed.

Definition visitor_ok (v : visitor) : Prop := visit_ok (v_phase v) ∧ log_ok (v_log v).

(** An upgraded connection is spliced to what the configuration gives for its name,
    which is a terminated one. *)
Definition spliced_ok (sp : spliced) : Prop :=
  configured (sp_sni sp) (sp_dest sp) ∧ is_terminated config_table (sp_sni sp) = true ∧
  is_offload config_table (sp_sni sp) = false.

Record system_ok (max_conns : nat) (s : System) : Prop := {
  so_world : static_ok (sys_world s);
  so_limits : limits_wf max_conns (sys_limits s);
  so_live : ((show_ip ∘ v_peer) <$> sys_visitors s) = live (sys_limits s);
  so_visitors : Forall visitor_ok (sys_visitors s);
  so_spliced : Forall spliced_ok (sys_spliced s)
}.

Lemma start_system_ok n : system_ok n (start_system cfg n).
Proof.
  split; [|apply accept_init_wf|done|constructor|constructor]. split; [apply inv_start|done].
Qed.

Lemma on_accept_live n peer st :
  limits_wf n st →
  live (on_accept peer st).1 = match (on_accept peer st).2 with Handled => peer :: live st | _ => live st end.
Proof. intros Hwf. rewrite (on_accept_cases n) by done. case_decide; [done|]. by case_decide. Qed.

Lemma handed_ok v ev ph d :
  visit_ok (v_phase v) → (∀ x, d = Some x → configured (sni_of (v_phase v)) x) → Forall spliced_ok (handed v ev ph d).
Proof.
  intros Hv Hd. unfold handed. destruct (v_phase v) as [| | | | | | | | |sni [|] client calls| |]; try constructor.
  destruct ev; try constructor. destruct ph; try constructor. destruct d as [x|]; [|constructor].
  constructor; [|constructor]. destruct Hv as (? & ? & _). split_and!; [by apply Hd|done..].
Qed.

Lemma system_ok_step n s s' : sys_step s s' → system_ok n s → system_ok n s'.
Proof.
  intros Hs [Hw0 Hl Hlive Hv Hsp]. destruct Hs as [s w' Hw _|s s' Hs];
    [|destruct Hs as [peer s Hacc|s Hc|i ev s s' Hev Hs|i s s' Hs|i s]].
  - split; try done. by eapply static_ok_step.
  - pose proof (on_accept_wf n (show_ip peer) _ Hl) as Hl'.
    pose proof (on_accept_live n (show_ip peer) _ Hl) as Hlive'. unfold sys_accept.
    destruct (on_accept _ _) as [l v]. simpl in *.
    split; simpl; [done..| | |done]; rewrite ?Hlive'; destruct v; csimpl; rewrite ?Hlive; try done.
    constructor; [|done]. split; [done|constructor].
  - by split.
  - unfold sys_visit in Hs. destruct (sys_visitors s !! i) as [v|] eqn:Hi; [|done]. simpl in Hs.
    destruct (visit_step _ _ _ _) as [[[ph w] d]|] eqn:Hstep; [|done]. injection Hs as <-.
    pose proof (proj1 (Forall_lookup _ _) Hv i v Hi) as [Hphase Hlog].
    destruct (visit_step_ok _ _ _ _ _ _ _ Hw0 Hphase Hev Hstep) as (? & ? & Hd). split; simpl; [done..| | |].
    + rewrite list_fmap_insert, list_insert_id; [done|]. rewrite list_lookup_fmap, Hi. done.
    + apply Forall_insert; [done|]. split; [done|]. simpl. apply Forall_app. split; [done|].
      destruct d as [x|]; [|constructor]. constructor; [by apply Hd|constructor].
    + apply Forall_app. split; [by apply handed_ok|done].
  - unfold sys_close in Hs. destruct (sys_visitors s !! i) as [v|] eqn:Hi; [|done]. simpl in Hs.
    destruct (v_phase v); try done. destruct (on_close_wf n i _ Hl) as (l & Hcl & Hl' & Hlive').
    rewrite Hcl in Hs. injection Hs as <-. split; simpl; [done..| | |done].
    + rewrite Hlive', <- Hlive, list_lookup_fmap, Hi. simpl. apply fmap_delete.
    + by apply Forall_delete.
  - split; try done. by apply Forall_delete.
Qed.

Lemma system_reachable_ok n s : sys_reachable n s → system_ok n s.
Proof.
  intros Hr. pose proof (start_system_ok n) as Hok.
  induction Hr as [|s1 s2 s3 Hs _ IH]; [done|]. eauto using system_ok_step.
Qed.

(** ** Theorems *)

(** C3: every visitor is served as configured, whatever happens meanwhile.  In any
    interleaving of tunnels connecting, moving, being displaced, revoked and lost,
    with public connections accepted, routed (each shared access of a lookup a step)
    and served, of a static server: whatever a connection's bytes or requests are
    sent to is the tunnel of the client the configuration binds its server name to,
    in the configured mode, or the upstream that serves it (handed to the pool for
    that upstream, or on a connection of its own); a pipe carries decrypted bytes
    exactly for the terminated hosts, and to an upstream only for an offload host (a
    visitor of an HTTP upstream never gets a byte pipe on which to forge address
    headers); HTTP is spoken only for terminated hosts that are not offload hosts;
    and the same holds of the upgraded connections that outlived their tasks. *)
Theorem visitors_as_configured n s :
  sys_reachable n s →
  (∀ v, v ∈ sys_visitors s →
     (∀ sni d, (sni, d) ∈ v_log v → configured sni d) ∧
     (∀ sni plain route, v_phase v = Piping sni plain route →
        plain = is_terminated config_table sni ∧ configured sni (dest_of route) ∧
        (∀ target, route = Local_ target → plain = true → is_offload config_table sni = true)) ∧
     (∀ sni h2 client calls, v_phase v = Http sni h2 client calls →
        is_terminated config_table sni = true ∧ is_offload config_table sni = false ∧ client = h1_client tls)) ∧
  (∀ sp, sp ∈ sys_spliced s →
     configured (sp_sni sp) (sp_dest sp) ∧ is_terminated config_table (sp_sni sp) = true ∧
     is_offload config_table (sp_sni sp) = false).
Proof.
  intros [_ _ _ Hv Hsp]%system_reachable_ok. split; [|by apply Forall_forall]. intros v Hin.
  destruct (proj1 (Forall_forall _ _) Hv v Hin) as [Hph Hlog]. split_and!.
  - intros sni d Hd. exact (proj1 (Forall_forall _ _) Hlog _ Hd).
  - intros sni plain route E. by rewrite E in Hph.
  - intros sni h2 client calls E. rewrite E in Hph. by destruct Hph as (? & ? & ? & _).
Qed.

(** C23: the connections being handled are bounded.  In every reachable state at
    most [max_conns] public connections have a task, at most the share of one
    address from that address, and the permits that are out are exactly those of
    these connections: a connection whose task has ended can be collected and frees
    its own.  (An upgraded HTTP/1.1 connection is handed to a splice and its task
    ends: it is no longer among them, see [splices_unbounded].) *)
Theorem visitors_bounded n s :
  sys_reachable n s →
  length (sys_visitors s) ≤ n ∧
  (∀ ip, held ip ((show_ip ∘ v_peer) <$> sys_visitors s) ≤ max_conns_per_ip n) ∧
  permits (sys_limits s) + length (sys_visitors s) = n ∧
  (∀ i v, sys_visitors s !! i = Some v → v_phase v = Ended →
     ∃ s', sys_close i s = Some s' ∧ sys_visitors s' = delete i (sys_visitors s) ∧
       permits (sys_limits s') = S (permits (sys_limits s))).
Proof.
  intros [_ Hl Hlive _ _]%system_reachable_ok. pose proof Hl as [Hp _ _ Hb].
  assert (length (sys_visitors s) = length (live (sys_limits s))) as Hlen
    by (apply (f_equal length) in Hlive; rewrite length_fmap in Hlive; exact Hlive).
  split_and!; [lia|by rewrite Hlive|lia|]. intros i v Hi Hend. unfold sys_close. rewrite Hi. simpl.
  rewrite Hend. destruct (on_close_wf n i _ Hl) as (l & Hcl & _).
  rewrite Hcl. eexists. split_and!; [done..|]. simpl. unfold on_close in Hcl.
  rewrite <- Hlive, list_lookup_fmap, Hi in Hcl. simpl in Hcl.
  destruct (drop_permit _ _); [|done]. by injection Hcl as <-.
Qed.
End steps.

(** ** Progress *)

(** How far a task is from its end, and the probes left in a lookup. *)
Definition visit_rank (v : visit) : nat * nat :=
  match v with
  | Reading => (12, 0) | Parsed _ => (11, 0) | Accepting _ => (10, 0) | Handshaking _ => (9, 0)
  | Accepted _ _ _ => (8, 0) | Negotiated _ _ _ => (7, 0)
  | Routing _ _ _ ReadTerminated => (6, 0) | Routing _ _ _ ReadInner => (5, 0)
  | Routing _ _ _ FetchEntry => (4, 0) | Routing _ _ _ (Probing k) => (3, S k)
  | Routing _ _ _ (Returned _) => (3, 0) | Opening _ _ _ => (2, 0)
  | Piping _ _ _ | Http _ _ _ _ | Writing502 => (1, 0) | Ended => (0, 0)
  end.

(** The events that need neither the visitor nor a backend: steps of the server
    itself, and timeouts. *)
Definition unaided (ev : visit_ev H) : bool :=
  match ev with
  | Go | Access _ | HelloTimedOut | AcceptTimedOut | Connect DialTimeout => true
  | _ => false
  end.

(** The waits without a timeout: the rest of the TLS handshake, a stream of the
    tunnel, and the service itself (while no request of it is in a lookup). *)
Definition unbounded_wait (v : visit) : bool :=
  match v with
  | Handshaking _ | Opening _ _ (Tunnel _) | Piping _ _ _ | Writing502 => true
  | Http _ _ _ calls => forallb returned calls
  | _ => false
  end.

(** The events of the requests of an HTTP connection. *)
Definition of_request (ev : visit_ev H) : bool :=
  match ev with Incoming | Access _ | Answer _ _ _ => true | _ => false end.

Lemma access_rank sni plain offload ph w :
  match (world_access sni ph w).1 with
  | Returned _ => True
  | ph' => returned ph = false → rank_lt (visit_rank (Routing sni plain offload ph')) (visit_rank (Routing sni plain offload ph))
  end.
Proof.
  unfold world_access, rank_lt. destruct ph as [| | |[|k]|r]; cbn [lookup_step];
    repeat case_match; simplify_eq/=; try done; intros _; lia.
Qed.

Lemma on_route_rank sni plain offload ph r :
  rank_lt (visit_rank (on_route sni plain offload r)) (visit_rank (Routing sni plain offload ph)).
Proof. unfold rank_lt. destruct r, plain, offload, ph; simpl; lia. Qed.

Lemma not_all_returned calls :
  forallb returned calls = false → ∃ i ph, calls !! i = Some ph ∧ returned ph = false.
Proof.
  induction calls as [|ph calls IH]; [done|]. simpl. destruct (returned ph) eqn:E.
  - intros (i & ph' & Hi & Hr)%IH. by exists (S i), ph'.
  - intros _. by exists 0, ph.
Qed.

(** C24: connections make progress.  Each step of a task brings it nearer to its
    end (its rank, lexicographic, decreases), but for the steps of the requests of
    an HTTP connection, which leave it one; and a task that has not ended always
    has a step of its own or a timeout to take, except in the rest of the TLS
    handshake, while a tunnel stream opens, and while it serves. *)
Theorem visit_progress peer w v :
  (∀ ev v' w' d, visit_step peer w v ev = Some (v', w', d) →
     rank_lt (visit_rank v') (visit_rank v) ∨
     of_request ev = true ∧ ∃ sni h2 client calls calls', v = Http sni h2 client calls ∧ v' = Http sni h2 client calls') ∧
  (v ≠ Ended → unbounded_wait v = false → ∃ ev, unaided ev = true ∧ is_Some (visit_step peer w v ev)).
Proof.
  split.
  - intros ev v' w' d Hs. destruct v; destruct ev; cbn [visit_step] in Hs; try done;
      try (injection Hs as <- <- <-; left; unfold rank_lt; simpl; lia); try (by destruct route).
    + destruct (parse_sni _); injection Hs as <- <- <-; left; unfold rank_lt; simpl; lia.
    + injection Hs as <- <- <-. left. unfold rank_lt. destruct (is_terminated _ _); simpl; lia.
    + injection Hs as <- <- <-. left. unfold rank_lt. repeat case_match; simpl; lia.
    + injection Hs as <- <- <-. left. unfold rank_lt. destruct (_ && _); simpl; lia.
    + left. pose proof (access_rank sni plain offload ph w) as Hr.
      destruct ph as [| | |k|r]; [..|injection Hs as <- <- <-; apply on_route_rank];
        destruct (world_access _ _ _) as [ph' w1]; injection Hs as <- <- <-; simpl in Hr;
        (destruct ph'; [by apply Hr..|apply on_route_rank]).
    + destruct route; [|done]. injection Hs as <- <- <-. left. unfold rank_lt. simpl. lia.
    + destruct route; [|done]. injection Hs as <- <- <-. left. unfold rank_lt. simpl. lia.
    + destruct route; [done|]. injection Hs as <- <- <-. left. unfold dispatch_local, rank_lt.
      destruct (connect_upstream _); simpl; lia.
    + destruct (_ || _); [|done]. injection Hs as <- <- <-. right. eauto 10.
    + destruct (calls !! call) as [ph|]; [|done]. destruct (returned ph); [done|].
      destruct (world_access _ _ _) as [ph' w1]. injection Hs as <- <- <-. right. eauto 10.
    + destruct (calls !! call) as [[| | | |r]|]; try done. injection Hs as <- <- <-.
      destruct (after_answer_cases sni h2 client (delete call calls) req
        ((if h2 then serve_h2 else serve_h1) peer sni client r env req)) as [->| ->].
      * left. unfold rank_lt. simpl. lia.
      * right. split; [done|]. by do 5 eexists.
    + destruct (forallb _ _); [|done]. injection Hs as <- <- <-. left. unfold rank_lt. simpl. lia.
  - intros Hne Hw. destruct v as [| | | | | | |sni plain [e|target]| |sni h2 client calls| |]; try done.
    + exists HelloTimedOut. by split; [|eexists].
    + exists Go. by split; [|eexists].
    + exists AcceptTimedOut. by split; [|eexists].
    + exists Go. by split; [|eexists].
    + exists Go. by split; [|eexists].
    + exists Go. split; [done|]. cbn [visit_step]. destruct (world_access _ _ _). by eexists.
    + exists (Connect DialTimeout). by split; [|eexists].
    + apply not_all_returned in Hw as (i & ph & Hi & Hr). exists (Access i). split; [done|].
      cbn [visit_step]. rewrite Hi, Hr. destruct (world_access _ _ _). by eexists.
Qed.

(** The handshake itself has no timeout: [TLS_ACCEPT_TIMEOUT] covers the acceptor,
    which reads the ClientHello that was already received; a client that sends a
    ClientHello and then nothing stays in the handshake, with its permits. *)
Example handshake_unbounded peer w sni ev :
  unaided ev = true → visit_step peer w (Handshaking sni) ev = None.
Proof. by destruct ev. Qed.

End system.

(** ** Witnesses *)

Definition demo_tls_any : PublicTls := PublicTls_new false Any.
Definition demo_visit (i : nat) (ev : visit_ev (gmap string (list string))) (s : System) : option System :=
  sys_visit demo_parse_ip demo_show_ip demo_parse_uri Some demo_tls_any "oops" i ev s.
Definition demo_sys_step : System → System → Prop :=
  sys_step demo_parse_ip demo_show_ip demo_parse_uri Some demo_tls_any "oops" demo_config.

Definition demo_visitor_ip : IpAddr := V4 0xC0000201.

(** A visitor of a host that a wildcard upstream serves, without ALPN: it is
    reverse-proxied, sends a request and leaves. *)
Definition demo_visit_events : list (visit_ev (gmap string (list string))) :=
  [HelloRead (demo_hello "New.example.com"); Go; AcceptDone; HandshakeDone None false; Go; Go;
   Incoming; Access 0; Access 0; Answer 0 demo_env demo_request; Over].

Definition demo_accepted : System := sys_accept demo_show_ip demo_visitor_ip (start_system demo_config 20).

Fixpoint demo_run (evs : list (visit_ev (gmap string (list string)))) (s : System) : option System :=
  match evs with
  | [] => Some s
  | ev :: evs => s ← demo_visit 0 ev s; demo_run evs s
  end.

Definition demo_system (n : nat) : System := default demo_accepted (demo_run (take n demo_visit_events) demo_accepted).

Lemma demo_run_steps evs s s' :
  Forall (visit_ev_ok demo_tls_any) evs → demo_run evs s = Some s' → rtc demo_sys_step s s'.
Proof.
  intros Hok. revert s. induction Hok as [|ev evs Hev _ IH]; intros s; simpl; [intros [= <-]; apply rtc_refl|].
  destruct (demo_visit 0 ev s) as [s1|] eqn:Hs; [|done]. simpl. intros Hr.
  eapply rtc_l; [by apply SysPublic, (SysVisit _ _ _ _ _ _ 0 ev)|]. by apply IH.
Qed.

Lemma demo_system_reachable n :
  is_some (demo_run (take n demo_visit_events) demo_accepted) = true →
  sys_reachable demo_parse_ip demo_show_ip demo_parse_uri Some demo_tls_any "oops" demo_config 20 (demo_system n).
Proof.
  intros [s' Hs']%is_some_spec. eapply rtc_l; [by apply SysPublic, (SysAccept _ _ _ _ _ _ demo_visitor_ip)|].
  apply (demo_run_steps (take n demo_visit_events)).
  - apply Forall_take. by repeat constructor.
  - unfold demo_system. change (sys_accept _ _ _) with demo_accepted. by rewrite Hs'.
Qed.

Definition demo_served_visitor : visitor :=
  default (new_visitor demo_visitor_ip) (sys_visitors (demo_system 10) !! 0).

Example demo_logged : v_log demo_served_visitor = [("New.example.com", ToPool (Tcp "127.0.0.1:8443"))].
Proof. vm_compute. reflexivity. Qed.

Lemma visitors_as_configured_witness :
  configured demo_config "New.example.com" (ToPool (Tcp "127.0.0.1:8443")).
Proof.
  apply (visitors_as_configured demo_parse_ip demo_show_ip demo_parse_uri Some demo_tls_any "oops" demo_config 20
    (demo_system 10)) with (v := demo_served_visitor).
  - apply demo_system_reachable. vm_compute. reflexivity.
  - apply (list_elem_of_lookup_2 _ 0). vm_compute. reflexivity.
  - rewrite demo_logged. left.
Defined.

Lemma visitors_bounded_witness :
  ∃ s', sys_close 0 (demo_system 11) = Some s' ∧ sys_visitors s' = [].
Proof.
  destruct (visitors_bounded demo_parse_ip demo_show_ip demo_parse_uri Some demo_tls_any "oops" demo_config 20
    (demo_system 11)) as (_ & _ & _ & Hclose); [apply demo_system_reachable; vm_compute; reflexivity|].
  destruct (Hclose 0 (default demo_served_visitor (sys_visitors (demo_system 11) !! 0))) as (s' & Hs' & Hv & _);
    [vm_compute; reflexivity..|].
  exists s'. split; [exact Hs'|]. rewrite Hv. vm_compute. reflexivity.
Defined.

Lemma visit_progress_witness :
  ∃ ev : visit_ev (gmap string (list string)), unaided ev = true ∧
    is_Some (visit_step demo_parse_ip demo_show_ip demo_parse_uri Some demo_tls_any "oops" demo_visitor_ip
      (start_world demo_config) (Accepting "a.example.com") ev).
Proof.
  apply (visit_progress demo_parse_ip demo_show_ip demo_parse_uri Some demo_tls_any "oops" demo_visitor_ip
    (start_world demo_config) (Accepting "a.example.com")); [discriminate|reflexivity].
Defined.

(** ** Upgraded connections are not counted *)

Definition upgrade_req : Request (gmap string (list string)) :=
  {| method := GET; uri := {| authority := None; path_and_query := Some "/ws" |}; version := HTTP_11;
     req_headers := {[UPGRADE := ["websocket"]]}; protocol := None; has_body := false |}.
Definition upgrade_env : backend_env (gmap string (list string)) :=
  {| opens := true; handshakes := true;
     answer := Some {| status := 101; resp_headers := {[UPGRADE := ["websocket"]]}; body := BackendBody |};
     upgrades := true |}.

(** An HTTP/1.1 visitor that is upgraded. *)
Definition upgrade_events : list (visit_ev (gmap string (list string))) :=
  [HelloRead (demo_hello "New.example.com"); Go; AcceptDone; HandshakeDone (Some ALPN_H1) false; Go; Go;
   Incoming; Access 0; Access 0; Answer 0 upgrade_env upgrade_req].

(** A server with these upgraded connections, and no other. *)
Definition spliced_system (l : list spliced) : System :=
  {| sys_world := start_world demo_config; sys_limits := accept_init 20; sys_visitors := [];
     sys_spliced := l; sys_accepting := true |}.

Definition upgraded_visitor : spliced :=
  {| sp_peer := demo_visitor_ip; sp_sni := "New.example.com"; sp_dest := ToLocal (Tcp "127.0.0.1:8443") |}.

Lemma one_more_spliced l : rtc demo_sys_step (spliced_system l) (spliced_system (upgraded_visitor :: l)).
Proof.
  eapply rtc_l; [by apply SysPublic, (SysAccept _ _ _ _ _ _ demo_visitor_ip)|].
  set (s0 := sys_accept _ _ _).
  destruct (demo_run upgrade_events s0) as [s1|] eqn:Hrun; [|by vm_compute in Hrun].
  etrans; [by apply (demo_run_steps upgrade_events s0 s1); [repeat constructor|]|].
  apply rtc_once, SysPublic, (SysClose _ _ _ _ _ _ 0).
  assert (Hclose : (s ← demo_run upgrade_events s0; sys_close 0 s) = Some (spliced_system (upgraded_visitor :: l)))
    by (vm_compute; reflexivity).
  rewrite Hrun in Hclose. exact Hclose.
Qed.

(** The caps on connections do not bound the upgraded ones: with 20 permits, any
    number of them is spliced at the same time, no task running and every permit
    free. *)
Theorem splices_unbounded k :
  ∃ s, sys_reachable demo_parse_ip demo_show_ip demo_parse_uri Some demo_tls_any "oops" demo_config 20 s ∧
    length (sys_spliced s) = k ∧ sys_visitors s = [] ∧ permits (sys_limits s) = 20.
Proof.
  exists (spliced_system (replicate k upgraded_visitor)).
  split; [|split; [apply length_replicate|done]]. unfold sys_reachable.
  change (start_system demo_config 20) with (spliced_system (replicate 0 upgraded_visitor)).
  induction k as [|k IH]; [apply rtc_refl|]. etrans; [exact IH|apply one_more_spliced].
Qed.
