(* ===== verification/Dynamic.v ===== *)
(** * The system with any backend

    [System] with a caller-provided [RoutingBackend] ([TunnelServer::start_with] of
    [crates/tuyau-server/src/server.rs]): grants, revocations and the set of
    terminated hosts change while visitors come and go.  The configuration does not
    say any more who owns a tunnel host; the grants do.

    To speak of a session after its handler has forgotten it, the system is run with
    a history variable: the sessions that were ever granted, by connection. *)

From S2P Require Import Prelude Bytes Sni Stream Protocol Config Routes Lookups Limits Backend Control.
From S2P Require Import Server LocalPool H2proxy Public System.

Local Open Scope string_scope.
Local Open Scope list_scope.

(** The sessions of the handlers. *)
Definition sessions (w : World) : gmap Connection Session :=
  omap (session_of ∘ h_phase) (handlers w).

Lemma sessions_Some w c s :
  sessions w !! c = Some s ↔ ∃ h, handlers w !! c = Some h ∧ session_of (h_phase h) = Some s.
Proof. unfold sessions. rewrite lookup_omap. destruct (handlers w !! c); simpl; naive_solver. Qed.

(** ** A session is kept until the handler finishes *)

Lemma handle_session c ev w w' :
  handle c ev w = Some w' →
  ∃ h h', handlers w !! c = Some h ∧ handlers w' = <[c := h']> (handlers w) ∧ h_phase h ≠ Finished ∧
    ∀ s, session_of (h_phase h) = Some s → session_of (h_phase h') = Some s ∨ h_phase h' = Finished.
Proof.
  unfold handle. destruct (handlers w !! c) as [[peer ph]|]; [|done]. cbn [mbind option_bind h_peer h_phase].
  destruct ph, ev; try done; intros Hs; try (case_match; try done); simplify_eq/=;
    try (case_decide; simplify_eq/=);
    (eexists _, _; split; [done|split; [reflexivity|split; [done|]]]); naive_solver.
Qed.

Lemma host_patterns_self host : host ∈ host_patterns host.
Proof. unfold host_patterns. destruct (split_once _ _) as [[]|]; simpl; set_solver. Qed.

Section dynamic.
Context {H : Type} `{HeaderMapLaws H}.
Context (parse_ip : string → option IpAddr) (show_ip : IpAddr → string).
Context (parse_uri : string → option Uri) (parse_value : string → option string).
Context (tls : PublicTls) (html : string).
Context {B : Type} `{RoutingBackend B} (b : B) (cfg : ServerConfig).

Record dynamic_system := {
  dy_system : System;
  dy_granted : gmap Connection Session
}.

Inductive dynamic_step : dynamic_system → dynamic_system → Prop :=
| DynWorld s granted w' :
    step b (sys_world s) w' → lock_respected s w' →
    dynamic_step {| dy_system := s; dy_granted := granted |}
      {| dy_system := set_world w' s; dy_granted := sessions w' ∪ granted |}
| DynPublic s granted s' :
    public_step parse_ip show_ip parse_uri parse_value tls html s s' →
    dynamic_step {| dy_system := s; dy_granted := granted |} {| dy_system := s'; dy_granted := granted |}.

Definition dynamic_start (max_conns : nat) : dynamic_system :=
  {| dy_system := start_system cfg max_conns; dy_granted := ∅ |}.

Definition dynamic_reachable (max_conns : nat) (d : dynamic_system) : Prop :=
  rtc dynamic_step (dynamic_start max_conns) d.

(** ** What a destination must be *)

(** The connection's client presented a token the backend answered with a grant
    that names the host, in the name the host is routed under; the mode was granted
    too; the host is not a configured upstream's. *)
Definition authorized (granted : gmap Connection Session) (sni : string) (re : RouteEntry) : Prop :=
  (∃ s, granted !! re_conn re = Some s ∧ admits b (s_token s) (Some (s_grant s)) ∧
     cg_client_name (s_grant s) = re_client_name re ∧ sni ∈ (cg_hostnames (s_grant s)).*1) ∧
  (∃ token g, admits b token (Some g) ∧ cg_client_name g = re_client_name re ∧
     (sni, re_tls_mode re) ∈ cg_hostnames g) ∧
  local (config_table cfg) !! to_ascii_lowercase sni = None.

(** An upstream entry for the name or a pattern of it. *)
Definition fronted (sni : string) (target : UpstreamTarget) : Prop :=
  ∃ pattern up, pattern ∈ host_patterns (to_ascii_lowercase sni) ∧
    local (config_table cfg) !! pattern = Some up ∧ lu_target up = target.

Definition allowed (granted : gmap Connection Session) (sni : string) (d : Destination) : Prop :=
  match d with
  | ToTunnel re => authorized granted sni re
  | ToPool target | ToLocal target => fronted sni target
  end.

(** ** The invariant *)

Record world_ok (w : World) (granted : gmap Connection Session) : Prop := {
  wo_inv : inv b w;
  wo_config : same_config (config_table cfg) (routes w);
  wo_current : ∀ c s, sessions w !! c = Some s → granted !! c = Some s;
  wo_past : ∀ c s, granted !! c = Some s →
    ∃ h, handlers w !! c = Some h ∧ (session_of (h_phase h) = Some s ∨ h_phase h = Finished)
}.

(** What a lookup under way has found out. *)
Definition look_allowed (granted : gmap Connection Session) (sni : string) (ph : lookup_phase) : Prop :=
  match ph with
  | ReadTerminated => True
  | ReadInner | FetchEntry | Probing _ => local (config_table cfg) !! to_ascii_lowercase sni = None
  | Returned r => ∀ route, r = PSome route → allowed granted sni (dest_of route)
  end.

Definition visit_allowed (granted : gmap Connection Session) (v : visit) : Prop :=
  match v with
  | Routing sni _ _ ph => look_allowed granted sni ph
  | Http sni _ _ calls => Forall (look_allowed granted sni) calls
  | Opening sni _ route | Piping sni _ route => allowed granted sni (dest_of route)
  | _ => True
  end.

Definition visitor_allowed (granted : gmap Connection Session) (v : visitor) : Prop :=
  visit_allowed granted (v_phase v) ∧ Forall (λ p, allowed granted p.1 p.2) (v_log v).

Definition dynamic_ok (d : dynamic_system) : Prop :=
  world_ok (sys_world (dy_system d)) (dy_granted d) ∧
  Forall (visitor_allowed (dy_granted d)) (sys_visitors (dy_system d)) ∧
  Forall (λ sp, allowed (dy_granted d) (sp_sni sp) (sp_dest sp)) (sys_spliced (dy_system d)).

Lemma allowed_mono g g' sni d :
  (∀ c s, g !! c = Some s → g' !! c = Some s) → allowed g sni d → allowed g' sni d.
Proof.
  intros Hg. destruct d as [re| |]; [|done..]. intros [(s & Hs & ?) ?]. split; [|done].
  exists s. split; [by apply Hg|done].
Qed.

Lemma look_allowed_mono g g' sni ph :
  (∀ c s, g !! c = Some s → g' !! c = Some s) → look_allowed g sni ph → look_allowed g' sni ph.
Proof. intros Hg. destruct ph; try done. intros Hl route Hr. by eapply allowed_mono, Hl. Qed.

Lemma visitor_allowed_mono g g' v :
  (∀ c s, g !! c = Some s → g' !! c = Some s) → visitor_allowed g v → visitor_allowed g' v.
Proof.
  intros Hg [Hp Hl]. split.
  - destruct (v_phase v); try done; try (by eapply allowed_mono); [by eapply look_allowed_mono|].
    eapply Forall_impl; [exact Hp|]. intros ph. by apply look_allowed_mono.
  - eapply Forall_impl; [exact Hl|]. intros [sni d]. by apply allowed_mono.
Qed.

(** A step of the server changes one handler, or none. *)
Lemma step_handlers w w' :
  step b w w' →
  handlers w' = handlers w ∨
  (∃ c peer, handlers w !! c = None ∧ handlers w' = handlers (spawn c peer w)) ∨
  (∃ c ev, handle c ev w = Some w').
Proof.
  destruct 1 as [c peer w Hfresh|c ev w w' Hok Hh|c w|w|client w|c w Hc|full w|host ph w]; eauto 10.
  - left. unfold server_kick. by destruct (kick client (routes w)).
  - left. apply world_access_routes.
Qed.

(** The history only grows, and what it says of a handler stays true. *)
Lemma step_past w w' granted :
  step b w w' → world_ok w granted →
  (∀ c s, granted !! c = Some s →
    ∃ h, handlers w' !! c = Some h ∧ (session_of (h_phase h) = Some s ∨ h_phase h = Finished)).
Proof.
  intros Hs Hok c s (h & Hh & Hphase)%(wo_past _ _ Hok).
  destruct (step_handlers w w' Hs) as [Heq|[(c0 & peer & Hnone & Heq)|(c0 & ev & Hev)]].
  - exists h. by rewrite Heq.
  - exists h. rewrite Heq. simpl. rewrite lookup_insert_ne; [done|]. intros <-. congruence.
  - apply handle_session in Hev as (h0 & h' & Hh0 & Heq & Hfin & Hkeep). rewrite Heq.
    destruct (decide (c0 = c)) as [->|Hne]; [|rewrite lookup_insert_ne by done; by exists h].
    rewrite lookup_insert_eq. exists h'. split; [done|]. simplify_eq. destruct Hphase as [Hse|]; [|done].
    by apply Hkeep.
Qed.

Lemma granted_grows w w' granted :
  step b w w' → world_ok w granted →
  ∀ c s, granted !! c = Some s → (sessions w' ∪ granted) !! c = Some s.
Proof.
  intros Hs Hok c s Hg. destruct (step_past w w' granted Hs Hok c s Hg) as (h & Hh & Hphase).
  rewrite lookup_union_Some_raw. destruct (sessions w' !! c) as [s'|] eqn:E; [left|right; done].
  apply sessions_Some in E as (h' & Hh' & Hs'). simplify_eq. destruct Hphase as [Hse|Hfin]; [congruence|].
  by rewrite Hfin in Hs'.
Qed.

Lemma world_ok_step w w' granted :
  step b w w' → world_ok w granted → world_ok w' (sessions w' ∪ granted).
Proof.
  intros Hs Hok. pose proof Hok as [Hinv Hc _ _]. split.
  - by eapply inv_step.
  - eapply same_config_trans; [exact Hc|by eapply step_same_config].
  - intros c s Hse. by rewrite lookup_union_Some_raw, Hse; left.
  - intros c s [Hse|[_ Hg]]%lookup_union_Some_raw.
    + apply sessions_Some in Hse as (h & Hh & Hse). exists h. auto.
    + by eapply step_past.
Qed.

(** A lookup changes no handler. *)
Lemma world_ok_access sni ph w granted : world_ok w granted → world_ok (world_access sni ph w).2 granted.
Proof.
  intros Hok. pose proof Hok as [Hinv Hc Hcur Hpast].
  destruct (world_access_routes sni ph w) as (_ & Heq & _).
  assert (step b w (world_access sni ph w).2) as Hs by apply LookupAccess.
  split.
  - by eapply inv_step.
  - eapply same_config_trans; [exact Hc|by eapply step_same_config].
  - unfold sessions. rewrite Heq. exact Hcur.
  - rewrite Heq. exact Hpast.
Qed.

(** A connection in the table is authorised for its host. *)
Lemma routed_authorized w granted sni e conn :
  world_ok w granted → inner (routes w) !! sni = Some e → conn ∈ hr_conns e →
  local (config_table cfg) !! to_ascii_lowercase sni = None →
  authorized granted sni {| re_client_name := hr_client_name e; re_tls_mode := hr_tls_mode e; re_conn := conn |}.
Proof.
  intros [Hinv _ Hcur _] He Hin Hl.
  destruct (wi_routed _ _ _ _ Hinv sni e conn) as (h & s & Hh & Hs & Hhost); [by split|].
  apply may_route_session in Hs. split_and!; simpl; [|by eapply wi_mode|done].
  exists s. split_and!; [|by eapply wi_admitted| |done].
  - apply Hcur, sessions_Some. eauto.
  - destruct (wi_table _ _ _ _ Hinv sni e He) as (_ & _ & Hown & _). rewrite <- (Hown conn Hin).
    unfold conn_owner. rewrite Hh. simpl. by rewrite Hs.
Qed.

(** A lookup under way keeps to what is allowed. *)
Lemma look_allowed_step w granted sni ph :
  world_ok w granted → look_allowed granted sni ph → look_allowed granted sni (world_access sni ph w).1.
Proof.
  intros Hok Hl. pose proof (wo_config _ _ Hok) as (Hloc & _).
  unfold world_access. destruct ph as [| | |[|k]|r]; cbn [lookup_step look_allowed] in *.
  - rewrite Hloc. destruct (local (config_table cfg) !! _) as [up|] eqn:Hup.
    { intros route [= <-]. eexists _, up. split_and!; [apply host_patterns_self|done..]. }
    by destruct (_ || _).
  - rewrite Hloc. destruct (is_some _); [done|]. destruct (find_map _ _) as [up|] eqn:Hm; [|done].
    intros route [= <-]. apply find_map_elem in Hm as (pattern & Hin & Hp). exists pattern, up.
    split_and!; [|done..]. rewrite <- (take_drop 1 (host_patterns _)). set_solver.
  - destruct (inner _ !! sni) as [e|]; [case_decide|]; done.
  - done.
  - destruct (inner _ !! sni) as [e|] eqn:He; [|done]. destruct (hr_conns e !! _) as [conn|] eqn:Hconn; [|done].
    destruct (is_closed w conn); cbn [fst look_allowed]; [done|]. intros route [= <-].
    eapply routed_authorized; [done..|by eapply list_elem_of_lookup_2|done].
  - done.
Qed.

Abbreviation visit_step := (visit_step parse_ip show_ip parse_uri parse_value tls html).

Lemma http_allowed granted env route req sni peer client d :
  look_allowed granted sni (Returned route) →
  sent_to (proxy_route parse_ip show_ip parse_uri parse_value env route req sni peer client html) = Some d →
  allowed granted sni d.
Proof.
  intros Hl Hd. destruct (proxy_route _ _ _ _ _ _ _ _ _ _ _) as [ex| | |] eqn:Hex; try done. simpl in Hd.
  destruct (sent ex) as [[d' q]|] eqn:Hs; [|done]. injection Hd as <-.
  destruct (proxy_route_carries _ _ _ _ _ _ _ _ _ _ _ _ _ _ Hex Hs) as [_ ->].
  specialize (Hl _ eq_refl). by destruct d'.
Qed.

(** A step of a task leaves the world as it is, or after a lookup of its name; and
    where it goes is allowed. *)
Lemma visit_step_allowed peer w granted v ev v' w' d :
  world_ok w granted → visit_allowed granted v → visit_step peer w v ev = Some (v', w', d) →
  world_ok w' granted ∧ visit_allowed granted v' ∧ (∀ x, d = Some x → allowed granted (sni_of v) x).
Proof.
  intros Hok Hv Hs. destruct v, ev; cbn [System.visit_step] in Hs; try done;
    try (injection Hs as <- <- <-; done); try (by destruct route).
  - destruct (parse_sni _); by injection Hs as <- <- <-.
  - injection Hs as <- <- <-. split_and!; [done| |done]. by case_match.
  - injection Hs as <- <- <-. split_and!; [done| |done]. repeat case_match; try done; constructor.
  - injection Hs as <- <- <-. split_and!; [done| |done]. repeat case_match; try done; constructor.
  - pose proof (world_ok_access sni ph w granted Hok) as Hok'.
    pose proof (look_allowed_step w granted sni ph Hok Hv) as Hl.
    destruct (world_access sni ph w) as [ph' w1]. injection Hs as <- <- <-. split_and!; [done| |done].
    destruct ph' as [| | | |r]; try done. simpl in Hl.
    destruct r as [route| | |]; simpl; [by apply Hl|by repeat case_match|done..].
  - destruct route; [|done]. injection Hs as <- <- <-. split_and!; [done..|]. by intros x [= <-].
  - destruct route; [|done]. by injection Hs as <- <- <-.
  - destruct route as [|target]; [done|]. injection Hs as <- <- <-. unfold dispatch_local.
    destruct (connect_upstream _); split_and!; try done. by intros x [= <-].
  - destruct (_ || _); [|done]. injection Hs as <- <- <-. split_and!; try done.
    apply Forall_app. by repeat constructor.
  - destruct (calls !! call) as [ph|] eqn:Hi; [|done]. destruct (returned ph); [done|].
    pose proof (world_ok_access sni ph w granted Hok) as Hok'.
    pose proof (look_allowed_step w granted sni ph Hok (proj1 (Forall_lookup _ _) Hv _ _ Hi)) as Hl.
    destruct (world_access sni ph w) as [ph' w1]. injection Hs as <- <- <-. split_and!; try done.
    by apply Forall_insert.
  - destruct (calls !! call) as [[| | | |r]|] eqn:Hi; try done. injection Hs as <- <- <-. split_and!; [done| |].
    + destruct (after_answer_cases sni h2 client (delete call calls) req
        ((if h2 then serve_h2 parse_ip show_ip parse_uri parse_value html
          else serve_h1 parse_ip show_ip parse_uri parse_value html) peer sni client r env req)) as [->| ->];
        [done|]. by apply Forall_delete.
    + intros x Hx. eapply http_allowed; [exact (proj1 (Forall_lookup _ _) Hv _ _ Hi)|]. destruct h2; exact Hx.
  - destruct (forallb _ _); [|done]. by injection Hs as <- <- <-.
Qed.

Lemma handed_allowed granted v ev ph d :
  (∀ x, d = Some x → allowed granted (sni_of (v_phase v)) x) →
  Forall (λ sp, allowed granted (sp_sni sp) (sp_dest sp)) (handed (H := H) v ev ph d).
Proof.
  intros Hd. unfold handed. destruct (v_phase v) as [| | | | | | | | |sni [|] client calls| |]; try constructor.
  destruct ev; try constructor. destruct ph; try constructor. destruct d as [x|]; [|constructor].
  constructor; [|constructor]. by apply Hd.
Qed.

Lemma public_step_ok s s' granted :
  public_step parse_ip show_ip parse_uri parse_value tls html s s' →
  dynamic_ok {| dy_system := s; dy_granted := granted |} →
  dynamic_ok {| dy_system := s'; dy_granted := granted |}.
Proof.
  destruct 1 as [peer s Hacc|s Hc|i ev s s' Hev Hs|i s s' Hs|i s]; intros (Hw & Hv & Hsp); simpl in *.
  - unfold sys_accept. destruct (on_accept _ _) as [l v]. split_and!; simpl; [done| |done].
    destruct v; simpl; try done. constructor; [|done]. split; [done|constructor].
  - by split_and!.
  - unfold sys_visit in Hs. destruct (sys_visitors s !! i) as [v|] eqn:Hi; [|done]. simpl in Hs.
    destruct (visit_step _ _ _ _) as [[[ph w] d]|] eqn:Hstep; [|done]. injection Hs as <-.
    pose proof (proj1 (Forall_lookup _ _) Hv i v Hi) as [Hphase Hlog].
    destruct (visit_step_allowed _ _ _ _ _ _ _ _ Hw Hphase Hstep) as (? & ? & Hd). split_and!; simpl; [done| |].
    + apply Forall_insert; [done|]. split; [done|]. simpl. apply Forall_app. split; [done|].
      destruct d as [x|]; [|constructor]. constructor; [by apply Hd|constructor].
    + apply Forall_app. split; [by apply handed_allowed|done].
  - unfold sys_close in Hs. destruct (sys_visitors s !! i) as [v|] eqn:Hi; [|done]. simpl in Hs.
    destruct (v_phase v); try done. destruct (on_close _ _); [|done]. injection Hs as <-.
    split_and!; simpl; [done| |done]. by apply Forall_delete.
  - split_and!; simpl; [done..|]. by apply Forall_delete.
Qed.

Lemma dynamic_step_ok d d' : dynamic_step d d' → dynamic_ok d → dynamic_ok d'.
Proof.
  destruct 1 as [s granted w' Hs _|s granted s' Hs]; [|by apply public_step_ok].
  intros (Hw & Hv & Hsp). pose proof (granted_grows (sys_world s) w' granted Hs Hw) as Hg.
  split_and!; simpl in *; [by eapply world_ok_step|..].
  - eapply Forall_impl; [exact Hv|]. intros v. by apply visitor_allowed_mono.
  - eapply Forall_impl; [exact Hsp|]. intros sp. by apply allowed_mono.
Qed.

Lemma dynamic_reachable_ok n d : dynamic_reachable n d → dynamic_ok d.
Proof.
  intros Hr. assert (dynamic_ok (dynamic_start n)) as Hok.
  { split_and!; [|constructor|constructor]. split; simpl; [apply inv_start|done| |done].
    intros c s (h & Hh & _)%sessions_Some. done. }
  induction Hr as [|d1 d2 d3 Hs _ IH]; [done|]. eauto using dynamic_step_ok.
Qed.

(** ** Theorem *)

(** C4: with any backend, a visitor only reaches who was granted its host.  In any
    interleaving of tunnels admitted, displaced, revoked and lost, of provisioned
    hosts and of visitors: whatever the bytes or requests of a visitor were ever
    sent to is the tunnel of a connection whose client presented a token that the
    backend answered with a grant of that very server name, under the client name
    and the TLS mode of the route (and the name is not one of a configured
    upstream: no grant takes such a host over); or the upstream of an entry for the
    name or a pattern of it.  So it is with the upgraded connections that outlived
    their tasks. *)
Theorem visitors_authorized n d :
  dynamic_reachable n d →
  (∀ v sni dest, v ∈ sys_visitors (dy_system d) → (sni, dest) ∈ v_log v → allowed (dy_granted d) sni dest) ∧
  (∀ sp, sp ∈ sys_spliced (dy_system d) → allowed (dy_granted d) (sp_sni sp) (sp_dest sp)).
Proof.
  intros (_ & Hv & Hsp)%dynamic_reachable_ok. split; [|by apply Forall_forall]. intros v sni dest Hin Hd.
  destruct (proj1 (Forall_forall _ _) Hv v Hin) as [_ Hlog].
  exact (proj1 (Forall_forall _ _) Hlog _ Hd).
Qed.
End dynamic.

(** ** Witness *)

Abbreviation demo_dynamic_step :=
  (dynamic_step demo_parse_ip demo_show_ip demo_parse_uri Some demo_tls_any "oops" demo_backend).

(** The steps of the server, with some history. *)
Lemma world_steps w w' s granted :
  sys_visitors s = [] → rtc (step demo_backend) w w' →
  ∃ granted', rtc demo_dynamic_step {| dy_system := set_world w s; dy_granted := granted |}
    {| dy_system := set_world w' s; dy_granted := granted' |}.
Proof.
  intros Hnone Hr. revert granted. induction Hr as [w|w1 w2 w3 Hs _ IH]; intros granted.
  - exists granted. apply rtc_refl.
  - destruct (IH (sessions w2 ∪ granted)) as [granted' Hr']. exists granted'.
    eapply rtc_l; [|exact Hr']. apply (DynWorld _ _ _ _ _ _ _ (set_world w1 s) granted w2); [done|].
    unfold lock_respected. simpl. by rewrite Hnone.
Qed.

(** The steps of visitor 0. *)
Lemma visit_steps evs s s' granted :
  Forall (visit_ev_ok demo_tls_any) evs → demo_run evs s = Some s' →
  rtc demo_dynamic_step {| dy_system := s; dy_granted := granted |} {| dy_system := s'; dy_granted := granted |}.
Proof.
  intros Hok. revert s. induction Hok as [|ev evs Hev _ IH]; intros s; simpl; [intros [= <-]; apply rtc_refl|].
  destruct (demo_visit 0 ev s) as [s1|] eqn:Hs; [|done]. simpl. intros Hr.
  eapply rtc_l; [by apply DynPublic, (SysVisit _ _ _ _ _ _ 0 ev)|]. by apply IH.
Qed.

(** A visitor of alice's host, over her tunnel. *)
Definition demo_tunnel_events : list (visit_ev (gmap string (list string))) :=
  [HelloRead (demo_hello "a.example.com"); Go; AcceptDone; HandshakeDone (Some ALPN_H1) false; Go; Go;
   Incoming; Access 0; Access 0; Access 0; Answer 0 demo_env demo_request].

Definition demo_tunnel_start : System :=
  sys_accept demo_show_ip demo_visitor_ip (set_world (demo_world 7) (start_system demo_config 20)).
Definition demo_tunnel_system : System := default demo_tunnel_start (demo_run demo_tunnel_events demo_tunnel_start).
Definition demo_tunnel_visitor : visitor :=
  default (new_visitor demo_visitor_ip) (sys_visitors demo_tunnel_system !! 0).

Definition demo_tunnel_route : RouteEntry :=
  {| re_client_name := "alice"; re_tls_mode := Terminated; re_conn := 1 |}.

Lemma demo_tunnel_reachable :
  ∃ granted, dynamic_reachable demo_parse_ip demo_show_ip demo_parse_uri Some demo_tls_any "oops" demo_backend
    demo_config 20 {| dy_system := demo_tunnel_system; dy_granted := granted |}.
Proof.
  destruct (world_steps (start_world demo_config) (demo_world 7) (start_system demo_config 20) ∅ eq_refl demo_reachable)
    as [granted Hr].
  exists granted. unfold dynamic_reachable. etrans; [exact Hr|].
  eapply rtc_l; [by apply DynPublic, (SysAccept _ _ _ _ _ _ demo_visitor_ip)|].
  apply (visit_steps demo_tunnel_events).
  - by repeat constructor.
  - vm_compute. reflexivity.
Qed.

Lemma visitors_authorized_witness :
  ∃ granted, authorized demo_backend demo_config granted "a.example.com" demo_tunnel_route.
Proof.
  destruct demo_tunnel_reachable as [granted Hr]. exists granted.
  apply (visitors_authorized demo_parse_ip demo_show_ip demo_parse_uri Some demo_tls_any "oops" demo_backend
    demo_config 20 _ Hr) with (v := demo_tunnel_visitor) (dest := ToTunnel demo_tunnel_route).
  - apply (list_elem_of_lookup_2 _ 0). vm_compute. reflexivity.
  - assert (v_log demo_tunnel_visitor = [("a.example.com", ToTunnel demo_tunnel_route)]) as ->
      by (vm_compute; reflexivity).
    left.
Defined.
