(* ===== verification/Availability.v ===== *)
(** * A served host is reachable

    [crates/tuyau-server/src/public.rs] ([handle_public]), [h2proxy.rs] ([proxy]) and
    [server.rs] together, seen from a visitor.  [System] and [Dynamic] say where a
    visitor may be sent; here, that it is sent somewhere.  As long as the tunnel of a
    client is being served and the tunnels of its host are open, a visitor that names
    one of the hosts it was granted reaches a live tunnel of that host, or the local
    upstream that fronts it, in at most twelve steps of its task, whatever the other
    tasks do in between, also between two accesses of its lookup.

    The network is favourable to the visitor: its ClientHello arrives, its TLS
    handshake completes, streams and connections open, and over HTTP it sends an
    ordinary request. *)

From S2P Require Import Prelude Bytes Sni Stream Protocol Config Routes Lookups Limits Backend Control.
From S2P Require Import Server LocalPool H2proxy Public System Dynamic.

Local Open Scope string_scope.
Local Open Scope list_scope.
Local Open Scope nat_scope.

Section availability.
Context {H : Type} `{HeaderMapLaws H}.
Context (parse_ip : string → option IpAddr) (show_ip : IpAddr → string).
Context (parse_uri : string → option Uri) (parse_value : string → option string).
Context (host_part : string → string) `{!UriLaws parse_uri host_part}.
Context (tls : PublicTls) (html : string).
Context {B : Type} `{RoutingBackend B} (b : B) (cfg : ServerConfig).

Abbreviation task_step := (visit_step parse_ip show_ip parse_uri parse_value tls html).

(** ** The worlds of the dynamic system are those of the tunnel side *)

Lemma task_step_world peer w v ev v' w' d :
  task_step peer w v ev = Some (v', w', d) → w' = w ∨ ∃ host ph, w' = (world_access host ph w).2.
Proof.
  destruct v, ev; cbn [visit_step]; try done; try (intros Hs; simplify_eq; by left); try (by destruct route).
  - destruct (parse_sni _); intros; simplify_eq; by left.
  - destruct (world_access sni ph w) as [ph' w1] eqn:Hl. intros. simplify_eq. right. exists sni, ph. by rewrite Hl.
  - destruct route; [|done]. intros; simplify_eq; by left.
  - destruct route; [|done]. intros; simplify_eq; by left.
  - destruct route; [done|]. intros; simplify_eq; by left.
  - destruct (_ || _); [|done]. intros; simplify_eq; by left.
  - destruct (calls !! call) as [ph|]; [|done]. destruct (returned ph); [done|].
    destruct (world_access sni ph w) as [ph' w1] eqn:Hl. intros. simplify_eq. right. exists sni, ph. by rewrite Hl.
  - destruct (calls !! call) as [[| | | |r]|]; try done. intros; simplify_eq; by left.
  - destruct (forallb _ _); [|done]. intros; simplify_eq; by left.
Qed.

Lemma public_step_world s s' :
  public_step parse_ip show_ip parse_uri parse_value tls html s s' → rtc (step b) (sys_world s) (sys_world s').
Proof.
  destruct 1 as [peer s _|s _|i ev s s' _ Hv|i s s' Hc|i s].
  - unfold sys_accept. by destruct (on_accept _ _).
  - done.
  - unfold sys_visit in Hv. destruct (sys_visitors s !! i) as [v|]; [|done]. simpl in Hv.
    destruct (task_step _ _ _ _) as [[[ph w] d]|] eqn:Hs; [|done]. simplify_eq/=.
    destruct (task_step_world _ _ _ _ _ _ _ Hs) as [->|(host & ph' & ->)]; [done|]. apply rtc_once, LookupAccess.
  - unfold sys_close in Hc. destruct (sys_visitors s !! i) as [v|]; [|done]. simpl in Hc.
    destruct (v_phase v); try done. destruct (on_close _ _); [|done]. by simplify_eq/=.
  - done.
Qed.

Lemma dynamic_world n d :
  dynamic_reachable parse_ip show_ip parse_uri parse_value tls html b cfg n d →
  reachable_world b cfg (sys_world (dy_system d)).
Proof.
  unfold dynamic_reachable, reachable_world. intros Hr.
  change (start_world cfg) with (sys_world (dy_system (dynamic_start cfg n))).
  induction Hr as [|d1 d2 d3 Hs _ IH]; [done|]. etrans; [|exact IH].
  destruct Hs as [s granted w' Hs _|s granted s' Hs]; simpl; [by apply rtc_once|by apply public_step_world].
Qed.

Lemma reachable_local w : reachable_world b cfg w → local (routes w) = local (config_table cfg).
Proof.
  intros Hr. assert (same_config (config_table cfg) (routes w)) as (Heq & _); [|done].
  assert (same_config (config_table cfg) (routes (start_world cfg))) as Hs by done.
  unfold reachable_world in Hr. induction Hr as [|w1 w2 w3 Hstep _ IH]; [done|]. apply IH.
  eapply same_config_trans; [exact Hs|by eapply step_same_config].
Qed.

(** ** A favourable network *)

Section visitor.
Context (hello : list byte) (alpn : option (list byte)) (cert : bool).
Context (env : backend_env H) (req : Request H).

(** What ends the wait of a task when nothing goes wrong. *)
Definition favourable (v : visit) : visit_ev H :=
  match v with
  | Reading => HelloRead hello
  | Parsed _ | Accepted _ _ _ | Negotiated _ _ _ | Routing _ _ _ _ => Go
  | Accepting _ => AcceptDone
  | Handshaking _ => HandshakeDone alpn cert
  | Opening _ _ (Tunnel _) => StreamOpen
  | Opening _ _ (Local_ _) => Connect Dialed
  | Http _ _ _ [] => Incoming
  | Http _ _ _ (Returned _ :: _) => Answer 0 env req
  | Http _ _ _ _ => Access 0
  | Piping _ _ _ | Writing502 | Ended => Over
  end.

(** The task run so, each step in the world of its moment: where it first sends
    something. *)
Fixpoint drive (peer : IpAddr) (ws : list World) (v : visit) : option Destination :=
  match ws with
  | [] => None
  | w :: ws =>
      match task_step peer w v (favourable v) with
      | Some (_, _, Some d) => Some d
      | Some (v', _, None) => drive peer ws v'
      | None => None
      end
  end.

(** The visitor: the handshake negotiates no protocol, or one that is not
    the ACME challenges', and shows a certificate if one is required; the backend
    can be reached; the request is an ordinary one, with a target in origin form,
    and the upstreams for the host are addresses or socket paths. *)
Record visitor_good (sni : string) : Prop := {
  vg_hello : parse_sni hello = PSome sni;
  vg_alpn : alpn ≠ Some ACME_TLS_ALPN_NAME;
  vg_cert : needs_client_cert tls = true → cert = true;
  vg_opens : opens env = true;
  vg_handshakes : handshakes env = true;
  vg_request : needs_own_connection req = false;
  vg_origin : origin_form (origin_of req);
  vg_targets : ∀ target, fronted cfg sni target → target_ok target
}.

(** ** A served host *)

(** Connection [c] is being served a session with [sni], nobody is closing it, and
    the connections the host is routed to are open. *)
Record served (c : Connection) (sni : string) (w : World) : Prop := {
  sv_reachable : reachable_world b cfg w;
  sv_serving : ∃ peer s, handlers w !! c = Some {| h_peer := peer; h_phase := Serving s |} ∧
    sni ∈ (cg_hostnames (s_grant s)).*1;
  sv_open : ¬ closing w c;
  sv_live : ∀ e conn, routed (routes w) sni e conn → conn ∉ closed w
}.

(** A destination of the host: a tunnel it is routed to, open, or an upstream for
    its name or a pattern of it. *)
Definition reaches (w : World) (sni : string) (d : Destination) : Prop :=
  match d with
  | ToTunnel re => (∃ e, routed (routes w) sni e (re_conn re)) ∧ (re_conn re ∉ closed w)
  | ToPool target | ToLocal target => fronted cfg sni target
  end.

(** ** The lookup gets there *)

Section worlds.
Context (W : list World) (c : Connection) (sni : string).
Context (Hserved : ∀ w, w ∈ W → served c sni w).

Definition arrived (d : Destination) : Prop := ∃ w, w ∈ W ∧ reaches w sni d.

(** What is known of a lookup under way, and how many accesses it has left. *)
Definition look_way (ph : lookup_phase) : Prop :=
  match ph with
  | Probing k => 0 < k
  | Returned r => ∃ route, r = PSome route ∧ arrived (dest_of route)
  | _ => True
  end.

Definition accesses (ph : lookup_phase) : nat :=
  match ph with ReadTerminated => 4 | ReadInner => 3 | FetchEntry => 2 | Probing _ => 1 | Returned _ => 0 end.

Lemma served_entry w : w ∈ W → ∃ e, inner (routes w) !! sni = Some e ∧ hr_conns e ≠ [].
Proof.
  intros Hw. destruct (Hserved w Hw) as [Hr (peer & s & Hh & Hin) Hopen _].
  destruct (open_routed_reachable b cfg w Hr c _ s sni Hh eq_refl Hin) as [(e & He & Hc)|]; [|done].
  exists e. split; [done|]. intros Hnil. rewrite Hnil in Hc. by apply not_elem_of_nil in Hc.
Qed.

(** The first probe finds a connection, whatever the cursor. *)
Lemma access_way w ph :
  w ∈ W → look_way ph → returned ph = false →
  look_way (world_access sni ph w).1 ∧ accesses (world_access sni ph w).1 < accesses ph.
Proof.
  intros Hw Hl Hret. pose proof (Hserved w Hw) as [Hr _ _ Hlive].
  destruct (served_entry w Hw) as (e & He & Hne).
  pose proof (reachable_local w Hr) as Hloc.
  unfold world_access. destruct ph as [| | |[|k]|r]; cbn [lookup_step look_way] in *; try done.
  - rewrite Hloc. destruct (local (config_table cfg) !! _) as [up|] eqn:Hup; [|destruct (_ || _); cbn; split; done || lia].
    cbn. split; [|lia]. eexists. split; [done|]. exists w. split; [done|]. eexists _, up.
    split_and!; [apply host_patterns_self|done..].
  - rewrite Hloc. destruct (is_some _); [cbn; split; done || lia|].
    destruct (find_map _ _) as [up|] eqn:Hm; cbn; [|split; done || lia]. split; [|lia].
    eexists. split; [done|]. exists w. split; [done|]. apply find_map_elem in Hm as (pattern & Hin & Hp). exists pattern, up.
    split_and!; [|done..]. rewrite <- (take_drop 1 (host_patterns _)). set_solver.
  - rewrite He. rewrite decide_False by (by destruct (hr_conns e)). cbn. split; [destruct (hr_conns e); [done|simpl; lia]|lia].
  - lia.
  - pose proof (wi_table _ _ _ _ (inv_reachable b cfg w Hr)) as Hwf.
    destruct (probe_step _ (is_closed w) sni (routes w) k e Hwf He) as (conn & Hconn & Hstep).
    cbn [lookup_step] in Hstep. rewrite Hstep. apply list_elem_of_lookup_2 in Hconn.
    assert (conn ∉ closed w) as Hopen by (by apply (Hlive e)).
    unfold is_closed. rewrite bool_decide_eq_false_2 by done. cbn. split; [|lia].
    eexists. split; [done|]. exists w. split; [done|]. split; [by exists e|done].
Qed.

(** An ordinary request is sent to what its lookup found. *)
Lemma proxy_sends peer client route :
  visitor_good sni → arrived (dest_of route) →
  ∃ d, sent_to (proxy_route parse_ip show_ip parse_uri parse_value env (PSome route) req sni peer client html)
      = Some d ∧ arrived d.
Proof.
  intros [_ _ _ Ho Hh Hn Hform Htargets] Ha. unfold proxy_route. set (r := with_headers _ req).
  assert (needs_own_connection r = false) as Hn'.
  { unfold needs_own_connection, contains_key, is_websocket_connect in *. simpl.
    by rewrite set_client_address_other. }
  destruct route as [entry|target]; [rewrite Ho|rewrite Hn'; cbn [negb]].
  - exists (ToTunnel entry). split; [|done]. unfold needs_own_connection in Hn'. unfold serve_request.
    destruct (is_websocket_connect r); [done|]. destruct (contains_key _ _); [done|].
    destruct (bool_decide (method r = CONNECT)); [done|]. unfold h1_roundtrip, exchange. by rewrite Hh.
  - exists (ToPool target). split; [|done].
    destruct Ha as (w & _ & Hf). destruct (send_reaches parse_uri host_part target
      (path_and_query (uri (downgrade_to_h1 parse_uri parse_value r sni)))) as (u & Hu & _).
    { by apply Htargets. }
    { unfold downgrade_to_h1. simpl. unfold origin_of in *. simpl in *. rewrite (parse_origin _ Hform). by intros q [= <-]. }
    unfold pooled_roundtrip. rewrite Hu. cbn [mbind partial_bind]. by rewrite Ho.
Qed.

(** ** The task gets there *)

(** What is known of the task on its way. *)
Definition on_the_way (v : visit) : Prop :=
  match v with
  | Reading => True
  | Parsed sni' | Accepting sni' | Handshaking sni' | Negotiated sni' _ _ => sni' = sni
  | Accepted sni' alpn' cert' => sni' = sni ∧ alpn' = alpn ∧ cert' = cert
  | Routing sni' _ _ ph => sni' = sni ∧ returned ph = false ∧ look_way ph
  | Opening sni' _ route => sni' = sni ∧ arrived (dest_of route)
  | Http sni' _ _ calls => sni' = sni ∧ (calls = [] ∨ ∃ ph, calls = [ph] ∧ look_way ph)
  | Piping _ _ _ | Writing502 | Ended => False
  end.

Definition steps_to_go (v : visit) : nat :=
  match v with
  | Reading => 12 | Parsed _ => 11 | Accepting _ => 10 | Handshaking _ => 9 | Accepted _ _ _ => 8
  | Negotiated _ _ _ => 7 | Routing _ _ _ ph => S (accesses ph) | Opening _ _ _ => 1
  | Http _ _ _ [] => 6 | Http _ _ _ (ph :: _) => S (accesses ph)
  | Piping _ _ _ | Writing502 | Ended => 0
  end.

Definition step_arrives (peer : IpAddr) (w : World) (v : visit) : Prop :=
  ∃ v' w' o, task_step peer w v (favourable v) = Some (v', w', o) ∧
    match o with
    | Some d => arrived d
    | None => on_the_way v' ∧ steps_to_go v' < steps_to_go v
    end.

Lemma http_step peer w h2 client calls :
  visitor_good sni → w ∈ W → on_the_way (Http sni h2 client calls) →
  step_arrives peer w (Http sni h2 client calls).
Proof.
  intros Hg Hw [_ [->|(ph & -> & Hl)]].
  { do 3 eexists. split; [cbn [favourable visit_step is_nil]; rewrite orb_true_r; reflexivity|].
    split; [|simpl; lia]. split; [done|]. right. by exists ReadTerminated. }
  destruct (returned ph) eqn:Hret.
  - destruct ph as [| | | |r]; try done. destruct Hl as (route & -> & Ha).
    destruct (proxy_sends peer client route Hg Ha) as (d & Hd & Hd').
    do 3 eexists. split; [reflexivity|]. unfold serve_h2, serve_h1. destruct h2; by rewrite Hd.
  - destruct (access_way w ph Hw Hl Hret) as [Hl' Hlt]. destruct (world_access sni ph w) as [ph' w'] eqn:Hacc.
    exists (Http sni h2 client [ph']), w', None. split.
    + assert (favourable (Http sni h2 client [ph]) = Access 0) as -> by (by destruct ph).
      cbn [visit_step]. change ([ph] !! 0) with (Some ph). cbn iota beta. by rewrite Hret, Hacc.
    + split; [|simpl in *; lia]. split; [done|]. right. by exists ph'.
Qed.

Lemma favourable_step peer w v :
  visitor_good sni → w ∈ W → on_the_way v → step_arrives peer w v.
Proof.
  intros Hg Hw Hv. pose proof Hg as [Hhello Hacme Hcert _ _ _ _ _].
  destruct v as [|s|s|s|s a ct|s a off|s plain off ph|s plain route|s plain route|s h2 client calls| |]; try done;
    cbn [on_the_way] in Hv.
  - exists (Parsed sni), w, None. cbn [favourable visit_step]. rewrite Hhello. split; [reflexivity|]. simpl. split; [done|lia].
  - subst s. do 3 eexists. split; [reflexivity|]. destruct (is_terminated _ _); simpl; split_and!; done || lia.
  - subst s. do 3 eexists. split; [reflexivity|]. simpl. split; [done|lia].
  - subst s. do 3 eexists. split; [reflexivity|]. simpl. split; [done|lia].
  - destruct Hv as (-> & -> & ->). do 3 eexists. split; [reflexivity|]. rewrite bool_decide_false by done.
    assert (needs_client_cert tls && negb cert = false) as ->
      by (destruct (needs_client_cert tls); [by rewrite Hcert|done]).
    cbv zeta. destruct (negb (is_offload _ _) && _); simpl; split; try done; try lia. by auto.
  - subst s. do 3 eexists. split; [reflexivity|]. cbv zeta.
    destruct (negb off && _); simpl; split; try done; try lia. by auto.
  - destruct Hv as (-> & Hret & Hl). destruct (access_way w ph Hw Hl Hret) as [Hl' Hlt].
    unfold step_arrives. cbn [favourable visit_step]. destruct (world_access sni ph w) as [ph' w'].
    do 3 eexists. split; [reflexivity|]. cbn [fst] in *. destruct ph' as [| | |k|r]; try (simpl in *; split_and!; done || lia).
    destruct Hl' as (route & -> & Ha). simpl in *. split; [done|]. lia.
  - destruct Hv as (-> & Hr). destruct route; do 3 eexists; (split; [reflexivity|]); exact Hr.
  - destruct Hv as [-> Hv]. by apply http_step.
Qed.

Lemma drive_arrives peer ws v :
  visitor_good sni → (∀ w, w ∈ ws → w ∈ W) → on_the_way v → steps_to_go v <= length ws →
  ∃ d, drive peer ws v = Some d ∧ arrived d.
Proof.
  intros Hg. revert v. induction ws as [|w ws IH]; intros v Hws Hv Hlen.
  { destruct v as [| | | | | | | | |? ? ? [|]| |]; try done; simpl in Hlen; lia. }
  destruct (favourable_step peer w v Hg (Hws w (list_elem_of_here _ _)) Hv) as (v' & w' & o & Hs & Ho).
  cbn [drive]. rewrite Hs.
  destruct o as [d|]; [eauto|]. destruct Ho as [Hv' Hlt].
  apply IH; [|done|simpl in Hlen; lia]. intros w0 Hw0. apply Hws. by right.
Qed.
End worlds.

End visitor.
End availability.

(** ** Witness *)

Lemma demo_served : served demo_backend demo_config 1 "a.example.com" (demo_world 7).
Proof.
  split.
  - exact demo_reachable.
  - exists "10.0.0.9:4433", demo_session. split; [exact demo_serving|left].
  - intros [Hc|[Hc|(c' & peer & s & l & Hh & Hc)]].
    + apply (bool_decide_eq_true_2 _) in Hc. vm_compute in Hc. discriminate.
    + apply (bool_decide_eq_true_2 _) in Hc. vm_compute in Hc. discriminate.
    + assert (bool_decide (map_Forall (λ _ h, to_close (h_phase h) = []) (handlers (demo_world 7))) = true) as Hall
        by (vm_compute; reflexivity).
      apply bool_decide_eq_true in Hall. specialize (Hall c' _ Hh). simpl in Hall. subst l. by apply not_elem_of_nil in Hc.
  - intros e conn [He Hin].
    assert (inner (routes (demo_world 7)) !! "a.example.com" = Some demo_route) as Heq by (vm_compute; reflexivity).
    rewrite Heq in He. injection He as <-. apply list_elem_of_singleton in Hin as ->.
    intros Hc. apply (bool_decide_eq_true_2 _) in Hc. vm_compute in Hc. discriminate.
Qed.

Lemma demo_good :
  visitor_good demo_parse_uri demo_host_part demo_tls_any demo_config (demo_hello "a.example.com") (Some ALPN_H1) false
    demo_env demo_request "a.example.com".
Proof.
  split; try (vm_compute; reflexivity); try done.
  intros target (pattern & up & _ & Hl & <-).
  assert (local (config_table demo_config) =
    {["*.example.com" := {| lu_target := Tcp "127.0.0.1:8443"; lu_tls_mode := Terminated |}]}) as Heq
    by (vm_compute; reflexivity).
  rewrite Heq in Hl. apply lookup_singleton_Some in Hl as [_ <-]. split; [discriminate|reflexivity].
Qed.


Example demo_driven :
  drive demo_parse_ip demo_show_ip demo_parse_uri Some demo_tls_any "oops" (demo_hello "a.example.com")
    (Some ALPN_H1) false demo_env demo_request demo_visitor_ip (replicate 12 (demo_world 7)) Reading
  = Some (ToTunnel demo_tunnel_route).
Proof. vm_compute. reflexivity. Qed.
