(* ===== verification/Timing.v ===== *)
(** * Deadlines

    The timeouts of [crates/tuyau-server/src/server.rs] ([HELLO_TIMEOUT],
    [ADMIT_TIMEOUT], [REJECT_LINGER]) and [public.rs] ([CLIENT_HELLO_TIMEOUT],
    [TLS_ACCEPT_TIMEOUT], [UPSTREAM_CONNECT_TIMEOUT]): the phases of a tunnel handler
    ([Server]) and of a public connection ([System]) with the time each may last,
    and what follows for how long a peer that has shown no token, or a visitor that
    is not connected to anything, can hold the server's resources.

    Time is in milliseconds and passes while a task waits; a point between two
    operations of a task takes none.  Where the code awaits without a timeout, how
    long that takes is a parameter, [None] for no bound. *)

From S2P Require Import Prelude Bytes Sni Stream Protocol Config Routes LocalPool Limits Backend Control.
From S2P Require Import Server LocalPool H2proxy Public System.

Local Open Scope N_scope.

Definition HELLO_TIMEOUT : N := from_secs 5.
Definition REJECT_LINGER : N := from_secs 2.
Definition ADMIT_TIMEOUT : N := from_secs 5.
Definition CLIENT_HELLO_TIMEOUT : N := from_secs 10.
Definition TLS_ACCEPT_TIMEOUT : N := from_secs 10.

(** ** A task with deadlines *)

Section timed.
(** The phases and events of a task, how long it may be in a phase, and which
    events are the expiry of that time. *)
Context {P E : Type}.
Context (move : P → E → P → Prop) (limit : P → option N) (expiry : E → bool).

Record timed := {
  tm_phase : P;
  tm_entered : N;
  tm_now : N
}.

Definition timed_start (p : P) : timed := {| tm_phase := p; tm_entered := 0; tm_now := 0 |}.

(** Time does not pass beyond the deadline of a phase; its expiry is not before. *)
Inductive timed_step : timed → timed → Prop :=
| Elapse d p entered now :
    (∀ L, limit p = Some L → now + d ≤ entered + L) →
    timed_step {| tm_phase := p; tm_entered := entered; tm_now := now |}
               {| tm_phase := p; tm_entered := entered; tm_now := now + d |}
| Move ev p p' entered now :
    move p ev p' →
    (expiry ev = true → ∀ L, limit p = Some L → now = entered + L) →
    timed_step {| tm_phase := p; tm_entered := entered; tm_now := now |}
               {| tm_phase := p'; tm_entered := now; tm_now := now |}.

(** [budget p]: the time a task in phase [p] has left, itself included, as long as
    it stays in the phases that have one. *)
Context (budget : P → option N).

Definition budget_ok : Prop :=
  (∀ p k, budget p = Some k → ∃ L, limit p = Some L ∧ L ≤ k) ∧
  (∀ p ev p' k', move p ev p' → budget p' = Some k' →
     ∃ k L, budget p = Some k ∧ limit p = Some L ∧ L + k' ≤ k).

Definition timed_inv (total : N) (t : timed) : Prop :=
  tm_entered t ≤ tm_now t ∧
  ∀ k, budget (tm_phase t) = Some k →
    tm_entered t + k ≤ total ∧ ∀ L, limit (tm_phase t) = Some L → tm_now t ≤ tm_entered t + L.

Lemma timed_step_inv total t t' :
  budget_ok → timed_step t t' → timed_inv total t → timed_inv total t'.
Proof.
  intros [Hlim Hmove] [d p entered now Hd|ev p p' entered now Hm Hx] [Hle Hinv]; cbn in *.
  - split; [cbn; lia|]. cbn. intros k Hk. destruct (Hinv k Hk) as [? _]. split; [done|]. intros L HL. by apply Hd.
  - split; [done|]. cbn. intros k' Hk'. destruct (Hmove _ _ _ _ Hm Hk') as (k & L & Hk & HL & Hle').
    destruct (Hinv k Hk) as [Htot Hnow]. specialize (Hnow L HL). split; [lia|]. intros L' _. lia.
Qed.

(** A task that is in a phase with a budget has run for at most the budget of the
    phase it started in. *)
Lemma timed_bounded p0 total t k :
  budget_ok → budget p0 = Some total →
  rtc timed_step (timed_start p0) t → budget (tm_phase t) = Some k → tm_now t ≤ total.
Proof.
  intros Hok H0 Hr Hk. assert (timed_inv total (timed_start p0)) as Hi.
  { split; [done|]. cbn. intros k0 Hk0. split; [by simplify_eq|]. lia. }
  assert (timed_inv total t) as [_ Ht].
  { clear Hk. induction Hr as [|t1 t2 t3 Hs _ IH]; [done|]. by eapply IH, timed_step_inv. }
  destruct (Ht k Hk) as [Htot Hnow]. destruct (proj1 Hok _ _ Hk) as (L & HL & HLk).
  specialize (Hnow L HL). lia.
Qed.
End timed.
Arguments timed : clear implicits.

(** ** Tunnel handlers *)

(** [handle_incoming], in whatever state the rest of the server is. *)
Definition handler_move (ph : phase) (ev : event) (ph' : phase) : Prop :=
  ∃ c peer w w', handlers w !! c = Some {| h_peer := peer; h_phase := ph |} ∧
    handle c ev w = Some w' ∧ handlers w' !! c = Some {| h_peer := peer; h_phase := ph' |}.

Definition handler_expiry (ev : event) : bool :=
  match ev with StreamTimeout | HelloTimeout | AdmitTimeout => true | _ => false end.

Section handler.
(** The time the frame of a reply takes to be written; it depends on the credit the
    peer gives. *)
Context (send_limit : option N).

Definition handler_limit (ph : phase) : option N :=
  match ph with
  | AwaitStream | AwaitHello => Some HELLO_TIMEOUT
  | AwaitAdmit _ => Some ADMIT_TIMEOUT
  | Rejecting _ | Welcoming _ => send_limit
  | Linger => Some REJECT_LINGER
  | Serving _ => None
  | Granted _ | Displacing _ _ | Registering _ | WelcomeFailed _ | Removing _ | Unregistering _
  | Finished => Some 0
  end.

(** The peer has shown no token that the backend accepts. *)
Definition unauthenticated (ph : phase) : bool :=
  match ph with
  | AwaitStream | AwaitHello | AwaitAdmit _ | Rejecting _ | Linger => true
  | _ => false
  end.

Definition handler_budget (ph : phase) : option N :=
  send ← send_limit;
  match ph with
  | AwaitStream => Some (HELLO_TIMEOUT + (HELLO_TIMEOUT + (ADMIT_TIMEOUT + (send + REJECT_LINGER))))
  | AwaitHello => Some (HELLO_TIMEOUT + (ADMIT_TIMEOUT + (send + REJECT_LINGER)))
  | AwaitAdmit _ => Some (ADMIT_TIMEOUT + (send + REJECT_LINGER))
  | Rejecting _ => Some (send + REJECT_LINGER)
  | Linger => Some REJECT_LINGER
  | _ => None
  end.
End handler.

Ltac invert_handle :=
  match goal with
  | Hh : handlers ?w !! ?c = Some _, He : handle ?c ?ev ?w = Some _ |- _ =>
      unfold handle in He; rewrite Hh in He; cbn [mbind option_bind h_peer h_phase] in He
  end.

Lemma handler_budget_ok send : budget_ok handler_move (handler_limit (Some send)) (handler_budget (Some send)).
Proof.
  split.
  - intros ph k Hk. destruct ph; simplify_eq/=; eexists; (split; [done|lia]).
  - intros ph ev ph' k' (c & peer & w & w' & Hh & He & Hh') Hk'. invert_handle.
    destruct ph, ev; try done; repeat (case_match; try done); simplify_eq/=;
      rewrite lookup_insert_eq in Hh'; simplify_eq/=; do 2 eexists; (split_and!; [done|done|lia]).
Qed.

(** *** The timed server *)

Lemma handle_move c ev w w' :
  handle c ev w = Some w' →
  ∃ peer ph ph', handlers w !! c = Some {| h_peer := peer; h_phase := ph |} ∧
    handlers w' = <[c := {| h_peer := peer; h_phase := ph' |}]> (handlers w) ∧ handler_move ph ev ph'.
Proof.
  intros He. assert (∃ peer ph ph', handlers w !! c = Some {| h_peer := peer; h_phase := ph |} ∧
    handlers w' = <[c := {| h_peer := peer; h_phase := ph' |}]> (handlers w)) as (peer & ph & ph' & Hh & Hw).
  { destruct (handlers w !! c) as [[peer ph]|] eqn:Hh; [|by unfold handle in He; rewrite Hh in He].
    exists peer, ph. invert_handle.
    destruct ph, ev; try done; repeat (case_match; try done); simplify_eq/=; by eexists. }
  exists peer, ph, ph'. split_and!; [done..|]. exists c, peer, w, w'.
  split_and!; [done..|]. by rewrite Hw, lookup_insert_eq.
Qed.

Section world.
Context {B : Type} `{RoutingBackend B} (b : B) (send_limit : option N).

(** The server of [Server] with a clock, and when each handler entered its phase and
    when it was spawned. *)
Record timed_world := {
  tw_world : World;
  tw_now : N;
  tw_entered : gmap Connection N;
  tw_spawned : gmap Connection N
}.

Inductive world_step : timed_world → timed_world → Prop :=
| WorldElapse d w now entered spawned :
    (∀ c h e L, handlers w !! c = Some h → entered !! c = Some e →
       handler_limit send_limit (h_phase h) = Some L → now + d ≤ e + L) →
    world_step {| tw_world := w; tw_now := now; tw_entered := entered; tw_spawned := spawned |}
               {| tw_world := w; tw_now := now + d; tw_entered := entered; tw_spawned := spawned |}
| WorldSpawn c peer w now entered spawned :
    handlers w !! c = None →
    world_step {| tw_world := w; tw_now := now; tw_entered := entered; tw_spawned := spawned |}
               {| tw_world := spawn c peer w; tw_now := now;
                  tw_entered := <[c := now]> entered; tw_spawned := <[c := now]> spawned |}
| WorldHandle c ev w w' now entered spawned :
    event_ok b c ev w → handle c ev w = Some w' →
    (handler_expiry ev = true → ∀ h e L, handlers w !! c = Some h → entered !! c = Some e →
       handler_limit send_limit (h_phase h) = Some L → now = e + L) →
    world_step {| tw_world := w; tw_now := now; tw_entered := entered; tw_spawned := spawned |}
               {| tw_world := w'; tw_now := now; tw_entered := <[c := now]> entered; tw_spawned := spawned |}
| WorldOther w w' now entered spawned :
    step b w w' → handlers w' = handlers w →
    world_step {| tw_world := w; tw_now := now; tw_entered := entered; tw_spawned := spawned |}
               {| tw_world := w'; tw_now := now; tw_entered := entered; tw_spawned := spawned |}.

Definition world_start (cfg : ServerConfig) : timed_world :=
  {| tw_world := start_world cfg; tw_now := 0; tw_entered := ∅; tw_spawned := ∅ |}.

(** The clock does not interfere: a timed run is a run of the server. *)
Lemma world_step_untimed tw tw' :
  world_step tw tw' → rtc (step b) (tw_world tw) (tw_world tw').
Proof.
  intros [|c peer w ? ? ? Hc|c ev w w' ? ? ? Hok He _|w w' ? ? ? Hs _]; cbn;
    [reflexivity|apply rtc_once, Spawn; done|by eapply rtc_once, Handle|by apply rtc_once].
Qed.

Lemma world_run_untimed cfg tw :
  rtc world_step (world_start cfg) tw → reachable_world b cfg (tw_world tw).
Proof.
  intros Hr. unfold reachable_world. change (start_world cfg) with (tw_world (world_start cfg)).
  induction Hr as [|tw1 tw2 tw3 Hs _ IH]; [done|]. etrans; [by eapply world_step_untimed|done].
Qed.

(** Each handler is a timed task that started when it was spawned. *)
Definition world_inv (total : N) (tw : timed_world) : Prop :=
  ∀ c h, handlers (tw_world tw) !! c = Some h →
    ∃ e t0, tw_entered tw !! c = Some e ∧ tw_spawned tw !! c = Some t0 ∧ t0 ≤ e ∧
      timed_inv (handler_limit send_limit) (handler_budget send_limit) (t0 + total)
        {| tm_phase := h_phase h; tm_entered := e; tm_now := tw_now tw |}.

Lemma world_step_inv send total tw tw' :
  send_limit = Some send → handler_budget send_limit AwaitStream = Some total →
  world_step tw tw' → world_inv total tw → world_inv total tw'.
Proof.
  intros Hsend Htotal Hs Hinv. pose proof (handler_budget_ok send) as Hok. rewrite <- Hsend in Hok.
  destruct Hs as [d w now entered spawned Hd|c peer w now entered spawned Hc
                 |c ev w w' now entered spawned Hev He Hx|w w' now entered spawned Hs Hsame]; intros c' h Hh; cbn in *.
  - destruct (Hinv c' h Hh) as (e & t0 & He & Ht & Hle & Hi). exists e, t0. split_and!; [done..|].
    eapply (timed_step_inv handler_move _ handler_expiry); [done| |exact Hi]. apply Elapse. eauto.
  - destruct (decide (c' = c)) as [->|Hne].
    + rewrite lookup_insert_eq in Hh. injection Hh as <-. exists now, now. rewrite !lookup_insert_eq.
      split_and!; [done..|]. split; [done|]. cbn. intros k Hk. split; [|lia]. simplify_eq. lia.
    + rewrite lookup_insert_ne in Hh by done. rewrite !lookup_insert_ne by done. by apply Hinv.
  - apply handle_move in He as (peer & ph & ph' & Hc & Hw & Hm). rewrite Hw in Hh.
    destruct (decide (c' = c)) as [->|Hne].
    + rewrite lookup_insert_eq in Hh. injection Hh as <-.
      destruct (Hinv c _ Hc) as (e & t0 & He & Ht & Hle & Hi). exists now, t0. rewrite lookup_insert_eq.
      split_and!; [done|done|destruct Hi; cbn in *; lia|]. eapply (timed_step_inv handler_move _ handler_expiry); [done| |exact Hi].
      apply (Move _ _ _ ev); [done|]. intros Hexp L HL. by eapply Hx.
    + rewrite lookup_insert_ne in Hh by done. rewrite lookup_insert_ne by done. by apply Hinv.
  - rewrite Hsame in Hh. by apply Hinv.
Qed.
End world.

(** C15: a peer that has not authenticated cannot hold a handler for long.  In
    every reachable state of the server, in any interleaving and with any backend,
    when the frame of a reject can be written within [send] (milliseconds), a
    connection whose handler has not been granted a session is at most 17 s and
    [send] old: 5 s for its stream, 5 s for its hello, 5 s for the backend's
    decision, the reject, and 2 s of linger. *)
Theorem unauthenticated_bounded {B} `{RoutingBackend B} (b : B) send cfg tw c h :
  rtc (world_step b (Some send)) (world_start cfg) tw →
  handlers (tw_world tw) !! c = Some h → unauthenticated (h_phase h) = true →
  ∃ t0, tw_spawned tw !! c = Some t0 ∧ t0 ≤ tw_now tw ≤ t0 + (17000 + send).
Proof.
  intros Hr Hh Hu.
  set (total := HELLO_TIMEOUT + (HELLO_TIMEOUT + (ADMIT_TIMEOUT + (send + REJECT_LINGER)))).
  assert (world_inv (Some send) total tw) as Hinv.
  { assert (world_inv (Some send) total (world_start cfg)) as H0.
    { intros c' h'. cbn. by rewrite lookup_empty. }
    clear Hh. induction Hr as [|tw1 tw2 tw3 Hs _ IH]; [done|]. eapply IH, world_step_inv; done. }
  destruct (Hinv c h Hh) as (e & t0 & _ & Ht0 & Hle & Hle' & Hi). exists t0. split; [done|]. cbn in Hle', Hi.
  destruct (handler_budget (Some send) (h_phase h)) as [k|] eqn:Ek; [|by destruct (h_phase h)].
  destruct (Hi k Ek) as [Hk Hnow]. destruct (proj1 (handler_budget_ok send) _ _ Ek) as (L & HL & HLk).
  specialize (Hnow L HL). unfold total, HELLO_TIMEOUT, ADMIT_TIMEOUT, REJECT_LINGER, from_secs in Hk. lia.
Qed.

(** *** A reject that cannot be written *)

(** Connection 1 opened its stream and sent a hello that does not decode; the handler
    writes the reject. *)
Definition rejecting_world : timed_world :=
  let w := foldl (λ w ev, default w (handle 1 ev w)) demo_spawned [StreamOpened; HelloInvalid] in
  {| tw_world := w; tw_now := 0; tw_entered := <[1%nat := 0]> (<[1%nat := 0]> {[1%nat := 0]}); tw_spawned := {[1%nat := 0]} |}.

Lemma rejecting_reached send_limit :
  rtc (world_step demo_backend send_limit) (world_start demo_config) rejecting_world.
Proof.
  eapply rtc_l; [apply (WorldSpawn _ _ 1%nat "10.0.0.9:4433"); reflexivity|].
  eapply rtc_l; [apply (WorldHandle _ _ 1%nat StreamOpened); [exact I|reflexivity|done]|].
  eapply rtc_l; [apply (WorldHandle _ _ 1%nat HelloInvalid); [exact I|reflexivity|done]|].
  apply rtc_refl.
Qed.

Definition rejecting_later (d : N) : timed_world :=
  {| tw_world := tw_world rejecting_world; tw_now := 0 + d; tw_entered := tw_entered rejecting_world;
     tw_spawned := tw_spawned rejecting_world |}.

Lemma rejecting_handler c h :
  handlers (tw_world rejecting_world) !! c = Some h → c = 1%nat ∧ h_phase h = Rejecting "protocol error".
Proof.
  assert (handlers (tw_world rejecting_world) =
    <[1%nat := {| h_peer := "10.0.0.9:4433"; h_phase := Rejecting "protocol error" |}]>
      (<[1%nat := {| h_peer := "10.0.0.9:4433"; h_phase := AwaitHello |}]>
         {[1%nat := {| h_peer := "10.0.0.9:4433"; h_phase := AwaitStream |}]})) as -> by reflexivity.
  destruct (decide (c = 1%nat)) as [->|Hne]; [rewrite lookup_insert_eq; by intros [= <-]|].
  by rewrite !lookup_insert_ne, lookup_singleton_ne by done.
Qed.

Lemma rejecting_elapsed send_limit d :
  (∀ send, send_limit = Some send → d ≤ send) →
  rtc (world_step demo_backend send_limit) (world_start demo_config) (rejecting_later d).
Proof.
  intros Hd. eapply rtc_r; [apply rejecting_reached|]. apply WorldElapse.
  intros c h e L Hh He HL. apply rejecting_handler in Hh as [-> Hp]. rewrite Hp in HL. cbn in HL.
  specialize (Hd _ HL). lia.
Qed.

(** The code has no timeout on writing a reject ([writer.send(..).await] without
    one), so there is no bound: a peer that gives its stream no credit, and answers
    keep-alives, holds a handler without a token for as long as it likes. *)
Example reject_unbounded d :
  ∃ tw h, rtc (world_step demo_backend None) (world_start demo_config) tw ∧
    handlers (tw_world tw) !! 1%nat = Some h ∧ unauthenticated (h_phase h) = true ∧
    tw_spawned tw !! 1%nat = Some 0 ∧ d ≤ tw_now tw.
Proof.
  exists (rejecting_later d). eexists. split_and!; [by apply rejecting_elapsed|reflexivity..|cbn; lia].
Qed.

Lemma unauthenticated_bounded_witness :
  ∃ t0, tw_spawned (rejecting_later 300) !! 1%nat = Some t0 ∧
    t0 ≤ tw_now (rejecting_later 300) ≤ t0 + (17000 + 300).
Proof.
  apply (unauthenticated_bounded demo_backend 300 demo_config (rejecting_later 300) 1%nat
    {| h_peer := "10.0.0.9:4433"; h_phase := Rejecting "protocol error" |}).
  - apply rejecting_elapsed. intros send [= <-]. reflexivity.
  - reflexivity.
  - reflexivity.
Defined.

(** ** Public connections *)

Section visits.
Context {H : Type} `{HeaderMapLaws H}.
Context (parse_ip : string → option IpAddr) (show_ip : IpAddr → string).
Context (parse_uri : string → option Uri) (parse_value : string → option string).
Context (tls : PublicTls) (html : string).

(** The task of a connection, whatever the state of the tables at each step. *)
Definition visit_move (v : visit) (ev : visit_ev H) (v' : visit) : Prop :=
  ∃ peer w w' dest,
    visit_step parse_ip show_ip parse_uri parse_value tls html peer w v ev = Some (v', w', dest).

Definition visit_expiry (ev : visit_ev H) : bool :=
  match ev with HelloTimedOut | AcceptTimedOut | Connect DialTimeout => true | _ => false end.

(** How long the handshake after the ClientHello, and opening a stream on a tunnel,
    take: neither has a timeout. *)
Context (handshake open_stream : option N).

Definition visit_limit (v : visit) : option N :=
  match v with
  | Reading => Some CLIENT_HELLO_TIMEOUT
  | Accepting _ => Some TLS_ACCEPT_TIMEOUT
  | Handshaking _ => handshake
  | Opening _ _ (Tunnel _) => open_stream
  | Opening _ _ (Local_ _) => Some UPSTREAM_CONNECT_TIMEOUT
  | Parsed _ | Accepted _ _ _ | Negotiated _ _ _ | Routing _ _ _ _ | Ended => Some 0
  | Piping _ _ _ | Http _ _ _ _ | Writing502 => None
  end.

(** The connection is being set up: it is not yet served. *)
Definition setting_up (v : visit) : bool :=
  match v with Piping _ _ _ | Http _ _ _ _ | Writing502 | Ended => false | _ => true end.

Definition visit_budget (v : visit) : option N :=
  h ← handshake; o ← open_stream;
  let opening := N.max UPSTREAM_CONNECT_TIMEOUT o in
  match v with
  | Reading => Some (CLIENT_HELLO_TIMEOUT + (TLS_ACCEPT_TIMEOUT + (h + opening)))
  | Parsed _ | Accepting _ => Some (TLS_ACCEPT_TIMEOUT + (h + opening))
  | Handshaking _ => Some (h + opening)
  | Accepted _ _ _ | Negotiated _ _ _ | Routing _ _ _ _ | Opening _ _ _ => Some opening
  | Piping _ _ _ | Http _ _ _ _ | Writing502 | Ended => None
  end.

(** HTTP stays HTTP until it is over. *)
Lemma http_stays peer w sni h2 client calls ev v' w' d :
  visit_step parse_ip show_ip parse_uri parse_value tls html peer w (Http sni h2 client calls) ev = Some (v', w', d) →
  v' = Ended ∨ ∃ calls', v' = Http sni h2 client calls'.
Proof.
  intros Hs. destruct ev; cbn [visit_step] in Hs; try done.
  - destruct (_ || _); [|done]. simplify_eq. eauto.
  - destruct (calls !! _) as [ph|]; [|done]. case_match; [done|].
    destruct (world_access sni ph w). simplify_eq. eauto.
  - destruct (calls !! _) as [[]|]; try done. injection Hs as <- _ _.
    match goal with |- context [after_answer _ _ _ ?c ?q ?x] => destruct (after_answer_cases sni h2 client c q x) as [-> | ->] end; eauto.
  - destruct (forallb _ _); [|done]. simplify_eq. auto.
Qed.

Lemma visit_budget_ok : budget_ok visit_move visit_limit visit_budget.
Proof.
  unfold budget_ok, visit_budget, visit_limit. destruct handshake as [h|]; [|done]. destruct open_stream as [o|]; [|done].
  cbn [mbind option_bind]. split.
  - intros v k Hk. destruct v; try (destruct route); simplify_eq; eexists; (split; [done|lia]).
  - intros v ev v' k' (peer & w & w' & dest & Hs) Hk'.
    destruct v as [| | | | | |sni plain offload ph|sni plain route|?|sni h2 client calls| |];
      try (destruct (http_stays _ _ _ _ _ _ _ _ _ _ Hs) as [-> |[? ->]]; done);
      unfold visit_step, on_route, dispatch_local in Hs;
      destruct ev; try done; try (destruct route; try done);
      try (destruct (world_access sni ph w) as [ph' w1]; destruct ph');
      repeat (case_match; try done); simplify_eq/=;
      do 2 eexists; (split_and!; [done|done|lia]).
Qed.

(** A visitor that is not connected to anything does not stay.  When the TLS
    handshake takes at most [h] and opening a tunnel stream at most [o] (neither
    has a timeout in the code), a public connection is set up, answered or dropped
    within 20 s, [h] and the longer of 10 s and [o]: 10 s for the ClientHello, 10 s
    for the acceptor, 10 s for a local upstream; whatever the visitor sends, and
    however the tables change meanwhile. *)
Theorem visitor_setup_bounded h o t :
  handshake = Some h → open_stream = Some o →
  rtc (timed_step visit_move visit_limit visit_expiry) (timed_start Reading) t →
  setting_up (tm_phase t) = true →
  tm_now t ≤ 20000 + h + N.max 10000 o.
Proof.
  intros Hh Ho Hr Hs. destruct (visit_budget (tm_phase t)) as [k|] eqn:Hk.
  - etrans; [eapply (timed_bounded _ _ visit_expiry visit_budget Reading); [apply visit_budget_ok| |exact Hr|exact Hk]|].
    + unfold visit_budget. rewrite Hh, Ho. reflexivity.
    + unfold CLIENT_HELLO_TIMEOUT, TLS_ACCEPT_TIMEOUT, UPSTREAM_CONNECT_TIMEOUT, from_secs. lia.
  - unfold visit_budget in Hk. rewrite Hh, Ho in Hk. by destruct (tm_phase t).
Qed.
End visits.

(** *** A witness *)

(** A visitor that sends nothing for 9 seconds. *)
Definition slow_visitor : timed visit := {| tm_phase := Reading; tm_entered := 0; tm_now := 0 + 9000 |}.

Lemma visitor_setup_bounded_witness :
  tm_now slow_visitor ≤ 20000 + 500 + N.max 10000 100.
Proof.
  apply (visitor_setup_bounded demo_parse_ip demo_show_ip demo_parse_uri Some demo_tls_any "oops"
    (Some 500) (Some 100)).
  - reflexivity.
  - reflexivity.
  - eapply rtc_l; [apply (Elapse _ _ _ 9000)|apply rtc_refl]. intros L [= <-]. vm_compute. discriminate.
  - reflexivity.
Defined.
