(* ===== verification/Upgrade.v ===== *)
(** * Backend calls and upgrades

    [h1_roundtrip], [ws_bridge] and [h1_upgrade] of
    [crates/tuyau-server/src/h2proxy.rs] at their await points.  [H2proxy] gives the
    exchange they end in, from what the network did; here a call is a task: the
    handshake with the backend under [BACKEND_HANDSHAKE_TIMEOUT], the request, for a
    WebSocket the backend's upgrade; then the response is returned, and a bridge that
    was spawned waits for the two upgraded streams and splices them ([Pipe]).

    The events are what hyper documents of its futures; [upgrade::on] of the client's
    request resolves after the response was returned, since hyper completes it by
    sending that response. *)

From S2P Require Import Prelude Bytes Sni Stream Protocol Config Routes Limits Backend Control.
From S2P Require Import Server LocalPool H2proxy Public Pipe System.

Local Open Scope string_scope.
Local Open Scope list_scope.

(** ** The servers *)

Definition MAX_CONCURRENT_STREAMS : nat := 256.
Definition MAX_HEADER_LIST_SIZE : Z := 64 * 1024.
Definition H2_KEEPALIVE_INTERVAL : N := from_secs 20.
Definition H2_KEEPALIVE_TIMEOUT : N := from_secs 20.
Definition BACKEND_HANDSHAKE_TIMEOUT : N := from_secs 10.
Definition H1_HEADER_READ_TIMEOUT : N := from_secs 30.

(** [hyper::server::conn::http2::Builder] and [http1::Builder], as set up by
    [serve_h2] and [serve_h1]. *)
Record http2_Builder := {
  b2_timer : bool;
  b2_max_concurrent_streams : option nat;
  b2_max_header_list_size : option Z;
  b2_keep_alive_interval : option N;
  b2_keep_alive_timeout : option N;
  b2_connect_protocol : bool
}.

Record http1_Builder := {
  b1_timer : bool;
  b1_header_read_timeout : option N;
  b1_with_upgrades : bool
}.

Definition serve_h2_builder : http2_Builder :=
  {| b2_timer := true; b2_max_concurrent_streams := Some MAX_CONCURRENT_STREAMS;
     b2_max_header_list_size := Some MAX_HEADER_LIST_SIZE;
     b2_keep_alive_interval := Some H2_KEEPALIVE_INTERVAL;
     b2_keep_alive_timeout := Some H2_KEEPALIVE_TIMEOUT; b2_connect_protocol := true |}.

Definition serve_h1_builder : http1_Builder :=
  {| b1_timer := true; b1_header_read_timeout := Some H1_HEADER_READ_TIMEOUT; b1_with_upgrades := true |}.

(** hyper panics when a builder asks for a timeout and has no timer. *)
Definition timers_set (b2 : http2_Builder) (b1 : http1_Builder) : bool :=
  (b2_timer b2 || negb (is_some (b2_keep_alive_interval b2))) &&
  (b1_timer b1 || negb (is_some (b1_header_read_timeout b1))).

Example serve_timers : timers_set serve_h2_builder serve_h1_builder = true.
Proof. reflexivity. Qed.

(** ** A call *)

(** The branch of [serve_request] a request takes. *)
Inductive call_kind :=
| Roundtrip
| H1Upgrade
| WsBridge.

#[export] Instance call_kind_eq_dec : EqDecision call_kind.
Proof. solve_decision. Defined.

(** The task spawned for an upgraded connection. *)
Inductive bridge :=
| Joining (client backend : bool)  (* client_up.await, try_join!(client_up, backend_up) *)
| Splicing (s : splice)            (* copy_bidirectional *)
| NotUpgraded.                     (* logged; both streams are dropped *)

Section calls.
Context {H : Type} `{HeaderMap H}.
Context (parse_uri : string → option Uri) (parse_value : string → option string).
Context (html : string).

Inductive call_phase :=
| Handshaking (breq : Request H)          (* timeout(BACKEND_HANDSHAKE_TIMEOUT, handshake) *)
| Requesting                              (* sender.send_request *)
| Upgrading (bresp : Response H)          (* ws_bridge: upgrade::on(bresp) *)
| Returned.

Record call := {
  c_phase : call_phase;
  c_sent : option (Request H);
  c_response : option (Response H);
  c_bridge : option bridge
}.

Inductive call_ev :=
| HandshakeOk | HandshakeErr | HandshakeTimeout
| Answered (resp : Response H) | RequestErr
| BackendUp | BackendUpErr
| ClientUp | ClientUpErr
| Flow (ev : splice_ev).

Definition returns_with (resp : Response H) (br : option bridge) (c : call) : call :=
  {| c_phase := Returned; c_sent := c_sent c; c_response := Some resp; c_bridge := br |}.

Definition goes_to (ph : call_phase) (c : call) : call :=
  {| c_phase := ph; c_sent := c_sent c; c_response := c_response c; c_bridge := c_bridge c |}.

Definition set_bridge (br : bridge) (c : call) : call :=
  {| c_phase := c_phase c; c_sent := c_sent c; c_response := c_response c; c_bridge := Some br |}.

Definition call_of (breq : Request H) : call :=
  {| c_phase := Handshaking breq; c_sent := None; c_response := None; c_bridge := None |}.

(** Up to the first await. *)
Definition call_start (kind : call_kind) (r : Request H) (sni : string) : partial call :=
  match kind with
  | Roundtrip => PSome (call_of (downgrade_to_h1 parse_uri parse_value r sni))
  | H1Upgrade => PSome (call_of (upgrade_request r))
  | WsBridge =>
      breq ← ws_request parse_uri parse_value r sni;
      PSome match breq with
            | Some breq => call_of breq
            | None => {| c_phase := Returned; c_sent := None; c_response := Some (bad_gateway html); c_bridge := None |}
            end
  end.

(** The two upgraded streams, when both are there, are spliced. *)
Definition joined (client backend : bool) : bridge :=
  if client && backend then Splicing splice_local else Joining client backend.

(** What [c] does with the backend's answer. *)
Definition on_answer (kind : call_kind) (resp : Response H) (c : call) : call :=
  match kind with
  | Roundtrip => returns_with resp None c
  | H1Upgrade =>
      if (status resp =? 101)%Z then returns_with (upgrade_reply resp) (Some (Joining false false)) c
      else returns_with resp None c
  | WsBridge => if (status resp =? 101)%Z then goes_to (Upgrading resp) c else returns_with (bad_gateway html) None c
  end.

(** One event of the bridge. *)
Definition bridge_step (br : bridge) (ev : call_ev) : option bridge :=
  match br, ev with
  | Joining false backend, ClientUp => Some (joined true backend)
  | Joining client false, BackendUp => Some (joined client true)
  | Joining false _, ClientUpErr | Joining _ false, BackendUpErr => Some NotUpgraded
  | Splicing s, Flow ev => Splicing <$> splice_step s ev
  | _, _ => None
  end.

Definition call_step (kind : call_kind) (c : call) (ev : call_ev) : option call :=
  match c_phase c, ev with
  | Handshaking breq, HandshakeOk =>
      Some {| c_phase := Requesting; c_sent := Some breq; c_response := c_response c; c_bridge := c_bridge c |}
  | Handshaking _, HandshakeErr | Handshaking _, HandshakeTimeout => Some (returns_with (bad_gateway html) None c)
  | Requesting, Answered resp => Some (on_answer kind resp c)
  | Requesting, RequestErr => Some (returns_with (bad_gateway html) None c)
  | Upgrading resp, BackendUp => Some (returns_with (ws_reply resp) (Some (Joining false true)) c)
  | Upgrading _, BackendUpErr => Some (returns_with (bad_gateway html) None c)
  | Returned, ev => br ← c_bridge c; br ← bridge_step br ev; Some (set_bridge br c)
  | _, _ => None
  end.

Definition call_run (kind : call_kind) (evs : list call_ev) (c : call) : option call :=
  foldl (λ c ev, c ← c; call_step kind c ev) (Some c) evs.

(** ** What the network did *)

Definition handshake_ok (ev : call_ev) : bool := match ev with HandshakeOk => true | _ => false end.
Definition backend_up (ev : call_ev) : bool := match ev with BackendUp => true | _ => false end.
Definition client_up (ev : call_ev) : bool := match ev with ClientUp => true | _ => false end.
Definition answered (ev : call_ev) : option (Response H) := match ev with Answered resp => Some resp | _ => None end.

Definition env_of (evs : list call_ev) : backend_env H :=
  {| opens := true; handshakes := existsb handshake_ok evs; answer := head (omap answered evs);
     upgrades := existsb backend_up evs |}.

(** The exchange of [H2proxy] for the branch. *)
Definition exchange_of (kind : call_kind) (env : backend_env H) (dest : Destination) (r : Request H) (sni : string) :
    partial (Exchange H) :=
  match kind with
  | Roundtrip => PSome (h1_roundtrip parse_uri parse_value env dest r sni html)
  | H1Upgrade => PSome (h1_upgrade env dest r html)
  | WsBridge => ws_bridge parse_uri parse_value env dest r sni html
  end.

(** What the branch makes of the backend's answer. *)
Definition reply (kind : call_kind) (up : bool) (resp : Response H) : Response H :=
  match kind with
  | Roundtrip => resp
  | H1Upgrade => upgrade_reply resp
  | WsBridge =>
      if negb (status resp =? 101)%Z then bad_gateway html
      else if negb up then bad_gateway html else ws_reply resp
  end.

(** ** The invariant *)

(** A response that tells the client that its connection changed protocols: 101, or
    200 for an extended CONNECT. *)
Definition upgraded (kind : call_kind) (resp : Response H) : Prop :=
  status resp = match kind with WsBridge => 200%Z | _ => 101%Z end.

(** Nothing was upgraded yet, and nothing returned. *)
Definition under_way (evs : list call_ev) (c : call) : Prop :=
  existsb client_up evs = false ∧ upgrades (env_of evs) = false ∧ c_response c = None ∧ c_bridge c = None.

Definition bridge_inv (kind : call_kind) (evs : list call_ev) (br : bridge) : Prop :=
  kind ≠ Roundtrip ∧
  (∃ resp, answer (env_of evs) = Some resp ∧ status resp = 101%Z) ∧
  (kind = WsBridge → upgrades (env_of evs) = true) ∧
  match br with
  | Joining client backend => client = existsb client_up evs ∧ backend = upgrades (env_of evs)
  | Splicing s => existsb client_up evs = true ∧ upgrades (env_of evs) = true ∧
      ∃ sevs, splice_run sevs splice_local = Some s
  | NotUpgraded => True
  end.

Definition returned_with (kind : call_kind) (breq : Request H) (env : backend_env H) (c : call) : Prop :=
  c_sent c = (if handshakes env then Some breq else None) ∧
  c_response c = Some (if handshakes env
                       then match answer env with Some resp => reply kind (upgrades env) resp | None => bad_gateway html end
                       else bad_gateway html).

Definition call_inv (kind : call_kind) (breq : Request H) (evs : list call_ev) (c : call) : Prop :=
  let env := env_of evs in
  match c_phase c with
  | Handshaking b => b = breq ∧ c_sent c = None ∧ handshakes env = false ∧ answer env = None ∧ under_way evs c
  | Requesting => c_sent c = Some breq ∧ handshakes env = true ∧ answer env = None ∧ under_way evs c
  | Upgrading resp => kind = WsBridge ∧ status resp = 101%Z ∧ c_sent c = Some breq ∧ handshakes env = true ∧
      answer env = Some resp ∧ under_way evs c
  | Returned => returned_with kind breq env c ∧
      match c_bridge c with
      | Some br => handshakes env = true ∧ bridge_inv kind evs br
      | None => kind ≠ Roundtrip → ∀ resp, c_response c = Some resp → ¬ upgraded kind resp
      end
  end.

Lemma env_of_snoc evs ev :
  env_of (evs ++ [ev]) =
  {| opens := true; handshakes := handshakes (env_of evs) || handshake_ok ev;
     answer := match answer (env_of evs) with Some resp => Some resp | None => answered ev end;
     upgrades := upgrades (env_of evs) || backend_up ev |}.
Proof.
  unfold env_of; simpl. rewrite !existsb_app, omap_app; simpl. rewrite !orb_false_r.
  destruct (omap answered evs); simpl; [|done]. by destruct (answered ev).
Qed.

Lemma answer_snoc evs ev :
  answer (env_of (evs ++ [ev])) = match answer (env_of evs) with Some resp => Some resp | None => answered ev end.
Proof. by rewrite env_of_snoc. Qed.

Lemma upgrades_snoc evs ev : upgrades (env_of (evs ++ [ev])) = upgrades (env_of evs) || backend_up ev.
Proof. by rewrite env_of_snoc. Qed.

Lemma handshakes_snoc evs ev : handshakes (env_of (evs ++ [ev])) = handshakes (env_of evs) || handshake_ok ev.
Proof. by rewrite env_of_snoc. Qed.

Lemma client_up_snoc evs ev : existsb client_up (evs ++ [ev]) = existsb client_up evs || client_up ev.
Proof. rewrite existsb_app. simpl. by rewrite orb_false_r. Qed.

Lemma call_start_inv kind breq : call_inv kind breq [] (call_of breq).
Proof. by repeat split. Qed.

Lemma splice_run_snoc evs s s' ev s'' :
  splice_run evs s = Some s' → splice_step s' ev = Some s'' → splice_run (evs ++ [ev]) s = Some s''.
Proof.
  revert s. induction evs as [|e evs IH]; intros s; simpl; [by intros [= <-] ->|].
  destruct (splice_step s e); [|done]. apply IH.
Qed.

(** A failure before an answer: the 502. *)
Lemma bad_gateway_not_upgraded kind : ¬ upgraded kind (bad_gateway (H := H) html).
Proof. by destruct kind. Qed.

(** The backend's answer. *)
Lemma on_answer_inv kind breq evs c resp :
  call_inv kind breq evs c → c_phase c = Requesting → call_inv kind breq (evs ++ [Answered resp]) (on_answer kind resp c).
Proof.
  unfold call_inv. intros Hi Hph. rewrite Hph in Hi. destruct Hi as (Hs & Hh & Ha & Hcl & Hup & Hr & Hb).
  assert (env_of (evs ++ [Answered resp]) =
    {| opens := true; handshakes := true; answer := Some resp; upgrades := false |}) as Henv
    by (rewrite env_of_snoc, Hh, Ha, Hup; done).
  cbv zeta. rewrite Henv. unfold on_answer. destruct kind; simpl.
  - unfold returned_with. simpl. by rewrite Hs.
  - destruct (Z.eqb_spec (status resp) 101) as [Hst|Hst]; simpl; unfold returned_with; simpl; rewrite Hs.
    + split; [done|]. split; [done|]. unfold bridge_inv.
      rewrite Henv, client_up_snoc, Hcl. simpl. split_and!; eauto; done.
    + unfold upgrade_reply. rewrite (proj2 (Z.eqb_neq _ _) Hst). split; [done|]. intros _ ? [= <-]. exact Hst.
  - destruct (Z.eqb_spec (status resp) 101) as [Hst|Hst]; simpl.
    + unfold under_way. rewrite Henv, client_up_snoc, Hcl. simpl. by split_and!.
    + unfold returned_with; simpl. rewrite Hs, (proj2 (Z.eqb_neq _ _) Hst). split; [done|].
      intros _ ? [= <-]. apply (bad_gateway_not_upgraded WsBridge).
Qed.

(** An event of the bridge. *)
Lemma bridge_step_inv kind evs br ev br' :
  bridge_inv kind evs br → bridge_step br ev = Some br' → bridge_inv kind (evs ++ [ev]) br'.
Proof.
  intros (Hk & (resp & Ha & Hst) & Hws & Hbr) Hstep. unfold bridge_inv.
  rewrite answer_snoc, upgrades_snoc, client_up_snoc, Ha.
  split; [done|]. split; [by exists resp|]. split; [by intros Hw; rewrite Hws|].
  destruct br as [client backend|s|]; [destruct Hbr as [Hc Hb]; rewrite <- Hc, <- Hb; clear Hc Hb| |done].
  - destruct client, backend, ev; simpl in Hstep; try done; simplify_eq; simpl; try done;
      (split; [done|]; split; [done|]; by exists []).
  - destruct Hbr as (Hc & Hb & sevs & Hs). destruct ev; try done. simpl in Hstep.
    destruct (splice_step s ev) as [s'|] eqn:Hs'; [|done]. simplify_eq/=. rewrite Hc, Hb.
    split; [done|]. split; [done|]. exists (sevs ++ [ev]). by eapply splice_run_snoc.
Qed.

(** Events of the bridge do not change the exchange. *)
Lemma bridge_step_env kind evs br ev br' :
  bridge_inv kind evs br → handshakes (env_of evs) = true → bridge_step br ev = Some br' →
  handshakes (env_of (evs ++ [ev])) = true ∧ answer (env_of (evs ++ [ev])) = answer (env_of evs) ∧
  (kind = WsBridge → upgrades (env_of (evs ++ [ev])) = upgrades (env_of evs)).
Proof.
  intros (_ & (resp & Ha & _) & Hws & _) Hh _. rewrite handshakes_snoc, answer_snoc, upgrades_snoc, Hh, Ha.
  split; [done|]. split; [done|]. intros Hw. by rewrite Hws.
Qed.

Lemma reply_up kind up up' resp : (kind = WsBridge → up' = up) → reply kind up' resp = reply kind up resp.
Proof. intros Hup. destruct kind; simpl; [done..|]. by rewrite Hup. Qed.

Lemma call_step_inv kind breq evs c ev c' :
  call_inv kind breq evs c → call_step kind c ev = Some c' → call_inv kind breq (evs ++ [ev]) c'.
Proof.
  intros Hi. unfold call_step. destruct (c_phase c) as [b| |resp|] eqn:Hph.
  - unfold call_inv in *. rewrite Hph in Hi. destruct Hi as (-> & Hs & Hh & Ha & Hcl & Hup & Hr & Hb).
    destruct ev; try done; intros [= <-]; cbn [c_phase returns_with].
    + rewrite handshakes_snoc, answer_snoc, Hh, Ha. unfold under_way. rewrite upgrades_snoc, client_up_snoc, Hup, Hcl.
      by split_and!.
    + unfold returned_with. rewrite handshakes_snoc, Hh. cbn. rewrite Hs. split; [done|].
      intros _ ? [= <-]. apply bad_gateway_not_upgraded.
    + unfold returned_with. rewrite handshakes_snoc, Hh. cbn. rewrite Hs. split; [done|].
      intros _ ? [= <-]. apply bad_gateway_not_upgraded.
  - destruct ev; try done; [intros [= <-]; by apply on_answer_inv|intros [= <-]].
    unfold call_inv in *. rewrite Hph in Hi. destruct Hi as (Hs & Hh & Ha & _). cbn [c_phase returns_with].
    unfold returned_with. rewrite handshakes_snoc, answer_snoc, Hh, Ha. cbn. rewrite Hs. split; [done|].
    intros _ ? [= <-]. apply bad_gateway_not_upgraded.
  - unfold call_inv in *. rewrite Hph in Hi. destruct Hi as (-> & Hst & Hs & Hh & Ha & Hcl & Hup & Hr & Hb).
    destruct ev; try done; intros [= <-]; cbn [c_phase c_bridge returns_with]; unfold returned_with;
      rewrite handshakes_snoc, answer_snoc, upgrades_snoc, Hh, Ha, Hup; cbn [orb backend_up handshake_ok answered reply];
      rewrite (proj2 (Z.eqb_eq _ _) Hst); cbn; rewrite Hs.
    + split; [done|]. split; [done|]. unfold bridge_inv. rewrite answer_snoc, upgrades_snoc, client_up_snoc, Ha, Hup, Hcl.
      cbn. split_and!; eauto; done.
    + split; [done|]. intros _ ? [= <-]. apply (bad_gateway_not_upgraded WsBridge).
  - destruct (c_bridge c) as [br|] eqn:Hb; [|done]. simpl. destruct (bridge_step br ev) as [br'|] eqn:Hstep; [|done].
    intros [= <-]. unfold call_inv in *. rewrite Hph, Hb in Hi. destruct Hi as ((Hs & Hr) & Hh & Hbr).
    cbn [c_phase c_bridge set_bridge]. rewrite Hph.
    destruct (bridge_step_env kind evs br ev br' Hbr Hh Hstep) as (Hh' & Ha' & Hu').
    split; [|split; [done|by eapply bridge_step_inv]]. unfold returned_with. cbn [c_sent c_response set_bridge].
    rewrite Hh', Ha', Hs, Hr, Hh. split; [done|]. do 2 f_equal. destruct (answer (env_of evs)); [|done].
    symmetry. by apply reply_up.
Qed.

Lemma call_run_None kind evs : foldl (λ c ev, c ← c; call_step kind c ev) None evs = None.
Proof. induction evs; [done|]. done. Qed.

Lemma call_run_inv kind breq evs c :
  call_run kind evs (call_of breq) = Some c → call_inv kind breq evs c.
Proof.
  revert c. induction evs as [|ev evs IH] using rev_ind; intros c; unfold call_run.
  - intros [= <-]. apply call_start_inv.
  - rewrite foldl_app. simpl. fold (call_run kind evs (call_of breq)).
    destruct (call_run kind evs (call_of breq)) as [c1|]; [|done]. simpl. intros Hs. by eapply call_step_inv; [apply IH|].
Qed.
(** A request the builder refuses is answered at once. *)
Lemma call_run_start kind r sni c0 evs c :
  call_start kind r sni = PSome c0 → call_run kind evs c0 = Some c →
  (∃ breq, c0 = call_of breq ∧ call_inv kind breq evs c) ∨
  (kind = WsBridge ∧ ws_request parse_uri parse_value r sni = PSome None ∧ c = c0 ∧
   c0 = returns_with (bad_gateway html) None c0 ∧ c_sent c0 = None).
Proof.
  destruct kind; simpl; [intros [= <-] Hr; left; eauto using call_run_inv..|].
  destruct (ws_request parse_uri parse_value r sni) as [[breq|]| | |]; try done; intros [= <-] Hr;
    [left; eauto using call_run_inv|right].
  assert (evs = []) as ->; [|injection Hr as <-; by split_and!]. destruct evs as [|ev evs]; [done|]. unfold call_run in Hr. simpl in Hr.
  by rewrite call_run_None in Hr.
Qed.

(** ** Theorems *)

(** The tasks do what the exchanges say.  A call of [h1_roundtrip],
    [h1_upgrade] or [ws_bridge], run through any sequence of events of the network,
    sends the request and returns the response that [H2proxy] gives for what the
    network did in that sequence (the handshake completed, the answer came, the
    backend's upgrade completed). *)
Theorem calls_as_exchanged kind r sni dest c0 evs c resp :
  call_start kind r sni = PSome c0 → call_run kind evs c0 = Some c → c_response c = Some resp →
  ∃ ex, exchange_of kind (env_of evs) dest r sni = PSome ex ∧
    response ex = resp ∧ sent ex = (λ q, (dest, q)) <$> c_sent c.
Proof.
  intros Hst Hrun Hresp.
  destruct (call_run_start _ _ _ _ _ _ Hst Hrun) as [(breq & -> & Hi)|(-> & Hws & -> & Hc0 & Hs)].
  - assert (returned_with kind breq (env_of evs) c) as [Hs Hr].
    { unfold call_inv, under_way in Hi. destruct (c_phase c); [naive_solver..|]. by destruct Hi. }
    rewrite Hresp in Hr. injection Hr as ->. rewrite Hs.
    assert (∃ ex, exchange_of kind (env_of evs) dest r sni = PSome ex ∧
      ex = exchange (env_of evs) dest breq html (reply kind (upgrades (env_of evs)))) as (ex & Hex & ->).
    { destruct kind; simpl in Hst |- *; [by simplify_eq; eauto..|]. unfold ws_bridge.
      destruct (ws_request _ _ _ _) as [[q|]| | |]; try done; cbn in Hst; simplify_eq.
      by eexists. }
    exists (exchange (env_of evs) dest breq html (reply kind (upgrades (env_of evs)))). split; [done|].
    unfold exchange. simpl. by destruct (existsb handshake_ok evs).
  - exists (failed html). simpl. unfold ws_bridge. rewrite Hws, Hs. rewrite Hc0 in Hresp. by simplify_eq/=.
Qed.

Lemma reply_upgraded kind up resp :
  kind ≠ Roundtrip → status resp = 101%Z → (kind = WsBridge → up = true) → upgraded kind (reply kind up resp).
Proof.
  intros Hk Hst Hup. destruct kind; [done|..]; simpl.
  - unfold upgrade_reply. by rewrite (proj2 (Z.eqb_eq _ _) Hst).
  - by rewrite (proj2 (Z.eqb_eq _ _) Hst), Hup.
Qed.

Lemma hop_stuck st :
  hop_state_ok st → ch_end st.1 ≠ Live → (∀ a, hop_act st a = None) → pump_done st.2 = true.
Proof.
  intros (Hok & _) Hend Hno. apply (pump_progress st.1); [done..|]. intros a. specialize (Hno a). unfold hop_act in Hno.
  by destruct (pump_step _ _ _ _) as [[[]]|].
Qed.

(** A splice whose two ends have finished is over, or one of its pumps can act. *)
Lemma splice_progress s :
  splice_ok s → sp_res s = None → ch_end (sp_up s).1 ≠ Live → ch_end (sp_down s).1 ≠ Live →
  ¬ (∀ a, splice_step s (SUp a) = None ∧ splice_step s (SDown a) = None).
Proof.
  intros (Hu & Hd & Hres) Hn Eu Ed Hno.
  assert (pump_done (sp_up s).2 = true) as Du.
  { apply hop_stuck; [done..|]. intros a. destruct (Hno a) as [Ha _]. simpl in Ha. rewrite Hn in Ha.
    by destruct (hop_act _ _). }
  assert (pump_done (sp_down s).2 = true) as Dd.
  { apply hop_stuck; [done..|]. intros a. destruct (Hno a) as [_ Ha]. simpl in Ha. rewrite Hn in Ha.
    by destruct (hop_act _ _). }
  rewrite Hn in Hres. unfold splice_result in Hres. rewrite Du, Dd in Hres.
  destruct (failed_with (h_pump (sp_up s).2)); [done|]. by destruct (failed_with _).
Qed.

Lemma answer_elem evs resp : answer (env_of evs) = Some resp → Answered resp ∈ evs.
Proof.
  unfold env_of; simpl. induction evs as [|ev evs IH]; simpl; [done|]. destruct ev; simpl; try (right; by apply IH).
  intros [= ->]. left.
Qed.

Lemma client_up_elem evs : existsb client_up evs = true → ClientUp ∈ evs.
Proof. induction evs as [|[] evs IH]; simpl; try done; (by left) || (intros; right; by apply IH). Qed.

Lemma backend_up_elem evs : upgrades (env_of evs) = true → BackendUp ∈ evs.
Proof. unfold env_of; simpl. induction evs as [|[] evs IH]; simpl; try done; (by left) || (intros; right; by apply IH). Qed.

Lemma splice_prefixes sevs s :
  splice_run sevs splice_local = Some s →
  splice_ok s ∧ ch_sent (h_out (sp_up s).2) `prefix_of` ch_sent (sp_up s).1 ∧
  ch_sent (h_out (sp_down s).2) `prefix_of` ch_sent (sp_down s).1.
Proof.
  intros Hok%(splice_run_ok _ _ _ splice_local_ok). split; [done|]. destruct Hok as (Hu & Hd & _).
  pose proof (hop_payload _ _ (proj1 Hu)) as Pu. pose proof (hop_payload _ _ (proj1 Hd)) as Pd.
  rewrite (proj1 (proj2 Hu)), (proj2 (proj2 Hu)) in Pu. by rewrite (proj1 (proj2 Hd)), (proj2 (proj2 Hd)) in Pd.
Qed.

(** What was returned tells of an upgrade only after the backend's 101. *)
Lemma returned_upgraded kind breq evs c resp :
  call_inv kind breq evs c → c_response c = Some resp → upgraded kind resp →
  ∃ bresp, Answered bresp ∈ evs ∧ status bresp = 101%Z.
Proof.
  intros Hi Hr Hup. assert (returned_with kind breq (env_of evs) c) as [_ Hr'].
  { unfold call_inv, under_way in Hi. destruct (c_phase c); [naive_solver..|]. by destruct Hi. }
  rewrite Hr in Hr'. injection Hr' as ->.
  destruct (existsb handshake_ok evs); [|by apply bad_gateway_not_upgraded in Hup].
  destruct (head (omap answered evs)) as [bresp|] eqn:Ha; [|by apply bad_gateway_not_upgraded in Hup].
  exists bresp. split; [by apply answer_elem|].
  destruct kind; simpl in Hup; [exact Hup| |].
  - unfold upgrade_reply in Hup. by case_match; [apply Z.eqb_eq|].
  - destruct (Z.eqb_spec (status bresp) 101); [done|]. by apply (bad_gateway_not_upgraded WsBridge) in Hup.
Qed.

(** A bridge was spawned for a request that asked for an upgrade, and told. *)
Lemma bridge_told kind breq evs c br :
  call_inv kind breq evs c → c_bridge c = Some br →
  c_phase c = Returned ∧ bridge_inv kind evs br ∧ ∃ resp, c_response c = Some resp ∧ upgraded kind resp.
Proof.
  intros Hi Hb. unfold call_inv, under_way in Hi. destruct (c_phase c) eqn:Hph; [naive_solver..|].
  destruct Hi as ((_ & Hr) & Hi). rewrite Hb in Hi. destruct Hi as [Hh Hi]. split_and!; [done..|].
  destruct Hi as (Hk & (bresp & Ha & Hs) & Hup & _). rewrite Hh, Ha in Hr. eauto using reply_upgraded.
Qed.

(** C8: an upgrade is what the client was told.  In any sequence of events, the
    client is told that its connection changed protocols (101, or 200 for an extended
    CONNECT) only after the backend answered 101; a bridge is there exactly when the
    client was told so on a request that asks for an upgrade (a 101 nobody asked for
    is passed to the client and has none); bytes are spliced only when both streams
    were upgraded; what is passed in either direction is a prefix of what the other
    end sent; and when both ends have finished the bridge can go on until the splice
    is over. *)
Theorem upgrades_bridged kind r sni c0 evs c :
  call_start kind r sni = PSome c0 → call_run kind evs c0 = Some c →
  (∀ resp, c_response c = Some resp → upgraded kind resp →
     ∃ bresp, Answered bresp ∈ evs ∧ status bresp = 101%Z) ∧
  (is_Some (c_bridge c) ↔ kind ≠ Roundtrip ∧ ∃ resp, c_response c = Some resp ∧ upgraded kind resp) ∧
  (∀ s, c_bridge c = Some (Splicing s) →
     ClientUp ∈ evs ∧ BackendUp ∈ evs ∧
     ch_sent (h_out (sp_up s).2) `prefix_of` ch_sent (sp_up s).1 ∧
     ch_sent (h_out (sp_down s).2) `prefix_of` ch_sent (sp_down s).1 ∧
     (sp_res s = None → ch_end (sp_up s).1 ≠ Live → ch_end (sp_down s).1 ≠ Live →
        ¬ ∀ a, call_step kind c (Flow (SUp a)) = None ∧ call_step kind c (Flow (SDown a)) = None)).
Proof.
  intros Hst Hrun.
  destruct (call_run_start _ _ _ _ _ _ Hst Hrun) as [(breq & -> & Hi)|(-> & _ & -> & Hc0 & _)].
  2: { rewrite Hc0. split_and!; [by intros ? [= <-] ?%bad_gateway_not_upgraded| |done].
       split; [by intros [? ?]|]. by intros (_ & ? & [= <-] & ?%bad_gateway_not_upgraded). }
  split_and!.
  - intros resp. by apply (returned_upgraded _ breq).
  - split.
    + intros [br Hb]. destruct (bridge_told _ _ _ _ _ Hi Hb) as (_ & (Hk & _) & Hr). done.
    + intros (Hk & resp & Hr & Hup). destruct (c_bridge c) as [br|] eqn:Hb; [done|]. exfalso.
      unfold call_inv, under_way in Hi. destruct (c_phase c); [naive_solver..|]. rewrite Hb in Hi.
      by destruct (proj2 Hi Hk resp).
  - intros s Hb. destruct (bridge_told _ _ _ _ _ Hi Hb) as (Hph & (_ & _ & _ & Hcl & Hup & sevs & Hs) & _).
    destruct (splice_prefixes sevs s Hs) as (Hok & Pu & Pd). split_and!; [| |done|done|].
    + by apply client_up_elem.
    + by apply backend_up_elem.
    + intros Hn Eu Ed Hno. apply (splice_progress s Hok Hn Eu Ed). intros a. destruct (Hno a) as [Hu Hd].
      unfold call_step, bridge_step in Hu, Hd. rewrite Hph, Hb in Hu, Hd. cbn [mbind option_bind] in Hu, Hd.
      split; [by destruct (splice_step s (SUp a))|by destruct (splice_step s (SDown a))].
Qed.
End calls.

(** ** Witnesses *)

Abbreviation demo_map := (gmap string (list string)).

(** A WebSocket over h2, after [set_client_address]. *)
Definition demo_ws : Request demo_map :=
  {| method := CONNECT; uri := {| authority := Some "a.example.com"; path_and_query := Some "/chat" |};
     version := HTTP_2;
     req_headers := {[X_REAL_IP := ["192.0.2.1"]; X_FORWARDED_FOR := ["192.0.2.1"];
                      SEC_WEBSOCKET_PROTOCOL := ["chat"]]};
     protocol := Some "websocket"; has_body := false |}.

Definition demo_101 : Response demo_map :=
  {| status := 101; resp_headers := {[SEC_WEBSOCKET_PROTOCOL := ["chat"]]}; body := BackendBody |}.

Definition demo_call : call :=
  default (call_of demo_ws) (value (call_start demo_parse_uri Some "oops" WsBridge demo_ws "a.example.com")).

(** The handshake, the 101, both upgrades; the client sends a frame. *)
Definition demo_call_events : list call_ev :=
  [HandshakeOk; Answered demo_101; BackendUp; ClientUp; Flow (SUpSource (Writes (as_bytes "hi")));
   Flow (SUp (ReadSome 2)); Flow (SUp (WriteSome 1))].

Definition demo_after (n : nat) : call :=
  default demo_call (call_run "oops" WsBridge (take n demo_call_events) demo_call).

Definition demo_ws_splice : splice :=
  match c_bridge (demo_after 7) with Some (Splicing s) => s | _ => splice_local end.

Example demo_ws_passed :
  ch_sent (h_out (sp_up demo_ws_splice).2) = as_bytes "h" ∧
  (λ q, get_all (req_headers q) UPGRADE) <$> c_sent (demo_after 7) = Some ["websocket"].
Proof. split; vm_compute; reflexivity. Qed.

Lemma demo_call_start : call_start demo_parse_uri Some "oops" WsBridge demo_ws "a.example.com" = PSome demo_call.
Proof.
  unfold demo_call. destruct (call_start _ _ _ _ _ _) as [c| | |] eqn:Hc; [done|..];
    (apply (f_equal value) in Hc; apply (f_equal is_some) in Hc; vm_compute in Hc; discriminate).
Qed.

Lemma demo_call_run n :
  is_some (call_run "oops" WsBridge (take n demo_call_events) demo_call) = true →
  call_run "oops" WsBridge (take n demo_call_events) demo_call = Some (demo_after n).
Proof. unfold demo_after. by destruct (call_run _ _ _ _). Qed.

Lemma calls_as_exchanged_witness :
  ∃ ex, exchange_of demo_parse_uri Some "oops" WsBridge (env_of (take 3 demo_call_events))
      (ToLocal (Tcp "127.0.0.1:8443")) demo_ws "a.example.com" = PSome ex ∧
    response ex = ws_reply demo_101.
Proof.
  destruct (calls_as_exchanged demo_parse_uri Some "oops" WsBridge demo_ws "a.example.com"
    (ToLocal (Tcp "127.0.0.1:8443")) demo_call (take 3 demo_call_events) (demo_after 3) (ws_reply demo_101))
    as (ex & Hex & Hr & _).
  - exact demo_call_start.
  - apply demo_call_run. vm_compute. reflexivity.
  - vm_compute. reflexivity.
  - exists ex. split; [exact Hex|exact Hr].
Defined.

Lemma upgrades_bridged_witness :
  ch_sent (h_out (sp_up demo_ws_splice).2) `prefix_of` ch_sent (sp_up demo_ws_splice).1.
Proof.
  apply (upgrades_bridged demo_parse_uri Some "oops" WsBridge demo_ws "a.example.com" demo_call demo_call_events
    (demo_after 7)).
  - exact demo_call_start.
  - apply (demo_call_run 7). vm_compute. reflexivity.
  - vm_compute. reflexivity.
Defined.

(** A backend that answers an ordinary request with a 101: the client is told so, and
    nothing splices its connection. *)
Example unsolicited_upgrade :
  (λ c, (status <$> c_response c, c_bridge c)) <$>
    call_run "oops" Roundtrip [HandshakeOk; Answered demo_101] (call_of demo_ws) = Some (Some 101%Z, None).
Proof. vm_compute. reflexivity. Qed.
