(* ===== verification/Cert.v ===== *)
(** * Certificates on disk

    [crates/tuyau-server/src/cert.rs]: the certificate of the tunnel endpoint,
    whose fingerprint the clients pin ([load_or_generate]), the self-signed
    certificate of the public listener and the PEM files a deployment brings.

    The file system, the PEM reader (rustls_pemfile) and the certificate generator
    (rcgen) are class parameters with the behaviour the code relies on; randomness
    is an argument: the key pair a generation draws. *)

From S2P Require Import Prelude Bytes Stream Protocol Config.

Local Open Scope string_scope.
Local Open Scope list_scope.

(** ** The file system *)

(** [write_mode] is [OpenOptions] with [write], [create], [truncate] and a mode
    for a file it creates, followed by [write_all]. *)
Class FileSystem (FS : Type) := {
  path_exists : FS → PathBuf → bool;
  read_file : FS → PathBuf → result io_error (list byte);
  create_dir_all : PathBuf → FS → FS * result io_error ();
  write_file : PathBuf → list byte → FS → FS * result io_error ();
  write_mode : Z → PathBuf → list byte → FS → FS * result io_error ()
}.

(** A file that was written is there with those bytes; no other file changes.
    Making a directory changes no file. *)
Definition file_written {FS} `{FileSystem FS} (p : PathBuf) (b : list byte) (fs fs' : FS) : Prop :=
  path_exists fs' p = true ∧ read_file fs' p = Ok b ∧
  ∀ q, q ≠ p → path_exists fs' q = path_exists fs q ∧ read_file fs' q = read_file fs q.

Class FileSystemLaws (FS : Type) `{FileSystem FS} := {
  create_dir_ok p (fs fs' : FS) : create_dir_all p fs = (fs', Ok ()) →
    ∀ q, path_exists fs q = true → path_exists fs' q = true ∧ read_file fs' q = read_file fs q;
  write_file_ok p b (fs fs' : FS) : write_file p b fs = (fs', Ok ()) → file_written p b fs fs';
  write_mode_ok m p b (fs fs' : FS) : write_mode m p b fs = (fs', Ok ()) → file_written p b fs fs'
}.

(** [dir.join(name)] for a relative name: a separator is added unless [dir] is
    empty or ends with one. *)
Definition path_join (dir : PathBuf) (name : string) : PathBuf :=
  if is_empty dir || ends_with_char "/"%char dir then dir +:+ name else dir +:+ "/" +:+ name.

(** ** PEM and certificates *)

(** Certificates and keys are their DER bytes.  [self_signed names cn key] is
    [CertificateParams::new(names)] with that common name, [self_signed(key)]. *)
Class CertLib (KeyPair Certificate : Type) := {
  pem_certs : list byte → list (result io_error (list byte));
  pem_pkcs8_keys : list byte → list (result io_error (list byte));
  pem_private_key : list byte → result io_error (option (list byte));
  self_signed : list string → string → KeyPair → result string Certificate;
  cert_pem : Certificate → list byte;
  cert_der_of : Certificate → list byte;
  key_pem : KeyPair → list byte;
  key_der_of : KeyPair → list byte
}.

(** What was written as PEM is read back as the same DER. *)
Class CertLibLaws (KeyPair Certificate : Type) `{CertLib KeyPair Certificate} := {
  pem_certs_roundtrip c : pem_certs (cert_pem c) = [Ok (cert_der_of c)];
  pem_keys_roundtrip k : pem_pkcs8_keys (key_pem k) = [Ok (key_der_of k)]
}.

Inductive CertError :=
| CertIo (e : io_error)
| Rcgen (e : string)
| PemNoCert (path : string)
| BadCa (path e : string)
| PemNoKey (path : string).

Record CertMaterial := {
  cert_der : list byte;
  key_der : list byte;
  fingerprint : list byte
}.

Definition CERT_FILE := "tunnel-cert.pem".
Definition KEY_FILE := "tunnel-key.pem".
Definition PUBLIC_CERT_FILE := "public-cert.pem".
Definition PUBLIC_KEY_FILE := "public-key.pem".

Section cert.
Context {FS KeyPair Certificate : Type} `{FileSystem FS} `{CertLib KeyPair Certificate}.
Context (sha256 : list byte → list byte).

(** Reading the files: nothing is changed. *)

Definition read_first_cert (fs : FS) (path : PathBuf) : result CertError (list byte) :=
  file ← map_err CertIo (read_file fs path);
  first ← ok_or (PemNoCert path) (head (pem_certs file));
  map_err CertIo first.

Definition read_first_pkcs8_key (fs : FS) (path : PathBuf) : result CertError (list byte) :=
  file ← map_err CertIo (read_file fs path);
  first ← ok_or (PemNoKey path) (head (pem_pkcs8_keys file));
  map_err CertIo first.

Definition load (fs : FS) (cert_path key_path : PathBuf) : result CertError CertMaterial :=
  cert ← read_first_cert fs cert_path;
  key ← read_first_pkcs8_key fs key_path;
  Ok {| cert_der := cert; key_der := key; fingerprint := sha256 cert |}.

(** [collect::<Result<Vec<_>, _>>()] *)
Fixpoint collect_results {E A} (l : list (result E A)) : result E (list A) :=
  match l with
  | [] => Ok []
  | r :: l => x ← r; xs ← collect_results l; Ok (x :: xs)
  end.

Definition load_chain (fs : FS) (cert_path key_path : PathBuf) :
    result CertError (list (list byte) * list byte) :=
  cert_file ← map_err CertIo (read_file fs cert_path);
  chain ← map_err CertIo (collect_results (pem_certs cert_file));
  if is_nil chain then Err (PemNoCert cert_path)
  else
    key_file ← map_err CertIo (read_file fs key_path);
    key ← map_err CertIo (pem_private_key key_file);
    key ← ok_or (PemNoKey key_path) key;
    Ok (chain, key).

(** [RootCertStore::add], by its error; the store is the certificates added. *)
Context (add_root : list byte → result string ()).

Fixpoint add_roots (path : PathBuf) (certs : list (result io_error (list byte)))
    (roots : list (list byte)) : result CertError (list (list byte)) :=
  match certs with
  | [] => Ok roots
  | c :: certs =>
      cert ← map_err CertIo c;
      _ ← map_err (BadCa path) (add_root cert);
      add_roots path certs (roots ++ [cert])
  end.

Definition load_roots (fs : FS) (path : PathBuf) : result CertError (list (list byte)) :=
  file ← map_err CertIo (read_file fs path);
  roots ← add_roots path (pem_certs file) [];
  if is_nil roots then Err (PemNoCert path) else Ok roots.

(** Writing them. *)

Definition write_key_secure (path : PathBuf) (contents : list byte) (fs : FS) :
    FS * result io_error () := write_mode (6 * 8 * 8) path contents fs.

(** The certificate [cert] of [key_pair], written to the two paths. *)
Definition store (cert_path key_path : PathBuf) (cert : Certificate) (key_pair : KeyPair) (fs : FS) :
    FS * result CertError CertMaterial :=
  match write_file cert_path (cert_pem cert) fs with
  | (fs, Err e) => (fs, Err (CertIo e))
  | (fs, Ok _) =>
      match write_key_secure key_path (key_pem key_pair) fs with
      | (fs, Err e) => (fs, Err (CertIo e))
      | (fs, Ok _) =>
          (fs, Ok {| cert_der := cert_der_of cert; key_der := key_der_of key_pair;
                     fingerprint := sha256 (cert_der_of cert) |})
      end
  end.

(** [KeyPair::generate_for] is the argument [drawn]. *)
Definition generate (drawn : result string KeyPair) (dir cert_path key_path : PathBuf) (fs : FS) :
    FS * result CertError CertMaterial :=
  match create_dir_all dir fs with
  | (fs, Err e) => (fs, Err (CertIo e))
  | (fs, Ok _) =>
      match (key_pair ← map_err Rcgen drawn;
             cert ← map_err Rcgen (self_signed ["tuyau-tunnel"] "tuyau-tunnel" key_pair);
             Ok (key_pair, cert)) with
      | Err e => (fs, Err e)
      | Ok (key_pair, cert) => store cert_path key_path cert key_pair fs
      end
  end.

Definition load_or_generate (drawn : result string KeyPair) (dir : PathBuf) (fs : FS) :
    FS * result CertError CertMaterial :=
  let cert_path := path_join dir CERT_FILE in
  let key_path := path_join dir KEY_FILE in
  if path_exists fs cert_path && path_exists fs key_path
  then (fs, load fs cert_path key_path)
  else generate drawn dir cert_path key_path fs.

Definition generate_public_cert (drawn : result string KeyPair) (hostnames : list string)
    (dir : PathBuf) (fs : FS) : FS * result CertError CertMaterial :=
  match create_dir_all dir fs with
  | (fs, Err e) => (fs, Err (CertIo e))
  | (fs, Ok _) =>
      let san_list := if is_nil hostnames then ["tuyau-public"] else hostnames in
      let cn := default "tuyau-public" (head hostnames) in
      match (key_pair ← map_err Rcgen drawn;
             cert ← map_err Rcgen (self_signed san_list cn key_pair);
             Ok (key_pair, cert)) with
      | Err e => (fs, Err e)
      | Ok (key_pair, cert) =>
          store (path_join dir PUBLIC_CERT_FILE) (path_join dir PUBLIC_KEY_FILE) cert key_pair fs
      end
  end.

(** ** Lemmas *)

Context `{!FileSystemLaws FS} `{!CertLibLaws KeyPair Certificate}.

Lemma store_loads cert_path key_path cert key_pair fs fs' m :
  cert_path ≠ key_path → store cert_path key_path cert key_pair fs = (fs', Ok m) →
  path_exists fs' cert_path = true ∧ path_exists fs' key_path = true ∧
  load fs' cert_path key_path = Ok m ∧
  ∀ q, q ≠ cert_path → q ≠ key_path →
    path_exists fs' q = path_exists fs q ∧ read_file fs' q = read_file fs q.
Proof.
  intros Hne. unfold store. destruct (write_file _ _ fs) as [fs1 [[]|e]] eqn:E1; [|done].
  destruct (write_key_secure _ _ fs1) as [fs2 [[]|e]] eqn:E2; [|done]. intros [= <- <-].
  apply write_file_ok in E1 as (X1 & R1 & O1). apply write_mode_ok in E2 as (X2 & R2 & O2).
  destruct (O2 cert_path Hne) as [X3 R3]. split_and!; [congruence|done| |].
  - unfold load, read_first_cert, read_first_pkcs8_key. rewrite R3, R1, R2. cbn.
    by rewrite pem_certs_roundtrip, pem_keys_roundtrip.
  - intros q Hq1 Hq2. destruct (O1 q Hq1), (O2 q Hq2). split; congruence.
Qed.

Lemma append_inj (a b c : string) : a +:+ b = a +:+ c → b = c.
Proof. induction a as [|x a IH]; [done|]. rewrite !append_cons. by intros [= ?%IH]. Qed.

Lemma path_join_inj dir a b : path_join dir a = path_join dir b → a = b.
Proof.
  unfold path_join. destruct (_ || _); [by intros ?%append_inj|by intros ?%append_inj%append_inj].
Qed.

(** ** Theorems *)

(** The two files of the tunnel's certificate are there and hold [m]. *)
Definition identity_on_disk (dir : PathBuf) (m : CertMaterial) (fs : FS) : Prop :=
  path_exists fs (path_join dir CERT_FILE) = true ∧ path_exists fs (path_join dir KEY_FILE) = true ∧
  load fs (path_join dir CERT_FILE) (path_join dir KEY_FILE) = Ok m.

Lemma load_or_generate_on_disk drawn dir fs fs' m :
  load_or_generate drawn dir fs = (fs', Ok m) → identity_on_disk dir m fs'.
Proof.
  unfold load_or_generate, identity_on_disk.
  destruct (path_exists fs _ && path_exists fs _) eqn:Ee.
  - apply andb_prop in Ee as [? ?]. by intros [= <- ?].
  - unfold generate. destruct (create_dir_all dir fs) as [fs1 [[]|e]]; [|done].
    destruct (_ ← map_err Rcgen drawn; _) as [[k c]|e]; [|done].
    intros (? & ? & ? & _)%store_loads; [done|]. by intros ?%path_join_inj.
Qed.

Lemma on_disk_load dir m fs drawn :
  identity_on_disk dir m fs → load_or_generate drawn dir fs = (fs, Ok m).
Proof. intros (Hc & Hk & Hl). unfold load_or_generate. by rewrite Hc, Hk, Hl. Qed.

Lemma on_disk_kept dir m fs fs' :
  (∀ q, q = path_join dir CERT_FILE ∨ q = path_join dir KEY_FILE → path_exists fs q = true →
     path_exists fs' q = true ∧ read_file fs' q = read_file fs q) →
  identity_on_disk dir m fs → identity_on_disk dir m fs'.
Proof.
  intros Hkeep (Hc & Hk & Hl). destruct (Hkeep _ (or_introl eq_refl) Hc) as [Hc' Rc].
  destruct (Hkeep _ (or_intror eq_refl) Hk) as [Hk' Rk]. split_and!; [done..|].
  rewrite <- Hl. unfold load, read_first_cert, read_first_pkcs8_key. by rewrite Rc, Rk.
Qed.

Lemma generate_public_keeps drawn hosts dir m fs fs' m' :
  identity_on_disk dir m fs → generate_public_cert drawn hosts dir fs = (fs', Ok m') →
  identity_on_disk dir m fs'.
Proof.
  intros Hd Hg. unfold generate_public_cert in Hg.
  destruct (create_dir_all dir fs) as [fs1 [[]|e]] eqn:Ed; [|done].
  destruct (_ ← map_err Rcgen drawn; _) as [[k c]|e]; [|done].
  apply store_loads in Hg as (_ & _ & _ & Hother); [|by intros ?%path_join_inj].
  eapply on_disk_kept; [|exact Hd]. intros q Hq Hex.
  destruct (create_dir_ok _ _ _ Ed q Hex) as [Hex1 Hr1].
  destruct (Hother q) as [Hex2 Hr2]; [destruct Hq as [-> | ->]; by intros ?%path_join_inj..|].
  split; congruence.
Qed.

(** The identity the clients pin survives restarts.  Whenever
    [load_or_generate] succeeds, on a first start that generates or on a later one
    that loads, every later start finds the files and yields the same certificate,
    key and fingerprint, whatever key a new generation would draw, and leaves the
    files alone; and so it does after the public listener's self-signed
    certificate was generated into the same directory. *)
Theorem identity_stable drawn dir fs fs' m :
  load_or_generate drawn dir fs = (fs', Ok m) →
  (∀ drawn', load_or_generate drawn' dir fs' = (fs', Ok m)) ∧
  (∀ drawn1 hostnames fs2 m2, generate_public_cert drawn1 hostnames dir fs' = (fs2, Ok m2) →
     ∀ drawn', load_or_generate drawn' dir fs2 = (fs2, Ok m)).
Proof.
  intros Hd%load_or_generate_on_disk. split; [intros; by apply on_disk_load|].
  intros drawn1 hosts fs2 m2 Hg drawn'. apply on_disk_load. by eapply generate_public_keeps.
Qed.

(** A chain is served whole and never empty: [load_chain] succeeds exactly
    when every certificate of the first file can be read, there is at least one,
    and the second file has a key; it yields all of them, in order. *)
Theorem load_chain_complete fs cert_path key_path chain key :
  load_chain fs cert_path key_path = Ok (chain, key) ↔
  chain ≠ [] ∧ (∃ file, read_file fs cert_path = Ok file ∧ pem_certs file = Ok <$> chain) ∧
  (∃ file, read_file fs key_path = Ok file ∧ pem_private_key file = Ok (Some key)).
Proof.
  assert (∀ (l : list (result io_error (list byte))) xs, collect_results l = Ok xs ↔ l = Ok <$> xs) as Hcol.
  { intros l. induction l as [|r l IH]; intros xs; simpl.
    - split; [by intros [= <-]|]. by destruct xs.
    - split.
      + intros (x & -> & (ys & ->%IH & [= <-])%result_bind_Ok)%result_bind_Ok. done.
      + destruct xs as [|x xs]; [done|]. intros [= -> Hl]. cbn. by rewrite (proj2 (IH xs) Hl). }
  unfold load_chain. split.
  - destruct (read_file fs cert_path) as [file|e]; [|done]. cbn.
    destruct (collect_results _) as [ch|e] eqn:Ec; [|done]. apply Hcol in Ec. cbn.
    destruct ch as [|c ch]; [done|]. cbn. destruct (read_file fs key_path) as [kfile|e]; [|done]. cbn.
    destruct (pem_private_key kfile) as [[k|]|e] eqn:Ek; [|done..]. cbn. intros [= <- <-]. eauto 10.
  - intros (Hne & (file & -> & Hp) & (kfile & -> & Hk)). cbn. rewrite (proj2 (Hcol _ _) Hp). cbn.
    destruct chain; [done|]. cbn. by rewrite Hk.
Qed.
End cert.

(** ** Witnesses *)

(** Files in a map; directories are not kept. *)
#[export] Instance demo_fs : FileSystem (gmap string (list byte)) := {
  path_exists fs p := is_some (fs !! p);
  read_file fs p := ok_or "not found" (fs !! p);
  create_dir_all _ fs := (fs, Ok ());
  write_file p b fs := (<[p := b]> fs, Ok ());
  write_mode _ p b fs := (<[p := b]> fs, Ok ())
}.

#[export] Instance demo_fs_laws : FileSystemLaws (gmap string (list byte)).
Proof.
  split; unfold file_written; simpl; intros; simplify_eq; [done|..];
    (split_and!; [by rewrite lookup_insert_eq..|]);
    intros q ?; by rewrite !lookup_insert_ne.
Qed.

(** PEM that is its DER, key pairs that are their bytes. *)
#[export] Instance demo_cert_lib : CertLib (list byte) (list byte) := {
  pem_certs b := [Ok b]; pem_pkcs8_keys b := [Ok b]; pem_private_key b := Ok (Some b);
  self_signed names cn k := Ok (as_bytes cn ++ k);
  cert_pem c := c; cert_der_of c := c; key_pem k := k; key_der_of k := k
}.

#[export] Instance demo_cert_lib_laws : CertLibLaws (list byte) (list byte).
Proof. by split. Qed.

Definition demo_boot (drawn : list byte) (fs : gmap string (list byte)) :=
  load_or_generate (λ c, c) (Ok drawn) "certs" fs.

Lemma identity_stable_witness :
  fingerprint <$> value (match (demo_boot [x02] (demo_boot [x01] ∅).1).2 with
                         | Ok m => PSome m | Err _ => PNone end) =
  Some (as_bytes "tuyau-tunnel" ++ [x01]).
Proof.
  assert (demo_boot [x01] ∅ = ((demo_boot [x01] ∅).1,
    Ok {| cert_der := as_bytes "tuyau-tunnel" ++ [x01]; key_der := [x01];
          fingerprint := as_bytes "tuyau-tunnel" ++ [x01] |})) as E by (vm_compute; reflexivity).
  unfold demo_boot in *. rewrite (proj1 (identity_stable _ _ _ _ _ _ E) (Ok [x02])). reflexivity.
Defined.
