(* ===== verification/HostCerts.v ===== *)
(** * Certificates of the public listener

    [crates/tuyau-server/src/host_certs.rs] (the certificates of single entries)
    and the resolvers of [server.rs]: [StaticResolver], [MultiResolver],
    [AcmeController::ensure] and [build_cert_resolver].

    A certificate with its key is an element of a type [K]; reading one from its
    files, generating one, and the resolver of an ACME order (rustls-acme) are
    parameters, since they are file access and libraries.  A resolver is a function
    from the SNI. *)

From S2P Require Import Prelude Bytes Protocol Config Routes.

Local Open Scope string_scope.
Local Open Scope list_scope.

Section certs.
Context {K E : Type}.

(** [ResolvesServerCert::resolve], on the server name of the ClientHello. *)
Definition Resolver : Type := option string → option K.

(** ** Certificates of entries *)

(** The map of [HostCerts], by lowercase host or pattern. *)
Definition HostCerts : Type := gmap string K.

(** The state of the loop of [load]: the files loaded so far, the map, and the
    reads made, in order. *)
Record load_state := {
  loaded : gmap (PathBuf * PathBuf) K;
  certs : HostCerts;
  reads : list (PathBuf * PathBuf)
}.

(** [load_chain(cert, key)] and the conversion of the key. *)
Context (load_chain : PathBuf → PathBuf → result E K).

Definition load_entry (st : load_state) (e : string * TlsMode * option PathBuf * option PathBuf) :
    result E load_state :=
  let '(host, _, cert_file, key_file) := e in
  match cert_file, key_file with
  | Some cert_file, Some key_file =>
      match loaded st !! (cert_file, key_file) with
      | Some certified =>
          Ok {| loaded := loaded st; certs := <[to_ascii_lowercase host := certified]> (certs st);
                reads := reads st |}
      | None =>
          certified ← load_chain cert_file key_file;
          Ok {| loaded := <[(cert_file, key_file) := certified]> (loaded st);
                certs := <[to_ascii_lowercase host := certified]> (certs st);
                reads := reads st ++ [(cert_file, key_file)] |}
      end
  | _, _ => Ok st
  end.

Fixpoint load_entries (st : load_state)
    (l : list (string * TlsMode * option PathBuf * option PathBuf)) : result E load_state :=
  match l with
  | [] => Ok st
  | e :: l => st ← load_entry st e; load_entries st l
  end.

Definition load_init : load_state := {| loaded := ∅; certs := ∅; reads := [] |}.

Definition load (cfg : ServerConfig) : result E HostCerts :=
  certs <$> load_entries load_init (host_certs cfg).

(** [select(host)], [covers(host)] *)
Definition select (hc : HostCerts) (host : string) : option K :=
  let host := to_ascii_lowercase (trim_end_matches "."%char host) in
  find_map (λ pattern, hc !! pattern) (host_patterns host).

Definition covers (hc : HostCerts) (host : string) : bool := is_some (select hc host).

(** [HostCertResolver::resolve] *)
Definition host_cert_resolve (hc : HostCerts) (default : Resolver) : Resolver := λ sni,
  match (sni ← sni; select hc sni) with
  | Some certified => Some certified
  | None => default sni
  end.

(** [resolver(self, default)] *)
Definition resolver (hc : HostCerts) (default : Resolver) : Resolver :=
  if decide (hc = ∅) then default else host_cert_resolve hc default.

(** ** The server-wide resolvers *)

Definition static_resolve (k : K) : Resolver := λ _, Some k.

(** [MultiResolver::resolve]: the certificates of provisioned hosts first. *)
Record MultiResolver := {
  static_resolver : Resolver;
  dynamic : gmap string Resolver
}.

Definition multi_resolve (m : MultiResolver) : Resolver := λ sni,
  match (s ← sni; dynamic m !! to_ascii_lowercase s) with
  | Some r => r sni
  | None => static_resolver m sni
  end.

Record AcmeController := {
  multi : MultiResolver;
  static_domains : gset string;
  added : gset string
}.

(** The resolver of the rustls-acme state for these names. *)
Context (acme_resolver : list string → Resolver).

(** [build_acme_state(cfg, hostnames, cancel)]: it spawns the loop that drives the
    order and returns the resolver. *)
Definition build_acme_state (hostnames : list string) : result E Resolver :=
  Ok (acme_resolver hostnames).

(** One domain of the loop of [AcmeController::ensure]: [added.insert(d)] is undone
    when the order cannot be started. *)
Definition ensure_one (raw : string) (c : AcmeController) : AcmeController :=
  let d := to_ascii_lowercase raw in
  if decide (d ∈ static_domains c ∨ d ∈ added c) then c
  else match build_acme_state [d] with
       | Ok r =>
           {| multi := {| static_resolver := static_resolver (multi c);
                          dynamic := <[d := r]> (dynamic (multi c)) |};
              static_domains := static_domains c;
              added := {[d]} ∪ added c |}
       | Err _ =>
           {| multi := multi c; static_domains := static_domains c;
              added := ({[d]} ∪ added c) ∖ {[d]} |}
       end.

Fixpoint ensure (domains : list string) (c : AcmeController) : AcmeController :=
  match domains with
  | [] => c
  | raw :: domains => ensure domains (ensure_one raw c)
  end.

(** [generate_public_cert(names)] as a certificate. *)
Context (generate_public_cert : list string → result E K).

Definition build_cert_resolver (acme : option AcmeSection) (tls_cert tls_key : option PathBuf)
    (terminated shared : list string) : result E (Resolver * option AcmeController) :=
  let self_signed :=
    match tls_cert, tls_key with
    | Some cf, Some kf => k ← load_chain cf kf; Ok (static_resolve k, None)
    | _, _ => k ← generate_public_cert shared; Ok (static_resolve k, None)
    end in
  match acme with
  | None => self_signed
  | Some _ =>
      if is_nil terminated then self_signed
      else
        static ← (if is_nil shared then static_resolve <$> generate_public_cert []
                  else build_acme_state shared);
        let m := {| static_resolver := static; dynamic := ∅ |} in
        Ok (multi_resolve m,
            Some {| multi := m; static_domains := collect_set (to_ascii_lowercase <$> terminated);
                    added := ∅ |})
  end.

(** The certificates of [start_inner]: the entries' own ones, the names the
    server-wide certificate has to cover, and the resolver of the listener. *)
Definition terminated_hostnames (cfg : ServerConfig) : list string :=
  (λ e, e.1.1.1) <$> filter (λ e, terminates e.1.1.2 = true) (host_certs cfg).

Definition shared_hostnames (hc : HostCerts) (hosts : list string) : list string :=
  filter (λ host, negb (contains "*"%char host) && negb (covers hc host) = true) hosts.

Definition start_certs (cfg : ServerConfig) :
    result E (HostCerts * (Resolver * option AcmeController)) :=
  hc ← load cfg;
  let hosts := terminated_hostnames cfg in
  b ← build_cert_resolver (acme cfg) (tls_cert_file cfg) (tls_key_file cfg) hosts
        (shared_hostnames hc hosts);
  Ok (hc, b).

(** The listener shares the [MultiResolver] with the controller, so what it
    resolves with is the controller's current one when there is a controller. *)
Definition bundle_resolver (b : Resolver * option AcmeController) : Resolver :=
  match b.2 with Some c => multi_resolve (multi c) | None => b.1 end.

Definition listener_resolver (hc : HostCerts) (b : Resolver * option AcmeController) : Resolver :=
  resolver hc (bundle_resolver b).

(** [TunnelServer::set_terminated_domains], its effect on the certificates. *)
Definition set_terminated_certs (domains : list string) (b : Resolver * option AcmeController) :
    Resolver * option AcmeController :=
  match b.2 with
  | Some acme => (b.1, Some (ensure domains acme))
  | None => b
  end.

(** ** Lemmas *)

(** The (lowercase host, files) of the entries with a certificate. *)
Definition cert_entry (e : string * TlsMode * option PathBuf * option PathBuf) :
    option (string * (PathBuf * PathBuf)) :=
  let '(host, _, cf, kf) := e in
  match cf, kf with
  | Some cf, Some kf => Some (to_ascii_lowercase host, (cf, kf))
  | _, _ => None
  end.

(** What [load] has done after the entries [l]. *)
Definition load_inv (l : list (string * TlsMode * option PathBuf * option PathBuf))
    (st : load_state) : Prop :=
  (∀ p k, loaded st !! p = Some k ↔ p ∈ reads st ∧ load_chain p.1 p.2 = Ok k) ∧
  NoDup (reads st) ∧
  (∀ p, p ∈ reads st ↔ ∃ h, (h, p) ∈ omap cert_entry l) ∧
  (∀ h k, certs st !! h = Some k ↔
     ∃ p, collect_map (omap cert_entry l) !! h = Some p ∧ load_chain p.1 p.2 = Ok k).

Lemma collect_map_snoc {V} (l : list (string * V)) h v :
  collect_map (l ++ [(h, v)]) = <[h := v]> (collect_map l).
Proof. unfold collect_map. by rewrite foldl_app. Qed.

Lemma elem_of_omap_snoc l e h p :
  (h, p) ∈ omap cert_entry (l ++ [e]) ↔ (h, p) ∈ omap cert_entry l ∨ cert_entry e = Some (h, p).
Proof.
  rewrite omap_app, elem_of_app. simpl. destruct (cert_entry e) as [q|]; simpl.
  - rewrite list_elem_of_singleton. intuition congruence.
  - rewrite elem_of_nil. intuition congruence.
Qed.

(** Adding an entry whose files are now loaded. *)
Lemma load_inv_snoc l st st' e h p k :
  load_inv l st → cert_entry e = Some (h, p) → load_chain p.1 p.2 = Ok k →
  (∀ q k', loaded st' !! q = Some k' ↔ q ∈ reads st' ∧ load_chain q.1 q.2 = Ok k') →
  NoDup (reads st') → (∀ q, q ∈ reads st' ↔ q ∈ reads st ∨ q = p) →
  certs st' = <[h := k]> (certs st) →
  load_inv (l ++ [e]) st'.
Proof.
  intros (_ & _ & Hreads & Hcerts) He Hk Hl Hnd Hr Hc. split_and!; [done|done|..].
  - intros q. rewrite Hr, Hreads. setoid_rewrite elem_of_omap_snoc. rewrite He. split.
    + intros [[h' ?]| ->]; eauto.
    + intros [h' [?|[= <- <-]]]; eauto.
  - intros h' k'. rewrite omap_app. simpl. rewrite He, collect_map_snoc, Hc.
    destruct (decide (h = h')) as [<-|Hne].
    + setoid_rewrite lookup_insert_eq. split; [intros; simplify_eq; eauto|].
      intros (q & ? & ?). simplify_eq. congruence.
    + setoid_rewrite lookup_insert_ne; [|done..]. apply Hcerts.
Qed.

Lemma load_entry_inv l st e st' :
  load_inv l st → load_entry st e = Ok st' → load_inv (l ++ [e]) st'.
Proof.
  intros Hinv. unfold load_entry. destruct e as [[[host mode] cf] kf].
  destruct cf as [cf|]; [destruct kf as [kf|]|].
  2,3: intros [= <-]; destruct Hinv as (H1 & H2 & H3 & H4); split_and!; [done|done|..]; intros *;
    rewrite ?omap_app; simpl; rewrite ?app_nil_r; auto.
  pose proof Hinv as (Hl & Hnd & Hreads & _).
  destruct (loaded st !! (cf, kf)) as [k|] eqn:Ek.
  - intros [= <-]. apply Hl in Ek as [Hin Hk].
    eapply (load_inv_snoc l st _ _ (to_ascii_lowercase host) (cf, kf) k); try done.
    intros q. split; [by left|]. by intros [?| ->].
  - intros (k & Hk & [= <-])%result_bind_Ok.
    assert ((cf, kf) ∉ reads st) as Hnot by (intros Hin; rewrite (proj2 (Hl (cf, kf) k)) in Ek; done).
    eapply (load_inv_snoc l st _ _ (to_ascii_lowercase host) (cf, kf) k); try done; simpl.
    + intros q k'. rewrite elem_of_app, list_elem_of_singleton.
      destruct (decide ((cf, kf) = q)) as [<-|Hne].
      * rewrite lookup_insert_eq. simpl. rewrite Hk. intuition congruence.
      * rewrite lookup_insert_ne by done. rewrite Hl. intuition congruence.
    + apply NoDup_app. split_and!; [done| |apply NoDup_singleton].
      by intros q Hq ->%list_elem_of_singleton.
    + intros q. by rewrite elem_of_app, list_elem_of_singleton.
Qed.

Lemma load_entries_inv l0 l st st' :
  load_inv l0 st → load_entries st l = Ok st' → load_inv (l0 ++ l) st'.
Proof.
  revert l0 st. induction l as [|e l IH]; intros l0 st Hinv; simpl.
  - intros [= <-]. by rewrite app_nil_r.
  - intros (st1 & H1 & H2)%result_bind_Ok. rewrite cons_middle, app_assoc.
    eapply IH; [|done]. by eapply load_entry_inv.
Qed.

Lemma load_init_inv : load_inv [] load_init.
Proof.
  unfold load_inv, load_init; simpl. split_and!; [|constructor|..].
  - intros p k. split; [by intros ?%lookup_empty_Some|by intros [[]%not_elem_of_nil _]].
  - intros p. split; [by intros []%not_elem_of_nil|by intros [h []%not_elem_of_nil]].
  - intros h k. split; [by intros ?%lookup_empty_Some|].
    unfold collect_map; simpl. by intros (p & ?%lookup_empty_Some & _).
Qed.

Lemma load_entries_Err l st e :
  load_entries st l = Err e → ∃ h p, (h, p) ∈ omap cert_entry l ∧ load_chain p.1 p.2 = Err e.
Proof.
  revert st. induction l as [|x l IH]; intros st; simpl; [done|].
  rewrite result_bind_Err. intros [Hx|(st' & _ & Hl)].
  - unfold load_entry in Hx. destruct x as [[[host mode] [cf|]] [kf|]]; simplify_eq/=.
    destruct (loaded st !! (cf, kf)); [done|].
    apply result_bind_Err in Hx as [Hx|(k & _ & ?)]; [|done].
    exists (to_ascii_lowercase host), (cf, kf). split; [left|done].
  - destruct (IH st' Hl) as (h & p & Hin & He). exists h, p. split; [|done].
    destruct (cert_entry x); [by right|done].
Qed.

Lemma load_entries_chain l st st' h cf kf e :
  load_entries st l = Ok st' → (h, (cf, kf)) ∈ omap cert_entry l → load_chain cf kf = Err e →
  (∀ p k, loaded st !! p = Some k → load_chain p.1 p.2 = Ok k) → False.
Proof.
  revert st. induction l as [|x l IH]; intros st; simpl; [by intros _ ?%not_elem_of_nil|].
  intros (st1 & H1 & H2)%result_bind_Ok Hin He Hlo.
  assert (∀ p k, loaded st1 !! p = Some k → load_chain p.1 p.2 = Ok k) as Hlo1.
  { unfold load_entry in H1. destruct x as [[[host mode] [c|]] [q|]]; simplify_eq/=; try done.
    destruct (loaded st !! (c, q)) eqn:Eq; [by simplify_eq|].
    apply result_bind_Ok in H1 as (k & Hk & [= <-]). cbn [loaded]. intros p k' [[<- <-]|[_ ?]]%lookup_insert_Some; auto. }
  destruct (cert_entry x) as [y|] eqn:Ex; [|by eapply IH].
  apply elem_of_cons in Hin as [<-|Hin]; [|by eapply IH].
  unfold load_entry in H1. destruct x as [[[host mode] [c|]] [q|]]; simplify_eq/=.
  destruct (loaded st !! (cf, kf)) eqn:Eq; [apply Hlo in Eq; simpl in Eq; congruence|].
  apply result_bind_Ok in H1 as (k & Hk & _). congruence.
Qed.

Lemma resolver_eq hc default sni : resolver hc default sni = host_cert_resolve hc default sni.
Proof.
  unfold resolver. case_decide as He; [|done]. subst. unfold host_cert_resolve.
  destruct sni as [s|]; simpl; [|done]. unfold select.
  rewrite (proj2 (find_map_None _ _)); [done|]. intros x _. apply lookup_empty.
Qed.

Lemma trim_end_lower c s :
  ascii_lower c = c → (∀ d, ascii_lower d = c → d = c) →
  to_ascii_lowercase (trim_end_matches c s) = trim_end_matches c (to_ascii_lowercase s).
Proof.
  intros Hc Hinj. induction s as [|d s IH]; simpl; [done|]. rewrite <- IH.
  assert (bool_decide (ascii_lower d = c) = bool_decide (d = c)) as ->.
  { apply bool_decide_ext. split; [apply Hinj|by intros ->]. }
  destruct (trim_end_matches c s); simpl; by destruct (bool_decide (d = c)).
Qed.

(** Selection depends on the name only up to letter case. *)
Lemma select_lower hc s t :
  to_ascii_lowercase s = to_ascii_lowercase t → select hc s = select hc t.
Proof.
  intros Heq. unfold select. rewrite !trim_end_lower, Heq; [done|..];
    (done || by intros [[] [] [] [] [] [] [] []]).
Qed.

(** ** Theorems *)

(** The certificates of the entries are loaded faithfully: the map has, for
    each lowercase host, the certificate in the files of its (last) entry and
    nothing else; each pair of files is read exactly once, however many entries
    share it; and a failure to load is the failure of some entry's files. *)
Theorem host_certs_loaded cfg :
  match load_entries load_init (host_certs cfg) with
  | Ok st =>
      load cfg = Ok (certs st) ∧
      (∀ h k, certs st !! h = Some k ↔
         ∃ p, collect_map (omap cert_entry (host_certs cfg)) !! h = Some p ∧
           load_chain p.1 p.2 = Ok k) ∧
      NoDup (reads st) ∧
      (∀ p, p ∈ reads st ↔ ∃ h, (h, p) ∈ omap cert_entry (host_certs cfg))
  | Err e =>
      load cfg = Err e ∧
      ∃ h p, (h, p) ∈ omap cert_entry (host_certs cfg) ∧ load_chain p.1 p.2 = Err e
  end.
Proof.
  unfold load. destruct (load_entries load_init (host_certs cfg)) as [st|e] eqn:El.
  - apply (load_entries_inv [] _ _ _ load_init_inv) in El as (_ & ? & ? & ?). by split_and!.
  - split; [done|]. by eapply load_entries_Err.
Qed.

(** The certificate served follows the entries, then the provisioned hosts,
    then the server-wide one.  For an SNI in any letter case, with or without a
    trailing dot: the certificate of the entry of that name, or of its wildcard,
    or of the catch-all; else the resolver of the host if it was provisioned;
    else the static resolver. *)
Theorem cert_selection hc m sni :
  resolver hc (multi_resolve m) (Some sni) =
  let host := to_ascii_lowercase (trim_end_matches "."%char sni) in
  match hc !! host with
  | Some k => Some k
  | None =>
      match split_once "."%char host ≫= (λ ap, hc !! ("*." +:+ ap.2)) with
      | Some k => Some k
      | None =>
          match hc !! "*" with
          | Some k => Some k
          | None => default (static_resolver m) (dynamic m !! to_ascii_lowercase sni) (Some sni)
          end
      end
  end.
Proof.
  rewrite resolver_eq. unfold host_cert_resolve, select, host_patterns. simpl.
  destruct (hc !! to_ascii_lowercase _) as [k|] eqn:E1.
  { by destruct (split_once _ _) as [[a p]|]; simpl; rewrite E1. }
  destruct (split_once _ _) as [[a p]|]; simpl; rewrite E1.
  - destruct (hc !! ("*." +:+ p)); [done|]. destruct (hc !! "*"); [done|].
    unfold multi_resolve. simpl. by destruct (dynamic m !! _).
  - destruct (hc !! "*"); [done|]. unfold multi_resolve. simpl. by destruct (dynamic m !! _).
Qed.

(** ** Provisioning *)

(** The bookkeeping of the controller. *)
Definition controller_wf (c : AcmeController) : Prop :=
  added c = dom (dynamic (multi c)) ∧ added c ## static_domains c.

(** [d] is provisioned by [ensure domains]. *)
Definition provisions (domains : list string) (c : AcmeController) (d : string) : Prop :=
  d ∈ (to_ascii_lowercase <$> domains) ∧ d ∉ static_domains c.

Lemma provisions_cons raw domains c d :
  provisions (raw :: domains) c d ↔
  (d = to_ascii_lowercase raw ∧ d ∉ static_domains c) ∨ provisions domains c d.
Proof. clear load_chain generate_public_cert. unfold provisions. csimpl. rewrite elem_of_cons. tauto. Qed.

Lemma ensure_one_spec raw c :
  controller_wf c →
  let c' := ensure_one raw c in
  controller_wf c' ∧ static_resolver (multi c') = static_resolver (multi c) ∧
  static_domains c' = static_domains c ∧ dynamic (multi c) ⊆ dynamic (multi c') ∧
  (∀ d, d ∈ added c' ↔
     d ∈ added c ∨ d = to_ascii_lowercase raw ∧ d ∉ static_domains c).
Proof.
  clear load_chain generate_public_cert.
  intros [Hdom Hdisj]. unfold ensure_one. set (d0 := to_ascii_lowercase raw). case_decide as Hd; simpl.
  { split_and!; try done. intros d. split; [tauto|].
    intros [?|[-> ?]]; [done|]. by destruct Hd. }
  apply Decidable.not_or in Hd as [Hs Ha]. split_and!; try done.
  - split; simpl; [by rewrite dom_insert_L, Hdom|].
    intros d [->%elem_of_singleton|?]%elem_of_union; [done|by apply Hdisj].
  - apply insert_subseteq, not_elem_of_dom. by rewrite <- Hdom.
  - intros d. rewrite elem_of_union, elem_of_singleton. split; [intros [->|?]; tauto|tauto].
Qed.

Lemma ensure_spec domains c :
  controller_wf c →
  let c' := ensure domains c in
  controller_wf c' ∧ static_resolver (multi c') = static_resolver (multi c) ∧
  static_domains c' = static_domains c ∧ dynamic (multi c) ⊆ dynamic (multi c') ∧
  (∀ d, d ∈ added c' ↔ d ∈ added c ∨ provisions domains c d).
Proof.
  clear load_chain generate_public_cert.
  revert c. induction domains as [|raw domains IH]; intros c Hwf.
  { split_and!; try done; try apply Hwf. intros d. unfold provisions. csimpl.
    rewrite elem_of_nil. tauto. }
  destruct (ensure_one_spec raw c Hwf) as (Hwf1 & Hr1 & Hs1 & Hsub1 & Ha1).
  destruct (IH (ensure_one raw c) Hwf1) as (Hwf2 & Hr2 & Hs2 & Hsub2 & Ha2).
  simpl. split_and!; try congruence; try apply Hwf2; [by etrans|].
  intros d. rewrite Ha2, Ha1, provisions_cons. unfold provisions. rewrite Hs1. tauto.
Qed.

Lemma ensure_skip domains c :
  (∀ d, d ∈ (to_ascii_lowercase <$> domains) → d ∈ static_domains c ∨ d ∈ added c) →
  ensure domains c = c.
Proof.
  induction domains as [|raw domains IH]; intros Hall; simpl; [done|].
  assert (ensure_one raw c = c) as ->.
  { unfold ensure_one. apply decide_True. apply Hall. by left. }
  apply IH. intros d Hd. apply Hall. by right.
Qed.

(** Provisioning adds exactly the new hosts and disturbs nothing.  After
    [ensure domains], the hosts with a certificate order of their own are those
    that had one and the lowercase domains that are not configured ones; the
    resolvers already there and the static one are unchanged; and repeating the
    call changes nothing. *)
Theorem ensure_correct domains c :
  controller_wf c →
  let c' := ensure domains c in
  controller_wf c' ∧
  static_resolver (multi c') = static_resolver (multi c) ∧
  dynamic (multi c) ⊆ dynamic (multi c') ∧
  (∀ d, is_Some (dynamic (multi c') !! d) ↔ is_Some (dynamic (multi c) !! d) ∨ provisions domains c d) ∧
  ensure domains c' = c'.
Proof.
  clear load_chain generate_public_cert.
  intros Hwf. simpl. destruct (ensure_spec domains c Hwf) as (Hwf' & ? & Hst & ? & Hadd).
  split_and!; try done; try apply Hwf'.
  - intros d. rewrite <- !elem_of_dom, <- (proj1 Hwf), <- (proj1 Hwf'). apply Hadd.
  - apply ensure_skip. intros d Hd. rewrite Hst, Hadd. unfold provisions.
    destruct (decide (d ∈ static_domains c)); tauto.
Qed.

(** ** Configured hosts *)

(** A bundle whose controller guards the terminated hosts of the configuration. *)
Definition bundle_guards (hosts : list string) (b : Resolver * option AcmeController) : Prop :=
  ∀ c, b.2 = Some c →
    controller_wf c ∧ static_domains c = collect_set (to_ascii_lowercase <$> hosts).

Lemma self_signed_no_controller (m : result E K) b :
  (k ← m; Ok (static_resolve k, None)) = Ok b → ∃ k, m = Ok k ∧ b = (static_resolve k, @None AcmeController).
Proof. intros (k & ? & [= <-])%result_bind_Ok. eauto. Qed.

(** Where the server-wide certificate comes from without ACME. *)
Definition server_cert (cf kf : option PathBuf) (shared : list string) : result E K :=
  match cf, kf with
  | Some c, Some q => load_chain c q
  | _, _ => generate_public_cert shared
  end.

(** The ways [build_cert_resolver] ends: a controller over the certificate of the
    shared names, or the server-wide certificate. *)
Lemma build_cert_resolver_inv a cf kf hosts shared b :
  build_cert_resolver a cf kf hosts shared = Ok b →
  (∃ static, a ≠ None ∧ (shared ≠ [] → static = acme_resolver shared) ∧
     b = (multi_resolve {| static_resolver := static; dynamic := ∅ |},
          Some {| multi := {| static_resolver := static; dynamic := ∅ |};
                  static_domains := collect_set (to_ascii_lowercase <$> hosts); added := ∅ |})) ∨
  ((a = None ∨ hosts = []) ∧ ∃ k, b = (static_resolve k, None) ∧ server_cert cf kf shared = Ok k).
Proof.
  unfold build_cert_resolver.
  assert (∀ b, match cf, kf with
      | Some cf, Some kf => k ← load_chain cf kf; Ok (static_resolve k, None)
      | _, _ => k ← generate_public_cert shared; Ok (static_resolve k, None)
      end = Ok b →
    ∃ k, b = (static_resolve k, @None AcmeController) ∧ server_cert cf kf shared = Ok k) as Hss.
  { clear b. intros b. destruct cf as [c|]; [destruct kf as [q|]|];
      intros (k & ? & ->)%self_signed_no_controller; eauto. }
  destruct a as [a|]; [|right; split; [by left|by apply Hss]].
  destruct hosts as [|h hosts]; simpl; [right; split; [by right|by apply Hss]|].
  intros (static & Hs & [= <-])%result_bind_Ok. left. exists static. split_and!; [done| |done].
  intros Hne. destruct shared; simpl in Hs; [done|]. by injection Hs.
Qed.

Lemma build_cert_resolver_guards a cf kf hosts shared b :
  build_cert_resolver a cf kf hosts shared = Ok b → bundle_guards hosts b.
Proof.
  intros [(static & _ & _ & ->)|(_ & k & -> & _)]%build_cert_resolver_inv c [= <-].
  split; [|done]. split; simpl; [by rewrite dom_empty_L|set_solver].
Qed.

Lemma set_terminated_certs_guards hosts ds b :
  bundle_guards hosts b → bundle_guards hosts (set_terminated_certs ds b).
Proof.
  unfold bundle_guards, set_terminated_certs. destruct b as [r [c|]]; simpl; [|done].
  intros H c' [= <-]. destruct (H c eq_refl) as [Hwf Hst].
  destruct (ensure_spec ds c Hwf) as (? & _ & -> & _). done.
Qed.

(** A configured host never resolves through a provisioned certificate. *)
Lemma bundle_guards_resolve hosts b host sni :
  bundle_guards hosts b → host ∈ hosts → to_ascii_lowercase sni = to_ascii_lowercase host →
  bundle_resolver b (Some sni) =
    match b.2 with Some c => static_resolver (multi c) (Some sni) | None => b.1 (Some sni) end.
Proof.
  intros Hg Hin Heq. unfold bundle_resolver. destruct b as [r [c|]]; simpl; [|done].
  destruct (Hg c eq_refl) as [[Hdom Hdisj] Hst]. unfold multi_resolve. simpl.
  destruct (dynamic (multi c) !! _) as [x|] eqn:Hx; [exfalso|done].
  apply (Hdisj (to_ascii_lowercase sni)).
  { rewrite Hdom. by eapply elem_of_dom_2. }
  rewrite Hst, elem_of_collect_set, Heq. by apply list_elem_of_fmap_2.
Qed.

Lemma set_terminated_certs_static hosts ds b host sni :
  bundle_guards hosts b → host ∈ hosts → to_ascii_lowercase sni = to_ascii_lowercase host →
  bundle_resolver (set_terminated_certs ds b) (Some sni) = bundle_resolver b (Some sni).
Proof.
  intros Hg Hin Heq.
  rewrite (bundle_guards_resolve hosts _ host sni (set_terminated_certs_guards _ ds _ Hg) Hin Heq).
  rewrite (bundle_guards_resolve hosts _ host sni Hg Hin Heq).
  unfold set_terminated_certs. destruct b as [r [c|]]; simpl; [|done].
  destruct (Hg c eq_refl) as [Hwf _]. by destruct (ensure_spec ds c Hwf) as (_ & -> & _).
Qed.

(** Provisioning does not change what a configured host resolves to. *)
Lemma provisioned_static hosts dss b host sni :
  bundle_guards hosts b → host ∈ hosts → to_ascii_lowercase sni = to_ascii_lowercase host →
  bundle_guards hosts (foldr set_terminated_certs b dss) ∧
  bundle_resolver (foldr set_terminated_certs b dss) (Some sni) = bundle_resolver b (Some sni).
Proof.
  intros Hg Hin Heq. induction dss as [|ds dss [IHg IHe]]; simpl; [done|].
  split; [by apply set_terminated_certs_guards|]. rewrite <- IHe. by eapply set_terminated_certs_static.
Qed.

(** The hosts and patterns of the entries are pairwise different names. *)
Definition distinct_hosts (cfg : ServerConfig) : Prop :=
  NoDup ((λ e, to_ascii_lowercase e.1.1.1) <$> host_certs cfg).

(** The files of the certificate of the entry named [pattern]. *)
Definition own_files (cfg : ServerConfig) (pattern : string) (cf kf : PathBuf) : Prop :=
  ∃ host mode, (host, mode, Some cf, Some kf) ∈ host_certs cfg ∧ to_ascii_lowercase host = pattern.

Lemma own_files_entry cfg pattern cf kf :
  own_files cfg pattern cf kf ↔ (pattern, (cf, kf)) ∈ omap cert_entry (host_certs cfg).
Proof.
  rewrite list_elem_of_omap. unfold own_files. split.
  - intros (host & mode & Hin & <-). by eexists.
  - intros ([[[host mode] [c|]] [q|]] & Hin & [= <- <- <-]). eauto.
Qed.

Lemma cert_entries_NoDup (l : list (string * TlsMode * option PathBuf * option PathBuf)) :
  NoDup ((λ e, to_ascii_lowercase e.1.1.1) <$> l) → NoDup (omap cert_entry l).*1.
Proof.
  induction l as [|[[[host mode] cf] kf] l IH]; csimpl; [constructor|].
  intros [Hnot Hnd]%NoDup_cons. specialize (IH Hnd).
  destruct cf as [c|], kf as [q|]; simpl; try done. apply NoDup_cons. split; [|done].
  intros ([h p] & Hh & ([[[h' m] [c'|]] [q'|]] & Hin & [= <- <-])%list_elem_of_omap)%list_elem_of_fmap.
  apply Hnot. simpl in Hh. rewrite Hh.
  by apply (list_elem_of_fmap_2 (λ e, to_ascii_lowercase e.1.1.1) _ (h', m, Some c', Some q')) in Hin.
Qed.

Lemma load_own cfg hc pattern cf kf :
  load cfg = Ok hc → distinct_hosts cfg → own_files cfg pattern cf kf →
  ∃ k, load_chain cf kf = Ok k ∧ hc !! pattern = Some k.
Proof.
  intros Hl Hd Hown%own_files_entry. pose proof (host_certs_loaded cfg) as H.
  destruct (load_entries _ _) as [st|e] eqn:El; [|destruct H; congruence].
  destruct H as (Hl' & Hc & _ & _). rewrite Hl in Hl'. injection Hl' as ->.
  apply (collect_map_NoDup _ _ _ (cert_entries_NoDup _ Hd)) in Hown as Hcm.
  assert (is_Some (certs st !! pattern)) as [k Hk]; [|exists k; split; [|done]].
  - destruct (load_chain cf kf) as [k|e] eqn:Ek; [exists k; apply Hc; by exists (cf, kf)|].
    exfalso. eapply load_entries_chain; [exact El|exact Hown|exact Ek|].
    intros p k Hp. simpl in Hp. by apply lookup_empty_Some in Hp.
  - apply Hc in Hk as (q & Hq & Hk). rewrite Hcm in Hq. by simplify_eq.
Qed.

Lemma load_none cfg hc pattern :
  load cfg = Ok hc → (∀ cf kf, ¬ own_files cfg pattern cf kf) → hc !! pattern = None.
Proof.
  intros Hl Hno. pose proof (host_certs_loaded cfg) as H.
  destruct (load_entries _ _) as [st|e]; [|destruct H; congruence].
  destruct H as (Hl' & Hc & _ & _). rewrite Hl in Hl'. injection Hl' as ->.
  apply eq_None_not_Some. intros [k ([cf kf] & Hq%collect_map_elem & _)%Hc].
  by apply (Hno cf kf), own_files_entry.
Qed.

(** C22: a host the configuration terminates is served the certificate of its own
    entry, or the server-wide one, and provisioning never changes that.  For the
    entry of a name (no ['*'], no trailing dot), when no two entries have the same
    name, for the SNI in any letter case and whatever names were provisioned since
    the start: if the entry has certificate files, what is served is the
    certificate in these files.  If neither it nor its wildcard or the catch-all has
    any, what is served is the server-wide certificate: with ACME, the answer of the
    ACME state of the names without a certificate, which has the host; without,
    the certificate of the configured files, or a self-signed one generated for
    those names. *)
Theorem configured_hosts_certified cfg hc b dss host mode cert key sni :
  start_certs cfg = Ok (hc, b) → distinct_hosts cfg →
  (host, mode, cert, key) ∈ host_certs cfg → terminates mode = true →
  contains "*"%char host = false → trim_end_matches "."%char host = host →
  to_ascii_lowercase sni = to_ascii_lowercase host →
  let served := listener_resolver hc (foldr set_terminated_certs b dss) (Some sni) in
  let shared := shared_hostnames hc (terminated_hostnames cfg) in
  (∀ cf kf, cert = Some cf → key = Some kf → ∃ k, load_chain cf kf = Ok k ∧ served = Some k) ∧
  ((∀ pattern cf kf, pattern ∈ host_patterns (to_ascii_lowercase host) → ¬ own_files cfg pattern cf kf) →
   host ∈ shared ∧
   match acme cfg with
   | Some _ => served = acme_resolver shared (Some sni)
   | None => ∃ k, server_cert (tls_cert_file cfg) (tls_key_file cfg) shared = Ok k ∧ served = Some k
   end).
Proof.
  intros (hc' & Hload & (b' & Hb & [= -> ->])%result_bind_Ok)%result_bind_Ok Hd Hin Hmode Hstar Hdot Heq. simpl.
  assert (host ∈ terminated_hostnames cfg) as Hterm.
  { apply (list_elem_of_fmap_2 (λ e, e.1.1.1) _ (host, mode, cert, key)). by apply list_elem_of_filter. }
  destruct (provisioned_static _ dss b host sni (build_cert_resolver_guards _ _ _ _ _ _ Hb) Hterm Heq) as [_ Hsame].
  assert (select hc sni = find_map (λ p, hc !! p) (host_patterns (to_ascii_lowercase host))) as Hsel.
  { rewrite (select_lower hc sni host Heq). unfold select. by rewrite Hdot. }
  unfold listener_resolver. rewrite resolver_eq. unfold host_cert_resolve. simpl. rewrite Hsame, Hsel. split.
  - intros cf kf -> ->. destruct (load_own cfg hc (to_ascii_lowercase host) cf kf Hload Hd) as (k & Hk & Hhc);
      [by exists host, mode|]. exists k. split; [done|].
    unfold host_patterns. by destruct (split_once _ _) as [[]|]; simpl; rewrite Hhc.
  - intros Hno. assert (find_map (λ p, hc !! p) (host_patterns (to_ascii_lowercase host)) = None) as Hnone.
    { apply find_map_None. intros p Hp. apply (load_none cfg hc p Hload). intros cf kf. by apply Hno. }
    rewrite Hnone. assert (host ∈ shared_hostnames hc (terminated_hostnames cfg)) as Hsh.
    { apply list_elem_of_filter. unfold covers. by rewrite Hstar, <- (select_lower hc sni host Heq), Hsel, Hnone. }
    split; [done|]. apply build_cert_resolver_inv in Hb as [(st & Ha & Hst & ->)|([Ha|Ha] & k & -> & Hk)].
    + destruct (acme cfg); [|done]. rewrite <- Hst; [done|].
      intros Hnil. rewrite Hnil in Hsh. by apply not_elem_of_nil in Hsh.
    + rewrite Ha. by exists k.
    + rewrite Ha in Hterm. by apply not_elem_of_nil in Hterm.
Qed.
End certs.

(** ** Witnesses *)

(** Certificates as numbers, and a server with ACME and three hosts: one with its
    own certificate, one without, and a wildcard with a certificate. *)
Definition demo_chain (cert key : PathBuf) : result string nat :=
  if decide (cert = "own.pem") then Ok 1 else if decide (cert = "wild.pem") then Ok 2 else Err cert.

Definition demo_acme_resolver (hosts : list string) : Resolver (K := nat) :=
  λ _, Some (10 + length hosts).

Definition demo_generate (hosts : list string) : result string nat := Ok 99.

Definition demo_certs_config : ServerConfig := {|
  listen_addr := "0.0.0.0:4433"; public_listen_addr := Some "0.0.0.0:443"; tunnel_cert_dir := None;
  clients := []; hostnames := [
    {| he_host := "Own.test"; he_client := "alice"; he_tls_mode := Terminated;
       he_tls_cert_file := Some "own.pem"; he_tls_key_file := Some "own.key" |};
    {| he_host := "a.test"; he_client := "alice"; he_tls_mode := Terminated;
       he_tls_cert_file := None; he_tls_key_file := None |};
    {| he_host := "api.wild.test"; he_client := "alice"; he_tls_mode := Terminated;
       he_tls_cert_file := None; he_tls_key_file := None |}];
  acme := Some {| contact := "mailto:ops@a.test"; cache_dir := "acme"; production := true |};
  tls_cert_file := None; tls_key_file := None; upstreams := [
    {| ue_host := "*.wild.test"; ue_local_addr := Some "127.0.0.1:1"; ue_local_socket := None;
       ue_tls_mode := Terminated; ue_tls_cert_file := Some "wild.pem";
       ue_tls_key_file := Some "wild.key" |}];
  max_public_connections := None; error_502_file := None; client_ca_file := None
|}.

Definition demo_hc : HostCerts (K := nat) := <["*.wild.test" := 2]> {["own.test" := 1]}.

Definition demo_multi : MultiResolver (K := nat) :=
  {| static_resolver := demo_acme_resolver ["a.test"]; dynamic := ∅ |}.

Definition demo_controller : AcmeController (K := nat) :=
  {| multi := demo_multi;
     static_domains := collect_set ["own.test"; "a.test"; "api.wild.test"; "*.wild.test"];
     added := ∅ |}.

Lemma demo_controller_wf : controller_wf demo_controller.
Proof. split; vm_compute; [reflexivity|]. intros x Hx. inversion Hx. Qed.

Lemma ensure_correct_witness :
  let c' := ensure (E := string) demo_acme_resolver ["New.test"; "A.test"; "new.test"] demo_controller in
  dom (dynamic (multi c')) = {["new.test"]} ∧
  ensure (E := string) demo_acme_resolver ["New.test"; "A.test"; "new.test"] c' = c'.
Proof.
  split; [vm_compute; reflexivity|].
  apply (ensure_correct (E := string) demo_acme_resolver ["New.test"; "A.test"; "new.test"] demo_controller).
  apply demo_controller_wf.
Defined.

Lemma configured_hosts_certified_witness :
  ∃ k, demo_chain "own.pem" "own.key" = Ok k ∧
    listener_resolver demo_hc
      (foldr (set_terminated_certs (E := string) demo_acme_resolver)
         (multi_resolve demo_multi, Some demo_controller) [["new.test"; "own.test"]])
      (Some "OWN.test") = Some k.
Proof.
  destruct (configured_hosts_certified demo_chain demo_acme_resolver demo_generate demo_certs_config
    demo_hc (multi_resolve demo_multi, Some demo_controller) [["new.test"; "own.test"]]
    "Own.test" Terminated (Some "own.pem") (Some "own.key") "OWN.test") as [H _].
  - reflexivity.
  - apply (bool_decide_unpack _). vm_compute. exact I.
  - left.
  - reflexivity.
  - reflexivity.
  - reflexivity.
  - reflexivity.
  - apply H; reflexivity.
Defined.

(** An exact entry without a certificate is served, and kept out of the ACME
    order by, the certificate of a wildcard that does not route it. *)
Example exact_host_gets_wildcard_cert :
  start_certs demo_chain demo_acme_resolver demo_generate demo_certs_config =
    Ok (demo_hc, (multi_resolve demo_multi, Some demo_controller)) ∧
  select demo_hc "api.wild.test" = Some 2 ∧
  shared_hostnames demo_hc (terminated_hostnames demo_certs_config) = ["a.test"] ∧
  routes_to_upstream (from_config (hostnames demo_certs_config) (upstreams demo_certs_config))
    "api.wild.test" = false.
Proof. split_and!; vm_compute; reflexivity. Qed.
