(* ===== verification/Start.v ===== *)
(** * Starting and stopping the server

    [crates/tuyau-server/src/server.rs], [TunnelServer::start], [start_with] and
    [start_inner], [healthy] and the accept loops.

    Starting is a sequence of fallible steps with effects: files are read and
    written, sockets bound, tasks spawned.  It is written in a monad, [boot], whose
    state is the file system and the tasks spawned so far, so that what a failed
    start leaves behind can be said.  rustls, quinn, rustls-acme and the sockets are
    parameters by their results; the file system, the PEM reader and the generator
    are those of [Cert]. *)

From S2P Require Import Prelude Bytes Stream Protocol Config Routes Limits Backend Public Cert HostCerts.

Local Open Scope string_scope.
Local Open Scope list_scope.

Inductive ServerError :=
| Config_ (e : ConfigError)
| Cert_ (e : CertError)
| Tls (e : string)
| ClientCa (e : string)
| QuicCrypto (e : string)
| QuicConnection_ (e : string)
| Io (e : io_error)
| Protocol_ (e : ProtocolError).

(** The tasks a start spawns: the driver of an ACME order for these names, the
    accept loop of the public listener, the accept loop of the tunnels. *)
Inductive task :=
| AcmeTask (hostnames : list string)
| PublicLoop (addr : SocketAddr)
| TunnelLoop (addr : SocketAddr).

(** [rustls::sign::CertifiedKey] *)
Record CertifiedKey := {
  ck_chain : list (list byte);
  ck_key : list byte
}.

(** ** The monad *)

Section boot.
Context {FS : Type}.

Record boot_state := {
  bs_fs : FS;
  bs_tasks : list task
}.

Definition boot (A : Type) : Type := boot_state → boot_state * result ServerError A.

#[export] Instance boot_ret : MRet boot := λ A x st, (st, Ok x).
#[export] Instance boot_bind : MBind boot := λ A B k m st,
  match m st with
  | (st, Ok x) => k x st
  | (st, Err e) => (st, Err e)
  end.

Definition lift {A} (r : result ServerError A) : boot A := λ st, (st, r).
Definition get_fs : boot FS := λ st, (st, Ok (bs_fs st)).
Definition spawn_task (t : task) : boot () :=
  λ st, ({| bs_fs := bs_fs st; bs_tasks := bs_tasks st ++ [t] |}, Ok ()).

(** An operation on the file system. *)
Definition fs_op {A} (f : FS → FS * result CertError A) : boot A := λ st,
  let '(fs, r) := f (bs_fs st) in
  ({| bs_fs := fs; bs_tasks := bs_tasks st |}, map_err Cert_ r).
End boot.
Arguments boot_state : clear implicits.
Arguments boot : clear implicits.

(** What the libraries and the system answer: rustls and quinn (a trust anchor, the
    protocol versions, a key, a certificate with its key, a verifier of client
    certificates, the QUIC crypto), rustls-acme (the resolver of an order), a text
    file, and the sockets. *)
Record platform (FS : Type) := {
  pl_add_root : list byte → result string ();
  pl_protocol_versions : result string ();
  pl_any_supported_type : list byte → result string ();
  pl_with_single_cert : list byte → list byte → result string ();
  pl_client_verifier : list (list byte) → result string ();
  pl_quic_crypto : result string ();
  pl_acme_resolver : list string → Resolver (K := CertifiedKey);
  pl_read_to_string : FS → PathBuf → result io_error string;
  pl_bind_udp : SocketAddr → result io_error SocketAddr;
  pl_bind_tcp : SocketAddr → result io_error SocketAddr;
  pl_default_502 : string
}.
Arguments pl_add_root {FS}. Arguments pl_protocol_versions {FS}. Arguments pl_any_supported_type {FS}.
Arguments pl_with_single_cert {FS}. Arguments pl_client_verifier {FS}. Arguments pl_quic_crypto {FS}.
Arguments pl_acme_resolver {FS}. Arguments pl_read_to_string {FS}. Arguments pl_bind_udp {FS}.
Arguments pl_bind_tcp {FS}. Arguments pl_default_502 {FS}.

Section start.
Context {FS KeyPair Certificate : Type} `{FileSystem FS} `{CertLib KeyPair Certificate}.
Context (sha256 : list byte → list byte) (pl : platform FS).
(* the key pairs a generation draws, for the tunnel and for the public certificate *)
Context (drawn drawn_public : result string KeyPair).

(** ** Keys and certificates *)

Definition resolve_cert_dir (configured : option PathBuf) : PathBuf := default "." configured.

(** The transport of the tunnel (in seconds). *)
Definition KEEP_ALIVE : Z := 7.
Definition MAX_IDLE : Z := 20.

Definition build_rustls_config (m : CertMaterial) : result ServerError (list (list byte)) :=
  _ ← map_err Tls (pl_protocol_versions pl);
  _ ← map_err Tls ((pl_with_single_cert pl) (cert_der m) (key_der m));
  Ok [ALPN].

Definition build_quinn_config (rustls_config : list (list byte)) :
    result ServerError (list (list byte) * (Z * Z)) :=
  _ ← map_err QuicCrypto (pl_quic_crypto pl);
  Ok (rustls_config, (KEEP_ALIVE, MAX_IDLE)).

(** [build_static_chain_resolver], [build_static_resolver]: the key they hold. *)
Definition build_static_chain_resolver (chain : list (list byte)) (key : list byte) :
    result ServerError CertifiedKey :=
  _ ← map_err Tls ((pl_any_supported_type pl) key);
  Ok {| ck_chain := chain; ck_key := key |}.

Definition build_static_resolver (m : CertMaterial) : result ServerError CertifiedKey :=
  build_static_chain_resolver [cert_der m] (key_der m).

(** A chain read from its files, and a generated certificate. *)
Definition load_certified (fs : FS) (cert_file key_file : PathBuf) : result ServerError CertifiedKey :=
  '(chain, key) ← map_err Cert_ (load_chain fs cert_file key_file);
  build_static_chain_resolver chain key.

Definition generate_certified (cert_dir : PathBuf) (names : list string) (fs : FS) :
    FS * result ServerError CertifiedKey :=
  let '(fs, m) := generate_public_cert sha256 drawn_public names cert_dir fs in
  (fs, m ← map_err Cert_ m; build_static_resolver m).

(** The names [build_cert_resolver] generates a certificate for, and those it
    starts an ACME order for. *)
Definition generated_names (acme : option AcmeSection) (tls_cert tls_key : option PathBuf)
    (terminated shared : list string) : option (list string) :=
  match acme, is_nil terminated with
  | Some _, false => if is_nil shared then Some [] else None
  | _, _ => match tls_cert, tls_key with Some _, Some _ => None | _, _ => Some shared end
  end.

Definition ordered_names (acme : option AcmeSection) (terminated shared : list string) :
    option (list string) :=
  match acme, is_nil terminated with
  | Some _, false => if is_nil shared then None else Some shared
  | _, _ => None
  end.

(** [build_cert_resolver] with its effects: the certificate it generates is written,
    the order it starts is spawned. *)
Definition build_resolver (cert_dir : PathBuf) (cfg : ServerConfig) (terminated shared : list string) :
    boot FS (Resolver (K := CertifiedKey) * option (AcmeController (K := CertifiedKey))) := λ st,
  let fs := bs_fs st in
  ({| bs_fs := match generated_names (acme cfg) (tls_cert_file cfg) (tls_key_file cfg) terminated shared with
               | Some names => (generate_certified cert_dir names fs).1
               | None => fs
               end;
      bs_tasks := bs_tasks st ++ match ordered_names (acme cfg) terminated shared with
                                 | Some names => [AcmeTask names]
                                 | None => []
                                 end |},
   build_cert_resolver (load_certified fs) (pl_acme_resolver pl) (λ names, (generate_certified cert_dir names fs).2)
     (acme cfg) (tls_cert_file cfg) (tls_key_file cfg) terminated shared).

(** ** The public listener *)

Record PublicState := {
  pub_addr : SocketAddr;
  pub_certs : HostCerts (K := CertifiedKey);
  pub_bundle : Resolver (K := CertifiedKey) * option (AcmeController (K := CertifiedKey));
  pub_roots : option (list (list byte));
  pub_tls : PublicTls;
  pub_max_conns : Z;
  pub_502 : string
}.

(** [PublicTls::new], with [build_rustls_config] of the public listener. *)
Definition public_tls (acme_active : bool) (roots : option (list (list byte))) : result ServerError PublicTls :=
  _ ← map_err Tls (pl_protocol_versions pl);
  _ ← match roots with Some roots => map_err ClientCa ((pl_client_verifier pl) roots) | None => Ok () end;
  Ok {| acme_active := acme_active; needs_client_cert := is_some roots |}.

Definition error_502 (fs : FS) (file : option PathBuf) : string :=
  match file with
  | Some path => match (pl_read_to_string pl) fs path with Ok html => html | Err _ => (pl_default_502 pl) end
  | None => (pl_default_502 pl)
  end.

Definition start_public (cert_dir : PathBuf) (cfg : ServerConfig) (addr : SocketAddr) :
    boot FS PublicState :=
  fs ← get_fs;
  hc ← lift (HostCerts.load (load_certified fs) cfg);
  let hosts := terminated_hostnames cfg in
  b ← build_resolver cert_dir cfg hosts (shared_hostnames hc hosts);
  fs ← get_fs;
  roots ← match client_ca_file cfg with
          | Some path => roots ← lift (map_err Cert_ (load_roots (pl_add_root pl) fs path)); mret (Some roots)
          | None => mret None
          end;
  tls ← lift (public_tls (is_some b.2) roots);
  local_addr ← lift (map_err Io ((pl_bind_tcp pl) addr));
  _ ← spawn_task (PublicLoop local_addr);
  mret {| pub_addr := local_addr; pub_certs := hc; pub_bundle := b; pub_roots := roots; pub_tls := tls;
          pub_max_conns := default (Z.of_nat DEFAULT_MAX_PUBLIC_CONNECTIONS) (max_public_connections cfg);
          pub_502 := error_502 fs (error_502_file cfg) |}.

(** ** The server *)

Record TunnelServer := {
  ts_addr : SocketAddr;
  ts_fingerprint : list byte;
  ts_routes : RoutingTable;
  ts_public : option PublicState
}.

Definition start_inner (cfg : ServerConfig) : boot FS TunnelServer :=
  let cert_dir := resolve_cert_dir (tunnel_cert_dir cfg) in
  material ← fs_op (load_or_generate sha256 drawn cert_dir);
  rustls_config ← lift (build_rustls_config material);
  _ ← lift (build_quinn_config rustls_config);
  local_addr ← lift (map_err Io ((pl_bind_udp pl) (listen_addr cfg)));
  let routes := from_config (hostnames cfg) (upstreams cfg) in
  public ← match public_listen_addr cfg with
           | Some addr => p ← start_public cert_dir cfg addr; mret (Some p)
           | None => mret None
           end;
  _ ← spawn_task (TunnelLoop local_addr);
  mret {| ts_addr := local_addr; ts_fingerprint := fingerprint material; ts_routes := routes;
          ts_public := public |}.

Definition start (cfg : ServerConfig) : boot FS TunnelServer :=
  _ ← lift (map_err Config_ (validate cfg));
  start_inner cfg.

Definition start_with (cfg : ServerConfig) : boot FS TunnelServer :=
  _ ← lift (map_err Config_ (validate_dynamic cfg));
  start_inner cfg.

(** ** Lemmas *)

Lemma boot_bind_Ok {A B} (m : boot FS A) (k : A → boot FS B) st st' y :
  (m ≫= k) st = (st', Ok y) → ∃ st1 x, m st = (st1, Ok x) ∧ k x st1 = (st', Ok y).
Proof. unfold mbind, boot_bind. destruct (m st) as [st1 [x|e]]; [|done]. eauto. Qed.

Lemma boot_bind_Err {A B} (m : boot FS A) (k : A → boot FS B) st st' e :
  (m ≫= k) st = (st', Err e) →
  m st = (st', Err e) ∨ ∃ st1 x, m st = (st1, Ok x) ∧ k x st1 = (st', Err e).
Proof. unfold mbind, boot_bind. destruct (m st) as [st1 [x|e']]; [eauto|]. intros [= -> ->]. by left. Qed.

Lemma lift_Ok {A} (r : result ServerError A) st st' x :
  lift (FS := FS) r st = (st', Ok x) → st' = st ∧ r = Ok x.
Proof. by intros [= <- ->]. Qed.

Lemma lift_Err {A} (r : result ServerError A) st st' e :
  lift (FS := FS) r st = (st', Err e) → st' = st ∧ r = Err e.
Proof. by intros [= <- ->]. Qed.

(** The certificate that is written is the one that is served. *)
Lemma build_resolver_Ok cert_dir cfg hosts shared st st' b names :
  build_resolver cert_dir cfg hosts shared st = (st', Ok b) →
  generated_names (acme cfg) (tls_cert_file cfg) (tls_key_file cfg) hosts shared = Some names →
  ∃ k, generate_certified cert_dir names (bs_fs st) = (bs_fs st', Ok k).
Proof.
  unfold build_resolver. intros [= <- Hb] Hn. rewrite Hn. simpl.
  destruct (generate_certified cert_dir names (bs_fs st)) as [fs [k|e]] eqn:Eg; [by exists k|exfalso].
  unfold generated_names, build_cert_resolver in *.
  destruct (acme cfg), (is_nil hosts); simpl in *;
    repeat (case_match; simpl in *; simplify_eq/=); by rewrite Eg in Hb.
Qed.

Lemma generate_certified_Ok cert_dir names fs fs' k :
  generate_certified cert_dir names fs = (fs', Ok k) →
  ∃ m, generate_public_cert sha256 drawn_public names cert_dir fs = (fs', Ok m) ∧
    build_static_resolver m = Ok k.
Proof.
  unfold generate_certified. destruct (generate_public_cert _ _ _ _ _) as [fs1 [m|e]]; [|done].
  intros [= <- Hk]. by exists m.
Qed.

(** Takes a run of [boot] apart, step by step. *)
Ltac boot_inv :=
  repeat match goal with
  | Hb : (_ ≫= _) _ = (_, Ok _) |- _ =>
      let st := fresh "st" in let x := fresh "x" in let H1 := fresh "Hm" in
      apply boot_bind_Ok in Hb as (st & x & H1 & Hb)
  | Hb : lift _ _ = (_, Ok _) |- _ => apply lift_Ok in Hb as [-> Hb]
  | Hb : get_fs _ = (_, Ok _) |- _ => injection Hb as <- <-
  | Hb : spawn_task _ _ = (_, Ok _) |- _ => injection Hb as <- <-
  | Hb : mret _ _ = (_, Ok _) |- _ => injection Hb as <- <-
  | Hb : map_err _ _ = Ok _ |- _ => apply map_err_Ok in Hb
  end.

Definition order_tasks (cfg : ServerConfig) (hc : HostCerts (K := CertifiedKey)) : list task :=
  let hosts := terminated_hostnames cfg in
  match ordered_names (acme cfg) hosts (shared_hostnames hc hosts) with
  | Some names => [AcmeTask names]
  | None => []
  end.

Lemma public_tls_Ok act roots tls :
  public_tls act roots = Ok tls → acme_active tls = act ∧ needs_client_cert tls = is_some roots.
Proof.
  unfold public_tls. destruct (pl_protocol_versions pl); [|done]. simpl.
  destruct roots as [roots|]; [destruct ((pl_client_verifier pl) roots); [|done]|]; by intros [= <-].
Qed.

Lemma roots_Ok cfg fs st st' (roots : option (list (list byte))) :
  match client_ca_file cfg with
  | Some path => (roots ← lift (map_err Cert_ (load_roots (pl_add_root pl) fs path)); mret (Some roots)) : boot FS _
  | None => mret None
  end st = (st', Ok roots) → st' = st ∧ is_some roots = is_some (client_ca_file cfg).
Proof. destruct (client_ca_file cfg) as [path|]; intros Hr; boot_inv; done. Qed.

(** A public listener that started. *)
Lemma start_public_Ok cert_dir cfg addr st st' p :
  start_public cert_dir cfg addr st = (st', Ok p) →
  start_certs (load_certified (bs_fs st)) (pl_acme_resolver pl)
    (λ names, (generate_certified cert_dir names (bs_fs st)).2) cfg = Ok (pub_certs p, pub_bundle p) ∧
  bs_tasks st' = bs_tasks st ++ order_tasks cfg (pub_certs p) ++ [PublicLoop (pub_addr p)] ∧
  acme_active (pub_tls p) = is_some (pub_bundle p).2 ∧
  needs_client_cert (pub_tls p) = is_some (client_ca_file cfg) ∧
  (pl_bind_tcp pl) addr = Ok (pub_addr p) ∧
  pub_502 p = error_502 (bs_fs st') (error_502_file cfg) ∧
  (bs_fs st' = bs_fs st ∨ ∃ names m, generate_public_cert sha256 drawn_public names cert_dir (bs_fs st) = (bs_fs st', Ok m)).
Proof.
  unfold start_public. intros Hs. apply boot_bind_Ok in Hs as (st0 & fs & [= <- <-] & Hs).
  apply boot_bind_Ok in Hs as (st0 & hc & [-> Hload]%lift_Ok & Hs).
  apply boot_bind_Ok in Hs as (st1 & b & Hb & Hs). apply boot_bind_Ok in Hs as (st2 & fs & [= <- <-] & Hs).
  apply boot_bind_Ok in Hs as (st3 & roots & [-> Hroots]%roots_Ok & Hs).
  apply boot_bind_Ok in Hs as (st2 & tls & [-> Htls]%lift_Ok & Hs).
  apply boot_bind_Ok in Hs as (st2 & local & [-> Hbind]%lift_Ok & Hs).
  apply map_err_Ok in Hbind. apply boot_bind_Ok in Hs as (st2 & u & [= <- <-] & Hs). injection Hs as <- <-. simpl.
  apply public_tls_Ok in Htls as [Hact Hneed].
  split_and!; [| |done|by rewrite Hneed|done|done|].
  - unfold start_certs. rewrite Hload. cbn. by injection Hb as _ ->.
  - injection Hb as <- _. simpl. unfold order_tasks. by rewrite <- (assoc (++)).
  - destruct (generated_names (acme cfg) (tls_cert_file cfg) (tls_key_file cfg) (terminated_hostnames cfg)
      (shared_hostnames hc (terminated_hostnames cfg))) as [names|] eqn:En.
    + right. destruct (build_resolver_Ok _ _ _ _ _ _ _ _ Hb En) as [k Hk].
      apply generate_certified_Ok in Hk as (m & Hm & _). by exists names, m.
    + left. injection Hb as <- _. simpl. by rewrite En.
Qed.

Lemma start_inner_Ok cfg st st' s :
  start_inner cfg st = (st', Ok s) →
  ∃ m fs, load_or_generate sha256 drawn (resolve_cert_dir (tunnel_cert_dir cfg)) (bs_fs st) = (fs, Ok m) ∧
    ts_fingerprint s = fingerprint m ∧ (pl_bind_udp pl) (listen_addr cfg) = Ok (ts_addr s) ∧
    ts_routes s = from_config (hostnames cfg) (upstreams cfg) ∧
    match public_listen_addr cfg with
    | None => ts_public s = None ∧ bs_fs st' = fs ∧ bs_tasks st' = bs_tasks st ++ [TunnelLoop (ts_addr s)]
    | Some addr => ∃ p st1, ts_public s = Some p ∧
        start_public (resolve_cert_dir (tunnel_cert_dir cfg)) cfg addr {| bs_fs := fs; bs_tasks := bs_tasks st |} = (st1, Ok p) ∧
        bs_fs st' = bs_fs st1 ∧ bs_tasks st' = bs_tasks st1 ++ [TunnelLoop (ts_addr s)]
    end.
Proof.
  unfold start_inner. intros Hs. apply boot_bind_Ok in Hs as (st1 & m & Hm & Hs).
  unfold fs_op in Hm. destruct (load_or_generate _ _ _ _) as [fs r] eqn:El.
  injection Hm as <- Hm. apply map_err_Ok in Hm. subst r.
  apply boot_bind_Ok in Hs as (st0 & rc & [-> _]%lift_Ok & Hs).
  apply boot_bind_Ok in Hs as (st0 & qc & [-> _]%lift_Ok & Hs).
  apply boot_bind_Ok in Hs as (st0 & local & [-> Hbind%map_err_Ok]%lift_Ok & Hs).
  apply boot_bind_Ok in Hs as (st1 & public & Hp & Hs).
  apply boot_bind_Ok in Hs as (st2 & u & [= <- <-] & Hs). injection Hs as <- <-. simpl.
  exists m, fs. split_and!; [done..|].
  destruct (public_listen_addr cfg) as [addr|].
  - apply boot_bind_Ok in Hp as (st2 & p & Hp & [= <- <-]). by exists p, st2.
  - injection Hp as <- <-. done.
Qed.

(** ** What a failed start leaves *)

(** The tasks of a failed start: none, or the ACME order. *)
Definition only_acme (cfg : ServerConfig) (l : list task) : Prop :=
  l = [] ∨ ∃ names, l = [AcmeTask names] ∧ is_some (acme cfg) = true.

Lemma build_resolver_tasks cert_dir cfg hosts shared st st' r :
  build_resolver cert_dir cfg hosts shared st = (st', r) →
  ∃ l, bs_tasks st' = bs_tasks st ++ l ∧ only_acme cfg l.
Proof.
  intros [= <- _]. simpl. eexists. split; [done|]. unfold ordered_names, only_acme.
  destruct (acme cfg), (is_nil hosts), (is_nil shared); simpl; eauto.
Qed.

Lemma roots_Err cfg fs st st' e :
  match client_ca_file cfg with
  | Some path => (roots ← lift (map_err Cert_ (load_roots (pl_add_root pl) fs path)); mret (Some roots)) : boot FS _
  | None => mret None
  end st = (st', Err e) → st' = st.
Proof.
  destruct (client_ca_file cfg) as [path|]; [|done].
  by intros [[-> _]%lift_Err|(st1 & x & _ & ?)]%boot_bind_Err.
Qed.

Lemma start_public_Err cert_dir cfg addr st st' e :
  start_public cert_dir cfg addr st = (st', Err e) →
  ∃ l, bs_tasks st' = bs_tasks st ++ l ∧ only_acme cfg l.
Proof.
  unfold start_public. intros [?|(st0 & fs & [= <- <-] & Hs)]%boot_bind_Err; [done|].
  assert (∃ l, bs_tasks st = bs_tasks st ++ l ∧ only_acme cfg l) as Hnone
    by (exists []; rewrite app_nil_r; split; [done|by left]).
  apply boot_bind_Err in Hs as [[-> _]%lift_Err|(st0 & hc & [-> _]%lift_Ok & Hs)]; [done|].
  apply boot_bind_Err in Hs as [Hb|(st1 & b & Hb & Hs)]; [by eapply build_resolver_tasks|].
  apply build_resolver_tasks in Hb.
  apply boot_bind_Err in Hs as [?|(st2 & fs & [= <- <-] & Hs)]; [done|].
  apply boot_bind_Err in Hs as [->%roots_Err|(st3 & roots & [-> _]%roots_Ok & Hs)]; [done|].
  apply boot_bind_Err in Hs as [[-> _]%lift_Err|(st2 & tls & [-> _]%lift_Ok & Hs)]; [done|].
  apply boot_bind_Err in Hs as [[-> _]%lift_Err|(st2 & local & [-> _]%lift_Ok & Hs)]; [done|].
  apply boot_bind_Err in Hs as [?|(st2 & u & _ & ?)]; done.
Qed.

Lemma start_inner_Err cfg st st' e :
  start_inner cfg st = (st', Err e) → ∃ l, bs_tasks st' = bs_tasks st ++ l ∧ only_acme cfg l.
Proof.
  unfold start_inner. intros Hs.
  assert (∃ l, bs_tasks st = bs_tasks st ++ l ∧ only_acme cfg l) as Hnone
    by (exists []; rewrite app_nil_r; split; [done|by left]).
  assert (∀ st1 r, fs_op (load_or_generate sha256 drawn (resolve_cert_dir (tunnel_cert_dir cfg))) st = (st1, r) →
    bs_tasks st1 = bs_tasks st) as Hfs.
  { intros st1 r. unfold fs_op. destruct (load_or_generate _ _ _ _). by intros [= <- _]. }
  apply boot_bind_Err in Hs as [Hm|(st1 & m & Hm & Hs)]; apply Hfs in Hm; [by rewrite Hm|]. rewrite <- Hm in *.
  apply boot_bind_Err in Hs as [[-> _]%lift_Err|(st2 & rc & [-> _]%lift_Ok & Hs)]; [done|].
  apply boot_bind_Err in Hs as [[-> _]%lift_Err|(st2 & qc & [-> _]%lift_Ok & Hs)]; [done|].
  apply boot_bind_Err in Hs as [[-> _]%lift_Err|(st2 & local & [-> _]%lift_Ok & Hs)]; [done|].
  apply boot_bind_Err in Hs as [Hp|(st2 & p & _ & Hs)].
  - destruct (public_listen_addr cfg) as [addr|]; [|done].
    apply boot_bind_Err in Hp as [Hp|(st2 & p & _ & ?)]; [|done]. by apply start_public_Err in Hp.
  - by apply boot_bind_Err in Hs as [?|(st3 & u & _ & ?)].
Qed.

(** C27: a start that fails leaves no server behind.  An invalid configuration
    changes nothing: no file is touched, no task spawned, no socket bound; and on
    any later error (a certificate that does not load, a socket in use, a key
    rustls refuses) neither accept loop runs: the only task that may have been
    spawned is the driver of the ACME order, of a configuration with ACME. *)
Theorem failed_start_leaves cfg st st' e :
  start cfg st = (st', Err e) →
  (∀ err, validate cfg = Err err → st' = st ∧ e = Config_ err) ∧
  ∃ l, bs_tasks st' = bs_tasks st ++ l ∧ only_acme cfg l.
Proof.
  intros Hs. unfold start in Hs. split.
  - intros err Herr. rewrite Herr in Hs. by injection Hs.
  - apply boot_bind_Err in Hs as [[-> _]%lift_Err|(st1 & u & [-> _]%lift_Ok & Hs)].
    + exists []. rewrite app_nil_r. split; [done|by left].
    + by eapply start_inner_Err.
Qed.

(** C26: a server that starts is the configured one.  The configuration was valid,
    the routing table is the configuration's, both accept loops run (the public one
    exactly when an address is configured), on the bound addresses; the public
    listener uses the certificates [start_certs] chose, requires client certificates
    exactly when a CA is configured and advertises [acme-tls/1] exactly when it has
    an ACME controller, and its 502 page is the configured file or the built-in. *)
Theorem started_as_configured cfg st st' s :
  start cfg st = (st', Ok s) →
  validate cfg = Ok () ∧ ts_routes s = from_config (hostnames cfg) (upstreams cfg) ∧
  (pl_bind_udp pl) (listen_addr cfg) = Ok (ts_addr s) ∧
  (public_listen_addr cfg = None → ts_public s = None ∧ bs_tasks st' = bs_tasks st ++ [TunnelLoop (ts_addr s)]) ∧
  (∀ addr, public_listen_addr cfg = Some addr → ∃ p fs, ts_public s = Some p ∧ (pl_bind_tcp pl) addr = Ok (pub_addr p) ∧
     bs_tasks st' = bs_tasks st ++ order_tasks cfg (pub_certs p) ++ [PublicLoop (pub_addr p); TunnelLoop (ts_addr s)] ∧
     start_certs (load_certified fs) (pl_acme_resolver pl)
       (λ names, (generate_certified (resolve_cert_dir (tunnel_cert_dir cfg)) names fs).2) cfg =
       Ok (pub_certs p, pub_bundle p) ∧
     needs_client_cert (pub_tls p) = is_some (client_ca_file cfg) ∧
     acme_active (pub_tls p) = is_some (pub_bundle p).2 ∧
     pub_502 p = error_502 (bs_fs st') (error_502_file cfg)).
Proof.
  unfold start. intros (st0 & u & [-> Hv%map_err_Ok]%lift_Ok & Hs)%boot_bind_Ok.
  destruct u. destruct (start_inner_Ok _ _ _ _ Hs) as (m & fs & _ & _ & Hbind & Hr & Hp).
  split_and!; [done..| |].
  - intros Hn. rewrite Hn in Hp. naive_solver.
  - intros addr Ha. rewrite Ha in Hp. destruct Hp as (p & st1 & Hpub & Hstart & Hfs & Htasks).
    destruct (start_public_Ok _ _ _ _ _ _ Hstart) as (Hcerts & Ht & Hact & Hneed & Htcp & H502 & _).
    exists p, fs. rewrite Htasks, Ht, Hfs. simpl. split_and!; try done. by rewrite <- !(assoc (++)).
Qed.

Context `{!FileSystemLaws FS} `{!CertLibLaws KeyPair Certificate}.

Lemma start_identity cfg st st' s :
  start cfg st = (st', Ok s) →
  ∃ m, ts_fingerprint s = fingerprint m ∧
    identity_on_disk sha256 (resolve_cert_dir (tunnel_cert_dir cfg)) m (bs_fs st') ∧
    ∃ fs, load_or_generate sha256 drawn (resolve_cert_dir (tunnel_cert_dir cfg)) (bs_fs st) = (fs, Ok m).
Proof.
  unfold start. intros (st0 & u & [-> _]%lift_Ok & Hs)%boot_bind_Ok.
  destruct (start_inner_Ok _ _ _ _ Hs) as (m & fs & Hl & Hf & _ & _ & Hp).
  exists m. split_and!; [done| |by exists fs]. pose proof (load_or_generate_on_disk sha256 drawn _ _ _ _ Hl) as Hd.
  destruct (public_listen_addr cfg) as [addr|]; [|by destruct Hp as (_ & -> & _)].
  destruct Hp as (p & st1 & _ & Hstart & -> & _).
  destruct (start_public_Ok _ _ _ _ _ _ Hstart) as (_ & _ & _ & _ & _ & _ & [->|(names & m' & Hg)]); [done|].
  by eapply (generate_public_keeps sha256).
Qed.
End start.

(** ** Restarts *)

Section restart.
Context {FS KeyPair Certificate : Type} `{FileSystemLaws FS} `{CertLibLaws KeyPair Certificate}.
Context (sha256 : list byte → list byte).

Lemma restart_fingerprint pl pl' drawn drawn_public drawn' drawn_public' cfg cfg' st st1 tasks st' s s' :
  resolve_cert_dir (tunnel_cert_dir cfg') = resolve_cert_dir (tunnel_cert_dir cfg) →
  start sha256 pl drawn drawn_public cfg st = (st1, Ok s) →
  start sha256 pl' drawn' drawn_public' cfg' {| bs_fs := bs_fs st1; bs_tasks := tasks |} = (st', Ok s') →
  ts_fingerprint s' = ts_fingerprint s.
Proof.
  intros Hdir Hs Hs'. destruct (start_identity _ _ _ _ _ _ _ _ Hs) as (m & -> & Hd & _).
  destruct (start_identity _ _ _ _ _ _ _ _ Hs') as (m' & -> & _ & fs & Hl). simpl in Hl. rewrite Hdir in Hl.
  rewrite (on_disk_load _ _ _ _ _ Hd) in Hl. by injection Hl as _ ->.
Qed.

(** The fingerprint the clients pin survives restarts of the whole server.
    After a start that succeeded, any later start over the files it left, whatever
    keys it would draw, whatever else of the configuration, the platform and the
    listener changed, has the same fingerprint if it starts, as long as the
    certificate directory is the same; also when the public listener writes its own
    certificate into that directory. *)
Theorem restart_same_fingerprint pl pl' drawn drawn_public drawn' drawn_public' cfg cfg' st st1 tasks st' s s' :
  tunnel_cert_dir cfg' = tunnel_cert_dir cfg →
  start sha256 pl drawn drawn_public cfg st = (st1, Ok s) →
  start sha256 pl' drawn' drawn_public' cfg' {| bs_fs := bs_fs st1; bs_tasks := tasks |} = (st', Ok s') →
  ts_fingerprint s' = ts_fingerprint s.
Proof.
  intros Hdir. apply restart_fingerprint. by rewrite Hdir.
Qed.
End restart.

(** ** The accept loops, and stopping *)

(** Whether the loops are cancelled and the endpoint closed, and whether each of
    their tasks has finished (the public one exists if it was started). *)
Record loops := {
  lp_cancel : bool;
  lp_closed : bool;
  lp_tunnel : bool;
  lp_public : option bool
}.

(** What happens to them: a connection (or a failed accept, after which the public
    loop backs off and goes on), the end of a loop, a panic; [cancel.cancel()] and
    [endpoint.close()] of [shutdown]. *)
Inductive loop_ev :=
| TunnelAccepts | TunnelEnds | TunnelPanics
| PublicAccepts | PublicAcceptFails | PublicEnds | PublicPanics
| CancelAll | CloseEndpoint.

#[export] Instance loop_ev_eq_dec : EqDecision loop_ev.
Proof. solve_decision. Defined.

Definition loop_step (l : loops) (ev : loop_ev) : option loops :=
  let tunnel_finished := {| lp_cancel := lp_cancel l; lp_closed := lp_closed l; lp_tunnel := true;
                            lp_public := lp_public l |} in
  let public_finished := {| lp_cancel := lp_cancel l; lp_closed := lp_closed l; lp_tunnel := lp_tunnel l;
                            lp_public := Some true |} in
  match ev with
  | TunnelAccepts => if lp_tunnel l then None else Some l
  | TunnelEnds => if negb (lp_tunnel l) && (lp_cancel l || lp_closed l) then Some tunnel_finished else None
  | TunnelPanics => if lp_tunnel l then None else Some tunnel_finished
  | PublicAccepts | PublicAcceptFails => match lp_public l with Some false => Some l | _ => None end
  | PublicEnds => match lp_public l with
                  | Some false => if lp_cancel l then Some public_finished else None
                  | _ => None
                  end
  | PublicPanics => match lp_public l with Some false => Some public_finished | _ => None end
  | CancelAll => Some {| lp_cancel := true; lp_closed := lp_closed l; lp_tunnel := lp_tunnel l;
                         lp_public := lp_public l |}
  | CloseEndpoint => Some {| lp_cancel := lp_cancel l; lp_closed := true; lp_tunnel := lp_tunnel l;
                             lp_public := lp_public l |}
  end.

Definition healthy (l : loops) : bool :=
  if lp_tunnel l then false else negb (default false (lp_public l)).

Definition started_loops (public : bool) : loops :=
  {| lp_cancel := false; lp_closed := false; lp_tunnel := false;
     lp_public := if public then Some false else None |}.

(** [shutdown]: cancel, close, then wait for the loops; the calls it makes, and
    whether its wait for the loops is over. *)
Definition shutdown_calls : list loop_ev := [CancelAll; CloseEndpoint].
Definition awaited (l : loops) : bool := lp_tunnel l && default true (lp_public l).

Fixpoint loop_run (evs : list loop_ev) (l : loops) : option loops :=
  match evs with [] => Some l | ev :: evs => l ← loop_step l ev; loop_run evs l end.

(** The events that can end a loop: a panic, a shutdown. *)
Definition stops (ev : loop_ev) : bool :=
  match ev with TunnelPanics | PublicPanics | CancelAll | CloseEndpoint => true | _ => false end.

Lemma loop_step_quiet l ev l' :
  loop_step l ev = Some l' → stops ev = false → lp_cancel l = false → lp_closed l = false → l' = l.
Proof.
  destruct l as [c cl t p]; simpl. intros Hs He -> ->. destruct ev; simpl in *; try done.
  - destruct t; by simplify_eq.
  - by rewrite andb_false_r in Hs.
  - destruct p as [[]|]; by simplify_eq.
  - destruct p as [[]|]; by simplify_eq.
  - by destruct p as [[]|].
Qed.

Lemma loop_run_quiet evs l l' :
  loop_run evs l = Some l' → lp_cancel l = false → lp_closed l = false → Forall (λ ev, stops ev = false) evs → l' = l.
Proof.
  intros Hr Hc Hcl Hq. revert l Hr Hc Hcl. induction Hq as [|ev evs He _ IH]; intros l; simpl; [by intros [= <-]|].
  destruct (loop_step l ev) as [l1|] eqn:Hs; [|done]. simpl. intros Hr Hc Hcl.
  rewrite (loop_step_quiet _ _ _ Hs He Hc Hcl) in Hr. auto.
Qed.

Lemma loop_run_cancelled evs l l' : loop_run evs l = Some l' → lp_cancel l = true → lp_cancel l' = true.
Proof.
  revert l. induction evs as [|ev evs IH]; intros l; simpl; [by intros [= <-]|].
  destruct (loop_step l ev) as [l1|] eqn:Hs; [|done]. simpl. intros Hr Hc. apply (IH l1 Hr).
  destruct l as [c cl t p]; simpl in Hc; subst c.
  destruct ev; simpl in Hs; repeat (case_match; simpl in Hs); by simplify_eq/=.
Qed.

(** A cancelled loop can end. *)
Lemma cancelled_awaits l :
  lp_cancel l = true →
  ∃ evs' l', evs' `sublist_of` [TunnelEnds; PublicEnds] ∧ loop_run evs' l = Some l' ∧ awaited l' = true.
Proof.
  intros Hc. destruct l as [c cl t [[]|]]; simpl in Hc; subst c; destruct t.
  - exists [], (Build_loops true cl true (Some true)). split_and!; [apply sublist_nil_l|done..].
  - exists [TunnelEnds], (Build_loops true cl true (Some true)). split_and!; [|done..].
    apply sublist_skip, sublist_nil_l.
  - exists [PublicEnds], (Build_loops true cl true (Some true)). split_and!; [|done..].
    apply sublist_cons, sublist_skip, sublist_nil_l.
  - exists [TunnelEnds; PublicEnds], (Build_loops true cl true (Some true)). by split_and!.
  - exists [], (Build_loops true cl true None). split_and!; [apply sublist_nil_l|done..].
  - exists [TunnelEnds], (Build_loops true cl true None). split_and!; [|done..].
    apply sublist_skip, sublist_nil_l.
Qed.

(** The watchdog is truthful and shutdown ends.  In any run of the loops of a
    started server, [healthy] is false exactly when a loop has finished, which
    happens only by a panic or a shutdown: failed accepts do not end a loop.  Once
    [shutdown] has cancelled, a loop that has not finished can always end, whatever
    is accepted meanwhile, so its wait for the loops is over after at most one more
    step of each. *)
Theorem loops_correct public evs l :
  loop_run evs (started_loops public) = Some l →
  (healthy l = false ↔ lp_tunnel l = true ∨ lp_public l = Some true) ∧
  (healthy l = false → ∃ ev, ev ∈ evs ∧ stops ev = true) ∧
  (∀ more l1, loop_run (shutdown_calls ++ more) l = Some l1 →
     ∃ evs' l', evs' `sublist_of` [TunnelEnds; PublicEnds] ∧ loop_run evs' l1 = Some l' ∧ awaited l' = true).
Proof.
  intros Hr. split_and!.
  - unfold healthy. destruct l as [c cl [] [[]|]]; simpl; naive_solver.
  - intros Hl. destruct (decide (Forall (λ ev, stops ev = false) evs)) as [Hq|Hq].
    + rewrite (loop_run_quiet _ _ _ Hr) in Hl; [by destruct public|done..].
    + apply not_Forall_Exists in Hq; [|intros ev; apply _]. apply Exists_exists in Hq as (ev & ? & ?).
      exists ev. split; [done|]. simpl in *. by destruct (stops ev).
  - intros more l1 Hm. apply cancelled_awaits. by apply (loop_run_cancelled more _ _ Hm).
Qed.

(** ** Witnesses *)

Definition demo_platform (tcp : result io_error SocketAddr) : platform (gmap string (list byte)) := {|
  pl_add_root _ := Ok (); pl_protocol_versions := Ok (); pl_any_supported_type _ := Ok ();
  pl_with_single_cert _ _ := Ok (); pl_client_verifier _ := Ok (); pl_quic_crypto := Ok ();
  pl_acme_resolver _ := λ _, None;
  pl_read_to_string fs p := String.string_of_list_byte <$> read_file fs p;
  pl_bind_udp a := Ok a; pl_bind_tcp _ := tcp; pl_default_502 := "<h1>502</h1>" |}.

Definition demo_start (drawn : list byte) (tcp : result io_error SocketAddr) (cfg : ServerConfig) fs :=
  start (λ c, c) (demo_platform tcp) (Ok drawn) (Ok [x09]) cfg {| bs_fs := fs; bs_tasks := [] |}.

(** The demonstration configuration, with ACME. *)
Definition demo_acme_config : ServerConfig := {|
  listen_addr := listen_addr demo_config; public_listen_addr := public_listen_addr demo_config;
  tunnel_cert_dir := tunnel_cert_dir demo_config; clients := clients demo_config;
  hostnames := hostnames demo_config;
  acme := Some {| contact := "mailto:ops@example.com"; cache_dir := "acme"; production := true |};
  tls_cert_file := None; tls_key_file := None; upstreams := upstreams demo_config;
  max_public_connections := None; error_502_file := None; client_ca_file := None |}.

Definition ok_server (r : boot_state (gmap string (list byte)) * result ServerError TunnelServer) : TunnelServer :=
  match r.2 with
  | Ok s => s
  | Err _ => {| ts_addr := ""; ts_fingerprint := []; ts_routes := from_config [] []; ts_public := None |}
  end.

Definition demo_first := demo_start [x01] (Ok "0.0.0.0:443") demo_config ∅.
Definition demo_second := demo_start [x02] (Ok "0.0.0.0:443") demo_acme_config (bs_fs demo_first.1).

Lemma ok_server_Ok r :
  match r.2 with Ok _ => true | Err _ => false end = true → r = (r.1, Ok (ok_server r)).
Proof. destruct r as [st [s|e]]; [done|discriminate]. Qed.

Lemma demo_first_ok : demo_first = (demo_first.1, Ok (ok_server demo_first)).
Proof. apply ok_server_Ok. vm_compute. reflexivity. Qed.

Lemma demo_second_ok : demo_second = (demo_second.1, Ok (ok_server demo_second)).
Proof. apply ok_server_Ok. vm_compute. reflexivity. Qed.

Lemma restart_same_fingerprint_witness : ts_fingerprint (ok_server demo_second) = as_bytes "tuyau-tunnel" ++ [x01].
Proof.
  rewrite (restart_same_fingerprint (λ c, c) (demo_platform (Ok "0.0.0.0:443")) (demo_platform (Ok "0.0.0.0:443"))
    (Ok [x01]) (Ok [x09]) (Ok [x02]) (Ok [x09]) demo_config demo_acme_config {| bs_fs := ∅; bs_tasks := [] |}
    demo_first.1 [] demo_second.1 (ok_server demo_first) (ok_server demo_second) eq_refl demo_first_ok demo_second_ok).
  vm_compute. reflexivity.
Defined.

Lemma started_as_configured_witness : validate demo_config = Ok () ∧ ts_routes (ok_server demo_first) =
  from_config (hostnames demo_config) (upstreams demo_config).
Proof.
  destruct (started_as_configured (λ c, c) (demo_platform (Ok "0.0.0.0:443")) (Ok [x01]) (Ok [x09]) demo_config
    {| bs_fs := ∅; bs_tasks := [] |} demo_first.1 (ok_server demo_first) demo_first_ok) as (Hv & Hr & _).
  split; [exact Hv|exact Hr].
Defined.

(** The public port is taken: the start fails and its ACME order goes on, with no
    server (and no token) left to stop it. *)
Definition demo_taken := demo_start [x01] (Err "address in use") demo_acme_config ∅.

Lemma failed_start_leaves_witness :
  ∃ l, bs_tasks demo_taken.1 = [] ++ l ∧ only_acme demo_acme_config l.
Proof.
  apply (failed_start_leaves (λ c, c) (demo_platform (Err "address in use")) (Ok [x01]) (Ok [x09])
    demo_acme_config {| bs_fs := ∅; bs_tasks := [] |} demo_taken.1 (Io "address in use")).
  vm_compute. reflexivity.
Defined.

Example failed_start_leaks_acme_task :
  demo_taken.2 = Err (Io "address in use") ∧ bs_tasks demo_taken.1 = [AcmeTask ["a.example.com"]].
Proof. split; vm_compute; reflexivity. Qed.

Lemma loops_correct_witness :
  ∃ evs' l', evs' `sublist_of` [TunnelEnds; PublicEnds] ∧
    loop_run evs' {| lp_cancel := true; lp_closed := true; lp_tunnel := false; lp_public := Some false |} = Some l' ∧
    awaited l' = true.
Proof.
  destruct (loops_correct true [TunnelAccepts; PublicAcceptFails] (started_loops true) eq_refl) as (_ & _ & Hstop).
  apply (Hstop [PublicAccepts]). reflexivity.
Defined.
