(* ===== verification/Client.v ===== *)
(** * The tunnel client

    The crate [tuyau-client]: its configuration ([config.rs]), the fingerprint
    pin ([verifier.rs]), [TunnelClient::connect], [accept_bi], [serve] and
    [forward_stream] ([client.rs]), and [TunnelListener] ([listener.rs]).

    The network is an argument: [connect_env] has the outcome of each step of
    [connect]; rustls calls the verifier it is given, and the signature schemes are
    those of a crypto provider, an argument too; the streams of a tunnel are values of a type with the
    interface of [Stream].  Copying bytes between two open streams is tokio's. *)

From stdpp Require Import pretty.
From S2P Require Import Prelude Bytes Stream Protocol Config Routes Public.

Local Open Scope string_scope.
Local Open Scope list_scope.
Local Open Scope Z_scope.

(** ** Configuration *)

Record IngressRule := {
  ir_host : string;
  ir_local_addr : string
}.

Record ClientConfig := {
  server_addr : string;
  server_cert_fingerprint_sha256 : list byte;
  cc_token : list byte;
  cc_client_name : string;
  ingress : list IngressRule
}.

Inductive ClientConfigError :=
| ClientParse (msg : string)
| InvalidIngress (index : nat) (reason : string).

(** [str::parse::<u16>]: an optional ['+'], at least one digit, no overflow. *)
Definition dec_digit (c : ascii) : option Z :=
  let n := Z.of_N (Ascii.N_of_ascii c) in
  if (48 <=? n) && (n <=? 57) then Some (n - 48) else None.

Fixpoint parse_digits (acc : Z) (s : string) : option Z :=
  match s with
  | String.EmptyString => Some acc
  | String.String c s =>
      d ← dec_digit c;
      let acc := acc * 10 + d in
      if acc >? 65535 then None else parse_digits acc s
  end.

Definition parse_u16 (s : string) : option Z :=
  let digits := default s (strip_prefix "+" s) in
  if is_empty digits then None else parse_digits 0 digits.

Definition validate_local_addr (s : string) : result string () :=
  '(host, port) ← ok_or ("local_addr '" +:+ s +:+ "': missing ':port'") (rsplit_once ":"%char s);
  if contains ":"%char host && negb (starts_with_char "["%char host && ends_with_char "]"%char host)
  then Err ("local_addr '" +:+ s +:+ "': IPv6 hosts must be bracketed (e.g. '[::1]:8080')")
  else if is_empty host then Err ("local_addr '" +:+ s +:+ "': empty host before ':'")
  else match parse_u16 port with
       | Some _ => Ok ()
       | None => Err ("local_addr '" +:+ s +:+ "': '" +:+ port +:+ "' is not a valid port")
       end.

(** The loop of [ClientConfig::validate]. *)
Fixpoint validate_rules (i : nat) (rules : list IngressRule) : result ClientConfigError () :=
  match rules with
  | [] => Ok ()
  | rule :: rules =>
      _ ← map_err (InvalidIngress i) (validate_local_addr (ir_local_addr rule));
      validate_rules (S i) rules
  end.

Definition client_validate (cfg : ClientConfig) : result ClientConfigError () :=
  validate_rules 0 (ingress cfg).

(** [deserialize_hex_32] after the string is read. *)
Definition deserialize_hex_32 (hex_decode : string → result string (list byte)) (s : string) :
    result string (list byte) :=
  bytes ← map_err (λ e, "invalid hex: " +:+ e) (hex_decode s);
  if decide (length bytes = 32%nat) then Ok bytes
  else Err ("expected 32 bytes (64 hex chars), got " +:+ pretty (length bytes) +:+ " bytes").

(** ** Errors *)

Inductive ClientError :=
| InvalidServerAddr (s : string)
| DnsEmpty (s : string)
| Dns (e : io_error)
| Tls (e : string)
| QuicCrypto (e : string)
| QuicConnect (e : string)
| QuicConnection (e : string)
| ClientIo (e : io_error)
| Protocol_ (e : ProtocolError)
| Rejected (reason : string)
| ResponseTimeout
| ConnectTimeout
| StreamClosedBeforeResponse.

(** ** The fingerprint pin *)

(** [PinningCertVerifier::verify_server_cert], on the leaf certificate. *)
Definition verify_server_cert (sha256 : list byte → list byte) (fingerprint end_entity : list byte) :
    result string () :=
  let actual := sha256 end_entity in
  if bool_decide (actual = fingerprint) then Ok ()
  else Err "tuyau: cert fingerprint mismatch".

(** [DigitallySignedStruct]: the signature of a handshake and its scheme. *)
Record DigitallySignedStruct := {
  dss_scheme : Z;
  dss_signature : list byte
}.

(** What the verifier uses of rustls' [CryptoProvider]: the check of a signature on
    a message under the key of a certificate, for TLS 1.2 and 1.3. *)
Record CryptoProvider := {
  cp_tls12 : list byte → list byte → DigitallySignedStruct → result string ();
  cp_tls13 : list byte → list byte → DigitallySignedStruct → result string ();
  cp_schemes : list Z
}.

(** The trait [ServerCertVerifier]. *)
Record ServerCertVerifier := {
  v_server_cert : list byte → result string ();
  v_tls12_signature : list byte → list byte → DigitallySignedStruct → result string ();
  v_tls13_signature : list byte → list byte → DigitallySignedStruct → result string ();
  v_supported_schemes : list Z
}.

(** [PinningCertVerifier::new] and its implementation of the trait: the certificate
    is pinned, the signatures are the provider's business. *)
Definition PinningCertVerifier (sha256 : list byte → list byte) (fingerprint : list byte)
    (provider : CryptoProvider) : ServerCertVerifier := {|
  v_server_cert := verify_server_cert sha256 fingerprint;
  v_tls12_signature message cert dss := cp_tls12 provider message cert dss;
  v_tls13_signature message cert dss := cp_tls13 provider message cert dss;
  v_supported_schemes := cp_schemes provider
|}.

(** ** [connect] *)

(** Seconds. *)
Definition KEEP_ALIVE : Z := 7.
Definition MAX_IDLE : Z := 20.

(** The configuration of the QUIC endpoint: rustls' and the transport's part. *)
Record quic_client_config := {
  qc_verifier : ServerCertVerifier;
  qc_alpn : list (list byte);
  qc_keep_alive : Z;
  qc_max_idle : Z
}.

Definition split_host_port (s : string) : result ClientError (string * string) :=
  ok_or (InvalidServerAddr s) (rsplit_once ":"%char s).

(** What each step of [connect] meets; [None] in [established] and [response] is
    the timeout, and [established] is QUIC's handshake with the given configuration. *)
Record connect_env (Q : Type) := {
  lookup_host : string → result io_error (list SocketAddr);
  is_ipv6 : SocketAddr → bool;
  tls_config : result string ();
  quic_config : result string ();
  bind_client : string → result io_error ();
  dial : SocketAddr → string → result string ();
  established : quic_client_config → option (result string Q);
  open_bi : Q → result string ();
  send_hello : Q → Hello → result ProtocolError ();
  response : Q → option (option (result ProtocolError HelloResponse))
}.
Arguments lookup_host {Q}.
Arguments is_ipv6 {Q}.
Arguments tls_config {Q}.
Arguments quic_config {Q}.
Arguments bind_client {Q}.
Arguments dial {Q}.
Arguments established {Q}.
Arguments open_bi {Q}.
Arguments send_hello {Q}.
Arguments response {Q}.

Record TunnelClient (Q : Type) := {
  connection : Q;
  client_ingress : gmap string string
}.
Arguments connection {Q}.
Arguments client_ingress {Q}.

(** What [connect] did on the network: the hello it began to send, and whether it
    closed the connection. *)
Record effects (Q : Type) := {
  sent_hello : option (Q * Hello);
  closed_conn : bool
}.
Arguments sent_hello {Q}.
Arguments closed_conn {Q}.

Section connect.
Context {Q : Type} (sha256 : list byte → list byte) (provider : CryptoProvider).

Definition quiet : effects Q := {| sent_hello := None; closed_conn := false |}.

Definition ingress_map (cfg : ClientConfig) : gmap string string :=
  collect_map ((λ r, (ir_host r, ir_local_addr r)) <$> ingress cfg).

(** From the request for the tunnel's address to an established connection. *)
Definition connect_quic (env : connect_env Q) (cfg : ClientConfig) : result ClientError Q :=
  '(host, _) ← split_host_port (server_addr cfg);
  addrs ← map_err Dns (lookup_host env (server_addr cfg));
  addr ← ok_or (DnsEmpty (server_addr cfg)) (head addrs);
  let verifier := PinningCertVerifier sha256 (server_cert_fingerprint_sha256 cfg) provider in
  _ ← map_err Tls (tls_config env);
  _ ← map_err QuicCrypto (quic_config env);
  let bind_addr := if is_ipv6 env addr then "[::]:0" else "0.0.0.0:0" in
  _ ← map_err ClientIo (bind_client env bind_addr);
  _ ← map_err QuicConnect (dial env addr host);
  let quinn_config := {| qc_verifier := verifier; qc_alpn := [ALPN]; qc_keep_alive := KEEP_ALIVE;
                         qc_max_idle := MAX_IDLE |} in
  match established env quinn_config with
  | Some (Ok c) => Ok c
  | Some (Err e) => Err (QuicConnection e)
  | None => Err ConnectTimeout
  end.

Definition connect (env : connect_env Q) (cfg : ClientConfig) :
    result ClientError (TunnelClient Q) * effects Q :=
  match connect_quic env cfg with
  | Err e => (Err e, quiet)
  | Ok conn =>
      match open_bi env conn with
      | Err e => (Err (QuicConnection e), quiet)
      | Ok _ =>
          let hello := {| token := cc_token cfg; client_name := cc_client_name cfg |} in
          let eff := {| sent_hello := Some (conn, hello); closed_conn := false |} in
          match send_hello env conn hello with
          | Err e => (Err (Protocol_ e), eff)
          | Ok _ =>
              match response env conn with
              | Some (Some (Ok Welcome)) =>
                  (Ok {| connection := conn; client_ingress := ingress_map cfg |}, eff)
              | Some (Some (Ok (Reject reason))) =>
                  (Err (Rejected reason), {| sent_hello := sent_hello eff; closed_conn := true |})
              | Some (Some (Err e)) => (Err (Protocol_ e), eff)
              | Some None => (Err StreamClosedBeforeResponse, eff)
              | None => (Err ResponseTimeout, eff)
              end
          end
      end
  end.
End connect.

(** ** Incoming streams *)

Section streams.
Context {R : Type} `{ReadExact R} `{Cbor DataStreamHeader}.

(** What [connection.accept_bi()] yields, and whether the header timed out. *)
Record arrival := {
  accepted : result string R;
  header_timeout : bool
}.

Record TunnelStream := {
  header : DataStreamHeader;
  recv : R
}.

Definition accept_bi (a : arrival) : result ClientError TunnelStream :=
  recv ← map_err QuicConnection (accepted a);
  if header_timeout a then Err ResponseTimeout
  else match read_frame recv with
       | (recv, Ok h) => Ok {| header := h; recv := recv |}
       | (_, Err e) => Err (Protocol_ e)
       end.

(** [serve]: the streams it spawns a task for, and whether it returned; it waits
    for the next arrival otherwise. *)
Fixpoint serve (arrivals : list arrival) : list TunnelStream * bool :=
  match arrivals with
  | [] => ([], false)
  | a :: arrivals =>
      match accept_bi a with
      | Ok stream => let '(spawned, returned) := serve arrivals in (stream :: spawned, returned)
      | Err (QuicConnection _) => ([], true)
      | Err _ => serve arrivals
      end
  end.

(** [forward_stream]: dropped, or piped to a local service. *)
Inductive forwarding :=
| DropStream
| PipeTo (local_addr : string) (recv : R).

Definition forward_stream (dial_local : string → bool) (ingress : gmap string string)
    (s : TunnelStream) : forwarding :=
  match ingress !! hostname (header s) with
  | None => DropStream
  | Some local_addr => if dial_local local_addr then PipeTo local_addr (recv s) else DropStream
  end.

(** [TunnelListener::accept]; [parse_addr] is the parser of [SocketAddr]. *)
Definition listener_accept (parse_addr : string → option SocketAddr) (a : arrival) :
    result ClientError (TunnelStream * SocketAddr) :=
  stream ← accept_bi a;
  Ok (stream, default "0.0.0.0:0" (parse_addr (peer_addr (header stream)))).

(** [axum::serve::Listener::accept]: the first good stream and what is left to
    arrive; [None] while it waits, for ever once the tunnel is gone. *)
Fixpoint axum_accept (parse_addr : string → option SocketAddr) (arrivals : list arrival) :
    option (TunnelStream * SocketAddr * list arrival) :=
  match arrivals with
  | [] => None
  | a :: arrivals =>
      match listener_accept parse_addr a with
      | Ok got => Some (got, arrivals)
      | Err (QuicConnection _) => None
      | Err _ => axum_accept parse_addr arrivals
      end
  end.
End streams.
Arguments arrival : clear implicits.
Arguments TunnelStream : clear implicits.
Arguments forwarding : clear implicits.

(** ** Lemmas: addresses *)

(** The value of a string of decimal digits. *)
Fixpoint digits_value (acc : Z) (s : string) : option Z :=
  match s with
  | String.EmptyString => Some acc
  | String.String c s => d ← dec_digit c; digits_value (acc * 10 + d) s
  end.

Lemma dec_digit_range c d : dec_digit c = Some d → 0 <= d <= 9.
Proof. unfold dec_digit. intros Hd. case_match eqn:E; simplify_eq. apply andb_prop in E as [? ?]. lia. Qed.

Lemma digits_value_ge acc s n : 0 <= acc → digits_value acc s = Some n → acc <= n.
Proof.
  revert acc. induction s as [|c s IH]; intros acc Hacc; simpl; [intros [= <-]; lia|].
  destruct (dec_digit c) as [d|] eqn:Ed; simpl; [|done]. apply dec_digit_range in Ed.
  intros ?%IH; lia.
Qed.

Lemma parse_digits_value acc s n :
  0 <= acc <= 65535 → parse_digits acc s = Some n ↔ digits_value acc s = Some n ∧ n <= 65535.
Proof.
  revert acc. induction s as [|c s IH]; intros acc Hacc; simpl.
  { split; [|by intros [? _]]. intros [= <-]. split; [done|lia]. }
  destruct (dec_digit c) as [d|] eqn:Ed; simpl; [|by split; [|intros []]].
  apply dec_digit_range in Ed. rewrite Z.gtb_ltb. destruct (Z.ltb_spec 65535 (acc * 10 + d)).
  - split; [done|]. intros [Hv ?]. apply digits_value_ge in Hv; lia.
  - apply IH. lia.
Qed.

(** A port: a decimal number of at most 65535, perhaps after a ['+']. *)
Definition is_port (s : string) : Prop :=
  ∃ digits n, (s = digits ∨ s = String.String "+" digits) ∧ digits ≠ "" ∧
    digits_value 0 digits = Some n ∧ n <= 65535.

Lemma digits_no_plus digits n : digits_value 0 (String.String "+" digits) = Some n → False.
Proof. done. Qed.

Lemma parse_u16_is_port s : is_Some (parse_u16 s) ↔ is_port s.
Proof.
  unfold parse_u16, is_port. destruct (strip_prefix "+" s) as [t|] eqn:Es; simpl.
  - apply strip_prefix_Some in Es as ->. change ("+" +:+ t) with (String.String "+" t). split.
    + destruct t as [|c t]; [by intros []|]. intros [n Hn].
      apply parse_digits_value in Hn as []; [|done]. exists (String.String c t), n. auto.
    + intros (digits & n & [<-|[= ->]] & Hne & Hv & Hn); [by apply digits_no_plus in Hv|].
      destruct digits; [done|]. exists n. by apply parse_digits_value.
  - split.
    + destruct s as [|c s]; [by intros []|]. intros [n Hn].
      apply parse_digits_value in Hn as []; [|done]. exists (String.String c s), n. auto.
    + intros (digits & n & [->|Hp] & Hne & Hv & Hn).
      * destruct digits; [done|]. exists n. by apply parse_digits_value.
      * subst. change (String.String "+" digits) with ("+" +:+ digits) in Es.
        rewrite (proj2 (strip_prefix_Some _ _ _) eq_refl) in Es. done.
Qed.

(** A local address: a host, bracketed if it has a [':'], and a port. *)
Definition local_addr_ok (s : string) : Prop :=
  ∃ host port, s = host +:+ String.String ":" port ∧ contains ":"%char port = false ∧
    host ≠ "" ∧ is_port port ∧
    (contains ":"%char host = true →
       starts_with_char "["%char host = true ∧ ends_with_char "]"%char host = true).

Lemma rsplit_once_unique c host port :
  contains c port = false → rsplit_once c (host +:+ String.String c port) = Some (host, port).
Proof.
  intros Hp. induction host as [|d host IH].
  - rewrite append_nil_l. simpl. rewrite (proj2 (rsplit_once_None c port)) by done.
    by rewrite bool_decide_eq_true_2.
  - rewrite append_cons. simpl. by rewrite IH.
Qed.

Lemma validate_local_addr_Ok s : validate_local_addr s = Ok () ↔ local_addr_ok s.
Proof.
  unfold validate_local_addr, local_addr_ok. split.
  - destruct (rsplit_once ":"%char s) as [[host port]|] eqn:Es; [|done].
    apply rsplit_once_Some in Es as [-> Hport]. cbn [ok_or mbind result_bind].
    destruct (contains ":"%char host && _) eqn:Eb; [done|].
    destruct (is_empty host) eqn:Ee; [done|].
    destruct (parse_u16 port) eqn:Ep; [|done]. intros _. exists host, port.
    split_and!; [done|done|by intros ->|apply parse_u16_is_port; by rewrite Ep|].
    intros Hc. rewrite Hc in Eb. simpl in Eb. apply negb_false_iff, andb_prop in Eb. done.
  - intros (host & port & -> & Hport & Hne & [n Hn]%parse_u16_is_port & Hbr).
    rewrite rsplit_once_unique by done. cbn [ok_or mbind result_bind]. rewrite Hn.
    destruct (contains ":"%char host).
    + destruct Hbr as [-> ->]; [done|]. simpl. by destruct host.
    + simpl. by destruct host.
Qed.

Lemma validate_rules_spec i rules :
  match validate_rules i rules with
  | Ok _ => Forall (λ r, local_addr_ok (ir_local_addr r)) rules
  | Err e => ∃ j r reason, e = InvalidIngress (i + j) reason ∧ rules !! j = Some r ∧
      ¬ local_addr_ok (ir_local_addr r) ∧ Forall (λ r, local_addr_ok (ir_local_addr r)) (take j rules)
  end.
Proof.
  revert i. induction rules as [|r rules IH]; intros i; simpl; [constructor|].
  destruct (validate_local_addr (ir_local_addr r)) as [[]|reason] eqn:Er; simpl.
  - apply validate_local_addr_Ok in Er. specialize (IH (S i)).
    destruct (validate_rules (S i) rules) as [u|e]; [by constructor|].
    destruct IH as (j & r' & reason & -> & Hj & Hbad & Hall). exists (S j), r', reason.
    split_and!; [f_equal; lia|done|done|by constructor].
  - exists 0%nat, r, reason. split_and!; [f_equal; lia|done| |constructor].
    rewrite <- validate_local_addr_Ok. congruence.
Qed.

(** ** Theorems *)

(** [validate] accepts exactly the configurations all of whose ingress rules
    have a local address of the form [host:port]: a non-empty host, in brackets if
    it contains [':'], and a decimal port of at most 65535.  Otherwise it reports
    the index of the first rule that has not. *)
Theorem client_config_validated cfg :
  match client_validate cfg with
  | Ok _ => Forall (λ r, local_addr_ok (ir_local_addr r)) (ingress cfg)
  | Err e => ∃ i r reason, e = InvalidIngress i reason ∧ ingress cfg !! i = Some r ∧
      ¬ local_addr_ok (ir_local_addr r) ∧
      Forall (λ r, local_addr_ok (ir_local_addr r)) (take i (ingress cfg))
  end.
Proof. apply (validate_rules_spec 0). Qed.

Section connect_theorems.
Context {Q : Type} (sha256 : list byte → list byte) (provider : CryptoProvider).
(** Of a connection: the certificate its server presented, what TLS 1.3 has the
    server sign of it (its transcript), and the signature. *)
Context (peer_cert : Q → list byte) (transcript : Q → list byte) (signature : Q → DigitallySignedStruct).

(** rustls calls the verifier on the certificate the server presents and on the
    signature of the transcript, and the handshake completes only if it accepts
    both (QUIC has TLS 1.3 only). *)
Definition verifier_enforced (env : connect_env Q) : Prop :=
  ∀ conf c, established env conf = Some (Ok c) →
    v_server_cert (qc_verifier conf) (peer_cert c) = Ok () ∧
    v_tls13_signature (qc_verifier conf) (transcript c) (peer_cert c) (signature c) = Ok ().

Lemma connect_quic_pinned env cfg c :
  verifier_enforced env → connect_quic sha256 provider env cfg = Ok c →
  sha256 (peer_cert c) = server_cert_fingerprint_sha256 cfg ∧
  cp_tls13 provider (transcript c) (peer_cert c) (signature c) = Ok ().
Proof.
  intros Henf. unfold connect_quic.
  intros ([host port] & _ & (addrs & _ & (addr & _ & (u1 & _ & (u2 & _ & (u3 & _ & (u4 & _ & Hc)
    %result_bind_Ok)%result_bind_Ok)%result_bind_Ok)%result_bind_Ok)%result_bind_Ok)
    %result_bind_Ok)%result_bind_Ok.
  destruct (established env _) as [[c'|e]|] eqn:He; simplify_eq.
  apply Henf in He as [Hc Hs]. cbn in Hc, Hs. unfold verify_server_cert in Hc. by case_bool_decide.
Qed.

Lemma connect_quic_no_reject (env : connect_env Q) cfg e :
  connect_quic sha256 provider env cfg = Err e → ∀ reason, e ≠ Rejected reason.
Proof.
  unfold connect_quic, split_host_port. intros He reason ->. revert He.
  destruct (rsplit_once _ _) as [[host port]|]; simpl; [|done].
  destruct (lookup_host env _) as [[|addr addrs]|]; simpl; [done| |done].
  destruct (tls_config env); simpl; [|done]. destruct (quic_config env); simpl; [|done].
  destruct (bind_client env _); simpl; [|done]. destruct (dial env _ _); simpl; [|done].
  by destruct (established env _) as [[]|].
Qed.

(** The parts of the statement below, once the outcome of every step is known. *)
Ltac connect_cases :=
  repeat match goal with
  | |- _ ∧ _ => split
  | |- _ ↔ _ => split
  | |- ∀ _, _ => intro
  | H : ∃ _, _ |- _ => destruct H
  | H : _ ∧ _ |- _ => destruct H
  | H : _ = _ |- _ => progress simplify_eq/=
  end; try congruence; eauto 10.

(** The network lets [connect] establish the connection [c] and open its stream. *)
Definition reaches (env : connect_env Q) (cfg : ClientConfig) (c : Q) : Prop :=
  ∃ host port addr addrs, rsplit_once ":"%char (server_addr cfg) = Some (host, port) ∧
    lookup_host env (server_addr cfg) = Ok (addr :: addrs) ∧
    tls_config env = Ok () ∧ quic_config env = Ok () ∧
    bind_client env (if is_ipv6 env addr then "[::]:0" else "0.0.0.0:0") = Ok () ∧
    dial env addr host = Ok () ∧
    (∃ conf, established env conf = Some (Ok c) ∧ qc_alpn conf = [ALPN] ∧
       qc_verifier conf = PinningCertVerifier sha256 (server_cert_fingerprint_sha256 cfg) provider ∧
       qc_keep_alive conf = KEEP_ALIVE ∧ qc_max_idle conf = MAX_IDLE) ∧
    open_bi env c = Ok ().

Lemma reaches_quic env cfg c :
  reaches env cfg c → connect_quic sha256 provider env cfg = Ok c ∧ open_bi env c = Ok ().
Proof.
  intros (host & port & addr & addrs & Hs & Hl & Ht & Hq & Hb & Hd & (conf & He & Ha & Hv & Hk & Hi) & Ho).
  split; [|done]. unfold connect_quic, split_host_port. rewrite Hs. simpl. rewrite Hl. simpl.
  rewrite Ht. simpl. rewrite Hq. simpl. rewrite Hb. simpl. rewrite Hd. simpl.
  destruct conf as [v alpn k i]. cbn [qc_verifier qc_alpn qc_keep_alive qc_max_idle] in *.
  subst v alpn k i. by rewrite He.
Qed.

Lemma connect_quic_reaches env cfg c :
  connect_quic sha256 provider env cfg = Ok c → open_bi env c = Ok () → reaches env cfg c.
Proof.
  unfold connect_quic, split_host_port, reaches. intros Hc Ho. revert Hc.
  destruct (rsplit_once _ _) as [[host port]|] eqn:Es; simpl; [|done].
  destruct (lookup_host env _) as [[|addr addrs]|] eqn:El; simpl; [done| |done].
  destruct (tls_config env) as [[]|] eqn:Et; simpl; [|done].
  destruct (quic_config env) as [[]|] eqn:Eq; simpl; [|done].
  destruct (bind_client env _) as [[]|] eqn:Eb; simpl; [|done].
  destruct (dial env _ _) as [[]|] eqn:Ed; simpl; [|done].
  destruct (established env _) as [[]|] eqn:Ee; simpl; [|done..]. intros [= ->].
  exists host, port, addr, addrs. split_and!; try done. by eexists.
Qed.

(** C12: the token is sent only to the pinned server, and a client exists exactly
    after a welcome.  Whatever the network does: [connect] begins to send a hello
    exactly when the network gives it a connection, set up with the pinning
    verifier, and a stream on it; the server of that connection presented a
    certificate with the configured SHA-256 fingerprint and signed the transcript
    of that very connection with its key (the certificate, which is public, is not
    enough), and the hello carries the configured token and name.  [connect]
    succeeds, with that connection and the configured ingress, exactly when the
    hello was sent and the server answered [Welcome] to it; it reports [Rejected]
    exactly when the server answered [Reject], with the server's reason, and
    exactly then it calls [close] on the connection. *)
Theorem connect_pinned env cfg :
  verifier_enforced env →
  let '(r, eff) := connect sha256 provider env cfg in
  (∀ c h, sent_hello eff = Some (c, h) ↔
     reaches env cfg c ∧ h = {| token := cc_token cfg; client_name := cc_client_name cfg |}) ∧
  (∀ c h, sent_hello eff = Some (c, h) →
     sha256 (peer_cert c) = server_cert_fingerprint_sha256 cfg ∧
     cp_tls13 provider (transcript c) (peer_cert c) (signature c) = Ok () ∧
     token h = cc_token cfg ∧ client_name h = cc_client_name cfg) ∧
  (∀ client, r = Ok client ↔ client_ingress client = ingress_map cfg ∧
     ∃ h, sent_hello eff = Some (connection client, h) ∧ send_hello env (connection client) h = Ok () ∧
       response env (connection client) = Some (Some (Ok Welcome))) ∧
  (∀ reason, r = Err (Rejected reason) ↔
     ∃ c h, sent_hello eff = Some (c, h) ∧ send_hello env c h = Ok () ∧
       response env c = Some (Some (Ok (Reject reason)))) ∧
  (closed_conn eff = true ↔ ∃ reason, r = Err (Rejected reason)).
Proof.
  intros Henf. unfold connect. destruct (connect_quic sha256 provider env cfg) as [c|e] eqn:Eq.
  - assert (∀ c', reaches env cfg c' → c' = c ∧ open_bi env c = Ok ()) as Hreach.
    { intros c' [Hq Ho]%reaches_quic. rewrite Eq in Hq. by simplify_eq. }
    pose proof (connect_quic_reaches env cfg c Eq) as Hopen.
    apply (connect_quic_pinned _ _ _ Henf) in Eq as [Hpin Hsig].
    destruct (open_bi env c) as [[]|e]; [|assert (∀ c', ¬ reaches env cfg c') by (intros c' [_ ?]%Hreach; done); connect_cases; naive_solver].
    specialize (Hopen eq_refl).
    assert (∀ c', reaches env cfg c' ↔ c' = c) as Hiff by (intros c'; split; [apply Hreach|by intros ->]).
    destruct (send_hello env c _) as [[]|e] eqn:Es;
      [|setoid_rewrite Hiff; by connect_cases].
    destruct (response env c) as [[[[|reason]|e]|]|] eqn:Er; setoid_rewrite Hiff; connect_cases.
    all: try (destruct client; by simplify_eq/=).
  - pose proof (connect_quic_no_reject env cfg e Eq).
    assert (∀ c, ¬ reaches env cfg c) by (intros c [Hq _]%reaches_quic; congruence).
    connect_cases; naive_solver.
Qed.
End connect_theorems.

Section stream_theorems.
Context {R : Type} `{ReadExactLaws R} `{CborLaws DataStreamHeader}.
Implicit Types a : arrival R.

(** The stream of an arrival whose header is good. *)
Definition good_stream a : option (TunnelStream R) :=
  match accept_bi a with Ok s => Some s | Err _ => None end.

Lemma accept_bi_gone a : (∃ e, accept_bi a = Err (QuicConnection e)) ↔ ∃ e, accepted a = Err e.
Proof.
  unfold accept_bi. destruct (accepted a) as [r|e]; simpl; [|by split; eauto].
  split; [|by intros []]. intros [e He]. destruct (header_timeout a); [done|].
  by destruct (read_frame r) as [r' []].
Qed.

(** The forward loop serves every good stream and only those.  While the
    tunnel is up, [serve] spawns a task for each stream whose header arrives in
    time and is well-formed, in order, skipping the others; it returns exactly at
    the first error of the connection itself, whatever would come after. *)
Theorem serve_forwards live :
  Forall (λ a, ∃ r, accepted a = Ok r) live →
  serve live = (omap good_stream live, false) ∧
  ∀ a e rest, accepted a = Err e → serve (live ++ a :: rest) = (omap good_stream live, true).
Proof.
  induction 1 as [|a live [r Ha] _ [IH1 IH2]]; csimpl.
  - split; [done|]. intros a e rest He. unfold accept_bi. by rewrite He.
  - rewrite IH1. assert (good_stream a = match accept_bi a with Ok s => Some s | Err _ => None end)
      as -> by done.
    destruct (accept_bi a) as [s|err] eqn:Ea; simpl.
    + split; [done|]. intros a' e rest He. by rewrite (IH2 a' e rest He).
    + assert (∀ e, err ≠ QuicConnection e) as Hne.
      { intros e ->. destruct (proj1 (accept_bi_gone a)) as [e' ?]; [by eauto|congruence]. }
      destruct err; try (split; [done|]; intros a' e' rest He; exact (IH2 a' e' rest He)).
      by destruct (Hne e).
Qed.

Lemma accept_bi_frame a r h hdr rest :
  accepted a = Ok r → header_timeout a = false →
  encode h [] = (hdr, Ok ()) → incoming r = hdr ++ rest →
  ∃ r', accept_bi a = Ok {| header := h; recv := r' |} ∧ incoming r' = rest.
Proof.
  intros Ha Ht (payload & _ & Hp & Hmax & ->)%encode_Ok Hin.
  destruct (read_frame_frame r payload rest h Hin Hp Hmax) as (r' & Hr & Hrest).
  exists r'. split; [|done]. unfold accept_bi. rewrite Ha. cbn [map_err mbind result_bind].
  by rewrite Ht, Hr.
Qed.

(** C21: a public connection arrives intact at the local service.  Take the header
    the server's [open_tunnel_stream] sends for a route, followed by any bytes:
    the client reads from that stream exactly that header (the SNI, the public
    peer, the TLS mode of the route) and leaves exactly the bytes that follow,
    which it pipes to the service its ingress names for the SNI, and drops only if
    there is no rule or the service refuses; the embedded listeners yield the same
    stream with the public peer's address. *)
Theorem tunnel_stream_delivered a r route sni peer hdr bytes parse_addr dial_local ingress :
  accepted a = Ok r → header_timeout a = false →
  encode (tunnel_header route sni peer) [] = (hdr, Ok ()) → incoming r = hdr ++ bytes →
  ∃ r', let s := {| header := tunnel_header route sni peer; recv := r' |} in
    incoming r' = bytes ∧ accept_bi a = Ok s ∧
    (forward_stream dial_local ingress s =
       match ingress !! sni with
       | Some addr => if dial_local addr then PipeTo addr r' else DropStream
       | None => DropStream
       end) ∧
    (parse_addr peer = Some peer →
       listener_accept parse_addr a = Ok (s, peer) ∧
       ∀ rest, axum_accept parse_addr (a :: rest) = Some (s, peer, rest)).
Proof.
  intros Ha Ht Henc Hin.
  destruct (accept_bi_frame a r _ hdr bytes Ha Ht Henc Hin) as (r' & Hacc & Hr').
  exists r'. split_and!; [done|done|done|]. intros Hp.
  assert (listener_accept parse_addr a =
    Ok ({| header := tunnel_header route sni peer; recv := r' |}, peer)) as Hl.
  { unfold listener_accept. rewrite Hacc. cbn. by rewrite Hp. }
  split; [done|]. intros rest. simpl. by rewrite Hl.
Qed.
End stream_theorems.

(** ** Witnesses *)

Definition demo_client : ClientConfig := {|
  server_addr := "tunnel.example.com:4433";
  server_cert_fingerprint_sha256 := replicate 32 xaa;
  cc_token := replicate 32 x07;
  cc_client_name := "service-a";
  ingress := [{| ir_host := "a.example.com"; ir_local_addr := "app:8080" |};
              {| ir_host := "v6.example.com"; ir_local_addr := "[::1]:8443" |}]
|}.

Example demo_client_valid : client_validate demo_client = Ok ().
Proof. vm_compute. reflexivity. Qed.

(** A toy signature: the message after the certificate. *)
Definition demo_signature (cert message : list byte) : DigitallySignedStruct :=
  {| dss_scheme := 0x0403; dss_signature := cert ++ message |}.

Definition demo_provider : CryptoProvider :=
  let check message cert dss :=
    if bool_decide (dss_signature dss = cert ++ message) then Ok () else Err "bad signature" in
  {| cp_tls12 := check; cp_tls13 := check; cp_schemes := [0x0403] |}.

(** A network with one server, whose connection is the certificate it presents and
    the signature it has for it. *)
Definition demo_conn : Type := list byte * DigitallySignedStruct.
Definition demo_transcript (c : demo_conn) : list byte := as_bytes "hello".

Definition demo_connect_env (cert : list byte) (dss : DigitallySignedStruct) : connect_env demo_conn := {|
  lookup_host _ := Ok ["192.0.2.1:4433"];
  is_ipv6 _ := false;
  tls_config := Ok ();
  quic_config := Ok ();
  bind_client _ := Ok ();
  dial _ _ := Ok ();
  established conf :=
    Some (_ ← v_server_cert (qc_verifier conf) cert;
          _ ← v_tls13_signature (qc_verifier conf) (as_bytes "hello") cert dss;
          Ok (cert, dss));
  open_bi _ := Ok ();
  send_hello _ _ := Ok ();
  response _ := Some (Some (Ok Welcome))
|}.

(** A hash for the executable check. *)
Definition demo_sha (cert : list byte) : list byte := replicate 32 (default x00 (head cert)).

Definition demo_true_server : demo_conn := ([xaa], demo_signature [xaa] (as_bytes "hello")).

(** The pinned server; another certificate; the pinned certificate without its key. *)
Example demo_connect :
  connect demo_sha demo_provider (demo_connect_env [xaa] (demo_signature [xaa] (as_bytes "hello"))) demo_client =
    (Ok {| connection := demo_true_server; client_ingress := ingress_map demo_client |},
     {| sent_hello := Some (demo_true_server, {| token := replicate 32 x07; client_name := "service-a" |});
        closed_conn := false |}) ∧
  connect demo_sha demo_provider (demo_connect_env [xab] (demo_signature [xab] (as_bytes "hello"))) demo_client =
    (Err (QuicConnection "tuyau: cert fingerprint mismatch"), quiet) ∧
  connect demo_sha demo_provider (demo_connect_env [xaa] (demo_signature [xab] (as_bytes "hello"))) demo_client =
    (Err (QuicConnection "bad signature"), quiet).
Proof. split_and!; vm_compute; reflexivity. Qed.

Lemma connect_pinned_witness :
  demo_sha [xaa] = server_cert_fingerprint_sha256 demo_client ∧
  cp_tls13 demo_provider (as_bytes "hello") [xaa] (demo_signature [xaa] (as_bytes "hello")) = Ok ().
Proof.
  destruct (connect_pinned demo_sha demo_provider fst demo_transcript snd
    (demo_connect_env [xaa] (demo_signature [xaa] (as_bytes "hello"))) demo_client) as (_ & Hsent & _).
  - intros conf c. cbn. destruct (v_server_cert _ _) as [[]|] eqn:E1; [|discriminate]. cbn.
    destruct (v_tls13_signature _ _ _ _) as [[]|] eqn:E2; [|discriminate]. cbn.
    intros [= <-]. split; [exact E1|exact E2].
  - destruct (Hsent demo_true_server {| token := replicate 32 x07; client_name := "service-a" |}) as (H1 & H2 & _);
      [vm_compute; reflexivity|]. split; [exact H1|exact H2].
Defined.

(** Headers as length-prefixed fields, for the executable checks. *)
Definition demo_field (s : string) : list byte := to_u8 (blen (as_bytes s)) :: as_bytes s.

Definition mode_byte (m : TlsMode) : byte :=
  match m with Terminated => x00 | TlsOffload => x01 | Passthrough => x02 end.

Definition byte_mode (b : byte) : option TlsMode :=
  match b with x00 => Some Terminated | x01 => Some TlsOffload | x02 => Some Passthrough | _ => None end.

Definition take_field (bs : list byte) : option (string * list byte) :=
  match bs with
  | [] => None
  | n :: bs =>
      let n := Z.to_nat (u8 n) in
      Some (String.string_of_list_byte (take n bs), drop n bs)
  end.

#[export] Instance demo_header_cbor : Cbor DataStreamHeader := {
  into_writer h :=
    if decide (blen (as_bytes (hostname h)) < 256 ∧ blen (as_bytes (peer_addr h)) < 256)
    then Ok (demo_field (hostname h) ++ demo_field (peer_addr h) ++ [mode_byte (mode h)])
    else Err "too long";
  from_reader bs :=
    ok_or "bad header"
      ('(host, bs) ← take_field bs; '(peer, bs) ← take_field bs;
       b ← head bs; m ← byte_mode b;
       Some {| hostname := host; peer_addr := peer; mode := m |})
}.

Lemma take_field_demo s rest :
  blen (as_bytes s) < 256 → take_field (demo_field s ++ rest) = Some (s, rest).
Proof.
  intros Hs. unfold demo_field. cbn [take_field app]. rewrite u8_to_u8, Z.mod_small.
  2:{ pose proof (blen_nonneg (as_bytes s)). lia. }
  unfold blen. rewrite Nat2Z.id, take_app_length, drop_app_length. unfold as_bytes.
  by rewrite String.string_of_list_byte_of_string.
Qed.

#[export] Instance demo_header_cbor_laws : CborLaws DataStreamHeader.
Proof.
  intros [host peer m] bs. unfold into_writer, from_reader, demo_header_cbor; simpl.
  case_decide as Hd; [|done]. destruct Hd as [H1 H2]. intros [= <-].
  change (to_u8 (blen (as_bytes host)) :: as_bytes host ++ _) with
    (demo_field host ++ demo_field peer ++ [mode_byte m]).
  rewrite take_field_demo by done. cbn [mbind option_bind]. rewrite take_field_demo by done.
  by destruct m.
Qed.

Definition demo_route_entry : RouteEntry := {| re_client_name := "alice"; re_tls_mode := Terminated; re_conn := 1 |}.

Definition demo_stream : Wire :=
  {| wire_in := [Chunk (encode (tunnel_header demo_route_entry "a.example.com" "203.0.113.7:5") []).1;
                 Wait; Chunk (as_bytes "GET /")];
     wire_out := []; wire_mtu := 0 |}.

Definition demo_arrival : arrival Wire := {| accepted := Ok demo_stream; header_timeout := false |}.

Lemma tunnel_stream_delivered_witness :
  ∃ r', let s := {| header := tunnel_header demo_route_entry "a.example.com" "203.0.113.7:5"; recv := r' |} in
    incoming r' = as_bytes "GET /" ∧ accept_bi demo_arrival = Ok s ∧
    forward_stream (λ _, true) (ingress_map demo_client) s = PipeTo "app:8080" r'.
Proof.
  destruct (tunnel_stream_delivered demo_arrival demo_stream demo_route_entry "a.example.com"
    "203.0.113.7:5" (encode (tunnel_header demo_route_entry "a.example.com" "203.0.113.7:5") []).1
    (as_bytes "GET /") Some (λ _, true) (ingress_map demo_client)) as (r' & H1 & H2 & H3 & _).
  - reflexivity.
  - reflexivity.
  - vm_compute. reflexivity.
  - vm_compute. reflexivity.
  - exists r'. split; [exact H1|]. split; [exact H2|]. exact H3.
Defined.

Lemma serve_forwards_witness :
  serve ([demo_arrival; {| accepted := Ok demo_stream; header_timeout := true |}] ++
         {| accepted := Err "closed"; header_timeout := false |} :: [demo_arrival]) =
  (omap good_stream [demo_arrival; {| accepted := Ok demo_stream; header_timeout := true |}], true).
Proof.
  refine (proj2 (serve_forwards [demo_arrival; {| accepted := Ok demo_stream; header_timeout := true |}] _)
    {| accepted := Err "closed"; header_timeout := false |} "closed" [demo_arrival] eq_refl).
  repeat constructor; by exists demo_stream.
Defined.
