(* ===== verification/Connecting.v ===== *)
(** * Connecting, step by step

    [TunnelClient::connect] of [crates/tuyau-client/src/client.rs] at its await points,
    with its deadlines.  [Client.connect] gives its result from what each step of the
    network answers; here it is a task that waits for those answers one after the
    other.  The task computes what [Client.connect] says, and, apart from the name
    lookup, the first writes on the stream and the draining of a rejected endpoint,
    which the code awaits without a timeout, it is over within [CONNECT_TIMEOUT] and [HELLO_TIMEOUT]. *)

From S2P Require Import Prelude Bytes Stream Protocol Config Client Timing.

Local Open Scope string_scope.

Definition CONNECT_TIMEOUT : N := from_secs 10.
Definition HELLO_TIMEOUT : N := from_secs 5.

Section connecting.
Context {Q : Type} (sha256 : list byte → list byte) (provider : CryptoProvider).

Inductive connect_phase :=
| Resolving (host : string)                            (* lookup_host *)
| Dialing (conf : quic_client_config)                  (* timeout(CONNECT_TIMEOUT, connecting) *)
| OpeningBi (conn : Q)                                 (* connection.open_bi *)
| SendingHello (conn : Q)                              (* writer.send *)
| AwaitingResponse (conn : Q)                          (* timeout(HELLO_TIMEOUT, reader.next) *)
| Draining (reason : string)                           (* endpoint.wait_idle, after a reject *)
| Connected (r : result ClientError (TunnelClient Q)). (* returned *)

Inductive connect_ev :=
| Resolved (r : result io_error (list SocketAddr))
| Established (r : result string Q) | ConnectTimedOut
| BiOpened (r : result string ())
| HelloSent (r : result ProtocolError ())
| ResponseRead (r : option (result ProtocolError HelloResponse)) | ResponseTimedOut
| EndpointIdle.

Section task.
Context (env : connect_env Q) (cfg : ClientConfig).

Definition pinned_config : quic_client_config :=
  {| qc_verifier := PinningCertVerifier sha256 (server_cert_fingerprint_sha256 cfg) provider;
     qc_alpn := [ALPN]; qc_keep_alive := KEEP_ALIVE; qc_max_idle := MAX_IDLE |}.

(** What happens at once: the configuration of TLS and QUIC, the socket, the dial. *)
Definition begin_dial (host : string) (addrs : list SocketAddr) : result ClientError quic_client_config :=
  addr ← ok_or (DnsEmpty (server_addr cfg)) (head addrs);
  _ ← map_err Tls (tls_config env);
  _ ← map_err QuicCrypto (quic_config env);
  let bind_addr := if is_ipv6 env addr then "[::]:0" else "0.0.0.0:0" in
  _ ← map_err ClientIo (bind_client env bind_addr);
  _ ← map_err QuicConnect (dial env addr host);
  Ok pinned_config.

Definition connect_start : connect_phase :=
  match split_host_port (server_addr cfg) with
  | Ok (host, _) => Resolving host
  | Err e => Connected (Err e)
  end.

Definition on_response (conn : Q) (r : option (result ProtocolError HelloResponse)) : connect_phase :=
  match r with
  | Some (Ok Welcome) => Connected (Ok {| connection := conn; client_ingress := ingress_map cfg |})
  | Some (Ok (Reject reason)) => Draining reason
  | Some (Err e) => Connected (Err (Protocol_ e))
  | None => Connected (Err StreamClosedBeforeResponse)
  end.

(** The next phase; [None] when the event cannot happen there. *)
Definition connect_step (ph : connect_phase) (ev : connect_ev) : option connect_phase :=
  match ph, ev with
  | Resolving host, Resolved (Ok addrs) =>
      Some match begin_dial host addrs with Ok conf => Dialing conf | Err e => Connected (Err e) end
  | Resolving _, Resolved (Err e) => Some (Connected (Err (Dns e)))
  | Dialing _, Established (Ok conn) => Some (OpeningBi conn)
  | Dialing _, Established (Err e) => Some (Connected (Err (QuicConnection e)))
  | Dialing _, ConnectTimedOut => Some (Connected (Err ConnectTimeout))
  | OpeningBi conn, BiOpened (Ok _) => Some (SendingHello conn)
  | OpeningBi _, BiOpened (Err e) => Some (Connected (Err (QuicConnection e)))
  | SendingHello conn, HelloSent (Ok _) => Some (AwaitingResponse conn)
  | SendingHello _, HelloSent (Err e) => Some (Connected (Err (Protocol_ e)))
  | AwaitingResponse conn, ResponseRead r => Some (on_response conn r)
  | AwaitingResponse _, ResponseTimedOut => Some (Connected (Err ResponseTimeout))
  | Draining reason, EndpointIdle => Some (Connected (Err (Rejected reason)))
  | _, _ => None
  end.

(** ** The task computes [connect] *)

Definition the_hello : Hello := {| token := cc_token cfg; client_name := cc_client_name cfg |}.

(** What the network of [env] makes of a wait. *)
Definition env_event (ph : connect_phase) : option connect_ev :=
  match ph with
  | Resolving _ => Some (Resolved (lookup_host env (server_addr cfg)))
  | Dialing conf => Some match established env conf with Some r => Established r | None => ConnectTimedOut end
  | OpeningBi conn => Some (BiOpened (open_bi env conn))
  | SendingHello conn => Some (HelloSent (send_hello env conn the_hello))
  | AwaitingResponse conn => Some match response env conn with Some r => ResponseRead r | None => ResponseTimedOut end
  | Draining _ => Some EndpointIdle
  | Connected _ => None
  end.

Fixpoint run_connect (fuel : nat) (ph : connect_phase) : connect_phase :=
  match fuel with
  | O => ph
  | S fuel =>
      match env_event ph ≫= connect_step ph with
      | Some ph' => run_connect fuel ph'
      | None => ph
      end
  end.

(** From an established connection on. *)
Definition after_quic (conn : Q) : result ClientError (TunnelClient Q) :=
  match open_bi env conn with
  | Err e => Err (QuicConnection e)
  | Ok _ =>
      match send_hello env conn the_hello with
      | Err e => Err (Protocol_ e)
      | Ok _ =>
          match response env conn with
          | Some (Some (Ok Welcome)) => Ok {| connection := conn; client_ingress := ingress_map cfg |}
          | Some (Some (Ok (Reject reason))) => Err (Rejected reason)
          | Some (Some (Err e)) => Err (Protocol_ e)
          | Some None => Err StreamClosedBeforeResponse
          | None => Err ResponseTimeout
          end
      end
  end.

Lemma connect_result :
  (connect sha256 provider env cfg).1 =
  match connect_quic sha256 provider env cfg with Ok conn => after_quic conn | Err e => Err e end.
Proof.
  unfold connect, after_quic. destruct (connect_quic _ _ _ _) as [conn|e]; [|done].
  destruct (open_bi env conn); [|done]. destruct (send_hello env conn _); [|done].
  by destruct (response env conn) as [[[[]|]|]|].
Qed.

Lemma run_connected fuel r : run_connect fuel (Connected r) = Connected r.
Proof. by destruct fuel. Qed.

Lemma run_after_quic conn : run_connect 4 (OpeningBi conn) = Connected (after_quic conn).
Proof.
  unfold after_quic. simpl. destruct (open_bi env conn); simpl; [|done].
  destruct (send_hello env conn the_hello); simpl; [|done].
  by destruct (response env conn) as [[[[]|]|]|].
Qed.

Lemma connect_quic_steps :
  connect_quic sha256 provider env cfg =
  match split_host_port (server_addr cfg) with
  | Err e => Err e
  | Ok (host, _) =>
      addrs ← map_err Dns (lookup_host env (server_addr cfg));
      conf ← begin_dial host addrs;
      match established env conf with
      | Some (Ok c) => Ok c
      | Some (Err e) => Err (QuicConnection e)
      | None => Err ConnectTimeout
      end
  end.
Proof.
  unfold connect_quic, begin_dial. destruct (split_host_port _) as [[host port]|]; [|done]. simpl.
  destruct (lookup_host env _) as [addrs|]; [|done]. simpl. destruct (head addrs) as [addr|]; [|done]. simpl.
  destruct (tls_config env); [|done]. destruct (quic_config env); [|done]. simpl.
  destruct (bind_client env _); [|done]. by destruct (dial env addr host).
Qed.

(** [connect] ends, with the result of [Client.connect].  Six answers of the
    network are enough, whatever they are. *)
Theorem connect_runs : run_connect 6 connect_start = Connected (connect sha256 provider env cfg).1.
Proof.
  rewrite connect_result, connect_quic_steps. unfold connect_start.
  destruct (split_host_port _) as [[host port]|]; [|done]. cbn [run_connect env_event mbind option_bind connect_step].
  destruct (lookup_host env (server_addr cfg)) as [addrs|e]; [|done]. cbn [map_err mbind result_bind].
  destruct (begin_dial host addrs) as [conf|e]; [|done]. cbn [mbind result_bind env_event option_bind].
  destruct (established env conf) as [[conn|e]|]; [|done..]. apply run_after_quic.
Qed.

(** ** Deadlines *)

Context (dns opens sends drains : option N).

Definition connect_limit (ph : connect_phase) : option N :=
  match ph with
  | Resolving _ => dns
  | Dialing _ => Some CONNECT_TIMEOUT
  | OpeningBi _ => opens
  | SendingHello _ => sends
  | AwaitingResponse _ => Some HELLO_TIMEOUT
  | Draining _ => drains
  | Connected _ => Some 0%N
  end.

Definition connect_expiry (ev : connect_ev) : bool :=
  match ev with ConnectTimedOut | ResponseTimedOut => true | _ => false end.

Definition connect_move (ph : connect_phase) (ev : connect_ev) (ph' : connect_phase) : Prop :=
  connect_step ph ev = Some ph'.
End task.

Definition connect_budget (dns opens sends drains : N) (ph : connect_phase) : option N :=
  Some match ph with
       | Resolving _ => dns + (CONNECT_TIMEOUT + (opens + (sends + (HELLO_TIMEOUT + drains))))
       | Dialing _ => CONNECT_TIMEOUT + (opens + (sends + (HELLO_TIMEOUT + drains)))
       | OpeningBi _ => opens + (sends + (HELLO_TIMEOUT + drains))
       | SendingHello _ => sends + (HELLO_TIMEOUT + drains)
       | AwaitingResponse _ => HELLO_TIMEOUT + drains
       | Draining _ => drains
       | Connected _ => 0
       end%N.

Lemma connect_budget_ok env cfg dns opens sends drains :
  budget_ok (connect_move env cfg) (connect_limit (Some dns) (Some opens) (Some sends) (Some drains)) (connect_budget dns opens sends drains).
Proof.
  split.
  - intros ph k [= <-]. destruct ph; eexists; (split; [done|]); cbn; lia.
  - intros ph ev ph' k' Hm [= <-]. unfold connect_move in Hm.
    destruct ph, ev; try done; simpl in Hm; unfold on_response in Hm; repeat (case_match; try done); simplify_eq/=;
      do 2 eexists; (split; [done|]; split; [done|]); lia.
Qed.

(** Connecting is bounded.  However slow the server is, [connect] has returned
    after fifteen seconds and the time of what it awaits without a timeout: the name
    lookup, the opening of the stream, the write of the hello and, after a reject, the
    draining of the endpoint. *)
Theorem connect_bounded env cfg host dns opens sends drains t :
  rtc (timed_step (connect_move env cfg) (connect_limit (Some dns) (Some opens) (Some sends) (Some drains)) connect_expiry)
    (timed_start (Resolving host)) t →
  (tm_now t ≤ dns + opens + sends + drains + from_secs 15)%N.
Proof.
  intros Hr.
  pose proof (timed_bounded _ _ _ _ _ _ _ _ (connect_budget_ok env cfg dns opens sends drains) eq_refl Hr eq_refl) as Hb.
  etrans; [exact Hb|]. unfold CONNECT_TIMEOUT, HELLO_TIMEOUT, from_secs. lia.
Qed.
End connecting.

(** ** Witness *)

Lemma connect_bounded_witness :
  (tm_now {| tm_phase := Resolving (Q := demo_conn) "host"; tm_entered := 0; tm_now := 20 |} ≤ 20 + 0 + 0 + 0 + from_secs 15)%N.
Proof.
  apply (connect_bounded demo_sha demo_provider
    (demo_connect_env [xaa] (demo_signature [xaa] (as_bytes "hello"))) demo_client "host" 20 0 0 0).
  apply rtc_once. apply (Elapse _ _ _ 20 (Resolving "host") 0 0). intros L [= <-]. vm_compute. discriminate.
Defined.

(** The pinned server, through the steps. *)
Example demo_connecting :
  run_connect demo_sha demo_provider (demo_connect_env [xaa] (demo_signature [xaa] (as_bytes "hello"))) demo_client 6
    (connect_start demo_client) = Connected (Ok {| connection := demo_true_server; client_ingress := ingress_map demo_client |}).
Proof. vm_compute. reflexivity. Qed.
