(* ===== verification/Listener.v ===== *)
(** * Listeners of an embedding application

    [crates/tuyau-client/src/listener.rs]: [TunnelConnection], a tunnel stream as one
    duplex byte stream; [crates/tuyau-client/src/tls.rs]: [TlsTunnelListener], which
    terminates TLS on each stream with the application's certificate.  [Client] has
    [TunnelListener].  The halves of a QUIC stream are any types that keep the
    contracts of [Stream]; a TLS handshake (rustls) is an oracle: its outcome. *)

From S2P Require Import Prelude Bytes Stream Protocol Config Routes Public Client.

Local Open Scope string_scope.
Local Open Scope list_scope.
Local Open Scope nat_scope.

(** ** [TunnelConnection] *)

Record TunnelConnection (W R : Type) := {
  tc_send : W;
  tc_recv : R;
  tc_header : DataStreamHeader
}.
Arguments tc_send {W R}.
Arguments tc_recv {W R}.
Arguments tc_header {W R}.

Section adapter.
Context {W R : Type} `{AsyncRead R} `{AsyncWrite W}.
Implicit Types c : TunnelConnection W R.

Definition tc_hostname c : string := hostname (tc_header c).
Definition tc_peer_addr c : string := peer_addr (tc_header c).
Definition tc_tls_mode c : TlsMode := mode (tc_header c).

Definition tc_poll_read c (buf : ReadBuf) : TunnelConnection W R * ReadBuf * poll (result io_error ()) :=
  let '(recv, buf, p) := poll_read (tc_recv c) buf in
  ({| tc_send := tc_send c; tc_recv := recv; tc_header := tc_header c |}, buf, p).

Definition with_send c (send : W) : TunnelConnection W R :=
  {| tc_send := send; tc_recv := tc_recv c; tc_header := tc_header c |}.

Definition tc_poll_write c (buf : list byte) : TunnelConnection W R * poll (result io_error nat) :=
  let '(send, p) := poll_write (tc_send c) buf in (with_send c send, p).
Definition tc_poll_flush c : TunnelConnection W R * poll (result io_error ()) :=
  let '(send, p) := poll_flush (tc_send c) in (with_send c send, p).
Definition tc_poll_shutdown c : TunnelConnection W R * poll (result io_error ()) :=
  let '(send, p) := poll_shutdown (tc_send c) in (with_send c send, p).

#[export] Instance TunnelConnection_read : AsyncRead (TunnelConnection W R) := tc_poll_read.

#[export] Instance TunnelConnection_write : AsyncWrite (TunnelConnection W R) := {
  poll_write := tc_poll_write;
  poll_flush := tc_poll_flush;
  poll_shutdown := tc_poll_shutdown
}.

(** The vectored entry points are the trait's defaults. *)
#[export] Instance TunnelConnection_write_vectored : AsyncWriteVectored (TunnelConnection W R) := {
  poll_write_vectored c bufs := poll_write c (first_nonempty bufs);
  is_write_vectored _ := false
}.
End adapter.

(** ** The adapter keeps the contract *)

Section adapter_laws.
Context {W R : Type} `{ReadLaws R} `{WriteLaws W}.
Implicit Types c : TunnelConnection W R.

#[export] Program Instance TunnelConnection_read_laws : ReadLaws (TunnelConnection W R) := {
  incoming c := incoming (tc_recv c)
}.
Next Obligation.
  intros c b c' b' r. unfold poll_read at 1, TunnelConnection_read, tc_poll_read.
  destruct (poll_read (tc_recv c) b) as [[recv b1] p] eqn:E. intros [= <- <- <-]. by apply poll_read_prefix.
Qed.

#[export] Program Instance TunnelConnection_write_laws : WriteLaws (TunnelConnection W R) := {
  outgoing c := outgoing (tc_send c)
}.
Next Obligation.
  intros c buf c' r. unfold poll_write at 1; simpl. unfold tc_poll_write.
  destruct (poll_write (tc_send c) buf) as [send p] eqn:E. intros [= <- <-]. by apply poll_write_prefix.
Qed.
Next Obligation.
  intros c c' r. unfold poll_flush at 1; simpl. unfold tc_poll_flush.
  destruct (poll_flush (tc_send c)) as [send p] eqn:E. intros [= <- <-]. by eapply poll_flush_keeps.
Qed.
Next Obligation.
  intros c c' r. unfold poll_shutdown at 1; simpl. unfold tc_poll_shutdown.
  destruct (poll_shutdown (tc_send c)) as [send p] eqn:E. intros [= <- <-]. by eapply poll_shutdown_keeps.
Qed.

#[export] Instance TunnelConnection_write_vectored_laws : WriteVectoredLaws (TunnelConnection W R).
Proof.
  intros c bufs c' r Hw. apply poll_write_prefix in Hw.
  destruct (first_nonempty_prefix bufs) as [rest ->].
  destruct r as [[n|]|]; [|done..]. destruct Hw as [? ->].
  rewrite length_app, take_app_le by done. split; [lia|done].
Qed.

(** The halves are separate, so the directions are independent. *)
#[export] Instance TunnelConnection_duplex_laws : DuplexLaws (TunnelConnection W R).
Proof.
  split; intros c *; simpl.
  - unfold poll_read, TunnelConnection_read, tc_poll_read. by destruct (poll_read _ _) as [[] ?].
  - unfold tc_poll_write. by destruct (poll_write _ _).
  - unfold tc_poll_write. by destruct (poll_write _ _).
  - unfold tc_poll_flush. by destruct (poll_flush _).
  - unfold tc_poll_shutdown. by destruct (poll_shutdown _).
Qed.
End adapter_laws.

(** A run only appends to what a stream has accepted. *)
Lemma run_outgoing {S : Type} `{DuplexLaws S} ops (s s' : S) got :
  run ops s = (s', got) → ∃ sent, outgoing s' = outgoing s ++ sent.
Proof.
  revert s got. induction ops as [|op ops IH]; intros s got; simpl; [intros [= <- <-]; exists []; by rewrite app_nil_r|].
  destruct (run_op op s) as [s1 got1] eqn:E1, (run ops s1) as [s2 got2] eqn:E2. intros [= <- <-].
  assert (∃ sent, outgoing s1 = outgoing s ++ sent) as [sent1 Hs1].
  { destruct op; simpl in E1.
    - pose proof (poll_read_outgoing s {| filled := []; capacity := cap |}) as Hr.
      destruct (poll_read _ _) as [[s0 b] r]. injection E1 as <- <-. simpl in Hr. exists []. by rewrite app_nil_r.
    - destruct (poll_write s buf) as [s0 r] eqn:E. injection E1 as <- <-. apply poll_write_prefix in E.
      destruct r as [[n|]|]; [eexists; apply E|exists []; by rewrite app_nil_r..].
    - destruct (poll_write_vectored s bufs) as [s0 r] eqn:E. injection E1 as <- <-.
      apply poll_write_vectored_prefix in E.
      destruct r as [[n|]|]; [eexists; apply E|exists []; by rewrite app_nil_r..].
    - destruct (poll_flush s) as [s0 r] eqn:E. injection E1 as <- <-. exists [].
      rewrite app_nil_r. by eapply poll_flush_keeps.
    - destruct (poll_shutdown s) as [s0 r] eqn:E. injection E1 as <- <-. exists [].
      rewrite app_nil_r. by eapply poll_shutdown_keeps. }
  destruct (IH _ _ E2) as [sent2 ->]. exists (sent1 ++ sent2). by rewrite Hs1, (assoc (++)).
Qed.

Section adapter_theorem.
Context {W R : Type} `{ReadLaws R} `{WriteLaws W}.

Lemma run_op_header op (c : TunnelConnection W R) : tc_header (run_op op c).1 = tc_header c.
Proof.
  destruct op; simpl.
  - unfold poll_read, TunnelConnection_read, tc_poll_read. by destruct (poll_read _ _) as [[] ?].
  - unfold tc_poll_write. by destruct (poll_write _ _).
  - unfold tc_poll_write. by destruct (poll_write _ _).
  - unfold tc_poll_flush. by destruct (poll_flush _).
  - unfold tc_poll_shutdown. by destruct (poll_shutdown _).
Qed.

Lemma run_header ops (c c' : TunnelConnection W R) got : run ops c = (c', got) → tc_header c' = tc_header c.
Proof.
  revert c got. induction ops as [|op ops IH]; intros c got; simpl; [by intros [= <- _]|].
  pose proof (run_op_header op c) as Ho. destruct (run_op op c) as [c1 g1].
  destruct (run ops c1) as [c2 g2] eqn:E2. intros [= <- _]. simpl in Ho. by rewrite (IH _ _ E2).
Qed.

(** A [TunnelConnection] is a well-behaved stream.  Over any receive and send
    halves that keep their contracts, whatever polls an application makes, reads
    deliver the bytes of the receive half in order and nothing else, writes (plain
    and vectored) only append to what the send half has accepted, neither direction
    disturbs the other, and the host name, the visitor's address and the TLS mode
    stay those of the header. *)
Theorem tunnel_connection_stream ops (c c' : TunnelConnection W R) got :
  run ops c = (c', got) →
  incoming (tc_recv c) = got ++ incoming (tc_recv c') ∧
  (∃ sent, outgoing (tc_send c') = outgoing (tc_send c) ++ sent) ∧
  (∀ buf, tc_recv (poll_write c buf).1 = tc_recv c ∧
     ∀ b, tc_send (poll_read c b).1.1 = tc_send c) ∧
  tc_hostname c' = tc_hostname c ∧ tc_peer_addr c' = tc_peer_addr c ∧ tc_tls_mode c' = tc_tls_mode c.
Proof.
  intros Hr. split_and!.
  - exact (run_incoming _ _ _ _ Hr).
  - exact (run_outgoing _ _ _ _ Hr).
  - intros buf. split; [simpl; unfold tc_poll_write; by destruct (poll_write _ _)|].
    intros b. unfold poll_read, TunnelConnection_read, tc_poll_read. by destruct (poll_read _ _) as [[] ?].
  - unfold tc_hostname. by rewrite (run_header _ _ _ _ Hr).
  - unfold tc_peer_addr. by rewrite (run_header _ _ _ _ Hr).
  - unfold tc_tls_mode. by rewrite (run_header _ _ _ _ Hr).
Qed.
End adapter_theorem.

(** ** [TlsTunnelListener] *)

(** The outcome of [acceptor.accept(conn)]; it has no timeout. *)
Inductive tls_outcome (S : Type) :=
| TlsAccepted (stream : S)
| TlsFailed (e : io_error)
| TlsStalled.
Arguments TlsAccepted {S}. Arguments TlsFailed {S}. Arguments TlsStalled {S}.

Section tls_listener.
Context {R S : Type} `{ReadExact R} `{Cbor DataStreamHeader}.
Context (parse_addr : string → option SocketAddr) (acceptor : TunnelStream R → tls_outcome S).

(** [TlsTunnelListener::accept] on the next stream; [None] while it waits. *)
Definition tls_accept (a : arrival R) : option (result ClientError (S * SocketAddr)) :=
  match listener_accept parse_addr a with
  | Err e => Some (Err e)
  | Ok (conn, addr) =>
      match acceptor conn with
      | TlsAccepted tls => Some (Ok (tls, addr))
      | TlsFailed e => Some (Err (ClientIo e))
      | TlsStalled => None
      end
  end.

(** [axum::serve::Listener::accept]: the first good stream and what is left to
    arrive; [None] while it waits, for ever once the tunnel is gone or a handshake
    stalls. *)
Fixpoint tls_axum_accept (arrivals : list (arrival R)) : option (S * SocketAddr * list (arrival R)) :=
  match arrivals with
  | [] => None
  | a :: arrivals =>
      match tls_accept a with
      | None => None
      | Some (Ok got) => Some (got, arrivals)
      | Some (Err (QuicConnection _)) => None
      | Some (Err _) => tls_axum_accept arrivals
      end
  end.

(** What [axum::serve] gets from calling it in a loop; each call takes at least one
    arrival, so as many calls as arrivals are enough. *)
Fixpoint tls_serve (fuel : nat) (arrivals : list (arrival R)) : list (S * SocketAddr) :=
  match fuel with
  | O => []
  | Datatypes.S fuel =>
      match tls_axum_accept arrivals with
      | None => []
      | Some (got, rest) => got :: tls_serve fuel rest
      end
  end.

(** The stream of an arrival whose header and handshake are good. *)
Definition tls_good (a : arrival R) : option (S * SocketAddr) :=
  match tls_accept a with Some (Ok got) => Some got | _ => None end.

(** An arrival the loop gets past. *)
Definition passable (a : arrival R) : Prop :=
  (∃ r, accepted a = Ok r) ∧ tls_accept a ≠ None.

Definition blocked (rest : list (arrival R)) : Prop :=
  match rest with
  | [] => True
  | a :: _ => (∃ e, accepted a = Err e) ∨ tls_accept a = None
  end.

Lemma listener_accept_gone a :
  (∃ e, listener_accept parse_addr a = Err (QuicConnection e)) ↔ ∃ e, accepted a = Err e.
Proof.
  rewrite <- accept_bi_gone. unfold listener_accept.
  destruct (accept_bi a) as [s|e]; cbn; split; intros [e' [= ]]; subst; by exists e'.
Qed.

Lemma tls_accept_gone a :
  (∃ e, tls_accept a = Some (Err (QuicConnection e))) ↔ ∃ e, accepted a = Err e.
Proof.
  rewrite <- listener_accept_gone. unfold tls_accept.
  destruct (listener_accept parse_addr a) as [[conn addr]|e]; [destruct (acceptor conn)|];
    split; intros [e' He]; try done; simplify_eq; eauto.
Qed.

(** The first accept over passable arrivals followed by blocked ones. *)
Lemma tls_axum_accept_split live rest :
  Forall passable live → blocked rest →
  match omap tls_good live with
  | [] => tls_axum_accept (live ++ rest) = None
  | got :: gots => ∃ live', tls_axum_accept (live ++ rest) = Some (got, live' ++ rest) ∧
      Forall passable live' ∧ omap tls_good live' = gots ∧ length live' < length live
  end.
Proof.
  intros Hlive Hblock. induction Hlive as [|a live [[r Ha] Hn] Hlive IH]; csimpl.
  - destruct rest as [|a rest]; [done|]. cbn [app tls_axum_accept]. destruct Hblock as [Hgone| ->]; [|done].
    apply tls_accept_gone in Hgone as [e ->]. done.
  - assert (tls_good a = match tls_accept a with Some (Ok got) => Some got | _ => None end) as -> by done.
    destruct (tls_accept a) as [[got|err]|] eqn:Ea; [| |done].
    + exists live. split_and!; [done..|lia].
    + assert (∀ e, err ≠ QuicConnection e) as Hne.
      { intros e ->. destruct (proj1 (tls_accept_gone a)) as [e' ?]; [by eauto|congruence]. }
      assert (match err with QuicConnection _ => None | _ => tls_axum_accept (live ++ rest) end =
              tls_axum_accept (live ++ rest)) as -> by (destruct err; try done; exfalso; by eapply Hne).
      destruct (omap tls_good live) as [|got gots]; [done|].
      destruct IH as (live' & ? & ? & ? & ?). exists live'. split_and!; [done..|lia].
Qed.

(** The TLS listener serves every good stream, and one stalled handshake stops
    it.  While the tunnel is up and handshakes end, the listener yields each stream
    whose header and handshake succeed, in order, and skips the others; at the end
    of the tunnel, or at the first stream whose handshake never ends, it yields
    nothing more, whatever arrives after. *)
Theorem tls_listener_serves live rest fuel :
  Forall passable live → blocked rest → length live ≤ fuel →
  tls_serve fuel (live ++ rest) = omap tls_good live.
Proof.
  revert live. induction fuel as [|fuel IH]; intros live Hlive Hblock Hf.
  { destruct live; [done|simpl in Hf; lia]. }
  pose proof (tls_axum_accept_split live rest Hlive Hblock) as Hs. cbn [tls_serve].
  destruct (omap tls_good live) as [|got gots]; [by rewrite Hs|].
  destruct Hs as (live' & -> & Hp & <- & Hlt). f_equal. apply IH; [done..|lia].
Qed.
End tls_listener.

(** ** Witnesses *)

Definition demo_connection : TunnelConnection Wire Wire :=
  {| tc_send := {| wire_in := []; wire_out := []; wire_mtu := 2 |};
     tc_recv := demo_wire;
     tc_header := {| hostname := "a.example.com"; peer_addr := "192.0.2.1:4000"; mode := Passthrough |} |}.

Lemma tunnel_connection_stream_witness :
  (run demo_ops demo_connection).2 `prefix_of` incoming (tc_recv demo_connection) ∧
  tc_hostname (run demo_ops demo_connection).1 = "a.example.com".
Proof.
  destruct (tunnel_connection_stream demo_ops demo_connection (run demo_ops demo_connection).1
    (run demo_ops demo_connection).2) as (Hin & _ & _ & Hh & _); [by destruct (run _ _)|].
  split; [eexists; exact Hin|exact Hh].
Defined.

(** Three streams: good, with a failing handshake, and good; then one whose visitor
    sends nothing after its first byte. *)
Definition demo_acceptor (s : TunnelStream Wire) : tls_outcome (TunnelStream Wire) :=
  match incoming (recv s) with
  | [] => TlsStalled
  | b :: _ => if decide (b = x16) then TlsAccepted s else TlsFailed "not TLS"
  end.

Definition demo_tls_arrival (bytes : list byte) : arrival Wire :=
  {| accepted := Ok {| wire_in := [Chunk (encode (tunnel_header demo_route_entry "a.example.com" "192.0.2.1:4000") []).1;
                                   Chunk bytes];
                       wire_out := []; wire_mtu := 1 |};
     header_timeout := false |}.

Definition demo_live : list (arrival Wire) := [demo_tls_arrival [x16]; demo_tls_arrival [x47]; demo_tls_arrival [x16; x03]].

Lemma demo_live_passable : Forall (passable Some demo_acceptor) demo_live.
Proof.
  repeat constructor; try (eexists; reflexivity); vm_compute; discriminate.
Qed.

Lemma tls_listener_serves_witness :
  length (tls_serve Some demo_acceptor 4 (demo_live ++ [demo_tls_arrival []; demo_tls_arrival [x16]])) = 2.
Proof.
  rewrite (tls_listener_serves Some demo_acceptor demo_live [demo_tls_arrival []; demo_tls_arrival [x16]] 4
    demo_live_passable); [vm_compute; reflexivity| |simpl; lia].
  right. vm_compute. reflexivity.
Defined.
