(* ===== verification/Cli.v ===== *)
(** * The command line

    [crates/tuyau-cli/src/main.rs]: how the client's configuration is put together
    from flags, environment variables and files ([build_client_config_inner],
    [parse_ingress], [resolve_token], [parse_hex_32]).

    The file system and the libraries (toml, hex) are arguments.  An [anyhow]
    error is the chain of its messages, the outermost context first. *)

From stdpp Require Import pretty.
From S2P Require Import Prelude Bytes LocalPool Stream Protocol Config Client.

Local Open Scope string_scope.
Local Open Scope list_scope.

(** ** Data *)

Definition cli_error : Type := list string.

(** [r.context(c)] *)
Definition context {A} (c : string) (r : result cli_error A) : result cli_error A :=
  map_err (cons c) r.

Record ClientArgs := {
  arg_config : option PathBuf;
  arg_server : option string;
  arg_fingerprint : option string;
  arg_token_file : option PathBuf;
  arg_name : option string;
  arg_ingress : list string
}.

(** [conflicts_with_all]: the arguments clap refuses. *)
Definition conflicts (args : ClientArgs) : bool :=
  is_some (arg_config args) &&
  (is_some (arg_server args) || is_some (arg_fingerprint args) || is_some (arg_token_file args) ||
   is_some (arg_name args) || negb (is_nil (arg_ingress args))).

Record EnvVars := {
  env_server : option string;
  env_fingerprint : option string;
  env_token : option string;
  env_token_file : option string;
  env_name : option string
}.

(** [a.or(b)] *)
Definition or_else {A} (a b : option A) : option A :=
  match a with Some x => Some x | None => b end.

(** ** [str::trim]: the characters with the Unicode property White_Space *)

Definition utf8 (l : list byte) : string := String.string_of_list_byte l.

Definition whitespace : list string :=
  utf8 <$> [[x09]; [x0a]; [x0b]; [x0c]; [x0d]; [x20]; [xc2; x85]; [xc2; xa0]; [xe1; x9a; x80];
            [xe2; x80; x80]; [xe2; x80; x81]; [xe2; x80; x82]; [xe2; x80; x83]; [xe2; x80; x84];
            [xe2; x80; x85]; [xe2; x80; x86]; [xe2; x80; x87]; [xe2; x80; x88]; [xe2; x80; x89];
            [xe2; x80; x8a]; [xe2; x80; xa8]; [xe2; x80; xa9]; [xe2; x80; xaf]; [xe2; x81; x9f];
            [xe3; x80; x80]].

(** Each round strips one character, so [length s] rounds are enough. *)
Fixpoint trim_start_fuel (fuel : nat) (s : string) : string :=
  match fuel with
  | O => s
  | S fuel =>
      match find_map (λ w, strip_prefix w s) whitespace with
      | Some rest => trim_start_fuel fuel rest
      | None => s
      end
  end.
Definition str_trim_start (s : string) : string := trim_start_fuel (String.length s) s.

(** [s.strip_suffix(p)] *)
Fixpoint strip_suffix (p s : string) : option string :=
  if decide (s = p) then Some ""
  else match s with
       | String.EmptyString => None
       | String.String c s => String.String c <$> strip_suffix p s
       end.

Fixpoint trim_end_fuel (fuel : nat) (s : string) : string :=
  match fuel with
  | O => s
  | S fuel =>
      match find_map (λ w, strip_suffix w s) whitespace with
      | Some rest => trim_end_fuel fuel rest
      | None => s
      end
  end.
Definition str_trim_end (s : string) : string := trim_end_fuel (String.length s) s.

Definition str_trim (s : string) : string := str_trim_end (str_trim_start s).

Section cli.
(** [hex::decode] and [std::fs::read_to_string], errors by their message, and
    [toml::from_str]. *)
Context (hex_decode : string → result string (list byte)).
Context (read_to_string : PathBuf → result string string).
Context (toml_parse : string → result string ClientConfig).

Definition parse_hex_32 (s : string) : result cli_error (list byte) :=
  bytes ← context "invalid hex" (map_err (λ e, [e]) (hex_decode s));
  if decide (length bytes = 32) then Ok bytes
  else Err ["expected 32 bytes (64 hex chars), got " +:+ pretty (length bytes) +:+ " bytes"].

Definition resolve_token (flag_path : option PathBuf) (env_path env_hex : option string) :
    result cli_error (list byte) :=
  let token_file := or_else flag_path env_path in
  match token_file with
  | Some path =>
      raw ← context ("reading token file at " +:+ path) (map_err (λ e, [e]) (read_to_string path));
      context "token file" (parse_hex_32 (str_trim raw))
  | None =>
      match env_hex with
      | Some hex_str => context "TUYAU_TOKEN" (parse_hex_32 (str_trim hex_str))
      | None => Err ["missing required token: --token-file <PATH>, TUYAU_TOKEN_FILE=<path>, or TUYAU_TOKEN=<hex>"]
      end
  end.

(** One entry of [parse_ingress]. *)
Definition parse_ingress_entry (e : string) : result cli_error IngressRule :=
  '(host, local_addr) ←
    ok_or ["invalid --ingress '" +:+ e +:+ "': expected HOST=LOCAL_ADDR"] (split_once "="%char e);
  if is_empty host || is_empty local_addr
  then Err ["invalid --ingress '" +:+ e +:+ "': HOST and LOCAL_ADDR must both be non-empty"]
  else Ok {| ir_host := host; ir_local_addr := local_addr |}.

Fixpoint parse_ingress (entries : list string) : result cli_error (list IngressRule) :=
  match entries with
  | [] => Ok []
  | e :: entries => r ← parse_ingress_entry e; rules ← parse_ingress entries; Ok (r :: rules)
  end.

(** The display of a client [ConfigError]. *)
Definition show_config_error (e : ClientConfigError) : string :=
  match e with
  | ClientParse msg => "parse error: " +:+ msg
  | InvalidIngress i reason => "ingress[" +:+ pretty i +:+ "]: " +:+ reason
  end.

(** [ClientConfig::from_toml_str] *)
Definition from_toml_str (s : string) : result ClientConfigError ClientConfig :=
  cfg ← map_err ClientParse (toml_parse s);
  _ ← client_validate cfg;
  Ok cfg.

Definition build_client_config_inner (args : ClientArgs) (env : EnvVars) (default_name : string) :
    result cli_error ClientConfig :=
  match arg_config args with
  | Some path =>
      raw ← context ("reading client config at " +:+ path) (map_err (λ e, [e]) (read_to_string path));
      context "parsing client config" (map_err (λ e, [show_config_error e]) (from_toml_str raw))
  | None =>
      addr ← ok_or ["missing required: --server or TUYAU_SERVER"]
               (or_else (arg_server args) (env_server env));
      fingerprint_hex ← ok_or ["missing required: --fingerprint or TUYAU_FINGERPRINT"]
               (or_else (arg_fingerprint args) (env_fingerprint env));
      fingerprint ← context "--fingerprint / TUYAU_FINGERPRINT" (parse_hex_32 fingerprint_hex);
      tok ← resolve_token (arg_token_file args) (env_token_file env) (env_token env);
      let name := default default_name (or_else (arg_name args) (env_name env)) in
      rules ← parse_ingress (arg_ingress args);
      let cfg := {| server_addr := addr; server_cert_fingerprint_sha256 := fingerprint;
                    cc_token := tok; cc_client_name := name; ingress := rules |} in
      _ ← map_err (λ e, ["invalid client config: " +:+ show_config_error e]) (client_validate cfg);
      Ok cfg
  end.

(** ** What the configuration must be *)

(** A 32-byte value from its hexadecimal text. *)
Definition hex_32 (s : string) (bytes : list byte) : Prop :=
  hex_decode s = Ok bytes ∧ length bytes = 32.

(** The token: the file of the flag, else the file of the environment, else the
    hexadecimal of the environment, white space around it removed. *)
Definition token_source (args : ClientArgs) (env : EnvVars) (bytes : list byte) : Prop :=
  ∃ text, hex_32 (str_trim text) bytes ∧
    match or_else (arg_token_file args) (env_token_file env) with
    | Some path => read_to_string path = Ok text
    | None => env_token env = Some text
    end.

Definition ingress_of (e : string) (r : IngressRule) : Prop :=
  e = ir_host r +:+ String.String "=" (ir_local_addr r) ∧ contains "="%char (ir_host r) = false ∧
  ir_host r ≠ "" ∧ local_addr_ok (ir_local_addr r).

Record cli_spec (args : ClientArgs) (env : EnvVars) (default_name : string) (cfg : ClientConfig) : Prop := {
  cs_server : or_else (arg_server args) (env_server env) = Some (server_addr cfg);
  cs_fingerprint : ∃ h, or_else (arg_fingerprint args) (env_fingerprint env) = Some h ∧
    hex_32 h (server_cert_fingerprint_sha256 cfg);
  cs_token : token_source args env (cc_token cfg);
  cs_name : cc_client_name cfg = default default_name (or_else (arg_name args) (env_name env));
  cs_ingress : Forall2 ingress_of (arg_ingress args) (ingress cfg)
}.

(** ** Lemmas *)

Lemma context_Ok {A} c (r : result cli_error A) a : context c r = Ok a ↔ r = Ok a.
Proof. unfold context. destruct r; simpl; split; intros; simplify_eq; done. Qed.

Lemma ok_or_Ok {E A} (e : E) (o : option A) a : ok_or e o = Ok a ↔ o = Some a.
Proof. destruct o; simpl; split; intros; simplify_eq; done. Qed.

Lemma parse_hex_32_Ok s bytes : parse_hex_32 s = Ok bytes ↔ hex_32 s bytes.
Proof.
  unfold parse_hex_32, hex_32. rewrite result_bind_Ok. setoid_rewrite context_Ok.
  setoid_rewrite map_err_Ok. split.
  - intros (b & Hb & Hl). case_decide; by simplify_eq.
  - intros [Hb Hl]. exists bytes. split; [done|]. by rewrite decide_True.
Qed.

Lemma resolve_token_Ok args env bytes :
  resolve_token (arg_token_file args) (env_token_file env) (env_token env) = Ok bytes ↔
  token_source args env bytes.
Proof.
  unfold resolve_token, token_source. destruct (or_else _ _) as [path|].
  - rewrite result_bind_Ok. setoid_rewrite context_Ok. setoid_rewrite map_err_Ok.
    setoid_rewrite parse_hex_32_Ok. split; intros (raw & ? & ?); eauto.
  - destruct (env_token env) as [h|].
    + rewrite context_Ok, parse_hex_32_Ok. split; [by eauto|]. by intros (text & ? & [= ->]).
    + split; [done|]. by intros (text & _ & ?).
Qed.

Lemma split_once_unique c a b :
  contains c a = false → split_once c (a +:+ String.String c b) = Some (a, b).
Proof.
  induction a as [|d a IH]; simpl.
  - intros _. by rewrite bool_decide_eq_true_2.
  - intros [Hd Ha]%orb_false_elim. by rewrite Hd, IH.
Qed.

(** The local address is checked by [validate], the rest here. *)
Lemma parse_ingress_entry_Ok e r :
  parse_ingress_entry e = Ok r ∧ local_addr_ok (ir_local_addr r) ↔ ingress_of e r.
Proof.
  unfold parse_ingress_entry, ingress_of. split.
  - intros [([host addr] & Hs%ok_or_Ok & Hr)%result_bind_Ok Hok].
    apply split_once_Some in Hs as [-> Hc].
    destruct (is_empty host || is_empty addr) eqn:Ee; simplify_eq/=.
    split_and!; [done|done|by intros ->|done].
  - destruct r as [host addr]; simpl. intros (-> & Hc & Hh & Hok). split; [|done].
    rewrite split_once_unique by done. cbn.
    assert (addr ≠ "") as Ha by (intros ->; by destruct Hok as (h & p & ? & _); destruct h).
    by destruct host, addr.
Qed.

Lemma parse_ingress_Ok entries rules :
  parse_ingress entries = Ok rules ∧ Forall (λ r, local_addr_ok (ir_local_addr r)) rules ↔
  Forall2 ingress_of entries rules.
Proof.
  revert rules. induction entries as [|e entries IH]; intros rules; simpl.
  - split; [by intros [[= <-] _]|]. intros ->%Forall2_nil_inv_l. done.
  - split.
    + intros [(r & Hr & (rs & Hrs & [= <-])%result_bind_Ok)%result_bind_Ok [Hok Hoks]%Forall_cons].
      constructor; [by apply parse_ingress_entry_Ok|]. by apply IH.
    + intros (r & rs & [Hr Hok]%parse_ingress_entry_Ok & [Hrs Hoks]%IH & ->)%Forall2_cons_inv_l.
      rewrite Hr. cbn. rewrite Hrs. split; [done|]. by constructor.
Qed.

Lemma client_validate_Ok cfg :
  client_validate cfg = Ok () ↔ Forall (λ r, local_addr_ok (ir_local_addr r)) (ingress cfg).
Proof.
  pose proof (validate_rules_spec 0 (ingress cfg)) as Hs. unfold client_validate.
  destruct (validate_rules 0 (ingress cfg)) as [[]|e]; [done|]. split; [done|].
  destruct Hs as (j & r & reason & _ & Hj & Hbad & _). intros Hall. destruct Hbad.
  by eapply (Forall_lookup_1 _ _ _ _ Hall).
Qed.

(** ** Theorems *)

(** C40: the client's configuration is exactly what the flags and the environment
    say.  Without [--config], [build_client_config_inner] succeeds with [cfg] if
    and only if each flag, or else its variable, gives the field of [cfg] (the
    token from the file of the flag, else of the environment, else from
    TUYAU_TOKEN, with the white space around it removed), the hexadecimal fields
    decode to 32 bytes, the name falls back to the default, and the ingress
    entries are, in order, [host=local_addr] with valid local addresses. *)
Theorem client_config_from_flags args env default_name cfg :
  arg_config args = None →
  build_client_config_inner args env default_name = Ok cfg ↔ cli_spec args env default_name cfg.
Proof.
  intros Hno. unfold build_client_config_inner. rewrite Hno. split.
  - intros (addr & Ha%ok_or_Ok & (h & Hh%ok_or_Ok & (fp & Hfp & (tok & Htok & (rules & Hrules & (u & Hv
      & [= <-])%result_bind_Ok)%result_bind_Ok)%result_bind_Ok)%result_bind_Ok)%result_bind_Ok)%result_bind_Ok.
    apply context_Ok, parse_hex_32_Ok in Hfp. apply resolve_token_Ok in Htok.
    apply map_err_Ok in Hv. destruct u. apply client_validate_Ok in Hv.
    split; simpl; [done|by eauto|done|done|]. by apply parse_ingress_Ok.
  - intros [-> (h & -> & Hfp%parse_hex_32_Ok) Htok%resolve_token_Ok Hname [Hr Hok]%parse_ingress_Ok].
    cbn [ok_or mbind result_bind]. rewrite (proj2 (context_Ok _ _ _) Hfp). cbn [mbind result_bind].
    rewrite Htok. cbn [mbind result_bind]. rewrite Hr. cbn [mbind result_bind].
    rewrite <- Hname. destruct cfg as [sa fp tok name rules]; simpl in *.
    by rewrite (proj2 (client_validate_Ok {| ingress := rules |}) Hok).
Qed.

(** A configuration file is taken only as a whole and only if valid: with
    [--config] no flag and no variable matters, and the result is the file's
    configuration with every ingress address checked. *)
Theorem client_config_from_file args env default_name path cfg :
  arg_config args = Some path →
  build_client_config_inner args env default_name = Ok cfg ↔
  ∃ raw, read_to_string path = Ok raw ∧ toml_parse raw = Ok cfg ∧
    Forall (λ r, local_addr_ok (ir_local_addr r)) (ingress cfg).
Proof.
  intros Hp. unfold build_client_config_inner, from_toml_str. rewrite Hp, result_bind_Ok.
  setoid_rewrite context_Ok. setoid_rewrite map_err_Ok. setoid_rewrite result_bind_Ok.
  setoid_rewrite map_err_Ok. split.
  - intros (raw & Hraw & c & Hc & (u & Hv & [= <-])%result_bind_Ok). destruct u.
    apply client_validate_Ok in Hv. eauto.
  - intros (raw & Hraw & Hc & Hv%client_validate_Ok). exists raw. split; [done|].
    exists cfg. split; [done|]. by rewrite Hv.
Qed.
End cli.

(** ** Witnesses *)

Definition demo_hex (s : string) : result string (list byte) := ok_or "odd or bad" (LocalPool.hex_decode s).

(** A token file with the line break and the spaces a secret store leaves. *)
Definition demo_secret : string :=
  utf8 [x20; xc2; xa0] +:+ hex_encode (replicate 32 x07) +:+ utf8 [x20; x0a].

Definition demo_files (path : PathBuf) : result string string :=
  if decide (path = "/run/secrets/token") then Ok demo_secret else Err "not found".

Definition demo_args : ClientArgs := {|
  arg_config := None; arg_server := Some "flag:4433"; arg_fingerprint := None;
  arg_token_file := Some "/run/secrets/token"; arg_name := None;
  arg_ingress := ["a.example.com=app:8080"]
|}.

Definition demo_vars : EnvVars := {|
  env_server := Some "env:9999"; env_fingerprint := Some (hex_encode (replicate 32 xaa));
  env_token := Some "ignored"; env_token_file := None; env_name := Some "service-a"
|}.

Definition demo_built : ClientConfig := {|
  server_addr := "flag:4433"; server_cert_fingerprint_sha256 := replicate 32 xaa;
  cc_token := replicate 32 x07; cc_client_name := "service-a";
  ingress := [{| ir_host := "a.example.com"; ir_local_addr := "app:8080" |}]
|}.

Example demo_trim : str_trim demo_secret = hex_encode (replicate 32 x07).
Proof. vm_compute. reflexivity. Qed.

Lemma client_config_from_flags_witness :
  cli_spec demo_hex demo_files demo_args demo_vars "host" demo_built.
Proof.
  apply (client_config_from_flags demo_hex demo_files (λ _, Err "no toml") demo_args demo_vars "host"
    demo_built); [reflexivity|vm_compute; reflexivity].
Defined.

Lemma client_config_from_file_witness :
  ∃ raw, Ok "text" = Ok (E := string) raw ∧ Ok demo_client = Ok (E := string) demo_client ∧
    Forall (λ r, local_addr_ok (ir_local_addr r)) (ingress demo_client).
Proof.
  apply (client_config_from_file demo_hex (λ _, Ok "text") (λ _, Ok demo_client)
    {| arg_config := Some "client.toml"; arg_server := None; arg_fingerprint := None;
       arg_token_file := None; arg_name := None; arg_ingress := [] |} demo_vars "host" "client.toml"
    demo_client); [reflexivity|vm_compute; reflexivity].
Defined.
