(* ===== verification/Launch.v ===== *)
(** * Running the command line

    [crates/tuyau-cli/src/main.rs]: [run_server] (the configuration file, the default
    of the certificate directory, the start), [run_client], [default_client_name].
    [Cli] has the client's configuration, [Lifecycle] what a connected client does
    until a signal or the loss of its tunnel; logging is left out. *)

From S2P Require Import Prelude Bytes Stream Protocol Config Cert HostCerts Start Client Cli.

Local Open Scope string_scope.
Local Open Scope list_scope.

(** ** Paths *)

(** [Path::parent], of a Unix path: separators and ["."] components at the end do
    not count; there is none of the root and of the empty path.  Each round strips
    a character, so the length of the path is enough fuel. *)
Fixpoint trim_path_fuel (fuel : nat) (p : string) : string :=
  match fuel with
  | O => p
  | S fuel =>
      match strip_suffix "/." p with
      | Some rest => trim_path_fuel fuel (rest +:+ "/")
      | None =>
          match strip_suffix "/" p with
          | Some rest => if is_empty rest then p else trim_path_fuel fuel rest
          | None => p
          end
      end
  end.
Definition trim_path (p : string) : string := trim_path_fuel (String.length p) p.

Definition path_parent (p : string) : option string :=
  let p := trim_path p in
  if is_empty p || bool_decide (p = "/") then None
  else match rsplit_once "/"%char p with
       | None => Some ""
       | Some (dir, _) => Some (if is_empty dir then "/" else trim_path dir)
       end.

(** ** The directory of a path *)

(** [dir] is the directory of the file [p]: none, when [p] is a name; otherwise
    [p] is [dir/name], written without a separator or ["."] at the end of [dir]. *)
Definition dir_of (p dir : string) : Prop :=
  (contains "/"%char p = false ∧ p ≠ "" ∧ dir = "") ∨
  (∃ name, p = dir +:+ String.String "/"%char name ∧ contains "/"%char name = false ∧ name ≠ "" ∧ name ≠ "." ∧
     dir ≠ "" ∧ strip_suffix "/" dir = None ∧ strip_suffix "/." dir = None).

Lemma strip_suffix_cons p c s :
  strip_suffix p (String.String c s) =
    if decide (String.String c s = p) then Some "" else String.String c <$> strip_suffix p s.
Proof. done. Qed.

Lemma strip_suffix_free c p s : contains c s = false → strip_suffix (String.String c p) s = None.
Proof.
  induction s as [|d s IH]; simpl; [done|]. intros [Hd Hs]%orb_false_iff.
  rewrite decide_False; [by rewrite (IH Hs)|]. intros [= -> _]. by apply bool_decide_eq_false in Hd.
Qed.

Lemma strip_suffix_app p a b :
  (String.length p <= String.length b)%nat → strip_suffix p b = None → strip_suffix p (a +:+ b) = None.
Proof.
  intros Hlen Hb. induction a as [|c a IH]; [done|]. rewrite append_cons. simpl.
  rewrite decide_False; [by rewrite IH|]. intros Heq. apply (f_equal String.length) in Heq. simpl in Heq.
  assert (String.length b <= String.length (a +:+ b))%nat; [clear; induction a as [|d a IH]; [done|];
    rewrite append_cons; simpl; lia|lia].
Qed.

Lemma trim_path_id p : strip_suffix "/" p = None → strip_suffix "/." p = None → trim_path p = p.
Proof. unfold trim_path. intros H1 H2. destruct (String.length p); [done|]. simpl. by rewrite H2, H1. Qed.

Lemma path_parent_dir p dir : dir_of p dir → path_parent p = Some dir.
Proof.
  unfold path_parent. intros [(Hp & Hne & ->)|(name & -> & Hn & Hne & Hdot & Hdir & Hs & Hsd)].
  - rewrite trim_path_id by (by apply strip_suffix_free).
    assert (is_empty p || bool_decide (p = "/") = false) as ->.
    { apply orb_false_iff. split; [by destruct p|]. apply bool_decide_eq_false. by intros ->. }
    by rewrite (proj2 (rsplit_once_None _ p) Hp).
  - assert (trim_path (dir +:+ String.String "/"%char name) = dir +:+ String.String "/"%char name) as ->.
    { apply trim_path_id; apply strip_suffix_app; try (destruct name; simpl; [done|lia]);
        rewrite strip_suffix_cons, decide_False, strip_suffix_free; try done; by intros [= ->]. }
    assert (is_empty (dir +:+ String.String "/"%char name) || bool_decide (dir +:+ String.String "/"%char name = "/")
      = false) as ->.
    { destruct dir as [|c dir]; [done|]. rewrite append_cons. simpl. apply bool_decide_eq_false.
      intros [= _ Heq]. by destruct dir. }
    rewrite (rsplit_once_unique _ _ _ Hn). destruct dir as [|c dir]; [done|]. cbn [is_empty].
    by rewrite trim_path_id.
Qed.

(** ** The server *)

Definition with_cert_dir (dir : option PathBuf) (c : ServerConfig) : ServerConfig :=
  {| listen_addr := listen_addr c; public_listen_addr := public_listen_addr c; tunnel_cert_dir := dir;
     clients := clients c; hostnames := hostnames c; acme := acme c; tls_cert_file := tls_cert_file c;
     tls_key_file := tls_key_file c; upstreams := upstreams c;
     max_public_connections := max_public_connections c; error_502_file := error_502_file c;
     client_ca_file := client_ca_file c |}.

Section server.
Context {FS KeyPair Certificate : Type} `{FileSystem FS} `{CertLib KeyPair Certificate}.
(* [fs::read_to_string] and [toml::from_str], and the display of a server error *)
Context (read_text : FS → PathBuf → result string string) (toml_parse : string → result string ServerConfig).
Context (show_error : ServerError → string).
Context (sha256 : list byte → list byte).

(** [ServerConfig::from_toml_str] *)
Definition server_from_toml_str (s : string) : result ConfigError ServerConfig :=
  map_err Parse (toml_parse s).

(** The configuration [run_server] starts with. *)
Definition load_server_config (fs : FS) (config_path : PathBuf) : result cli_error ServerConfig :=
  raw ← context ("reading server config at " +:+ config_path) (map_err (λ e, [e]) (read_text fs config_path));
  cfg ← context "parsing server config"
          (map_err (λ e, [show_error (Config_ e)]) (server_from_toml_str raw));
  Ok match tunnel_cert_dir cfg, path_parent config_path with
     | None, Some parent => with_cert_dir (Some parent) cfg
     | _, _ => cfg
     end.

(** [run_server], to the point where the server runs. *)
Definition run_server (pl : platform FS) (drawn drawn_public : result string KeyPair) (config_path : PathBuf)
    (st : boot_state FS) : boot_state FS * result cli_error TunnelServer :=
  match load_server_config (bs_fs st) config_path with
  | Err e => (st, Err e)
  | Ok cfg =>
      let '(st, r) := start sha256 pl drawn drawn_public cfg st in
      (st, context "starting server" (map_err (λ e, [show_error e]) r))
  end.

(** ** Lemmas and theorems *)

Lemma load_server_config_Ok fs config_path cfg :
  load_server_config fs config_path = Ok cfg →
  ∃ raw cfg0, read_text fs config_path = Ok raw ∧ toml_parse raw = Ok cfg0 ∧
    tunnel_cert_dir cfg = match tunnel_cert_dir cfg0 with Some d => Some d | None => path_parent config_path end ∧
    cfg = with_cert_dir (tunnel_cert_dir cfg) cfg0.
Proof.
  unfold load_server_config, server_from_toml_str. destruct (read_text fs config_path) as [raw|e]; [|done]. simpl.
  destruct (toml_parse raw) as [cfg0|e] eqn:Ep; [|done]. simpl. intros [= <-]. exists raw, cfg0. split_and!; [done..| |].
  - by destruct (tunnel_cert_dir cfg0) eqn:E, (path_parent config_path); simpl; rewrite ?E.
  - destruct (tunnel_cert_dir cfg0) eqn:E, (path_parent config_path); simpl; rewrite ?E;
      destruct cfg0; simpl in *; by subst.
Qed.

Lemma run_server_Ok pl drawn drawn_public config_path st st' s :
  run_server pl drawn drawn_public config_path st = (st', Ok s) →
  ∃ cfg, load_server_config (bs_fs st) config_path = Ok cfg ∧
    start sha256 pl drawn drawn_public cfg st = (st', Ok s).
Proof.
  unfold run_server. destruct (load_server_config _ _) as [cfg|e]; [|done].
  destruct (start _ _ _ _ _ _) as [st1 [s1|e]] eqn:Es; [|done]. intros [= <- <-]. by exists cfg.
Qed.

Context `{!FileSystemLaws FS} `{!CertLibLaws KeyPair Certificate}.

(** C25: the bootstrap loop is predictable.  Two successful runs of [tuyau server]
    with the same [--config] path, the second over the files the first left (and
    other keys drawn), have the same certificate fingerprint, if both read the same
    [tunnel_cert_dir], or none, in the configuration file.  It is the fingerprint of
    the certificate that is then in the directory the file names, or, when it names
    none, in the directory of the configuration file. *)
Theorem server_bootstrap pl pl' drawn drawn_public drawn' drawn_public' config_path st st1 tasks st' s s' :
  run_server pl drawn drawn_public config_path st = (st1, Ok s) →
  run_server pl' drawn' drawn_public' config_path {| bs_fs := bs_fs st1; bs_tasks := tasks |} = (st', Ok s') →
  (∀ raw raw' cfg cfg', read_text (bs_fs st) config_path = Ok raw → toml_parse raw = Ok cfg →
     read_text (bs_fs st1) config_path = Ok raw' → toml_parse raw' = Ok cfg' →
     tunnel_cert_dir cfg' = tunnel_cert_dir cfg) →
  ts_fingerprint s' = ts_fingerprint s ∧
  ∃ raw cfg m, read_text (bs_fs st) config_path = Ok raw ∧ toml_parse raw = Ok cfg ∧
    ts_fingerprint s = fingerprint m ∧
    (∀ dir, tunnel_cert_dir cfg = Some dir → identity_on_disk sha256 dir m (bs_fs st1)) ∧
    (∀ dir, tunnel_cert_dir cfg = None → dir_of config_path dir → identity_on_disk sha256 dir m (bs_fs st1)).
Proof.
  intros (cfg & Hc & Hs)%run_server_Ok (cfg' & Hc' & Hs')%run_server_Ok Hdir.
  apply load_server_config_Ok in Hc as (raw & cfg0 & Hr & Hp & Hd & _).
  apply load_server_config_Ok in Hc' as (raw' & cfg0' & Hr' & Hp' & Hd' & _). simpl in Hr'. split.
  - eapply restart_fingerprint; [|exact Hs|exact Hs']. rewrite Hd, Hd', (Hdir raw raw' cfg0 cfg0'); done.
  - destruct (start_identity _ _ _ _ _ _ _ _ Hs) as (m & Hf & Hm & _). rewrite Hd in Hm.
    exists raw, cfg0, m. split_and!; try done.
    + intros dir Hdir0. by rewrite Hdir0 in Hm.
    + intros dir Hdir0 Hof. by rewrite Hdir0, (path_parent_dir _ _ Hof) in Hm.
Qed.
End server.

(** ** The client *)

(** [hostname::get()], when it is Unicode. *)
Definition default_client_name (hostname : option string) : string := default "unknown" hostname.

(** What ends [run_client] once it is connected: a signal, or the end of [serve]. *)
Inductive client_end := Signalled | ServeEnded (r : result ClientError ()).

(** How [run_client] ends: an error before it serves, or after serving, with
    whether [shutdown] was called. *)
Definition run_client {Q : Type} (built : result cli_error ClientConfig)
    (connected : ClientConfig → result ClientError Q) (show : ClientError → string) (ended : client_end) :
    result cli_error bool :=
  cfg ← built;
  _ ← context "connecting to server" (map_err (λ e, [show e]) (connected cfg));
  Ok match ended with Signalled => true | ServeEnded _ => false end.

(** ** Witnesses *)

Definition demo_read_text (fs : gmap string (list byte)) (p : PathBuf) : result string string :=
  String.string_of_list_byte <$> read_file fs p.

Definition demo_toml (s : string) : result string ServerConfig :=
  if decide (s = "config") then Ok demo_config else Err "syntax".

Definition demo_etc : gmap string (list byte) := {["/etc/tuyau/server.toml" := as_bytes "config"]}.

Definition demo_run_server (drawn : list byte) (fs : gmap string (list byte)) :=
  run_server demo_read_text demo_toml (λ _, "error") (λ c, c) (demo_platform (Ok "0.0.0.0:443"))
    (Ok drawn) (Ok [x09]) "/etc/tuyau/server.toml" {| bs_fs := fs; bs_tasks := [] |}.

Example demo_parents :
  path_parent <$> ["/etc/tuyau/server.toml"; "server.toml"; "/server.toml"; "conf//server.toml"; "./server.toml";
    "conf/."; "/"; ""] =
  [Some "/etc/tuyau"; Some ""; Some "/"; Some "conf"; Some "."; Some ""; None; None].
Proof. vm_compute. reflexivity. Qed.

Definition cli_server (r : boot_state (gmap string (list byte)) * result cli_error TunnelServer) : TunnelServer :=
  match r.2 with Ok s => s | Err _ => ok_server demo_first end.

Lemma cli_server_Ok r :
  match r.2 with Ok _ => true | Err _ => false end = true → r = (r.1, Ok (cli_server r)).
Proof. destruct r as [st [s|e]]; [done|discriminate]. Qed.

Definition demo_run1 := demo_run_server [x01] demo_etc.
Definition demo_run2 := demo_run_server [x02] (bs_fs demo_run1.1).

Lemma demo_run1_ok : demo_run1 = (demo_run1.1, Ok (cli_server demo_run1)).
Proof. apply cli_server_Ok. vm_compute. reflexivity. Qed.

Lemma demo_run2_ok : demo_run2 = (demo_run2.1, Ok (cli_server demo_run2)).
Proof. apply cli_server_Ok. vm_compute. reflexivity. Qed.

Lemma server_bootstrap_witness :
  ts_fingerprint (cli_server demo_run2) = ts_fingerprint (cli_server demo_run1) ∧
  ∃ m, ts_fingerprint (cli_server demo_run1) = fingerprint m ∧
    identity_on_disk (λ c, c) "/etc/tuyau" m (bs_fs demo_run1.1).
Proof.
  destruct (server_bootstrap demo_read_text demo_toml (λ _, "error") (λ c, c) (demo_platform (Ok "0.0.0.0:443"))
    (demo_platform (Ok "0.0.0.0:443")) (Ok [x01]) (Ok [x09]) (Ok [x02]) (Ok [x09]) "/etc/tuyau/server.toml"
    {| bs_fs := demo_etc; bs_tasks := [] |} demo_run1.1 [] demo_run2.1 (cli_server demo_run1) (cli_server demo_run2)
    demo_run1_ok demo_run2_ok) as [Hf (raw & cfg & m & _ & Hp & Hm & _ & Hdir)].
  - intros raw raw' cfg cfg' _ Hc _ Hc'. unfold demo_toml in *. repeat case_decide; by simplify_eq.
  - split; [exact Hf|]. exists m. split; [exact Hm|]. apply Hdir.
    + clear - Hp. unfold demo_toml in Hp. case_decide; [injection Hp as <-; reflexivity|discriminate].
    + right. exists "server.toml". split_and!; try reflexivity; discriminate.
Defined.
