(* ===== verification/Lifecycle.v ===== *)
(** * The life of a client process

    [crates/tuyau-client/src/client.rs]: the handles of a connected client
    ([wait_closed], [listener], [tls_listener], [shutdown]), [listener.rs] and
    [tls.rs]: [closed] and [local_addr]; [crates/tuyau-cli/src/main.rs]: [main],
    [run_client] from its connection to its end, and the environment its
    configuration comes from.

    A connection is shared by its handles: it is open, or has the reason of its
    first close.  The process is a state machine: the streams that arrive, the end
    of the connection, the signals, the drained endpoint and the end of the grace
    period happen in any order; [tokio::select!] takes whichever branch is ready. *)

From S2P Require Import Prelude Bytes Stream Protocol Config Cert HostCerts Start Client Listener Cli Launch.

Local Open Scope string_scope.
Local Open Scope list_scope.
Local Open Scope nat_scope.

(** ** Connections and their handles *)

Inductive close_reason :=
| LocallyClosed (code : nat) (reason : string)
| ConnectionLost (e : string).

(** [quinn::Connection] and the [Endpoint] it belongs to. *)
Record quic_state := {
  qs_closed : option close_reason;
  qs_endpoint_closed : bool
}.

Definition quic_open : quic_state := {| qs_closed := None; qs_endpoint_closed := false |}.

(** [connection.close(code, reason)], or the loss of the connection: the first one
    counts. *)
Definition conn_end (r : close_reason) (q : quic_state) : quic_state :=
  {| qs_closed := Some (default r (qs_closed q)); qs_endpoint_closed := qs_endpoint_closed q |}.

(** [endpoint.close(code, reason)] closes the endpoint and its connections. *)
Definition endpoint_close (r : close_reason) (q : quic_state) : quic_state :=
  {| qs_closed := Some (default r (qs_closed q)); qs_endpoint_closed := true |}.

(** [TunnelClient::wait_closed]; [None] while it waits. *)
Definition wait_closed (q : quic_state) : option close_reason := qs_closed q.

(** A [TunnelListener] and a [TlsTunnelListener] share the connection of the client
    that made them. *)
Record TunnelListener (Q : Type) := { tl_conn : Q }.
Arguments tl_conn {Q}.
Record TlsTunnelListener (Q A : Type) := { tt_inner : TunnelListener Q; tt_acceptor : A }.
Arguments tt_inner {Q A}.
Arguments tt_acceptor {Q A}.

Definition listener {Q} (client : TunnelClient Q) : TunnelListener Q := {| tl_conn := connection client |}.
Definition tls_listener {Q A} (client : TunnelClient Q) (acceptor : A) : TlsTunnelListener Q A :=
  {| tt_inner := listener client; tt_acceptor := acceptor |}.

Definition local_addr {Q} (l : TunnelListener Q) : result io_error SocketAddr := Ok "0.0.0.0:0".
Definition tls_local_addr {Q A} (l : TlsTunnelListener Q A) : result io_error SocketAddr := local_addr (tt_inner l).

(** [closed()], over the states of the connections; [None] while it waits. *)
Definition listener_closed {Q} (state : Q → quic_state) (l : TunnelListener Q) : option () :=
  (λ _, ()) <$> qs_closed (state (tl_conn l)).
Definition tls_closed {Q A} (state : Q → quic_state) (l : TlsTunnelListener Q A) : option () :=
  listener_closed state (tt_inner l).

(** [TunnelClient::shutdown], up to its [wait_idle]. *)
Definition client_shutdown (q : quic_state) : quic_state :=
  endpoint_close (LocallyClosed 0 "client shutdown") (conn_end (LocallyClosed 0 "client shutdown") q).

(** ** [run_client], once it is connected *)

(** The signals [wait_for_shutdown_signal] waits for. *)
Inductive signal := SIGINT | SIGTERM.

Definition SHUTDOWN_GRACE : N := from_secs 2.

Inductive run_phase :=
| Selecting                        (* select! { signal, client.serve() } *)
| ShuttingDown                     (* timeout(SHUTDOWN_GRACE, client.shutdown()) *)
| Returned.                        (* Ok(()), the runtime drops its tasks *)

Section process.
Context {R : Type} `{ReadExact R} `{Cbor DataStreamHeader}.

(** The streams that arrived, those a forward task was spawned for, the signal that
    was received. *)
Record process := {
  pr_quic : quic_state;
  pr_arrived : list (arrival R);
  pr_spawned : list (TunnelStream R);
  pr_signal : option signal;
  pr_phase : run_phase
}.

Definition process_start : process :=
  {| pr_quic := quic_open; pr_arrived := []; pr_spawned := []; pr_signal := None; pr_phase := Selecting |}.

Inductive process_ev :=
| Arrives (r : R) (timeout : bool)   (* a stream, and whether its header is late *)
| Lost (e : string)                  (* the connection ends *)
| ServeSees                          (* accept_bi of serve fails *)
| Signals (s : signal)
| Drained                            (* endpoint.wait_idle() *)
| GraceOver.

(** What [serve] does with the next stream. *)
Definition serve_one (a : arrival R) (p : process) : process :=
  {| pr_quic := pr_quic p; pr_arrived := pr_arrived p ++ [a];
     pr_spawned := pr_spawned p ++ match accept_bi a with Ok s => [s] | Err _ => [] end;
     pr_signal := pr_signal p; pr_phase := pr_phase p |}.

Definition with_quic (q : quic_state) (p : process) : process :=
  {| pr_quic := q; pr_arrived := pr_arrived p; pr_spawned := pr_spawned p; pr_signal := pr_signal p;
     pr_phase := pr_phase p |}.
Definition with_phase (ph : run_phase) (p : process) : process :=
  {| pr_quic := pr_quic p; pr_arrived := pr_arrived p; pr_spawned := pr_spawned p; pr_signal := pr_signal p;
     pr_phase := ph |}.

(** One step; [None] when the event cannot happen. *)
Definition process_step (p : process) (ev : process_ev) : option process :=
  match pr_phase p, ev with
  | Selecting, Arrives r timeout =>
      match qs_closed (pr_quic p) with
      | None => Some (serve_one {| accepted := Ok r; header_timeout := timeout |} p)
      | Some _ => None
      end
  | Selecting, ServeSees =>
      match qs_closed (pr_quic p) with
      | Some _ => Some (with_phase Returned p)
      | None => None
      end
  | Selecting, Signals s =>
      Some {| pr_quic := client_shutdown (pr_quic p); pr_arrived := pr_arrived p; pr_spawned := pr_spawned p;
              pr_signal := Some s; pr_phase := ShuttingDown |}
  | ShuttingDown, Drained | ShuttingDown, GraceOver => Some (with_phase Returned p)
  | Returned, _ => None
  | _, Lost e => Some (with_quic (conn_end (ConnectionLost e) (pr_quic p)) p)
  | _, _ => None
  end.

Definition process_run (evs : list process_ev) (p : process) : option process :=
  foldl (λ p ev, p ← p; process_step p ev) (Some p) evs.

(** ** What holds of a process *)

Record process_ok (p : process) : Prop := {
  po_served : serve (pr_arrived p) = (pr_spawned p, false);
  po_phase :
    match pr_phase p with
    | Selecting => pr_signal p = None ∧ qs_endpoint_closed (pr_quic p) = false ∧
        ∀ code reason, qs_closed (pr_quic p) ≠ Some (LocallyClosed code reason)
    | ShuttingDown => is_Some (pr_signal p) ∧ is_Some (qs_closed (pr_quic p)) ∧ qs_endpoint_closed (pr_quic p) = true
    | Returned => is_Some (qs_closed (pr_quic p)) ∧
        match pr_signal p with
        | Some _ => qs_endpoint_closed (pr_quic p) = true
        | None => ∃ e, qs_closed (pr_quic p) = Some (ConnectionLost e)
        end
    end
}.

Lemma serve_snoc l s a r :
  serve l = (s, false) → accepted a = Ok r →
  serve (l ++ [a]) = (s ++ match accept_bi a with Ok st => [st] | Err _ => [] end, false).
Proof.
  revert s. induction l as [|a0 l IH]; intros s; cbn.
  - intros [= <-] Ha. destruct (accept_bi a) as [st|e] eqn:E; [done|].
    destruct e; try done. destruct (proj1 (accept_bi_gone a)) as [e' ?]; [by eauto|congruence].
  - destruct (accept_bi a0) as [st|e].
    + destruct (serve l) as [sp ret] eqn:El. intros [= <- ->] Ha. rewrite (IH sp eq_refl Ha). done.
    + destruct e; try done; apply IH.
Qed.

Lemma process_step_ok p ev p' : process_step p ev = Some p' → process_ok p → process_ok p'.
Proof.
  destruct p as [[cl ep] arr sp sg ph]. unfold process_step. cbn. intros Hs [Hserved Hphase]. cbn in *.
  destruct ph, ev; try done; repeat (case_match; try done); simplify_eq; split; cbn -[accept_bi];
    try done; [by eapply serve_snoc|..];
    try destruct cl as [[]|]; try destruct c; destruct sg; naive_solver.
Qed.

Lemma process_run_cons ev evs p :
  process_run (ev :: evs) p = p' ← process_step p ev; process_run evs p'.
Proof.
  unfold process_run. cbn. destruct (process_step p ev); cbn; [done|]. by induction evs.
Qed.

Lemma process_run_ok evs p p' : process_run evs p = Some p' → process_ok p → process_ok p'.
Proof.
  revert p. induction evs as [|ev evs IH]; intros p; [by intros [= <-]|].
  rewrite process_run_cons. destruct (process_step p ev) as [p1|] eqn:E; [|done]. cbn.
  intros Hr Hok. eapply IH; [done|]. by eapply process_step_ok.
Qed.

Lemma process_start_ok : process_ok process_start.
Proof. by split. Qed.

(** C34: how a [tuyau client] process lives and ends.  In any order of streams,
    losses and signals: the streams it forwards are those [serve] spawns a task for,
    in order; while it serves it has closed nothing itself; it returns only after a
    signal, with its connection and endpoint closed, or because the tunnel was lost,
    never leaving an open connection behind; a signal ends it within one more event
    (the drained endpoint, or the grace period of [SHUTDOWN_GRACE]), and so does the
    loss of the tunnel; nothing happens after it returned. *)
Theorem client_process evs p :
  process_run evs process_start = Some p →
  serve (pr_arrived p) = (pr_spawned p, false) ∧
  (pr_phase p = Selecting → pr_signal p = None ∧ qs_endpoint_closed (pr_quic p) = false) ∧
  (pr_phase p = Returned →
     (∃ reason, wait_closed (pr_quic p) = Some reason ∧
        (pr_signal p = None → ∃ e, reason = ConnectionLost e)) ∧
     (is_Some (pr_signal p) → qs_endpoint_closed (pr_quic p) = true) ∧
     ∀ ev, process_step p ev = None) ∧
  (∀ s, pr_phase p ≠ Returned → pr_signal p = Some s →
     (pr_phase <$> process_step p GraceOver) = Some Returned) ∧
  (∀ e, pr_phase p = Selecting →
     (pr_phase <$> process_run [Lost e; ServeSees] p) = Some Returned).
Proof.
  intros Hr. pose proof (process_run_ok _ _ _ Hr process_start_ok) as [Hserved Hphase].
  destruct p as [[cl ep] arr sp sg ph]. cbn in *. split_and!; [done|..].
  - intros ->. naive_solver.
  - intros ->. unfold wait_closed. cbn. split_and!; [|destruct sg; naive_solver|done].
    destruct Hphase as [[reason ->] Hsg]. exists reason. split; [done|]. intros ->. naive_solver.
  - intros s Hne ->. destruct ph; [naive_solver|done|done].
  - intros e ->. done.
Qed.
End process.

(** ** The program *)

(** What ended a process that returned, as [run_client] reports it. *)
Definition process_end {R} (p : process (R := R)) : option client_end :=
  match pr_phase p, pr_signal p with
  | Returned, Some _ => Some Signalled
  | Returned, None => Some (ServeEnded (Ok ()))
  | _, _ => None
  end.

(** [EnvVars::from_process], given the variables that are Unicode. *)
Definition from_process (var : string → option string) : EnvVars := {|
  env_server := var "TUYAU_SERVER";
  env_fingerprint := var "TUYAU_FINGERPRINT";
  env_token := var "TUYAU_TOKEN";
  env_token_file := var "TUYAU_TOKEN_FILE";
  env_name := var "TUYAU_NAME"
|}.

Definition build_client_config (hex_decode : string → result string (list byte))
    (read_to_string : PathBuf → result string string) (toml_parse : string → result string ClientConfig)
    (var : string → option string) (hostname : option string) (args : ClientArgs) : result cli_error ClientConfig :=
  build_client_config_inner hex_decode read_to_string toml_parse args (from_process var)
    (default_client_name hostname).

(** [Cmd], as clap parses it. *)
Inductive Cmd :=
| CmdServer (config : PathBuf)
| CmdClient (args : ClientArgs).

Section main.
Context {FS KeyPair Certificate : Type} `{FileSystem FS} `{CertLib KeyPair Certificate}.
Context (read_text : FS → PathBuf → result string string) (server_toml : string → result string ServerConfig).
Context (show_error : ServerError → string) (sha256 : list byte → list byte).
Context (pl : platform FS) (drawn drawn_public : result string KeyPair).
Context (hex_decode : string → result string (list byte)) (client_toml : string → result string ClientConfig).
Context (var : string → option string) (hostname : option string).
Context {Q : Type} (provider : CryptoProvider) (env : connect_env Q) (show : ClientError → string).

(** [main], after the arguments are parsed: the server runs, or the client ran
    ([ended] is what ends it), with whether it shut down. *)
Definition main (cmd : Cmd) (ended : client_end) (st : boot_state FS) :
    boot_state FS * result cli_error (TunnelServer + bool) :=
  match cmd with
  | CmdServer config =>
      let '(st, r) := run_server read_text server_toml show_error sha256 pl drawn drawn_public config st in
      (st, inl <$> r)
  | CmdClient args =>
      let built := build_client_config hex_decode (read_text (bs_fs st)) client_toml var hostname args in
      (st, inr <$> run_client built (λ cfg, (connect sha256 provider env cfg).1) show ended)
  end.
End main.

(** ** Witnesses *)

(** A stream arrives; then a signal, and the endpoint does not drain in time. *)
Definition demo_process_events : list process_ev :=
  [Arrives demo_stream false; Arrives demo_stream true; Signals SIGTERM; Lost "timed out"; GraceOver].

Definition demo_process : process := default process_start (process_run demo_process_events process_start).

Lemma client_process_witness :
  serve (pr_arrived demo_process) = (pr_spawned demo_process, false) ∧
  length (pr_spawned demo_process) = 1 ∧ process_end demo_process = Some Signalled ∧
  wait_closed (pr_quic demo_process) = Some (LocallyClosed 0 "client shutdown").
Proof.
  split_and!; [|vm_compute; reflexivity..].
  apply (client_process demo_process_events). vm_compute. reflexivity.
Defined.

(** The listeners of an application see the same end. *)
Example listeners_see_end :
  let client := {| connection := 0; client_ingress := ∅ |} in
  (∀ q, listener_closed (λ _, q) (listener client) = tls_closed (λ _, q) (tls_listener client ())) ∧
  listener_closed (λ _, pr_quic demo_process) (listener client) = Some () ∧
  listener_closed (λ _, quic_open) (listener client) = None.
Proof. split_and!; reflexivity. Qed.
