(* ===== verification/Embedding.v ===== *)
(** * Applications that embed the client

    [crates/tuyau-client/examples/axum.rs] and [passthrough.rs]: an application that
    is itself the end of the tunnel, over the plain listener or the TLS listener.
    Both read their configuration from the environment, connect, and hand the
    listener to [axum::serve], which calls its [accept] in a loop and serves each
    connection in a task of its own until the tunnel has closed.

    Parameters: the environment and the host name, [hex::decode], the files and the
    PEM reader, rustls' checks of a configuration and its handshakes, and what
    arrives on a connection. *)

From stdpp Require Import pretty.
From S2P Require Import Prelude Bytes Stream Protocol Config Routes Public Cert HostCerts Start Client.
From S2P Require Import Listener Cli Launch Lifecycle.

Local Open Scope string_scope.
Local Open Scope list_scope.
Local Open Scope nat_scope.

(** ** Configuration *)

Section config.
Context (hex_decode : string → result string (list byte)).
(** [env::var], [hostname::get] when it is Unicode. *)
Context (var : string → result string string) (hostname : option string).

Definition env_var (name : string) : result cli_error string := map_err (λ e, [e]) (var name).

Definition axum_hex_32 (s : string) : result cli_error (list byte) :=
  bytes ← context "invalid hex" (map_err (λ e, [e]) (hex_decode s));
  if decide (length bytes = 32) then Ok bytes
  else Err ["expected 32 bytes (64 hex chars), got " +:+ pretty (length bytes)].

Definition passthrough_hex_32 (s : string) : result cli_error (list byte) :=
  bytes ← context "invalid hex" (map_err (λ e, [e]) (hex_decode (str_trim s)));
  if decide (length bytes = 32) then Ok bytes
  else Err ["expected 32 bytes (64 hex chars), got " +:+ pretty (length bytes)].

(** The [ClientConfig] that both build, its fields evaluated in order, with the
    [hex_32] and the fallback name of each. *)
Definition env_config (hex_32 : string → result cli_error (list byte)) (fallback : string) :
    result cli_error ClientConfig :=
  server ← context "TUYAU_SERVER" (env_var "TUYAU_SERVER");
  fingerprint ← env_var "TUYAU_FINGERPRINT";
  fingerprint ← hex_32 fingerprint;
  token ← env_var "TUYAU_TOKEN";
  token ← hex_32 token;
  Ok {| server_addr := server; server_cert_fingerprint_sha256 := fingerprint; cc_token := token;
        cc_client_name := default fallback hostname; ingress := [] |}.

Definition axum_config : result cli_error ClientConfig := env_config axum_hex_32 "embedded-axum".
Definition passthrough_config : result cli_error ClientConfig := env_config passthrough_hex_32 "embedded-passthrough".

(** The configuration the environment gives; [norm] is what is done to the
    hexadecimal text. *)
Record env_spec (norm : string → string) (name : string) (cfg : ClientConfig) : Prop := {
  es_server : var "TUYAU_SERVER" = Ok (server_addr cfg);
  es_fingerprint : ∃ s, var "TUYAU_FINGERPRINT" = Ok s ∧
    hex_32 hex_decode (norm s) (server_cert_fingerprint_sha256 cfg);
  es_token : ∃ s, var "TUYAU_TOKEN" = Ok s ∧ hex_32 hex_decode (norm s) (cc_token cfg);
  es_name : cc_client_name cfg = default name hostname;
  es_ingress : ingress cfg = []
}.

Lemma env_var_Ok name v : env_var name = Ok v ↔ var name = Ok v.
Proof. unfold env_var. destruct (var name); simpl; split; intros; simplify_eq; done. Qed.

Lemma axum_hex_32_Ok s bytes : axum_hex_32 s = Ok bytes ↔ hex_32 hex_decode s bytes.
Proof.
  unfold axum_hex_32, hex_32. destruct (hex_decode s) as [bs|e]; simpl; [|naive_solver].
  case_decide; split; intros; destruct_and?; simplify_eq; done.
Qed.

Lemma passthrough_hex_32_Ok s bytes : passthrough_hex_32 s = Ok bytes ↔ hex_32 hex_decode (str_trim s) bytes.
Proof. apply (axum_hex_32_Ok (str_trim s)). Qed.

Lemma env_config_Ok hex norm fallback cfg :
  (∀ s bytes, hex s = Ok bytes ↔ hex_32 hex_decode (norm s) bytes) →
  env_config hex fallback = Ok cfg ↔ env_spec norm fallback cfg.
Proof.
  intros Hhex. unfold env_config. rewrite result_bind_Ok. setoid_rewrite context_Ok. split.
  - intros (server & Hs%env_var_Ok & Hr). apply result_bind_Ok in Hr as (f & Hf%env_var_Ok & Hr).
    apply result_bind_Ok in Hr as (fb & Hfb%Hhex & Hr). apply result_bind_Ok in Hr as (t & Ht%env_var_Ok & Hr).
    apply result_bind_Ok in Hr as (tb & Htb%Hhex & Hr). injection Hr as <-. split; simpl; eauto.
  - intros [Hs (f & Hf & Hfb) (t & Ht & Htb) Hn Hi]. destruct cfg as [server fp tok name ing]; simpl in *. subst.
    apply env_var_Ok in Hs, Hf, Ht. apply Hhex in Hfb, Htb. exists server. split; [done|].
    rewrite Hf; simpl. rewrite Hfb; simpl. rewrite Ht; simpl. by rewrite Htb.
Qed.

(** The examples start exactly with a server and two 32-byte secrets in their
    environment. *)
Lemma axum_config_Ok cfg : axum_config = Ok cfg ↔ env_spec (λ s, s) "embedded-axum" cfg.
Proof. apply env_config_Ok, axum_hex_32_Ok. Qed.

Lemma passthrough_config_Ok cfg : passthrough_config = Ok cfg ↔ env_spec str_trim "embedded-passthrough" cfg.
Proof. apply env_config_Ok, passthrough_hex_32_Ok. Qed.
End config.

(** ** [build_acceptor] *)

(** [rustls::ServerConfig], as built here. *)
Record AcceptorConfig (C K : Type) := {
  ac_client_auth : bool;
  ac_certs : list C;
  ac_key : K;
  ac_alpn : list (list byte)
}.
Arguments ac_client_auth {C K}. Arguments ac_certs {C K}. Arguments ac_key {C K}. Arguments ac_alpn {C K}.

Section acceptor.
Context {F C K : Type} (var : string → result string string).
Context (open_file : string → result string F).
Context (pem_certs : F → result string (list C)) (pem_private_key : F → result string (option K)).
Context (protocol_versions : result string ()) (single_cert : list C → K → result string ()).

Definition var_or (name fallback : string) : string :=
  match var name with Ok v => v | Err _ => fallback end.

Definition build_acceptor : result cli_error (AcceptorConfig C K) :=
  let cert_path := var_or "TUYAU_CERT" "/tmp/fullchain1.pem" in
  let key_path := var_or "TUYAU_KEY" "/tmp/privkey1.pem" in
  file ← context cert_path (map_err (λ e, [e]) (open_file cert_path));
  certs ← map_err (λ e, [e]) (pem_certs file);
  file ← context key_path (map_err (λ e, [e]) (open_file key_path));
  key ← map_err (λ e, [e]) (pem_private_key file);
  key ← ok_or ["no private key in TUYAU_KEY"] key;
  _ ← map_err (λ e, [e]) protocol_versions;
  _ ← map_err (λ e, [e]) (single_cert certs key);
  Ok {| ac_client_auth := false; ac_certs := certs; ac_key := key; ac_alpn := [as_bytes "http/1.1"] |}.

(** The acceptor shows the certificates and the key of the two files, which rustls
    accepted together, asks no certificate of the client and offers HTTP/1.1 only. *)
Lemma build_acceptor_Ok ac :
  build_acceptor = Ok ac →
  ∃ fc fk, open_file (var_or "TUYAU_CERT" "/tmp/fullchain1.pem") = Ok fc ∧ pem_certs fc = Ok (ac_certs ac) ∧
    open_file (var_or "TUYAU_KEY" "/tmp/privkey1.pem") = Ok fk ∧ pem_private_key fk = Ok (Some (ac_key ac)) ∧
    single_cert (ac_certs ac) (ac_key ac) = Ok () ∧ ac_client_auth ac = false ∧ ac_alpn ac = [ALPN_H1].
Proof.
  unfold build_acceptor. intros (fc & Hfc & Hr)%result_bind_Ok. apply context_Ok, map_err_Ok in Hfc.
  apply result_bind_Ok in Hr as (certs & Hc%map_err_Ok & Hr). apply result_bind_Ok in Hr as (fk & Hfk & Hr).
  apply context_Ok, map_err_Ok in Hfk. apply result_bind_Ok in Hr as (k & Hk%map_err_Ok & Hr).
  apply result_bind_Ok in Hr as (key & Hkey%ok_or_Ok & Hr). apply result_bind_Ok in Hr as ([] & _ & Hr).
  apply result_bind_Ok in Hr as ([] & Hs%map_err_Ok & Hr). injection Hr as <-. subst k. exists fc, fk. by split_and!.
Qed.
End acceptor.

(** ** The routers *)

(** The handlers of [axum.rs]: the page is read at each request. *)
Definition DEFAULT_PAGE : string := "crates/tuyau-client/examples/page.html".

Definition page (read : result string string) : string :=
  match read with
  | Ok html => html
  | Err e => "<h1>page load error</h1><pre>" +:+ e +:+ "</pre>"
  end.

Definition axum_routes (var : string → result string string) (read_to_string : string → result string string) :
    list (string * string) :=
  [("/", page (read_to_string (var_or var "TUYAU_PAGE" DEFAULT_PAGE))); ("/health", "ok")].

Definition passthrough_routes : list (string * string) :=
  [("/", "Hello from tuyau PASSTHROUGH + Rust SDK " +:+ utf8 [xf0; x9f; xa6; x80; x0a]); ("/health", "ok")].

(** ** [main] *)

Section main.
Context {Q R S F C K : Type} `{ReadExactLaws R} `{CborLaws DataStreamHeader}.
Context (parse_addr : string → option SocketAddr).
Context (hex_decode : string → result string (list byte)).
Context (var : string → result string string) (hostname : option string).
Context (sha256 : list byte → list byte) (provider : CryptoProvider) (show : ClientError → string).
Context (open_file : string → result string F).
Context (pem_certs : F → result string (list C)) (pem_private_key : F → result string (option K)).
Context (protocol_versions : result string ()) (single_cert : list C → K → result string ()).
(** A TLS handshake with the acceptor, and what arrives on a connection until the
    tunnel has closed. *)
Context (handshake : AcceptorConfig C K → TunnelStream R → tls_outcome S).
Context (arrivals : Q → list (arrival R)).

(** What [axum::serve] is given by the plain listener: [accept] in a loop. *)
Fixpoint axum_serve (fuel : nat) (l : list (arrival R)) : list (TunnelStream R * SocketAddr) :=
  match fuel with
  | O => []
  | Datatypes.S fuel =>
      match axum_accept parse_addr l with
      | None => []
      | Some (got, rest) => got :: axum_serve fuel rest
      end
  end.

(** [main] of [axum.rs]: the connections the application served. *)
Definition axum_main (env : connect_env Q) : result cli_error (list (TunnelStream R * SocketAddr)) :=
  cfg ← axum_config hex_decode var hostname;
  tunnel ← map_err (λ e, [show e]) (connect sha256 provider env cfg).1;
  let l := listener tunnel in
  Ok (axum_serve (length (arrivals (tl_conn l))) (arrivals (tl_conn l))).

(** [main] of [passthrough.rs]. *)
Definition passthrough_main (env : connect_env Q) : result cli_error (list (S * SocketAddr)) :=
  acceptor ← build_acceptor var open_file pem_certs pem_private_key protocol_versions single_cert;
  cfg ← passthrough_config hex_decode var hostname;
  tunnel ← map_err (λ e, [show e]) (connect sha256 provider env cfg).1;
  let l := tls_listener tunnel acceptor in
  let streams := arrivals (tl_conn (tt_inner l)) in
  Ok (tls_serve parse_addr (handshake (tt_acceptor l)) (length streams) streams).

(** ** The plain listener is the TLS listener with no handshake *)

Lemma axum_accept_as_tls l : axum_accept parse_addr l = tls_axum_accept parse_addr TlsAccepted l.
Proof.
  induction l as [|a l IH]; [done|]. simpl. unfold tls_accept.
  destruct (listener_accept parse_addr a) as [[conn addr]|[]]; done.
Qed.

Lemma axum_serve_as_tls fuel l : axum_serve fuel l = tls_serve parse_addr TlsAccepted fuel l.
Proof.
  revert l. induction fuel as [|fuel IH]; intros l; [done|]. simpl. rewrite axum_accept_as_tls.
  destruct (tls_axum_accept _ _ _) as [[got rest]|]; [|done]. by rewrite IH.
Qed.

(** ** What the application serves *)

(** A visitor that the server routes to the tunnel. *)
Record routed_visitor := {
  rv_route : RouteEntry;
  rv_sni : string;
  rv_peer : SocketAddr;
  rv_bytes : list byte
}.

(** The stream the server opens for it arrives. *)
Definition arrives (a : arrival R) (v : routed_visitor) : Prop :=
  ∃ r hdr, accepted a = Ok r ∧ header_timeout a = false ∧
    encode (tunnel_header (rv_route v) (rv_sni v) (rv_peer v)) [] = (hdr, Ok ()) ∧
    incoming r = hdr ++ rv_bytes v ∧ parse_addr (rv_peer v) = Some (rv_peer v).

(** The application is handed the visitor's bytes, its address and its route. *)
Definition handed (got : TunnelStream R * SocketAddr) (v : routed_visitor) : Prop :=
  got.2 = rv_peer v ∧ header got.1 = tunnel_header (rv_route v) (rv_sni v) (rv_peer v) ∧
  incoming (recv got.1) = rv_bytes v.

Lemma arrives_handed a v :
  arrives a v → ∃ got, listener_accept parse_addr a = Ok got ∧ handed got v.
Proof.
  intros (r & hdr & Ha & Ht & He & Hin & Hp). destruct (accept_bi_frame a r _ hdr _ Ha Ht He Hin) as (r' & Hacc & Hr').
  eexists. unfold listener_accept. rewrite Hacc. simpl. rewrite Hp. split; [done|]. by split.
Qed.

Lemma arrivals_handed live vs :
  Forall2 arrives live vs →
  Forall (passable parse_addr TlsAccepted) live ∧ Forall2 handed (omap (tls_good parse_addr TlsAccepted) live) vs.
Proof.
  induction 1 as [|a v live vs Hav _ [IH1 IH2]]; [by split|].
  destruct (arrives_handed a v Hav) as ([conn addr] & Hl & Hh).
  assert (tls_accept parse_addr TlsAccepted a = Some (Ok (conn, addr))) as Ht by (unfold tls_accept; by rewrite Hl).
  csimpl. assert (tls_good parse_addr TlsAccepted a = Some (conn, addr)) as -> by (unfold tls_good; by rewrite Ht).
  split; [|by constructor]. constructor; [|done]. destruct Hav as (r & _ & Ha & _). split; [by exists r|]. by rewrite Ht.
Qed.

(** An embedded application serves its visitors.  With its server and secrets
    in the environment and the tunnel accepted, the application of [axum.rs] is handed,
    in order, every visitor whose stream arrives while the tunnel is up, each with its
    bytes, its address and its host, and nobody else. *)
Theorem embedded_app_serves env cfg tunnel live rest vs :
  env_spec hex_decode var hostname (λ s, s) "embedded-axum" cfg →
  (connect sha256 provider env cfg).1 = Ok tunnel →
  arrivals (connection tunnel) = live ++ rest → Forall2 arrives live vs →
  match rest with [] => True | a :: _ => ∃ e, accepted a = Err e end →
  ∃ served, axum_main env = Ok served ∧ Forall2 handed served vs.
Proof.
  intros Hcfg%axum_config_Ok Hc Harr [Hp Hh]%arrivals_handed Hend. unfold axum_main. rewrite Hcfg. simpl. rewrite Hc. simpl.
  eexists. split; [done|]. rewrite Harr, axum_serve_as_tls, tls_listener_serves; [done|done| |].
  - destruct rest; [done|]. by left.
  - rewrite length_app. lia.
Qed.

(** So does the one of [passthrough.rs], with those whose handshake with its own
    certificate succeeds, up to the first handshake that stalls. *)
Theorem embedded_tls_serves env cfg tunnel ac live rest :
  env_spec hex_decode var hostname str_trim "embedded-passthrough" cfg →
  build_acceptor var open_file pem_certs pem_private_key protocol_versions single_cert = Ok ac →
  (connect sha256 provider env cfg).1 = Ok tunnel →
  arrivals (connection tunnel) = live ++ rest →
  Forall (passable parse_addr (handshake ac)) live → blocked parse_addr (handshake ac) rest →
  passthrough_main env = Ok (omap (tls_good parse_addr (handshake ac)) live).
Proof.
  intros Hcfg%passthrough_config_Ok Hac Hc Harr Hp Hb. unfold passthrough_main. rewrite Hac. simpl. rewrite Hcfg. simpl.
  rewrite Hc. simpl. rewrite Harr, tls_listener_serves; [done|done|done|]. rewrite length_app. lia.
Qed.
End main.

(** ** Witnesses *)

Fixpoint demo_repeat (n : nat) (s : string) : string :=
  match n with O => "" | Datatypes.S n => s +:+ demo_repeat n s end.

Definition demo_var (name : string) : result string string :=
  if decide (name = "TUYAU_SERVER") then Ok "tunnel.example.com:4433"
  else if decide (name = "TUYAU_FINGERPRINT") then Ok (demo_repeat 32 "aa")
  else if decide (name = "TUYAU_TOKEN") then Ok (demo_repeat 32 "07")
  else Err "environment variable not found".

Definition demo_embedded : ClientConfig :=
  {| server_addr := "tunnel.example.com:4433"; server_cert_fingerprint_sha256 := replicate 32 xaa;
     cc_token := replicate 32 x07; cc_client_name := "embedded-axum"; ingress := [] |}.

Definition demo_routed_visitor : routed_visitor :=
  {| rv_route := demo_route_entry; rv_sni := "a.example.com"; rv_peer := "203.0.113.7:5";
     rv_bytes := as_bytes "GET /" |}.

Lemma demo_env_spec : env_spec demo_hex demo_var None (λ s, s) "embedded-axum" demo_embedded.
Proof.
  split; try reflexivity.
  - exists (demo_repeat 32 "aa"). split; [reflexivity|split; vm_compute; reflexivity].
  - exists (demo_repeat 32 "07"). split; [reflexivity|split; vm_compute; reflexivity].
Qed.

Lemma demo_arrives : arrives Some demo_arrival demo_routed_visitor.
Proof.
  exists demo_stream, (encode (tunnel_header demo_route_entry "a.example.com" "203.0.113.7:5") []).1.
  repeat split; vm_compute; reflexivity.
Qed.

Lemma embedded_app_serves_witness :
  ∃ served, axum_main Some demo_hex demo_var None demo_sha demo_provider (λ _, "")
      (λ _, [demo_arrival; {| accepted := Err "closed"; header_timeout := false |}])
      (demo_connect_env [xaa] (demo_signature [xaa] (as_bytes "hello"))) = Ok served ∧
    Forall2 handed served [demo_routed_visitor].
Proof.
  eapply (embedded_app_serves Some demo_hex demo_var None demo_sha demo_provider (λ _, "")
    (λ _, [demo_arrival; {| accepted := Err "closed"; header_timeout := false |}])
    (demo_connect_env [xaa] (demo_signature [xaa] (as_bytes "hello"))) demo_embedded
    {| connection := demo_true_server; client_ingress := ∅ |} [demo_arrival]).
  - exact demo_env_spec.
  - vm_compute. reflexivity.
  - reflexivity.
  - constructor; [exact demo_arrives|constructor].
  - exists "closed". reflexivity.
Defined.

(** A file is its certificates and its key. *)
Definition demo_pem (path : string) : result string (list string * option string) :=
  if decide (path = "/tmp/fullchain1.pem") then Ok (["leaf"; "issuer"], None)
  else if decide (path = "/tmp/privkey1.pem") then Ok ([], Some "key") else Err "No such file".

Lemma embedded_tls_serves_witness :
  passthrough_main (S := TunnelStream Wire) Some demo_hex demo_var (Some "box") demo_sha demo_provider (λ _, "")
    demo_pem (λ f, Ok f.1) (λ f, Ok f.2) (Ok ()) (λ _ _, Ok ()) (λ _, demo_acceptor)
    (λ _, demo_live ++ [demo_tls_arrival []; demo_tls_arrival [x16]])
    (demo_connect_env [xaa] (demo_signature [xaa] (as_bytes "hello")))
  = Ok (omap (tls_good Some demo_acceptor) demo_live).
Proof.
  eapply (embedded_tls_serves Some demo_hex demo_var (Some "box") demo_sha demo_provider (λ _, "")
    demo_pem (λ f, Ok f.1) (λ f, Ok f.2) (Ok ()) (λ _ _, Ok ()) (λ _, demo_acceptor)
    (λ _, demo_live ++ [demo_tls_arrival []; demo_tls_arrival [x16]])
    (demo_connect_env [xaa] (demo_signature [xaa] (as_bytes "hello")))
    {| server_addr := "tunnel.example.com:4433"; server_cert_fingerprint_sha256 := replicate 32 xaa;
       cc_token := replicate 32 x07; cc_client_name := "box"; ingress := [] |}
    {| connection := demo_true_server; client_ingress := ∅ |}
    {| ac_client_auth := false; ac_certs := ["leaf"; "issuer"]; ac_key := "key"; ac_alpn := [as_bytes "http/1.1"] |}
    demo_live [demo_tls_arrival []; demo_tls_arrival [x16]]).
  - split; try reflexivity.
    + exists (demo_repeat 32 "aa"). split; [reflexivity|split; vm_compute; reflexivity].
    + exists (demo_repeat 32 "07"). split; [reflexivity|split; vm_compute; reflexivity].
  - vm_compute. reflexivity.
  - vm_compute. reflexivity.
  - reflexivity.
  - exact demo_live_passable.
  - right. vm_compute. reflexivity.
Defined.
