(* ===== verification/ServerTests.v ===== *)
(** * The server's unit tests

    The [#[cfg(test)]] modules of [crates/tuyau-server/src]: each test is a boolean
    that runs the model on the test's input and compares with the test's
    expectation, under the test's name, and evaluates to [true].  They tie the
    definitions to what the authors expect of the code, the wrong inputs included.

    A configuration text is given by what [serde] builds of it: the keys that are
    written, the defaults for the others ([tls_mode] is [terminated], [balance]
    [last_write_wins], lists are empty), the tokens through
    [deserialize_token_hex].  The test that a panic does not poison the locks is not
    here: the locks are atomic steps of the model. *)

From S2P Require Import Prelude Bytes Sni Stream Protocol Config Routes Limits Backend LocalPool.
From S2P Require Import H2proxy Cert HostCerts Client Cli Launch.

Local Open Scope string_scope.
Local Open Scope list_scope.

(** [r.is_ok()], [assert_eq!]. *)
Definition is_ok {E A} (r : result E A) : bool := match r with Ok _ => true | Err _ => false end.
Local Notation "a == b" := (bool_decide (a = b)) (at level 70).

(** ** sni.rs *)

Definition no_panic {A} (r : partial A) : bool := match r with PSome _ | PNone => true | PPanic | PFuel => false end.
Definition is_none {A} (r : partial A) : bool := match r with PNone => true | _ => false end.

Definition alpha_hello : list byte := craft_client_hello_with_sni "alpha.example.com".

Definition extracts_simple_sni : bool :=
  match parse_sni alpha_hello with PSome name => name == "alpha.example.com" | _ => false end.

Definition returns_none_on_wrong_record_type : bool := is_none (parse_sni (<[0 := x17]> alpha_hello)).

Definition returns_none_on_truncated_buffer : bool :=
  is_none (parse_sni (take (length alpha_hello / 2) alpha_hello)).

Definition returns_none_on_empty_buffer : bool := is_none (parse_sni []).

Definition never_panics_on_truncations : bool :=
  forallb (λ len, no_panic (parse_sni (take len alpha_hello))) (seq 0 (S (length alpha_hello))).

Definition never_panics_on_single_byte_mutations : bool :=
  forallb (λ i, forallb (λ b, no_panic (parse_sni (<[i := b]> alpha_hello))) [x00; x01; x16; x7f; xff])
    (seq 0 (length alpha_hello)).

Definition rejects_overlong_sni : bool :=
  is_none (parse_sni (craft_client_hello_with_sni (String.string_of_list_byte (replicate 300 x61)))).

Definition returns_none_when_no_sni_extension_present : bool :=
  let body :=
    u16_to_be_bytes 0x0303 ++ replicate 32 x00 ++ [x00] ++ u16_to_be_bytes 0x0002 ++ [x00; x35] ++ [x01] ++
    [x00] ++ u16_to_be_bytes 0 in
  let body_len := blen body in
  let hs :=
    [x01] ++
    [to_u8 (Z.land (Z.shiftr body_len 16) 0xff); to_u8 (Z.land (Z.shiftr body_len 8) 0xff);
     to_u8 (Z.land body_len 0xff)] ++ body in
  is_none (parse_sni ([x16] ++ u16_to_be_bytes 0x0301 ++ u16_to_be_bytes (blen hs) ++ hs)).

Example sni_tests :
  forallb id [extracts_simple_sni; returns_none_on_wrong_record_type; returns_none_on_truncated_buffer;
              returns_none_on_empty_buffer; never_panics_on_truncations;
              never_panics_on_single_byte_mutations; rejects_overlong_sni;
              returns_none_when_no_sni_extension_present] = true.
Proof. vm_compute. reflexivity. Qed.

(** The random inputs: [lcg] with its state, [(0..len).map(|_| lcg(&mut state))]. *)
Definition lcg (state : Z) : Z * byte :=
  let state := ((state * 6364136223846793005 + 1442695040888963407) mod 2 ^ 64)%Z in
  (state, to_u8 (Z.shiftr state 33)).

Fixpoint lcg_bytes (len : nat) (state : Z) : Z * list byte :=
  match len with
  | O => (state, [])
  | S len =>
      let '(state, b) := lcg state in
      let '(state, bs) := lcg_bytes len state in
      (state, b :: bs)
  end.

(** One turn of the inner loop, and the loops. *)
Definition random_turn (len : nat) (acc : Z * bool) : Z * bool :=
  let '(state, ok) := acc in
  let '(state, buf) := lcg_bytes len state in
  let '(state, body) := lcg_bytes len state in
  let framed := [x16; x03; x01] ++ u16_to_be_bytes (Z.min (Z.of_nat len) 0xffff) ++ [x01] ++ body in
  (state, ok && no_panic (parse_sni buf) && no_panic (parse_sni framed)).

Definition random_lens : list nat := [0; 1; 2; 5; 9; 16; 64; 256; 1024; N.to_nat 16384].

Definition never_panics_on_random_and_semi_valid_buffers : bool :=
  (foldl (λ acc len, Nat.iter 100 (random_turn len) acc) (0x123456789abcdef0%Z, true) random_lens).2.

(** Three million random bytes are not run: no buffer of that size panics. *)
Lemma lcg_bytes_length len state : length (lcg_bytes len state).2 = len.
Proof.
  revert state. induction len as [|len IH]; intros state; cbn [lcg_bytes]; [done|].
  destruct (lcg state) as [s1 b]. specialize (IH s1). destruct (lcg_bytes len s1) as [s2 bs]. cbn. by f_equal.
Qed.

Lemma parse_sni_no_panic buf : (blen buf <= isize_max)%Z → no_panic (parse_sni buf) = true.
Proof. intros Hl. pose proof (parse_sni_ensures buf Hl) as He. by destruct (parse_sni buf). Qed.

Lemma random_turn_ok len state : (Z.of_nat len <= 20000)%Z → (random_turn len (state, true)).2 = true.
Proof.
  intros Hl. unfold random_turn. pose proof (lcg_bytes_length len state) as H1.
  destruct (lcg_bytes len state) as [s1 buf]. pose proof (lcg_bytes_length len s1) as H2.
  destruct (lcg_bytes len s1) as [s2 body]. cbn [fst snd] in *. unfold isize_max in *.
  rewrite !parse_sni_no_panic; [done|..]; unfold isize_max, blen; rewrite ?length_app; unfold u16_to_be_bytes;
    cbn [length]; lia.
Qed.

Lemma random_turns_ok n len state : (Z.of_nat len <= 20000)%Z → (Nat.iter n (random_turn len) (state, true)).2 = true.
Proof.
  intros Hl. induction n as [|n IH]; [done|]. rewrite Nat.iter_succ.
  destruct (Nat.iter n _ _) as [s ok]. cbn in IH. subst ok. by apply random_turn_ok.
Qed.

Example sni_random_test : never_panics_on_random_and_semi_valid_buffers = true.
Proof.
  unfold never_panics_on_random_and_semi_valid_buffers.
  assert (∀ lens state, Forall (λ len, Z.of_nat len <= 20000)%Z lens →
    (foldl (λ acc len, Nat.iter 100 (random_turn len) acc) (state, true) lens).2 = true) as Hok.
  { induction lens as [|len lens IH]; intros state Hl; [done|]. apply Forall_cons in Hl as [Hlen Hl].
    cbn [foldl]. pose proof (random_turns_ok 100 len state Hlen) as Ht.
    destruct (Nat.iter 100 _ _) as [s ok]. cbn in Ht. subst ok. by apply IH. }
  apply Hok. repeat constructor; lia.
Qed.

(** ** backend.rs *)

Definition TOK_A : list byte := replicate 32 xaa.
Definition TOK_B : list byte := replicate 32 xbb.
Definition TOK_C : list byte := replicate 32 xcc.

Definition client (name : string) (token : list byte) (balance : Balance) : ClientEntry :=
  {| ce_name := name; ce_token := token; ce_balance := balance |}.

Definition host (h client : string) (mode : TlsMode) : HostnameEntry :=
  {| he_host := h; he_client := client; he_tls_mode := mode; he_tls_cert_file := None;
     he_tls_key_file := None |}.

Definition cfg (clients : list ClientEntry) (hostnames : list HostnameEntry) : ServerConfig := {|
  listen_addr := "127.0.0.1:0"; public_listen_addr := None; tunnel_cert_dir := None; clients := clients;
  hostnames := hostnames; acme := None; tls_cert_file := None; tls_key_file := None;
  max_public_connections := None; error_502_file := None; client_ca_file := None; upstreams := []
|}.

Definition backend (clients : list ClientEntry) (hostnames : list HostnameEntry) : StaticBackend :=
  StaticBackend_new (cfg clients hostnames).

(** [b.admit(token).await.is_none()]; a check of the grant of [token]. *)
Definition refused (b : StaticBackend) (token : list byte) : bool := negb (is_some (StaticBackend_admit b token)).
Definition granted (b : StaticBackend) (token : list byte) (check : ClientGrant → bool) : bool :=
  default false (check <$> StaticBackend_admit b token).

Definition valid_token_is_admitted_with_its_name : bool :=
  let b := backend [client "a" TOK_A LastWriteWins] [] in
  granted b TOK_A (λ grant, cg_client_name grant == "a").

Definition unknown_token_is_rejected : bool :=
  let b := backend [client "a" TOK_A LastWriteWins] [] in refused b TOK_B.

Definition empty_client_list_rejects_everything : bool := refused (backend [] []) TOK_A.

Definition token_off_by_one_byte_is_rejected : bool :=
  let almost := alter (λ b, to_u8 (Z.lxor (u8 b) 0x01)) 31 TOK_A in
  let b := backend [client "a" TOK_A LastWriteWins] [] in
  refused b almost.

Definition default_balance_is_propagated : bool :=
  let b := backend [client "a" TOK_A LastWriteWins] [] in
  granted b TOK_A (λ grant, cg_balance grant == LastWriteWins).

Definition round_robin_balance_is_propagated : bool :=
  let b := backend [client "a" TOK_A RoundRobin] [] in
  granted b TOK_A (λ grant, cg_balance grant == RoundRobin).

Definition hostnames_are_filtered_to_the_owning_client : bool :=
  let b := backend
    [client "a" TOK_A LastWriteWins; client "b" TOK_B LastWriteWins]
    [host "a1.example" "a" Terminated; host "b1.example" "b" Terminated; host "a2.example" "a" Terminated] in
  granted b TOK_A (λ grant, (cg_hostnames grant).*1 == ["a1.example"; "a2.example"]).

Definition other_clients_hostnames_are_excluded : bool :=
  let b := backend
    [client "a" TOK_A LastWriteWins; client "b" TOK_B LastWriteWins] [host "b1.example" "b" Terminated] in
  granted b TOK_A (λ grant, is_nil (cg_hostnames grant)).

Definition tls_mode_is_preserved_per_hostname : bool :=
  let b := backend [client "a" TOK_A LastWriteWins]
    [host "term.example" "a" Terminated; host "pass.example" "a" Passthrough] in
  granted b TOK_A (λ grant, cg_hostnames grant == [("term.example", Terminated); ("pass.example", Passthrough)]).

Definition client_without_hostnames_is_still_admitted : bool :=
  let b := backend [client "a" TOK_A LastWriteWins] [] in
  granted b TOK_A (λ grant, (cg_client_name grant == "a") && is_nil (cg_hostnames grant)).

Definition multiple_clients_resolve_independently : bool :=
  let b := backend
    [client "a" TOK_A LastWriteWins; client "b" TOK_B RoundRobin]
    [host "a.example" "a" Terminated; host "b.example" "b" Passthrough] in
  granted b TOK_A (λ ga, (cg_client_name ga == "a") && (cg_balance ga == LastWriteWins) &&
    (cg_hostnames ga == [("a.example", Terminated)])) &&
  granted b TOK_B (λ gb, (cg_client_name gb == "b") && (cg_balance gb == RoundRobin) &&
    (cg_hostnames gb == [("b.example", Passthrough)])) &&
  refused b TOK_C.

Definition duplicate_token_last_entry_wins : bool :=
  let b := backend
    [client "first" TOK_A LastWriteWins; client "second" TOK_A RoundRobin]
    [host "first.example" "first" Terminated; host "second.example" "second" Terminated] in
  granted b TOK_A (λ grant, (cg_client_name grant == "second") && (cg_balance grant == RoundRobin) &&
    (cg_hostnames grant == [("second.example", Terminated)])).

Definition hostname_order_is_preserved : bool :=
  let b := backend [client "a" TOK_A LastWriteWins]
    [host "z.example" "a" Terminated; host "m.example" "a" Terminated; host "a.example" "a" Terminated] in
  granted b TOK_A (λ grant, (cg_hostnames grant).*1 == ["z.example"; "m.example"; "a.example"]).

(** The backend made of the configuration, not of what the variable holds later
    (which would admit nobody). *)
Definition backend_snapshots_config_at_construction : bool :=
  let c := cfg [client "a" TOK_A LastWriteWins] [] in
  let b := StaticBackend_new c in
  let c := cfg [] (hostnames c ++ [host "late.example" "a" Terminated]) in
  granted b TOK_A (λ grant, (cg_client_name grant == "a") && is_nil (cg_hostnames grant)) &&
  refused (StaticBackend_new c) TOK_A.

Example backend_tests :
  forallb id [backend_snapshots_config_at_construction; valid_token_is_admitted_with_its_name; unknown_token_is_rejected;
              empty_client_list_rejects_everything; token_off_by_one_byte_is_rejected;
              default_balance_is_propagated; round_robin_balance_is_propagated;
              hostnames_are_filtered_to_the_owning_client; other_clients_hostnames_are_excluded;
              tls_mode_is_preserved_per_hostname; client_without_hostnames_is_still_admitted;
              multiple_clients_resolve_independently; duplicate_token_last_entry_wins;
              hostname_order_is_preserved] = true.
Proof. vm_compute. reflexivity. Qed.

(** ** routes.rs *)

Definition upstream (host port : string) (tls_mode : TlsMode) : UpstreamEntry :=
  {| ue_host := host; ue_local_addr := Some ("127.0.0.1:" +:+ port); ue_local_socket := None;
     ue_tls_mode := tls_mode; ue_tls_cert_file := None; ue_tls_key_file := None |}.

(** [port(table.lookup(host))], with no tunnel connection; the port by its text. *)
Definition port (table : RoutingTable) (host : string) : option string :=
  match (lookup (λ _, false) host table).1 with
  | PSome (Local_ (Tcp addr)) => snd <$> rsplit_once ":"%char addr
  | _ => None
  end.

Definition an_exact_upstream_wins_over_a_wildcard_and_a_wildcard_over_the_catch_all : bool :=
  let table := from_config []
    [upstream "*" "1" Passthrough; upstream "*.Example.com" "2" Terminated;
     upstream "api.example.com" "3" Passthrough] in
  (port table "api.example.com" == Some "3") && (port table "WWW.example.COM" == Some "2") &&
  (port table "a.b.example.com" == Some "1") && (port table "example.com" == Some "1") &&
  (port table "other.org" == Some "1").

Definition a_host_takes_the_tls_mode_of_the_entry_that_routes_it : bool :=
  let table := from_config []
    [upstream "*" "1" Passthrough; upstream "*.example.com" "2" TlsOffload;
     upstream "api.example.com" "3" Passthrough] in
  is_terminated table "www.example.com" && is_offload table "www.example.com" &&
  negb (is_terminated table "api.example.com") && negb (is_terminated table "other.org") &&
  negb (is_offload table "other.org").

Definition a_tunnel_hostname_never_falls_back_to_a_wildcard_upstream : bool :=
  let tunnel := {| he_host := "app.example.com"; he_client := "a"; he_tls_mode := Passthrough;
                   he_tls_cert_file := None; he_tls_key_file := None |} in
  let table := from_config [tunnel] [upstream "*.example.com" "2" Terminated] in
  is_none (lookup (λ _, false) "app.example.com" table).1 && negb (is_terminated table "app.example.com") &&
  (port table "www.example.com" == Some "2").

Example routes_tests :
  forallb id [an_exact_upstream_wins_over_a_wildcard_and_a_wildcard_over_the_catch_all;
              a_host_takes_the_tls_mode_of_the_entry_that_routes_it;
              a_tunnel_hostname_never_falls_back_to_a_wildcard_upstream] = true.
Proof. vm_compute. reflexivity. Qed.

(** ** config.rs *)

(** What serde builds of a document: clients by name and hexadecimal token; the
    other sections by their entries. *)
Fixpoint parsed_clients (l : list (string * string)) : result string (list ClientEntry) :=
  match l with
  | [] => Ok []
  | (name, hex) :: l =>
      token ← deserialize_token_hex demo_hex hex;
      rest ← parsed_clients l;
      Ok (client name token LastWriteWins :: rest)
  end.

Definition parsed (listen : string) (cs : list (string * string)) (hs : list HostnameEntry)
    (us : list UpstreamEntry) (ac : option AcmeSection) : result string ServerConfig :=
  cs ← parsed_clients cs;
  Ok {| listen_addr := listen; public_listen_addr := None; tunnel_cert_dir := None; clients := cs;
        hostnames := hs; acme := ac; tls_cert_file := None; tls_key_file := None;
        max_public_connections := None; error_502_file := None; client_ca_file := None; upstreams := us |}.

(** A check of the configuration of a text that parses; the error of its
    [validate]. *)
Definition parses (r : result string ServerConfig) (check : ServerConfig → bool) : bool :=
  match r with Ok c => check c | Err _ => false end.
Definition invalid (r : result string ServerConfig) (check : ConfigError → bool) : bool :=
  parses r (λ c, match validate c with Ok _ => false | Err e => check e end).

Definition TOKEN_1 : string := "0000000000000000000000000000000000000000000000000000000000000001".
Definition TOKEN_2 : string := "0000000000000000000000000000000000000000000000000000000000000002".
Definition ANY : string := "0.0.0.0:4433".

(** An entry that names no [tls_mode] is terminated. *)
Definition hostname_toml (h client : string) (mode : option TlsMode) : HostnameEntry :=
  host h client (default Terminated mode).

Definition parses_full_config : bool :=
  parses (parsed ANY [("a", TOKEN_1); ("b", TOKEN_2)] [] [] None) (λ c,
    let c := with_cert_dir (Some "/var/lib/tuyau") c in
    is_ok (validate c) && (length (clients c) == 2) &&
    ((clients c !! 0) ≫= (λ e, ce_token e !! 31) == Some x01) &&
    ((clients c !! 1) ≫= (λ e, ce_token e !! 31) == Some x02) && is_nil (hostnames c)).

Definition parses_hostnames_section : bool :=
  parses (parsed ANY [("a", TOKEN_1)]
    [hostname_toml "alpha.example.com" "a" None; hostname_toml "beta.example.com" "a" (Some Passthrough)] [] None)
    (λ c, is_ok (validate c) && (length (hostnames c) == 2) &&
       (he_host <$> hostnames c !! 0 == Some "alpha.example.com") &&
       (he_tls_mode <$> hostnames c !! 0 == Some Terminated) &&
       (he_tls_mode <$> hostnames c !! 1 == Some Passthrough)).

Definition parses_tls_offload_mode : bool :=
  parses (parsed ANY [("a", TOKEN_1)] [hostname_toml "db.example.com" "a" (Some TlsOffload)] [] None)
    (λ c, is_ok (validate c) && (he_tls_mode <$> hostnames c !! 0 == Some TlsOffload)).

Definition a_front_with_upstreams_only_needs_no_clients_key : bool :=
  parses (parsed ANY [] [] [upstream "a.example.com" "1" Terminated] None)
    (λ c, is_nil (clients c) && is_ok (validate c)).

Definition rejects_no_clients_and_no_upstreams : bool :=
  invalid (parsed ANY [] [] [] None) (λ e, match e with NoClients => true | _ => false end).

Definition rejects_empty_clients : bool :=
  invalid (parsed ANY [] [] [] None) (λ e, match e with NoClients => true | _ => false end).

Definition tls_mode_defaults_to_terminated : bool :=
  parses (parsed ANY [("a", TOKEN_1)] [hostname_toml "alpha.example.com" "a" None] [] None)
    (λ c, he_tls_mode <$> hostnames c !! 0 == Some Terminated).

Definition rejects_duplicate_client_names : bool :=
  invalid (parsed ANY [("a", TOKEN_1); ("a", TOKEN_2)] [] [] None)
    (λ e, match e with DuplicateClient name => name == "a" | _ => false end).

Definition rejects_short_token : bool := negb (is_ok (parsed ANY [("a", "deadbeef")] [] [] None)).

Definition rejects_non_hex_token : bool :=
  negb (is_ok (parsed ANY [("a", "xx00000000000000000000000000000000000000000000000000000000000000")] [] [] None)).

Definition rejects_duplicate_host : bool :=
  invalid (parsed ANY [("a", TOKEN_1)]
    [hostname_toml "alpha.example.com" "a" None; hostname_toml "alpha.example.com" "a" None] [] None)
    (λ e, match e with DuplicateHost h => h == "alpha.example.com" | _ => false end).

Definition rejects_unknown_client_reference : bool :=
  invalid (parsed ANY [("a", TOKEN_1)] [hostname_toml "alpha.example.com" "ghost" None] [] None)
    (λ e, match e with
          | UnknownClient host client => (host == "alpha.example.com") && (client == "ghost")
          | _ => false
          end).

(** [production] defaults to false. *)
Definition acme_toml (contact cache_dir : string) : AcmeSection :=
  {| contact := contact; cache_dir := cache_dir; production := false |}.

Definition parses_acme_section : bool :=
  parses (parsed ANY [("a", TOKEN_1)] [] [] (Some (acme_toml "mailto:ops@example.com" "/var/lib/tuyau/acme")))
    (λ c, is_ok (validate c) &&
       match acme c with
       | Some a => (contact a == "mailto:ops@example.com") && negb (production a)
       | None => false
       end).

Definition rejects_acme_contact_without_mailto : bool :=
  invalid (parsed ANY [("a", TOKEN_1)] [] [] (Some (acme_toml "ops@example.com" "/var/lib/tuyau/acme")))
    (λ e, match e with AcmeContact c => c == "ops@example.com" | _ => false end).

(** The upstream of the test, with its mode and its certificate files. *)
Definition cert_upstream (mode : option TlsMode) (cert key : option string) : result string ServerConfig :=
  parsed ANY [] []
    [{| ue_host := "a.example.com"; ue_local_addr := Some "127.0.0.1:1"; ue_local_socket := None;
        ue_tls_mode := default Terminated mode; ue_tls_cert_file := cert; ue_tls_key_file := key |}] None.

Definition a_host_cert_needs_its_key_and_a_terminating_mode : bool :=
  parses (cert_upstream None (Some "a.crt") (Some "a.key")) (is_ok ∘ validate) &&
  parses (cert_upstream (Some TlsOffload) (Some "a.crt") (Some "a.key")) (is_ok ∘ validate) &&
  invalid (cert_upstream None (Some "a.crt") None)
    (λ e, match e with HostCertPair host => host == "a.example.com" | _ => false end) &&
  invalid (cert_upstream None None (Some "a.key")) (λ e, match e with HostCertPair _ => true | _ => false end) &&
  invalid (cert_upstream (Some Passthrough) (Some "a.crt") (Some "a.key"))
    (λ e, match e with HostCertPassthrough _ => true | _ => false end).

Definition an_upstream_host_is_a_name_a_one_label_wildcard_or_the_catch_all : bool :=
  let up host := parsed ANY [] [] [upstream host "1" Terminated] None in
  forallb (λ host, parses (up host) (is_ok ∘ validate)) ["a.example.com"; "*.example.com"; "*"] &&
  forallb (λ host, invalid (up host) (λ e, match e with HostPattern _ => true | _ => false end))
    ["*."; "**"; "a.*.example.com"; "*.*.example.com"; "*example.com"].

Definition a_tunnel_hostname_cannot_be_a_pattern : bool :=
  invalid (parsed ANY [("a", TOKEN_1)] [hostname_toml "*.example.com" "a" None] [] None)
    (λ e, match e with HostPattern _ => true | _ => false end).

Definition a_hostname_entry_takes_a_cert_too : bool :=
  invalid (parsed ANY [("a", TOKEN_1)]
    [{| he_host := "a.example.com"; he_client := "a"; he_tls_mode := Terminated;
        he_tls_cert_file := Some "a.crt"; he_tls_key_file := None |}] [] None)
    (λ e, match e with HostCertPair _ => true | _ => false end).

Definition validate_dynamic_relaxes_clients_but_keeps_acme : bool :=
  parses (parsed "127.0.0.1:4433" [] [] [] None)
    (λ empty, negb (is_ok (validate empty)) && is_ok (validate_dynamic empty)) &&
  parses (parsed "127.0.0.1:4433" [] [] [] (Some (acme_toml "ops@example.com" "/tmp/a")))
    (λ bad_acme, negb (is_ok (validate_dynamic bad_acme))).

Example config_tests :
  forallb id [parses_full_config; parses_hostnames_section; parses_tls_offload_mode;
              a_front_with_upstreams_only_needs_no_clients_key; rejects_no_clients_and_no_upstreams;
              rejects_empty_clients; tls_mode_defaults_to_terminated;
              rejects_duplicate_client_names; rejects_short_token; rejects_non_hex_token;
              rejects_duplicate_host; rejects_unknown_client_reference; parses_acme_section;
              rejects_acme_contact_without_mailto; a_host_cert_needs_its_key_and_a_terminating_mode;
              an_upstream_host_is_a_name_a_one_label_wildcard_or_the_catch_all;
              a_tunnel_hostname_cannot_be_a_pattern; a_hostname_entry_takes_a_cert_too;
              validate_dynamic_relaxes_clients_but_keeps_acme] = true.
Proof. vm_compute. reflexivity. Qed.

(** ** host_certs.rs, server.rs *)

(** The files [write_cert] leaves: the pairs for these hosts.  A loaded certificate
    is named by the pair it was read from; [Arc::ptr_eq] is then equality of names,
    since a pair is read once (which the reads of the loop show). *)
Definition write_cert (host : string) : PathBuf * PathBuf := ("/tmp/" +:+ host +:+ ".crt", "/tmp/" +:+ host +:+ ".key").
Definition chain_of (hosts : list string) (cert key : PathBuf) : result string (PathBuf * PathBuf) :=
  if bool_decide ((cert, key) ∈ write_cert <$> hosts) then Ok (cert, key) else Err "no such file".

Definition cert_entry (host addr : string) (mode : TlsMode) (files : option (PathBuf * PathBuf)) : UpstreamEntry :=
  {| ue_host := host; ue_local_addr := Some addr; ue_local_socket := None; ue_tls_mode := mode;
     ue_tls_cert_file := fst <$> files; ue_tls_key_file := snd <$> files |}.

(** [config(toml)]: the text parses and is valid; then the loop of [load]. *)
Definition loads (hosts : list string) (us : list UpstreamEntry)
    (check : load_state (K := PathBuf * PathBuf) → bool) : bool :=
  parses (parsed "127.0.0.1:0" [] [] us None) (λ c, is_ok (validate c) &&
    match load_entries (chain_of hosts) load_init (host_certs c) with Ok st => check st | Err _ => false end).

Definition each_host_gets_the_cert_of_its_entry_and_a_shared_file_loads_once : bool :=
  let a := write_cert "a.example.com" in
  let b := write_cert "b.example.org" in
  loads ["a.example.com"; "b.example.org"]
    [cert_entry "a.example.com" "127.0.0.1:1" Terminated (Some a);
     cert_entry "www.a.example.com" "127.0.0.1:1" Terminated (Some a);
     cert_entry "b.example.org" "127.0.0.1:1" TlsOffload (Some b);
     cert_entry "default.example.net" "127.0.0.1:1" Terminated None]
    (λ st, (select (certs st) "a.example.com" == Some a) && (select (certs st) "B.Example.ORG." == Some b) &&
       (select (certs st) "www.a.example.com" == Some a) && (reads st == [a; b]) &&
       negb (covers (certs st) "default.example.net") && negb (covers (certs st) "c.example.com")).

Definition a_host_without_an_entry_cert_takes_the_cert_of_its_wildcard_then_of_the_catch_all : bool :=
  let wild := write_cert "wild.example.com" in
  let any := write_cert "any.example.org" in
  loads ["wild.example.com"; "any.example.org"]
    [cert_entry "*.example.com" "127.0.0.1:1" Terminated (Some wild);
     cert_entry "*" "127.0.0.1:2" Terminated (Some any)]
    (λ st, (select (certs st) "www.example.com" == Some wild) && (select (certs st) "other.org" == Some any) &&
       (select (certs st) "a.b.example.com" == Some any) && (reads st == [wild; any])).

Definition a_cert_file_that_does_not_exist_fails_the_load : bool :=
  let us := [cert_entry "a.example.com" "127.0.0.1:1" Terminated (Some ("/nonexistent/a.crt", "/nonexistent/a.key"))] in
  parses (parsed "127.0.0.1:0" [] [] us None)
    (λ c, is_ok (validate c) && negb (is_ok (HostCerts.load (chain_of []) c))).

Definition a_host_with_its_own_cert_never_gets_an_acme_order : bool :=
  match build_cert_resolver demo_chain demo_acme_resolver demo_generate
          (Some (acme_toml "mailto:ops@example.com" "acme")) None None ["own.example.com"] [] with
  | Ok (_, Some controller) =>
      let c := ensure (E := string) demo_acme_resolver ["OWN.example.com"] controller in
      (added c == ∅) && (dom (dynamic (multi c)) == ∅)
  | _ => false
  end.

Example host_certs_tests :
  forallb id [each_host_gets_the_cert_of_its_entry_and_a_shared_file_loads_once;
              a_host_without_an_entry_cert_takes_the_cert_of_its_wildcard_then_of_the_catch_all;
              a_cert_file_that_does_not_exist_fails_the_load;
              a_host_with_its_own_cert_never_gets_an_acme_order] = true.
Proof. vm_compute. reflexivity. Qed.

(** ** public.rs *)

(** [lim.try_acquire(ip).expect(..)], [drop(permit)]. *)
Definition acquire (ip : string) (l : PerIpLimiter) : option PerIpLimiter :=
  match try_acquire ip l with (l, Some _) => Some l | (_, None) => None end.
Definition capped (ip : string) (l : PerIpLimiter) : option PerIpLimiter :=
  match try_acquire ip l with (l, None) => Some l | (_, Some _) => None end.

Definition per_ip_limiter_caps_and_releases : bool :=
  let ip := "127.0.0.1" in
  let other := "10.0.0.1" in
  let run :=
    lim ← acquire ip (PerIpLimiter_new 2);
    lim ← acquire ip lim;
    lim ← capped ip lim;
    lim ← acquire other lim;
    lim ← drop_permit ip lim;
    lim ← acquire ip lim;
    lim ← drop_permit ip lim;
    lim ← drop_permit ip lim;
    drop_permit other lim in
  match run with Some lim => counts lim == ∅ | None => false end.

Definition per_ip_cap_derives_from_global_with_floor : bool :=
  (max_conns_per_ip 1024 == 128) && (max_conns_per_ip 1 == 16).

(** ** meter.rs *)

(** The peer has written "hello"; [read_exact] of five bytes is one poll here, and
    so is [write_all] of two. *)
Definition the_meter_counts_reads_and_writes : bool :=
  let server := {| wire_in := [Chunk (as_bytes "hello")]; wire_out := []; wire_mtu := 64 |} in
  let metered := Metered_new server {| meter_read := 0; meter_written := 0 |} in
  let '(metered, buf, _) := Metered_poll_read metered {| filled := []; capacity := 5 |} in
  let '(metered, _) := Metered_poll_write metered (as_bytes "hi") in
  (filled buf == as_bytes "hello") &&
  ((meter_read (metered_meter metered), meter_written (metered_meter metered)) == (5, 2)%Z).

(** ** local_pool.rs *)

(** The host of [http://{host}/x] is the label itself. *)
Definition a_socket_path_survives_the_uri_authority : bool :=
  let path := "/run/app/http.sock" in
  (hex_decode (hex_encode (as_bytes path)) == Some (as_bytes path)) &&
  (hex_decode "abc" == None) && (hex_decode "zz" == None).

Example limits_tests :
  forallb id [per_ip_limiter_caps_and_releases; per_ip_cap_derives_from_global_with_floor;
              the_meter_counts_reads_and_writes; a_socket_path_survives_the_uri_authority] = true.
Proof. vm_compute. reflexivity. Qed.

(** ** h2proxy.rs *)

(** The addresses of the tests, as [IpAddr] parses and prints them. *)
Definition test_ips : list (string * IpAddr) :=
  [("2001:db8::7", V6 0x20010db8000000000000000000000007); ("203.0.113.7", V4 0xCB007107);
   ("192.0.2.1", V4 0xC0000201); ("::ffff:192.0.2.1", V6 0xffffc0000201)].
Definition test_parse_ip (s : string) : option IpAddr := snd <$> List.find (λ p, p.1 == s) test_ips.
Definition ip_bits (ip : IpAddr) : bool * Z := match ip with V4 b => (true, b) | V6 b => (false, b) end.
Definition test_show_ip (ip : IpAddr) : string :=
  default "" (fst <$> List.find (λ p, ip_bits p.2 == ip_bits ip) test_ips).

Definition headers (pairs : list (string * string)) : gmap string (list string) :=
  foldl (λ h p, insert_header p.1 p.2 h) empty_headers pairs.

Definition set_address (peer : string) (client : Client) (h : gmap string (list string)) :=
  set_client_address test_parse_ip test_show_ip (default (V4 0) (test_parse_ip peer)) client h.

Definition a_proxy_gives_the_client_address_in_cf_connecting_ip : bool :=
  let h := headers [("cf-connecting-ip", " 2001:db8::7 "); ("x-real-ip", "198.51.100.9")] in
  let h := set_address "192.0.2.1" Proxy h in
  (get h "x-real-ip" == Some "2001:db8::7") && (get h "x-forwarded-for" == Some "2001:db8::7") &&
  (get h "cf-connecting-ip" == Some " 2001:db8::7 ").

Definition a_direct_client_cannot_set_its_address : bool :=
  let h := headers [("cf-connecting-ip", "203.0.113.7"); ("x-real-ip", "198.51.100.9");
                    ("x-forwarded-for", "198.51.100.9, 10.0.0.1")] in
  let h := set_address "192.0.2.1" Direct h in
  (get h "x-real-ip" == Some "192.0.2.1") && (get h "x-forwarded-for" == Some "192.0.2.1") &&
  negb (contains_key h "cf-connecting-ip").

Definition a_proxy_without_a_valid_address_gives_the_peer : bool :=
  forallb (λ value : option string,
    let h := match value with
             | Some value => insert_header CF_CONNECTING_IP value empty_headers
             | None => empty_headers
             end in
    let h := set_address "::ffff:192.0.2.1" Proxy h in
    (get h "x-real-ip" == Some "192.0.2.1") && negb (contains_key h "cf-connecting-ip"))
    [None; Some "not an address"].

Example h2proxy_tests :
  forallb id [a_proxy_gives_the_client_address_in_cf_connecting_ip; a_direct_client_cannot_set_its_address;
              a_proxy_without_a_valid_address_gives_the_peer] = true.
Proof. vm_compute. reflexivity. Qed.
