(* ===== verification/ClientTests.v ===== *)
(** * The client's, the command line's and the codec's unit tests

    The [#[cfg(test)]] modules of [crates/tuyau-client/src/config.rs],
    [crates/tuyau-cli/src/main.rs] and [crates/tuyau-protocol/src/codec.rs], in the
    manner of [ServerTests].  A command line is given by the [ClientArgs] clap builds of
    it.  A temporary token file is the file system that has it. *)

From S2P Require Import Prelude Bytes Stream Protocol Config Client Cli ServerTests.

Local Open Scope string_scope.
Local Open Scope list_scope.
Local Notation "a == b" := (bool_decide (a = b)) (at level 70).

(** [text.contains(word)] *)
Fixpoint has_word (word text : string) : bool :=
  is_some (strip_prefix word text) ||
  match text with String.EmptyString => false | String.String _ text => has_word word text end.

(** ** tuyau-client: config.rs *)

(** What [toml::from_str] and [ClientConfig::from_toml_str] make of a document: the
    two hexadecimal fields, then the rules. *)
Definition client_toml (addr fingerprint token name : string) (rules : list (string * string)) :
    result string ClientConfig :=
  fingerprint ← deserialize_hex_32 demo_hex fingerprint;
  token ← deserialize_hex_32 demo_hex token;
  Ok {| server_addr := addr; server_cert_fingerprint_sha256 := fingerprint; cc_token := token;
        cc_client_name := name;
        ingress := (λ r, {| ir_host := r.1; ir_local_addr := r.2 |}) <$> rules |}.

Definition client_from_toml (doc : result string ClientConfig) : result ClientConfigError ClientConfig :=
  from_toml_str (λ _, doc) "".

Definition HEX_AA : string := "00000000000000000000000000000000000000000000000000000000000000aa".
Definition HEX_BB : string := "00000000000000000000000000000000000000000000000000000000000000bb".
Definition TUNNEL : string := "tunnel.example.com:4433".

Definition built {E} (r : result E ClientConfig) (check : ClientConfig → bool) : bool :=
  match r with Ok cfg => check cfg | Err _ => false end.

Definition parses_full_config : bool :=
  built (client_from_toml (client_toml TUNNEL HEX_AA HEX_BB "service-a" [])) (λ cfg,
    (server_addr cfg == TUNNEL) && (server_cert_fingerprint_sha256 cfg !! 31 == Some xaa) &&
    (cc_token cfg !! 31 == Some xbb) && (cc_client_name cfg == "service-a") && is_nil (ingress cfg)).

Definition parses_ingress_rules : bool :=
  built (client_from_toml (client_toml TUNNEL HEX_AA HEX_BB "service-a"
    [("alpha.example.com", "127.0.0.1:8080"); ("beta.example.com", "127.0.0.1:9000")])) (λ cfg,
    (length (ingress cfg) == 2) && (ir_host <$> ingress cfg !! 0 == Some "alpha.example.com") &&
    (ir_local_addr <$> ingress cfg !! 0 == Some "127.0.0.1:8080") &&
    (ir_host <$> ingress cfg !! 1 == Some "beta.example.com")).

Definition rejects_short_fingerprint : bool :=
  negb (is_ok (client_from_toml (client_toml "127.0.0.1:4433" "deadbeef" HEX_BB "a" []))).

Definition rejects_ingress_missing_port : bool :=
  match client_from_toml (client_toml TUNNEL HEX_AA HEX_BB "a" [("alpha.example.com", "127.0.0.1")]) with
  | Err (InvalidIngress index reason) => (index == 0) && has_word "missing" reason
  | _ => false
  end.

Definition rejects_ingress_non_numeric_port : bool :=
  match client_from_toml (client_toml TUNNEL HEX_AA HEX_BB "a" [("alpha.example.com", "127.0.0.1:abc")]) with
  | Err (InvalidIngress _ reason) => has_word "port" reason
  | _ => false
  end.

Definition accepts_ingress_with_hostname_port : bool :=
  built (client_from_toml (client_toml TUNNEL HEX_AA HEX_BB "a"
    [("alpha.example.com", "app:8080"); ("v6.example.com", "[::1]:8443")])) (λ cfg,
    (ir_local_addr <$> ingress cfg !! 0 == Some "app:8080") &&
    (ir_local_addr <$> ingress cfg !! 1 == Some "[::1]:8443")).

Definition rejects_non_hex_token : bool :=
  negb (is_ok (client_from_toml (client_toml "127.0.0.1:4433" HEX_AA
    "ZZ00000000000000000000000000000000000000000000000000000000000000" "a" []))).

Example client_config_tests :
  forallb id [parses_full_config; parses_ingress_rules; rejects_short_fingerprint;
              rejects_ingress_missing_port; rejects_ingress_non_numeric_port;
              accepts_ingress_with_hostname_port; rejects_non_hex_token] = true.
Proof. vm_compute. reflexivity. Qed.

(** ** tuyau-cli: main.rs *)

Definition HEX_A : string := "aaaaaaaaaaaaaaaaaaaaaaaaaaaaaaaaaaaaaaaaaaaaaaaaaaaaaaaaaaaaaaaa".
Definition HEX_B : string := "bbbbbbbbbbbbbbbbbbbbbbbbbbbbbbbbbbbbbbbbbbbbbbbbbbbbbbbbbbbbbbbb".

Definition empty_args : ClientArgs :=
  {| arg_config := None; arg_server := None; arg_fingerprint := None; arg_token_file := None;
     arg_name := None; arg_ingress := [] |}.

(** [Cli::try_parse_from(..).is_ok()] *)
Definition clap_accepts (args : ClientArgs) : bool := negb (conflicts args).

Definition clap_rejects_config_combined_with_per_field_flag : bool :=
  negb (clap_accepts {| arg_config := Some "/x.toml"; arg_server := Some "host:4433"; arg_fingerprint := None;
                        arg_token_file := None; arg_name := None; arg_ingress := [] |}).

Definition clap_accepts_config_alone : bool :=
  clap_accepts {| arg_config := Some "/x.toml"; arg_server := None; arg_fingerprint := None;
                  arg_token_file := None; arg_name := None; arg_ingress := [] |}.

Definition clap_accepts_flags_only : bool :=
  clap_accepts {| arg_config := None; arg_server := Some "host:4433"; arg_fingerprint := Some HEX_A;
                  arg_token_file := Some "/tok"; arg_name := None; arg_ingress := [] |}.

Definition no_vars : EnvVars :=
  {| env_server := None; env_fingerprint := None; env_token := None; env_token_file := None; env_name := None |}.

(** [writeln!(tok, ..)] into the temporary file, and the build over it. *)
Definition TOK_PATH : PathBuf := "/tmp/tok".
Definition newline : string := utf8 [x0a].
Definition temp_file (contents : string) (path : PathBuf) : result string string :=
  if decide (path = TOK_PATH) then Ok contents else Err "No such file or directory".
Definition stub_default_name : string := "stub-host".
Definition build (contents : string) (args : ClientArgs) (env : EnvVars) : result cli_error ClientConfig :=
  build_client_config_inner demo_hex (temp_file contents) (λ _, Err "no configuration file") args env stub_default_name.

(** [err.to_string().contains(word)]: the outermost message. *)
Definition fails_with {A} (word : string) (r : result cli_error A) : bool :=
  match r with Err (msg :: _) => has_word word msg | _ => false end.

Definition builds_from_flags_only : bool :=
  let args := {| arg_config := None; arg_server := Some "host:4433"; arg_fingerprint := Some HEX_A;
                 arg_token_file := Some TOK_PATH; arg_name := Some "explicit"; arg_ingress := [] |} in
  built (build (HEX_B +:+ newline) args no_vars) (λ cfg,
    (server_addr cfg == "host:4433") && (server_cert_fingerprint_sha256 cfg !! 0 == Some xaa) &&
    (cc_token cfg !! 0 == Some xbb) && (cc_client_name cfg == "explicit")).

Definition builds_from_env_only : bool :=
  let env := {| env_server := Some "envhost:4433"; env_fingerprint := Some HEX_A; env_token := None;
                env_token_file := Some TOK_PATH; env_name := Some "envname" |} in
  built (build (HEX_B +:+ newline) empty_args env) (λ cfg,
    (server_addr cfg == "envhost:4433") && (server_cert_fingerprint_sha256 cfg !! 0 == Some xaa) &&
    (cc_token cfg !! 0 == Some xbb) && (cc_client_name cfg == "envname")).

Definition flag_overrides_env : bool :=
  let args := {| arg_config := None; arg_server := Some "flag:4433"; arg_fingerprint := Some HEX_A;
                 arg_token_file := None; arg_name := Some "flag-name"; arg_ingress := [] |} in
  let env := {| env_server := Some "env:9999"; env_fingerprint := Some HEX_B; env_token := Some HEX_B;
                env_token_file := None; env_name := Some "env-name" |} in
  built (build "" args env) (λ cfg,
    (server_addr cfg == "flag:4433") && (server_cert_fingerprint_sha256 cfg !! 0 == Some xaa) &&
    (cc_client_name cfg == "flag-name") && (cc_token cfg !! 0 == Some xbb)).

Definition errors_on_missing_server : bool :=
  let env := {| env_server := None; env_fingerprint := Some HEX_A; env_token := Some HEX_B;
                env_token_file := None; env_name := None |} in
  fails_with "server" (build "" empty_args env).

Definition errors_on_missing_fingerprint : bool :=
  let env := {| env_server := Some "h:4433"; env_fingerprint := None; env_token := Some HEX_B;
                env_token_file := None; env_name := None |} in
  fails_with "fingerprint" (build "" empty_args env).

Definition errors_on_missing_token : bool :=
  let env := {| env_server := Some "h:4433"; env_fingerprint := Some HEX_A; env_token := None;
                env_token_file := None; env_name := None |} in
  fails_with "token" (build "" empty_args env).

Definition token_file_strips_trailing_whitespace : bool :=
  let env := {| env_server := Some "h:4433"; env_fingerprint := Some HEX_A; env_token := None;
                env_token_file := None; env_name := None |} in
  let args := {| arg_config := None; arg_server := None; arg_fingerprint := None;
                 arg_token_file := Some TOK_PATH; arg_name := None; arg_ingress := [] |} in
  built (build (HEX_B +:+ "  " +:+ newline) args env) (λ cfg, cc_token cfg !! 0 == Some xbb).

Definition default_client_name_is_used_when_no_flag_nor_env : bool :=
  let env := {| env_server := Some "h:4433"; env_fingerprint := Some HEX_A; env_token := None;
                env_token_file := Some TOK_PATH; env_name := None |} in
  built (build (HEX_B +:+ newline) empty_args env) (λ cfg, cc_client_name cfg == "stub-host").

Definition parse_hex_32_rejects_wrong_length : bool := negb (is_ok (parse_hex_32 demo_hex "deadbeef")).

Definition parse_hex_32_rejects_non_hex : bool :=
  negb (is_ok (parse_hex_32 demo_hex (utf8 (replicate 64 x7a)))).

Definition parse_ingress_single_and_multiple : bool :=
  match parse_ingress ["alpha.example.com=127.0.0.1:8080"; "beta.example.com=10.0.0.2:9000"] with
  | Ok [r0; r1] =>
      (ir_host r0 == "alpha.example.com") && (ir_local_addr r0 == "127.0.0.1:8080") &&
      (ir_host r1 == "beta.example.com") && (ir_local_addr r1 == "10.0.0.2:9000")
  | _ => false
  end.

Definition parse_ingress_rejects_missing_equals : bool :=
  fails_with "HOST=LOCAL_ADDR" (parse_ingress ["alpha.example.com"]).

Definition parse_ingress_rejects_empty_side : bool :=
  negb (is_ok (parse_ingress ["=127.0.0.1:8080"])) && negb (is_ok (parse_ingress ["alpha.example.com="])).

Definition builds_ingress_from_flags : bool :=
  let args := {| arg_config := None; arg_server := Some "host:4433"; arg_fingerprint := Some HEX_A;
                 arg_token_file := Some TOK_PATH; arg_name := None;
                 arg_ingress := ["alpha.example.com=127.0.0.1:8080"] |} in
  built (build (HEX_B +:+ newline) args no_vars) (λ cfg,
    (length (ingress cfg) == 1) && (ir_host <$> ingress cfg !! 0 == Some "alpha.example.com") &&
    (ir_local_addr <$> ingress cfg !! 0 == Some "127.0.0.1:8080")).

Example cli_tests :
  forallb id [clap_rejects_config_combined_with_per_field_flag; clap_accepts_config_alone; clap_accepts_flags_only;
    builds_from_flags_only; builds_from_env_only; flag_overrides_env; errors_on_missing_server;
              errors_on_missing_fingerprint; errors_on_missing_token; token_file_strips_trailing_whitespace;
              default_client_name_is_used_when_no_flag_nor_env; parse_hex_32_rejects_wrong_length;
              parse_hex_32_rejects_non_hex; parse_ingress_single_and_multiple;
              parse_ingress_rejects_missing_equals; parse_ingress_rejects_empty_side;
              builds_ingress_from_flags] = true.
Proof. vm_compute. reflexivity. Qed.

(** ** tuyau-protocol: codec.rs

    The codec over the bytes of RFC 8949 for its frames: a struct is a map from its
    field names, a unit variant its name, a struct variant a map from its name to
    its fields, the token a byte string, read by [visit_bytes]. *)

Local Open Scope Z_scope.

Definition cbor_head (major n : Z) : list byte :=
  if n <? 24 then [to_u8 (32 * major + n)]
  else if n <? 256 then [to_u8 (32 * major + 24); to_u8 n]
  else if n <? 65536 then to_u8 (32 * major + 25) :: u16_to_be_bytes n
  else to_u8 (32 * major + 26) :: u32_to_be_bytes n.

Definition cbor_text (s : string) : list byte := cbor_head 3 (blen (as_bytes s)) ++ as_bytes s.
Definition cbor_bytes (bs : list byte) : list byte := cbor_head 2 (blen bs) ++ bs.

(** A head, a string and a byte string at the start of the input. *)
Definition get_head (bs : list byte) : option (Z * Z * list byte) :=
  match bs with
  | [] => None
  | b :: bs =>
      let n := Z.land (u8 b) 31 in
      let major := Z.shiftr (u8 b) 5 in
      if n <? 24 then Some (major, n, bs)
      else match n, bs with
           | 24, b0 :: bs => Some (major, u8 b0, bs)
           | 25, b0 :: b1 :: bs => Some (major, u16_from_be_bytes b0 b1, bs)
           | 26, b0 :: b1 :: b2 :: b3 :: bs => Some (major, u32_from_be_bytes b0 b1 b2 b3, bs)
           | _, _ => None
           end
  end.

Definition get_string (kind : Z) (bs : list byte) : option (list byte * list byte) :=
  '(major, n, bs) ← get_head bs;
  if (major =? kind) && (n <=? blen bs) then Some (take (Z.to_nat n) bs, drop (Z.to_nat n) bs) else None.

Definition get_text (bs : list byte) : option (string * list byte) :=
  '(s, bs) ← get_string 3 bs; Some (String.string_of_list_byte s, bs).

Definition get_key (name : string) (bs : list byte) : option (list byte) :=
  '(s, bs) ← get_text bs; if s == name then Some bs else None.

Definition get_map (n : Z) (bs : list byte) : option (list byte) :=
  '(major, k, bs) ← get_head bs; if (major =? 5) && (k =? n) then Some bs else None.

#[local] Instance Hello_cbor : Cbor Hello := {
  into_writer h :=
    Ok (cbor_head 5 2 ++ cbor_text "token" ++ cbor_bytes (token h) ++
        cbor_text "client_name" ++ cbor_text (client_name h));
  from_reader bs := ok_or "invalid" (
    bs ← get_map 2 bs; bs ← get_key "token" bs;
    '(t, bs) ← get_string 2 bs;
    t ← match visit_bytes t with Ok t => Some t | Err _ => None end;
    bs ← get_key "client_name" bs; '(name, _) ← get_text bs;
    Some {| token := t; client_name := name |})
}.

#[local] Instance HelloResponse_cbor : Cbor HelloResponse := {
  into_writer r :=
    Ok match r with
       | Welcome => cbor_text "Welcome"
       | Reject reason =>
           cbor_head 5 1 ++ cbor_text "Reject" ++ cbor_head 5 1 ++ cbor_text "reason" ++ cbor_text reason
       end;
  from_reader bs := ok_or "invalid"
    match get_key "Welcome" bs with
    | Some _ => Some Welcome
    | None =>
        bs ← get_map 1 bs; bs ← get_key "Reject" bs; bs ← get_map 1 bs; bs ← get_key "reason" bs;
        '(reason, _) ← get_text bs; Some (Reject reason)
    end
}.

#[local] Instance DataStreamHeader_cbor : Cbor DataStreamHeader := {
  into_writer h :=
    Ok (cbor_head 5 3 ++ cbor_text "hostname" ++ cbor_text (hostname h) ++ cbor_text "peer_addr" ++
        cbor_text (peer_addr h) ++ cbor_text "mode" ++ tls_mode_cbor (mode h));
  from_reader bs := ok_or "invalid" (
    bs ← get_map 3 bs; bs ← get_key "hostname" bs; '(hostname, bs) ← get_text bs;
    bs ← get_key "peer_addr" bs; '(peer_addr, bs) ← get_text bs; bs ← get_key "mode" bs;
    m ← match from_reader bs with Ok m => Some m | Err _ => None end;
    Some {| hostname := hostname; peer_addr := peer_addr; mode := m |})
}.

#[local] Instance Hello_eq_dec : EqDecision Hello.
Proof. solve_decision. Defined.
#[local] Instance HelloResponse_eq_dec : EqDecision HelloResponse.
Proof. solve_decision. Defined.
#[local] Instance DataStreamHeader_eq_dec : EqDecision DataStreamHeader.
Proof. solve_decision. Defined.

(** [codec.encode(item, &mut buf).unwrap()], then
    [codec.decode(&mut buf).unwrap().unwrap()]: the item again, and what is left. *)
Definition roundtrip {F} `{Cbor F} `{EqDecision F} (item : F) : bool :=
  match encode item [] with
  | (buf, Ok _) => match decode (F := F) buf with (rest, Ok (Some x)) => (x == item) && is_nil rest | _ => false end
  | (_, Err _) => false
  end.

Definition sample_hello : Hello := {| token := replicate 32 x07; client_name := "alice" |}.

Definition hello_roundtrip : bool := roundtrip sample_hello.
Definition welcome_roundtrip : bool := roundtrip Welcome.
Definition reject_roundtrip : bool := roundtrip (Reject "invalid token").

(** The loop over the bytes: [incoming] after the bytes so far. *)
Fixpoint byte_by_byte (incoming bytes : list byte) : bool :=
  match bytes with
  | [] => false
  | b :: bytes =>
      match decode (F := Hello) (incoming ++ [b]), bytes with
      | (incoming, Ok None), _ :: _ => byte_by_byte incoming bytes
      | (incoming, Ok (Some h)), [] => (h == sample_hello) && is_nil incoming
      | _, _ => false
      end
  end.

Definition split_reads_decode_byte_by_byte : bool :=
  match encode sample_hello [] with (wire, Ok _) => byte_by_byte [] wire | _ => false end.

Definition decode_oversized_length_prefix_rejected : bool :=
  match decode (F := Hello) (u32_to_be_bytes (MAX_FRAME_SIZE + 1)) with
  | (_, Err (OversizedFrame _ _)) => true
  | _ => false
  end.

(** [Cursor::new(bytes)] *)
Definition cursor (bytes : list byte) : Wire := {| wire_in := [Chunk bytes]; wire_out := []; wire_mtu := 0 |}.

Definition read_frame_rejects_bad_cbor_payload : bool :=
  match read_frame (F := Hello) (cursor [x00; x00; x00; x03; xff; xff; xff]) with
  | (_, Err (CborError _)) => true
  | _ => false
  end.

Definition read_frame_rejects_oversized_length : bool :=
  match read_frame (F := Hello) (cursor (u32_to_be_bytes (MAX_FRAME_SIZE + 1))) with
  | (_, Err (OversizedFrame _ _)) => true
  | _ => false
  end.

Definition data_stream_header_roundtrip_terminated : bool :=
  roundtrip {| hostname := "alpha.example.com"; peer_addr := "10.0.0.1:54321"; mode := Terminated |}.

Definition data_stream_header_roundtrip_passthrough : bool :=
  roundtrip {| hostname := "secure.example.com"; peer_addr := "2001:db8::1:443"; mode := Passthrough |}.

Definition encode_oversized_payload_rejected : bool :=
  let huge := {| token := replicate 32 x00;
                 client_name := String.string_of_list_byte (replicate (Z.to_nat (MAX_FRAME_SIZE + 100)) x78) |} in
  match encode huge [] with
  | (_, Err (OversizedFrame _ _)) => true
  | _ => false
  end.

Example codec_tests :
  forallb id [encode_oversized_payload_rejected; hello_roundtrip; welcome_roundtrip; reject_roundtrip; split_reads_decode_byte_by_byte;
              decode_oversized_length_prefix_rejected; read_frame_rejects_bad_cbor_payload;
              read_frame_rejects_oversized_length; data_stream_header_roundtrip_terminated;
              data_stream_header_roundtrip_passthrough] = true.
Proof. vm_compute. reflexivity. Qed.
