(* ===== verification/Scenarios.v ===== *)
(** * Integration tests

    The tests of [crates/tuyau-server/tests], [crates/tuyau-client/tests] that run a
    whole server, replayed on the model.  A test is a script: tunnels connect with a
    token, clients close, an operator kicks, visitors come; the runner takes the steps
    the code takes when the network does what the test makes it do.  Every run is an
    execution of the server ([run_script_reachable]), so the theorems of [Server] and
    [Dynamic] hold of the worlds the tests look at.

    Left out are the timing of the tests, their TLS clients and their backends'
    bytes ([Pipe] and [Upgrade] have the byte streams). *)

From S2P Require Import Prelude Bytes Sni Stream Protocol Config Routes Limits Backend Control.
From S2P Require Import Server LocalPool H2proxy Public Pipe System Dynamic Availability Upgrade.

Local Open Scope string_scope.
Local Open Scope list_scope.
Local Open Scope nat_scope.

(** ** Scripts *)

Inductive script_step :=
| Connects (c : Connection) (token : list byte)  (* connect, open a stream, send the hello *)
| Closes (c : Connection)                        (* the peer, or the network, closes *)
| Settles (c : Connection)                       (* the handler goes on as far as it can *)
| Kicks (client : string).                       (* TunnelServer::kick *)

Section runner.
(** The backend's answer to a token; [None] when it does not answer in time. *)
Context (grant_of : list byte → option (option ClientGrant)).

(** What happens next to handler [c], whose peer has sent [token]. *)
Definition next_event (token : list byte) (c : Connection) (w : World) (ph : phase) : option event :=
  match ph with
  | AwaitStream => Some StreamOpened
  | AwaitHello => Some (HelloFrame token)
  | AwaitAdmit t => Some match grant_of t with Some answer => AdmitAnswer answer | None => AdmitTimeout end
  | Granted _ | Displacing _ _ | Registering _ | WelcomeFailed _ | Removing _ | Unregistering _ => Some Tick
  | Welcoming _ | Rejecting _ => Some Sent
  | Linger => Some LingerOver
  | Serving _ => if decide (c ∈ closed w) then Some PeerClosed else None
  | Finished => None
  end.

(** What the peer reads when the handler leaves a phase. *)
Definition response_in (ph : phase) : list HelloResponse :=
  match ph with
  | Welcoming _ => [Welcome]
  | Rejecting reason => [Reject reason]
  | _ => []
  end.

Fixpoint drive_handler (fuel : nat) (token : list byte) (c : Connection) (w : World) : list HelloResponse * World :=
  match fuel with
  | O => ([], w)
  | S fuel =>
      match handlers w !! c with
      | None => ([], w)
      | Some h =>
          match ev ← next_event token c w (h_phase h); handle c ev w with
          | None => ([], w)
          | Some w' =>
              let '(rs, w') := drive_handler fuel token c w' in
              (response_in (h_phase h) ++ rs, w')
          end
      end
  end.

(** The connections that [kick] returned are closed. *)
Definition close_kicked (cs : list Connection) (w : World) : World :=
  foldl (λ w c, if decide (c ∈ kicked w) then set_kicked (kicked w ∖ {[c]}) (close c w) else w) w cs.

(** Eleven phases lie between the first and the last of a handler; each closes at
    most the connections it displaced. *)
Definition script_fuel : nat := 20.

Definition run_step (st : script_step) (w : World) : list HelloResponse * World :=
  match st with
  | Connects c token =>
      if decide (handlers w !! c = None) then drive_handler script_fuel token c (spawn c "127.0.0.1:9999" w)
      else ([], w)
  | Closes c => ([], close c w)
  | Settles c => drive_handler script_fuel [] c w
  | Kicks client => ([], let w := server_kick client w in close_kicked (elements (kicked w)) w)
  end.

Definition run_script (l : list script_step) (w : World) : list HelloResponse * World :=
  foldl (λ '(rs, w) st, let '(rs', w) := run_step st w in (rs ++ rs', w)) ([], w) l.

(** ** A script is an execution of the server *)

Context {B : Type} `{RoutingBackend B} (b : B).
Context (grants_admitted : ∀ token answer, grant_of token = Some answer → admits b token answer).

Lemma drive_handler_steps fuel token c w : rtc (step b) w (drive_handler fuel token c w).2.
Proof.
  revert w. induction fuel as [|fuel IH]; intros w; [done|]. simpl.
  destruct (handlers w !! c) as [h|] eqn:Hh; [|done].
  destruct (next_event token c w (h_phase h)) as [ev|] eqn:Hev; [|done]. simpl.
  destruct (handle c ev w) as [w'|] eqn:Hw; [|done].
  destruct (drive_handler fuel token c w') as [rs w''] eqn:Hd. simpl.
  eapply rtc_l; [|specialize (IH w'); rewrite Hd in IH; exact IH]. apply (Handle _ c ev); [|done].
  destruct ev; try exact I. intros h' t Hh' Ht. rewrite Hh in Hh'. injection Hh' as <-. unfold next_event in Hev. rewrite Ht in Hev.
  destruct (grant_of t) as [a|] eqn:Ha; [|done]. injection Hev as <-. by apply grants_admitted.
Qed.

Lemma close_kicked_steps cs w : rtc (step b) w (close_kicked cs w).
Proof.
  revert w. induction cs as [|c cs IH]; intros w; [done|]. cbn [close_kicked foldl]. case_decide; [|apply IH].
  eapply rtc_l; [by apply CloseKicked|apply IH].
Qed.

Lemma run_step_steps st w : rtc (step b) w (run_step st w).2.
Proof.
  destruct st; cbn [run_step snd].
  - case_decide; [|done]. eapply rtc_l; [by apply Spawn|apply drive_handler_steps].
  - apply rtc_once, ConnClosed.
  - apply drive_handler_steps.
  - eapply rtc_l; [apply Kick|apply close_kicked_steps].
Qed.

Lemma run_script_steps l rs w :
  rtc (step b) w (foldl (λ '(rs, w) st, let '(rs', w) := run_step st w in (rs ++ rs', w)) (rs, w) l).2.
Proof.
  revert rs w. induction l as [|st l IH]; intros rs w; [done|]. simpl.
  pose proof (run_step_steps st w) as Hs. destruct (run_step st w) as [rs' w']. etrans; [exact Hs|apply IH].
Qed.

Theorem run_script_reachable cfg l : reachable_world b cfg (run_script l (start_world cfg)).2.
Proof. apply run_script_steps. Qed.
End runner.

(** ** Visitors *)

(** A favourable visit, one step after the other in the world it leaves. *)
Fixpoint visit_through (fuel : nat) (tls : PublicTls) (hello : list byte) (alpn : option (list byte)) (cert : bool)
    (env : backend_env (gmap string (list string))) (req : Request (gmap string (list string))) (w : World) (v : visit) :
    visit * World * option Destination :=
  match fuel with
  | O => (v, w, None)
  | S fuel =>
      match visit_step demo_parse_ip demo_show_ip demo_parse_uri Some tls "oops" demo_visitor_ip w v
              (favourable hello alpn cert env req v) with
      | Some (v, w, Some d) => (v, w, Some d)
      | Some (v, w, None) => visit_through fuel tls hello alpn cert env req w v
      | None => (v, w, None)
      end
  end.

Definition comes (sni : string) (alpn : option (list byte)) (w : World) : visit * World * option Destination :=
  visit_through 16 demo_tls_any (craft_client_hello_with_sni sni) alpn false demo_env demo_request w Reading.

(** Visitors one after the other: where each went. *)
Fixpoint come (l : list (string * option (list byte))) (w : World) : list (option Destination) :=
  match l with
  | [] => []
  | (sni, alpn) :: l => let '(_, w, d) := comes sni alpn w in d :: come l w
  end.

(** The tunnel connection a visitor was sent to. *)
Definition tunnel_of (d : option Destination) : option Connection :=
  match d with Some (ToTunnel e) => Some (re_conn e) | _ => None end.

(** ** The configurations of the tests *)

Definition VALID_TOKEN : list byte := replicate 32 x42.
Definition WRONG_TOKEN : list byte := replicate 32 x99.

Definition test_config (public : option SocketAddr) (cs : list ClientEntry) (hs : list HostnameEntry)
    (us : list UpstreamEntry) (max_conns : option Z) : ServerConfig := {|
  listen_addr := "127.0.0.1:0"; public_listen_addr := public; tunnel_cert_dir := Some "/tmp/dir";
  clients := cs; hostnames := hs; acme := None; tls_cert_file := None; tls_key_file := None;
  upstreams := us; max_public_connections := max_conns; error_502_file := None; client_ca_file := None
|}.

Definition host_entry (host client : string) (tls_mode : TlsMode) : HostnameEntry :=
  {| he_host := host; he_client := client; he_tls_mode := tls_mode; he_tls_cert_file := None; he_tls_key_file := None |}.

Definition upstream_entry (host addr : string) (tls_mode : TlsMode) : UpstreamEntry :=
  {| ue_host := host; ue_local_addr := Some addr; ue_local_socket := None; ue_tls_mode := tls_mode;
     ue_tls_cert_file := None; ue_tls_key_file := None |}.

(** [spin_up_server_with] of [tuyau-client/tests/handshake.rs]. *)
Definition spin_up_server_with (hs : list HostnameEntry) : ServerConfig :=
  test_config None [{| ce_name := "service-a"; ce_token := VALID_TOKEN; ce_balance := LastWriteWins |}] hs [] None.

(** [dyn_cfg] of [tuyau-server/tests/dynamic.rs]. *)
Definition dyn_cfg : ServerConfig := test_config (Some "127.0.0.1:0") [] [] [] None.

Definition static_admit (cfg : ServerConfig) (token : list byte) : option (option ClientGrant) :=
  Some (StaticBackend_admit (StaticBackend_new cfg) token).

(** A script on a static server. *)
Definition run_static (cfg : ServerConfig) (l : list script_step) : list HelloResponse * World :=
  run_script (static_admit cfg) l (start_world cfg).

(** The backends of [dynamic.rs]. *)
Definition OneToken (token : list byte) (host : string) (t : list byte) : option (option ClientGrant) :=
  Some (if decide (t = token)
        then Some {| cg_client_name := "dyn"; cg_balance := RoundRobin; cg_hostnames := [(host, Passthrough)] |}
        else None).

Definition TwoTenants (t : list byte) : option (option ClientGrant) :=
  let grant name := Some {| cg_client_name := name; cg_balance := RoundRobin;
                            cg_hostnames := [("shop.example", Terminated)] |} in
  Some match t with
       | xaa :: _ => grant "alice"
       | xbb :: _ => grant "bob"
       | _ => None
       end.

Definition HangingBackend (t : list byte) : option (option ClientGrant) := None.

Definition open_conn (c : Connection) (w : World) : bool := negb (bool_decide (c ∈ closed w)).

(** ** Handshakes *)

Example connects_with_valid_token : (run_static (spin_up_server_with []) [Connects 1 VALID_TOKEN]).1 = [Welcome].
Proof. vm_compute. reflexivity. Qed.

Example rejected_on_wrong_token :
  (run_static (spin_up_server_with []) [Connects 1 WRONG_TOKEN]).1 = [Reject "invalid token"].
Proof. vm_compute. reflexivity. Qed.

Example server_closes_rejected_client :
  open_conn 1 (run_static (spin_up_server_with []) [Connects 1 WRONG_TOKEN]).2 = false.
Proof. vm_compute. reflexivity. Qed.

(** A peer that opens no stream, and one whose frame is not a hello. *)
Example server_closes_silent_client :
  open_conn 1 <$> handle 1 StreamTimeout (spawn 1 "127.0.0.1:9999" (start_world (spin_up_server_with []))) = Some false.
Proof. vm_compute. reflexivity. Qed.

Example reject_on_malformed_bytes :
  let w := spawn 1 "127.0.0.1:9999" (start_world (spin_up_server_with [])) in
  (λ w, (drive_handler (static_admit (spin_up_server_with [])) 1 [] 1 w).1) <$>
    (w ← handle 1 StreamOpened w; handle 1 HelloInvalid w) = Some [Reject "protocol error"].
Proof. vm_compute. reflexivity. Qed.

Definition two_hosts : ServerConfig :=
  spin_up_server_with [host_entry "alpha.example.com" "service-a" Terminated;
                       host_entry "beta.example.com" "service-a" Passthrough].

Example populates_active_hostnames_on_connect :
  active_hostnames (routes (start_world two_hosts)) = [] ∧
  active_hostnames (routes (run_static two_hosts [Connects 1 VALID_TOKEN]).2) = ["alpha.example.com"; "beta.example.com"].
Proof. split; vm_compute; reflexivity. Qed.

Definition one_host : ServerConfig := spin_up_server_with [host_entry "alpha.example.com" "service-a" Terminated].

Example clears_active_hostnames_on_disconnect :
  active_hostnames (routes (run_static one_host [Connects 1 VALID_TOKEN]).2) = ["alpha.example.com"] ∧
  active_hostnames (routes (run_static one_host [Connects 1 VALID_TOKEN; Closes 1; Settles 1]).2) = [].
Proof. split; vm_compute; reflexivity. Qed.

(** The first tunnel is closed by the second one's handler, and the host stays
    routed; also after the first one's handler has cleaned up. *)
Example last_write_wins_kicks_previous_connection :
  let w := (run_static one_host [Connects 1 VALID_TOKEN; Connects 2 VALID_TOKEN]).2 in
  open_conn 1 w = false ∧ open_conn 2 w = true ∧ active_hostnames (routes w) = ["alpha.example.com"] ∧
  active_hostnames (routes (drive_handler (static_admit one_host) script_fuel [] 1 w).2) = ["alpha.example.com"].
Proof. split_and!; vm_compute; reflexivity. Qed.

Example client_without_assigned_hostnames_does_not_affect_table :
  active_hostnames (routes (run_static (spin_up_server_with []) [Connects 1 VALID_TOKEN]).2) = [].
Proof. vm_compute. reflexivity. Qed.

(** ** Backends *)

Example cross_client_host_reassign_evicts_incumbent :
  let '(rs, w) := run_script TwoTenants [Connects 1 (replicate 32 xaa); Connects 2 (replicate 32 xbb)] (start_world dyn_cfg) in
  rs = [Welcome; Welcome] ∧ open_conn 1 w = false ∧ open_conn 2 w = true.
Proof. vm_compute. by split_and!. Qed.

Example admit_timeout_rejects_instead_of_hanging :
  (run_script HangingBackend [Connects 1 (replicate 32 x11)] (start_world dyn_cfg)).1 = [Reject "authorization timeout"].
Proof. vm_compute. reflexivity. Qed.

Definition one_token := OneToken (replicate 32 x07) "x.example".
Definition tunnels_of (w : World) : list (string * list string) :=
  (λ i, (ti_client_name i, ti_hostnames i)) <$> tunnels (control w).

Example observe_reports_tunnel_up_and_down :
  let w := (run_script one_token [Connects 1 (replicate 32 x07)] (start_world dyn_cfg)).2 in
  let w' := (run_script one_token [Closes 1; Settles 1] w).2 in
  ctl_events (control w) = [TunnelUp "dyn" "127.0.0.1:9999" ["x.example"]] ∧ tunnels_of w = [("dyn", ["x.example"])] ∧
  ctl_events (control w') = [TunnelUp "dyn" "127.0.0.1:9999" ["x.example"]; TunnelDown "dyn" "127.0.0.1:9999"] ∧
  tunnels_of w' = [].
Proof. split_and!; vm_compute; reflexivity. Qed.

Example kick_revokes_a_connected_client :
  let w := (run_script one_token [Connects 1 (replicate 32 x07)] (start_world dyn_cfg)).2 in
  let w' := (run_script one_token [Kicks "dyn"; Settles 1] w).2 in
  length (tunnels_of w) = 1 ∧ length (kick "dyn" (routes w)).2 = 1 ∧
  open_conn 1 w' = false ∧ last (ctl_events (control w')) = Some (TunnelDown "dyn" "127.0.0.1:9999") ∧
  tunnels_of w' = [] ∧ (kick "nobody" (routes w')).2 = [].
Proof. split_and!; vm_compute; reflexivity. Qed.

(** ** Visitors *)

Definition spin_up_with_public (hs : list HostnameEntry) : ServerConfig :=
  test_config (Some "127.0.0.1:0") [{| ce_name := "service-a"; ce_token := VALID_TOKEN; ce_balance := LastWriteWins |}]
    hs [] None.

(** The visitor is dropped, and no stream is opened on the tunnel. *)
Example public_tls_with_unknown_sni_is_dropped :
  let cfg := spin_up_with_public [host_entry "alpha.example.com" "service-a" Terminated] in
  let w := (run_static cfg [Connects 1 VALID_TOKEN]).2 in
  let '(v, _, d) := comes "ghost.example.com" None w in v = Ended ∧ d = None.
Proof. vm_compute. by split. Qed.

Example public_tls_dispatches_bytes_through_tunnel :
  let cfg := spin_up_with_public [host_entry "alpha.example.com" "service-a" Terminated] in
  tunnel_of (comes "alpha.example.com" None (run_static cfg [Connects 1 VALID_TOKEN]).2).2 = Some 1.
Proof. vm_compute. reflexivity. Qed.

(** The bytes of a passthrough host are piped without being decrypted. *)
Example public_tls_passthrough_forwards_raw_tls :
  let cfg := spin_up_with_public [host_entry "alpha.example.com" "service-a" Passthrough] in
  let '(v, _, d) := comes "alpha.example.com" None (run_static cfg [Connects 1 VALID_TOKEN]).2 in
  (match v with Piping _ plain _ => negb plain | _ => false end) = true ∧ tunnel_of d = Some 1.
Proof. vm_compute. by split. Qed.

Definition front (mode : TlsMode) : ServerConfig :=
  test_config (Some "127.0.0.1:0") [] [] [upstream_entry "front.example.com" "127.0.0.1:9000" mode] None.

Example local_upstream_passthrough_forwards_to_local_service :
  (comes "front.example.com" None (start_world (front Passthrough))).2 = Some (ToLocal (Tcp "127.0.0.1:9000")).
Proof. vm_compute. reflexivity. Qed.

(** Decrypted, and piped as bytes, not as HTTP. *)
Example tls_offload_pipes_plaintext_to_cleartext_backend :
  let '(v, _, d) := comes "front.example.com" None (start_world (front TlsOffload)) in
  v = Piping "front.example.com" true (Local_ (Tcp "127.0.0.1:9000")) ∧ d = Some (ToLocal (Tcp "127.0.0.1:9000")).
Proof. vm_compute. by split. Qed.

Example multi_client_routing_keeps_hostnames_isolated :
  let cfg := test_config (Some "127.0.0.1:0")
    [{| ce_name := "alpha-srv"; ce_token := replicate 32 xa0; ce_balance := LastWriteWins |};
     {| ce_name := "beta-srv"; ce_token := replicate 32 xb0; ce_balance := LastWriteWins |}]
    [host_entry "alpha.example.com" "alpha-srv" Terminated; host_entry "beta.example.com" "beta-srv" Terminated] [] None in
  let w := (run_static cfg [Connects 1 (replicate 32 xa0); Connects 2 (replicate 32 xb0)]).2 in
  tunnel_of <$> come [("alpha.example.com", Some ALPN_H1); ("beta.example.com", Some ALPN_H1)] w = [Some 1; Some 2].
Proof. vm_compute. reflexivity. Qed.

Example round_robin_spreads_public_connections_across_tunnels :
  let cfg := test_config (Some "127.0.0.1:0")
    [{| ce_name := "service-a"; ce_token := VALID_TOKEN; ce_balance := RoundRobin |}]
    [host_entry "alpha.example.com" "service-a" Terminated] [] None in
  let w := (run_static cfg [Connects 1 VALID_TOKEN; Connects 2 VALID_TOKEN]).2 in
  tunnel_of <$> come [("alpha.example.com", None); ("alpha.example.com", None)] w = [Some 1; Some 2].
Proof. vm_compute. reflexivity. Qed.

(** The second connection finds no permit; the first keeps its own. *)
Example public_connection_cap_sheds_excess :
  let '(st1, v1) := on_accept "127.0.0.1" (accept_init 1) in
  let '(st2, v2) := on_accept "127.0.0.1" st1 in
  v1 = Handled ∧ v2 = ShedGlobal ∧ live st2 = ["127.0.0.1"].
Proof. vm_compute. by split_and!. Qed.

(** ** What the backend sees *)

Abbreviation hmap := (gmap string (list string)).

Definition FORGED : hmap :=
  {[X_REAL_IP := ["198.51.100.9"]; X_FORWARDED_FOR := ["198.51.100.9"]; CF_CONNECTING_IP := ["203.0.113.7"]]}.

Definition get_request (headers : hmap) : Request hmap :=
  {| method := GET; uri := {| authority := Some "app.test"; path_and_query := Some "/" |}; version := HTTP_2;
     req_headers := headers; protocol := None; has_body := false |}.

Definition app_config : ServerConfig :=
  test_config (Some "127.0.0.1:0") [] [] [upstream_entry "app.test" "127.0.0.1:9000" Terminated] None.

(** A backend that answers 200, or one that does not listen. *)
Definition listening (up : bool) : backend_env hmap :=
  {| opens := up; handshakes := up; upgrades := up;
     answer := if up then Some {| status := 200; resp_headers := empty_headers; body := BackendBody |} else None |}.

(** The three address headers the backend was sent, from a peer at 192.0.2.1. *)
Definition backend_saw (client : Client) (req : Request hmap) : option (list (list string)) :=
  let w := start_world app_config in
  ex ← value (proxy demo_parse_ip demo_show_ip demo_parse_uri Some (listening true) (is_closed w) req (routes w)
                "app.test" demo_visitor_ip client "oops").1;
  (λ dq, get_all (req_headers dq.2) <$> [X_REAL_IP; X_FORWARDED_FOR; CF_CONNECTING_IP]) <$> sent ex.

Example without_a_client_ca_the_backend_gets_the_peer_and_no_forged_address :
  backend_saw (h1_client (PublicTls_new false Any)) (get_request FORGED) = Some [["192.0.2.1"]; ["192.0.2.1"]; []].
Proof. vm_compute. reflexivity. Qed.

Example behind_the_client_ca_the_backend_gets_cf_connecting_ip :
  let proxy_client := h1_client (PublicTls_new false (SignedBy "ca.pem")) in
  backend_saw proxy_client (get_request FORGED) = Some [["203.0.113.7"]; ["203.0.113.7"]; ["203.0.113.7"]] ∧
  backend_saw proxy_client (get_request {[CF_CONNECTING_IP := ["nope"]]}) = Some [["192.0.2.1"]; ["192.0.2.1"]; []].
Proof. split; vm_compute; reflexivity. Qed.

(** A visitor without ALPN is reverse-proxied to an upstream, never piped. *)
Example a_client_without_alpn_cannot_bring_its_own_address_to_an_upstream :
  let '(v, _, d) := comes "app.test" None (start_world app_config) in
  v = Http "app.test" false Direct [] ∧ d = Some (ToPool (Tcp "127.0.0.1:9000")).
Proof. vm_compute. by split. Qed.

Example a_backend_that_does_not_listen_gives_a_502 :
  let w := start_world app_config in
  (λ ex, status (response ex)) <$>
    value (proxy demo_parse_ip demo_show_ip demo_parse_uri Some (listening false) (is_closed w) (get_request empty_headers)
             (routes w) "app.test" demo_visitor_ip Direct "oops").1 = Some 502%Z.
Proof. vm_compute. reflexivity. Qed.

(** The headers reach the backend with the upgrade; its 101 goes back. *)
Definition h1_ws : Request hmap :=
  {| method := GET; uri := {| authority := None; path_and_query := Some "/ws" |}; version := HTTP_11;
     req_headers := {[HOST := ["app.test"]; CONNECTION := ["Upgrade"]; UPGRADE := ["websocket"];
                      X_REAL_IP := ["198.51.100.9"]]};
     protocol := None; has_body := false |}.

Example an_h1_websocket_upgrade_reaches_the_backend_with_the_client_address :
  backend_saw Direct h1_ws = Some [["192.0.2.1"]; ["192.0.2.1"]; []] ∧
  (λ c, (status <$> c_response c, c_bridge c)) <$>
    call_run "oops" H1Upgrade [HandshakeOk; Answered demo_101; BackendUp; ClientUp] (call_of (upgrade_request h1_ws))
  = Some (Some 101%Z, Some (Splicing splice_local)).
Proof. split; vm_compute; reflexivity. Qed.

(** A 200 for the browser, and the echo of its frame comes back. *)
Example websocket_over_h2_bridges_to_h1_upgrade :
  let evs := [HandshakeOk; Answered demo_101; BackendUp; ClientUp;
              Flow (SUpSource (Writes (as_bytes "ping"))); Flow (SUp (ReadSome 4)); Flow (SUp (WriteSome 4));
              Flow (SDownSource (Writes (as_bytes "ping"))); Flow (SDown (ReadSome 4)); Flow (SDown (WriteSome 4))] in
  match call_run "oops" WsBridge evs demo_call with
  | Some c => (status <$> c_response c) = Some 200%Z ∧
      (match c_bridge c with
       | Some (Splicing s) => ch_sent (h_out (sp_up s).2) = as_bytes "ping" ∧ ch_sent (h_out (sp_down s).2) = as_bytes "ping"
       | _ => False
       end)
  | None => False
  end.
Proof. vm_compute. by split_and!. Qed.

(** ** Witness *)

Lemma run_script_reachable_witness :
  reachable_world (StaticBackend_new one_host) one_host
    (run_static one_host [Connects 1 VALID_TOKEN; Connects 2 VALID_TOKEN]).2.
Proof. apply (run_script_reachable (static_admit one_host)). intros token answer [= <-]. reflexivity. Defined.
